(* ===== verification/_CoqProject ===== *)
-Q . S2P
Prelude.v
Value.v
Ast.v
Range.v
Subsume.v
RangeOverlap.v
Cast.v
Evaluate.v
Extract.v
Catalog.v
ConstraintIndex.v
PointProbe.v
UpdateQuery.v
Invalidation.v
Branches.v
Admission.v
Pipeline.v
WriteAggregate.v
WriteLog.v
Egress.v
Statement.v
SearchPath.v
Session.v
WriteQueue.v
Dispatch.v
Lifecycle.v
Memo.v
MvShape.v
Mv.v
Wire.v
CacheConn.v
Serve.v
Extended.v
Transparency.v
TransparencyGap.v
