(* ===== verification/Prelude.v ===== *)
(** * pgcache: a verification development

    pgcache is a transparent caching proxy for PostgreSQL.  It keeps the rows a
    cached query needs in a cache database, serves the query from there, and keeps
    the rows fresh from logical replication (CDC).  This development models the
    decisions that make a cached answer right: which rows a query constrains, when
    one cached query covers another, which cached queries a replicated row touches,
    and when a query must be invalidated because its rows can no longer be
    maintained in place.

    ** How the parts interact

    A query is resolved against the catalog ([Ast], [Catalog]).  The admission
    analysis ([Admission]) splits it into SELECT branches and derives one update
    query per table ([Branches]), extracts constraints [column op literal] from WHERE
    and joins ([Extract]), decides whether the WHERE can be evaluated locally
    ([Evaluate], [Cast]) and registers the update query with the relation
    ([UpdateQuery]), in a map and in two constraint indexes ([ConstraintIndex]).  A
    new query is covered by cached ones when the ranges of its constraints are
    subsumed by theirs ([Range], [Subsume]).  A replicated row is read in several
    ways and probes the index for the queries it can match ([PointProbe]); the
    invalidation check ([Invalidation]) runs on those candidates and a few carve-outs.
    [Pipeline] composes these.

    A connection forwards statements and serves reads.  Statements are classified by
    their effects ([Statement]); the session tracks isolation and search path from them
    and from probes it injects ([Session], [SearchPath]); writes not yet replicated are
    kept in a log that decides whether a read may be served ([RangeOverlap],
    [WriteAggregate], [WriteLog]); responses of origin and cache leave in request order
    ([Egress]).  A read that may be served is dispatched on the state of its entry or
    parked behind the population in flight ([Dispatch]); the writer registers,
    populates, readmits, invalidates and evicts entries concurrently ([Lifecycle]); a
    served response waits in a ring of chunks for the socket ([WriteQueue]) and may be
    kept as bytes that later requests are answered from until a frame touches them
    ([Memo]).  A serve borrows a pooled connection to the cache database, sends a pipeline
    of protocol messages, relays the answer and gives the connection back ([Wire],
    [CacheConn], [Serve]); results worth it are materialized in tables of the cache
    database, rebuilt after frames that touch them ([MvShape], [Mv]).  A client of the
    extended protocol has its messages buffered up to Sync or Flush, answered from
    remembered descriptions, from the cache or from origin ([Extended]); [Transparency]
    runs it beside a client connected to PostgreSQL directly.

    ** Files

    - [Prelude]: automation and the list lemmas the other files share.
    - [Value]: literals, binary64 floats as exact rationals with infinities, [i64],
      operators and the literal orders (src/src/query/ast/types/expr.rs, parts of
      constraints/range.rs and range_overlap.rs).
    - [Ast]: the resolved AST (src/src/query/resolved/mod.rs).
    - [Range]: column ranges, [column_range_build] and [column_range_subsumes]
      (src/src/query/constraints/range.rs).  [PgCompare] and [PgColumn] are the
      interface to PostgreSQL's comparison of a column's values with literals.
    - [Subsume]: table subsumption and [subsumption_covered]
      (constraints/subsume.rs, cache/admission/subsume.rs); [SubsumerSource] is the
      interface between admission and the registry.
    - [RangeOverlap]: containment and disjointness (constraints/range_overlap.rs).
    - [Cast], [Evaluate]: casts, comparisons in canonical form, the WHERE evaluator
      on replicated text rows and compiled predicates (query/cast.rs, evaluate.rs,
      predicate.rs).
    - [Extract]: constraint extraction and propagation (constraints/extract.rs).
    - [Catalog]: column stores and table metadata (catalog.rs).
    - [ConstraintIndex], [PointProbe]: the index, its two lookups and the readings of
      a row (query/constraint_index/).
    - [UpdateQuery]: a relation's update queries with their bookkeeping
      (cache/update_query.rs, registration and removal).
    - [Invalidation]: row matching and the invalidation decision
      (cache/writer/cdc/row_match.rs, invalidation.rs).
    - [Branches]: walks over the AST, branches with subquery kinds, outer joins,
      update queries per table (query/resolved/traverse.rs, subquery_collect.rs,
      cache/query/outer_join.rs, query/update.rs).
    - [Admission]: classifiers and the per-table derivation (cache/admission/).
    - [Pipeline]: the path from a row event to the queries it invalidates.
    - [WriteAggregate], [WriteLog]: the read-your-writes log of a connection
      (proxy/connection/write_log/) and its gate.
    - [Egress]: the ordered egress queue (proxy/egress.rs).
    - [Statement]: effects of statements (query/write.rs, ast/convert_raw/write.rs,
      proxy/search_path/mutations.rs, proxy/query.rs).
    - [SearchPath]: the search_path value (proxy/search_path/value.rs).
    - [Session]: isolation and search-path tracking with its probes
      (proxy/connection/transaction_isolation.rs, search_path_intercept.rs, relay.rs),
      composed with a relation for the server.
    - [WriteQueue]: the chunk ring of a serve (cache/write_queue.rs).
    - [Dispatch]: serve decision, guarded view write, coalescing queue and drains
      (cache/serve_decision.rs, query/limit.rs, coalesce_queue.rs, query_cache/).
    - [Lifecycle]: the entry's state machine over dispatch, writer, workers and drain
      task, with generations (cache/writer/, cache/types.rs, cache/generation.rs).
    - [Memo]: the result memo, its seqlock slots, captures and the bracket a CDC frame
      puts around its commit (cache/memo.rs, cache/writer/cdc/frame.rs).
    - [MvShape]: which shapes are materialized, their serve plans and first-build gate
      (cache/mv_shape.rs, cache/mv.rs, cache/writer/mv_build.rs).
    - [Mv]: the state machine of materialized results, with builds, completions, hits,
      backoff and what the CDC frame and the life cycle do to it (cache/mv.rs,
      cache/writer/mv.rs, mv_build.rs, cache/fast_path.rs).
    - [Wire]: the codecs, parsers and encoders of the PostgreSQL protocol
      (src/src/pg/protocol/); [StreamDecoder] is the interface between a codec and the
      readers of frames above it.
    - [CacheConn]: a connection to the cache database and its prepared statements
      (pg/cache_connection.rs, the sending half of cache/serve.rs), composed with the
      server's bookkeeping of statements.
    - [Serve]: a serve from the first byte to the reply (cache/serve.rs, cache/serve/,
      the guard of cache/runtime/serve_pool.rs).
    - [Extended]: the extended protocol of a client connection: statements, portals, the
      buffered batch, its dispatch to the cache, lazy Parses, synthesised descriptions
      (proxy/connection/extended.rs, extended_buffer.rs, cache_batch.rs, describe_synth.rs,
      describe_cache.rs).
    - [Transparency], [TransparencyGap]: that connection and PostgreSQL's bookkeeping of
      statements and portals, composed and compared with a direct connection.

    ** Conventions

    Definitions keep the source's names; a method is named after its type where the
    name alone is ambiguous.  A [HashMap] or [BTreeMap] is a [gmap], a set a [gset] or,
    where the source compares with its own equality, a list without duplicates; a
    [Vec] is a list; [Option] is [option].  A mutation of [&mut self] returns the new
    state.  An [i64] is a [Z] with its range written out; [f64] is modelled exactly,
    with the rounding of integer conversion and decimal parsing.  Row values are the
    texts PostgreSQL sends.  All definitions compute.

    Some loops are not structural.  Constraint propagation has as fuel the number of
    constraints times twice the number of equivalences, and
    [Extract.propagate_constraints_closure] proves that it stops within it.  The advance
    of the write queue has as fuel the bytes to advance and the chunks, of which every
    turn uses one; [WriteQueue.write_queue_refines] holds with it.  The loops over a
    protocol buffer have its length as fuel, and every turn takes a byte;
    [Wire.data_rows_batch_exits] shows that batching stops by its condition.  Concurrency is a
    step function on labels, so that a history is a list of labels and a run computes.
    [Lifecycle] assumes the 64-bit generation counter is not used up.

    Where a step of a model is coarser than the code its definition says so.  The ones
    that matter: [Lifecycle.cache_query_evict] is one step, though the code awaits the drop
    of a materialized table in its middle; [Lifecycle.population_start] does not fail,
    where the code runs the clean-up of a failed registration when the dispatcher has gone;
    [Memo.memo_hit_fresh] is about insertions in one piece under a fixed budget, while
    [Memo.memo_accounting] has overtaken insertions and budget changes; [Wire] gives back
    the text of a bound literal without pinning how it is rendered.

    The typed columns of several theorems are an interface: [Range.PgColumn] says that the
    column's comparisons extend the code's order on the literals used with it.  Integers,
    floats and booleans satisfy it; text under a collation other than C and timestamps
    spelled as text do not, and are what [Subsume.TextGap] is about.

    ** What the theorems show

    - Ranges are exact: [Range.column_range_build_exact], and subsumption implies
      inclusion of rows at every level: [Range.column_range_subsumes_sound],
      [Subsume.table_constraints_subsumed_sound],
      [Subsume.subsumption_covered_sound].  Overlap answers are sound:
      [RangeOverlap.column_range_contains_sound] and
      [RangeOverlap.column_ranges_disjoint_sound].
    - Extraction is implied by the query and, when it reports completeness, says all
      of it: [Extract.analyze_query_constraints_sound],
      [Extract.analyze_query_constraints_complete].
      Both read joins as inner joins and take no table twice.
    - Local evaluation is SQL's three-valued logic on typed columns where SQL's value is
      known, exactly so without NOT, and compiling is evaluating: [Evaluate.where_expr_evaluate_sql],
      [Evaluate.compiled_predicate_equiv], [Admission.local_eval_decides_where].
    - The index refines the registry it is built from, for any sequence of operations,
      and the probe of a row misses no query the row matches:
      [ConstraintIndex.index_point_exact], [ConstraintIndex.index_candidates_exact],
      [PointProbe.point_probe_complete].
    - A relation's bookkeeping equals its recomputation after any sequence of
      registrations and removals: [UpdateQuery.update_queries_accounting],
      [UpdateQuery.update_queries_refine].
    - Narrowing the invalidation check, skipping it for queries that are not
      change-dependent, the toast fallback and in-place promotion inside a LIMIT
      window lose no invalidation: [Invalidation.narrowed_check_exact],
      [Admission.admitted_skip_safe], [Invalidation.toast_fallback_conservative],
      [Invalidation.promotion_keeps_window], and end to end
      [Pipeline.integer_events_narrowed_exact].
    - Every table of a query is tracked, and the subquery changes the uncached-row check
      lets pass only contract the result of a clause of AND, OR, NOT, IS TRUE and IS NOT
      FALSE over subquery links: [Branches.update_queries_cover_tables],
      [Branches.skipped_subquery_changes_contract].

    - A read let through by the read-after-write gate overlaps no pending write of its
      connection, the folded log decides as the list of its statements does, and it
      drains: [WriteLog.gate_reads_own_writes], [WriteAggregate.aggregate_exact],
      [WriteLog.write_log_drains], [WriteLog.write_log_bounded].
    - As long as origin sends nothing unasked and the reply to a Flush is awaited, the
      client receives complete responses in request order and the queue drains.  A client
      that sends one statement at a time, leaves the isolation default alone while a probe
      is in flight and names no level on a nested BEGIN receives only the replies to its
      own statements, and its reads inside a block are served only under READ COMMITTED:
      [Egress.egress_delivers_in_order], [Egress.egress_drains],
      [Session.probes_invisible], [Session.piggyback_transparent],
      [Session.serve_check_read_committed], [SearchPath.search_path_roundtrip].
    - A parked request is answered exactly once and never orphaned, a loading entry has
      what ends it, and a ready entry is live and not purged:
      [Dispatch.coalesce_answers_once], [Lifecycle.no_orphaned_waiter],
      [Lifecycle.loading_entry_has_cause], [Lifecycle.ready_entry_live].
    - A memo hit is the response on the committed state and the memo's byte total and
      relation membership are exact: [Memo.memo_hit_fresh], [Memo.memo_accounting].
    - A materialized result of a gated shape always has a serve plan, and what the plan
      reads from it answers ORDER BY, LIMIT and OFFSET when the NULLS order is the default
      and no table is repeated:
      [MvShape.gated_shape_has_plan], [MvShape.mv_answer_valid].  The table a hit reads
      holds the rows on the committed state, tables and builds are accounted for, and the
      rebuild backoff is bounded: [Mv.mv_hit_current], [Mv.mv_tables_tracked],
      [Mv.mv_backoff_bounded].
    - Protocol frames survive any cutting of the stream, and what the proxy writes reads
      back as what it meant: [Wire.backend_stream_framing],
      [Wire.extended_query_roundtrip], [Wire.startup_roundtrip],
      [Wire.result_formats_exact].  A connection's statement registry mirrors the server:
      [CacheConn.prepared_in_step].  A serve answers its clients exactly, or fails without
      a trace on the primary client's wire (a broken socket or a closed pool channel
      apart), and settles the pool once:
      [Serve.serve_answers_exactly], [Serve.serve_failure_safe].
    - A driver that prepares a name once, runs one Execute per Sync and waits receives the
      bytes a direct connection would have sent, if PostgreSQL's descriptions do not change
      and the cache serves what origin would answer: [Transparency.proxy_transparent].

    The modules named [...Gap] hold theorems about inputs on which the code does not
    do what it means to; they are the counterpart of the hypotheses of the properties.

    ** What is not modelled

    Socket I/O, TLS, SQL execution against the origin and cache databases, the parser
    library, name resolution, decorrelation and SQL text generation; settings, metrics
    and telemetry; of the writer, staging tables, deleted-key tracking, the LSN gate of
    merges and the row replay of the CDC frame; the elastic sizing of the serve pool;
    the cacheability rules, parameter decoding and the registration rate gate. *)

From Stdlib Require Export QArith Qround Qcanon Btauto.
From stdpp Require Export base tactics list gmap strings fin_maps countable numbers.
#[export] Set Default Goal Selector "1".

(** ** Automation *)

Create HintDb pgc discriminated.

(** Split every boolean connective in the context into propositions. *)
Ltac bool_hyps :=
  repeat match goal with
  | H : (_ && _)%bool = true |- _ => apply andb_true_iff in H as [? ?]
  | H : (_ || _)%bool = false |- _ => apply orb_false_iff in H as [? ?]
  | H : negb _ = true |- _ => apply negb_true_iff in H
  | H : negb _ = false |- _ => apply negb_false_iff in H
  | H : bool_decide _ = true |- _ => apply bool_decide_eq_true in H
  | H : bool_decide _ = false |- _ => apply bool_decide_eq_false in H
  end.

(** ** Lists *)

Lemma Forall_elem {A} (P : A -> Prop) (l : list A) :
  Forall P l <-> forall x, x ∈ l -> P x.
Proof. apply list.Forall_forall. Qed.

Lemma forallb_elem {A} (f : A -> bool) (l : list A) :
  forallb f l = true <-> forall x, x ∈ l -> f x = true.
Proof. rewrite forallb_forall. by setoid_rewrite list_elem_of_In. Qed.

Lemma existsb_elem {A} (f : A -> bool) (l : list A) :
  existsb f l = true <-> exists x, x ∈ l /\ f x = true.
Proof. rewrite existsb_exists. by setoid_rewrite list_elem_of_In. Qed.

Lemma existsb_false {A} (f : A -> bool) (l : list A) :
  existsb f l = false <-> forall x, x ∈ l -> f x = false.
Proof.
  rewrite <- not_true_iff_false, existsb_elem. split.
  - intros H x Hx. destruct (f x) eqn:E; [|done]. exfalso. eauto.
  - intros H (x & Hx & E). by rewrite H in E.
Qed.

Lemma filter_elem {A} (f : A -> bool) (l : list A) x :
  x ∈ List.filter f l <-> x ∈ l /\ f x = true.
Proof. rewrite !list_elem_of_In. apply filter_In. Qed.

Lemma flat_map_elem {A B} (f : A -> list B) (l : list A) y :
  y ∈ flat_map f l <-> exists x, x ∈ l /\ y ∈ f x.
Proof. rewrite list_elem_of_In, in_flat_map. by setoid_rewrite list_elem_of_In. Qed.

Lemma forallb_ext {A} (f g : A -> bool) l :
  (forall x, x ∈ l -> f x = g x) -> forallb f l = forallb g l.
Proof.
  induction l as [|x l IH]; intros H; simpl; [done|].
  rewrite (H x), IH; [done| |by left]. intros y Hy. apply H. by right.
Qed.

Lemma forallb_map {A B} (g : A -> B) (f : B -> bool) l :
  forallb f (map g l) = forallb (fun x => f (g x)) l.
Proof. induction l as [|x l IH]; simpl; by rewrite ?IH. Qed.

Lemma forallb_const_true {A} (l : list A) : forallb (fun _ => true) l = true.
Proof. by induction l. Qed.

Lemma zip_fst_take {A B} (l : list A) (k : list B) : (zip l k).*1 = take (length k) l.
Proof. revert k. induction l as [|a l IH]; intros [|b k]; simpl; [done..|]. by rewrite IH. Qed.

Lemma zip_NoDup {A} (columns : list string) (row : list A) :
  NoDup columns -> NoDup (zip columns row).*1.
Proof.
  intros H. rewrite zip_fst_take. eapply sublist_NoDup; [done|]. apply sublist_take.
Qed.

Lemma zip_elem {A B} (l : list A) (k : list B) a b :
  (a, b) ∈ zip l k <-> exists p, l !! p = Some a /\ k !! p = Some b.
Proof.
  rewrite list_elem_of_lookup. apply exist_proper. intros p.
  rewrite lookup_zip_with_Some. split; [|by intros [? ?]; eauto].
  by intros (? & ? & [= <- <-] & ? & ?).
Qed.

Lemma zip_fst_snd {A B} (l : list (A * B)) : zip (map fst l) (map snd l) = l.
Proof. induction l as [|[a b] l IH]; simpl; by rewrite ?IH. Qed.

(** ** Strings, in byte order *)

Lemma string_compare_le_trans a b c :
  String.compare a b <> Gt -> String.compare b c <> Gt -> String.compare a c <> Gt.
Proof.
  revert b c. induction a as [|x a IH]; intros [|y b] [|z c]; simpl; try done.
  unfold Ascii.compare.
  destruct (N.compare_spec (Ascii.N_of_ascii x) (Ascii.N_of_ascii y)) as [E|E|E]; [| |done];
    destruct (N.compare_spec (Ascii.N_of_ascii y) (Ascii.N_of_ascii z)) as [F|F|F]; try done;
    destruct (N.compare_spec (Ascii.N_of_ascii x) (Ascii.N_of_ascii z)) as [G|G|G];
    try done; try lia; eauto.
Qed.

Lemma string_leb_compare a b : String.leb a b = true <-> String.compare a b <> Gt.
Proof. unfold String.leb. by destruct (String.compare a b). Qed.
