(* ===== verification/Value.v ===== *)
(** * SQL literals, comparison operators and their orders

    Models [LiteralValue] and [BinaryOp] (src/src/query/ast/types/expr.rs), the
    value orders of src/src/query/constraints/range.rs and range_overlap.rs and
    the operator reading of src/src/query/evaluate.rs.

    An [f64] that is not NaN is an infinity or a rational: every finite binary64
    is a dyadic rational, and the operations the code applies to it here
    ([==], [cmp], [floor], the comparison with 2^63 and the cast of an integral
    in-range value) are exact.  [0.0] and [-0.0] are identified, as [NotNan]'s
    [PartialEq], [Ord] and [Hash] identify them.  Rationals are canonical ([Qc]),
    so the code's [==] on literals is Rocq's equality. *)

From S2P Require Import Prelude.

(** ** Binary64 without NaN *)

Inductive f64 :=
| F64NegInf
| F64Fin (q : Qc)
| F64PosInf.

#[export] Instance f64_eq_dec : EqDecision f64.
Proof. solve_decision. Defined.

#[export] Instance f64_countable : Countable f64.
Proof.
  refine (inj_countable'
    (fun f => match f with
              | F64NegInf => inl false | F64PosInf => inl true
              | F64Fin q => inr q end)
    (fun s => match s with
              | inl false => F64NegInf | inl true => F64PosInf
              | inr q => F64Fin q end) _).
  by intros [].
Defined.

(** [Ord::cmp] of [NotNan<f64>]. *)
Definition f64_cmp (a b : f64) : comparison :=
  match a, b with
  | F64NegInf, F64NegInf => Eq
  | F64NegInf, _ => Lt
  | _, F64NegInf => Gt
  | F64PosInf, F64PosInf => Eq
  | F64PosInf, _ => Gt
  | _, F64PosInf => Lt
  | F64Fin p, F64Fin q => Qccompare p q
  end.

(** [f64::floor]. *)
Definition f64_floor (f : f64) : f64 :=
  match f with
  | F64Fin q => F64Fin (Qc_of_Z (Qfloor q))
  | _ => f
  end.

Definition i64_min : Z := (- 2 ^ 63)%Z.
Definition i64_max : Z := (2 ^ 63 - 1)%Z.
Definition i64_range (z : Z) : Prop := (i64_min <= z <= i64_max)%Z.
Definition i64_clamp (z : Z) : Z := Z.max i64_min (Z.min i64_max z).

(** [f as i64]: truncation towards zero, saturating at the ends of the type. *)
Definition f64_as_i64 (f : f64) : Z :=
  match f with
  | F64NegInf => i64_min
  | F64PosInf => i64_max
  | F64Fin q => i64_clamp (Z.quot (Qnum q) (QDen q))
  end.

(** ** Literals *)

Inductive LiteralValue :=
| LString (s : string)
| LStringWithCast (s : string) (cast : string)
| LInteger (i : Z)
| LFloat (f : f64)
| LBoolean (b : bool)
| LNull
| LNullWithCast (cast : string)
| LParameter (p : string)
| LArray (elements : list LiteralValue) (cast : string).

Section literal_ind.
Variable P : LiteralValue -> Prop.
Hypothesis HString : forall s, P (LString s).
Hypothesis HStringC : forall s c, P (LStringWithCast s c).
Hypothesis HInteger : forall i, P (LInteger i).
Hypothesis HFloat : forall f, P (LFloat f).
Hypothesis HBoolean : forall b, P (LBoolean b).
Hypothesis HNull : P LNull.
Hypothesis HNullC : forall c, P (LNullWithCast c).
Hypothesis HParameter : forall p, P (LParameter p).
Hypothesis HArray : forall l c, Forall P l -> P (LArray l c).

(** Induction on literals that reaches the elements of an array. *)
Fixpoint LiteralValue_ind' (l : LiteralValue) : P l :=
  match l with
  | LString s => HString s
  | LStringWithCast s c => HStringC s c
  | LInteger i => HInteger i
  | LFloat f => HFloat f
  | LBoolean b => HBoolean b
  | LNull => HNull
  | LNullWithCast c => HNullC c
  | LParameter p => HParameter p
  | LArray es c =>
      HArray es c
        ((fix go (es : list LiteralValue) : Forall P es :=
            match es with
            | [] => Forall_nil_2 P
            | e :: es' => Forall_cons_2 P e es' (LiteralValue_ind' e) (go es')
            end) es)
  end.
End literal_ind.

(** Literals as trees, for the decidability and countability instances. *)
Definition literal_leaf : Type := string + (string * string) + Z + f64 + bool.

Fixpoint literal_encode (l : LiteralValue) : gen_tree literal_leaf :=
  match l with
  | LString s => GenNode 0 [GenLeaf (inl (inl (inl (inl s))))]
  | LStringWithCast s c => GenNode 1 [GenLeaf (inl (inl (inl (inr (s, c)))))]
  | LInteger i => GenNode 2 [GenLeaf (inl (inl (inr i)))]
  | LFloat f => GenNode 3 [GenLeaf (inl (inr f))]
  | LBoolean b => GenNode 4 [GenLeaf (inr b)]
  | LNull => GenNode 5 []
  | LNullWithCast c => GenNode 6 [GenLeaf (inl (inl (inl (inl c))))]
  | LParameter p => GenNode 7 [GenLeaf (inl (inl (inl (inl p))))]
  | LArray es c =>
      GenNode 8 (GenLeaf (inl (inl (inl (inl c)))) :: (literal_encode <$> es))
  end.

Fixpoint literal_decode (t : gen_tree literal_leaf) : LiteralValue :=
  match t with
  | GenNode 0 [GenLeaf (inl (inl (inl (inl s))))] => LString s
  | GenNode 1 [GenLeaf (inl (inl (inl (inr (s, c)))))] => LStringWithCast s c
  | GenNode 2 [GenLeaf (inl (inl (inr i)))] => LInteger i
  | GenNode 3 [GenLeaf (inl (inr f))] => LFloat f
  | GenNode 4 [GenLeaf (inr b)] => LBoolean b
  | GenNode 6 [GenLeaf (inl (inl (inl (inl c))))] => LNullWithCast c
  | GenNode 7 [GenLeaf (inl (inl (inl (inl p))))] => LParameter p
  | GenNode 8 (GenLeaf (inl (inl (inl (inl c)))) :: ts) =>
      LArray (literal_decode <$> ts) c
  | _ => LNull
  end.

Lemma literal_decode_encode l : literal_decode (literal_encode l) = l.
Proof.
  induction l as [| | | | | | | |es c IHes] using LiteralValue_ind'; simpl; try done.
  f_equal. induction IHes as [|e es He _ IH]; simpl; [done|].
  f_equal; [exact He|exact IH].
Qed.

Fixpoint literal_eq_dec (a b : LiteralValue) {struct a} : {a = b} + {a <> b}.
Proof.
  refine (match a, b with
  | LString s, LString s' => cast_if (decide (s = s'))
  | LStringWithCast s c, LStringWithCast s' c' =>
      cast_if_and (decide (s = s')) (decide (c = c'))
  | LInteger i, LInteger i' => cast_if (decide (i = i'))
  | LFloat f, LFloat f' => cast_if (decide (f = f'))
  | LBoolean x, LBoolean x' => cast_if (decide (x = x'))
  | LNull, LNull => left eq_refl
  | LNullWithCast c, LNullWithCast c' => cast_if (decide (c = c'))
  | LParameter p, LParameter p' => cast_if (decide (p = p'))
  | LArray es c, LArray es' c' =>
      cast_if_and (list_eq_dec literal_eq_dec es es') (decide (c = c'))
  | _, _ => right _
  end); clear literal_eq_dec; abstract congruence.
Defined.

#[export] Instance LiteralValue_eq_dec : EqDecision LiteralValue := literal_eq_dec.

#[export] Instance LiteralValue_countable : Countable LiteralValue :=
  inj_countable' literal_encode literal_decode literal_decode_encode.

(** ** Comparison operators *)

Inductive BinaryOp :=
| OpAnd | OpOr
| OpEqual | OpNotEqual
| OpLessThan | OpLessThanOrEqual
| OpGreaterThan | OpGreaterThanOrEqual
| OpLike | OpILike | OpNotLike | OpNotILike.

#[export] Instance BinaryOp_eq_dec : EqDecision BinaryOp.
Proof. solve_decision. Defined.

Definition is_comparison (op : BinaryOp) : bool :=
  match op with
  | OpEqual | OpNotEqual | OpLessThan | OpLessThanOrEqual
  | OpGreaterThan | OpGreaterThanOrEqual => true
  | _ => false
  end.

Definition op_flip (op : BinaryOp) : option BinaryOp :=
  match op with
  | OpEqual => Some OpEqual
  | OpNotEqual => Some OpNotEqual
  | OpLessThan => Some OpGreaterThan
  | OpLessThanOrEqual => Some OpGreaterThanOrEqual
  | OpGreaterThan => Some OpLessThan
  | OpGreaterThanOrEqual => Some OpLessThanOrEqual
  | OpAnd | OpOr | OpLike | OpILike | OpNotLike | OpNotILike => None
  end.

(** [evaluate::ordering_satisfies_op]. *)
Definition ordering_satisfies_op (ordering : comparison) (op : BinaryOp) : bool :=
  match op with
  | OpEqual => match ordering with Eq => true | _ => false end
  | OpNotEqual => match ordering with Eq => false | _ => true end
  | OpLessThan => match ordering with Lt => true | _ => false end
  | OpLessThanOrEqual => match ordering with Gt => false | _ => true end
  | OpGreaterThan => match ordering with Gt => true | _ => false end
  | OpGreaterThanOrEqual => match ordering with Lt => false | _ => true end
  | _ => false
  end.

(** ** Orders on literals *)

Definition literal_value_is_incomparable (v : LiteralValue) : bool :=
  match v with
  | LParameter _ | LNull | LNullWithCast _ => true
  | _ => false
  end.

(** [range::literal_value_order]: same-type numeric literals only. *)
Definition literal_value_order (a b : LiteralValue) : option comparison :=
  match a, b with
  | LInteger a, LInteger b => Some (Z.compare a b)
  | LFloat a, LFloat b => Some (f64_cmp a b)
  | _, _ => None
  end.

(** [range::literal_value_canonical_order]. *)
Definition literal_value_canonical_order (a b : LiteralValue) : comparison :=
  match a, b with
  | LInteger a, LInteger b => Z.compare a b
  | LFloat a, LFloat b => f64_cmp a b
  | LString a, LString b => String.compare a b
  | LStringWithCast a _, LStringWithCast b _ => String.compare a b
  | _, _ => Eq
  end.

Definition f64_two_pow_63 : f64 := F64Fin (Qc_of_Z (2 ^ 63)).
Definition f64_neg_two_pow_63 : f64 := F64Fin (Qc_of_Z (- 2 ^ 63)).

(** [range_overlap::int_float_cmp]. *)
Definition int_float_cmp (i : Z) (f : f64) : comparison :=
  match f64_cmp f f64_two_pow_63 with
  | Gt | Eq => Lt
  | Lt =>
      match f64_cmp f f64_neg_two_pow_63 with
      | Lt => Gt
      | _ =>
          let floor := f64_floor f in
          let floor_int := f64_as_i64 floor in
          match Z.compare i floor_int with
          | Gt => Gt
          | Lt => Lt
          | Eq => match f64_cmp f floor with Eq => Eq | _ => Lt end
          end
      end
  end.

(** [range_overlap::literal_value_order_numeric]. *)
Definition literal_value_order_numeric (a b : LiteralValue) : option comparison :=
  match a, b with
  | LInteger i, LFloat f => Some (int_float_cmp i f)
  | LFloat f, LInteger i => Some (CompOpp (int_float_cmp i f))
  | _, _ => literal_value_order a b
  end.

(** [range_overlap::literal_value_eq]. *)
Definition literal_value_eq (a b : LiteralValue) : option bool :=
  match a, b with
  | LInteger a, LInteger b => Some (bool_decide (a = b))
  | LFloat a, LFloat b => Some (bool_decide (a = b))
  | LInteger i, LFloat f | LFloat f, LInteger i =>
      Some (match int_float_cmp i f with Eq => true | _ => false end)
  | LString a, LString b => Some (bool_decide (a = b))
  | LStringWithCast a _, LStringWithCast b _ => Some (bool_decide (a = b))
  | _, _ => None
  end.

(** ** Laws of the orders *)

(** [comp_chain x c y]: with [v] compared to [a] as [x] and [a] compared to [b]
    as [c], the result [y] of comparing [v] to [b] is the one a linear order
    allows. *)
Definition comp_chain (x c y : comparison) : Prop :=
  match x, c with
  | Eq, _ => y = c
  | _, Eq => y = x
  | Lt, Lt => y = Lt
  | Gt, Gt => y = Gt
  | Lt, Gt | Gt, Lt => True
  end.

Lemma Z_comp_chain a b c : comp_chain (Z.compare a b) (Z.compare b c) (Z.compare a c).
Proof.
  destruct (Z.compare_spec a b), (Z.compare_spec b c), (Z.compare_spec a c);
    simpl; first [done | lia].
Qed.

Lemma Qc_compare_refl q : Qccompare q q = Eq.
Proof. by apply Qceq_alt. Qed.

Lemma Qc_compare_opp p q : Qccompare q p = CompOpp (Qccompare p q).
Proof. unfold Qccompare. by rewrite Qcompare_antisym. Qed.

Lemma Qc_comp_chain p q r :
  comp_chain (Qccompare p q) (Qccompare q r) (Qccompare p r).
Proof.
  destruct (Qccompare p q) eqn:E1.
  { apply Qceq_alt in E1 as ->. done. }
  all: destruct (Qccompare q r) eqn:E2; simpl; try done.
  all: try (apply Qceq_alt in E2 as <-; done).
  - apply Qclt_alt in E1, E2. apply Qclt_alt. by apply Qclt_trans with q.
  - rewrite Qc_compare_opp in E1, E2 |- *.
    apply CompOpp_iff in E1, E2. apply CompOpp_iff. simpl in *.
    apply Qclt_alt in E1, E2. apply Qclt_alt. by apply Qclt_trans with q.
Qed.

Lemma f64_cmp_eq a b : f64_cmp a b = Eq <-> a = b.
Proof.
  destruct a, b; simpl; try (split; congruence).
  rewrite <- Qceq_alt. split; congruence.
Qed.

Lemma f64_cmp_opp a b : f64_cmp b a = CompOpp (f64_cmp a b).
Proof. destruct a, b; simpl; try done. apply Qc_compare_opp. Qed.

Lemma f64_comp_chain a b c : comp_chain (f64_cmp a b) (f64_cmp b c) (f64_cmp a c).
Proof. destruct a, b, c; simpl; try done; try apply Qc_comp_chain; by destruct (Qccompare _ _). Qed.

Lemma f64_eqb_decide a b :
  match f64_cmp a b with Eq => true | _ => false end = bool_decide (a = b).
Proof.
  destruct (f64_cmp a b) eqn:E; symmetry.
  - by apply bool_decide_eq_true, f64_cmp_eq.
  - apply bool_decide_eq_false. intros H%f64_cmp_eq. congruence.
  - apply bool_decide_eq_false. intros H%f64_cmp_eq. congruence.
Qed.

(** Comparing integers as rationals. *)
Lemma Qc_of_Z_compare a b : Qccompare (Qc_of_Z a) (Qc_of_Z b) = Z.compare a b.
Proof. unfold Qccompare, Qcompare. simpl. by rewrite !Z.mul_1_r. Qed.

Lemma i64_clamp_id z : i64_range z -> i64_clamp z = z.
Proof. unfold i64_range, i64_clamp, i64_min, i64_max. lia. Qed.

Lemma f64_as_i64_of_Z z : f64_as_i64 (F64Fin (Qc_of_Z z)) = i64_clamp z.
Proof. simpl. by rewrite Z.quot_1_r. Qed.

Lemma Qcfloor_le (q : Qc) : (Qc_of_Z (Qfloor q) <= q)%Qc.
Proof. apply Qfloor_le. Qed.

Lemma Qc_lt_floor_succ (q : Qc) : (q < Qc_of_Z (Qfloor q + 1))%Qc.
Proof. apply Qlt_floor. Qed.

(** An integer compares to a rational as it compares to the rational's floor,
    the rational's fractional part deciding a tie. *)
Lemma Z_Qc_compare_floor i (q : Qc) :
  Qccompare (Qc_of_Z i) q =
  match Z.compare i (Qfloor q) with
  | Eq => match Qccompare q (Qc_of_Z (Qfloor q)) with Eq => Eq | _ => Lt end
  | c => c
  end.
Proof.
  pose proof (Qcfloor_le q) as Hle. pose proof (Qc_lt_floor_succ q) as Hlt.
  destruct (Z.compare_spec i (Qfloor q)) as [->|Hi|Hi].
  - rewrite (Qc_compare_opp (Qc_of_Z (Qfloor q)) q).
    apply Qcle_alt in Hle. by destruct (Qccompare (Qc_of_Z (Qfloor q)) q) eqn:E.
  - apply Qclt_alt. eapply Qclt_le_trans; [|exact Hle]. by apply (proj1 (Z2Qc_inj_lt _ _)).
  - rewrite Qc_compare_opp. apply CompOpp_iff. simpl. apply Qclt_alt.
    eapply Qclt_le_trans; [exact Hlt|]. apply (proj1 (Z2Qc_inj_le _ _)). lia.
Qed.

(** [int_float_cmp] is exact: for every [i64] it is the comparison of the two
    numbers, with no rounding. *)
Lemma int_float_cmp_spec i f :
  i64_range i -> int_float_cmp i f = f64_cmp (F64Fin (Qc_of_Z i)) f.
Proof.
  intros Hi. unfold int_float_cmp, i64_range, i64_min, i64_max in *.
  destruct f as [|q|]; [done| |done].
  unfold f64_two_pow_63, f64_neg_two_pow_63. cbn [f64_cmp].
  assert (Hup : Qccompare q (Qc_of_Z (2 ^ 63)) <> Lt -> Qccompare (Qc_of_Z i) q = Lt).
  { intros Hc. apply Qclt_alt. apply Qclt_le_trans with (Qc_of_Z (2 ^ 63)).
    - apply (proj1 (Z2Qc_inj_lt _ _)). lia.
    - apply Qcle_alt. rewrite Qc_compare_opp. by destruct (Qccompare q _) eqn:E. }
  destruct (Qccompare q (Qc_of_Z (2 ^ 63))) eqn:Eup;
    [by rewrite Hup by done| |by rewrite Hup by done].
  apply Qclt_alt in Eup.
  assert (Hlow : Qccompare q (Qc_of_Z (- 2 ^ 63)) = Lt -> Qccompare (Qc_of_Z i) q = Gt).
  { intros Hc. rewrite Qc_compare_opp. apply CompOpp_iff. apply Qclt_alt.
    apply Qclt_alt in Hc. eapply Qclt_le_trans; [exact Hc|].
    apply (proj1 (Z2Qc_inj_le _ _)). lia. }
  assert (Hin : Qccompare q (Qc_of_Z (- 2 ^ 63)) <> Lt ->
                f64_as_i64 (f64_floor (F64Fin q)) = Qfloor q).
  { intros Hc. unfold f64_floor. rewrite f64_as_i64_of_Z. apply i64_clamp_id.
    unfold i64_range, i64_min, i64_max. split.
    - assert (Qc_of_Z (- 2 ^ 63) < Qc_of_Z (Qfloor q + 1))%Qc as Hl.
      { eapply Qcle_lt_trans; [|apply Qc_lt_floor_succ].
        apply Qcle_alt. rewrite Qc_compare_opp. by destruct (Qccompare q _) eqn:E. }
      apply Z2Qc_inj_lt in Hl. lia.
    - assert (Qc_of_Z (Qfloor q) < Qc_of_Z (2 ^ 63))%Qc as Hl.
      { eapply Qcle_lt_trans; [apply Qcfloor_le|exact Eup]. }
      apply Z2Qc_inj_lt in Hl. lia. }
  rewrite Z_Qc_compare_floor in Hlow |- *.
  destruct (Qccompare q (Qc_of_Z (- 2 ^ 63))) eqn:Elow;
    [|by rewrite Hlow|]; rewrite Hin by done; cbn [f64_floor];
    by destruct (Z.compare i (Qfloor q)).
Qed.

(** ** Numeric literals *)

(** The number a numeric literal denotes. *)
Definition literal_num (l : LiteralValue) : option f64 :=
  match l with
  | LInteger i => Some (F64Fin (Qc_of_Z i))
  | LFloat f => Some f
  | _ => None
  end.

(** Integer literals are [i64]s. *)
Definition literal_i64 (l : LiteralValue) : Prop :=
  match l with LInteger i => i64_range i | _ => True end.

Lemma literal_value_order_num a b c :
  literal_value_order a b = Some c ->
  exists x y, literal_num a = Some x /\ literal_num b = Some y /\ f64_cmp x y = c.
Proof.
  destruct a, b; simpl; intros [= <-]; (eexists _, _; split; [reflexivity|split; [reflexivity|]]).
  - apply Qc_of_Z_compare.
  - done.
Qed.

(** [literal_value_order_numeric] is the numeric order of the two literals. *)
Lemma literal_value_order_numeric_spec a b x y :
  literal_i64 a -> literal_i64 b ->
  literal_num a = Some x -> literal_num b = Some y ->
  literal_value_order_numeric a b = Some (f64_cmp x y).
Proof.
  intros Ha Hb. destruct a, b; simpl; intros [= <-] [= <-]; f_equal.
  - symmetry. apply Qc_of_Z_compare.
  - by apply int_float_cmp_spec.
  - rewrite int_float_cmp_spec by done. by rewrite <- f64_cmp_opp.
Qed.

Lemma literal_value_order_numeric_None a b :
  literal_value_order_numeric a b = None ->
  literal_num a = None \/ literal_num b = None.
Proof. destruct a, b; simpl; intros; auto; discriminate. Qed.

(** On numeric literals [literal_value_eq] is equality of the numbers. *)
Lemma literal_value_eq_num a b x y :
  literal_i64 a -> literal_i64 b ->
  literal_num a = Some x -> literal_num b = Some y ->
  literal_value_eq a b = Some (bool_decide (x = y)).
Proof.
  intros Ha Hb. destruct a, b; simpl; intros [= <-] [= <-]; f_equal.
  - apply bool_decide_ext. split; [by intros ->|].
    by intros [= ->].
  - rewrite int_float_cmp_spec by done. apply f64_eqb_decide.
  - rewrite int_float_cmp_spec by done.
    rewrite f64_eqb_decide. apply bool_decide_ext. done.
Qed.

(** ** Properties *)

(** Comparing an [i64] with a binary64 loses nothing: [int_float_cmp] is the
    comparison of the two numbers for every [i64] and every non-NaN float. *)
Theorem int_float_cmp_exact (i : Z) (f : f64) (Hi : i64_range i) :
  int_float_cmp i f = f64_cmp (F64Fin (Qc_of_Z i)) f.
Proof. by apply int_float_cmp_spec. Qed.

Lemma int_float_cmp_exact_witness :
  int_float_cmp (2 ^ 53 + 1) (F64Fin (Qc_of_Z (2 ^ 53))) = Gt.
Proof.
  rewrite (int_float_cmp_exact (2 ^ 53 + 1) (F64Fin (Qc_of_Z (2 ^ 53))));
    [by vm_compute|]. unfold i64_range, i64_min, i64_max. lia.
Defined.
