(* ===== verification/Ast.v ===== *)
(** * The resolved query AST

    Models src/src/query/resolved/mod.rs (the resolved expressions, sources and
    queries), [ColumnMetadata] of src/src/catalog.rs, the operator enumerations
    of src/src/query/ast/types/expr.rs and [CastTarget] of
    src/src/query/cast.rs. *)

From S2P Require Import Prelude Value.

(** ** Types and casts *)

(** [postgres_types::Type]: the types the source names; any other by its OID. *)
Inductive PgType :=
| TText | TVarchar | TInt2 | TInt4 | TInt8 | TBool | TDate | TTimestamp
| TOther (oid : N).

#[export] Instance PgType_eq_dec : EqDecision PgType.
Proof. solve_decision. Defined.

Inductive CastTarget :=
| CastText | CastInt4 | CastInt8 | CastBool | CastDate
| CastOther (canonical : string).

#[export] Instance CastTarget_eq_dec : EqDecision CastTarget.
Proof. solve_decision. Defined.

#[export] Instance CastTarget_countable : Countable CastTarget.
Proof.
  refine (inj_countable'
    (fun t => match t with
       | CastText => inl 0 | CastInt4 => inl 1 | CastInt8 => inl 2
       | CastBool => inl 3 | CastDate => inl 4 | CastOther s => inr s end)
    (fun s => match s with
       | inl 0 => CastText | inl 1 => CastInt4 | inl 2 => CastInt8
       | inl 3 => CastBool | inl _ => CastDate | inr s => CastOther s end) _).
  by intros [].
Defined.

(** ** Columns *)

Record ColumnMetadata := {
  cm_name : string;
  cm_position : Z; (* 1-based, an i16 *)
  cm_type_oid : N;
  cm_data_type : PgType;
  cm_type_name : string;
  cm_cache_type_name : string;
  cm_is_primary_key : bool
}.

#[export] Instance ColumnMetadata_eq_dec : EqDecision ColumnMetadata.
Proof. solve_decision. Defined.

(** [ColumnPosition::index]: [unsigned_abs] then [saturating_sub(1)]. *)
Definition column_index (m : ColumnMetadata) : nat := Z.to_nat (Z.abs (cm_position m)) - 1.

Record ResolvedColumnNode := {
  rc_schema : string;
  rc_table : string;
  rc_table_alias : option string;
  rc_column : string;
  rc_metadata : ColumnMetadata
}.

(** [PartialEq for ResolvedColumnNode]: the alias is not part of identity. *)
Definition resolved_column_eqb (a b : ResolvedColumnNode) : bool :=
  bool_decide (rc_schema a = rc_schema b)
  && bool_decide (rc_table a = rc_table b)
  && bool_decide (rc_column a = rc_column b)
  && bool_decide (rc_metadata a = rc_metadata b).

Record ResolvedTableNode := {
  rt_schema : string;
  rt_name : string;
  rt_alias : option string;
  rt_relation_oid : N
}.

(** ** Operators and modes *)

Inductive UnaryOp :=
| UNot | UIsNull | UIsNotNull | UIsTrue | UIsNotTrue | UIsFalse | UIsNotFalse.

#[export] Instance UnaryOp_eq_dec : EqDecision UnaryOp.
Proof. solve_decision. Defined.

Inductive MultiOp :=
| MIn | MNotIn
| MBetween | MNotBetween | MBetweenSymmetric | MNotBetweenSymmetric
| MAny (comparison : BinaryOp)
| MAll (comparison : BinaryOp).

#[export] Instance MultiOp_eq_dec : EqDecision MultiOp.
Proof. solve_decision. Defined.

Inductive ArithmeticOp := AAdd | ASubtract | AMultiply | ADivide | AModulo.
Inductive SubLinkType := SlExists | SlAny | SlAll | SlExpr.
Inductive SubqueryKind := SkScalar | SkInclusion | SkExclusion.
Inductive JoinType := JInner | JLeft | JRight | JFull.
Inductive SetOpType := SetUnion | SetIntersect | SetExcept.
Inductive OrderDirection := OrdAsc | OrdDesc.
Inductive NullOrder := NullsDefault | NullsFirst | NullsLast.
Inductive FrameMode := FmRows | FmRange | FmGroups.
Inductive FrameExclusion := FeNoOthers | FeCurrentRow | FeGroup | FeTies.

Record TableAlias := { ta_name : string; ta_columns : list string }.

(** ** Expressions, sources and queries *)

Inductive ResolvedScalarExpr :=
| SColumn (c : ResolvedColumnNode)
| SIdentifier (name : string)
| SFunction (f : ResolvedFunctionCall)
| SLiteral (v : LiteralValue)
| SCase (arg : option ResolvedScalarExpr) (whens : list ResolvedCaseWhen)
    (default : option ResolvedScalarExpr)
| SArithmetic (left : ResolvedScalarExpr) (op : ArithmeticOp) (right : ResolvedScalarExpr)
| SSubquery (query : ResolvedQueryExpr) (outer_refs : list ResolvedColumnNode)
| SArray (elements : list ResolvedScalarExpr)
| STypeCast (expr : ResolvedScalarExpr) (target : CastTarget)
with ResolvedFunctionCall :=
| FunctionCall (name : string) (args : list ResolvedScalarExpr)
    (agg_star agg_distinct : bool) (agg_order : list ResolvedOrderByClause)
    (agg_filter : option ResolvedWhereExpr) (over : option ResolvedWindowSpec)
with ResolvedWindowSpec :=
| WindowSpec (partition_by : list ResolvedScalarExpr)
    (order_by : list ResolvedOrderByClause) (frame : option ResolvedWindowFrame)
with ResolvedWindowFrame :=
| WindowFrame (mode : FrameMode) (start finish : ResolvedFrameBound)
    (exclusion : FrameExclusion)
with ResolvedFrameBound :=
| FbUnboundedPreceding
| FbOffsetPreceding (e : ResolvedScalarExpr)
| FbCurrentRow
| FbOffsetFollowing (e : ResolvedScalarExpr)
| FbUnboundedFollowing
with ResolvedCaseWhen :=
| CaseWhen (condition : ResolvedWhereExpr) (result : ResolvedScalarExpr)
with ResolvedOrderByClause :=
| OrderByClause (expr : ResolvedScalarExpr) (direction : OrderDirection)
    (null_order : NullOrder)
with ResolvedWhereExpr :=
| WScalar (s : ResolvedScalarExpr)
| WUnary (op : UnaryOp) (expr : ResolvedWhereExpr)
| WBinary (op : BinaryOp) (lexpr rexpr : ResolvedWhereExpr)
| WMulti (op : MultiOp) (exprs : list ResolvedWhereExpr)
| WSubquery (query : ResolvedQueryExpr) (sublink_type : SubLinkType)
    (test_expr : option ResolvedScalarExpr) (outer_refs : list ResolvedColumnNode)
with ResolvedTableSource :=
| TsTable (t : ResolvedTableNode)
| TsSubquery (query : ResolvedQueryExpr) (alias : TableAlias) (kind : SubqueryKind)
| TsJoin (join_type : JoinType) (left right : ResolvedTableSource)
    (qual : ResolvedJoinQual)
with ResolvedJoinQual :=
| JqOn (e : ResolvedWhereExpr)
| JqUsing (columns : list string) (predicate : ResolvedWhereExpr)
| JqCross
with ResolvedSelectNode :=
| SelectNode (distinct : bool)
    (columns : option (list (ResolvedScalarExpr * option string)))
    (from : list ResolvedTableSource) (where_clause : option ResolvedWhereExpr)
    (group_by : list ResolvedColumnNode) (having : option ResolvedWhereExpr)
with ResolvedQueryBody :=
| QbSelect (s : ResolvedSelectNode)
| QbValues (rows : list (list LiteralValue))
| QbSetOp (op : SetOpType) (all : bool) (left right : ResolvedQueryExpr)
with ResolvedQueryExpr :=
| QueryExpr (body : ResolvedQueryBody) (order_by : list ResolvedOrderByClause)
    (limit : option (option LiteralValue * option LiteralValue)).

Definition sel_where (s : ResolvedSelectNode) : option ResolvedWhereExpr :=
  let 'SelectNode _ _ _ w _ _ := s in w.
Definition sel_from (s : ResolvedSelectNode) : list ResolvedTableSource :=
  let 'SelectNode _ _ f _ _ _ := s in f.

(** [ResolvedJoinNode::predicate]. *)
Definition join_predicate (qual : ResolvedJoinQual) : option ResolvedWhereExpr :=
  match qual with
  | JqOn e | JqUsing _ e => Some e
  | JqCross => None
  end.

(** Induction over the operators of a WHERE expression; the operands of an IN
    list and the parts of a subquery are left opaque. *)
Definition where_expr_ind (P : ResolvedWhereExpr -> Prop)
    (Hscalar : forall s, P (WScalar s))
    (Hunary : forall op e, P e -> P (WUnary op e))
    (Hbinary : forall op l r, P l -> P r -> P (WBinary op l r))
    (Hmulti : forall op es, P (WMulti op es))
    (Hsubquery : forall q sl te refs, P (WSubquery q sl te refs)) : forall e, P e :=
  fix go e :=
    match e with
    | WScalar s => Hscalar s
    | WUnary op e => Hunary op e (go e)
    | WBinary op l r => Hbinary op l r (go l) (go r)
    | WMulti op es => Hmulti op es
    | WSubquery q sl te refs => Hsubquery q sl te refs
    end.

(** Induction over the join tree of a FROM item. *)
Definition source_ind (P : ResolvedTableSource -> Prop)
    (Htable : forall t, P (TsTable t))
    (Hsubquery : forall q a k, P (TsSubquery q a k))
    (Hjoin : forall jt l, P l -> forall r, P r -> forall qual, P (TsJoin jt l r qual))
    : forall s, P s :=
  fix go s :=
    match s with
    | TsTable t => Htable t
    | TsSubquery q a k => Hsubquery q a k
    | TsJoin jt l r qual => Hjoin jt l (go l) r (go r) qual
    end.
