(* ===== verification/Range.v ===== *)
(** * Column ranges: reducing a column's constraints, and subsumption

    Models src/src/query/constraints/range.rs and [TableConstraint] of
    constraints/mod.rs.  The first half translates the code; the second half
    gives the meaning of a range over a PostgreSQL column and proves that the
    reduction is exact and subsumption sound where the code's order on literals
    decides, with the inputs where it does not. *)

From S2P Require Import Prelude Value Ast.

(** ** Data *)

Inductive TableConstraint :=
| TcComparison (column : string) (op : BinaryOp) (value : LiteralValue)
| TcAnyOf (column : string) (values : list LiteralValue)
| TcCastComparison (column : string) (cast : CastTarget) (op : BinaryOp)
    (value : LiteralValue).

Record RangeBound := { rb_value : LiteralValue; rb_inclusive : bool }.

Inductive ColumnRange :=
| CrUnknown
| CrUnconstrained
| CrEmpty
| CrEqual (v : LiteralValue)
| CrInSet (s : gset LiteralValue)
| CrRange (lower upper : option RangeBound) (not_equal : list LiteralValue).

Inductive BoundSide := Lower | Upper.

(** The bounds and exclusions of a [CrRange]. *)
Record RangeView := {
  rv_lower : option RangeBound;
  rv_upper : option RangeBound;
  rv_not_equal : list LiteralValue
}.

(** ** Bounds *)

Definition orient (side : BoundSide) (ord : comparison) : comparison :=
  match side with Lower => ord | Upper => CompOpp ord end.

Definition admits (side : BoundSide) (value_vs_bound : comparison) (inclusive : bool) : bool :=
  match orient side value_vs_bound with
  | Gt => true
  | Eq => inclusive
  | Lt => false
  end.

Definition bound_tighten (side : BoundSide) (existing candidate : RangeBound)
    : option RangeBound :=
  match literal_value_order (rb_value existing) (rb_value candidate) with
  | None => None
  | Some ord =>
      Some (match orient side ord with
            | Lt => candidate
            | Gt => existing
            | Eq => {| rb_value := rb_value existing;
                       rb_inclusive := rb_inclusive existing && rb_inclusive candidate |}
            end)
  end.

Definition value_satisfies (side : BoundSide) (value : LiteralValue) (bound : RangeBound)
    : option bool :=
  match literal_value_order value (rb_value bound) with
  | None => None
  | Some ord => Some (admits side ord (rb_inclusive bound))
  end.

(** The new contents of the slot; [None] is the code's [false]. *)
Definition bound_merge (slot : option RangeBound) (side : BoundSide)
    (candidate : RangeBound) : option (option RangeBound) :=
  match slot with
  | None => Some (Some candidate)
  | Some existing =>
      match bound_tighten side existing candidate with
      | Some b => Some (Some b)
      | None => None
      end
  end.

Definition rv_bound (r : RangeView) (side : BoundSide) : option RangeBound :=
  match side with Lower => rv_lower r | Upper => rv_upper r end.

Definition bound_holds (r : RangeView) (value : LiteralValue) (side : BoundSide) : bool :=
  match rv_bound r side with
  | None => true
  | Some bound => bool_decide (value_satisfies side value bound = Some true)
  end.

Definition range_contains_value (r : RangeView) (value : LiteralValue) : bool :=
  forallb (bound_holds r value) [Lower; Upper]
  && negb (bool_decide (value ∈ rv_not_equal r)).

(** ** Building a range *)

(** The accumulators of [comparison_range_build]'s loop. *)
Record RangeAcc := {
  ra_equal : option LiteralValue;
  ra_lower : option RangeBound;
  ra_upper : option RangeBound;
  ra_not_equal : list LiteralValue
}.

(** One iteration: [inl] is an early return. *)
Definition comparison_step (acc : RangeAcc) (c : BinaryOp * LiteralValue)
    : ColumnRange + RangeAcc :=
  let '(op, value) := c in
  if literal_value_is_incomparable value then inl CrUnknown
  else match op with
  | OpEqual =>
      match ra_equal acc with
      | None => inr {| ra_equal := Some value; ra_lower := ra_lower acc;
                       ra_upper := ra_upper acc; ra_not_equal := ra_not_equal acc |}
      | Some existing =>
          if bool_decide (existing = value) then inr acc else inl CrEmpty
      end
  | OpNotEqual =>
      inr {| ra_equal := ra_equal acc; ra_lower := ra_lower acc;
             ra_upper := ra_upper acc; ra_not_equal := ra_not_equal acc ++ [value] |}
  | OpGreaterThan | OpGreaterThanOrEqual =>
      let candidate :=
        {| rb_value := value;
           rb_inclusive := bool_decide (op = OpGreaterThanOrEqual) |} in
      match bound_merge (ra_lower acc) Lower candidate with
      | None => inl CrUnknown
      | Some slot =>
          inr {| ra_equal := ra_equal acc; ra_lower := slot;
                 ra_upper := ra_upper acc; ra_not_equal := ra_not_equal acc |}
      end
  | OpLessThan | OpLessThanOrEqual =>
      let candidate :=
        {| rb_value := value;
           rb_inclusive := bool_decide (op = OpLessThanOrEqual) |} in
      match bound_merge (ra_upper acc) Upper candidate with
      | None => inl CrUnknown
      | Some slot =>
          inr {| ra_equal := ra_equal acc; ra_lower := ra_lower acc;
                 ra_upper := slot; ra_not_equal := ra_not_equal acc |}
      end
  | OpAnd | OpOr | OpLike | OpILike | OpNotLike | OpNotILike => inl CrUnknown
  end.

Fixpoint comparison_loop (acc : RangeAcc) (cs : list (BinaryOp * LiteralValue))
    : ColumnRange + RangeAcc :=
  match cs with
  | [] => inr acc
  | c :: cs' =>
      match comparison_step acc c with
      | inl r => inl r
      | inr acc' => comparison_loop acc' cs'
      end
  end.

(** The equality checked against the bounds in [sides] order, then against the
    exclusions. *)
Fixpoint equal_validate (eq_val : LiteralValue)
    (sides : list (BoundSide * option RangeBound)) (not_equal : list LiteralValue)
    : ColumnRange :=
  match sides with
  | [] =>
      if bool_decide (eq_val ∈ not_equal) then CrEmpty else CrEqual eq_val
  | (side, None) :: rest => equal_validate eq_val rest not_equal
  | (side, Some bound) :: rest =>
      match value_satisfies side eq_val bound with
      | Some true => equal_validate eq_val rest not_equal
      | Some false => CrEmpty
      | None => CrUnknown
      end
  end.

Definition range_finish (acc : RangeAcc) : ColumnRange :=
  match ra_equal acc with
  | Some eq_val =>
      equal_validate eq_val [(Lower, ra_lower acc); (Upper, ra_upper acc)]
        (ra_not_equal acc)
  | None =>
      match ra_lower acc, ra_upper acc with
      | Some lb, Some ub =>
          match literal_value_order (rb_value lb) (rb_value ub) with
          | Some Gt => CrEmpty
          | Some Eq =>
              if negb (rb_inclusive lb) || negb (rb_inclusive ub) then CrEmpty
              else if bool_decide (rb_value lb ∈ ra_not_equal acc) then CrEmpty
              else CrEqual (rb_value lb)
          | Some Lt => CrRange (ra_lower acc) (ra_upper acc) (ra_not_equal acc)
          | None => CrUnknown
          end
      | _, _ => CrRange (ra_lower acc) (ra_upper acc) (ra_not_equal acc)
      end
  end.

Definition acc_empty : RangeAcc :=
  {| ra_equal := None; ra_lower := None; ra_upper := None; ra_not_equal := [] |}.

Definition comparison_range_build (comparisons : list (BinaryOp * LiteralValue))
    : ColumnRange :=
  match comparisons with
  | [] => CrUnconstrained
  | _ =>
      match comparison_loop acc_empty comparisons with
      | inl r => r
      | inr acc => range_finish acc
      end
  end.

Definition in_set_range_build (set_values : list LiteralValue)
    (comparisons : list (BinaryOp * LiteralValue)) : ColumnRange :=
  match set_values with
  | [] => CrEmpty
  | _ =>
      if existsb literal_value_is_incomparable set_values then CrUnknown
      else match comparisons with
      | [] => CrInSet (list_to_set set_values)
      | _ =>
          match comparison_range_build comparisons with
          | CrUnknown => CrUnknown
          | CrEmpty => CrEmpty
          | CrUnconstrained => CrInSet (list_to_set set_values)
          | CrEqual v => if bool_decide (v ∈ set_values) then CrEqual v else CrEmpty
          | CrInSet _ => CrUnknown
          | CrRange lower upper not_equal =>
              match List.filter
                      (range_contains_value
                         {| rv_lower := lower; rv_upper := upper;
                            rv_not_equal := not_equal |}) set_values with
              | [] => CrEmpty
              | [first] => CrEqual first
              | kept => CrInSet (list_to_set kept)
              end
          end
      end
  end.

(** [column_range_build]'s first loop; [None] is the early [Unknown] return on a
    second IN-set. *)
Fixpoint constraints_split (cs : list TableConstraint)
    (comparisons : list (BinaryOp * LiteralValue)) (in_set : option (list LiteralValue))
    : option (list (BinaryOp * LiteralValue) * option (list LiteralValue)) :=
  match cs with
  | [] => Some (comparisons, in_set)
  | TcComparison _ op value :: cs'
  | TcCastComparison _ _ op value :: cs' =>
      constraints_split cs' (comparisons ++ [(op, value)]) in_set
  | TcAnyOf _ values :: cs' =>
      match in_set with
      | None => constraints_split cs' comparisons (Some values)
      | Some _ => None
      end
  end.

Definition column_range_build (constraints : list TableConstraint) : ColumnRange :=
  match constraints with
  | [] => CrUnconstrained
  | _ =>
      match constraints_split constraints [] None with
      | None => CrUnknown
      | Some (comparisons, Some set_values) => in_set_range_build set_values comparisons
      | Some (comparisons, None) => comparison_range_build comparisons
      end
  end.

(** ** Subsumption *)

Definition bound_at_least_as_tight (side : BoundSide) (a b : RangeBound) : option bool :=
  match literal_value_order (rb_value a) (rb_value b) with
  | None => None
  | Some ord =>
      Some (match orient side ord with
            | Gt => true
            | Lt => false
            | Eq => negb (rb_inclusive a) || rb_inclusive b
            end)
  end.

Definition bound_covered (side : BoundSide) (cached new : option RangeBound) : bool :=
  match cached, new with
  | None, _ => true
  | Some _, None => false
  | Some cached, Some new =>
      bool_decide (bound_at_least_as_tight side new cached = Some true)
  end.

Definition range_subsumes_range (cached new : RangeView) : bool :=
  let bounds_covered :=
    forallb (fun side => bound_covered side (rv_bound cached side) (rv_bound new side))
      [Lower; Upper] in
  let new_bounds_only :=
    {| rv_lower := rv_lower new; rv_upper := rv_upper new; rv_not_equal := [] |} in
  bounds_covered
  && forallb (fun excluded =>
       bool_decide (excluded ∈ rv_not_equal new)
       || negb (range_contains_value new_bounds_only excluded))
     (rv_not_equal cached).

Definition column_range_subsumes (cached new : ColumnRange) : bool :=
  match cached, new with
  | CrUnknown, _ | _, CrUnknown => false
  | CrEmpty, _ => false
  | _, CrEmpty => true
  | CrUnconstrained, _ => true
  | _, CrUnconstrained => false
  | CrEqual a, CrEqual b => bool_decide (a = b)
  | CrEqual _, (CrRange _ _ _ | CrInSet _) => false
  | CrInSet cached_set, CrInSet new_set => bool_decide (new_set ⊆ cached_set)
  | CrInSet set, CrEqual v => bool_decide (v ∈ set)
  | CrInSet _, CrRange _ _ _ => false
  | CrRange lower upper not_equal, CrInSet set =>
      forallb (range_contains_value
                 {| rv_lower := lower; rv_upper := upper; rv_not_equal := not_equal |})
        (elements set)
  | CrRange lower upper not_equal, CrEqual v =>
      range_contains_value
        {| rv_lower := lower; rv_upper := upper; rv_not_equal := not_equal |} v
  | CrRange cl cu cne, CrRange nl nu nne =>
      range_subsumes_range
        {| rv_lower := cl; rv_upper := cu; rv_not_equal := cne |}
        {| rv_lower := nl; rv_upper := nu; rv_not_equal := nne |}
  end.

(** ** The meaning of constraints over a PostgreSQL column

    [PgCompare V] is how PostgreSQL compares a column's non-null values [V] to a
    literal.  [PgColumn V] is what it promises of that comparison: which literals
    the column's comparisons carry, that it extends the code's order on them, and
    that two literals equal to the same value are the same literal. *)

Class PgCompare (V : Type) := pg_cmp : V -> LiteralValue -> comparison.

Class PgColumn (V : Type) `{!PgCompare V} := {
  pg_literal : LiteralValue -> Prop;
  pg_cmp_chain : forall v a b c,
    pg_literal a -> pg_literal b -> literal_value_order a b = Some c ->
    comp_chain (pg_cmp v a) c (pg_cmp v b);
  pg_cmp_inj : forall v a b,
    pg_literal a -> pg_literal b -> pg_cmp v a = Eq -> pg_cmp v b = Eq -> a = b
}.

Definition is_bound_op (op : BinaryOp) : bool :=
  match op with
  | OpLessThan | OpLessThanOrEqual | OpGreaterThan | OpGreaterThanOrEqual => true
  | _ => false
  end.

(** The IN-list literals of a constraint list, and the literals its range bounds
    come from. *)
Definition set_literals (cs : list TableConstraint) : list LiteralValue :=
  flat_map (fun tc => match tc with TcAnyOf _ vs => vs | _ => [] end) cs.

Definition bound_literals (cs : list TableConstraint) : list LiteralValue :=
  flat_map (fun tc =>
    match tc with
    | TcComparison _ op v | TcCastComparison _ _ op v =>
        if is_bound_op op then [v] else []
    | TcAnyOf _ _ => []
    end) cs.

(** Every literal of the first list is ordered against every one of the second. *)
Definition order_decided (ls bs : list LiteralValue) : Prop :=
  forall l b, l ∈ ls -> b ∈ bs -> is_Some (literal_value_order l b).

Definition constraint_literals (tc : TableConstraint) : list LiteralValue :=
  match tc with
  | TcComparison _ _ v | TcCastComparison _ _ _ v => [v]
  | TcAnyOf _ vs => vs
  end.

Definition view_bounds (r : RangeView) : list LiteralValue :=
  option_list (rb_value <$> rv_lower r) ++ option_list (rb_value <$> rv_upper r).

Definition range_literals (r : ColumnRange) : list LiteralValue :=
  match r with
  | CrEqual v => [v]
  | CrInSet s => elements s
  | CrRange lower upper ne =>
      view_bounds {| rv_lower := lower; rv_upper := upper; rv_not_equal := ne |} ++ ne
  | _ => []
  end.

(** ** Where the literals of a range come from *)

(** The accumulator's equality satisfies [Pe], its bounds [Pb] and its
    exclusions [Pn]. *)
Definition acc_from (Pe Pb Pn : LiteralValue -> Prop) (acc : RangeAcc) : Prop :=
  Forall Pe (option_list (ra_equal acc)) /\
  Forall Pb (option_list (rb_value <$> ra_lower acc)) /\
  Forall Pb (option_list (rb_value <$> ra_upper acc)) /\
  Forall Pn (ra_not_equal acc).

Definition comparison_from (Pe Pb Pn : LiteralValue -> Prop) (c : BinaryOp * LiteralValue) : Prop :=
  match c.1 with
  | OpEqual => Pe c.2
  | OpNotEqual => Pn c.2
  | op => is_bound_op op = true -> Pb c.2
  end.

Lemma bound_merge_literal (P : LiteralValue -> Prop) side slot c slot' :
  Forall P (option_list (rb_value <$> slot)) -> P (rb_value c) ->
  bound_merge slot side c = Some slot' ->
  Forall P (option_list (rb_value <$> slot')).
Proof.
  intros Hs Hc. unfold bound_merge. destruct slot as [e|].
  2: { intros [= <-]. by repeat constructor. }
  simpl in Hs. apply Forall_cons_1 in Hs as [He _].
  unfold bound_tighten. destruct (literal_value_order _ _) as [o|]; [|done].
  intros [= <-]. destruct (orient side o); by repeat constructor.
Qed.

Lemma comparison_step_from Pe Pb Pn acc c acc' :
  acc_from Pe Pb Pn acc -> comparison_from Pe Pb Pn c ->
  comparison_step acc c = inr acc' -> acc_from Pe Pb Pn acc'.
Proof.
  destruct c as [op l]. intros (He & Hlo & Hup & Hn) Hc. unfold comparison_from in Hc.
  unfold comparison_step. destruct (literal_value_is_incomparable l); [done|].
  destruct op; simpl in Hc; try done.
  3-6: specialize (Hc eq_refl);
    destruct (bound_merge _ _ _) as [slot|] eqn:Em; [|done]; intros [= <-];
    (eapply bound_merge_literal in Em; [|eassumption|done]); by split_and!.
  - destruct (ra_equal acc) as [e|] eqn:Ee.
    + case_bool_decide; [|done]. intros [= <-]. unfold acc_from. by rewrite Ee.
    + intros [= <-]. split_and!; by repeat constructor.
  - intros [= <-]. split_and!; try done. apply Forall_app. by repeat constructor.
Qed.

Lemma comparison_loop_from Pe Pb Pn acc cs acc' :
  acc_from Pe Pb Pn acc -> Forall (comparison_from Pe Pb Pn) cs ->
  comparison_loop acc cs = inr acc' -> acc_from Pe Pb Pn acc'.
Proof.
  intros Ha Hcs. revert acc Ha. induction Hcs as [|c cs Hc _ IH]; intros acc Ha; simpl.
  { by intros [= <-]. }
  destruct (comparison_step acc c) eqn:E; [done|]. apply IH. by eapply comparison_step_from.
Qed.

Lemma comparison_loop_return acc cs r :
  comparison_loop acc cs = inl r -> r = CrUnknown \/ r = CrEmpty.
Proof.
  revert acc. induction cs as [|[op l] cs IH]; intros acc; [done|]. cbn [comparison_loop].
  destruct (comparison_step acc (op, l)) as [r'|acc'] eqn:Es; [|apply IH].
  intros [= <-]. unfold comparison_step in Es.
  repeat (case_match; simplify_eq; auto).
Qed.

Lemma equal_validate_shape l sides ne :
  equal_validate l sides ne ∈ [CrUnknown; CrEmpty; CrEqual l].
Proof.
  induction sides as [|[side [b|]] sides IH]; simpl; [case_bool_decide; set_solver| |done].
  destruct (value_satisfies side l b) as [[]|]; set_solver.
Qed.

(** The shape of a range built from comparisons, and its literals' origin. *)
Definition built_from (Pe Pb Pn : LiteralValue -> Prop) (r : ColumnRange) : Prop :=
  match r with
  | CrUnknown | CrEmpty => True
  | CrUnconstrained | CrInSet _ => False
  | CrEqual l => Pe l \/ Pb l
  | CrRange lower upper ne =>
      Forall Pb (view_bounds {| rv_lower := lower; rv_upper := upper; rv_not_equal := ne |}) /\
      Forall Pn ne
  end.

Lemma comparison_range_build_from Pe Pb Pn cs :
  Forall (comparison_from Pe Pb Pn) cs ->
  match cs with
  | [] => comparison_range_build cs = CrUnconstrained
  | _ => built_from Pe Pb Pn (comparison_range_build cs)
  end.
Proof.
  intros Hcs. unfold comparison_range_build. destruct cs as [|c cs]; [done|].
  destruct (comparison_loop acc_empty (c :: cs)) as [r|acc] eqn:E.
  { by apply comparison_loop_return in E as [-> | ->]. }
  eapply comparison_loop_from in E; [|by repeat constructor|exact Hcs].
  destruct E as (He & Hlo & Hup & Hn). unfold range_finish.
  destruct (ra_equal acc) as [e|].
  - pose proof (equal_validate_shape e [(Lower, ra_lower acc); (Upper, ra_upper acc)]
      (ra_not_equal acc)) as Hs. simpl in He. apply Forall_cons_1 in He as [He _].
    rewrite !elem_of_cons in Hs.
    destruct Hs as [-> |[-> |[-> |[]%not_elem_of_nil]]]; simpl; auto.
  - destruct (ra_lower acc) as [lb|], (ra_upper acc) as [ub|]; simpl;
      try (split; [apply Forall_app|]; done).
    destruct (literal_value_order _ _) as [[]|]; try done.
    + destruct (_ || _); [done|]. case_bool_decide; [done|]. simpl in *. right.
      by apply Forall_cons_1 in Hlo as [? _].
    + simpl. split; [apply Forall_app|]; done.
Qed.

Section semantics.
Context {V : Type} `{!PgCompare V} `{!PgColumn V}.

Definition comparison_sat (v : V) (c : BinaryOp * LiteralValue) : bool :=
  ordering_satisfies_op (pg_cmp v c.2) c.1.

(** Does a non-null column value satisfy the constraint? *)
Definition constraint_sat (v : V) (tc : TableConstraint) : bool :=
  match tc with
  | TcComparison _ op l | TcCastComparison _ _ op l => comparison_sat v (op, l)
  | TcAnyOf _ ls => existsb (fun l => bool_decide (pg_cmp v l = Eq)) ls
  end.

Definition bound_sat (side : BoundSide) (v : V) (b : RangeBound) : bool :=
  admits side (pg_cmp v (rb_value b)) (rb_inclusive b).

Definition slot_sat (side : BoundSide) (v : V) (slot : option RangeBound) : bool :=
  match slot with None => true | Some b => bound_sat side v b end.

Definition view_mem (v : V) (r : RangeView) : Prop :=
  slot_sat Lower v (rv_lower r) = true /\ slot_sat Upper v (rv_upper r) = true /\
  Forall (fun l => pg_cmp v l <> Eq) (rv_not_equal r).

(** The values a range stands for.  [CrUnknown] claims nothing. *)
Definition range_mem (v : V) (r : ColumnRange) : Prop :=
  match r with
  | CrUnknown | CrEmpty => False
  | CrUnconstrained => True
  | CrEqual l => pg_cmp v l = Eq
  | CrInSet s => exists l, l ∈ s /\ pg_cmp v l = Eq
  | CrRange lower upper ne =>
      view_mem v {| rv_lower := lower; rv_upper := upper; rv_not_equal := ne |}
  end.

(** *** Bounds *)

Ltac order_cases v :=
  match goal with
  | Ha : pg_literal ?a, Hb : pg_literal ?b, E : literal_value_order ?a ?b = Some ?o |- _ =>
      pose proof (pg_cmp_chain v a b o Ha Hb E)
  end.

Lemma bound_tighten_sat side v e c b :
  pg_literal (rb_value e) -> pg_literal (rb_value c) ->
  bound_tighten side e c = Some b ->
  bound_sat side v b = bound_sat side v e && bound_sat side v c.
Proof.
  intros He Hc. unfold bound_tighten, bound_sat, admits.
  destruct (literal_value_order _ _) as [o|] eqn:Eo; [|done]. intros [= <-].
  order_cases v. destruct e as [el ei], c as [cl ci]; simpl in *.
  destruct side, o; simpl;
    destruct (pg_cmp v el), (pg_cmp v cl); simpl in *; try congruence;
    by destruct ei, ci.
Qed.

(** A literal equal to [v] satisfies a bound exactly when [v] does. *)
Lemma value_satisfies_sat side v l b r :
  pg_literal l -> pg_literal (rb_value b) -> pg_cmp v l = Eq ->
  value_satisfies side l b = Some r -> bound_sat side v b = r.
Proof.
  intros Hl Hb Hv. unfold value_satisfies, bound_sat.
  destruct (literal_value_order _ _) as [o|] eqn:Eo; [|done]. intros [= <-].
  order_cases v. rewrite Hv in H. simpl in H. by rewrite H.
Qed.

Lemma tight_bound_sat side v a b :
  pg_literal (rb_value a) -> pg_literal (rb_value b) ->
  bound_at_least_as_tight side a b = Some true ->
  bound_sat side v a = true -> bound_sat side v b = true.
Proof.
  intros Ha Hb. unfold bound_at_least_as_tight, bound_sat, admits.
  destruct (literal_value_order _ _) as [o|] eqn:Eo; [|done]. intros [= Ht].
  order_cases v. destruct a as [al ai], b as [bl bi]; simpl in *.
  destruct side, o; simpl in *; try done;
    destruct (pg_cmp v al), (pg_cmp v bl); simpl in *; try congruence;
    destruct ai, bi; simpl in *; congruence.
Qed.

(** With the order deciding every bound, [range_contains_value] is membership of
    any value the literal denotes. *)
Lemma range_contains_value_mem v l r :
  pg_literal l -> Forall pg_literal (view_bounds r) -> Forall pg_literal (rv_not_equal r) ->
  order_decided [l] (view_bounds r) -> pg_cmp v l = Eq ->
  range_contains_value r l = true <-> view_mem v r.
Proof.
  intros Hl Hb Hne Hd Hv.
  assert (Hside : forall side, bound_holds r l side = slot_sat side v (rv_bound r side)).
  { intros side. unfold bound_holds. destruct (rv_bound r side) as [b|] eqn:Eb; [|done].
    simpl. assert (Hin : rb_value b ∈ view_bounds r).
    { unfold view_bounds. destruct side; simpl in Eb; rewrite Eb; set_solver. }
    rewrite Forall_elem in Hb.
    destruct (value_satisfies side l b) as [x|] eqn:Ex.
    - rewrite (value_satisfies_sat side v l b x) by auto.
      by destruct x.
    - unfold value_satisfies in Ex. destruct (Hd l (rb_value b)) as [o Ho]; [by apply list_elem_of_singleton|done|].
      by rewrite Ho in Ex. }
  unfold range_contains_value, view_mem. cbn [forallb]. rewrite !Hside. simpl.
  rewrite !andb_true_iff, negb_true_iff, bool_decide_eq_false, Forall_elem.
  rewrite Forall_elem in Hne.
  split.
  - intros [[? [? _]] Hn]. split_and!; [done..|]. intros x Hx Hvx. apply Hn.
    by rewrite (pg_cmp_inj v l x) by auto.
  - intros (? & ? & Hn). split_and!; [done..|]. intros Hx. by apply (Hn l).
Qed.

(** *** The accumulator of the comparison loop *)

Definition acc_mem (v : V) (acc : RangeAcc) : Prop :=
  (forall l, ra_equal acc = Some l -> pg_cmp v l = Eq) /\
  slot_sat Lower v (ra_lower acc) = true /\ slot_sat Upper v (ra_upper acc) = true /\
  Forall (fun l => pg_cmp v l <> Eq) (ra_not_equal acc).

Definition acc_view (acc : RangeAcc) : RangeView :=
  {| rv_lower := ra_lower acc; rv_upper := ra_upper acc;
     rv_not_equal := ra_not_equal acc |}.

(** The accumulator's literals are the column's, and its bounds satisfy [B]. *)
Definition acc_ok (B : LiteralValue -> Prop) (acc : RangeAcc) : Prop :=
  Forall pg_literal (option_list (ra_equal acc)) /\
  Forall (fun l => pg_literal l /\ B l) (view_bounds (acc_view acc)) /\
  Forall pg_literal (ra_not_equal acc).

Definition comparison_ok (B : LiteralValue -> Prop) (c : BinaryOp * LiteralValue) : Prop :=
  pg_literal c.2 /\ (is_bound_op c.1 = true -> B c.2).

Lemma slot_literal (slot : option RangeBound) (P : LiteralValue -> Prop) b :
  Forall P (option_list (rb_value <$> slot)) -> slot = Some b -> P (rb_value b).
Proof. intros H ->. simpl in H. by apply Forall_cons_1 in H as [? _]. Qed.

Lemma bound_merge_sat side v slot c slot' :
  Forall pg_literal (option_list (rb_value <$> slot)) -> pg_literal (rb_value c) ->
  bound_merge slot side c = Some slot' ->
  slot_sat side v slot' = slot_sat side v slot && bound_sat side v c.
Proof.
  intros Hs Hc. unfold bound_merge. destruct slot as [e|]; [|by intros [= <-]].
  destruct (bound_tighten side e c) as [b|] eqn:Eb; [|done]. intros [= <-]. simpl.
  apply bound_tighten_sat; [|done|done]. by eapply slot_literal.
Qed.

(** The operator a bound comes from. *)
Definition bound_op (side : BoundSide) (inclusive : bool) : BinaryOp :=
  match side, inclusive with
  | Lower, true => OpGreaterThanOrEqual
  | Lower, false => OpGreaterThan
  | Upper, true => OpLessThanOrEqual
  | Upper, false => OpLessThan
  end.

Lemma bound_op_sat side v l inclusive :
  bound_sat side v {| rb_value := l; rb_inclusive := inclusive |}
  = comparison_sat v (bound_op side inclusive, l).
Proof.
  unfold bound_sat, comparison_sat, admits.
  destruct side, inclusive; simpl; by destruct (pg_cmp v l).
Qed.

(** A bound comparison merges into its slot and changes nothing else. *)
Lemma bound_step_ok B side inclusive acc l slot :
  acc_ok B acc -> pg_literal l -> B l ->
  bound_merge (rv_bound (acc_view acc) side) side
    {| rb_value := l; rb_inclusive := inclusive |} = Some slot ->
  let acc' :=
    {| ra_equal := ra_equal acc;
       ra_lower := match side with Lower => slot | Upper => ra_lower acc end;
       ra_upper := match side with Lower => ra_upper acc | Upper => slot end;
       ra_not_equal := ra_not_equal acc |} in
  acc_ok B acc' /\
  forall v, acc_mem v acc' <->
    acc_mem v acc /\ comparison_sat v (bound_op side inclusive, l) = true.
Proof.
  intros (He & Hb & Hn) Hl HB Hm acc'.
  unfold view_bounds in Hb. simpl in Hb. apply Forall_app in Hb as [Hlo Hup].
  assert (Hslot : Forall (fun l => pg_literal l /\ B l)
                    (option_list (rb_value <$> rv_bound (acc_view acc) side)))
    by (by destruct side).
  split.
  - split_and!; [done| |done]. unfold view_bounds. apply Forall_app.
    pose proof Hm as Hlit.
    eapply bound_merge_literal in Hlit; [|exact Hslot|split; [exact Hl|exact HB]].
    by destruct side.
  - intros v. rewrite <- bound_op_sat. unfold acc_mem, acc'. simpl.
    eapply bound_merge_sat with (v := v) in Hm;
      [|eapply Forall_impl; [|exact Hslot]; by intros ? [? ?]|done].
    destruct side; simpl in *; rewrite Hm, andb_true_iff; naive_solver.
Qed.

Lemma comparison_step_ok B acc c acc' :
  acc_ok B acc -> comparison_ok B c -> comparison_step acc c = inr acc' ->
  acc_ok B acc' /\
  forall v, acc_mem v acc' <-> acc_mem v acc /\ comparison_sat v c = true.
Proof.
  destruct c as [op l]. intros Hok [Hl HB]. simpl in Hl, HB.
  unfold comparison_step. destruct (literal_value_is_incomparable l); [done|].
  destruct op; try done.
  3-6: change (bool_decide (OpLessThan = OpLessThanOrEqual)) with false;
       change (bool_decide (OpLessThanOrEqual = OpLessThanOrEqual)) with true;
       change (bool_decide (OpGreaterThan = OpGreaterThanOrEqual)) with false;
       change (bool_decide (OpGreaterThanOrEqual = OpGreaterThanOrEqual)) with true;
       destruct (bound_merge _ _ _) as [slot|] eqn:Em; [|done]; intros [= <-].
  - pose proof Hok as (He & Hb & Hn). destruct (ra_equal acc) as [e|] eqn:Ee.
    + case_bool_decide; [|done]. intros [= <-]. subst e. split; [done|].
      intros v. unfold comparison_sat. simpl. split; [|by intros [? _]].
      intros Hm. split; [done|]. by rewrite (proj1 Hm l Ee).
    + intros [= <-]. split; [split_and!; by repeat constructor|].
      intros v. unfold acc_mem, comparison_sat. simpl.
      destruct (pg_cmp v l) eqn:Ev; naive_solver congruence.
  - pose proof Hok as (He & Hb & Hn). intros [= <-]. split.
    { split_and!; [done..|]. apply Forall_app. by repeat constructor. }
    intros v. unfold acc_mem, comparison_sat. simpl.
    rewrite Forall_app, Forall_singleton. destruct (pg_cmp v l) eqn:Ev; naive_solver.
  - by apply (bound_step_ok B Upper false acc l slot); auto.
  - by apply (bound_step_ok B Upper true acc l slot); auto.
  - by apply (bound_step_ok B Lower false acc l slot); auto.
  - by apply (bound_step_ok B Lower true acc l slot); auto.
Qed.

(** The two early returns: the analysis gives up, or no value is left. *)
Lemma comparison_step_return B acc c r :
  acc_ok B acc -> comparison_ok B c -> comparison_step acc c = inl r ->
  r = CrUnknown \/
  (r = CrEmpty /\ forall v, acc_mem v acc -> comparison_sat v c = true -> False).
Proof.
  destruct c as [op l]. intros (He & _ & _) [Hl _]. simpl in Hl.
  unfold comparison_step. destruct (literal_value_is_incomparable l).
  { intros [= <-]. by left. }
  destruct op; try (intros [= <-]; by left).
  2-5: destruct (bound_merge _ _ _); intros [= <-]; by left.
  destruct (ra_equal acc) as [e|] eqn:Ee; [|done].
  case_bool_decide as Hne; [done|]. intros [= <-]. right. split; [done|].
  intros v (Hv & _) Hs. apply Hne. simpl in He. apply Forall_cons_1 in He as [He _].
  apply (pg_cmp_inj v); auto. unfold comparison_sat in Hs. simpl in Hs.
  by destruct (pg_cmp v l).
Qed.

Lemma comparison_loop_ok B cs acc :
  acc_ok B acc -> Forall (comparison_ok B) cs ->
  match comparison_loop acc cs with
  | inr acc' => acc_ok B acc' /\
      forall v, acc_mem v acc' <-> acc_mem v acc /\ forallb (comparison_sat v) cs = true
  | inl CrEmpty => forall v, acc_mem v acc -> forallb (comparison_sat v) cs = true -> False
  | inl r => r = CrUnknown
  end.
Proof.
  intros Hok Hcs. revert acc Hok. induction Hcs as [|c cs Hc _ IH]; intros acc Hok; simpl.
  { split; [done|]. naive_solver. }
  destruct (comparison_step acc c) as [r|acc'] eqn:Es.
  - destruct (comparison_step_return B acc c r) as [-> |[-> Hr]]; auto.
    intros v Hm [Hs _]%andb_true_iff. by apply (Hr v).
  - destruct (comparison_step_ok B acc c acc') as [Hok' Hmem]; auto.
    specialize (IH acc' Hok'). destruct (comparison_loop acc' cs) as [r|acc2].
    + destruct r; try done. intros v Hm [Hs Hr]%andb_true_iff.
      apply (IH v); [|done]. by apply Hmem.
    + destruct IH as [Hok2 IH]. split; [done|]. intros v.
      rewrite IH, Hmem, andb_true_iff. tauto.
Qed.

Lemma equal_validate_mem v l sides ne :
  pg_literal l -> Forall pg_literal ne ->
  Forall (fun sb => Forall pg_literal (option_list (rb_value <$> sb.2))) sides ->
  equal_validate l sides ne <> CrUnknown ->
  range_mem v (equal_validate l sides ne) <->
  pg_cmp v l = Eq /\ Forall (fun sb => slot_sat sb.1 v sb.2 = true) sides /\
  Forall (fun x => pg_cmp v x <> Eq) ne.
Proof.
  intros Hl Hne Hs. induction Hs as [|[side [b|]] sides Hb _ IH]; simpl.
  - intros _. case_bool_decide as Hin; simpl.
    + split; [done|]. intros (Hv & _ & Hn). rewrite Forall_elem in Hn. by apply (Hn l).
    + split; [|tauto]. intros Hv. split_and!; [done..|].
      apply Forall_elem. intros x Hx Hvx. rewrite Forall_elem in Hne.
      apply Hin. by rewrite (pg_cmp_inj v l x) by auto.
  - simpl in Hb. apply Forall_cons_1 in Hb as [Hb _]. simpl in Hb.
    destruct (value_satisfies side l b) as [[]|] eqn:Ev; [|intros _|done].
    + intros Hu. rewrite (IH Hu). split; [|by intros (? & [? ?]%Forall_cons_1 & ?)].
      intros (Hv & ? & ?). split_and!; [done| |done]. constructor; [|done].
      simpl. by apply (value_satisfies_sat side v l b).
    + split; [done|]. intros (Hv & [Hsat _]%Forall_cons_1 & _). simpl in Hsat.
      by rewrite (value_satisfies_sat side v l b false) in Hsat.
  - intros Hu. rewrite (IH Hu). rewrite Forall_cons_iff. naive_solver.
Qed.

(** Two bounds that cross leave no value; two that meet leave at most the value
    they meet at. *)
Lemma bounds_cross v lb ub o :
  pg_literal (rb_value lb) -> pg_literal (rb_value ub) ->
  literal_value_order (rb_value lb) (rb_value ub) = Some o ->
  bound_sat Lower v lb && bound_sat Upper v ub = true ->
  match o with
  | Gt => False
  | Eq => rb_inclusive lb && rb_inclusive ub = true /\ pg_cmp v (rb_value lb) = Eq
  | Lt => True
  end.
Proof.
  intros Hlb Hub Eo. order_cases v. destruct lb as [ll li], ub as [ul ui].
  unfold bound_sat, admits. simpl in *. rewrite andb_true_iff.
  destruct o; try done;
    destruct (pg_cmp v ll), (pg_cmp v ul); simpl in *;
    intros [Hl Hu]; try congruence; by subst.
Qed.

Lemma bounds_meet v lb ub :
  pg_literal (rb_value lb) -> pg_literal (rb_value ub) ->
  literal_value_order (rb_value lb) (rb_value ub) = Some Eq ->
  rb_inclusive lb = true -> rb_inclusive ub = true -> pg_cmp v (rb_value lb) = Eq ->
  bound_sat Lower v lb = true /\ bound_sat Upper v ub = true.
Proof.
  intros Hlb Hub Eo Hil Hiu Hv. order_cases v. unfold bound_sat, admits.
  rewrite Hv in *. simpl in H. rewrite H. simpl. by rewrite Hil, Hiu.
Qed.

Lemma range_finish_mem B acc v :
  acc_ok B acc -> range_finish acc <> CrUnknown ->
  range_mem v (range_finish acc) <-> acc_mem v acc.
Proof.
  intros (He & Hb & Hn). unfold range_finish, acc_mem.
  unfold view_bounds in Hb. simpl in Hb. apply Forall_app in Hb as [Hlo Hup].
  assert (Hlo' : Forall pg_literal (option_list (rb_value <$> ra_lower acc)))
    by (eapply Forall_impl; [|exact Hlo]; by intros ? [? ?]).
  assert (Hup' : Forall pg_literal (option_list (rb_value <$> ra_upper acc)))
    by (eapply Forall_impl; [|exact Hup]; by intros ? [? ?]).
  destruct (ra_equal acc) as [e|] eqn:Ee; simpl in He.
  { apply Forall_cons_1 in He as [He _]. intros Hu.
    rewrite equal_validate_mem by (try done; by repeat constructor).
    rewrite !Forall_cons_iff. simpl. naive_solver. }
  clear Ee He. assert (Hrange : range_mem v (CrRange (ra_lower acc) (ra_upper acc) (ra_not_equal acc))
    <-> acc_mem v {| ra_equal := None; ra_lower := ra_lower acc; ra_upper := ra_upper acc;
                     ra_not_equal := ra_not_equal acc |}).
  { unfold acc_mem, range_mem, view_mem. simpl. naive_solver. }
  unfold acc_mem in Hrange. simpl in Hrange.
  destruct (ra_lower acc) as [lb|] eqn:El, (ra_upper acc) as [ub|] eqn:Eu; try done.
  simpl in Hlo', Hup'. apply Forall_cons_1 in Hlo' as [Hlb _], Hup' as [Hub _].
  destruct (literal_value_order (rb_value lb) (rb_value ub)) as [o|] eqn:Eo; [|done].
  pose proof (bounds_cross v lb ub o Hlb Hub Eo) as Hc. rewrite andb_true_iff in Hc.
  destruct o; [|done|].
  - pose proof (bounds_meet v lb ub Hlb Hub Eo) as Hm. clear Hrange El Eu Hlo Hup.
    destruct (rb_inclusive lb), (rb_inclusive ub); simpl in *;
      try (intros _; split; [done|]; intros (_ & ? & ? & _); by destruct Hc as [? ?]).
    case_bool_decide as Hin; simpl; intros _.
    + split; [done|]. intros (_ & ? & ? & Hne). destruct Hc as [_ Hv]; [done|].
      rewrite Forall_elem in Hne. by apply (Hne (rb_value lb)).
    + split; [|intros (_ & ? & ? & _); by apply Hc].
      intros Hv. destruct Hm as [? ?]; auto.
      split_and!; [done..|]. apply Forall_elem. intros x Hx Hvx. apply Hin.
      rewrite Forall_elem in Hn. by rewrite (pg_cmp_inj v (rb_value lb) x) by auto.
  - intros _. split; [done|]. intros (_ & ? & ? & _). by apply Hc.
Qed.

Lemma acc_empty_ok B : acc_ok B acc_empty.
Proof. split_and!; by repeat constructor. Qed.

Lemma acc_empty_mem v : acc_mem v acc_empty.
Proof. split_and!; [done..|constructor]. Qed.

(** *** Exactness of the reduction *)

Lemma comparison_range_build_exact B cs v :
  Forall (comparison_ok B) cs -> comparison_range_build cs <> CrUnknown ->
  range_mem v (comparison_range_build cs) <-> forallb (comparison_sat v) cs = true.
Proof.
  intros Hcs. unfold comparison_range_build. destruct cs as [|c cs]; [done|].
  pose proof (comparison_loop_ok B _ _ (acc_empty_ok B) Hcs) as H.
  destruct (comparison_loop acc_empty (c :: cs)) as [r|acc].
  - destruct r; try done. intros _. split; [done|].
    intros Hs. by apply (H v (acc_empty_mem v)).
  - destruct H as [Hok Hmem]. intros Hu. rewrite (range_finish_mem B) by done.
    rewrite Hmem. pose proof (acc_empty_mem v). tauto.
Qed.

Lemma comparison_range_build_literals B cs :
  Forall (comparison_ok B) cs -> cs <> [] ->
  built_from pg_literal (fun l => pg_literal l /\ B l) pg_literal
    (comparison_range_build cs).
Proof.
  intros Hcs Hne.
  assert (H := comparison_range_build_from pg_literal (fun l => pg_literal l /\ B l)
    pg_literal cs). destruct cs as [|c cs]; [done|]. apply H.
  eapply Forall_impl; [|exact Hcs]. intros [op l] [Hl HB]. simpl in Hl, HB.
  unfold comparison_from. destruct op; simpl; auto; done.
Qed.

Definition set_sat (v : V) (in_set : option (list LiteralValue)) : bool :=
  match in_set with
  | None => true
  | Some ls => existsb (fun l => bool_decide (pg_cmp v l = Eq)) ls
  end.

Lemma constraints_split_sat v cs comps in_set comps' in_set' :
  constraints_split cs comps in_set = Some (comps', in_set') ->
  forallb (comparison_sat v) comps' && set_sat v in_set'
  = forallb (comparison_sat v) comps && set_sat v in_set && forallb (constraint_sat v) cs.
Proof.
  revert comps in_set. induction cs as [|tc cs IH]; intros comps in_set; simpl.
  { intros [= <- <-]. by rewrite andb_true_r. }
  destruct tc as [col op l|col ls|col cast op l].
  2: destruct in_set; [done|].
  all: intros ->%IH; rewrite ?forallb_app; simpl; btauto.
Qed.

Lemma constraints_split_literals (P : BinaryOp * LiteralValue -> Prop)
    (Q : LiteralValue -> Prop) cs comps in_set comps' in_set' :
  constraints_split cs comps in_set = Some (comps', in_set') ->
  Forall P comps -> (forall ls, in_set = Some ls -> Forall Q ls) ->
  (forall tc, tc ∈ cs ->
     match tc with
     | TcComparison _ op l | TcCastComparison _ _ op l => P (op, l)
     | TcAnyOf _ ls => Forall Q ls
     end) ->
  Forall P comps' /\ forall ls, in_set' = Some ls -> Forall Q ls.
Proof.
  revert comps in_set. induction cs as [|tc cs IH]; intros comps in_set; simpl.
  { by intros [= <- <-]. }
  intros Hs Hc Hi Hcs. pose proof (Hcs tc (list_elem_of_here tc cs)) as Htc.
  assert (Hcs' : forall tc, tc ∈ cs ->
     match tc with
     | TcComparison _ op l | TcCastComparison _ _ op l => P (op, l)
     | TcAnyOf _ ls => Forall Q ls
     end) by (intros tc' Htc'; apply Hcs; by right).
  destruct tc as [col op l|col ls|col cast op l]; [| |].
  2: destruct in_set; [done|].
  all: eapply IH; eauto; try (apply Forall_app; by repeat constructor).
  by intros ? [= <-].
Qed.

(** Filtering an IN-list by a range keeps exactly the values of both. *)
Lemma in_set_filter_mem v ls r :
  Forall pg_literal ls -> Forall pg_literal (view_bounds r) ->
  Forall pg_literal (rv_not_equal r) -> order_decided ls (view_bounds r) ->
  (exists l, l ∈ List.filter (range_contains_value r) ls /\ pg_cmp v l = Eq) <->
  view_mem v r /\ set_sat v (Some ls) = true.
Proof.
  intros Hls Hb Hne Hd. rewrite Forall_elem in Hls. simpl. rewrite existsb_elem.
  assert (Hl : forall l, l ∈ ls -> pg_cmp v l = Eq ->
            range_contains_value r l = true <-> view_mem v r).
  { intros l Hin Hv. apply range_contains_value_mem; auto.
    intros l' b ->%list_elem_of_singleton Hb'. by apply Hd. }
  split.
  - intros (l & [Hin Hc]%filter_elem & Hv). split; [by apply (Hl l)|].
    exists l. by rewrite bool_decide_true.
  - intros (Hm & l & Hin & Hv). bool_hyps. exists l. split; [|done].
    apply filter_elem. split; [done|]. by apply Hl.
Qed.

Lemma in_set_range_build_exact ls cs v :
  Forall pg_literal ls ->
  Forall (comparison_ok (fun b => forall l, l ∈ ls -> is_Some (literal_value_order l b))) cs ->
  in_set_range_build ls cs <> CrUnknown ->
  range_mem v (in_set_range_build ls cs) <->
  forallb (comparison_sat v) cs && set_sat v (Some ls) = true.
Proof.
  intros Hls Hcs. unfold in_set_range_build.
  destruct ls as [|l0 ls0] eqn:Els; [by rewrite andb_false_r|].
  rewrite <- Els in *. clear l0 ls0 Els.
  destruct (existsb literal_value_is_incomparable ls); [done|].
  assert (Hset : range_mem v (CrInSet (list_to_set ls)) <-> set_sat v (Some ls) = true).
  { simpl. rewrite existsb_elem. setoid_rewrite elem_of_list_to_set.
    by setoid_rewrite bool_decide_eq_true. }
  destruct cs as [|c0 cs0] eqn:Ecs; [by intros _; rewrite Hset|].
  assert (cs <> []) as Hcne by (by rewrite Ecs). rewrite <- Ecs in *. clear c0 cs0 Ecs.
  pose proof (comparison_range_build_exact _ cs v Hcs) as Hex.
  pose proof (comparison_range_build_literals _ cs Hcs Hcne) as Hlit.
  rewrite andb_true_iff.
  destruct (comparison_range_build cs) as [| | |l|s|lo up ne]; simpl in Hex;
    try done; specialize (Hex ltac:(done)); rewrite <- Hex.
  - simpl. tauto.
  - assert (pg_literal l) by (by destruct Hlit as [?|[? _]]).
    rewrite Forall_elem in Hls. case_bool_decide as Hin; simpl; rewrite existsb_elem.
    + intros _. split; [|tauto]. intros Hv. split; [done|]. exists l.
      by rewrite bool_decide_true.
    + intros _. split; [done|]. intros (Hv & l' & Hin' & Hv'). bool_hyps.
      apply Hin. by rewrite (pg_cmp_inj v l l') by auto.
  - destruct Hlit as [Hb Hne]. rewrite <- in_set_filter_mem; [|done| |done|].
    2: { eapply Forall_impl; [|exact Hb]; by intros ? [? _]. }
    2: { intros l b Hl Hb'. rewrite Forall_elem in Hb. destruct (Hb b Hb') as [_ H]. by apply H. }
    intros _. destruct (List.filter _ ls) as [|l1 [|l2 kept]]; simpl.
    + split; [done|]. intros (l & Hl & _). by apply not_elem_of_nil in Hl.
    + setoid_rewrite list_elem_of_singleton. naive_solver.
    + split; intros (l & Hl & Hv); exists l; (split; [|done]); set_solver.
Qed.

(** The reduction is exact: unless it gives up, a range holds the values that
    satisfy every constraint. *)
Lemma column_range_build_mem cs v :
  Forall pg_literal (flat_map constraint_literals cs) ->
  order_decided (set_literals cs) (bound_literals cs) ->
  column_range_build cs <> CrUnknown ->
  range_mem v (column_range_build cs) <-> forallb (constraint_sat v) cs = true.
Proof.
  intros Hlit Hd. unfold column_range_build.
  destruct cs as [|tc0 cs0] eqn:Ecs; [done|]. rewrite <- Ecs in *. clear tc0 cs0 Ecs.
  destruct (constraints_split cs [] None) as [[comps in_set]|] eqn:Es; [|done].
  pose proof (constraints_split_sat v cs _ _ _ _ Es) as Hsat. simpl in Hsat.
  rewrite <- Hsat. rewrite Forall_elem in Hlit.
  set (B := fun b => forall l, l ∈ set_literals cs -> is_Some (literal_value_order l b)).
  destruct (constraints_split_literals (comparison_ok B)
    (fun l => pg_literal l /\ l ∈ set_literals cs) cs _ _ _ _ Es) as [Hc Hi]; [done..| |].
  { intros tc Htc. assert (Hin : forall l, l ∈ constraint_literals tc -> pg_literal l).
    { intros l Hl. apply Hlit, flat_map_elem. eauto. }
    destruct tc as [col op l|col ls|col cast op l]; simpl in Hin.
    1, 3: split; [apply Hin; by left|]; simpl; intros Hop l' Hl';
      apply Hd; [done|]; apply flat_map_elem; eexists; (split; [exact Htc|]);
      simpl; rewrite Hop; by left.
    apply Forall_elem. intros l Hl. split; [by apply Hin|].
    apply flat_map_elem. eauto. }
  destruct in_set as [ls|].
  - specialize (Hi ls eq_refl). rewrite Forall_elem in Hi. apply in_set_range_build_exact.
    + apply Forall_elem. intros l Hl. by apply Hi.
    + eapply Forall_impl; [|exact Hc]. intros c [? HB]. split; [done|].
      intros Hop l Hl. apply HB; [done|]. by apply Hi.
  - simpl. rewrite andb_true_r. by apply (comparison_range_build_exact B).
Qed.

(** *** Soundness of subsumption *)

Lemma range_contains_value_sound v l r :
  pg_literal l -> Forall pg_literal (view_bounds r) -> Forall pg_literal (rv_not_equal r) ->
  range_contains_value r l = true -> pg_cmp v l = Eq -> view_mem v r.
Proof.
  intros Hl Hb Hne Hc Hv. apply (range_contains_value_mem v l r); auto.
  unfold range_contains_value in Hc. simpl in Hc. bool_hyps.
  assert (Hs : forall side b, bound_holds r l side = true -> rv_bound r side = Some b ->
            is_Some (literal_value_order l (rb_value b))).
  { intros side b Hh Eb. unfold bound_holds in Hh. rewrite Eb in Hh. bool_hyps.
    unfold value_satisfies in Hh. by destruct (literal_value_order l (rb_value b)). }
  intros l' b ->%list_elem_of_singleton. unfold view_bounds. rewrite elem_of_app.
  intros [Hb'|Hb'].
  - destruct (rv_lower r) as [lb|] eqn:E; [|by apply not_elem_of_nil in Hb'].
    apply list_elem_of_singleton in Hb' as ->. by apply (Hs Lower).
  - destruct (rv_upper r) as [ub|] eqn:E; [|by apply not_elem_of_nil in Hb'].
    apply list_elem_of_singleton in Hb' as ->. by apply (Hs Upper).
Qed.

Lemma bound_covered_sat side v (cached new : RangeView) :
  Forall pg_literal (view_bounds cached) -> Forall pg_literal (view_bounds new) ->
  bound_covered side (rv_bound cached side) (rv_bound new side) = true ->
  slot_sat side v (rv_bound new side) = true ->
  slot_sat side v (rv_bound cached side) = true.
Proof.
  unfold view_bounds. rewrite !Forall_app. intros [Hcl Hcu] [Hnl Hnu].
  unfold bound_covered.
  destruct (rv_bound cached side) as [c|] eqn:Ec; [|done].
  destruct (rv_bound new side) as [n|] eqn:En; [|done]. intros Ht. bool_hyps. simpl.
  assert (pg_literal (rb_value c) /\ pg_literal (rb_value n)) as [? ?].
  { by destruct side; simpl in Ec, En; rewrite Ec, En in *; simpl in *;
      repeat match goal with H : Forall _ (_ :: _) |- _ => apply Forall_cons_1 in H as [? _] end. }
  by apply tight_bound_sat.
Qed.

(** The exclusions of a cached range are ordered against the bounds of the new
    one; the other pairs of ranges ask nothing. *)
Definition exclusions_decided (cached new : ColumnRange) : Prop :=
  match cached, new with
  | CrRange _ _ cne, CrRange nl nu nne =>
      order_decided cne
        (view_bounds {| rv_lower := nl; rv_upper := nu; rv_not_equal := nne |})
  | _, _ => True
  end.

Lemma range_subsumes_range_mem v (cached new : RangeView) :
  Forall pg_literal (view_bounds cached) -> Forall pg_literal (rv_not_equal cached) ->
  Forall pg_literal (view_bounds new) -> Forall pg_literal (rv_not_equal new) ->
  order_decided (rv_not_equal cached) (view_bounds new) ->
  range_subsumes_range cached new = true -> view_mem v new -> view_mem v cached.
Proof.
  intros Hcb Hcn Hnb Hnn Hd Hs (Hlo & Hup & Hne). unfold range_subsumes_range in Hs.
  simpl in Hs. bool_hyps. split_and!.
  - by apply (bound_covered_sat Lower v cached new).
  - by apply (bound_covered_sat Upper v cached new).
  - apply Forall_elem. intros x Hx Hv. rewrite forallb_elem in H0. specialize (H0 x Hx).
    rewrite Forall_elem in Hcn, Hne. apply orb_true_iff in H0 as [Hin|Hout]; bool_hyps.
    { by apply (Hne x). }
    apply not_true_iff_false in Hout. apply Hout.
    apply (range_contains_value_mem v x); simpl; [by apply Hcn|done|by constructor| |done|].
    + intros l b ->%list_elem_of_singleton Hb. by apply Hd.
    + split_and!; simpl; [done..|by constructor].
Qed.

Lemma column_range_subsumes_mem v cached new :
  Forall pg_literal (range_literals cached) -> Forall pg_literal (range_literals new) ->
  exclusions_decided cached new ->
  column_range_subsumes cached new = true -> range_mem v new -> range_mem v cached.
Proof.
  intros Hc Hn Hd Hs. destruct cached as [| | |a|s|cl cu cne], new as [| | |b|t|nl nu nne];
    simpl in Hs; try done; bool_hyps; simpl in Hc, Hn |- *; simpl.
  - by subst.
  - intros Hv. eauto.
  - intros (l & Hl & Hv). exists l. split; [by apply Hs|done].
  - apply Forall_app in Hc as [Hcb Hcn]. apply Forall_cons_1 in Hn as [Hb _].
    intros Hv. by apply (range_contains_value_sound v b).
  - apply Forall_app in Hc as [Hcb Hcn]. intros (l & Hl & Hv).
    rewrite Forall_elem in Hn. rewrite forallb_elem in Hs. apply elem_of_elements in Hl.
    apply (range_contains_value_sound v l); auto.
  - apply Forall_app in Hc as [Hcb Hcn], Hn as [Hnb Hnn].
    by apply range_subsumes_range_mem.
Qed.

End semantics.

(** ** Columns *)

(** An integer column compared with integer literals. *)
Module IntColumn.

#[export] Instance int_compare : PgCompare Z := fun v l =>
  match l with LInteger i => Z.compare v i | _ => Lt end.

Definition int_literal (l : LiteralValue) : Prop := exists i, l = LInteger i.

#[export] Instance int_column : PgColumn Z.
Proof.
  refine (Build_PgColumn Z _ int_literal _ _).
  - intros v a b c [i ->] [j ->] [= <-]. apply Z_comp_chain.
  - intros v a b [i ->] [j ->]. simpl. by intros <-%Z.compare_eq <-%Z.compare_eq.
Defined.

(** Integer literals are ordered pairwise, so an integer column needs no side
    condition on the order. *)
Lemma int_order_decided ls bs :
  Forall int_literal ls -> Forall int_literal bs -> order_decided ls bs.
Proof.
  rewrite !Forall_elem. intros Hl Hb l b Hin Hbin.
  destruct (Hl l Hin) as [i ->], (Hb b Hbin) as [j ->]. by eexists.
Qed.

End IntColumn.

(** A text column under a deterministic collation [coll], compared with string
    literals. *)
Section text_column.
Variable coll : string -> string -> comparison.
Hypothesis coll_eq : forall a b, coll a b = Eq <-> a = b.

Definition text_compare : PgCompare string := fun v l =>
  match l with LString s => coll v s | _ => Lt end.

Definition text_literal (l : LiteralValue) : Prop := exists s, l = LString s.

Definition text_column : @PgColumn string text_compare.
Proof using coll_eq.
  refine (Build_PgColumn string _ text_literal _ _).
  - by intros v a b c [i ->] [j ->].
  - intros v a b [i ->] [j ->]. unfold pg_cmp, text_compare.
    by intros <-%coll_eq <-%coll_eq.
Defined.
End text_column.

(** A float8 column compared with float literals; NaN is above every number. *)
Inductive Float8 := F8Num (f : f64) | F8NaN.

Module FloatColumn.

#[export] Instance float8_compare : PgCompare Float8 := fun v l =>
  match v, l with
  | F8Num f, LFloat g => f64_cmp f g
  | F8NaN, _ => Gt
  | _, _ => Lt
  end.

Definition float_literal (l : LiteralValue) : Prop := exists f, l = LFloat f.

#[export] Instance float8_column : PgColumn Float8.
Proof.
  refine (Build_PgColumn Float8 _ float_literal _ _).
  - intros [v|] a b c [i ->] [j ->] [= <-]; unfold pg_cmp, float8_compare.
    + apply f64_comp_chain.
    + by destruct (f64_cmp i j).
  - intros [v|] a b [i ->] [j ->]; unfold pg_cmp, float8_compare; [|done].
    by intros <-%f64_cmp_eq <-%f64_cmp_eq.
Defined.

End FloatColumn.

(** ** Properties *)

(** The reduction of a column's constraints to a range is exact.  For every
    column whose comparison PostgreSQL's laws govern, when the IN-list literals
    are ordered against the bound literals and the reduction does not give up,
    the range holds a value exactly when the value satisfies every constraint. *)
Theorem column_range_build_exact {V} `{!PgCompare V} `{!PgColumn V}
    (cs : list TableConstraint) (v : V)
    (Hliterals : Forall pg_literal (flat_map constraint_literals cs))
    (Hdecided : order_decided (set_literals cs) (bound_literals cs))
    (Hknown : column_range_build cs <> CrUnknown) :
  range_mem v (column_range_build cs) <-> forallb (constraint_sat v) cs = true.
Proof. by apply column_range_build_mem. Qed.

(** Subsumption of ranges is sound.  When [column_range_subsumes] answers
    yes, every value of the new range is a value of the cached one, as long as
    the cached exclusions are ordered against the new bounds. *)
Theorem column_range_subsumes_sound {V} `{!PgCompare V} `{!PgColumn V}
    (cached new : ColumnRange) (v : V)
    (Hcached : Forall pg_literal (range_literals cached))
    (Hnew : Forall pg_literal (range_literals new))
    (Hdecided : exclusions_decided cached new)
    (Hsubsumes : column_range_subsumes cached new = true) :
  range_mem v new -> range_mem v cached.
Proof. by apply column_range_subsumes_mem. Qed.

(** ** Witnesses *)

Module RangeWitness.
Import IntColumn.

(** [id IN (1, 5, 9) AND id > 3 AND id <> 9] *)
Definition in_and_bound : list TableConstraint :=
  [TcAnyOf "id" [LInteger 1; LInteger 5; LInteger 9];
   TcComparison "id" OpGreaterThan (LInteger 3);
   TcComparison "id" OpNotEqual (LInteger 9)].

Lemma column_range_build_exact_witness :
  column_range_build in_and_bound = CrEqual (LInteger 5) /\
  (range_mem 5%Z (column_range_build in_and_bound) <->
   forallb (constraint_sat 5%Z) in_and_bound = true).
Proof.
  split; [by vm_compute|].
  apply (column_range_build_exact in_and_bound 5%Z).
  - repeat constructor; by eexists.
  - apply int_order_decided; repeat constructor; by eexists.
  - by vm_compute.
Defined.

Definition ge3_ne7 : ColumnRange :=
  CrRange (Some {| rb_value := LInteger 3; rb_inclusive := true |}) None [LInteger 7].
Definition gt7_lt20 : ColumnRange :=
  CrRange (Some {| rb_value := LInteger 7; rb_inclusive := false |})
    (Some {| rb_value := LInteger 20; rb_inclusive := false |}) [].

Lemma column_range_subsumes_sound_witness :
  column_range_subsumes ge3_ne7 gt7_lt20 = true /\ range_mem 8%Z ge3_ne7.
Proof.
  split; [by vm_compute|].
  apply (column_range_subsumes_sound ge3_ne7 gt7_lt20 8%Z).
  - repeat constructor; by eexists.
  - repeat constructor; by eexists.
  - apply int_order_decided; repeat constructor; by eexists.
  - by vm_compute.
  - repeat constructor.
Defined.

End RangeWitness.
