(* ===== verification/Subsume.v ===== *)
(** * Constraint sets and table subsumption

    Models the shared types of src/src/query/constraints/mod.rs,
    constraints/subsume.rs and the admission decision
    src/src/cache/admission/subsume.rs. *)

From S2P Require Import Prelude Value Ast Range.

(** ** Data *)

Inductive ColumnConstraint :=
| CcComparison (column : ResolvedColumnNode) (op : BinaryOp) (value : LiteralValue)
| CcInSet (column : ResolvedColumnNode) (values : list LiteralValue)
| CcCastComparison (column : ResolvedColumnNode) (cast : CastTarget) (op : BinaryOp)
    (value : LiteralValue).

Definition cc_column (c : ColumnConstraint) : ResolvedColumnNode :=
  match c with
  | CcComparison column _ _ | CcInSet column _ | CcCastComparison column _ _ _ => column
  end.

Record ColumnEquivalence := {
  ce_left : ResolvedColumnNode;
  ce_right : ResolvedColumnNode
}.

(** [ColumnEquivalence::is_join]. *)
Definition is_join (eq : ColumnEquivalence) : bool :=
  negb (bool_decide (rc_table (ce_left eq) = rc_table (ce_right eq)))
  || negb (bool_decide (rc_table_alias (ce_left eq) = rc_table_alias (ce_right eq))).

(** The two hash sets are lists without duplicates under the source's [==]. *)
Record QueryConstraints := {
  qc_column_constraints : list ColumnConstraint;
  qc_equivalences : list ColumnEquivalence;
  qc_table_constraints : gmap string (list TableConstraint);
  qc_where_analysis_complete : bool
}.

Definition query_constraints_default : QueryConstraints :=
  {| qc_column_constraints := []; qc_equivalences := [];
     qc_table_constraints := ∅; qc_where_analysis_complete := true |}.

(** [QueryConstraints::table_join_columns]. *)
Definition table_join_columns (qc : QueryConstraints) (table_name : string) : list string :=
  omap (fun eq =>
    if is_join eq then
      if bool_decide (rc_table (ce_left eq) = table_name) then Some (rc_column (ce_left eq))
      else if bool_decide (rc_table (ce_right eq) = table_name)
           then Some (rc_column (ce_right eq))
           else None
    else None) (qc_equivalences qc).

(** ** Grouping by column and cast *)

Definition BucketKey : Type := string * option CastTarget.

Definition bucket_key (tc : TableConstraint) : BucketKey :=
  match tc with
  | TcComparison col _ _ | TcAnyOf col _ => (col, None)
  | TcCastComparison col cast _ _ => (col, Some cast)
  end.

Definition group_push (grouped : gmap BucketKey (list TableConstraint))
    (tc : TableConstraint) : gmap BucketKey (list TableConstraint) :=
  let key := bucket_key tc in
  <[key := default [] (grouped !! key) ++ [tc]]> grouped.

Definition constraints_group_by_column (cs : list TableConstraint)
    : gmap BucketKey (list TableConstraint) :=
  fold_left group_push cs ∅.

(** ** Table subsumption *)

Definition bucket_subsumed (new_by_col : gmap BucketKey (list TableConstraint))
    (bucket : BucketKey * list TableConstraint) : bool :=
  let '(col, cached_col_cs) := bucket in
  let cached_range := column_range_build cached_col_cs in
  let new_range :=
    match new_by_col !! col with
    | None => CrUnconstrained
    | Some cs => column_range_build cs
    end in
  column_range_subsumes cached_range new_range.

Definition table_constraints_subsumed (new cached : QueryConstraints) (table : string) : bool :=
  if negb (qc_where_analysis_complete cached) then false
  else
    match qc_table_constraints cached !! table, qc_table_constraints new !! table with
    | None, _ => true
    | Some _, None => false
    | Some cached_cs, Some new_cs =>
        let cached_by_col := constraints_group_by_column cached_cs in
        let new_by_col := constraints_group_by_column new_cs in
        forallb (bucket_subsumed new_by_col) (map_to_list cached_by_col)
    end.

(** ** Admission by subsumption *)

Record SubsumerCandidate := {
  sc_constraints : QueryConstraints;
  sc_has_limit : bool;
  sc_ready : bool;
  sc_single_relation : bool
}.

(** The interface [SubsumerSource]: the registered queries offered for a
    relation and a new query's constraints on it. *)
Class SubsumerSource (S : Type) :=
  candidates : S -> N -> list TableConstraint -> list SubsumerCandidate.

Definition candidate_covers (new_constraints : QueryConstraints) (table_name : string)
    (c : SubsumerCandidate) : bool :=
  negb (sc_has_limit c) && sc_ready c && sc_single_relation c
  && table_constraints_subsumed new_constraints (sc_constraints c) table_name.

Definition subsumption_covered {S} `{!SubsumerSource S} (new_constraints : QueryConstraints)
    (relations : list (N * string)) (source : S) : bool :=
  match relations with
  | [] => false
  | _ =>
      forallb (fun '(relation_oid, table_name) =>
        let new_table_constraints :=
          default [] (qc_table_constraints new_constraints !! table_name) in
        existsb (candidate_covers new_constraints table_name)
          (candidates source relation_oid new_table_constraints)) relations
  end.

(** ** Grouping facts *)

Lemma group_push_fold cs m k :
  fold_left group_push cs m !! k =
  match default [] (m !! k) ++ List.filter (fun tc => bool_decide (bucket_key tc = k)) cs with
  | [] => m !! k
  | l => Some l
  end.
Proof.
  revert m. induction cs as [|tc cs IH]; intros m; simpl.
  { rewrite app_nil_r. destruct (m !! k) as [[|]|]; done. }
  rewrite IH. unfold group_push at 1 2. case_bool_decide as Hk.
  - rewrite <- Hk, lookup_insert_eq. simpl. rewrite <- app_assoc. simpl.
    by destruct (default [] (m !! bucket_key tc)).
  - rewrite lookup_insert_ne by done. done.
Qed.

(** A bucket of the grouped map is the sublist of constraints with its key. *)
Lemma constraints_group_lookup cs k :
  constraints_group_by_column cs !! k =
  match List.filter (fun tc => bool_decide (bucket_key tc = k)) cs with
  | [] => None
  | l => Some l
  end.
Proof. unfold constraints_group_by_column. by rewrite group_push_fold, lookup_empty. Qed.

(** ** Ranges of a non-empty bucket *)

Lemma comparison_range_build_constrained cs :
  cs <> [] -> comparison_range_build cs <> CrUnconstrained.
Proof.
  intros Hne Hu.
  assert (H := comparison_range_build_from (fun _ => True) (fun _ => True) (fun _ => True) cs).
  destruct cs as [|c cs]; [done|]. rewrite Hu in H. apply H.
  apply Forall_elem. intros [[] l] _; done.
Qed.

Lemma constraints_split_nonempty cs comps in_set comps' :
  constraints_split cs comps in_set = Some (comps', None) ->
  in_set = None /\ length comps' = length comps + length cs.
Proof.
  revert comps in_set. induction cs as [|tc cs IH]; intros comps in_set; simpl.
  { intros [= <- <-]. split; [done|]. lia. }
  destruct tc as [col op l|col ls|col cast op l].
  2: { destruct in_set; [done|]. intros H%IH. naive_solver. }
  all: intros [-> Hl]%IH; rewrite length_app in Hl; simpl in Hl; split; [done|lia].
Qed.

(** Only the empty constraint list reduces to the unconstrained range. *)
Lemma column_range_build_constrained cs :
  column_range_build cs = CrUnconstrained -> cs = [].
Proof.
  unfold column_range_build. destruct cs as [|tc cs]; [done|].
  destruct (constraints_split _ [] None) as [[comps [ls|]]|] eqn:Es; [| |done].
  - unfold in_set_range_build. intros H. exfalso. revert H.
    repeat (case_match; try done).
  - apply constraints_split_nonempty in Es as [_ Hl]. simpl in Hl. intros H.
    exfalso. apply (comparison_range_build_constrained comps); [|done].
    by intros ->.
Qed.

Definition exclusion_literals (cs : list TableConstraint) : list LiteralValue :=
  flat_map (fun tc =>
    match tc with
    | TcComparison _ OpNotEqual v | TcCastComparison _ _ OpNotEqual v => [v]
    | _ => []
    end) cs.

Lemma column_range_build_nonempty cs :
  cs <> [] ->
  column_range_build cs =
  match constraints_split cs [] None with
  | None => CrUnknown
  | Some (comparisons, Some set_values) => in_set_range_build set_values comparisons
  | Some (comparisons, None) => comparison_range_build comparisons
  end.
Proof. by destruct cs. Qed.

(** The literals of a built range are those of its constraints: bounds come from
    bound comparisons and exclusions from inequalities. *)
Lemma column_range_build_sources cs :
  Forall (fun l => l ∈ flat_map constraint_literals cs) (range_literals (column_range_build cs)) /\
  match column_range_build cs with
  | CrRange lower upper ne =>
      Forall (fun l => l ∈ bound_literals cs)
        (view_bounds {| rv_lower := lower; rv_upper := upper; rv_not_equal := ne |}) /\
      Forall (fun l => l ∈ exclusion_literals cs) ne
  | _ => True
  end.
Proof.
  set (All := flat_map constraint_literals cs).
  assert (Hall : forall tc l, tc ∈ cs -> l ∈ constraint_literals tc -> l ∈ All).
  { intros tc l Htc Hl. apply flat_map_elem. eauto. }
  set (Pe := fun l => l ∈ All). set (Pb := fun l => l ∈ All /\ l ∈ bound_literals cs).
  set (Pn := fun l => l ∈ All /\ l ∈ exclusion_literals cs).
  assert (Hcr : forall r, built_from Pe Pb Pn r ->
    Forall (fun l => l ∈ All) (range_literals r) /\
    match r with
    | CrRange lower upper ne =>
        Forall (fun l => l ∈ bound_literals cs)
          (view_bounds {| rv_lower := lower; rv_upper := upper; rv_not_equal := ne |}) /\
        Forall (fun l => l ∈ exclusion_literals cs) ne
    | _ => True
    end).
  { intros [| | |l|s|lo up ne]; simpl; try done.
    - intros [H|[H _]]; by repeat constructor.
    - intros [Hb Hn]. split_and!; [apply Forall_app; split| |];
        (eapply Forall_impl; [|eassumption]); by intros ? [? ?]. }
  destruct (decide (cs = [])) as [Hnil|Hne]; [by rewrite Hnil; repeat constructor|].
  rewrite column_range_build_nonempty by done.
  destruct (constraints_split cs [] None) as [[comps in_set]|] eqn:Es; [|by repeat constructor].
  destruct (constraints_split_literals (comparison_from Pe Pb Pn) (fun l => l ∈ All)
    cs _ _ _ _ Es) as [Hc Hi]; [done..| |].
  { intros tc Htc. specialize (Hall tc). destruct tc as [col op l|col ls|col cast op l]; simpl in Hall.
    2: { apply Forall_elem. eauto. }
    all: assert (l ∈ All) by (apply Hall; [done|by left]);
      destruct op; unfold comparison_from; simpl; try done; try intros _;
      (split; [done|]); apply flat_map_elem; (eexists; split; [exact Htc|by left]). }
  pose proof (comparison_range_build_from Pe Pb Pn comps Hc) as Hb.
  destruct in_set as [ls|].
  - specialize (Hi ls eq_refl). unfold in_set_range_build.
    destruct ls as [|l0 ls0] eqn:Els; [by repeat constructor|]. rewrite <- Els in *. clear l0 ls0 Els.
    destruct (existsb _ ls); [by repeat constructor|].
    assert (Hset : forall kept, (forall x, x ∈ kept -> x ∈ ls) ->
      Forall (fun l => l ∈ All) (range_literals (CrInSet (list_to_set kept)))).
    { intros kept Hk. simpl. apply Forall_elem. intros x Hx. rewrite Forall_elem in Hi.
      apply Hi, Hk. by apply elem_of_elements, elem_of_list_to_set in Hx. }
    destruct comps as [|c comps]; [split; [by apply Hset|done]|].
    pose proof (Hcr _ Hb) as [Hl _].
    destruct (comparison_range_build (c :: comps)) as [| | |l|s|lo up ne]; try done.
    + case_bool_decide; [by split|by repeat constructor].
    + pose proof (filter_elem (range_contains_value
        {| rv_lower := lo; rv_upper := up; rv_not_equal := ne |}) ls) as Hf.
      destruct (List.filter _ ls) as [|l1 [|l2 kept]]; [by repeat constructor| |].
      * split; [|done]. constructor; [|constructor]. rewrite Forall_elem in Hi.
        apply Hi. apply (Hf l1). by left.
      * split; [|done]. apply Hset. intros x Hx. by apply Hf.
  - destruct comps as [|c comps]; [by rewrite Hb; repeat constructor|]. by apply Hcr.
Qed.

(** ** Rows

    A row gives every bucket key a value of that key's column domain, [None]
    being SQL NULL; a comparison with NULL never holds. *)
Section rows.
Context (V : BucketKey -> Type).
Context `{Hcmp : forall k, PgCompare (V k)} `{Hcol : forall k, PgColumn (V k)}.

Definition Row : Type := forall k, option (V k).

Definition row_sat (row : Row) (tc : TableConstraint) : bool :=
  match row (bucket_key tc) with
  | None => false
  | Some v => constraint_sat v tc
  end.

(** The constraints of a list that fall in one bucket. *)
Definition bucket_of (cs : list TableConstraint) (k : BucketKey) : list TableConstraint :=
  List.filter (fun tc => bool_decide (bucket_key tc = k)) cs.

(** The literals of a constraint list are those of their columns. *)
Definition constraints_typed (cs : list TableConstraint) : Prop :=
  forall k, Forall (@pg_literal (V k) _ _) (flat_map constraint_literals (bucket_of cs k)).

(** In every bucket the literals the decision compares are ordered. *)
Definition constraints_decided (new cached : list TableConstraint) : Prop :=
  forall k,
    order_decided (set_literals (bucket_of new k)) (bound_literals (bucket_of new k)) /\
    order_decided (set_literals (bucket_of cached k)) (bound_literals (bucket_of cached k)) /\
    order_decided (exclusion_literals (bucket_of cached k)) (bound_literals (bucket_of new k)).

Lemma bucket_of_sat (row : Row) cs k v :
  row k = Some v -> Forall (fun tc => row_sat row tc = true) cs ->
  forallb (constraint_sat v) (bucket_of cs k) = true.
Proof.
  intros Hv Hcs. apply forallb_elem. intros tc [Hin Hk]%filter_elem. bool_hyps.
  rewrite Forall_elem in Hcs. specialize (Hcs tc Hin). unfold row_sat in Hcs.
  subst k. by rewrite Hv in Hcs.
Qed.

(** One bucket: a row that satisfies the new constraints satisfies the cached
    constraints of the bucket. *)
Lemma bucket_subsumed_sound new cached (row : Row) k :
  constraints_typed new -> constraints_typed cached -> constraints_decided new cached ->
  bucket_of cached k <> [] ->
  bucket_subsumed (constraints_group_by_column new) (k, bucket_of cached k) = true ->
  Forall (fun tc => row_sat row tc = true) new ->
  exists v, row k = Some v /\ forallb (constraint_sat v) (bucket_of cached k) = true.
Proof.
  intros Htn Htc Hd Hne Hs Hrow. unfold bucket_subsumed in Hs.
  rewrite constraints_group_lookup in Hs. fold (bucket_of new k) in Hs.
  destruct (Hd k) as (Hdn & Hdc & Hdx). specialize (Htn k). specialize (Htc k).
  assert (Hu : column_range_build (bucket_of cached k) <> CrUnconstrained).
  { intros H%column_range_build_constrained. done. }
  destruct (bucket_of new k) as [|tcn new'] eqn:En.
  { by destruct (column_range_build (bucket_of cached k)). }
  rewrite <- En in *.
  assert (Hin : tcn ∈ bucket_of new k) by (rewrite En; by left).
  clear En. apply filter_elem in Hin as [Hin Hk]. bool_hyps.
  destruct (row k) as [v|] eqn:Ev.
  2: { rewrite Forall_elem in Hrow. specialize (Hrow tcn Hin). unfold row_sat in Hrow.
       subst k. by rewrite Ev in Hrow. }
  exists v. split; [done|].
  pose proof (bucket_of_sat row new k v Ev Hrow) as Hnew.
  destruct (column_range_build_sources (bucket_of new k)) as [Hln Hbn].
  destruct (column_range_build_sources (bucket_of cached k)) as [Hlc Hbc].
  assert (Hkn : column_range_build (bucket_of new k) <> CrUnknown).
  { intros E. rewrite E in Hs. by destruct (column_range_build (bucket_of cached k)). }
  assert (Hkc : column_range_build (bucket_of cached k) <> CrUnknown).
  { intros E. by rewrite E in Hs. }
  apply column_range_build_mem; [done..|].
  apply (column_range_subsumes_mem v _ (column_range_build (bucket_of new k)));
    [| | |done|by apply column_range_build_mem].
  1, 2: rewrite Forall_elem in Htn, Htc; eapply Forall_impl; [|eassumption]; simpl; auto.
  unfold exclusions_decided.
  destruct (column_range_build (bucket_of cached k)), (column_range_build (bucket_of new k));
    try done. destruct Hbn as [Hbn _], Hbc as [_ Hbc].
  rewrite Forall_elem in Hbn, Hbc. intros l b Hl Hb. apply Hdx; auto.
Qed.

Lemma table_constraints_subsumed_rows new cached table cached_cs new_cs (row : Row) :
  qc_table_constraints cached !! table = Some cached_cs ->
  qc_table_constraints new !! table = Some new_cs ->
  constraints_typed new_cs -> constraints_typed cached_cs ->
  constraints_decided new_cs cached_cs ->
  table_constraints_subsumed new cached table = true ->
  Forall (fun tc => row_sat row tc = true) new_cs ->
  Forall (fun tc => row_sat row tc = true) cached_cs.
Proof.
  intros Ec En Htn Htc Hd Hs Hrow. unfold table_constraints_subsumed in Hs.
  rewrite Ec, En in Hs. destruct (qc_where_analysis_complete cached); [simpl in Hs|done].
  rewrite forallb_elem in Hs. apply Forall_elem. intros tc Htc'.
  set (k := bucket_key tc).
  assert (Hin : tc ∈ bucket_of cached_cs k).
  { apply filter_elem. split; [done|]. by rewrite bool_decide_true. }
  assert (Hne : bucket_of cached_cs k <> []).
  { intros E. rewrite E in Hin. by apply not_elem_of_nil in Hin. }
  destruct (bucket_subsumed_sound new_cs cached_cs row k) as (v & Ev & Hv); auto.
  { apply Hs. apply elem_of_map_to_list. rewrite constraints_group_lookup.
    fold (bucket_of cached_cs k). by destruct (bucket_of cached_cs k). }
  unfold row_sat. fold k. rewrite Ev. rewrite forallb_elem in Hv. by apply Hv.
Qed.

End rows.

Arguments row_sat V {_} row tc.
Arguments constraints_typed V {_ _} cs.

(** ** Properties *)

(** Table subsumption is sound.  When [table_constraints_subsumed] holds, a
    row of the table that satisfies all the new query's constraints satisfies all
    the cached query's, for every assignment of column domains that obeys
    PostgreSQL's comparison laws, rows with NULLs included. *)
Theorem table_constraints_subsumed_sound (V : BucketKey -> Type)
    `{Hcmp : forall k, PgCompare (V k)} `{Hcol : forall k, PgColumn (V k)}
    (new cached : QueryConstraints) (table : string) (row : Row V)
    (Htyped_new : constraints_typed V (default [] (qc_table_constraints new !! table)))
    (Htyped_cached : constraints_typed V (default [] (qc_table_constraints cached !! table)))
    (Hdecided : constraints_decided (default [] (qc_table_constraints new !! table))
                  (default [] (qc_table_constraints cached !! table)))
    (Hsubsumed : table_constraints_subsumed new cached table = true) :
  Forall (fun tc => row_sat V row tc = true) (default [] (qc_table_constraints new !! table)) ->
  Forall (fun tc => row_sat V row tc = true) (default [] (qc_table_constraints cached !! table)).
Proof.
  destruct (qc_table_constraints cached !! table) as [cc|] eqn:Ec; [|constructor].
  destruct (qc_table_constraints new !! table) as [nc|] eqn:En.
  - by apply (table_constraints_subsumed_rows V new cached table cc nc row).
  - unfold table_constraints_subsumed in Hsubsumed. rewrite Ec, En in Hsubsumed.
    by destruct (qc_where_analysis_complete cached).
Qed.


(** ** Witnesses and the inputs the side conditions exclude *)

Module SubsumeWitness.
Import IntColumn.

Definition constraints_on (table : string) (cs : list TableConstraint) : QueryConstraints :=
  {| qc_column_constraints := []; qc_equivalences := [];
     qc_table_constraints := {[table := cs]}; qc_where_analysis_complete := true |}.

(** cached: [id >= 3 AND id <> 7]; new: [id > 7 AND id < 20] *)
Definition cached_q : QueryConstraints :=
  constraints_on "t" [TcComparison "id" OpGreaterThanOrEqual (LInteger 3);
                      TcComparison "id" OpNotEqual (LInteger 7)].
Definition new_q : QueryConstraints :=
  constraints_on "t" [TcComparison "id" OpGreaterThan (LInteger 7);
                      TcComparison "id" OpLessThan (LInteger 20)].
Definition id_domains : BucketKey -> Type := fun _ => Z.
Definition row8 : Row id_domains := fun _ => Some 8%Z.

Lemma bucket_of_incl cs k tc : tc ∈ bucket_of cs k -> tc ∈ cs.
Proof. by intros [? _]%filter_elem. Qed.

Lemma ints_typed cs :
  Forall int_literal (flat_map constraint_literals cs) -> constraints_typed id_domains cs.
Proof.
  rewrite Forall_elem. intros H k. apply Forall_elem. intros l Hl. apply H.
  apply flat_map_elem in Hl as (tc & Htc & Hl). apply flat_map_elem.
  eauto using bucket_of_incl.
Qed.

Lemma ints_decided new cached :
  Forall int_literal (flat_map constraint_literals new) ->
  Forall int_literal (flat_map constraint_literals cached) ->
  constraints_decided new cached.
Proof.
  rewrite !Forall_elem. intros Hn Hc k.
  assert (Hsub : forall (f : TableConstraint -> list LiteralValue) cs l,
    (forall tc x, x ∈ f tc -> x ∈ constraint_literals tc) ->
    l ∈ flat_map f (bucket_of cs k) -> l ∈ flat_map constraint_literals cs).
  { intros f cs l Hf (tc & Htc & Hl)%flat_map_elem. apply flat_map_elem.
    eauto using bucket_of_incl. }
  split_and!; apply int_order_decided; apply Forall_elem; intros l Hl;
    first [apply Hn; (eapply Hsub; [|exact Hl])|apply Hc; (eapply Hsub; [|exact Hl])];
    intros [? [] ?|? ?|? ? [] ?] x; simpl; set_solver.
Qed.

Lemma table_constraints_subsumed_sound_witness :
  table_constraints_subsumed new_q cached_q "t" = true /\
  Forall (fun tc => row_sat id_domains row8 tc = true)
    (default [] (qc_table_constraints cached_q !! "t")).
Proof.
  split; [by vm_compute|].
  apply (table_constraints_subsumed_sound id_domains new_q cached_q "t" row8).
  - apply ints_typed. repeat constructor; by eexists.
  - apply ints_typed. repeat constructor; by eexists.
  - apply ints_decided; repeat constructor; by eexists.
  - by vm_compute.
  - by repeat constructor.
Defined.

#[export] Instance one_candidate : SubsumerSource unit := fun _ _ _ =>
  [{| sc_constraints := cached_q; sc_has_limit := false; sc_ready := true;
      sc_single_relation := true |}].

End SubsumeWitness.

(** Text columns under byte collation. *)
Module TextGap.
#[local] Instance byte_text : PgCompare string := text_compare String.compare.

(** cached: [name <> 'x']; new: [name > 'a'] *)
Definition cached_ne_x : QueryConstraints :=
  SubsumeWitness.constraints_on "t" [TcComparison "name" OpNotEqual (LString "x")].
Definition new_gt_a : QueryConstraints :=
  SubsumeWitness.constraints_on "t" [TcComparison "name" OpGreaterThan (LString "a")].
Definition row_x : Row (fun _ => string) := fun _ => Some "x".

(** [name IN ('a', 'z') AND name > 'm'] *)
Definition in_az_gt_m : list TableConstraint :=
  [TcAnyOf "name" [LString "a"; LString "z"];
   TcComparison "name" OpGreaterThan (LString "m")].

(** Where the order on literals does not decide, subsumption is unsound.  A
    cached [name <> 'x'] is reported to subsume [name > 'a'], because the test
    that the excluded ['x'] lies outside the new range counts "not comparable"
    as "outside"; the row ['x'] satisfies the new query and is not in the
    cached one. *)
Theorem subsumption_unsound_on_text :
  table_constraints_subsumed new_gt_a cached_ne_x "t" = true /\
  Forall (fun tc => row_sat (fun _ => string) row_x tc = true)
    (default [] (qc_table_constraints new_gt_a !! "t")) /\
  ~ Forall (fun tc => row_sat (fun _ => string) row_x tc = true)
    (default [] (qc_table_constraints cached_ne_x !! "t")).
Proof.
  split_and!; [by vm_compute|by repeat constructor|].
  intros H. by apply Forall_cons_1 in H as [H _].
Qed.

(** The same confusion in the reduction: an IN-list filtered by a bound it is
    not comparable with reduces to the empty range, so
    [name IN ('a', 'z') AND name > 'm'] is taken to return nothing and every
    analysed cached query with some constraint on the table subsumes it, while
    ['z'] satisfies it. *)
Theorem in_list_emptied_by_text_bound :
  column_range_build in_az_gt_m = CrEmpty /\
  forallb (constraint_sat "z") in_az_gt_m = true /\
  forall cached,
    column_range_subsumes cached (column_range_build in_az_gt_m)
    = match cached with CrEmpty | CrUnknown => false | _ => true end.
Proof.
  split_and!; [by vm_compute..|]. intros cached.
  replace (column_range_build in_az_gt_m) with CrEmpty by (by vm_compute).
  by destruct cached.
Qed.
End TextGap.
