(* ===== verification/RangeOverlap.v ===== *)
(** * Read-after-write overlap: containment and disjointness of ranges

    Models src/src/query/constraints/range_overlap.rs: whether a pending write's
    rows can match a read. *)

From S2P Require Import Prelude Value Ast Range Subsume.

(** ** Operations *)

Definition push_comparison (by_column : gmap string (list TableConstraint))
    (c : string * BinaryOp * LiteralValue) : gmap string (list TableConstraint) :=
  let '(column, op, value) := c in
  <[column := default [] (by_column !! column) ++ [TcComparison column op value]]> by_column.

Definition column_ranges_from_comparisons
    (comparisons : list (string * BinaryOp * LiteralValue)) : gmap string ColumnRange :=
  column_range_build <$> fold_left push_comparison comparisons ∅.

Definition table_column_ranges (constraints : QueryConstraints) (table : string)
    : gmap string ColumnRange :=
  match qc_table_constraints constraints !! table with
  | None => ∅
  | Some table_cs =>
      map_fold (fun (key : BucketKey) cs acc =>
        match key.2 with
        | None => <[key.1 := column_range_build cs]> acc
        | Some _ => acc
        end) ∅ (constraints_group_by_column table_cs)
  end.

(** The loop over the set: [Some true] at the first equal element; an undecidable
    element leaves the exclusion unproven. *)
Fixpoint in_set_loop (elems : list LiteralValue) (value : LiteralValue) (all_unequal : bool)
    : option bool :=
  match elems with
  | [] => if all_unequal then Some false else None
  | elem :: rest =>
      match literal_value_eq elem value with
      | Some true => Some true
      | Some false => in_set_loop rest value all_unequal
      | None => in_set_loop rest value false
      end
  end.

Definition in_set_contains (set : gset LiteralValue) (value : LiteralValue) : option bool :=
  in_set_loop (elements set) value true.

Fixpoint bounds_admit (range : RangeView) (value : LiteralValue) (sides : list BoundSide)
    (admitted : bool) : option bool :=
  match sides with
  | [] => Some admitted
  | side :: rest =>
      match rv_bound range side with
      | None => bounds_admit range value rest admitted
      | Some bound =>
          match literal_value_order_numeric value (rb_value bound) with
          | None => None
          | Some ord =>
              bounds_admit range value rest
                (admitted && admits side ord (rb_inclusive bound))
          end
      end
  end.

Definition range_contains (range : RangeView) (value : LiteralValue) : option bool :=
  if existsb (fun nv => bool_decide (literal_value_eq nv value = Some true))
       (rv_not_equal range)
  then Some false
  else bounds_admit range value [Lower; Upper] true.

Definition column_range_contains (range : ColumnRange) (value : LiteralValue) : option bool :=
  if literal_value_is_incomparable value then None
  else match range with
  | CrUnconstrained => Some true
  | CrEmpty => Some false
  | CrUnknown => None
  | CrEqual v => literal_value_eq v value
  | CrInSet set => in_set_contains set value
  | CrRange lower upper not_equal =>
      range_contains
        {| rv_lower := lower; rv_upper := upper; rv_not_equal := not_equal |} value
  end.

Definition bound_below (upper lower : option RangeBound) : bool :=
  match upper, lower with
  | Some u, Some l =>
      match literal_value_order_numeric (rb_value u) (rb_value l) with
      | Some Lt => true
      | Some Eq => negb (rb_inclusive u && rb_inclusive l)
      | Some Gt | None => false
      end
  | _, _ => false
  end.

Definition excludes (range : ColumnRange) (v : LiteralValue) : bool :=
  bool_decide (column_range_contains range v = Some false).

Definition column_range_disjoint (a b : ColumnRange) : bool :=
  match a, b with
  | CrEmpty, _ | _, CrEmpty => true
  | CrUnknown, _ | _, CrUnknown => false
  | CrEqual x, other | other, CrEqual x => excludes other x
  | CrInSet set, other | other, CrInSet set => forallb (excludes other) (elements set)
  | CrUnconstrained, _ | _, CrUnconstrained => false
  | CrRange la ua _, CrRange lb ub _ => bound_below ua lb || bound_below ub la
  end.

Definition is_empty_range (r : ColumnRange) : bool :=
  match r with CrEmpty => true | _ => false end.

Definition column_ranges_disjoint (a b : gmap string ColumnRange) : bool :=
  if existsb (fun cr => is_empty_range cr.2) (map_to_list a)
     || existsb (fun cr => is_empty_range cr.2) (map_to_list b)
  then true
  else existsb (fun '(col, ra) =>
         match b !! col with
         | Some rb => column_range_disjoint ra rb
         | None => false
         end) (map_to_list a).

(** ** What PostgreSQL promises of the comparison across numeric spellings *)

Class PgOverlap (V : Type) `{!PgCompare V} := {
  po_literal : LiteralValue -> Prop;
  po_chain : forall v a b c,
    po_literal a -> po_literal b -> literal_value_order_numeric a b = Some c ->
    comp_chain (pg_cmp v a) c (pg_cmp v b);
  po_eq : forall v a b r,
    po_literal a -> po_literal b -> literal_value_eq a b = Some r ->
    pg_cmp v a = Eq -> pg_cmp v b = Eq -> r = true;
  po_eq_true : forall v a b,
    po_literal a -> po_literal b -> literal_value_eq a b = Some true ->
    pg_cmp v b = Eq -> pg_cmp v a = Eq
}.

Section overlap.
Context {V : Type} `{!PgCompare V} `{!PgOverlap V}.

Lemma in_set_loop_false elems value v flag :
  Forall po_literal elems -> po_literal value -> pg_cmp v value = Eq ->
  in_set_loop elems value flag = Some false ->
  forall l, l ∈ elems -> pg_cmp v l <> Eq.
Proof.
  intros He Hv Ev. revert flag. induction He as [|e es He _ IH]; intros flag; simpl.
  { intros _ l []%not_elem_of_nil. }
  destruct (literal_value_eq e value) as [[]|] eqn:Eq0; [done| |].
  - intros Hl l [-> |Hin]%elem_of_cons; [|by eapply IH].
    intros Hc. by specialize (po_eq v e value false He Hv Eq0 Hc Ev).
  - intros Hl. exfalso. clear -Hl. induction es as [|e' es IH]; simpl in Hl; [done|].
    destruct (literal_value_eq e' value) as [[]|]; [done|by apply IH..].
Qed.

Lemma bounds_admit_false range value v sides admitted :
  po_literal value -> Forall po_literal (view_bounds range) -> pg_cmp v value = Eq ->
  bounds_admit range value sides admitted = Some false -> admitted = true ->
  exists side, side ∈ sides /\ slot_sat side v (rv_bound range side) = false.
Proof.
  intros Hv Hb Ev. revert admitted. induction sides as [|side sides IH]; intros admitted; simpl.
  { by intros [= ->]. }
  intros Ha ->. destruct (rv_bound range side) as [b|] eqn:Eb.
  2: { destruct (IH true) as (s & ? & ?); auto. exists s. split; [by right|done]. }
  destruct (literal_value_order_numeric value (rb_value b)) as [o|] eqn:Eo; [|done].
  assert (Hlit : po_literal (rb_value b)).
  { rewrite Forall_elem in Hb. apply Hb. unfold view_bounds.
    destruct side; simpl in Eb; rewrite Eb; set_solver. }
  pose proof (po_chain v _ _ _ Hv Hlit Eo) as Hc. rewrite Ev in Hc. simpl in Hc.
  destruct (admits side o (rb_inclusive b)) eqn:Ead.
  - destruct (IH true) as (s & ? & ?); auto. exists s. split; [by right|done].
  - exists side. split; [by left|]. rewrite Eb. simpl. unfold bound_sat. by rewrite Hc.
Qed.

(** A proven exclusion: the column value the literal denotes is not in the range. *)
Lemma column_range_contains_excludes v r l :
  po_literal l -> Forall po_literal (range_literals r) -> pg_cmp v l = Eq ->
  column_range_contains r l = Some false -> ~ range_mem v r.
Proof.
  intros Hl Hr Ev. unfold column_range_contains.
  destruct (literal_value_is_incomparable l); [done|].
  destruct r as [| | |x|s|lo up ne]; simpl; try (by intros _ []); try done.
  - simpl in Hr. apply Forall_cons_1 in Hr as [Hx _].
    intros Hq Hv. by specialize (po_eq v x l false Hx Hl Hq Hv Ev).
  - intros Hs (x & Hx & Hv).
    apply (in_set_loop_false (elements s) l v true Hr Hl Ev Hs x); [|done].
    by apply elem_of_elements.
  - simpl in Hr. apply Forall_app in Hr as [Hb Hn]. unfold range_contains.
    cbn [rv_not_equal]. destruct (existsb _ ne) eqn:Ene.
    + intros _ (_ & _ & Hm). simpl in Hm. apply existsb_elem in Ene as (x & Hx & Hq).
      bool_hyps. rewrite Forall_elem in Hm, Hn. apply (Hm x Hx).
      by apply (po_eq_true v x l); auto.
    + intros Ha (Hlo & Hup & _). simpl in Hlo, Hup.
      apply (bounds_admit_false _ l v) in Ha as (side & _ & Hs); auto.
      by destruct side; simpl in Hs; congruence.
Qed.

Lemma bound_below_disjoint v u l :
  Forall po_literal (option_list (rb_value <$> u)) ->
  Forall po_literal (option_list (rb_value <$> l)) ->
  bound_below u l = true ->
  slot_sat Upper v u = true -> slot_sat Lower v l = true -> False.
Proof.
  destruct u as [[ul ui]|], l as [[ll li]|]; try done. simpl.
  rewrite !Forall_singleton. intros Hu Hl.
  destruct (literal_value_order_numeric ul ll) as [o|] eqn:Eo; [|done].
  pose proof (po_chain v _ _ _ Hu Hl Eo) as Hc. unfold bound_sat, admits. simpl.
  destruct o; try done; destruct (pg_cmp v ul), (pg_cmp v ll); simpl in *;
    try congruence; by destruct ui, li.
Qed.

Lemma excludes_disjoint v r l :
  po_literal l -> Forall po_literal (range_literals r) -> excludes r l = true ->
  pg_cmp v l = Eq -> range_mem v r -> False.
Proof.
  intros Hl Hr Hx Ev Hm. unfold excludes in Hx. bool_hyps.
  by apply (column_range_contains_excludes v r l).
Qed.

(** Disjoint ranges share no value. *)
Lemma column_range_disjoint_mem v a b :
  Forall po_literal (range_literals a) -> Forall po_literal (range_literals b) ->
  column_range_disjoint a b = true -> range_mem v a -> range_mem v b -> False.
Proof.
  intros Ha Hb Hd.
  assert (Hset : forall s r, Forall po_literal (elements s) ->
    Forall po_literal (range_literals r) -> forallb (excludes r) (elements s) = true ->
    range_mem v (CrInSet s) -> range_mem v r -> False).
  { intros s r Hs Hr Hall (x & Hx & Hv) Hm. rewrite forallb_elem in Hall.
    rewrite Forall_elem in Hs. apply elem_of_elements in Hx.
    by apply (excludes_disjoint v r x); auto. }
  assert (Heq : forall x r, Forall po_literal [x] -> Forall po_literal (range_literals r) ->
    excludes r x = true -> range_mem v (CrEqual x) -> range_mem v r -> False).
  { intros x r Hx Hr Hall Hv Hm. apply Forall_cons_1 in Hx as [Hx _].
    by apply (excludes_disjoint v r x). }
  destruct a as [| | |x|s|la ua na], b as [| | |y|t|lb ub nb]; try done;
    intros Hma Hmb; unfold column_range_disjoint in Hd; try done;
    try first [exact (Heq _ _ Ha Hb Hd Hma Hmb)|exact (Heq _ _ Hb Ha Hd Hmb Hma)
              |exact (Hset _ _ Ha Hb Hd Hma Hmb)|exact (Hset _ _ Hb Ha Hd Hmb Hma)].
  simpl in Ha, Hb. unfold view_bounds in Ha, Hb. simpl in Ha, Hb.
  rewrite !Forall_app in Ha, Hb. destruct Ha as [[? ?] _], Hb as [[? ?] _].
  destruct Hma as (? & ? & _), Hmb as (? & ? & _). simpl in *.
  apply orb_true_iff in Hd as [Hd|Hd].
  - by apply (bound_below_disjoint v ua lb).
  - by apply (bound_below_disjoint v ub la).
Qed.
End overlap.

(** ** Range maps *)

Definition comparison_constraint (c : string * BinaryOp * LiteralValue) : TableConstraint :=
  let '(column, op, value) := c in TcComparison column op value.

Lemma push_comparison_fold cs m col :
  fold_left push_comparison cs m !! col =
  match default [] (m !! col) ++ bucket_of (comparison_constraint <$> cs) (col, None) with
  | [] => m !! col
  | l => Some l
  end.
Proof.
  revert m. induction cs as [|[[c op] l] cs IH]; intros m; simpl.
  { rewrite app_nil_r. by destruct (m !! col) as [[|]|]. }
  rewrite IH. case_bool_decide as Hk.
  - injection Hk as ->. rewrite lookup_insert_eq. simpl. rewrite <- app_assoc. simpl.
    by destruct (default [] (m !! col)).
  - rewrite lookup_insert_ne by congruence. done.
Qed.

Lemma column_ranges_from_comparisons_lookup cs col :
  column_ranges_from_comparisons cs !! col =
  match bucket_of (comparison_constraint <$> cs) (col, None) with
  | [] => None
  | l => Some (column_range_build l)
  end.
Proof.
  unfold column_ranges_from_comparisons.
  rewrite lookup_fmap, push_comparison_fold, lookup_empty. simpl.
  by destruct (bucket_of _ _).
Qed.

Lemma table_column_ranges_lookup qc table col :
  table_column_ranges qc table !! col =
  match bucket_of (default [] (qc_table_constraints qc !! table)) (col, None) with
  | [] => None
  | l => Some (column_range_build l)
  end.
Proof.
  unfold table_column_ranges.
  destruct (qc_table_constraints qc !! table) as [cs|]; [|done]. simpl.
  trans (column_range_build <$> constraints_group_by_column cs !! (col, None)).
  2: { rewrite constraints_group_lookup. fold (bucket_of cs (col, None)).
       by destruct (bucket_of cs (col, None)). }
  apply (map_fold_weak_ind (fun acc (m : gmap BucketKey (list TableConstraint)) =>
    acc !! col = column_range_build <$> m !! (col, None))); [done|].
  intros [c [cast|]] l m acc Hm IH; simpl.
  - by rewrite lookup_insert_ne by congruence.
  - destruct (decide (c = col)) as [-> |Hne]; [by rewrite !lookup_insert_eq|].
    by rewrite !lookup_insert_ne by congruence.
Qed.

Section range_maps.
Context (V : BucketKey -> Type).
Context `{Hcmp : forall k, PgCompare (V k)} `{Hov : forall k, PgOverlap (V k)}.

(** A row agrees with a range map: each column's value lies in its range. *)
Definition row_in_ranges (row : Row V) (m : gmap string ColumnRange) : Prop :=
  forall col r, m !! col = Some r ->
    r = CrUnknown \/ exists v, row (col, None) = Some v /\ range_mem v r.

Definition ranges_typed (m : gmap string ColumnRange) : Prop :=
  forall col r, m !! col = Some r ->
    Forall (@po_literal (V (col, None)) _ _) (range_literals r).

Lemma column_ranges_disjoint_rows row a b :
  ranges_typed a -> ranges_typed b ->
  column_ranges_disjoint a b = true ->
  row_in_ranges row a -> row_in_ranges row b -> False.
Proof.
  intros Ta Tb Hd Ra Rb. unfold column_ranges_disjoint in Hd.
  assert (Hempty : forall m, row_in_ranges row m ->
    existsb (fun cr => is_empty_range cr.2) (map_to_list m) = false).
  { intros m Rm. apply existsb_false. intros [col r] Hin%elem_of_map_to_list. simpl.
    destruct (Rm col r Hin) as [-> |(v & _ & Hv)]; [done|]. by destruct r. }
  assert (Hne : forall m col r, row_in_ranges row m -> m !! col = Some r -> r <> CrEmpty).
  { intros m col r Rm Hl. destruct (Rm col r Hl) as [-> |(v & _ & Hv)]; [done|].
    by intros ->. }
  rewrite !Hempty in Hd by done. simpl in Hd.
  apply existsb_elem in Hd as ([col ra] & Hin & Hd). apply elem_of_map_to_list in Hin.
  destruct (b !! col) as [rb|] eqn:Eb; [|done].
  pose proof (Hne _ _ _ Ra Hin). pose proof (Hne _ _ _ Rb Eb).
  destruct (Ra col ra Hin) as [-> |(v & Ev & Hv)]; [by destruct rb|].
  destruct (Rb col rb Eb) as [-> |(w & Ew & Hw)]; [by destruct ra|].
  rewrite Ev in Ew. injection Ew as <-.
  by apply (column_range_disjoint_mem v ra rb); eauto.
Qed.

(** A predicate's literals obey the laws of their columns, [Hcol] giving for
    each column the spelling the predicate uses, and the order decides its
    IN-lists against its bounds. *)
Definition predicate_typed (Hcol : forall k, PgColumn (V k)) (cs : list TableConstraint) : Prop :=
  constraints_typed V cs /\
  forall k, Forall (@po_literal (V k) _ _) (flat_map constraint_literals (bucket_of cs k)) /\
    order_decided (set_literals (bucket_of cs k)) (bound_literals (bucket_of cs k)).

(** The constraints on raw columns. *)
Definition bare_constraints (cs : list TableConstraint) : list TableConstraint :=
  List.filter (fun tc => bool_decide ((bucket_key tc).2 = None)) cs.

Lemma bucket_ranges_rows Hcol row cs (m : gmap string ColumnRange) :
  (forall col, m !! col = match bucket_of cs (col, None) with
                          | [] => None | l => Some (column_range_build l) end) ->
  predicate_typed Hcol cs ->
  ranges_typed m /\
  (Forall (fun tc => row_sat V row tc = true) (bare_constraints cs) -> row_in_ranges row m).
Proof.
  intros Hm [Ht Hp]. split.
  - intros col r. rewrite Hm. destruct (Hp (col, None)) as [Ho _].
    destruct (column_range_build_sources (bucket_of cs (col, None))) as [Hs _].
    destruct (bucket_of cs (col, None)) as [|tc l] eqn:Eb; [done|]. intros [= <-].
    rewrite Forall_elem in Ho. eapply Forall_impl; [|exact Hs]. simpl. auto.
  - intros Hrow col r. rewrite Hm. specialize (Ht (col, None)).
    destruct (Hp (col, None)) as [_ Hd].
    destruct (bucket_of cs (col, None)) as [|tc l] eqn:Eb; [done|].
    rewrite <- Eb in *. intros [= <-].
    assert (Hsat : forall tc', tc' ∈ bucket_of cs (col, None) ->
      bucket_key tc' = (col, None) /\ row_sat V row tc' = true).
    { intros tc' [Hin Hk]%filter_elem. bool_hyps. split; [done|].
      rewrite Forall_elem in Hrow. apply Hrow, filter_elem. rewrite Hk. done. }
    destruct (Hsat tc) as [Hk Hs]; [rewrite Eb; by left|].
    unfold row_sat in Hs. rewrite Hk in Hs.
    destruct (row (col, None)) as [v|] eqn:Ev; [|done].
    destruct (column_range_build (bucket_of cs (col, None))) eqn:Er; [by left|..];
      right; exists v; (split; [done|]); rewrite <- Er; apply column_range_build_mem;
      try done; try congruence;
      apply forallb_elem; intros tc' Htc'; destruct (Hsat tc' Htc') as [Hk' Hs'];
      unfold row_sat in Hs'; rewrite Hk', Ev in Hs'; done.
Qed.
End range_maps.

(** ** Columns *)

(** A numeric column compared with integer and float literals by value.  Within
    one predicate the literals share a spelling ([int_spelling] or
    [float_spelling]); across predicates they need not. *)
Module NumericColumn.

#[export] Instance numeric_compare : PgCompare Float8 := fun v l =>
  match v, literal_num l with
  | F8Num f, Some g => f64_cmp f g
  | F8NaN, _ => Gt
  | _, _ => Lt
  end.

Definition numeric_literal (l : LiteralValue) : Prop :=
  is_Some (literal_num l) /\ literal_i64 l.

#[export] Instance numeric_overlap : PgOverlap Float8.
Proof.
  refine (Build_PgOverlap Float8 _ numeric_literal _ _ _).
  - intros [v|] a b c [[x Ha] Ia] [[y Hb] Ib]; unfold pg_cmp, numeric_compare;
      rewrite (literal_value_order_numeric_spec a b x y) by done; rewrite ?Ha, ?Hb;
      intros [= <-]; [apply f64_comp_chain|by destruct (f64_cmp x y)].
  - intros [v|] a b r [[x Ha] Ia] [[y Hb] Ib]; unfold pg_cmp, numeric_compare; [|done].
    rewrite (literal_value_eq_num a b x y) by done. rewrite Ha, Hb.
    intros [= <-] <-%f64_cmp_eq <-%f64_cmp_eq. by apply bool_decide_eq_true.
  - intros [v|] a b [[x Ha] Ia] [[y Hb] Ib]; unfold pg_cmp, numeric_compare; [|done].
    rewrite (literal_value_eq_num a b x y) by done. rewrite Ha, Hb.
    intros [= Hxy]. bool_hyps. by subst y.
Defined.

Lemma numeric_chain v a b c :
  literal_value_order a b = Some c -> comp_chain (pg_cmp v a) c (pg_cmp v b).
Proof.
  intros (x & y & Ha & Hb & <-)%literal_value_order_num. unfold pg_cmp, numeric_compare.
  rewrite Ha, Hb. destruct v as [v|]; [apply f64_comp_chain|by destruct (f64_cmp x y)].
Qed.

Definition int_spelling : PgColumn Float8.
Proof.
  refine (Build_PgColumn Float8 _ (fun l => exists i, l = LInteger i) _ _).
  - intros v a b c _ _. apply numeric_chain.
  - intros [v|] a b [i ->] [j ->]; unfold pg_cmp, numeric_compare; [|done]. simpl.
    intros ->%f64_cmp_eq Hj%f64_cmp_eq. injection Hj as Hj. f_equal.
    apply Z.compare_eq. rewrite <- Qc_of_Z_compare, Hj. apply Qc_compare_refl.
Defined.

Definition float_spelling : PgColumn Float8.
Proof.
  refine (Build_PgColumn Float8 _ (fun l => exists f, l = LFloat f) _ _).
  - intros v a b c _ _. apply numeric_chain.
  - intros [v|] a b [i ->] [j ->]; unfold pg_cmp, numeric_compare; [|done]. simpl.
    by intros ->%f64_cmp_eq ->%f64_cmp_eq.
Defined.
End NumericColumn.

(** ** Properties *)

(** A proven exclusion is one.  When [column_range_contains] answers
    [Some false] for a written literal, no column value equal to the literal
    lies in the read's range, whichever numeric spelling each side uses. *)
Theorem column_range_contains_sound {V} `{!PgCompare V} `{!PgOverlap V}
    (r : ColumnRange) (l : LiteralValue) (v : V)
    (Hl : po_literal l) (Hr : Forall po_literal (range_literals r))
    (Hvalue : pg_cmp v l = Eq) (Hexcluded : column_range_contains r l = Some false) :
  ~ range_mem v r.
Proof. by apply (column_range_contains_excludes v r l). Qed.

(** A read and a DELETE or UPDATE reported disjoint share no row.  From the
    read's analysed constraints on its table and the write's WHERE comparisons,
    [table_column_ranges] and [column_ranges_from_comparisons] build range maps;
    when [column_ranges_disjoint] holds of them, no row satisfies both the
    read's raw-column constraints and every comparison of the write.  The two
    predicates may spell numbers differently. *)
Theorem column_ranges_disjoint_sound (V : BucketKey -> Type)
    `{Hcmp : forall k, PgCompare (V k)} `{Hov : forall k, PgOverlap (V k)}
    (Hread Hwrite : forall k, PgColumn (V k))
    (qc : QueryConstraints) (table : string)
    (comparisons : list (string * BinaryOp * LiteralValue)) (row : Row V)
    (Htread : predicate_typed V Hread (default [] (qc_table_constraints qc !! table)))
    (Htwrite : predicate_typed V Hwrite (comparison_constraint <$> comparisons))
    (Hdisjoint : column_ranges_disjoint (table_column_ranges qc table)
                   (column_ranges_from_comparisons comparisons) = true) :
  ~ (Forall (fun tc => row_sat V row tc = true)
       (bare_constraints (default [] (qc_table_constraints qc !! table))) /\
     Forall (fun c => row_sat V row (comparison_constraint c) = true) comparisons).
Proof.
  intros [Hr Hw].
  destruct (bucket_ranges_rows V Hread row _ _ (table_column_ranges_lookup qc table) Htread)
    as [Ta Hin].
  destruct (bucket_ranges_rows V Hwrite row _ _
    (column_ranges_from_comparisons_lookup comparisons) Htwrite) as [Tb Hin'].
  apply (column_ranges_disjoint_rows V row _ _ Ta Tb Hdisjoint); [by apply Hin|].
  apply Hin'. apply Forall_elem. intros tc [Htc _]%filter_elem.
  apply list_elem_of_fmap in Htc as (c & -> & Hc). rewrite Forall_elem in Hw. by apply Hw.
Qed.

(** ** Witnesses *)

Module OverlapWitness.
Import NumericColumn.

Ltac numeric_literals :=
  repeat (apply Forall_cons_2; [split; [by eexists|by vm_compute]|]); apply Forall_nil_2.

Definition num_domains : BucketKey -> Type := fun _ => Float8.

(** read: [price IN (1, 2) AND id >= 10]; write: [id < 9.5] *)
Definition read_q : QueryConstraints :=
  SubsumeWitness.constraints_on "t"
    [TcAnyOf "price" [LInteger 1; LInteger 2];
     TcComparison "id" OpGreaterThanOrEqual (LInteger 10)].
Definition nine_and_half : f64 := F64Fin (Q2Qc (19 # 2)).
Definition write_cs : list (string * BinaryOp * LiteralValue) :=
  [("id", OpLessThan, LFloat nine_and_half)].

(** The typing side conditions of a predicate follow from those of its literals
    and of its pairs of literals. *)
Lemma predicate_typed_intro (Hcol : PgColumn Float8) cs :
  Forall (@pg_literal Float8 _ Hcol) (flat_map constraint_literals cs) ->
  Forall numeric_literal (flat_map constraint_literals cs) ->
  (forall a b, @pg_literal Float8 _ Hcol a -> @pg_literal Float8 _ Hcol b ->
     is_Some (literal_value_order a b)) ->
  predicate_typed num_domains (fun _ => Hcol) cs.
Proof.
  rewrite !Forall_elem. intros Hp Hn Ho.
  assert (Hin : forall k (f : TableConstraint -> list LiteralValue) l,
    (forall tc x, x ∈ f tc -> x ∈ constraint_literals tc) ->
    l ∈ flat_map f (bucket_of cs k) -> l ∈ flat_map constraint_literals cs).
  { intros k f l Hf (tc & Htc & Hl)%flat_map_elem. apply flat_map_elem.
    eauto using SubsumeWitness.bucket_of_incl. }
  split; [|intros k; split].
  - intros k. apply Forall_elem. intros l Hl. by apply Hp, (Hin k constraint_literals).
  - apply Forall_elem. intros l Hl. by apply Hn, (Hin k constraint_literals).
  - intros a b Ha Hb. apply Ho; apply Hp; (eapply (Hin k); [|eassumption]);
      intros [? [] ?|? ?|? ? [] ?] x; simpl; set_solver.
Qed.

Lemma column_range_contains_sound_witness :
  ~ range_mem (F8Num nine_and_half) (CrRange (Some {| rb_value := LInteger 10;
       rb_inclusive := true |}) None []).
Proof.
  apply (column_range_contains_sound _ (LFloat nine_and_half)).
  - by split; [eexists|].
  - numeric_literals.
  - by vm_compute.
  - by vm_compute.
Defined.

Definition row_any : Row num_domains := fun _ => Some (F8Num nine_and_half).

Lemma column_ranges_disjoint_sound_witness :
  column_ranges_disjoint (table_column_ranges read_q "t")
    (column_ranges_from_comparisons write_cs) = true /\
  ~ (Forall (fun tc => row_sat num_domains row_any tc = true)
       (bare_constraints (default [] (qc_table_constraints read_q !! "t"))) /\
     Forall (fun c => row_sat num_domains row_any (comparison_constraint c) = true) write_cs).
Proof.
  split; [by vm_compute|].
  apply (column_ranges_disjoint_sound num_domains (fun _ => int_spelling)
    (fun _ => float_spelling)).
  - apply predicate_typed_intro; [repeat constructor; by eexists| |].
    + numeric_literals.
    + intros a b [i ->] [j ->]. by eexists.
  - apply predicate_typed_intro; [repeat constructor; by eexists| |].
    + numeric_literals.
    + intros a b [i ->] [j ->]. by eexists.
  - by vm_compute.
Defined.
End OverlapWitness.
