(* ===== verification/Cast.v ===== *)
(** * Type casts and the text forms of values

    Models src/src/query/cast.rs: the cast targets, the identity and coercion
    whitelists, coercion of a row's wire text, and the canonical column-first
    form of a comparison; with the text operations of the Rust standard library
    it uses ([str::parse::<i64>], [str::trim], [eq_ignore_ascii_case]). *)

From Stdlib Require Import Ascii String.
From stdpp Require Import base list strings.
From S2P Require Import Prelude Value Ast.

(** ** Text *)

Definition byte_code (a : ascii) : N := N_of_ascii a.

Definition is_ascii_digit (a : ascii) : bool :=
  (48 <=? byte_code a)%N && (byte_code a <=? 57)%N.

Definition digit_value (a : ascii) : Z := Z.of_N (byte_code a) - 48.

(** The value of a digit string read after [acc]; [None] on any other byte. *)
Fixpoint digits_value (acc : Z) (s : string) : option Z :=
  match s with
  | EmptyString => Some acc
  | String a s =>
      if is_ascii_digit a then digits_value (10 * acc + digit_value a) s else None
  end.

(** At least one digit. *)
Definition digits_parse (s : string) : option Z :=
  match s with EmptyString => None | _ => digits_value 0 s end.

(** [str::parse::<i64>]: an optional sign, then decimal digits only, within the
    range of the type. *)
Definition parse_i64 (s : string) : option Z :=
  let z :=
    match s with
    | String "-" r => Z.opp <$> digits_parse r
    | String "+" r => digits_parse r
    | _ => digits_parse s
    end in
  match z with
  | Some z => if ((i64_min <=? z) && (z <=? i64_max))%Z then Some z else None
  | None => None
  end.

Definition to_ascii_lowercase (a : ascii) : ascii :=
  if ((65 <=? byte_code a) && (byte_code a <=? 90))%N
  then ascii_of_N (byte_code a + 32) else a.

Fixpoint eq_ignore_ascii_case (a b : string) : bool :=
  match a, b with
  | EmptyString, EmptyString => true
  | String x a, String y b =>
      bool_decide (to_ascii_lowercase x = to_ascii_lowercase y) && eq_ignore_ascii_case a b
  | _, _ => false
  end.

(** The UTF-8 encodings of the characters with Unicode's White_Space property. *)
Definition bytes_string (l : list N) : string := string_of_list_ascii (ascii_of_N <$> l).

Definition white_space : list string :=
  bytes_string <$>
  [[9]; [10]; [11]; [12]; [13]; [32]; [194; 133]; [194; 160]; [225; 154; 128];
   [226; 128; 128]; [226; 128; 129]; [226; 128; 130]; [226; 128; 131]; [226; 128; 132];
   [226; 128; 133]; [226; 128; 134]; [226; 128; 135]; [226; 128; 136]; [226; 128; 137];
   [226; 128; 138]; [226; 128; 168]; [226; 128; 169]; [226; 128; 175]; [226; 129; 159];
   [227; 128; 128]]%N.

Fixpoint strip_prefix (p s : string) : option string :=
  match p, s with
  | EmptyString, _ => Some s
  | String x p, String y s => if bool_decide (x = y) then strip_prefix p s else None
  | String _ _, EmptyString => None
  end.

(** Remove leading members of [seps]; each removal shortens [s], so its length
    is fuel enough. *)
Fixpoint strip_all (fuel : nat) (seps : list string) (s : string) : string :=
  match fuel with
  | O => s
  | S fuel =>
      match head (omap (fun p => strip_prefix p s) seps) with
      | Some s' => strip_all fuel seps s'
      | None => s
      end
  end.

Definition trim_start (s : string) : string := strip_all (String.length s) white_space s.

Definition string_reverse (s : string) : string :=
  string_of_list_ascii (reverse (list_ascii_of_string s)).

Definition trim_end (s : string) : string :=
  string_reverse (strip_all (String.length s) (string_reverse <$> white_space) (string_reverse s)).

Definition trim (s : string) : string := trim_end (trim_start s).

Lemma string_reverse_involutive s : string_reverse (string_reverse s) = s.
Proof.
  unfold string_reverse. rewrite list_ascii_of_string_of_list_ascii, reverse_involutive.
  apply string_of_list_ascii_of_string.
Qed.

(** ** Cast targets *)

Definition cast_target_from_canonical (s : string) : CastTarget :=
  if bool_decide (s = "text") then CastText
  else if bool_decide (s = "int4") then CastInt4
  else if bool_decide (s = "int8") then CastInt8
  else if bool_decide (s = "bool") then CastBool
  else if bool_decide (s = "date") then CastDate
  else CastOther s.

Definition cast_target_deparse (target : CastTarget) : string :=
  match target with
  | CastText => "text"
  | CastInt4 => "int4"
  | CastInt8 => "int8"
  | CastBool => "bool"
  | CastDate => "date"
  | CastOther s => s
  end.

Definition cast_target_is_identity_on (target : CastTarget) (base : PgType) : bool :=
  match target with
  | CastText =>
      match base with TText | TVarchar | TInt2 | TInt4 | TInt8 => true | _ => false end
  | CastInt4 => bool_decide (base = TInt4)
  | CastInt8 => bool_decide (base = TInt8)
  | CastBool => bool_decide (base = TBool)
  | CastDate => bool_decide (base = TDate)
  | CastOther _ => false
  end.

Definition cast_target_is_coercion_supported (target : CastTarget) (base : PgType) : bool :=
  match target with
  | CastInt4 | CastInt8 | CastBool =>
      match base with TText | TVarchar => true | _ => false end
  | CastDate => bool_decide (base = TTimestamp)
  | CastText | CastOther _ => false
  end.

Definition is_canonical_date_prefix (date_bytes : list ascii) : bool :=
  match date_bytes with
  | [y0; y1; y2; y3; dash1; m0; m1; dash2; d0; d1] =>
      is_ascii_digit y0 && is_ascii_digit y1 && is_ascii_digit y2 && is_ascii_digit y3
      && bool_decide (dash1 = "-"%char)
      && is_ascii_digit m0 && is_ascii_digit m1
      && bool_decide (dash2 = "-"%char)
      && is_ascii_digit d0 && is_ascii_digit d1
  | _ => false
  end.

(** [split_first_chunk::<10>] fails on fewer than ten bytes. *)
Definition timestamp_text_to_date (s : string) : option string :=
  let bytes := list_ascii_of_string s in
  if length bytes <? 10 then None
  else
    let date_bytes := take 10 bytes in
    let rest := drop 10 bytes in
    if negb (is_canonical_date_prefix date_bytes) then None
    else match rest with
    | [] | " "%char :: _ | "T"%char :: _ => Some (string_of_list_ascii date_bytes)
    | _ => None
    end.

Definition is_canonical_date_literal (s : string) : bool :=
  is_canonical_date_prefix (list_ascii_of_string s).

Definition bool_literal_parse (s : string) : option bool :=
  let trimmed := trim s in
  if existsb (eq_ignore_ascii_case trimmed) ["t"; "true"; "y"; "yes"; "on"; "1"]
  then Some true
  else if existsb (eq_ignore_ascii_case trimmed) ["f"; "false"; "n"; "no"; "off"; "0"]
  then Some false
  else None.

Definition cast_target_coerce_text (target : CastTarget) (row_text : string)
    : option LiteralValue :=
  match target with
  | CastInt4 | CastInt8 => LInteger <$> parse_i64 row_text
  | CastBool => LBoolean <$> bool_literal_parse row_text
  | CastDate => LString <$> timestamp_text_to_date row_text
  | CastText | CastOther _ => None
  end.

(** ** Comparisons *)

Definition resolved_strip_identity_cast (expr : ResolvedScalarExpr) : ResolvedScalarExpr :=
  match expr with
  | STypeCast (SColumn col) target =>
      if cast_target_is_identity_on target (cm_data_type (rc_metadata col))
      then SColumn col else expr
  | _ => expr
  end.

Definition resolved_where_scalar_leaf (expr : ResolvedWhereExpr) : option ResolvedScalarExpr :=
  match expr with
  | WScalar scalar => Some (resolved_strip_identity_cast scalar)
  | _ => None
  end.

(** The closure [column_target] of [canonicalize_comparison]. *)
Definition column_target (scalar : ResolvedScalarExpr)
    : option (ResolvedColumnNode * option CastTarget) :=
  match scalar with
  | SColumn col => Some (col, None)
  | STypeCast (SColumn col) target => Some (col, Some target)
  | _ => None
  end.

Definition canonicalize_comparison (op : BinaryOp) (lexpr rexpr : ResolvedWhereExpr)
    : option (ResolvedColumnNode * option CastTarget * BinaryOp * LiteralValue) :=
  let lleaf := resolved_where_scalar_leaf lexpr in
  let rleaf := resolved_where_scalar_leaf rexpr in
  let reversed :=
    match lleaf, rleaf with
    | Some (SLiteral val), Some rscalar =>
        '(col, target) ← column_target rscalar;
        flipped ← op_flip op;
        Some (col, target, flipped, val)
    | _, _ => None
    end in
  match lleaf, rleaf with
  | Some lscalar, Some (SLiteral val) =>
      match column_target lscalar with
      | Some (col, target) => Some (col, target, op, val)
      | None => reversed
      end
  | _, _ => reversed
  end.

(** ** Decimal text *)

(** The decimal digits of [n] before [acc]; [fuel] digits at most. *)
Fixpoint digits_text (fuel : nat) (n : Z) (acc : string) : string :=
  let d := ascii_of_N (Z.to_N (n mod 10) + 48) in
  match fuel with
  | O => acc
  | S fuel => if (n <? 10)%Z then String d acc else digits_text fuel (n / 10) (String d acc)
  end.

(** PostgreSQL's text output of an integer. *)
Definition i64_text (z : Z) : string :=
  if (z <? 0)%Z then String "-" (digits_text 20 (- z) "") else digits_text 20 z "".

Lemma digit_text (d : Z) :
  (0 <= d < 10)%Z ->
  is_ascii_digit (ascii_of_N (Z.to_N d + 48)) = true /\
  digit_value (ascii_of_N (Z.to_N d + 48)) = d.
Proof.
  intros Hd. unfold is_ascii_digit, digit_value, byte_code.
  rewrite N_ascii_embedding by lia. split; [|lia].
  apply andb_true_iff. split; apply N.leb_le; lia.
Qed.

Lemma digits_value_text fuel n acc :
  (0 <= n < 10 ^ Z.of_nat fuel)%Z ->
  digits_value 0 (digits_text fuel n acc) = digits_value n acc.
Proof.
  revert n acc. induction fuel as [|fuel IH]; intros n acc Hn; simpl digits_text.
  { replace n with 0%Z by (simpl in Hn; lia). done. }
  rewrite Nat2Z.inj_succ, Z.pow_succ_r in Hn by lia.
  assert (0 <= n mod 10 < 10)%Z as Hm by (apply Z.mod_pos_bound; lia).
  destruct (digit_text _ Hm) as [Hd Hv].
  assert (Hstep : forall m, digits_value m (String (ascii_of_N (Z.to_N (n mod 10) + 48)) acc)
    = digits_value (10 * m + n mod 10) acc).
  { intros m. cbn [digits_value]. by rewrite Hd, Hv. }
  destruct (Z.ltb_spec n 10).
  - rewrite Hstep. f_equal. rewrite Z.mod_small; lia.
  - rewrite IH, Hstep; [f_equal; rewrite (Z.div_mod n 10) at 3; lia|].
    split; [apply Z.div_pos; lia|apply Z.div_lt_upper_bound; lia].
Qed.

(** A printed number starts with a digit. *)
Lemma digits_text_head fuel n acc :
  (0 <= n)%Z -> (fuel <> 0)%nat ->
  exists a s, digits_text fuel n acc = String a s /\ is_ascii_digit a = true.
Proof.
  revert n acc. induction fuel as [|fuel IH]; intros n acc Hn Hf; [done|]. simpl.
  assert (0 <= n mod 10 < 10)%Z as Hm by (apply Z.mod_pos_bound; lia).
  destruct (digit_text _ Hm) as [Hd _].
  destruct (n <? 10)%Z; [by eauto|].
  destruct fuel; [by eauto|]. apply IH; [apply Z.div_pos; lia|lia].
Qed.

Lemma digits_parse_text n :
  (0 <= n < 10 ^ 20)%Z -> digits_parse (digits_text 20 n "") = Some n.
Proof.
  intros Hn. pose proof (digits_value_text 20 n "" Hn) as Hv.
  destruct (digits_text_head 20 n "") as (a & s & E & _); [lia..|].
  rewrite E in *. by unfold digits_parse.
Qed.

(** Reading back what PostgreSQL prints. *)
Lemma parse_i64_text z : i64_range z -> parse_i64 (i64_text z) = Some z.
Proof.
  intros Hz. assert (Hr : (i64_min <=? z)%Z && (z <=? i64_max)%Z = true).
  { unfold i64_range in Hz. apply andb_true_iff. split; lia. }
  unfold i64_range, i64_min, i64_max in Hz. unfold i64_text.
  destruct (Z.ltb_spec z 0).
  - unfold parse_i64. rewrite digits_parse_text by lia. cbn [fmap option_fmap option_map].
    rewrite Z.opp_involutive. by rewrite Hr.
  - destruct (digits_text_head 20 z "") as (a & s & E & Ha); [lia..|].
    unfold parse_i64. rewrite E.
    assert (Hp : digits_parse (String a s) = Some z).
    { rewrite <- E. apply digits_parse_text. lia. }
    rewrite Hp.
    assert (Hs : match String a s with
      | String "-" r => Z.opp <$> digits_parse r
      | String "+" r => digits_parse r
      | _ => Some z end = Some z).
    { clear -Ha. destruct a as [[] [] [] [] [] [] [] []]; done. }
    rewrite Hs. by rewrite Hr.
Qed.

(** ** Dates *)

(** The number [YYYYMMDD] of a date text: its digits, dashes skipped. *)
Definition date_digit (acc : Z) (a : ascii) : Z :=
  if bool_decide (a = "-"%char) then acc else 10 * acc + digit_value a.
Definition date_number (s : string) : Z := fold_left date_digit (list_ascii_of_string s) 0%Z.

(** Two bytes at the same place of two canonical dates. *)
Definition date_place (a b : ascii) : Prop :=
  (a = "-"%char /\ b = "-"%char) \/ (is_ascii_digit a = true /\ is_ascii_digit b = true).

Lemma digit_not_dash a : is_ascii_digit a = true -> bool_decide (a = "-"%char) = false.
Proof. intros Ha. apply bool_decide_eq_false. by intros ->. Qed.

Lemma digit_value_bounds a : is_ascii_digit a = true -> (0 <= digit_value a < 10)%Z.
Proof.
  unfold is_ascii_digit, digit_value. intros Ha. bool_hyps.
  apply N.leb_le in H, H0. lia.
Qed.

Lemma date_number_lt l1 l2 x y :
  Forall2 date_place l1 l2 -> (x < y)%Z ->
  (fold_left date_digit l1 x < fold_left date_digit l2 y)%Z.
Proof.
  intros Hl. revert x y. induction Hl as [|a b l1 l2 [[-> ->]|[Ha Hb]] Hl IH]; intros x y Hxy;
    simpl; [done| |]; apply IH; unfold date_digit; simpl; [done|].
  rewrite !digit_not_dash by done.
  pose proof (digit_value_bounds a Ha). pose proof (digit_value_bounds b Hb). lia.
Qed.

Lemma ascii_compare_digit a b :
  Ascii.compare a b = Z.compare (digit_value a) (digit_value b).
Proof.
  unfold Ascii.compare, digit_value, byte_code. rewrite <- N2Z.inj_compare.
  set (x := Z.of_N _). set (y := Z.of_N _).
  destruct (Z.compare_spec x y), (Z.compare_spec (x - 48) (y - 48)); lia || done.
Qed.

Lemma date_number_compare l1 l2 x :
  Forall2 date_place l1 l2 ->
  String.compare (string_of_list_ascii l1) (string_of_list_ascii l2)
  = Z.compare (fold_left date_digit l1 x) (fold_left date_digit l2 x).
Proof.
  intros Hl. revert x. induction Hl as [|a b l1 l2 [[-> ->]|[Ha Hb]] Hl IH]; intros x; simpl.
  - by rewrite Z.compare_refl.
  - apply IH.
  - rewrite ascii_compare_digit. unfold date_digit at 2 4. rewrite !digit_not_dash by done.
    destruct (Z.compare_spec (digit_value a) (digit_value b)) as [E|E|E].
    + rewrite E. apply IH.
    + symmetry. apply Z.compare_lt_iff. apply date_number_lt; [done|lia].
    + symmetry. apply Z.compare_gt_iff. apply date_number_lt; [|lia].
      clear -Hl. induction Hl as [|? ? ? ? [[]|[]]]; constructor; auto; unfold date_place; auto.
Qed.

Lemma canonical_date_places a b :
  is_canonical_date_prefix a = true -> is_canonical_date_prefix b = true ->
  Forall2 date_place a b.
Proof.
  unfold is_canonical_date_prefix. intros Ha Hb.
  do 10 (destruct a as [|? a]; [done|]). destruct a; [|done].
  do 10 (destruct b as [|? b]; [done|]). destruct b; [|done].
  bool_hyps. subst.
  repeat (apply Forall2_cons_2; [unfold date_place; auto|]). apply Forall2_nil_2.
Qed.

Lemma canonical_date_compare a b :
  is_canonical_date_literal a = true -> is_canonical_date_literal b = true ->
  String.compare a b = Z.compare (date_number a) (date_number b).
Proof.
  intros Ha Hb. unfold date_number. rewrite <- (date_number_compare _ _ 0%Z).
  - by rewrite !string_of_list_ascii_of_string.
  - by apply canonical_date_places.
Qed.

Lemma timestamp_date_prefix s d :
  timestamp_text_to_date s = Some d ->
  is_canonical_date_literal d = true /\
  exists rest, s = String.append d rest /\
    (rest = "" \/ exists r, rest = String " " r \/ rest = String "T" r).
Proof.
  unfold timestamp_text_to_date. set (l := list_ascii_of_string s).
  destruct (length l <? 10); [done|].
  destruct (is_canonical_date_prefix (take 10 l)) eqn:Hc; [|done]. simpl negb. cbv iota.
  intros Hd.
  assert (Hs : string_of_list_ascii (take 10 l) = d /\
    (drop 10 l = [] \/ exists r, drop 10 l = " "%char :: r \/ drop 10 l = "T"%char :: r)).
  { destruct (drop 10 l) as [|c r]; [split; [congruence|by left]|].
    destruct c as [[] [] [] [] [] [] [] []]; try discriminate Hd;
      (split; [congruence|right; exists r; auto]). }
  clear Hd. destruct Hs as [<- Hrest]. split.
  { unfold is_canonical_date_literal. by rewrite list_ascii_of_string_of_list_ascii. }
  exists (string_of_list_ascii (drop 10 l)). split.
  - rewrite <- (string_of_list_ascii_of_string s). fold l.
    rewrite <- (take_drop 10 l) at 1. generalize (take 10 l), (drop 10 l). intros t u.
    induction t as [|a t IH]; [done|]. cbn. by rewrite IH.
  - destruct Hrest as [-> |[r [-> | ->]]]; simpl; eauto.
Qed.

(** ** Comparison semantics *)

(** Any reading of scalar expressions in a domain with a comparison: SQL's
    [=, <>, <, <=, >, >=] on two known values. *)
Section comparison_semantics.
Context {D : Type} (value : ResolvedScalarExpr -> option D) (cmp : D -> D -> comparison).

Definition scalar_compare (a : option D) (op : BinaryOp) (b : option D) : option bool :=
  x ← a; y ← b; Some (ordering_satisfies_op (cmp x y) op).

Definition where_value (e : ResolvedWhereExpr) : option D :=
  match e with WScalar s => value s | _ => None end.

Definition canonical_value (c : ResolvedColumnNode) (target : option CastTarget) : option D :=
  value (match target with Some t => STypeCast (SColumn c) t | None => SColumn c end).

Hypothesis cmp_opp : forall a b, cmp b a = CompOpp (cmp a b).
Hypothesis identity_cast : forall col target,
  cast_target_is_identity_on target (cm_data_type (rc_metadata col)) = true ->
  value (STypeCast (SColumn col) target) = value (SColumn col).

Lemma strip_identity_value s : value (resolved_strip_identity_cast s) = value s.
Proof using identity_cast.
  destruct s as [| | | | | | | |e t]; try done. destruct e; try done. simpl.
  destruct (cast_target_is_identity_on _ _) eqn:E; [|done]. by rewrite identity_cast.
Qed.

Lemma scalar_leaf_value e s :
  resolved_where_scalar_leaf e = Some s -> where_value e = value s.
Proof using identity_cast.
  destruct e; simpl; try done. intros [= <-]. by rewrite strip_identity_value.
Qed.

Lemma column_target_value s c t : column_target s = Some (c, t) -> value s = canonical_value c t.
Proof.
  destruct s as [| | | | | | | |e t']; simpl; try done; [by intros [= <- <-]|].
  destruct e; try done. by intros [= <- <-].
Qed.

Lemma scalar_compare_flip a b op op' :
  op_flip op = Some op' -> scalar_compare a op' b = scalar_compare b op a.
Proof using cmp_opp.
  destruct a as [x|], b as [y|]; try done. intros Hf. simpl. f_equal.
  rewrite (cmp_opp y x). destruct op; simpl in Hf; try discriminate;
    injection Hf as <-; by destruct (cmp y x).
Qed.

Lemma canonicalize_value op l r c t op' v :
  canonicalize_comparison op l r = Some (c, t, op', v) ->
  scalar_compare (where_value l) op (where_value r)
  = scalar_compare (canonical_value c t) op' (value (SLiteral v)).
Proof using cmp_opp identity_cast.
  unfold canonicalize_comparison.
  destruct (resolved_where_scalar_leaf l) as [ls|] eqn:El; [|done].
  destruct (resolved_where_scalar_leaf r) as [rs|] eqn:Er; [|by destruct ls].
  rewrite (scalar_leaf_value l ls El), (scalar_leaf_value r rs Er).
  assert (Hrev : match ls with
      | SLiteral val => '(col, target) ← column_target rs; flipped ← op_flip op;
          Some (col, target, flipped, val)
      | _ => None end = Some (c, t, op', v) ->
    scalar_compare (value ls) op (value rs)
    = scalar_compare (canonical_value c t) op' (value (SLiteral v))).
  { destruct ls as [| | |w| | | | |]; try done.
    destruct (column_target rs) as [[c' t']|] eqn:Ec; [|done]. simpl.
    destruct (op_flip op) as [o|] eqn:Ef; [|done]. simpl. intros [= -> -> -> ->].
    rewrite (column_target_value rs c t Ec). symmetry. by apply scalar_compare_flip. }
  destruct rs as [| | |w| | | | |]; try exact Hrev.
  destruct (column_target ls) as [[c' t']|] eqn:Ec; [|exact Hrev].
  intros [= -> -> -> ->]. by rewrite (column_target_value ls c t Ec).
Qed.
End comparison_semantics.

(** ** Properties *)

(** Putting a comparison in column-first form keeps its meaning.  For any
    reading of scalars in an ordered domain under which identity casts change
    nothing, [canonicalize_comparison] (which strips identity casts, finds the
    column and flips the operator when the literal is on the left) gives a
    comparison with the same SQL truth value, NULL included. *)
Theorem canonicalize_comparison_sound {D} (value : ResolvedScalarExpr -> option D)
    (cmp : D -> D -> comparison) op l r c t op' v
    (Hopp : forall a b, cmp b a = CompOpp (cmp a b))
    (Hidentity : forall col target,
       cast_target_is_identity_on target (cm_data_type (rc_metadata col)) = true ->
       value (STypeCast (SColumn col) target) = value (SColumn col))
    (Hcanonical : canonicalize_comparison op l r = Some (c, t, op', v)) :
  scalar_compare cmp (where_value value l) op (where_value value r)
  = scalar_compare cmp (canonical_value value c t) op' (value (SLiteral v)).
Proof. by apply canonicalize_value. Qed.

(** Comparing date texts byte by byte is comparing dates.  The date part
    [timestamp_text_to_date] takes from a timestamp's text is a canonical date
    that begins it, and canonical dates compare as texts exactly as the calendar
    numbers [YYYYMMDD] they write. *)
Theorem date_text_order (s d e : string)
    (Hdate : timestamp_text_to_date s = Some d)
    (Hliteral : is_canonical_date_literal e = true) :
  (exists rest, s = String.append d rest) /\
  String.compare d e = Z.compare (date_number d) (date_number e).
Proof.
  destruct (timestamp_date_prefix s d Hdate) as [Hd (rest & -> & _)].
  split; [by eauto|by apply canonical_date_compare].
Qed.

(** Reading an integer back from PostgreSQL's text output of it gives the
    integer, for every [i64]. *)
Theorem parse_i64_roundtrip (z : Z) (Hz : i64_range z) : parse_i64 (i64_text z) = Some z.
Proof. by apply parse_i64_text. Qed.

(** ** Witnesses *)

Module CastWitness.
Definition meta (name : string) (pos : Z) (ty : PgType) : ColumnMetadata :=
  {| cm_name := name; cm_position := pos; cm_type_oid := 23; cm_data_type := ty;
     cm_type_name := "t"; cm_cache_type_name := "t"; cm_is_primary_key := false |}.
Definition col (name : string) (pos : Z) (ty : PgType) : ResolvedColumnNode :=
  {| rc_schema := "public"; rc_table := "t"; rc_table_alias := None; rc_column := name;
     rc_metadata := meta name pos ty |}.

(** A row with [id = 7]: casts of the column have its value. *)
Definition id_value (s : ResolvedScalarExpr) : option Z :=
  match s with
  | SColumn _ | STypeCast (SColumn _) _ => Some 7%Z
  | SLiteral (LInteger i) => Some i
  | _ => None
  end.

(** [5 < id::int4] becomes [id > 5]. *)
Lemma canonicalize_comparison_sound_witness :
  scalar_compare Z.compare (Some 5%Z) OpLessThan (Some 7%Z)
  = scalar_compare Z.compare (Some 7%Z) OpGreaterThan (Some 5%Z).
Proof.
  apply (canonicalize_comparison_sound id_value Z.compare OpLessThan
    (WScalar (SLiteral (LInteger 5)))
    (WScalar (STypeCast (SColumn (col "id" 1 TInt4)) CastInt4))
    (col "id" 1 TInt4) None OpGreaterThan (LInteger 5)).
  - apply Z.compare_antisym.
  - done.
  - by vm_compute.
Defined.

Lemma date_text_order_witness :
  String.compare "2024-02-29" "2023-12-31" = Z.compare 20240229 20231231.
Proof.
  apply (date_text_order "2024-02-29 13:00:00" "2024-02-29" "2023-12-31"); by vm_compute.
Defined.

Lemma parse_i64_roundtrip_witness : parse_i64 "-9223372036854775808" = Some (- 2 ^ 63)%Z.
Proof. apply (parse_i64_roundtrip (- 2 ^ 63)). by split. Defined.
End CastWitness.
