(* ===== verification/Evaluate.v ===== *)
(** * Row evaluation of WHERE clauses

    Models src/src/query/evaluate.rs (the evaluator that decides a resolved WHERE
    expression on one row's wire text, and the classifier of the shapes it
    supports) and src/src/query/predicate.rs (its compiled form), with the
    [f64] parsing, subtraction and comparison of Rust they use. *)

From Stdlib Require Import Ascii String.
From stdpp Require Import base list strings.
From S2P Require Import Prelude Value Ast Cast.

(** ** Binary64 text and arithmetic *)

(** Round a quotient of positive integers to the nearest integer, ties to even. *)
Definition div_half_even (n d : Z) : Z :=
  let q := (n / d)%Z in
  match Z.compare (2 * (n mod d)) d with
  | Lt => q
  | Gt => (q + 1)%Z
  | Eq => if Z.even q then q else (q + 1)%Z
  end.

(** The binary64 nearest a positive [n / d]: 53 significant bits, exponents from
    -1074, infinity from [2 ^ 1024]. *)
Definition round_positive (n d : Z) : f64 :=
  let k0 := (Z.log2 n - Z.log2 d)%Z in
  let reached := if (0 <=? k0)%Z then (d * 2 ^ k0 <=? n)%Z else (d <=? n * 2 ^ (- k0))%Z in
  let k := if reached then k0 else (k0 - 1)%Z in
  let u := Z.max (k - 52) (-1074) in
  let m :=
    if (0 <=? u)%Z then div_half_even n (d * 2 ^ u) else div_half_even (n * 2 ^ (- u)) d in
  if (0 <=? u)%Z
  then if (2 ^ 1024 <=? m * 2 ^ u)%Z then F64PosInf else F64Fin (Qc_of_Z (m * 2 ^ u))
  else F64Fin (Q2Qc (m # Z.to_pos (2 ^ (- u)))).

Definition f64_neg (f : f64) : f64 :=
  match f with
  | F64NegInf => F64PosInf
  | F64Fin q => F64Fin (- q)
  | F64PosInf => F64NegInf
  end.

Definition round_f64 (q : Q) : f64 :=
  match Qnum q with
  | Z0 => F64Fin 0
  | Zpos n => round_positive (Zpos n) (QDen q)
  | Zneg n => f64_neg (round_positive (Zpos n) (QDen q))
  end.

(** [str::parse::<f64>].  [None] is a parse error, [Some None] is NaN. *)
Fixpoint scan_digits (s : string) (acc : Z) (count : nat) : Z * nat * string :=
  match s with
  | String a r =>
      if is_ascii_digit a then scan_digits r (10 * acc + digit_value a) (S count)
      else (acc, count, s)
  | EmptyString => (acc, count, s)
  end.

Definition scan_exponent (s : string) : option Z :=
  match s with
  | EmptyString => Some 0%Z
  | String a r =>
      if bool_decide (to_ascii_lowercase a = "e"%char) then
        match r with
        | String "-" r => Z.opp <$> digits_parse r
        | String "+" r => digits_parse r
        | _ => digits_parse r
        end
      else None
  end.

Definition parse_decimal (s : string) : option Q :=
  let '(m, n1, r) := scan_digits s 0 0 in
  let '(m, n2, r) := match r with
                     | String "." r => scan_digits r m 0
                     | _ => (m, 0, r)
                     end in
  if (n1 + n2 =? 0)%nat then None
  else
    e ← scan_exponent r;
    let k := (e - Z.of_nat n2)%Z in
    Some (if (0 <=? k)%Z then inject_Z (m * 10 ^ k) else m # Z.to_pos (10 ^ (- k))).

Definition parse_unsigned_f64 (s : string) : option (option f64) :=
  match parse_decimal s with
  | Some q => Some (Some (round_f64 q))
  | None =>
      if eq_ignore_ascii_case s "inf" || eq_ignore_ascii_case s "infinity"
      then Some (Some F64PosInf)
      else if eq_ignore_ascii_case s "nan" then Some None
      else None
  end.

Definition parse_f64 (s : string) : option (option f64) :=
  match s with
  | String "-" r => option_map (option_map f64_neg) (parse_unsigned_f64 r)
  | String "+" r => parse_unsigned_f64 r
  | _ => parse_unsigned_f64 s
  end.

(** [(a - b).abs()]; [None] is NaN. *)
Definition f64_sub (a b : f64) : option f64 :=
  match a, b with
  | F64PosInf, F64PosInf | F64NegInf, F64NegInf => None
  | F64PosInf, _ | _, F64NegInf => Some F64PosInf
  | F64NegInf, _ | _, F64PosInf => Some F64NegInf
  | F64Fin p, F64Fin q => Some (round_f64 (p - q)%Q)
  end.

Definition f64_abs (f : f64) : f64 :=
  match f64_cmp f (F64Fin 0) with Lt => f64_neg f | _ => f end.

Definition f64_epsilon : f64 := F64Fin (Q2Qc (1 # 2 ^ 52)).

(** The comparison operators of [f64]: every one is false of a NaN. *)
Definition f64_lt (a b : option f64) : bool :=
  match a, b with Some a, Some b => bool_decide (f64_cmp a b = Lt) | _, _ => false end.
Definition f64_le (a b : option f64) : bool :=
  match a, b with Some a, Some b => negb (bool_decide (f64_cmp a b = Gt)) | _, _ => false end.

(** ** Comparing a row's text with a literal *)

Definition float_text_compare (row_value_str : string) (filter : f64) (op : BinaryOp) : bool :=
  match parse_f64 row_value_str with
  | None => false
  | Some row_float =>
      let diff := f64_abs <$> (row ← row_float; f64_sub row filter) in
      match op with
      | OpEqual => f64_lt diff (Some f64_epsilon)
      | OpNotEqual => f64_le (Some f64_epsilon) diff
      | OpLessThan => f64_lt row_float (Some filter)
      | OpLessThanOrEqual => f64_le row_float (Some filter)
      | OpGreaterThan => f64_lt (Some filter) row_float
      | OpGreaterThanOrEqual => f64_le (Some filter) row_float
      | _ => false
      end
  end.

Definition bool_wire_text_parse (text : string) : option bool :=
  if bool_decide (text = "t") || bool_decide (text = "true") then Some true
  else if bool_decide (text = "f") || bool_decide (text = "false") then Some false
  else None.

Definition bool_text_compare (row_value_str : string) (filter : bool) (op : BinaryOp) : bool :=
  match bool_wire_text_parse row_value_str, op with
  | Some row_bool, OpEqual => Bool.eqb row_bool filter
  | Some row_bool, OpNotEqual => negb (Bool.eqb row_bool filter)
  | _, _ => false
  end.

Definition where_value_compare_string (filter_value : LiteralValue) (row_value_str : string)
    (op : BinaryOp) : bool :=
  match filter_value with
  | LString filter_str => ordering_satisfies_op (String.compare row_value_str filter_str) op
  | LStringWithCast filter_str _ =>
      ordering_satisfies_op (String.compare row_value_str filter_str) op
  | LInteger filter_int =>
      match parse_i64 row_value_str with
      | Some row_int => ordering_satisfies_op (Z.compare row_int filter_int) op
      | None => false
      end
  | LFloat filter_float => float_text_compare row_value_str filter_float op
  | LBoolean filter_bool => bool_text_compare row_value_str filter_bool op
  | LNull | LNullWithCast _ | LParameter _ | LArray _ _ => false
  end.

Definition literal_as_bool (v : LiteralValue) : option bool :=
  match v with
  | LBoolean b => Some b
  | LString s => bool_literal_parse s
  | LInteger i =>
      if bool_decide (i = 1%Z) then Some true
      else if bool_decide (i = 0%Z) then Some false
      else None
  | _ => None
  end.

Definition literal_pair_as_bool (l r : LiteralValue) : option (bool * bool) :=
  lb ← literal_as_bool l; rb ← literal_as_bool r; Some (lb, rb).

(** The three-way comparison of two literals that are not both boolean. *)
Definition literal_ordering (l r : LiteralValue) : option comparison :=
  match l, r with
  | LInteger a, LInteger b => Some (Z.compare a b)
  | LInteger a, LString s => b ← parse_i64 s; Some (Z.compare a b)
  | LString s, LInteger b => a ← parse_i64 s; Some (Z.compare a b)
  | LString a, LString b => Some (String.compare a b)
  | LString a, LStringWithCast b _ | LStringWithCast a _, LString b =>
      Some (String.compare a b)
  | _, _ => None
  end.

Definition literal_compare (l : LiteralValue) (op : BinaryOp) (r : LiteralValue) : bool :=
  match literal_pair_as_bool l r with
  | Some (a, b) =>
      match op with
      | OpEqual => Bool.eqb a b
      | OpNotEqual => negb (Bool.eqb a b)
      | _ => false
      end
  | None =>
      match literal_ordering l r with
      | Some ordering => ordering_satisfies_op ordering op
      | None => false
      end
  end.

(** ** The evaluator *)

(** A row's values by position, [None] being NULL. *)
Notation RowData := (list (option string)).

Definition column_value_get (col : ResolvedColumnNode) (row_data : RowData)
    (table_name : string) : option string :=
  if bool_decide (rc_table col = table_name)
  then mjoin (row_data !! column_index (rc_metadata col))
  else None.

Inductive ColumnRowValue := Present (s : string) | Null | NotInTable.

Definition column_row_value_get (col : ResolvedColumnNode) (row_data : RowData)
    (table_name : string) : ColumnRowValue :=
  if bool_decide (rc_table col = table_name)
  then match row_data !! column_index (rc_metadata col) with
       | Some (Some v) => Present v
       | Some None => Null
       | None => NotInTable
       end
  else NotInTable.

Definition expr_comparison_evaluate (bop : BinaryOp) (lexpr rexpr : ResolvedWhereExpr)
    (row_data : RowData) (table_name : string) : bool :=
  match canonicalize_comparison bop lexpr rexpr with
  | None => false
  | Some (column_ref, target, op, value) =>
      match target, column_row_value_get column_ref row_data table_name with
      | None, Present row_value_str => where_value_compare_string value row_value_str op
      | Some target, Present row_value_str =>
          match cast_target_coerce_text target row_value_str with
          | None => false
          | Some coerced => literal_compare coerced op value
          end
      | _, Null =>
          bool_decide (target = None)
          && match op with OpEqual => true | _ => false end
          && match value with LNull => true | _ => false end
      | _, NotInTable => false
      end
  end.

(** The IS tests of [unary_expr_evaluate]. *)
Definition is_test_evaluate (op : UnaryOp) (value : option string) : bool :=
  let matches a b := match value with
                     | Some v => bool_decide (v = a) || bool_decide (v = b)
                     | None => false
                     end in
  match op with
  | UNot => false
  | UIsNull => negb (bool_decide (is_Some value))
  | UIsNotNull => bool_decide (is_Some value)
  | UIsTrue => matches "t" "true"
  | UIsNotTrue => negb (matches "t" "true")
  | UIsFalse => matches "f" "false"
  | UIsNotFalse => negb (matches "f" "false")
  end.

(** The value [unary_expr_evaluate] tests: a bare column's, otherwise none. *)
Definition unary_value (expr : ResolvedWhereExpr) (row_data : RowData) (table_name : string)
    : option string :=
  match expr with
  | WScalar (SColumn col) => column_value_get col row_data table_name
  | _ => None
  end.

Fixpoint where_expr_evaluate (expr : ResolvedWhereExpr) (row_data : RowData)
    (table_name : string) : bool :=
  match expr with
  | WBinary op lexpr rexpr =>
      match op with
      | OpEqual | OpNotEqual | OpLessThan | OpLessThanOrEqual | OpGreaterThan
      | OpGreaterThanOrEqual => expr_comparison_evaluate op lexpr rexpr row_data table_name
      | OpAnd =>
          where_expr_evaluate lexpr row_data table_name
          && where_expr_evaluate rexpr row_data table_name
      | OpOr =>
          where_expr_evaluate lexpr row_data table_name
          || where_expr_evaluate rexpr row_data table_name
      | OpLike | OpILike | OpNotLike | OpNotILike => false
      end
  | WUnary op inner =>
      match op with
      | UNot => negb (where_expr_evaluate inner row_data table_name)
      | _ => is_test_evaluate op (unary_value inner row_data table_name)
      end
  | _ => false
  end.

(** ** The classifier *)

Definition literal_is_canonical_date (literal : LiteralValue) : bool :=
  match literal with
  | LString s | LStringWithCast s _ => is_canonical_date_literal s
  | _ => false
  end.

Definition is_simple_comparison (op : BinaryOp) (lexpr rexpr : ResolvedWhereExpr) : bool :=
  match canonicalize_comparison op lexpr rexpr with
  | None => false
  | Some (_, None, _, _) => true
  | Some (col, Some target, _, literal) =>
      if negb (cast_target_is_coercion_supported target (cm_data_type (rc_metadata col)))
      then false
      else if bool_decide (target = CastDate) then literal_is_canonical_date literal
      else true
  end.

Fixpoint resolved_where_expr_supported (expr : ResolvedWhereExpr) : bool :=
  match expr with
  | WScalar (SColumn _) | WScalar (SLiteral _) => true
  | WScalar _ => false
  | WBinary op lexpr rexpr =>
      match op with
      | OpAnd | OpOr =>
          resolved_where_expr_supported lexpr && resolved_where_expr_supported rexpr
      | OpEqual | OpNotEqual | OpLessThan | OpLessThanOrEqual | OpGreaterThan
      | OpGreaterThanOrEqual => is_simple_comparison op lexpr rexpr
      | OpLike | OpILike | OpNotLike | OpNotILike => false
      end
  | WUnary _ inner => resolved_where_expr_supported inner
  | WMulti _ _ | WSubquery _ _ _ _ => false
  end.

(** ** Compiled predicates *)

Inductive CompiledPredicate :=
| CpAnd (l r : CompiledPredicate)
| CpOr (l r : CompiledPredicate)
| CpNot (inner : CompiledPredicate)
| CpNullCheck (op : UnaryOp) (col : option nat)
| CpCompare (col : nat) (in_table : bool) (target : option CastTarget) (op : BinaryOp)
    (value : LiteralValue)
| CpConstFalse.

Definition column_position_in_table (expr : ResolvedWhereExpr) (table_name : string)
    : option nat :=
  match expr with
  | WScalar (SColumn col) =>
      if bool_decide (rc_table col = table_name)
      then Some (column_index (rc_metadata col)) else None
  | _ => None
  end.

Fixpoint compile (expr : ResolvedWhereExpr) (table_name : string) : CompiledPredicate :=
  match expr with
  | WBinary bop lexpr rexpr =>
      match bop with
      | OpAnd => CpAnd (compile lexpr table_name) (compile rexpr table_name)
      | OpOr => CpOr (compile lexpr table_name) (compile rexpr table_name)
      | OpEqual | OpNotEqual | OpLessThan | OpLessThanOrEqual | OpGreaterThan
      | OpGreaterThanOrEqual =>
          match canonicalize_comparison bop lexpr rexpr with
          | Some (col, target, op, value) =>
              CpCompare (column_index (rc_metadata col))
                (bool_decide (rc_table col = table_name)) target op value
          | None => CpConstFalse
          end
      | OpLike | OpILike | OpNotLike | OpNotILike => CpConstFalse
      end
  | WUnary UNot inner => CpNot (compile inner table_name)
  | WUnary op inner => CpNullCheck op (column_position_in_table inner table_name)
  | WScalar _ | WMulti _ _ | WSubquery _ _ _ _ => CpConstFalse
  end.

Fixpoint eval (p : CompiledPredicate) (row_data : RowData) : bool :=
  match p with
  | CpAnd l r => eval l row_data && eval r row_data
  | CpOr l r => eval l row_data || eval r row_data
  | CpNot inner => negb (eval inner row_data)
  | CpNullCheck op col => is_test_evaluate op (pos ← col; mjoin (row_data !! pos))
  | CpCompare col in_table target op value =>
      if negb in_table then false
      else match row_data !! col with
      | None => false
      | Some None =>
          bool_decide (target = None)
          && match op with OpEqual => true | _ => false end
          && match value with LNull => true | _ => false end
      | Some (Some row_str) =>
          match target with
          | None => where_value_compare_string value row_str op
          | Some target =>
              match cast_target_coerce_text target row_str with
              | Some coerced => literal_compare coerced op value
              | None => false
              end
          end
      end
  | CpConstFalse => false
  end.

Lemma compile_eval_eq expr row_data table_name :
  eval (compile expr table_name) row_data = where_expr_evaluate expr row_data table_name.
Proof.
  induction expr as [s|op e IH|op l r IHl IHr|op es|q sl te refs] using where_expr_ind;
    try done.
  - assert (Hcol : (pos ← column_position_in_table e table_name; mjoin (row_data !! pos))
                   = unary_value e row_data table_name).
    { destruct e as [[]| | | |]; try done. simpl. unfold column_value_get.
      by case_bool_decide. }
    destruct op; simpl; rewrite ?Hcol; try done. by rewrite IH.
  - assert (Hcmp : eval (match canonicalize_comparison op l r with
        | Some (col, target, op, value) =>
            CpCompare (column_index (rc_metadata col))
              (bool_decide (rc_table col = table_name)) target op value
        | None => CpConstFalse end) row_data
      = expr_comparison_evaluate op l r row_data table_name).
    { unfold expr_comparison_evaluate.
      destruct (canonicalize_comparison op l r) as [[[[c t] o] v]|]; [|done]. simpl.
      unfold column_row_value_get. case_bool_decide; [|by destruct t]. simpl.
      by destruct (row_data !! column_index (rc_metadata c)) as [[]|], t. }
    destruct op; simpl; rewrite ?IHl, ?IHr; done || exact Hcmp.
Qed.

(** ** SQL's three-valued semantics *)

(** Values of the columns whose text the evaluator reads, texts under the "C"
    collation. *)
Inductive SqlValue :=
| VInt (z : Z)
| VText (s : string)
| VBool (b : bool)
| VDate (yyyymmdd : Z).

#[export] Instance SqlValue_eq_dec : EqDecision SqlValue.
Proof. solve_decision. Defined.

(** How SQL orders a value against a literal of its type. *)
Definition sql_cmp (v : SqlValue) (l : LiteralValue) : option comparison :=
  match v, l with
  | VInt z, LInteger i => Some (Z.compare z i)
  | VText s, LString t | VText s, LStringWithCast t _ => Some (String.compare s t)
  | VBool b, LBoolean c => Some (Z.compare (Z.b2z b) (Z.b2z c))
  | VDate n, LString d | VDate n, LStringWithCast d _ =>
      if is_canonical_date_literal d then Some (Z.compare n (date_number d)) else None
  | _, _ => None
  end.

(** [reads target text v]: a column whose row text is [text], coerced to [target]
    unless that is [None], has the value [v]. *)
Inductive reads : option CastTarget -> string -> SqlValue -> Prop :=
| reads_int z : i64_range z -> reads None (i64_text z) (VInt z)
| reads_text s : reads None s (VText s)
| reads_bool (b : bool) : reads None (if b then "t" else "f") (VBool b)
| reads_date d : is_canonical_date_literal d = true -> reads None d (VDate (date_number d))
| reads_cast_int target z :
    target = CastInt4 \/ target = CastInt8 -> i64_range z ->
    reads (Some target) (i64_text z) (VInt z)
| reads_cast_date s d :
    timestamp_text_to_date s = Some d -> reads (Some CastDate) s (VDate (date_number d)).

(** The comparisons the evaluator decides as SQL does: an order on booleans it
    does not know, and a coerced integer that both sides could spell as a boolean
    it compares for equality only. *)
Definition order_supported (target : option CastTarget) (v : SqlValue) (op : BinaryOp)
    (l : LiteralValue) : bool :=
  let equality := match op with OpEqual | OpNotEqual => true | _ => false end in
  match v, l with
  | VBool _, _ => equality
  | VInt z, LInteger i =>
      match target with
      | None => true
      | Some _ => equality || negb (bool_decide (is_Some (literal_pair_as_bool (LInteger z) l)))
      end
  | _, _ => true
  end.

Definition kleene_and (a b : option bool) : option bool :=
  match a, b with
  | Some false, _ | _, Some false => Some false
  | Some true, Some true => Some true
  | _, _ => None
  end.
Definition kleene_or (a b : option bool) : option bool :=
  match a, b with
  | Some true, _ | _, Some true => Some true
  | Some false, Some false => Some false
  | _, _ => None
  end.

(** A canonical date is no spelling of a boolean. *)
Lemma strip_digit_head (seps : list string) fuel a s :
  seps = white_space \/ seps = string_reverse <$> white_space ->
  is_ascii_digit a = true -> strip_all fuel seps (String a s) = String a s.
Proof.
  intros Hs Ha. destruct fuel as [|fuel]; [done|]. cbn [strip_all].
  assert (head (omap (fun p => strip_prefix p (String a s)) seps) = None) as ->; [|done].
  destruct Hs as [-> | ->]; destruct a as [[] [] [] [] [] [] [] []]; done || by vm_compute.
Qed.

Lemma eq_ignore_ascii_case_length a b :
  eq_ignore_ascii_case a b = true -> String.length a = String.length b.
Proof.
  revert b. induction a as [|x a IH]; intros [|y b]; simpl; try done.
  intros Hab. bool_hyps. f_equal. by apply IH.
Qed.

Lemma trim_digit_ends a s b s' :
  string_reverse (String a s) = String b s' ->
  is_ascii_digit a = true -> is_ascii_digit b = true -> trim (String a s) = String a s.
Proof.
  intros Hr Ha Hb. unfold trim, trim_start, trim_end. rewrite (strip_digit_head white_space) by auto.
  rewrite Hr, strip_digit_head by auto. by rewrite <- Hr, string_reverse_involutive.
Qed.

Lemma long_not_bool s : (5 < String.length (trim s))%nat -> bool_literal_parse s = None.
Proof.
  intros Hs. unfold bool_literal_parse.
  assert (Hlen : forall l, forallb (fun x => (String.length x <=? 5)%nat) l = true ->
    existsb (eq_ignore_ascii_case (trim s)) l = false).
  { intros l Hl. apply existsb_false. intros x Hx. apply not_true_iff_false.
    intros E%eq_ignore_ascii_case_length. rewrite forallb_elem in Hl.
    specialize (Hl x Hx). apply Nat.leb_le in Hl. lia. }
  by rewrite !Hlen.
Qed.

Lemma date_not_bool d : is_canonical_date_literal d = true -> bool_literal_parse d = None.
Proof.
  unfold is_canonical_date_literal, is_canonical_date_prefix. intros Hd.
  do 10 (destruct d as [|? d]; [done|]). destruct d; [|done].
  cbn [list_ascii_of_string] in Hd. bool_hyps. apply long_not_bool.
  erewrite trim_digit_ends; [|reflexivity|done..]. simpl. lia.
Qed.

(** Reading a row text as SQL does, the evaluator compares as SQL does. *)
Lemma reads_compare target s v op lit k :
  reads target s v -> sql_cmp v lit = Some k -> order_supported target v op lit = true ->
  match target with
  | None => where_value_compare_string lit s op
  | Some t =>
      match cast_target_coerce_text t s with
      | Some coerced => literal_compare coerced op lit
      | None => false
      end
  end = ordering_satisfies_op k op.
Proof.
  intros Hr Hk Ho. destruct Hr as [z Hz|s|b|d Hd|t z Ht Hz|s d Hd].
  - destruct lit; try done. injection Hk as <-. simpl. by rewrite parse_i64_text.
  - destruct lit; try done; by injection Hk as <-.
  - destruct lit as [| | | |c| | | |]; try done. injection Hk as <-.
    by destruct op, b, c.
  - destruct lit as [e|e c| | | | | | |]; try done; simpl in Hk;
      (destruct (is_canonical_date_literal e) eqn:He; [|done]); injection Hk as <-;
      simpl; by rewrite canonical_date_compare.
  - destruct lit as [| |i| | | | | |]; try done. injection Hk as <-.
    assert (cast_target_coerce_text t (i64_text z) = Some (LInteger z)) as ->.
    { destruct Ht as [-> | ->]; simpl; by rewrite parse_i64_text. }
    unfold literal_compare. simpl in Ho.
    destruct (literal_pair_as_bool (LInteger z) (LInteger i)) as [[a b]|] eqn:Ep; [|done].
    rewrite orb_false_r in Ho.
    unfold literal_pair_as_bool in Ep. simpl in Ep.
    repeat case_bool_decide; subst; simplify_eq/=; by destruct op.
  - pose proof (timestamp_date_prefix s d Hd) as [Hc _].
    assert (exists e, (lit = LString e \/ exists c, lit = LStringWithCast e c) /\
      is_canonical_date_literal e = true /\ k = Z.compare (date_number d) (date_number e))
      as (e & He & Hce & ->).
    { destruct lit as [e|e c| | | | | | |]; try done; simpl in Hk;
        destruct (is_canonical_date_literal e) eqn:E; try done; injection Hk as <-; eauto 6. }
    simpl. rewrite Hd. simpl. unfold literal_compare, literal_pair_as_bool. simpl.
    rewrite date_not_bool by done. simpl.
    destruct He as [-> |[c ->]]; simpl; by rewrite canonical_date_compare.
Qed.

Section sql.
(** The values of the columns and of their casts in the row under evaluation;
    [None] is NULL. *)
Context (env : ResolvedColumnNode -> option CastTarget -> option SqlValue).

(** An operand: a value, or a literal that takes the type of the other side. *)
Definition sql_operand (e : ResolvedWhereExpr) : option (SqlValue + LiteralValue) :=
  match e with
  | WScalar (SColumn c) => inl <$> env c None
  | WScalar (STypeCast (SColumn c) target) => inl <$> env c (Some target)
  | WScalar (SLiteral l) => Some (inr l)
  | _ => None
  end.

Definition sql_order (a b : SqlValue + LiteralValue) : option comparison :=
  match a, b with
  | inl v, inr l => sql_cmp v l
  | inr l, inl v => CompOpp <$> sql_cmp v l
  | _, _ => None
  end.

Definition sql_operator (op : BinaryOp) (o : comparison) : option bool :=
  match op with
  | OpEqual => Some (bool_decide (o = Eq))
  | OpNotEqual => Some (bool_decide (o <> Eq))
  | OpLessThan => Some (bool_decide (o = Lt))
  | OpLessThanOrEqual => Some (bool_decide (o <> Gt))
  | OpGreaterThan => Some (bool_decide (o = Gt))
  | OpGreaterThanOrEqual => Some (bool_decide (o <> Lt))
  | _ => None
  end.

(** The operands as they are written, in the order they are written. *)
Definition sql_comparison (op : BinaryOp) (l r : ResolvedWhereExpr) : option bool :=
  a ← sql_operand l; b ← sql_operand r; o ← sql_order a b; sql_operator op o.

Definition sql_is_test (op : UnaryOp) (v : option SqlValue) : bool :=
  match op with
  | UNot => false
  | UIsNull => bool_decide (v = None)
  | UIsNotNull => negb (bool_decide (v = None))
  | UIsTrue => bool_decide (v = Some (VBool true))
  | UIsNotTrue => negb (bool_decide (v = Some (VBool true)))
  | UIsFalse => bool_decide (v = Some (VBool false))
  | UIsNotFalse => negb (bool_decide (v = Some (VBool false)))
  end.

Fixpoint sql_eval (e : ResolvedWhereExpr) : option bool :=
  match e with
  | WBinary OpAnd l r => kleene_and (sql_eval l) (sql_eval r)
  | WBinary OpOr l r => kleene_or (sql_eval l) (sql_eval r)
  | WBinary op l r => sql_comparison op l r
  | WUnary UNot inner => negb <$> sql_eval inner
  | WUnary op (WScalar (SColumn c)) => Some (sql_is_test op (env c None))
  | _ => None
  end.

Context (row_data : list (option string)) (table_name : string).

(** A cast the row's text needs no coercion for. *)
Definition text_target (c : ResolvedColumnNode) (target : option CastTarget) : option CastTarget :=
  t ← target;
  if cast_target_is_identity_on t (cm_data_type (rc_metadata c)) then None else Some t.

(** The row text of a column reads as the value of the column, or of its cast. *)
Definition column_agrees (c : ResolvedColumnNode) (target : option CastTarget) : Prop :=
  rc_table c = table_name /\
  match row_data !! column_index (rc_metadata c) with
  | Some (Some s) => exists v, env c target = Some v /\ reads (text_target c target) s v
  | Some None => env c target = None
  | None => False
  end.

(** A column or a cast of one, against a literal of its type. *)
Definition comparison_typed (c : ResolvedColumnNode) (target : option CastTarget)
    (op : BinaryOp) (lit : LiteralValue) : Prop :=
  column_agrees c target /\ lit <> LNull /\
  forall v, env c target = Some v ->
    is_Some (sql_cmp v lit) /\ order_supported (text_target c target) v op lit = true.

Definition operands_typed (op : BinaryOp) (l r : ResolvedWhereExpr) : Prop :=
  match l, r with
  | WScalar (SColumn c), WScalar (SLiteral lit) | WScalar (SLiteral lit), WScalar (SColumn c) =>
      comparison_typed c None op lit
  | WScalar (STypeCast (SColumn c) t), WScalar (SLiteral lit)
  | WScalar (SLiteral lit), WScalar (STypeCast (SColumn c) t) =>
      comparison_typed c (Some t) op lit
  | _, _ => False
  end.

(** The expressions of the theorem: comparisons of a column of the table, cast or
    not, with a literal of its type, IS tests of such columns, AND, OR and NOT. *)
Fixpoint expr_typed (e : ResolvedWhereExpr) : Prop :=
  match e with
  | WBinary op l r =>
      match op with
      | OpAnd | OpOr => expr_typed l /\ expr_typed r
      | OpLike | OpILike | OpNotLike | OpNotILike => False
      | _ => operands_typed op l r
      end
  | WUnary UNot inner => expr_typed inner
  | WUnary op (WScalar (SColumn c)) =>
      column_agrees c None /\
      match op with
      | UIsNull | UIsNotNull => True
      | _ => forall v, env c None = Some v -> exists b, v = VBool b
      end
  | _ => False
  end.

Fixpoint negation_free (e : ResolvedWhereExpr) : bool :=
  match e with
  | WBinary OpAnd l r | WBinary OpOr l r => negation_free l && negation_free r
  | WUnary UNot _ => false
  | _ => true
  end.

(** The six comparison operators. *)
Definition comparison_op (op : BinaryOp) : bool := bool_decide (is_Some (op_flip op)).

Lemma sql_operator_satisfies op o :
  comparison_op op = true -> sql_operator op o = Some (ordering_satisfies_op o op).
Proof. by destruct op, o. Qed.

Lemma sql_operator_flip op op' o :
  op_flip op = Some op' ->
  sql_operator op (CompOpp o) = Some (ordering_satisfies_op o op') /\
  forall target v lit, order_supported target v op' lit = order_supported target v op lit.
Proof. destruct op; try done; intros [= <-]; split; try done; by destruct o. Qed.

(** What the code compares is what the clause says. *)
Lemma sql_comparison_canonical op l r :
  comparison_op op = true -> operands_typed op l r ->
  exists c target op' lit,
    canonicalize_comparison op l r = Some (c, text_target c target, op', lit) /\
    comparison_typed c target op' lit /\
    sql_comparison op l r =
      (v ← env c target; o ← sql_cmp v lit; Some (ordering_satisfies_op o op')).
Proof.
  intros Hop Ht.
  assert (Hleft : forall s c target lit, l = WScalar s -> r = WScalar (SLiteral lit) ->
    column_target (resolved_strip_identity_cast s) = Some (c, text_target c target) ->
    sql_operand l = inl <$> env c target -> comparison_typed c target op lit ->
    exists c target op' lit,
      canonicalize_comparison op l r = Some (c, text_target c target, op', lit) /\
      comparison_typed c target op' lit /\
      sql_comparison op l r =
        (v ← env c target; o ← sql_cmp v lit; Some (ordering_satisfies_op o op'))).
  { intros s c target lit -> -> Hc Hs Hl. exists c, target, op, lit.
    split; [unfold canonicalize_comparison; simpl; by rewrite Hc|]. split; [done|].
    unfold sql_comparison. rewrite Hs. destruct (env c target) as [v|]; [|done]. simpl.
    destruct (sql_cmp v lit) as [o|]; [|done]. by apply sql_operator_satisfies. }
  assert (Hright : forall s c target lit, l = WScalar (SLiteral lit) -> r = WScalar s ->
    column_target (resolved_strip_identity_cast s) = Some (c, text_target c target) ->
    sql_operand r = inl <$> env c target -> comparison_typed c target op lit ->
    exists c target op' lit,
      canonicalize_comparison op l r = Some (c, text_target c target, op', lit) /\
      comparison_typed c target op' lit /\
      sql_comparison op l r =
        (v ← env c target; o ← sql_cmp v lit; Some (ordering_satisfies_op o op'))).
  { intros s c target lit -> -> Hc Hs (Ha & Hn & Ho).
    apply bool_decide_eq_true_1 in Hop as [op' Hf].
    exists c, target, op', lit. split.
    - unfold canonicalize_comparison. simpl.
      destruct (resolved_strip_identity_cast s) eqn:E; rewrite ?Hc, ?Hf; try done.
    - split; [split; [done|split; [done|]]|].
      + intros v Hv. destruct (Ho v Hv) as [? Hs']. split; [done|].
        by rewrite (proj2 (sql_operator_flip op op' Eq Hf)).
      + unfold sql_comparison. rewrite Hs. destruct (env c target) as [v|]; [|done]. simpl.
        destruct (sql_cmp v lit) as [o|]; [|done]. simpl. by apply sql_operator_flip. }
  destruct l as [[c| | |lit| | | | |e t]| | | |], r as [[c'| | |lit'| | | | |e' t']| | | |];
    try done; try (destruct e; done); try (destruct e'; done);
    first [by eapply (Hleft _ c None)|by eapply (Hright _ c' None)|idtac].
  - destruct e' as [c'| | | | | | | |]; try done.
    eapply (Hright _ c' (Some t')); try done. simpl. by destruct (cast_target_is_identity_on _ _).
  - destruct e as [c| | | | | | | |]; try done.
    eapply (Hleft _ c (Some t)); try done. simpl. by destruct (cast_target_is_identity_on _ _).
Qed.

Lemma sql_comparison_evaluate op l r :
  comparison_op op = true -> operands_typed op l r ->
  expr_comparison_evaluate op l r row_data table_name
  = bool_decide (sql_comparison op l r = Some true).
Proof.
  intros Hop Hty.
  destruct (sql_comparison_canonical op l r Hop Hty) as (c & target & o & lit & Hc & Ht & ->).
  unfold expr_comparison_evaluate. rewrite Hc. destruct Ht as ((Ht & Hrow) & Hnull & Hlit).
  unfold column_row_value_get. rewrite bool_decide_true by done.
  destruct (row_data !! column_index (rc_metadata c)) as [[s|]|]; [| |done].
  - destruct Hrow as (v & Hv & Hr). rewrite Hv. simpl.
    destruct (Hlit v Hv) as [[k Hk] Ho]. rewrite Hk. simpl.
    pose proof (reads_compare (text_target c target) s v o lit k Hr Hk Ho) as Hcmp.
    destruct (text_target c target); rewrite Hcmp; by destruct (ordering_satisfies_op k o).
  - rewrite Hrow. destruct (text_target c target), lit; simpl; try done; by rewrite andb_false_r.
Qed.

Lemma column_is_test op c :
  op <> UNot -> expr_typed (WUnary op (WScalar (SColumn c))) ->
  is_test_evaluate op (column_value_get c row_data table_name) = sql_is_test op (env c None).
Proof.
  intros Hop Ht. assert (column_agrees c None /\ match op with
      | UIsNull | UIsNotNull => True
      | _ => forall v, env c None = Some v -> exists b, v = VBool b end) as [[Htab Hc] Hb].
  { by destruct op. }
  unfold column_value_get. rewrite bool_decide_true by done.
  destruct (row_data !! column_index (rc_metadata c)) as [[s|]|]; [| |done]; simpl.
  2: { rewrite Hc. by destruct op. }
  destruct Hc as (v & Hv & Hr). rewrite Hv in *.
  assert (Hbool : forall b, v = VBool b -> (s = if b then "t" else "f") -> 
    is_test_evaluate op (Some s) = sql_is_test op (Some v)).
  { intros b -> ->. by destruct op, b. }
  destruct op; try done;
    destruct (Hb v eq_refl) as [b ->]; apply (Hbool b); try done; by inversion Hr.
Qed.

(** A known SQL truth value is the evaluator's answer. *)
Lemma sql_eval_evaluate e b :
  expr_typed e -> sql_eval e = Some b -> where_expr_evaluate e row_data table_name = b.
Proof.
  revert b.
  induction e as [s|op e IH|op l r IHl IHr|op es|q sl te refs] using where_expr_ind;
    intros b Ht Hs; try done.
  - destruct (decide (op = UNot)) as [-> |Hop].
    + simpl in *. destruct (sql_eval e) as [b'|]; [|done]. injection Hs as <-.
      by rewrite (IH b').
    + destruct e as [[c| | | | | | | |]| | | |]; try (by destruct op).
      pose proof (column_is_test op c Hop Ht) as Hc.
      destruct op; try done; injection Hs as <-; exact Hc.
  - destruct op; simpl in Ht; try done.
    1, 2: destruct Ht as [Hl Hr]; simpl in Hs |- *;
      destruct (sql_eval l) as [bl|], (sql_eval r) as [br|]; try done;
      try (rewrite (IHl _ Hl eq_refl)); try (rewrite (IHr _ Hr eq_refl));
      try (destruct bl); try (destruct br); simplify_eq/=; try done;
      by rewrite ?andb_false_r, ?orb_true_r.
    all: simpl in Hs |- *; rewrite sql_comparison_evaluate by done; rewrite Hs;
      by destruct b.
Qed.

(** Without NOT the evaluator is exact: NULL and false both reject the row. *)
Lemma negation_free_evaluate e :
  expr_typed e -> negation_free e = true ->
  where_expr_evaluate e row_data table_name = bool_decide (sql_eval e = Some true).
Proof.
  induction e as [s|op e IH|op l r IHl IHr|op es|q sl te refs] using where_expr_ind;
    intros Ht Hn; try done.
  - destruct op; [done|..]; destruct e as [[c| | | | | | | |]| | | |]; try done;
      cbn [where_expr_evaluate unary_value]; rewrite column_is_test by done;
      cbn [sql_eval]; by destruct (sql_is_test _ _).
  - destruct op; simpl in Ht; try done; try (by apply sql_comparison_evaluate).
    all: destruct Ht as [Hl Hr]; simpl in Hn |- *; bool_hyps; rewrite IHl, IHr by done;
      by destruct (sql_eval l) as [[]|], (sql_eval r) as [[]|].
Qed.
End sql.

(** ** Properties *)

(** A compiled predicate is the evaluator.  Compiling a WHERE expression for
    a table and evaluating it on a row gives the answer of [where_expr_evaluate]
    on that expression, for every expression, table and row. *)
Theorem compiled_predicate_equiv (expr : ResolvedWhereExpr) (row_data : RowData)
    (table_name : string) :
  eval (compile expr table_name) row_data = where_expr_evaluate expr row_data table_name.
Proof. apply compile_eval_eq. Qed.


(** Supported shapes the evaluator does not decide. *)
Module EvaluateGap.
Import CastWitness.

(** [WHERE active] and [WHERE (id = 1) IS TRUE] *)
Definition active : ResolvedWhereExpr := WScalar (SColumn (col "active" 1 TBool)).
Definition id_is_1_is_true : ResolvedWhereExpr :=
  WUnary UIsTrue (WBinary OpEqual (WScalar (SColumn (col "id" 1 TInt4)))
                    (WScalar (SLiteral (LInteger 1)))).

(** The classifier is not in lockstep with the evaluator.  A bare boolean
    column and an IS TRUE test of a comparison are classified as decidable on a
    row, and the evaluator answers false for them on every row. *)
Theorem supported_but_const_false :
  (resolved_where_expr_supported active = true /\
   forall row t, where_expr_evaluate active row t = false) /\
  (resolved_where_expr_supported id_is_1_is_true = true /\
   forall row t, where_expr_evaluate id_is_1_is_true row t = false).
Proof. split; split; done. Qed.

(** [code::int4 > 0] over a text column, and [id < '10'] over an integer one *)
Definition code_gt_0 : ResolvedWhereExpr :=
  WBinary OpGreaterThan (WScalar (STypeCast (SColumn (col "code" 1 TText)) CastInt4))
    (WScalar (SLiteral (LInteger 0))).
Definition id_lt_10_text : ResolvedWhereExpr :=
  WBinary OpLessThan (WScalar (SColumn (col "id" 1 TInt4))) (WScalar (SLiteral (LString "10"))).

(** Two comparisons that are classified as decidable on a row and decided
    wrongly: a text coerced to the integer 1 is not found greater than 0, because
    1 and 0 are first taken for booleans, and the integer 9 is not found less
    than the quoted literal '10', because their texts are compared. *)
Theorem supported_but_misjudged :
  (resolved_where_expr_supported code_gt_0 = true /\
   where_expr_evaluate code_gt_0 [Some (i64_text 1)] "t" = false) /\
  (resolved_where_expr_supported id_lt_10_text = true /\
   where_expr_evaluate id_lt_10_text [Some (i64_text 9)] "t" = false).
Proof. by vm_compute. Qed.

End EvaluateGap.

(** ** Witnesses *)

Module EvaluateWitness.
Import CastWitness.

(** [NOT (id <> 7) AND created::date >= '2024-01-01'] on the row
    [(7, '2024-02-29 13:00:00')] *)
Definition id_col : ResolvedColumnNode := col "id" 1 TInt4.
Definition created_col : ResolvedColumnNode := col "created" 2 TTimestamp.
Definition where_clause : ResolvedWhereExpr :=
  WBinary OpAnd
    (WUnary UNot (WBinary OpNotEqual (WScalar (SColumn id_col))
                    (WScalar (SLiteral (LInteger 7)))))
    (WBinary OpGreaterThanOrEqual (WScalar (STypeCast (SColumn created_col) CastDate))
       (WScalar (SLiteral (LString "2024-01-01")))).
Definition the_row : list (option string) := [Some "7"; Some "2024-02-29 13:00:00"].
Definition the_env (c : ResolvedColumnNode) (target : option CastTarget) : option SqlValue :=
  match target with None => Some (VInt 7) | Some _ => Some (VDate 20240229) end.

End EvaluateWitness.
