(* ===== verification/Extract.v ===== *)
(** * Constraint extraction and propagation

    Models src/src/query/constraints/extract.rs: the walk over a resolved query
    that collects column constraints and equivalences, their propagation to a
    fixpoint, and the analysis result.  The collector's hash sets are lists
    without duplicates under the source's [==], in insertion order. *)

From S2P Require Import Prelude Value Ast Cast Range Subsume.

(** ** Hash sets of constraints *)

#[export] Instance ResolvedColumnNode_eq_dec : EqDecision ResolvedColumnNode.
Proof. solve_decision. Defined.
#[export] Instance ColumnConstraint_eq_dec : EqDecision ColumnConstraint.
Proof. solve_decision. Defined.
#[export] Instance ColumnEquivalence_eq_dec : EqDecision ColumnEquivalence.
Proof. solve_decision. Defined.

(** The derived [PartialEq] of [ColumnConstraint] and [ColumnEquivalence], over
    that of their columns. *)
Definition column_constraint_eqb (a b : ColumnConstraint) : bool :=
  match a, b with
  | CcComparison c op v, CcComparison c' op' v' =>
      resolved_column_eqb c c' && bool_decide (op = op') && bool_decide (v = v')
  | CcInSet c vs, CcInSet c' vs' => resolved_column_eqb c c' && bool_decide (vs = vs')
  | CcCastComparison c t op v, CcCastComparison c' t' op' v' =>
      resolved_column_eqb c c' && bool_decide (t = t') && bool_decide (op = op')
      && bool_decide (v = v')
  | _, _ => false
  end.

Definition column_equivalence_eqb (a b : ColumnEquivalence) : bool :=
  resolved_column_eqb (ce_left a) (ce_left b) && resolved_column_eqb (ce_right a) (ce_right b).

(** [HashSet::insert]: an equal element already present is kept. *)
Definition set_insert {A} (eqb : A -> A -> bool) (set : list A) (x : A) : list A :=
  if existsb (eqb x) set then set else set ++ [x].

Definition insert_constraint := set_insert column_constraint_eqb.
Definition insert_equivalence := set_insert column_equivalence_eqb.

(** ** The collector *)

Record ConstraintCollector := {
  col_constraints : list ColumnConstraint;
  col_equivalences : list ColumnEquivalence;
  col_complete : bool
}.

Definition with_constraint (self : ConstraintCollector) (c : ColumnConstraint) :=
  {| col_constraints := insert_constraint (col_constraints self) c;
     col_equivalences := col_equivalences self; col_complete := col_complete self |}.
Definition with_equivalence (self : ConstraintCollector) (e : ColumnEquivalence) :=
  {| col_constraints := col_constraints self;
     col_equivalences := insert_equivalence (col_equivalences self) e;
     col_complete := col_complete self |}.
Definition incomplete (self : ConstraintCollector) :=
  {| col_constraints := col_constraints self; col_equivalences := col_equivalences self;
     col_complete := false |}.

Definition comparison_analyze (self : ConstraintCollector) (bop : BinaryOp)
    (lexpr rexpr : ResolvedWhereExpr) : ConstraintCollector :=
  match canonicalize_comparison bop lexpr rexpr with
  | Some (col, target, op, val) =>
      match target with
      | None => with_constraint self (CcComparison col op val)
      | Some cast =>
          if cast_target_is_coercion_supported cast (cm_data_type (rc_metadata col))
          then with_constraint self (CcCastComparison col cast op val)
          else incomplete self
      end
  | None =>
      match resolved_where_scalar_leaf lexpr, resolved_where_scalar_leaf rexpr with
      | Some (SColumn lcol), Some (SColumn rcol) =>
          if bool_decide (bop = OpEqual)
          then with_equivalence self {| ce_left := lcol; ce_right := rcol |}
          else incomplete self
      | _, _ => incomplete self
      end
  end.

Definition between_constraints_extract (op : MultiOp) (exprs : list ResolvedWhereExpr)
    (self : ConstraintCollector) : ConstraintCollector :=
  match exprs with
  | [WScalar (SColumn col); WScalar (SLiteral low); WScalar (SLiteral high)] =>
      let bounds :=
        if bool_decide (op = MBetweenSymmetric) then
          match literal_value_order low high with
          | Some Gt => Some (high, low)
          | Some _ => Some (low, high)
          | None => None
          end
        else Some (low, high) in
      match bounds with
      | None => self
      | Some (low, high) =>
          with_constraint
            (with_constraint self (CcComparison col OpGreaterThanOrEqual low))
            (CcComparison col OpLessThanOrEqual high)
      end
  | _ => self
  end.

(** The literals of an IN list; [None] on the first operand that is not a
    comparable literal. *)
Fixpoint in_literals (values : list ResolvedWhereExpr) : option (list LiteralValue) :=
  match values with
  | [] => Some []
  | WScalar (SLiteral v) :: rest =>
      if literal_value_is_incomparable v then None else cons v <$> in_literals rest
  | _ :: _ => None
  end.

(** [sort_by] with the canonical order: each element moves left past the greater
    ones; stable. *)
Fixpoint insert_tail (x : LiteralValue) (rev_prefix : list LiteralValue) : list LiteralValue :=
  match rev_prefix with
  | [] => [x]
  | y :: rest =>
      match literal_value_canonical_order x y with
      | Lt => y :: insert_tail x rest
      | _ => x :: rev_prefix
      end
  end.
Definition canonical_sort (l : list LiteralValue) : list LiteralValue :=
  reverse (fold_left (fun acc x => insert_tail x acc) l []).

(** [Vec::dedup]: drop an element equal to its kept predecessor. *)
Fixpoint dedup_after (prev : LiteralValue) (l : list LiteralValue) : list LiteralValue :=
  match l with
  | [] => []
  | x :: rest =>
      if bool_decide (x = prev) then dedup_after prev rest else x :: dedup_after x rest
  end.
Definition dedup (l : list LiteralValue) : list LiteralValue :=
  match l with [] => [] | x :: rest => x :: dedup_after x rest end.

Definition in_constraints_extract (exprs : list ResolvedWhereExpr) (self : ConstraintCollector)
    : ConstraintCollector :=
  match exprs with
  | WScalar (SColumn col) :: values =>
      match in_literals values with
      | None => self
      | Some literal_values =>
          with_constraint self (CcInSet col (dedup (canonical_sort literal_values)))
      end
  | _ => self
  end.

Fixpoint array_literals (elems : list ResolvedScalarExpr) : option (list LiteralValue) :=
  match elems with
  | [] => Some []
  | SLiteral v :: rest => cons v <$> array_literals rest
  | _ :: _ => None
  end.

(** The element values of the right-hand side of [= ANY]. *)
Definition any_values (rhs : ResolvedScalarExpr) : option (list LiteralValue) :=
  match rhs with
  | SLiteral (LArray values _) => Some values
  | SArray elems => array_literals elems
  | _ => None
  end.

Definition any_eq_array_constraints_extract (exprs : list ResolvedWhereExpr)
    (self : ConstraintCollector) : ConstraintCollector :=
  match exprs with
  | [WScalar (SColumn col); WScalar rhs] =>
      match any_values rhs with
      | None => incomplete self
      | Some literal_values =>
          if existsb literal_value_is_incomparable literal_values then incomplete self
          else with_constraint self (CcInSet col (dedup (canonical_sort literal_values)))
      end
  | _ => incomplete self
  end.

(** The loop of [not_in_constraints_extract] stops at the first operand that is
    not a comparable literal, keeping what it inserted. *)
Fixpoint not_in_loop (col : ResolvedColumnNode) (values : list ResolvedWhereExpr)
    (self : ConstraintCollector) : ConstraintCollector :=
  match values with
  | [] => self
  | WScalar (SLiteral v) :: rest =>
      if literal_value_is_incomparable v then self
      else not_in_loop col rest (with_constraint self (CcComparison col OpNotEqual v))
  | _ :: _ => self
  end.

Definition not_in_constraints_extract (exprs : list ResolvedWhereExpr)
    (self : ConstraintCollector) : ConstraintCollector :=
  match exprs with
  | WScalar (SColumn col) :: values => not_in_loop col values self
  | _ => self
  end.

Definition multi_analyze (self : ConstraintCollector) (op : MultiOp)
    (exprs : list ResolvedWhereExpr) : ConstraintCollector :=
  match op with
  | MBetween | MBetweenSymmetric => between_constraints_extract op exprs self
  | MIn => in_constraints_extract exprs self
  | MNotIn => not_in_constraints_extract exprs self
  | MAny OpEqual => any_eq_array_constraints_extract exprs self
  | MNotBetween | MNotBetweenSymmetric | MAny _ | MAll _ => incomplete self
  end.

Fixpoint where_analyze (self : ConstraintCollector) (expr : ResolvedWhereExpr)
    : ConstraintCollector :=
  match expr with
  | WBinary op lexpr rexpr =>
      if is_comparison op then comparison_analyze self op lexpr rexpr
      else if bool_decide (op = OpAnd)
      then where_analyze (where_analyze self lexpr) rexpr
      else incomplete self
  | WMulti op exprs => multi_analyze self op exprs
  | WScalar _ | WUnary _ _ | WSubquery _ _ _ _ => incomplete self
  end.

Fixpoint join_source_analyze (self : ConstraintCollector) (source : ResolvedTableSource)
    : ConstraintCollector :=
  match source with
  | TsJoin _ lsource rsource qual =>
      let self := match join_predicate qual with
                  | Some condition => where_analyze self condition
                  | None => self
                  end in
      join_source_analyze (join_source_analyze self lsource) rsource
  | _ => self
  end.

Definition collector_new : ConstraintCollector :=
  {| col_constraints := []; col_equivalences := []; col_complete := true |}.

Definition collect_query_constraints (resolved : ResolvedSelectNode) : ConstraintCollector :=
  let collector := match sel_where resolved with
                   | Some where_expr => where_analyze collector_new where_expr
                   | None => collector_new
                   end in
  fold_left join_source_analyze (sel_from resolved) collector.

(** ** Propagation *)

(** [ColumnConstraint::across]. *)
Definition across (self : ColumnConstraint) (equiv : ColumnEquivalence)
    : option ColumnConstraint :=
  let other :=
    if resolved_column_eqb (cc_column self) (ce_left equiv) then Some (ce_right equiv)
    else if resolved_column_eqb (cc_column self) (ce_right equiv) then Some (ce_left equiv)
    else None in
  match other with
  | None => None
  | Some other =>
      match self with
      | CcComparison _ op value => Some (CcComparison other op value)
      | CcInSet _ values => Some (CcInSet other values)
      | CcCastComparison _ _ _ _ => None
      end
  end.

(** The constraints one round of the loop derives. *)
Definition propagate_round (constraints : list ColumnConstraint)
    (equivalences : list ColumnEquivalence) : list ColumnConstraint :=
  flat_map (fun equiv => omap (fun c => across c equiv) constraints) equivalences.

(** The loop, [None] when the fuel runs out before a round changes nothing. *)
Fixpoint propagate_loop (fuel : nat) (constraints : list ColumnConstraint)
    (equivalences : list ColumnEquivalence) : option (list ColumnConstraint) :=
  let constraints' :=
    fold_left insert_constraint (propagate_round constraints equivalences) constraints in
  if (length constraints' =? length constraints)%nat then Some constraints
  else match fuel with
       | O => None
       | S fuel => propagate_loop fuel constraints' equivalences
       end.

(** Each round that changes the set adds a copy of one of the initial constraints
    on a column of some equivalence: this many rounds are enough. *)
Definition propagate_fuel (constraints : list ColumnConstraint)
    (equivalences : list ColumnEquivalence) : nat :=
  length constraints * (2 * length equivalences).

Definition propagate_constraints (constraints : list ColumnConstraint)
    (equivalences : list ColumnEquivalence) : option (list ColumnConstraint) :=
  propagate_loop (propagate_fuel constraints equivalences) constraints equivalences.

(** ** The analysis *)

Definition table_constraint (c : ColumnConstraint) : TableConstraint :=
  match c with
  | CcComparison column op value => TcComparison (rc_column column) op value
  | CcInSet column values => TcAnyOf (rc_column column) values
  | CcCastComparison column cast op value => TcCastComparison (rc_column column) cast op value
  end.

Definition table_push (m : gmap string (list TableConstraint)) (c : ColumnConstraint)
    : gmap string (list TableConstraint) :=
  let table := rc_table (cc_column c) in
  <[table := default [] (m !! table) ++ [table_constraint c]]> m.

Definition analyze_query_constraints (resolved : ResolvedSelectNode)
    : option QueryConstraints :=
  let collector := collect_query_constraints resolved in
  column_constraints ←
    propagate_constraints (col_constraints collector) (col_equivalences collector);
  Some {| qc_column_constraints := column_constraints;
          qc_equivalences := col_equivalences collector;
          qc_table_constraints := fold_left table_push column_constraints ∅;
          qc_where_analysis_complete := col_complete collector |}.

(** ** Set facts *)

(** Equality of columns forgets the alias: it is equality of the erased columns. *)
Definition erase_column (c : ResolvedColumnNode) : ResolvedColumnNode :=
  {| rc_schema := rc_schema c; rc_table := rc_table c; rc_table_alias := None;
     rc_column := rc_column c; rc_metadata := rc_metadata c |}.

Definition retarget (c : ColumnConstraint) (column : ResolvedColumnNode) : ColumnConstraint :=
  match c with
  | CcComparison _ op v => CcComparison column op v
  | CcInSet _ vs => CcInSet column vs
  | CcCastComparison _ t op v => CcCastComparison column t op v
  end.

Definition erase (c : ColumnConstraint) : ColumnConstraint :=
  retarget c (erase_column (cc_column c)).

Lemma resolved_column_eqb_erase a b :
  resolved_column_eqb a b = bool_decide (erase_column a = erase_column b).
Proof.
  apply eq_true_iff_eq. unfold resolved_column_eqb, erase_column.
  rewrite !andb_true_iff, !bool_decide_eq_true. split.
  - by intros [[[-> ->] ->] ->].
  - by intros [= -> -> -> ->].
Qed.

Lemma column_constraint_eqb_erase a b :
  column_constraint_eqb a b = bool_decide (erase a = erase b).
Proof.
  apply eq_true_iff_eq. rewrite bool_decide_eq_true.
  destruct a, b; simpl; rewrite ?andb_true_iff, ?resolved_column_eqb_erase,
    ?bool_decide_eq_true; try (by split); unfold erase; simpl.
  - split; [by intros [[-> ->] ->]|intros [=]; unfold erase_column; split_and!; congruence].
  - split; [by intros [-> ->]|intros [=]; unfold erase_column; split_and!; congruence].
  - split; [by intros [[[-> ->] ->] ->]|].
    intros [=]; unfold erase_column; split_and!; congruence.
Qed.

Section constraint_sets.
Implicit Types (cs new : list ColumnConstraint) (c d : ColumnConstraint).

Lemma insert_constraint_mem cs c :
  existsb (column_constraint_eqb c) cs = bool_decide (erase c ∈ erase <$> cs).
Proof.
  apply eq_true_iff_eq. rewrite existsb_elem, bool_decide_eq_true, list_elem_of_fmap.
  setoid_rewrite column_constraint_eqb_erase. setoid_rewrite bool_decide_eq_true. naive_solver.
Qed.

Lemma insert_constraint_NoDup cs c :
  NoDup (erase <$> cs) -> NoDup (erase <$> insert_constraint cs c).
Proof.
  intros Hn. unfold insert_constraint, set_insert. rewrite insert_constraint_mem.
  case_bool_decide as Hin; [done|]. rewrite fmap_app. simpl.
  apply list.NoDup_app. split_and!; [done| |apply NoDup_singleton].
  by intros x Hx ->%list_elem_of_singleton.
Qed.

Lemma insert_constraints_NoDup cs new :
  NoDup (erase <$> cs) -> NoDup (erase <$> fold_left insert_constraint new cs).
Proof. revert cs. induction new; simpl; auto using insert_constraint_NoDup. Qed.

(** An inserted set keeps its elements in place, holds only old and new ones,
    and every new one up to equality. *)
Lemma insert_constraint_grows cs c :
  exists added, insert_constraint cs c = cs ++ added /\
    (forall d, d ∈ added -> d = c) /\ erase c ∈ erase <$> cs ++ added.
Proof.
  unfold insert_constraint, set_insert. rewrite insert_constraint_mem.
  case_bool_decide as Hin.
  - exists []. rewrite app_nil_r. split_and!; [done| |done].
    by intros d ?%not_elem_of_nil.
  - exists [c]. split_and!; [done|by intros d ->%list_elem_of_singleton|].
    rewrite fmap_app. set_solver.
Qed.

Lemma insert_constraints_grows cs new :
  exists added, fold_left insert_constraint new cs = cs ++ added /\
    (forall d, d ∈ added -> d ∈ new) /\
    (forall c, c ∈ new -> erase c ∈ erase <$> cs ++ added).
Proof.
  revert cs. induction new as [|c new IH]; intros cs; simpl.
  { exists []. rewrite app_nil_r. split_and!; [done|set_solver..]. }
  destruct (insert_constraint_grows cs c) as (a1 & -> & Ha & Hc).
  destruct (IH (cs ++ a1)) as (a2 & -> & Ha2 & Hn). exists (a1 ++ a2).
  rewrite app_assoc. split_and!; [done| |].
  - intros d [Hd|Hd]%elem_of_app; apply elem_of_cons; [left|right]; auto.
  - intros d [-> |Hd]%elem_of_cons; [|by apply Hn].
    rewrite fmap_app. apply elem_of_app. by left.
Qed.
End constraint_sets.

(** ** Termination of the propagation *)

Section propagation.
Context (cs0 : list ColumnConstraint) (eqs : list ColumnEquivalence).

(** Every constraint the loop can derive, up to aliases. *)
Definition universe : list ColumnConstraint :=
  (erase <$> cs0) ++
  flat_map (fun c => flat_map (fun e =>
    [erase (retarget c (ce_left e)); erase (retarget c (ce_right e))]) eqs) cs0.

Lemma universe_length : length universe = length cs0 + propagate_fuel cs0 eqs.
Proof.
  unfold universe, propagate_fuel. rewrite length_app, length_fmap. f_equal.
  induction cs0 as [|c cs IH]; [done|]. cbn [flat_map]. rewrite length_app, IH. simpl.
  f_equal. clear. induction eqs as [|e es IH]; [done|]. simpl in *. lia.
Qed.

(** [across] copies a constraint to an end of the equivalence. *)
Lemma across_retarget c e d :
  across c e = Some d ->
  exists o, (o = ce_left e \/ o = ce_right e) /\ d = retarget c o.
Proof.
  unfold across. destruct (resolved_column_eqb _ _); [|destruct (resolved_column_eqb _ _); [|done]];
    destruct c; try done; intros [= <-]; eauto.
Qed.

Lemma propagate_round_elem cs d :
  d ∈ propagate_round cs eqs <-> exists e c, e ∈ eqs /\ c ∈ cs /\ across c e = Some d.
Proof.
  unfold propagate_round. rewrite flat_map_elem. setoid_rewrite list_elem_of_omap. naive_solver.
Qed.

Lemma erase_retarget c d o : erase c = erase d -> erase (retarget c o) = erase (retarget d o).
Proof. destruct c, d; unfold erase; simpl; intros [=]; congruence. Qed.

Lemma retarget_retarget c o o' : retarget (retarget c o) o' = retarget c o'.
Proof. by destruct c. Qed.

Lemma erase_idemp c : erase (erase c) = erase c.
Proof. by destruct c. Qed.

Lemma universe_round cs d :
  (forall c, c ∈ cs -> erase c ∈ universe) ->
  d ∈ propagate_round cs eqs -> erase d ∈ universe.
Proof.
  intros Hcs (e & c & He & Hc & Ha)%propagate_round_elem.
  apply across_retarget in Ha as (o & Ho & ->).
  assert (exists c0, c0 ∈ cs0 /\ erase (retarget c o) = erase (retarget c0 o)) as (c0 & Hc0 & ->).
  { specialize (Hcs c Hc). unfold universe in Hcs. apply elem_of_app in Hcs as [Hin|Hin].
    - apply list_elem_of_fmap in Hin as (c0 & E & ?). eauto using erase_retarget.
    - apply flat_map_elem in Hin as (c0 & ? & (e' & ? & Hin)%flat_map_elem).
      exists c0. split; [done|].
      apply elem_of_cons in Hin as [E|E%list_elem_of_singleton];
        apply (erase_retarget _ _ o) in E; by rewrite retarget_retarget in E. }
  unfold universe. apply elem_of_app. right. apply flat_map_elem. exists c0. split; [done|].
  apply flat_map_elem. exists e. split; [done|]. destruct Ho as [-> | ->]; set_solver.
Qed.

(** Enough fuel: the loop ends in a set closed under the round. *)
Lemma propagate_loop_total fuel cs :
  NoDup (erase <$> cs) -> (forall c, c ∈ cs -> erase c ∈ universe) ->
  length universe <= length cs + fuel ->
  exists r, propagate_loop fuel cs eqs = Some r.
Proof.
  revert cs. induction fuel as [|fuel IH]; intros cs Hn Hu Hf; simpl;
    destruct (insert_constraints_grows cs (propagate_round cs eqs)) as (added & E & Hadd & _);
    destruct (Nat.eqb_spec (length (fold_left insert_constraint (propagate_round cs eqs) cs))
                (length cs)) as [|Hne]; try (by eauto);
    assert (Hn' : NoDup (erase <$> fold_left insert_constraint (propagate_round cs eqs) cs))
      by (by apply insert_constraints_NoDup);
    assert (Hu' : forall c, c ∈ fold_left insert_constraint (propagate_round cs eqs) cs ->
      erase c ∈ universe)
      by (rewrite E; intros c [Hc|Hc]%elem_of_app; [by apply Hu|];
          by apply (universe_round cs), Hadd);
    rewrite E in Hne, Hn', Hu'; rewrite length_app in Hne.
  - exfalso. assert (length (erase <$> cs ++ added) <= length universe) as Hle.
    { apply submseteq_length, NoDup_submseteq; [done|].
      intros x (c & -> & Hc)%list_elem_of_fmap. by apply Hu'. }
    rewrite length_fmap, length_app in Hle. lia.
  - rewrite E. apply IH; [done..|]. rewrite length_app. lia.
Qed.

(** What the loop returns: the given constraints first, then derived ones; the
    set is closed under [across], and nothing is derived but by it. *)
Inductive derived : ColumnConstraint -> Prop :=
| derived_given c : c ∈ cs0 -> derived c
| derived_across c e d : derived c -> e ∈ eqs -> across c e = Some d -> derived d.

Lemma propagate_loop_spec fuel cs r :
  propagate_loop fuel cs eqs = Some r -> (forall c, c ∈ cs -> derived c) ->
  (exists added, r = cs ++ added) /\ (forall c, c ∈ r -> derived c) /\
  (forall c e d, c ∈ r -> e ∈ eqs -> across c e = Some d -> erase d ∈ erase <$> r).
Proof.
  revert cs. induction fuel as [|fuel IH]; intros cs; simpl;
    destruct (insert_constraints_grows cs (propagate_round cs eqs)) as (added & E & Hadd & Hnew);
    destruct (Nat.eqb_spec (length (fold_left insert_constraint (propagate_round cs eqs) cs))
                (length cs)) as [Heq|Hne]; try done.
  1, 2: intros [= <-] Hd; split; [exists []; by rewrite app_nil_r|];
    split; [done|]; intros c e d Hc He Ha;
    rewrite E, length_app in Heq;
    assert (added = []) as -> by (apply length_zero_iff_nil; lia);
    rewrite app_nil_r in Hnew; apply Hnew, propagate_round_elem; eauto.
  intros Hr Hd. rewrite E in Hr. destruct (IH (cs ++ added) Hr) as ([a ->] & Hder & Hcl).
  { intros c [Hc|Hc]%elem_of_app; [by apply Hd|].
    apply Hadd, propagate_round_elem in Hc as (e & c' & He & Hc' & Ha).
    eapply derived_across; eauto. }
  split; [|done]. exists (added ++ a). by rewrite app_assoc.
Qed.
End propagation.

Lemma propagate_constraints_spec cs eqs :
  NoDup (erase <$> cs) ->
  exists r, propagate_constraints cs eqs = Some r /\
    (exists added, r = cs ++ added) /\ (forall c, c ∈ r -> derived cs eqs c) /\
    (forall c e d, c ∈ r -> e ∈ eqs -> across c e = Some d -> erase d ∈ erase <$> r).
Proof.
  intros Hn. unfold propagate_constraints.
  destruct (propagate_loop_total cs eqs (propagate_fuel cs eqs) cs Hn) as [r Hr].
  - intros c Hc. unfold universe. apply elem_of_app. left. apply list_elem_of_fmap. eauto.
  - by rewrite universe_length.
  - exists r. split; [done|]. apply (propagate_loop_spec cs eqs _ cs r Hr).
    apply derived_given.
Qed.

(** ** IN-list normalisation *)

Lemma insert_tail_elem x l y : y ∈ insert_tail x l <-> y = x \/ y ∈ l.
Proof.
  induction l as [|z l IH]; simpl; [set_solver|].
  destruct (literal_value_canonical_order x z); set_solver.
Qed.

Lemma canonical_sort_elem l y : y ∈ canonical_sort l <-> y ∈ l.
Proof.
  unfold canonical_sort. rewrite elem_of_reverse.
  assert (H : forall acc, y ∈ fold_left (fun acc x => insert_tail x acc) l acc
            <-> y ∈ l \/ y ∈ acc).
  { induction l as [|x l IH]; intros acc; simpl; [set_solver|].
    rewrite IH, insert_tail_elem. set_solver. }
  rewrite H. set_solver.
Qed.

Lemma dedup_after_elem p l y : y ∈ dedup_after p l \/ y = p <-> y ∈ l \/ y = p.
Proof.
  revert p. induction l as [|x l IH]; intros p; simpl; [done|].
  case_bool_decide as Hx; [subst; rewrite IH; set_solver|].
  rewrite !elem_of_cons. specialize (IH x). naive_solver.
Qed.

Lemma dedup_sort_elem l y : y ∈ dedup (canonical_sort l) <-> y ∈ l.
Proof.
  rewrite <- (canonical_sort_elem l y). destruct (canonical_sort l) as [|x s]; [done|].
  simpl. rewrite !elem_of_cons. pose proof (dedup_after_elem x s y). naive_solver.
Qed.

(** ** What the constraints mean *)

Section extraction.
(** The scalar expressions' values in one combination of rows, NULL as [None],
    and their order. *)
Context {D : Type} (value : ResolvedScalarExpr -> option D) (cmp : D -> D -> comparison).
(** The truth of the expressions the analysis does not look into. *)
Context (opaque : ResolvedWhereExpr -> Prop).

Definition holds (a : option D) (op : BinaryOp) (b : option D) : Prop :=
  scalar_compare cmp a op b = Some true.

Definition multi_true (op : MultiOp) (exprs : list ResolvedWhereExpr) : Prop :=
  let wv := where_value value in
  match op, exprs with
  | MIn, subject :: vals => exists v, v ∈ vals /\ holds (wv subject) OpEqual (wv v)
  | MNotIn, subject :: vals => forall v, v ∈ vals -> holds (wv subject) OpNotEqual (wv v)
  | MBetween, [subject; low; high] =>
      holds (wv subject) OpGreaterThanOrEqual (wv low) /\
      holds (wv subject) OpLessThanOrEqual (wv high)
  | MBetweenSymmetric, [subject; low; high] =>
      (holds (wv subject) OpGreaterThanOrEqual (wv low) /\
       holds (wv subject) OpLessThanOrEqual (wv high)) \/
      (holds (wv subject) OpGreaterThanOrEqual (wv high) /\
       holds (wv subject) OpLessThanOrEqual (wv low))
  | MAny bop, [subject; WScalar (SLiteral (LArray vs _))] =>
      exists v, v ∈ vs /\ holds (wv subject) bop (value (SLiteral v))
  | MAny bop, [subject; WScalar (SArray elems)] =>
      exists v, v ∈ elems /\ holds (wv subject) bop (value v)
  | _, _ => opaque (WMulti op exprs)
  end.

(** A WHERE expression is true. *)
Fixpoint where_true (e : ResolvedWhereExpr) : Prop :=
  match e with
  | WBinary op l r =>
      if is_comparison op then holds (where_value value l) op (where_value value r)
      else if bool_decide (op = OpAnd) then where_true l /\ where_true r
      else opaque e
  | WMulti op exprs => multi_true op exprs
  | _ => opaque e
  end.

(** Every join predicate of a source is true: the rows inner joins keep. *)
Fixpoint source_true (source : ResolvedTableSource) : Prop :=
  match source with
  | TsJoin _ l r qual =>
      match join_predicate qual with Some e => where_true e | None => True end
      /\ source_true l /\ source_true r
  | _ => True
  end.

Definition select_true (s : ResolvedSelectNode) : Prop :=
  match sel_where s with Some e => where_true e | None => True end
  /\ Forall source_true (sel_from s).

Definition constraint_holds (c : ColumnConstraint) : Prop :=
  match c with
  | CcComparison col op v => holds (value (SColumn col)) op (value (SLiteral v))
  | CcInSet col vs => exists v, v ∈ vs /\ holds (value (SColumn col)) OpEqual (value (SLiteral v))
  | CcCastComparison col t op v =>
      holds (value (STypeCast (SColumn col) t)) op (value (SLiteral v))
  end.
Definition equivalence_holds (e : ColumnEquivalence) : Prop :=
  holds (value (SColumn (ce_left e))) OpEqual (value (SColumn (ce_right e))).

Definition all_hold (self : ConstraintCollector) : Prop :=
  Forall constraint_holds (col_constraints self) /\
  Forall equivalence_holds (col_equivalences self).

(** The IN, NOT IN and BETWEEN shapes the extractors do not skip. *)
Definition multi_extractable (op : MultiOp) (exprs : list ResolvedWhereExpr) : bool :=
  match op, exprs with
  | MBetween, [WScalar (SColumn _); WScalar (SLiteral _); WScalar (SLiteral _)] => true
  | MBetweenSymmetric, [WScalar (SColumn _); WScalar (SLiteral low); WScalar (SLiteral high)] =>
      bool_decide (is_Some (literal_value_order low high))
  | (MIn | MNotIn), WScalar (SColumn _) :: vals => bool_decide (is_Some (in_literals vals))
  | (MBetween | MBetweenSymmetric | MIn | MNotIn), _ => false
  | _, _ => true
  end.

Fixpoint extractable (e : ResolvedWhereExpr) : bool :=
  match e with
  | WBinary OpAnd l r => extractable l && extractable r
  | WMulti op exprs => multi_extractable op exprs
  | _ => true
  end.

Fixpoint source_extractable (source : ResolvedTableSource) : bool :=
  match source with
  | TsJoin _ l r qual =>
      match join_predicate qual with Some e => extractable e | None => true end
      && source_extractable l && source_extractable r
  | _ => true
  end.

Definition select_extractable (s : ResolvedSelectNode) : bool :=
  match sel_where s with Some e => extractable e | None => true end
  && forallb source_extractable (sel_from s).

Hypothesis cmp_opp : forall a b, cmp b a = CompOpp (cmp a b).
Hypothesis cmp_chain : forall a b c, comp_chain (cmp a b) (cmp b c) (cmp a c).
Hypothesis identity_cast : forall col target,
  cast_target_is_identity_on target (cm_data_type (rc_metadata col)) = true ->
  value (STypeCast (SColumn col) target) = value (SColumn col).
Hypothesis literal_order : forall a b o, literal_value_order a b = Some o ->
  exists x y, value (SLiteral a) = Some x /\ value (SLiteral b) = Some y /\ cmp x y = o.

Lemma all_hold_insert self c :
  all_hold self -> constraint_holds c -> all_hold (with_constraint self c).
Proof.
  intros [Hc He] H. split; [|done]. simpl. unfold insert_constraint, set_insert.
  destruct (existsb _ _); [done|]. apply Forall_app. by repeat constructor.
Qed.

Lemma in_literals_elem vals ls v :
  in_literals vals = Some ls -> WScalar (SLiteral v) ∈ vals <-> v ∈ ls.
Proof.
  clear cmp_opp cmp_chain identity_cast literal_order.
  revert ls. induction vals as [|[[| | |w| | | | |]| | | |] vals IH]; intros ls; simpl; try done.
  { intros [= <-]. set_solver. }
  destruct (literal_value_is_incomparable w); [done|].
  destruct (in_literals vals) as [ls'|]; [|done]. intros [= <-].
  rewrite !elem_of_cons, (IH ls' eq_refl). naive_solver.
Qed.

Lemma in_literals_shape vals ls e :
  in_literals vals = Some ls -> e ∈ vals -> exists v, e = WScalar (SLiteral v).
Proof.
  revert ls. induction vals as [|[[| | |w| | | | |]| | | |] vals IH]; intros ls; simpl; try done.
  { intros _ []%not_elem_of_nil. }
  destruct (literal_value_is_incomparable w); [done|].
  destruct (in_literals vals) as [ls'|]; [|done]. intros _ [-> |He]%elem_of_cons; eauto.
Qed.

Lemma array_literals_elem elems ls s :
  array_literals elems = Some ls -> s ∈ elems <-> exists v, s = SLiteral v /\ v ∈ ls.
Proof.
  clear cmp_opp cmp_chain identity_cast literal_order.
  revert ls. induction elems as [|[| | |w| | | | |] elems IH]; intros ls; simpl; try done.
  { intros [= <-]. set_solver. }
  destruct (array_literals elems) as [ls'|]; [|done]. intros [= <-].
  rewrite elem_of_cons, (IH ls' eq_refl). setoid_rewrite elem_of_cons. naive_solver.
Qed.

(** Membership in an IN list, as the list was written and as it is kept. *)
Lemma in_set_holds col ls :
  constraint_holds (CcInSet col (dedup (canonical_sort ls))) <->
  exists v, v ∈ ls /\ holds (value (SColumn col)) OpEqual (value (SLiteral v)).
Proof. simpl. by setoid_rewrite dedup_sort_elem. Qed.

Lemma in_true vals ls col :
  in_literals vals = Some ls ->
  multi_true MIn (WScalar (SColumn col) :: vals) <->
  constraint_holds (CcInSet col (dedup (canonical_sort ls))).
Proof.
  intros Hl. rewrite in_set_holds. simpl. split.
  - intros (e & He & Hv). destruct (in_literals_shape _ _ e Hl He) as [v ->].
    exists v. split; [by apply (in_literals_elem vals)|done].
  - intros (v & Hv & Hh). exists (WScalar (SLiteral v)).
    split; [by apply (in_literals_elem vals ls)|done].
Qed.

Lemma any_true col rhs ls :
  any_values rhs = Some ls ->
  multi_true (MAny OpEqual) [WScalar (SColumn col); WScalar rhs] <->
  constraint_holds (CcInSet col (dedup (canonical_sort ls))).
Proof.
  clear cmp_opp cmp_chain identity_cast literal_order.
  intros Hl. rewrite in_set_holds.
  destruct rhs as [| | |l| | | |elems|]; try done; simpl in Hl.
  - destruct l; try done. injection Hl as ->. done.
  - simpl. setoid_rewrite (array_literals_elem _ _ _ Hl). naive_solver.
Qed.

(** Occurrences of a column under different aliases have one value: no table is
    joined with itself. *)
Hypothesis alias_free : forall a b, erase_column a = erase_column b ->
  value (SColumn a) = value (SColumn b) /\
  forall t, value (STypeCast (SColumn a) t) = value (STypeCast (SColumn b) t).

Lemma constraint_holds_erase c d : erase c = erase d -> constraint_holds c <-> constraint_holds d.
Proof using alias_free.
  assert (Hcol : forall c d, erase c = erase d ->
            erase_column (cc_column c) = erase_column (cc_column d)).
  { intros x y E. assert (cc_column (erase x) = cc_column (erase y)) as H by congruence.
    by destruct x, y. }
  intros E. destruct (alias_free _ _ (Hcol c d E)) as [Hc Ht].
  destruct c as [a op v|a vs|a t op v], d as [b op' v'|b vs'|b t' op' v']; simpl in Hc, Ht;
    try (by discriminate E); unfold erase in E; simpl in E.
  - assert (op = op' /\ v = v') as [<- <-] by (split; congruence). simpl. by rewrite Hc.
  - assert (vs = vs') as <- by congruence. simpl. by rewrite Hc.
  - assert (t = t' /\ op = op' /\ v = v') as (<- & <- & <-) by (split_and!; congruence).
    simpl. by rewrite Ht.
Qed.

Lemma equivalence_holds_erase e f :
  column_equivalence_eqb e f = true -> equivalence_holds e <-> equivalence_holds f.
Proof using alias_free.
  unfold column_equivalence_eqb. rewrite !resolved_column_eqb_erase. intros H. bool_hyps.
  unfold equivalence_holds.
  rewrite (proj1 (alias_free _ _ H)), (proj1 (alias_free _ _ H0)). done.
Qed.

(** [self'] adds to [self] what is known when [P] holds; and, when nothing was
    given up and nothing skipped ([ok]), [self'] says no less than [P]. *)
Definition adds (self self' : ConstraintCollector) (P : Prop) (ok : bool) : Prop :=
  (all_hold self -> P -> all_hold self') /\
  (col_complete self' = true -> col_complete self = true) /\
  (col_complete self' = true -> ok = true -> all_hold self' -> P /\ all_hold self).

Lemma adds_trans s1 s2 s3 P Q ok ok' :
  adds s1 s2 P ok -> adds s2 s3 Q ok' -> adds s1 s3 (P /\ Q) (ok && ok').
Proof.
  intros (A1 & B1 & C1) (A2 & B2 & C2). split_and!.
  - intros ? [? ?]. auto.
  - auto.
  - intros Hc Hok Ha. bool_hyps. destruct (C2 Hc H0 Ha). destruct (C1 (B2 Hc) H); auto.
Qed.

Lemma adds_iff s s' P Q ok : (P <-> Q) -> adds s s' P ok -> adds s s' Q ok.
Proof. unfold adds. intros H. by rewrite H. Qed.

Lemma adds_incomplete s P ok : adds s (incomplete s) P ok.
Proof. split_and!; [by intros|done|done]. Qed.

Lemma adds_skip s P : adds s s P false.
Proof. split_and!; [by intros|done|done]. Qed.

Lemma adds_true s ok : adds s s True ok.
Proof. split_and!; [by intros|done|done]. Qed.

Lemma adds_constraint s c ok : adds s (with_constraint s c) (constraint_holds c) ok.
Proof using alias_free.
  split_and!; [intros; by apply all_hold_insert|done|]. intros _ _ [Hc He]. simpl in Hc, He.
  unfold insert_constraint, set_insert in Hc.
  destruct (existsb (column_constraint_eqb c) (col_constraints s)) eqn:E.
  - split; [|done]. apply existsb_elem in E as (d & Hd & E).
    rewrite column_constraint_eqb_erase in E. bool_hyps.
    apply (constraint_holds_erase c d E). rewrite Forall_elem in Hc. by apply Hc.
  - apply Forall_app in Hc as [Hc [Hh _]%Forall_cons_1]. done.
Qed.

Lemma adds_equivalence s e ok : adds s (with_equivalence s e) (equivalence_holds e) ok.
Proof using alias_free.
  split_and!; [|done|].
  - intros [Hc He] H. split; [done|]. simpl. unfold insert_equivalence, set_insert.
    destruct (existsb _ _); [done|]. apply Forall_app. by repeat constructor.
  - intros _ _ [Hc He]. simpl in Hc, He. unfold insert_equivalence, set_insert in He.
    destruct (existsb (column_equivalence_eqb e) (col_equivalences s)) eqn:E.
    + split; [|done]. apply existsb_elem in E as (d & Hd & E).
      apply (equivalence_holds_erase e d E). rewrite Forall_elem in He. by apply He.
    + apply Forall_app in He as [He [Hh _]%Forall_cons_1]. done.
Qed.

Lemma comparison_analyze_adds s op l r :
  adds s (comparison_analyze s op l r)
    (holds (where_value value l) op (where_value value r)) true.
Proof using alias_free cmp_opp identity_cast.
  unfold comparison_analyze.
  destruct (canonicalize_comparison op l r) as [[[[c t] o] v]|] eqn:Ec.
  - pose proof (canonicalize_value value cmp cmp_opp identity_cast _ _ _ _ _ _ _ Ec) as Hv.
    unfold holds. rewrite Hv. destruct t as [t|]; [|apply adds_constraint].
    destruct (cast_target_is_coercion_supported _ _); [|apply adds_incomplete].
    apply adds_constraint.
  - destruct (resolved_where_scalar_leaf l) as [[lc| | | | | | | |]|] eqn:El;
      try apply adds_incomplete.
    destruct (resolved_where_scalar_leaf r) as [[rc| | | | | | | |]|] eqn:Er;
      try apply adds_incomplete.
    case_bool_decide as Hop; [|apply adds_incomplete]. subst op.
    rewrite (scalar_leaf_value value identity_cast _ _ El),
      (scalar_leaf_value value identity_cast _ _ Er).
    apply adds_equivalence.
Qed.

(** An order between the bounds makes one of the two readings of BETWEEN
    SYMMETRIC imply the other. *)
Lemma between_swap a lo hi x y :
  value (SLiteral lo) = Some x -> value (SLiteral hi) = Some y -> cmp x y <> Gt ->
  holds a OpGreaterThanOrEqual (value (SLiteral hi)) /\
  holds a OpLessThanOrEqual (value (SLiteral lo)) ->
  holds a OpGreaterThanOrEqual (value (SLiteral lo)) /\
  holds a OpLessThanOrEqual (value (SLiteral hi)).
Proof using cmp_chain.
  intros -> ->. unfold holds, scalar_compare. destruct a as [z|]; simpl; [|by intros _ [? _]].
  intros Hxy [[= Hh] [= Hl]].
  pose proof (cmp_chain z x y) as C1.
  destruct (cmp z x), (cmp x y), (cmp z y); simpl in *; done || by split.
Qed.

Lemma between_analyze_adds s op exprs :
  op = MBetween \/ op = MBetweenSymmetric ->
  adds s (between_constraints_extract op exprs s) (multi_true op exprs)
    (multi_extractable op exprs).
Proof using alias_free cmp_chain cmp_opp literal_order.
  intros Hop. unfold between_constraints_extract.
  destruct exprs as [|[[col| | | | | | | |]| | | |] [|[[| | |lo| | | | |]| | | |]
    [|[[| | |hi| | | | |]| | | |] [|]]]]; try (destruct Hop as [-> | ->]; apply adds_skip).
  assert (Hadd : forall lo hi, adds s
    (with_constraint (with_constraint s (CcComparison col OpGreaterThanOrEqual lo))
       (CcComparison col OpLessThanOrEqual hi))
    (constraint_holds (CcComparison col OpGreaterThanOrEqual lo) /\
     constraint_holds (CcComparison col OpLessThanOrEqual hi)) true).
  { intros. apply (adds_trans _ (with_constraint s (CcComparison col OpGreaterThanOrEqual lo0))
      _ _ _ true true); apply adds_constraint. }
  destruct Hop as [-> | ->]; simpl; [apply Hadd|].
  destruct (literal_value_order lo hi) as [o|] eqn:Eo; [|apply adds_skip].
  rewrite bool_decide_true by (by eexists).
  destruct (literal_order lo hi o Eo) as (x & y & Hx & Hy & Hc).
  destruct o; (eapply adds_iff; [|apply Hadd]); simpl.
  - split; [by left|]. intros [?|?]; [done|].
    apply (between_swap _ lo hi x y); [done..|congruence|done].
  - split; [by left|]. intros [?|?]; [done|].
    apply (between_swap _ lo hi x y); [done..|congruence|done].
  - split; [by right|]. intros [?|?]; [|done].
    apply (between_swap _ hi lo y x); [done..| |done]. by rewrite (cmp_opp x y), Hc.
Qed.

Lemma not_in_analyze_adds s col vals :
  adds s (not_in_loop col vals s) (multi_true MNotIn (WScalar (SColumn col) :: vals))
    (bool_decide (is_Some (in_literals vals))).
Proof using alias_free.
  revert s. induction vals as [|[[| | |v| | | | |]| | | |] vals IH]; intros s;
    cbn [not_in_loop in_literals]; try apply adds_skip.
  { eapply adds_iff; [|apply adds_true]. simpl. split; [|done].
    intros _ e []%not_elem_of_nil. }
  destruct (literal_value_is_incomparable v); [apply adds_skip|].
  replace (bool_decide (is_Some (cons v <$> in_literals vals)))
    with (true && bool_decide (is_Some (in_literals vals)))
    by (simpl; apply bool_decide_ext; by rewrite fmap_is_Some).
  eapply adds_iff; [|eapply adds_trans; [apply adds_constraint|apply IH]].
  simpl. setoid_rewrite elem_of_cons. split.
  - intros [H1 H2] e [-> |He]; auto.
  - intros H. split; [apply (H (WScalar (SLiteral v)))|]; auto.
Qed.

Lemma multi_analyze_adds s op exprs :
  adds s (multi_analyze s op exprs) (multi_true op exprs) (multi_extractable op exprs).
Proof using alias_free cmp_chain cmp_opp literal_order.
  destruct op as [| | | | | |bop|bop]; try apply adds_incomplete;
    try (apply between_analyze_adds; first [by left|by right]).
  - simpl. unfold in_constraints_extract.
    destruct exprs as [|[[col| | | | | | | |]| | | |] vals]; try apply adds_skip.
    destruct (in_literals vals) as [ls|] eqn:El; [|apply adds_skip].
    eapply adds_iff; [symmetry; by apply in_true|]. apply adds_constraint.
  - unfold multi_analyze, not_in_constraints_extract.
    destruct exprs as [|[[col| | | | | | | |]| | | |] vals]; try apply adds_skip.
    apply not_in_analyze_adds.
  - destruct bop; try apply adds_incomplete. simpl.
    unfold any_eq_array_constraints_extract.
    destruct exprs as [|[[col| | | | | | | |]| | | |] [|[rhs| | | |] [|]]];
      try apply adds_incomplete.
    destruct (any_values rhs) as [ls|] eqn:El; [|apply adds_incomplete].
    destruct (existsb _ ls); [apply adds_incomplete|].
    eapply adds_iff; [symmetry; by apply any_true|]. apply adds_constraint.
Qed.

Lemma where_analyze_adds s e : adds s (where_analyze s e) (where_true e) (extractable e).
Proof using alias_free cmp_chain cmp_opp identity_cast literal_order.
  revert s.
  induction e as [x|op e _|op l r IHl IHr|op es|q sl te refs] using where_expr_ind; intros s;
    try apply adds_incomplete; [|apply multi_analyze_adds].
  destruct op; try apply adds_incomplete; try apply comparison_analyze_adds.
  by eapply adds_trans.
Qed.

Lemma join_analyze_adds s src :
  adds s (join_source_analyze s src) (source_true src) (source_extractable src).
Proof using alias_free cmp_chain cmp_opp identity_cast literal_order.
  revert s. induction src as [t|q a k|jt l IHl r IHr qual] using source_ind; intros s;
    try apply adds_true.
  simpl. rewrite <- andb_assoc.
  eapply adds_trans; [|eapply adds_trans; [apply IHl|apply IHr]].
  destruct (join_predicate qual); [apply where_analyze_adds|apply adds_true].
Qed.

Lemma collect_adds sel :
  adds collector_new (collect_query_constraints sel) (select_true sel) (select_extractable sel).
Proof using alias_free cmp_chain cmp_opp identity_cast literal_order.
  unfold collect_query_constraints, select_true, select_extractable.
  apply (adds_trans _ (match sel_where sel with
    | Some e => where_analyze collector_new e | None => collector_new end)).
  { destruct (sel_where sel); [apply where_analyze_adds|apply adds_true]. }
  generalize (match sel_where sel with
    | Some e => where_analyze collector_new e | None => collector_new end).
  induction (sel_from sel) as [|src srcs IH]; intros s; simpl.
  { eapply adds_iff; [|apply adds_true]. by split. }
  eapply adds_iff; [symmetry; apply list.Forall_cons|].
  eapply adds_trans; [apply join_analyze_adds|apply IH].
Qed.

(** Equal values compare alike. *)
Lemma holds_equal a b op l : holds a OpEqual b -> holds a op l -> holds b op l.
Proof using cmp_chain.
  unfold holds, scalar_compare. destruct a as [x|], b as [y|], l as [z|]; try done. simpl.
  intros [= Hxy]. pose proof (cmp_chain x y z) as C. destruct (cmp x y); try done.
  simpl in C. by rewrite C.
Qed.

Lemma holds_sym a b : holds a OpEqual b -> holds b OpEqual a.
Proof using cmp_opp.
  unfold holds, scalar_compare. destruct a as [x|], b as [y|]; try done. simpl.
  rewrite (cmp_opp x y). by destruct (cmp x y).
Qed.

Lemma retarget_holds c o :
  holds (value (SColumn (cc_column c))) OpEqual (value (SColumn o)) ->
  (forall a t op v, c <> CcCastComparison a t op v) ->
  constraint_holds c -> constraint_holds (retarget c o).
Proof using cmp_chain.
  intros He Hc. destruct c as [a op v|a vs|a t op v]; simpl in *.
  - by apply holds_equal.
  - intros (v & Hv & Hh). exists v. split; [done|]. by eapply holds_equal.
  - by destruct (Hc a t op v).
Qed.

Lemma across_holds c e d :
  across c e = Some d -> equivalence_holds e -> constraint_holds c -> constraint_holds d.
Proof using alias_free cmp_chain cmp_opp.
  unfold across. rewrite !resolved_column_eqb_erase. intros Ha He Hc.
  assert (exists o, holds (value (SColumn (cc_column c))) OpEqual (value (SColumn o)) /\
    d = retarget c o /\ forall a t op v, c <> CcCastComparison a t op v)
    as (o & Ho & -> & Hn); [|by apply retarget_holds].
  unfold equivalence_holds in He. repeat case_bool_decide; try done.
  - exists (ce_right e). rewrite (proj1 (alias_free _ _ H)). by destruct c; simplify_eq.
  - exists (ce_left e). rewrite (proj1 (alias_free _ _ H0)).
    split; [by apply holds_sym|]. by destruct c; simplify_eq.
Qed.

Lemma derived_holds cs eqs c :
  Forall constraint_holds cs -> Forall equivalence_holds eqs -> derived cs eqs c ->
  constraint_holds c.
Proof using alias_free cmp_chain cmp_opp.
  rewrite !Forall_elem. intros Hcs He Hd. induction Hd as [c Hc|c e d _ IH Hin Ha]; [by apply Hcs|].
  apply (across_holds c e d); auto.
Qed.
End extraction.

(** The collector's constraints are a set. *)
Definition collector_set (s : ConstraintCollector) : Prop := NoDup (erase <$> col_constraints s).

Lemma collector_set_insert s c : collector_set s -> collector_set (with_constraint s c).
Proof. apply insert_constraint_NoDup. Qed.
#[export] Hint Resolve collector_set_insert : pgc.

Lemma not_in_loop_set col vals s : collector_set s -> collector_set (not_in_loop col vals s).
Proof.
  revert s. induction vals as [|[[| | |v| | | | |]| | | |] vals IH]; intros s Hs; simpl; try done.
  destruct (literal_value_is_incomparable v); auto with pgc.
Qed.
#[export] Hint Resolve not_in_loop_set : pgc.

Lemma where_analyze_set s e : collector_set s -> collector_set (where_analyze s e).
Proof.
  revert s.
  induction e as [x|op e _|op l r IHl IHr|op es|q sl te refs] using where_expr_ind; intros s Hs;
    try done; simpl.
  - destruct (is_comparison op); [|by case_bool_decide; auto].
    unfold comparison_analyze. repeat case_match; auto with pgc.
  - unfold multi_analyze, between_constraints_extract, in_constraints_extract,
      not_in_constraints_extract, any_eq_array_constraints_extract.
    repeat case_match; auto with pgc.
Qed.

Lemma collect_set sel : collector_set (collect_query_constraints sel).
Proof.
  assert (Hj : forall src s, collector_set s -> collector_set (join_source_analyze s src)).
  { intros src. induction src as [t|q a k|jt l IHl r IHr qual] using source_ind; intros s Hs;
      try done. simpl. apply IHr, IHl. destruct (join_predicate qual); [|done].
    by apply where_analyze_set. }
  unfold collect_query_constraints.
  set (s0 := match sel_where sel with Some e => _ | None => _ end).
  assert (collector_set s0) as H0.
  { unfold s0. destruct (sel_where sel); [apply where_analyze_set|]; apply NoDup_nil_2. }
  clearbody s0. revert s0 H0. induction (sel_from sel); simpl; auto.
Qed.

(** The per-table lists hold the constraints on the table's columns, in order. *)
Lemma table_push_lookup cs m table :
  default [] (fold_left table_push cs m !! table) =
  default [] (m !! table) ++
    (table_constraint <$> List.filter (fun c => bool_decide (rc_table (cc_column c) = table)) cs).
Proof.
  revert m. induction cs as [|c cs IH]; intros m; simpl; [by rewrite app_nil_r|].
  rewrite IH. unfold table_push at 1. case_bool_decide as Ht.
  - rewrite Ht, lookup_insert_eq. simpl. by rewrite <- app_assoc.
  - by rewrite lookup_insert_ne.
Qed.

(** ** Properties *)

(** What the analysis relies on: a total order on values that agrees with the
    order on numeric literals, identity casts that change nothing, and one row
    per table. *)
Record reading_laws {D} (value : ResolvedScalarExpr -> option D) (cmp : D -> D -> comparison)
    : Prop := {
  rl_opp : forall a b, cmp b a = CompOpp (cmp a b);
  rl_chain : forall a b c, comp_chain (cmp a b) (cmp b c) (cmp a c);
  rl_identity : forall col target,
    cast_target_is_identity_on target (cm_data_type (rc_metadata col)) = true ->
    value (STypeCast (SColumn col) target) = value (SColumn col);
  rl_literals : forall a b o, literal_value_order a b = Some o ->
    exists x y, value (SLiteral a) = Some x /\ value (SLiteral b) = Some y /\ cmp x y = o;
  rl_alias : forall a b, erase_column a = erase_column b ->
    value (SColumn a) = value (SColumn b) /\
    forall t, value (STypeCast (SColumn a) t) = value (STypeCast (SColumn b) t)
}.

Lemma analyze_query_constraints_result sel :
  exists cs, analyze_query_constraints sel = Some
    {| qc_column_constraints := cs;
       qc_equivalences := col_equivalences (collect_query_constraints sel);
       qc_table_constraints := fold_left table_push cs ∅;
       qc_where_analysis_complete := col_complete (collect_query_constraints sel) |} /\
    (exists added, cs = col_constraints (collect_query_constraints sel) ++ added) /\
    (forall c, c ∈ cs -> derived (col_constraints (collect_query_constraints sel))
       (col_equivalences (collect_query_constraints sel)) c).
Proof.
  destruct (propagate_constraints_spec (col_constraints (collect_query_constraints sel))
    (col_equivalences (collect_query_constraints sel)) (collect_set sel))
    as (cs & E & Hadd & Hd & _).
  exists cs. unfold analyze_query_constraints. rewrite E. by split_and!.
Qed.

(** C39: propagation ends, and computes the closure.  On a set of constraints the
    loop stops within the fuel; its result extends the given constraints, holds
    only constraints derived from them across equivalences, and is closed: what
    any equivalence carries over is in it already. *)
Theorem propagate_constraints_closure (cs : list ColumnConstraint)
    (eqs : list ColumnEquivalence) (Hset : NoDup (erase <$> cs)) :
  exists r, propagate_constraints cs eqs = Some r /\
    (exists added, r = cs ++ added) /\
    (forall c, c ∈ r -> derived cs eqs c) /\
    (forall c e d, c ∈ r -> e ∈ eqs -> across c e = Some d -> erase d ∈ erase <$> r).
Proof. by apply propagate_constraints_spec. Qed.

(** C38: the analysis returns, and what it extracts is implied by the query when its joins
    are read as inner joins and no table occurs twice. A combination of rows, one per table
    name, that satisfies the WHERE clause and every join predicate satisfies every
    extracted constraint, propagated ones included, and every equivalence. (The rows an
    outer join pads with NULLs, and self-joins, are outside the statement: [ExtractGap].) *)
Theorem analyze_query_constraints_sound {D} (value : ResolvedScalarExpr -> option D)
    (cmp : D -> D -> comparison) (opaque : ResolvedWhereExpr -> Prop)
    (sel : ResolvedSelectNode) (Hlaws : reading_laws value cmp) :
  exists qc, analyze_query_constraints sel = Some qc /\
    (select_true value cmp opaque sel ->
     Forall (constraint_holds value cmp) (qc_column_constraints qc) /\
     Forall (equivalence_holds value cmp) (qc_equivalences qc)).
Proof.
  destruct Hlaws as [H1 H2 H3 H4 H5].
  destruct (analyze_query_constraints_result sel) as (cs & -> & _ & Hd).
  eexists. split; [done|]. intros Hs. simpl.
  destruct (collect_adds value cmp opaque H1 H2 H3 H4 H5 sel) as (Hall & _).
  destruct (Hall ltac:(by split) Hs) as [Hc He]. split; [|done].
  apply Forall_elem. intros c Hin. by eapply (derived_holds value cmp H1 H2 H5); eauto.
Qed.

(** A complete analysis says all the query says.  When the analysis reports
    itself complete and no IN, NOT IN or BETWEEN had a shape the extractors skip,
    a combination of rows that satisfies the extracted constraints and
    equivalences satisfies the WHERE clause and every join predicate. *)
Theorem analyze_query_constraints_complete {D} (value : ResolvedScalarExpr -> option D)
    (cmp : D -> D -> comparison) (opaque : ResolvedWhereExpr -> Prop)
    (sel : ResolvedSelectNode) (qc : QueryConstraints) (Hlaws : reading_laws value cmp)
    (Hanalysis : analyze_query_constraints sel = Some qc)
    (Hcomplete : qc_where_analysis_complete qc = true)
    (Hextractable : select_extractable sel = true) :
  Forall (constraint_holds value cmp) (qc_column_constraints qc) ->
  Forall (equivalence_holds value cmp) (qc_equivalences qc) ->
  select_true value cmp opaque sel.
Proof.
  destruct Hlaws as [H1 H2 H3 H4 H5].
  destruct (analyze_query_constraints_result sel) as (cs & E & [added ->] & _).
  rewrite E in Hanalysis. injection Hanalysis as <-. simpl in *. intros [Hc _]%Forall_app He.
  destruct (collect_adds value cmp opaque H1 H2 H3 H4 H5 sel) as (_ & _ & Hconv).
  by apply Hconv.
Qed.

(** Inputs outside those theorems. *)
Module ExtractGap.
Import CastWitness.

Definition on_table (t name : string) (ty : PgType) : ResolvedColumnNode :=
  {| rc_schema := "public"; rc_table := t; rc_table_alias := None; rc_column := name;
     rc_metadata := meta name 1 ty |}.
Definition table (t : string) (alias : option string) (oid : N) : ResolvedTableSource :=
  TsTable {| rt_schema := "public"; rt_name := t; rt_alias := alias; rt_relation_oid := oid |}.
Definition eq_lit (c : ResolvedColumnNode) (i : Z) : ResolvedWhereExpr :=
  WBinary OpEqual (WScalar (SColumn c)) (WScalar (SLiteral (LInteger i))).
Definition eq_col (c d : ResolvedColumnNode) : ResolvedWhereExpr :=
  WBinary OpEqual (WScalar (SColumn c)) (WScalar (SColumn d)).
Definition select_all (from : list ResolvedTableSource) (w : option ResolvedWhereExpr) :=
  SelectNode false None from w [] None.

(** [SELECT * FROM t WHERE lower(name) IN ('a')] *)
Definition lower_in : ResolvedSelectNode :=
  select_all [table "t" None 1]
    (Some (WMulti MIn
      [WScalar (SFunction (FunctionCall "lower" [SColumn (on_table "t" "name" TText)]
          false false [] None None));
       WScalar (SLiteral (LString "a"))])).

(** An IN whose subject is not a bare column is dropped without marking the
    analysis incomplete: [lower(name) IN ('a')] is analysed as a full scan, so
    cached it is taken to hold the rows of every query on the table. *)
Theorem skipped_in_is_full_scan :
  exists qc, analyze_query_constraints lower_in = Some qc /\
    qc_where_analysis_complete qc = true /\ qc_column_constraints qc = [] /\
    forall new, table_constraints_subsumed new qc "t" = true.
Proof. eexists. split; [by vm_compute|]. done. Qed.

(** [SELECT * FROM a LEFT JOIN b ON a.id = b.id AND a.y = 5] and
    [SELECT * FROM t x JOIN t y ON x.id = y.pid WHERE x.k = 1] *)
Definition left_join : ResolvedSelectNode :=
  select_all [TsJoin JLeft (table "a" None 1) (table "b" None 2)
    (JqOn (WBinary OpAnd
      (eq_col (on_table "a" "id" TInt4) (on_table "b" "id" TInt4))
      (eq_lit (on_table "a" "y" TInt4) 5)))] None.
Definition alias (c : ResolvedColumnNode) (a : string) : ResolvedColumnNode :=
  {| rc_schema := rc_schema c; rc_table := rc_table c; rc_table_alias := Some a;
     rc_column := rc_column c; rc_metadata := rc_metadata c |}.
Definition self_join : ResolvedSelectNode :=
  select_all [TsJoin JInner (table "t" (Some "x") 1) (table "t" (Some "y") 1)
    (JqOn (eq_col (alias (on_table "t" "id" TInt4) "x") (alias (on_table "t" "pid" TInt4) "y")))]
    (Some (eq_lit (alias (on_table "t" "k" TInt4) "x") 1)).

(** Cached: [SELECT * FROM a WHERE y = 5], [SELECT * FROM b] and
    [SELECT * FROM t WHERE k = 1]. *)
Definition candidate (cs : option QueryConstraints) : list SubsumerCandidate :=
  match cs with
  | Some qc => [{| sc_constraints := qc; sc_has_limit := false; sc_ready := true;
                   sc_single_relation := true |}]
  | None => []
  end.
#[local] Instance cached_ab : SubsumerSource bool := fun _ oid _ =>
  candidate (analyze_query_constraints (if bool_decide (oid = 1%N)
    then select_all [table "a" None 1] (Some (eq_lit (on_table "a" "y" TInt4) 5))
    else select_all [table "b" None 2] None)).
#[local] Instance cached_t : SubsumerSource unit := fun _ _ _ =>
  candidate (analyze_query_constraints
    (select_all [table "t" None 1] (Some (eq_lit (on_table "t" "k" TInt4) 1)))).

(** A LEFT JOIN's ON condition is taken to constrain the preserved side.  The
    join needs every row of [a], yet the analysis records [a.y = 5], and the
    query is admitted as covered by a cached [a WHERE y = 5] and a cached [b]. *)
Theorem left_join_condition_constrains_preserved_side :
  exists qc, analyze_query_constraints left_join = Some qc /\
    qc_table_constraints qc !! "a" = Some [TcComparison "y" OpEqual (LInteger 5)] /\
    subsumption_covered qc [(1%N, "a"); (2%N, "b")] true = true.
Proof. eexists. split; [by vm_compute|]. split; by vm_compute. Qed.

(** A new self-join's constraints collapse on the table's name.  Only the arm
    [x] is constrained, yet [x.k = 1] is recorded for the table, and the query is
    admitted as covered by a cached [t WHERE k = 1], which need not hold the rows
    of the arm [y]. *)
Theorem self_join_covered_by_one_arm :
  exists qc, analyze_query_constraints self_join = Some qc /\
    qc_table_constraints qc !! "t" = Some [TcComparison "k" OpEqual (LInteger 1)] /\
    subsumption_covered qc [(1%N, "t")] tt = true.
Proof. eexists. split; [by vm_compute|]. split; by vm_compute. Qed.

(** The order the IN-list sort uses is not transitive across literal types:
    [2 = 1.5] and [1.5 = 1] but [1 < 2]; the sort has no total order to work with
    on a mixed list. *)
Theorem canonical_order_not_transitive :
  let half := LFloat (F64Fin (Q2Qc (3 # 2))) in
  literal_value_canonical_order (LInteger 2) half = Eq /\
  literal_value_canonical_order half (LInteger 1) = Eq /\
  literal_value_canonical_order (LInteger 1) (LInteger 2) = Lt /\
  canonical_sort [LInteger 2; half; LInteger 1] = [LInteger 2; half; LInteger 1].
Proof. by vm_compute. Qed.
End ExtractGap.

(** ** Witnesses *)

Module ExtractWitness.
Import CastWitness ExtractGap.

(** Numbers: column [id] is 7, [y] is 5. *)
Definition num_value (s : ResolvedScalarExpr) : option f64 :=
  let col_num c := Some (F64Fin (Qc_of_Z (if bool_decide (rc_column c = "y") then 5 else 7))) in
  match s with
  | SColumn c | STypeCast (SColumn c) _ => col_num c
  | SLiteral l => literal_num l
  | _ => None
  end.

Lemma num_laws : reading_laws num_value f64_cmp.
Proof.
  split.
  - apply f64_cmp_opp.
  - apply f64_comp_chain.
  - done.
  - intros a b o. apply literal_value_order_num.
  - intros a b E. assert (rc_column a = rc_column b) as Hc by (by injection E).
    simpl. by rewrite Hc.
Qed.

(** [a JOIN b ON a.id = b.id WHERE a.y IN (9, 5) AND b.id BETWEEN SYMMETRIC 8 AND 6] *)
Definition inner_join : ResolvedSelectNode :=
  select_all [TsJoin JInner (table "a" None 1) (table "b" None 2)
    (JqOn (eq_col (on_table "a" "id" TInt4) (on_table "b" "id" TInt4)))]
    (Some (WBinary OpAnd
      (WMulti MIn [WScalar (SColumn (on_table "a" "y" TInt4)); WScalar (SLiteral (LInteger 9));
                   WScalar (SLiteral (LInteger 5))])
      (WMulti MBetweenSymmetric [WScalar (SColumn (on_table "b" "id" TInt4));
         WScalar (SLiteral (LInteger 8)); WScalar (SLiteral (LInteger 6))]))).

Lemma propagate_constraints_closure_witness :
  exists r, propagate_constraints [CcComparison (on_table "b" "id" TInt4) OpEqual (LInteger 7)]
    [{| ce_left := on_table "a" "id" TInt4; ce_right := on_table "b" "id" TInt4 |}] = Some r.
Proof.
  destruct (propagate_constraints_closure
    [CcComparison (on_table "b" "id" TInt4) OpEqual (LInteger 7)]
    [{| ce_left := on_table "a" "id" TInt4; ce_right := on_table "b" "id" TInt4 |}])
    as (r & H & _); [apply NoDup_singleton|]. by exists r.
Defined.

Lemma analyze_query_constraints_sound_witness :
  exists qc, analyze_query_constraints inner_join = Some qc /\
    Forall (constraint_holds num_value f64_cmp) (qc_column_constraints qc).
Proof.
  destruct (analyze_query_constraints_sound num_value f64_cmp (fun _ => False) inner_join num_laws)
    as (qc & E & H). exists qc. split; [done|]. apply H. split.
  - split.
    + exists (WScalar (SLiteral (LInteger 5))). split; [set_solver|by vm_compute].
    + right. split; by vm_compute.
  - by repeat constructor.
Defined.

Lemma analyze_query_constraints_complete_witness :
  exists qc, analyze_query_constraints inner_join = Some qc /\
    select_true num_value f64_cmp (fun _ => False) inner_join.
Proof.
  eexists. split; [by vm_compute|].
  eapply (analyze_query_constraints_complete num_value f64_cmp (fun _ => False) inner_join _
    num_laws); [by vm_compute|done|by vm_compute| |].
  - repeat (apply Forall_cons_2; [first [by vm_compute|
      eexists; split; [apply elem_of_cons; by left|by vm_compute]]|]). apply Forall_nil_2.
  - repeat (apply Forall_cons_2; [by vm_compute|]). apply Forall_nil_2.
Defined.
End ExtractWitness.
