(* ===== verification/Catalog.v ===== *)
(** * Table metadata

    Models [ColumnPosition], [ColumnStore] and [TableMetadata] of
    src/src/catalog.rs. *)

From Stdlib Require Import Sorted.
From S2P Require Import Prelude Value Ast.

(** ** Positions *)

Definition i16_max : Z := 32767.

Definition from_attnum (attnum : Z) : option Z :=
  if (1 <=? attnum)%Z && (attnum <=? i16_max)%Z then Some attnum else None.

(** [i64::try_from(index)] and [checked_add(1)] fail only far past [i16::MAX]. *)
Definition from_index (index : nat) : option Z :=
  let i := Z.of_nat index in
  if (i <? i64_max)%Z then from_attnum (i + 1) else None.

(** ** Column stores *)

Record ColumnStore := { cs_sorted : list ColumnMetadata; cs_by_name : gmap string nat }.

(** [sort_by_key] on the position; stable. *)
Fixpoint insert_by_position (c : ColumnMetadata) (l : list ColumnMetadata)
    : list ColumnMetadata :=
  match l with
  | [] => [c]
  | d :: rest =>
      if (cm_position c <=? cm_position d)%Z then c :: l else d :: insert_by_position c rest
  end.

(** Collecting [(name, index)] pairs: a later pair replaces an earlier one. *)
Definition column_store_new (columns : list ColumnMetadata) : ColumnStore :=
  let sorted := foldr insert_by_position [] columns in
  {| cs_sorted := sorted;
     cs_by_name := fold_left (fun m ic => <[cm_name ic.2 := ic.1]> m) (imap pair sorted) ∅ |}.

Definition column_store_get (cs : ColumnStore) (name : string) : option ColumnMetadata :=
  idx ← cs_by_name cs !! name; cs_sorted cs !! idx.

(** ** Tables *)

Record TableMetadata := {
  tm_relation_oid : N;
  tm_name : string;
  tm_schema : string;
  tm_primary_key_columns : list string;
  tm_columns : ColumnStore;
  tm_replica_identity_full : bool
}.

(** [TableMetadata::schema_eq]; stores are equal when their sorted columns are. *)
Definition schema_eq (a b : TableMetadata) : bool :=
  bool_decide (tm_relation_oid a = tm_relation_oid b)
  && bool_decide (tm_name a = tm_name b)
  && bool_decide (tm_schema a = tm_schema b)
  && bool_decide (tm_primary_key_columns a = tm_primary_key_columns b)
  && bool_decide (cs_sorted (tm_columns a) = cs_sorted (tm_columns b)).

(** ** Lookup by name *)

Lemma insert_by_position_perm c l : insert_by_position c l ≡ₚ c :: l.
Proof.
  induction l as [|d l IH]; simpl; [done|].
  destruct (_ <=? _)%Z; [done|]. rewrite IH. apply Permutation_swap.
Qed.

Lemma column_store_sorted_perm columns : cs_sorted (column_store_new columns) ≡ₚ columns.
Proof.
  simpl. induction columns as [|c cs IH]; simpl; [done|].
  by rewrite insert_by_position_perm, IH.
Qed.

(** Sorted by position. *)
Lemma insert_by_position_sorted c l :
  Sorted (fun a b => (cm_position a <= cm_position b)%Z) l ->
  Sorted (fun a b => (cm_position a <= cm_position b)%Z) (insert_by_position c l).
Proof.
  induction 1 as [|d l Hs IH Hd]; simpl; [by repeat constructor|].
  destruct (Z.leb_spec (cm_position c) (cm_position d)).
  { constructor; [by constructor|by constructor]. }
  constructor; [done|]. destruct l as [|e l]; simpl; [constructor; lia|].
  destruct (_ <=? _)%Z; constructor; [lia|by inversion Hd].
Qed.

Lemma by_name_fold (l : list ColumnMetadata) k (m : gmap string nat) name :
  (forall i, m !! name = Some i -> ~ (exists c, c ∈ l /\ cm_name c = name)) ->
  NoDup (cm_name <$> l) ->
  fold_left (fun m ic => <[cm_name ic.2 := ic.1]> m)
    (imap (fun i c => (k + i, c)) l) m !! name
  = match list_find (fun c => cm_name c = name) l with
    | Some (i, _) => Some (k + i)
    | None => m !! name
    end.
Proof.
  revert k m. induction l as [|c l IH]; intros k m Hm Hn; simpl; [done|].
  apply list.NoDup_cons in Hn as [Hc Hn].
  rewrite (imap_ext _ (fun i c => (S k + i, c))) by (intros; simpl; f_equal; lia).
  rewrite IH; [| |done].
  - destruct (decide (cm_name c = name)) as [<-|Hne].
    + assert (list_find (fun d => cm_name d = cm_name c) l = None) as ->.
      { apply list_find_None, Forall_elem. intros d Hd E. apply Hc.
        apply list_elem_of_fmap. eauto. }
      simpl. rewrite lookup_insert_eq. f_equal; lia.
    + destruct (list_find _ l) as [[i d]|]; simpl; [f_equal; lia|].
      by rewrite lookup_insert_ne.
  - simpl. intros i Hi (d & Hd & E). destruct (decide (cm_name c = name)) as [E'|Hne].
    + apply Hc. apply list_elem_of_fmap. exists d. split; congruence.
    + rewrite lookup_insert_ne in Hi by done. apply (Hm i Hi). exists d. split; [by right|done].
Qed.

Lemma column_store_get_spec columns c name :
  NoDup (cm_name <$> columns) ->
  column_store_get (column_store_new columns) name = Some c <-> c ∈ columns /\ cm_name c = name.
Proof.
  intros Hn. pose proof (column_store_sorted_perm columns) as Hp.
  assert (Hns : NoDup (cm_name <$> cs_sorted (column_store_new columns))) by (by rewrite Hp).
  setoid_rewrite <- Hp at 2. unfold column_store_get. simpl in *.
  set (l := foldr insert_by_position [] columns) in *.
  rewrite (imap_ext _ (fun i c => (0 + i, c))) by done.
  rewrite by_name_fold; [|by intros ? ?%lookup_empty_Some|done]. simpl.
  destruct (list_find (fun c => cm_name c = name) l) as [[i d]|] eqn:Ef; simpl.
  - apply list_find_Some in Ef as (Hi & Hd & _). rewrite Hi. split.
    + intros [= <-]. split; [by eapply list_elem_of_lookup_2|done].
    + intros [Hc E]. f_equal. apply list_elem_of_lookup in Hc as [j Hj].
      assert (i = j) as <-; [|congruence].
      eapply (NoDup_lookup (cm_name <$> l)); [done|..];
        rewrite list_lookup_fmap; [by rewrite Hi|by rewrite Hj; simpl; congruence].
  - rewrite lookup_empty. split; [done|]. intros [Hc E].
    apply list_find_None in Ef. rewrite Forall_elem in Ef. by destruct (Ef c Hc).
Qed.

(** ** Properties *)

(** Looking a column up by name finds it.  A store built from columns of
    distinct names keeps them all, ordered by position, and [get] returns exactly
    the column of that name. *)
Theorem column_store_lookup (columns : list ColumnMetadata)
    (Hnames : NoDup (cm_name <$> columns)) :
  cs_sorted (column_store_new columns) ≡ₚ columns /\
  Sorted (fun a b => (cm_position a <= cm_position b)%Z) (cs_sorted (column_store_new columns)) /\
  forall c name,
    column_store_get (column_store_new columns) name = Some c
    <-> c ∈ columns /\ cm_name c = name.
Proof.
  split_and!.
  - apply column_store_sorted_perm.
  - simpl. induction columns as [|c cs IH]; simpl; [constructor|].
    apply insert_by_position_sorted, IH. by apply list.NoDup_cons in Hnames as [_ ?].
  - intros c name. by apply column_store_get_spec.
Qed.

Module CatalogWitness.
Definition column (name : string) (pos : Z) : ColumnMetadata :=
  {| cm_name := name; cm_position := pos; cm_type_oid := 23; cm_data_type := TInt4;
     cm_type_name := "int4"; cm_cache_type_name := "int4"; cm_is_primary_key := false |}.

Lemma column_store_lookup_witness :
  column_store_get (column_store_new [column "b" 2; column "a" 1]) "b" = Some (column "b" 2).
Proof.
  apply (column_store_lookup [column "b" 2; column "a" 1]).
  - simpl. apply list.NoDup_cons. split; [|apply NoDup_singleton].
    by intros ?%list_elem_of_singleton.
  - split; [by left|done].
Defined.
End CatalogWitness.
