(* ===== verification/ConstraintIndex.v ===== *)
(** * The per-relation constraint index

    Models src/src/query/constraint_index/: classification of constraint lists
    (classify.rs), bucket keys and placement (value_key.rs), the per-column and
    per-class structures (column_index.rs, mod.rs), insertion, removal and the
    candidate lookup (index.rs), and the point probe a replicated row makes
    (point.rs).  A hash or b-tree map is a [gmap]; a b-tree range is the filter
    of its entries by key; the sets of ids the lookups fill are lists read as
    sets.  Ids are any countable type. *)

From Stdlib Require Import Sorted.
From stdpp Require Import list.
From S2P Require Import Prelude Value Ast Cast Evaluate Range Subsume.

(** ** Bucket keys *)

Inductive ValueKey :=
| VkNum (f : f64)
| VkStr (s : string)
| VkBool (b : bool).

#[export] Instance ValueKey_eq_dec : EqDecision ValueKey.
Proof. solve_decision. Defined.
#[export] Instance ValueKey_countable : Countable ValueKey.
Proof.
  refine (inj_countable'
    (fun k => match k with VkNum f => inl (inl f) | VkStr s => inl (inr s) | VkBool b => inr b end)
    (fun k => match k with inl (inl f) => VkNum f | inl (inr s) => VkStr s | inr b => VkBool b end)
    _).
  by intros [].
Defined.

(** The derived [Ord]: by variant, then by value. *)
Definition bool_cmp (a b : bool) : comparison :=
  match a, b with
  | false, true => Lt
  | true, false => Gt
  | _, _ => Eq
  end.
Definition value_key_cmp (a b : ValueKey) : comparison :=
  match a, b with
  | VkNum f, VkNum g => f64_cmp f g
  | VkNum _, _ => Lt
  | VkStr _, VkNum _ => Gt
  | VkStr s, VkStr t => String.compare s t
  | VkStr _, VkBool _ => Lt
  | VkBool a, VkBool b => bool_cmp a b
  | VkBool _, _ => Gt
  end.
Definition value_key_le (a b : ValueKey) : bool :=
  match value_key_cmp a b with Gt => false | _ => true end.

(** [ValueKey::try_new]; an [i64] becomes the nearest binary64. *)
Definition value_key (v : LiteralValue) : option ValueKey :=
  match v with
  | LInteger n => Some (VkNum (round_f64 (inject_Z n)))
  | LFloat f => Some (VkNum f)
  | LString s | LStringWithCast s _ => Some (VkStr s)
  | LBoolean b => Some (VkBool b)
  | LNull | LNullWithCast _ | LParameter _ | LArray _ _ => None
  end.

(** ** Column sets *)

(** [sort] and [dedup] of the names; equal constraint columns give equal lists. *)
Fixpoint insert_name (x : string) (l : list string) : list string :=
  match l with
  | [] => [x]
  | y :: rest =>
      match String.compare x y with
      | Lt => x :: l
      | Eq => l
      | Gt => y :: insert_name x rest
      end
  end.
Definition column_set (cols : list string) : list string := foldr insert_name [] cols.

(** [ColumnSet::is_subset_of]: one walk over the other side. *)
Fixpoint skip_past (col : string) (other : list string) : option (list string) :=
  match other with
  | [] => None
  | o :: rest => if bool_decide (o = col) then Some rest else skip_past col rest
  end.
Fixpoint is_subset_of (self other : list string) : bool :=
  match self with
  | [] => true
  | col :: rest =>
      match skip_past col other with
      | Some other => is_subset_of rest other
      | None => false
      end
  end.

(** ** Classification *)

Inductive Classification :=
| EqualityPure (columns : list string) (values : list ValueKey)
| Complex (columns : list string).

Definition into_columns (c : Classification) : list string :=
  match c with EqualityPure columns _ | Complex columns => columns end.

(** The loop's state: the equalities seen, the columns, and whether anything
    else was seen. *)
Record ClassifyState := {
  cl_equality : gmap string LiteralValue;
  cl_columns : list string;
  cl_complex : bool
}.

Definition classify_step (s : ClassifyState) (tc : TableConstraint) : ClassifyState :=
  match tc with
  | TcComparison col OpEqual val =>
      match cl_equality s !! col with
      | Some prev =>
          {| cl_equality := cl_equality s; cl_columns := col :: cl_columns s;
             cl_complex := cl_complex s || negb (bool_decide (prev = val)) |}
      | None =>
          {| cl_equality := <[col := val]> (cl_equality s); cl_columns := col :: cl_columns s;
             cl_complex := cl_complex s |}
      end
  | TcComparison col _ _ | TcAnyOf col _ | TcCastComparison col _ _ _ =>
      {| cl_equality := cl_equality s; cl_columns := col :: cl_columns s; cl_complex := true |}
  end.

Definition classify (constraints : list TableConstraint) : Classification :=
  let s := fold_left classify_step constraints
             {| cl_equality := ∅; cl_columns := []; cl_complex := false |} in
  let columns := column_set (cl_columns s) in
  if negb (cl_complex s) && (size (cl_equality s) =? length columns)%nat then
    match mapM (fun c => v ← cl_equality s !! c; value_key v) columns with
    | Some values => EqualityPure columns values
    | None => Complex columns
    end
  else Complex columns.

(** The columns whose bit is set in [mask], [cols] starting at bit [i]. *)
Fixpoint select_mask (mask i : nat) (cols : list string) : list string :=
  match cols with
  | [] => []
  | col :: rest =>
      if Nat.testbit mask i then col :: select_mask mask (S i) rest
      else select_mask mask (S i) rest
  end.

(** One subset per mask, in counting order. *)
Definition column_set_powerset (cols : list string) : list (list string) :=
  (fun mask => select_mask mask 0 cols) <$> seq 0 (2 ^ length cols).

Definition is_cast (tc : TableConstraint) : bool :=
  match tc with TcCastComparison _ _ _ _ => true | _ => false end.
Definition tc_column (tc : TableConstraint) : string := (bucket_key tc).1.

Definition column_range_of (constraints : list TableConstraint) (col : string) : ColumnRange :=
  let on_col := List.filter (fun tc => bool_decide (tc_column tc = col)) constraints in
  if existsb is_cast on_col then CrUnknown else column_range_build on_col.

Definition column_ranges (constraints : list TableConstraint) (columns : list string)
    : list ColumnRange :=
  column_range_of constraints <$> columns.

(** ** Placement of a range *)

Inductive Placement :=
| PEq (k : ValueKey)
| PInSet (keys : list ValueKey)
| PRangeLower (k : ValueKey)
| PRangeUpper (k : ValueKey)
| PRangeBoth (lower upper : ValueKey)
| POpaque.

#[export] Instance Placement_eq_dec : EqDecision Placement.
Proof. solve_decision. Defined.

Definition or_opaque (p : option Placement) : Placement := default POpaque p.

Definition placement (range : ColumnRange) : Placement :=
  match range with
  | CrEqual v => or_opaque (PEq <$> value_key v)
  | CrInSet set => or_opaque (PInSet <$> mapM value_key (elements set))
  | CrRange lower upper _ =>
      match lower, upper with
      | Some lb, None => or_opaque (PRangeLower <$> value_key (rb_value lb))
      | None, Some ub => or_opaque (PRangeUpper <$> value_key (rb_value ub))
      | Some lb, Some ub =>
          match value_key (rb_value lb), value_key (rb_value ub) with
          | Some lower, Some upper => PRangeBoth lower upper
          | _, _ => POpaque
          end
      | None, None => POpaque
      end
  | CrUnknown | CrUnconstrained | CrEmpty => POpaque
  end.

Section index.
Context {K : Type} `{Countable K}.

(** ** One column *)

Record ColumnIndex := {
  ci_eq : gmap ValueKey (list K);
  ci_inset : gmap ValueKey (list K);
  ci_range_lower : gmap ValueKey (list K);
  ci_range_upper : gmap ValueKey (list K);
  ci_range_both : gmap ValueKey (list (ValueKey * K));
  ci_opaque : list K
}.

Definition column_index_default : ColumnIndex :=
  {| ci_eq := ∅; ci_inset := ∅; ci_range_lower := ∅; ci_range_upper := ∅;
     ci_range_both := ∅; ci_opaque := [] |}.

(** [entry(key).or_default().push(x)] *)
Definition map_push {L A} `{Countable L} (m : gmap L (list A)) (key : L) (x : A)
    : gmap L (list A) :=
  <[key := default [] (m !! key) ++ [x]]> m.

(** [map_vec_remove], [btree_vec_remove] and [btree_pair_remove]: retain, and
    drop an emptied bucket. *)
Definition map_retain {L A} `{Countable L} (m : gmap L (list A)) (key : L) (keep : A -> bool)
    : gmap L (list A) :=
  match m !! key with
  | None => m
  | Some fps =>
      match List.filter keep fps with
      | [] => delete key m
      | fps => <[key := fps]> m
      end
  end.

Definition other_than (fp x : K) : bool := negb (bool_decide (x = fp)).

Definition column_index_insert (ci : ColumnIndex) (fingerprint : K) (range : ColumnRange)
    : ColumnIndex :=
  match placement range with
  | PEq key =>
      {| ci_eq := map_push (ci_eq ci) key fingerprint; ci_inset := ci_inset ci;
         ci_range_lower := ci_range_lower ci; ci_range_upper := ci_range_upper ci;
         ci_range_both := ci_range_both ci; ci_opaque := ci_opaque ci |}
  | PInSet keys =>
      {| ci_eq := ci_eq ci;
         ci_inset := fold_left (fun m key => map_push m key fingerprint) keys (ci_inset ci);
         ci_range_lower := ci_range_lower ci; ci_range_upper := ci_range_upper ci;
         ci_range_both := ci_range_both ci; ci_opaque := ci_opaque ci |}
  | PRangeLower key =>
      {| ci_eq := ci_eq ci; ci_inset := ci_inset ci;
         ci_range_lower := map_push (ci_range_lower ci) key fingerprint;
         ci_range_upper := ci_range_upper ci;
         ci_range_both := ci_range_both ci; ci_opaque := ci_opaque ci |}
  | PRangeUpper key =>
      {| ci_eq := ci_eq ci; ci_inset := ci_inset ci; ci_range_lower := ci_range_lower ci;
         ci_range_upper := map_push (ci_range_upper ci) key fingerprint;
         ci_range_both := ci_range_both ci; ci_opaque := ci_opaque ci |}
  | PRangeBoth lower upper =>
      {| ci_eq := ci_eq ci; ci_inset := ci_inset ci; ci_range_lower := ci_range_lower ci;
         ci_range_upper := ci_range_upper ci;
         ci_range_both := map_push (ci_range_both ci) lower (upper, fingerprint);
         ci_opaque := ci_opaque ci |}
  | POpaque =>
      {| ci_eq := ci_eq ci; ci_inset := ci_inset ci; ci_range_lower := ci_range_lower ci;
         ci_range_upper := ci_range_upper ci; ci_range_both := ci_range_both ci;
         ci_opaque := ci_opaque ci ++ [fingerprint] |}
  end.

Definition column_index_remove (ci : ColumnIndex) (fingerprint : K) (range : ColumnRange)
    : ColumnIndex :=
  match placement range with
  | PEq key =>
      {| ci_eq := map_retain (ci_eq ci) key (other_than fingerprint); ci_inset := ci_inset ci;
         ci_range_lower := ci_range_lower ci; ci_range_upper := ci_range_upper ci;
         ci_range_both := ci_range_both ci; ci_opaque := ci_opaque ci |}
  | PInSet keys =>
      {| ci_eq := ci_eq ci;
         ci_inset := fold_left (fun m key => map_retain m key (other_than fingerprint)) keys
                       (ci_inset ci);
         ci_range_lower := ci_range_lower ci; ci_range_upper := ci_range_upper ci;
         ci_range_both := ci_range_both ci; ci_opaque := ci_opaque ci |}
  | PRangeLower key =>
      {| ci_eq := ci_eq ci; ci_inset := ci_inset ci;
         ci_range_lower := map_retain (ci_range_lower ci) key (other_than fingerprint);
         ci_range_upper := ci_range_upper ci;
         ci_range_both := ci_range_both ci; ci_opaque := ci_opaque ci |}
  | PRangeUpper key =>
      {| ci_eq := ci_eq ci; ci_inset := ci_inset ci; ci_range_lower := ci_range_lower ci;
         ci_range_upper := map_retain (ci_range_upper ci) key (other_than fingerprint);
         ci_range_both := ci_range_both ci; ci_opaque := ci_opaque ci |}
  | PRangeBoth lower _ =>
      {| ci_eq := ci_eq ci; ci_inset := ci_inset ci; ci_range_lower := ci_range_lower ci;
         ci_range_upper := ci_range_upper ci;
         ci_range_both := map_retain (ci_range_both ci) lower
                            (fun e => other_than fingerprint e.2);
         ci_opaque := ci_opaque ci |}
  | POpaque =>
      {| ci_eq := ci_eq ci; ci_inset := ci_inset ci; ci_range_lower := ci_range_lower ci;
         ci_range_upper := ci_range_upper ci; ci_range_both := ci_range_both ci;
         ci_opaque := List.filter (other_than fingerprint) (ci_opaque ci) |}
  end.

(** The entries of the buckets whose key passes [p]. *)
Definition buckets_where {A} (p : ValueKey -> bool) (m : gmap ValueKey (list A)) : list A :=
  flat_map (fun kv => if p kv.1 then kv.2 else []) (map_to_list m).

Definition range_both_all (ci : ColumnIndex) : list K :=
  (buckets_where (fun _ => true) (ci_range_both ci)).*2.

Definition all_entries (ci : ColumnIndex) : list K :=
  buckets_where (fun _ => true) (ci_eq ci)
  ++ buckets_where (fun _ => true) (ci_inset ci)
  ++ buckets_where (fun _ => true) (ci_range_lower ci)
  ++ buckets_where (fun _ => true) (ci_range_upper ci)
  ++ range_both_all ci.

Definition two_sided (ci : ColumnIndex) (qlo qhi : ValueKey) : list K :=
  (List.filter (fun e => value_key_le qhi e.1)
     (buckets_where (fun k => value_key_le k qlo) (ci_range_both ci))).*2.

Definition two_sided_lit (ci : ColumnIndex) (qlo qhi : LiteralValue) : list K :=
  match value_key qlo, value_key qhi with
  | Some qlo_key, Some qhi_key => two_sided ci qlo_key qhi_key
  | _, _ => range_both_all ci
  end.

Definition lower_covering (ci : ColumnIndex) (bound : LiteralValue) : list K :=
  match value_key bound with
  | Some key => buckets_where (fun k => value_key_le k key) (ci_range_lower ci)
  | None => buckets_where (fun _ => true) (ci_range_lower ci)
  end.

Definition upper_covering (ci : ColumnIndex) (bound : LiteralValue) : list K :=
  match value_key bound with
  | Some key => buckets_where (fun k => value_key_le key k) (ci_range_upper ci)
  | None => buckets_where (fun _ => true) (ci_range_upper ci)
  end.

(** [min] and [max] of a non-empty list of keys. *)
Definition key_min (first : ValueKey) (rest : list ValueKey) : ValueKey :=
  fold_left (fun m k => if value_key_le m k then m else k) rest first.
Definition key_max (first : ValueKey) (rest : list ValueKey) : ValueKey :=
  fold_left (fun m k => if value_key_le m k then k else m) rest first.

Definition containing_inset (ci : ColumnIndex) (set : gset LiteralValue) : list K :=
  match mapM value_key (elements set) with
  | None => all_entries ci
  | Some [] => []
  | Some (first :: rest) =>
      let bucket v := default [] (ci_inset ci !! v) in
      let members := fold_left (fun acc v =>
        List.filter (fun fp => bool_decide (fp ∈ bucket v)) acc) rest (bucket first) in
      members
      ++ (match rest with [] => default [] (ci_eq ci !! first) | _ => [] end)
      ++ buckets_where (fun k => value_key_le k (key_min first rest)) (ci_range_lower ci)
      ++ buckets_where (fun k => value_key_le (key_max first rest) k) (ci_range_upper ci)
      ++ two_sided ci (key_min first rest) (key_max first rest)
  end.

Definition containing (ci : ColumnIndex) (query : ColumnRange) : list K :=
  ci_opaque ci ++
  match query with
  | CrUnknown | CrEmpty | CrUnconstrained => all_entries ci
  | CrEqual v =>
      match value_key v with
      | Some key =>
          default [] (ci_eq ci !! key) ++ default [] (ci_inset ci !! key)
          ++ lower_covering ci v ++ upper_covering ci v ++ two_sided_lit ci v v
      | None => all_entries ci
      end
  | CrInSet set => containing_inset ci set
  | CrRange lower upper _ =>
      (match lower with Some lb => lower_covering ci (rb_value lb) | None => [] end)
      ++ (match upper with Some ub => upper_covering ci (rb_value ub) | None => [] end)
      ++ (match lower, upper with
          | Some lb, Some ub => two_sided_lit ci (rb_value lb) (rb_value ub)
          | _, _ => []
          end)
  end.

(** ** One class of constraint columns *)

Record ComplexIndex := { cx_per_column : list ColumnIndex; cx_len : nat }.

Definition complex_new (num_columns : nat) : ComplexIndex :=
  {| cx_per_column := replicate num_columns column_index_default; cx_len := 0 |}.

(** The columns beyond the shorter of the two lists are left alone. *)
Fixpoint zip_update (f : ColumnIndex -> ColumnRange -> ColumnIndex)
    (columns : list ColumnIndex) (ranges : list ColumnRange) : list ColumnIndex :=
  match columns, ranges with
  | c :: columns, r :: ranges => f c r :: zip_update f columns ranges
  | columns, _ => columns
  end.

Definition complex_insert (cx : ComplexIndex) (fingerprint : K) (ranges : list ColumnRange)
    : ComplexIndex :=
  {| cx_per_column :=
       zip_update (fun c r => column_index_insert c fingerprint r) (cx_per_column cx) ranges;
     cx_len := S (cx_len cx) |}.

Definition complex_remove (cx : ComplexIndex) (fingerprint : K) (ranges : list ColumnRange)
    : ComplexIndex :=
  {| cx_per_column :=
       zip_update (fun c r => column_index_remove c fingerprint r) (cx_per_column cx) ranges;
     cx_len := cx_len cx - 1 |}.

(** The ids in every list; the source intersects the shortest first. *)
Fixpoint insert_by_length (l : list K) (ls : list (list K)) : list (list K) :=
  match ls with
  | [] => [l]
  | x :: rest =>
      if (length l <=? length x)%nat then l :: ls else x :: insert_by_length l rest
  end.
Definition intersect_smallest_first (per_column : list (list K)) : list K :=
  match foldr insert_by_length [] per_column with
  | [] => []
  | first :: rest =>
      fold_left (fun acc column => List.filter (fun fp => bool_decide (fp ∈ column)) acc)
        rest first
  end.

Definition complex_candidates (cx : ComplexIndex) (query_ranges : list ColumnRange) : list K :=
  if (cx_len cx =? 0)%nat then []
  else match cx_per_column cx, query_ranges with
  | [], _ => []
  | [column], [range] => containing column range
  | columns, ranges =>
      intersect_smallest_first
        ((fun cr => containing cr.1 cr.2) <$> zip columns ranges)
  end.

(** The keyable readings of one row value. *)
Notation ColumnForms := (list (option ColumnRange)).

Definition forms_containing (column : ColumnIndex) (forms : ColumnForms) : list K :=
  flat_map (fun form => containing column form) (omap id forms).

Definition complex_candidates_point (cx : ComplexIndex) (col_forms : list ColumnForms) : list K :=
  if (cx_len cx =? 0)%nat then []
  else match cx_per_column cx with
  | [] => []
  | [column] =>
      match col_forms with forms :: _ => forms_containing column forms | [] => [] end
  | columns =>
      intersect_smallest_first
        ((fun cf => forms_containing cf.1 cf.2) <$> zip columns col_forms)
  end.

Record SubsumptionClass := {
  sub_equality : gmap (list ValueKey) (list K);
  sub_complex : ComplexIndex
}.

Definition class_new (num_columns : nat) : SubsumptionClass :=
  {| sub_equality := ∅; sub_complex := complex_new num_columns |}.

(** ** The index *)

Inductive MembershipPayload :=
| MpEquality (values : list ValueKey)
| MpComplex (shapes : list ColumnRange).

Record Membership := { mb_columns : list string; mb_payload : MembershipPayload }.

Record ConstraintIndex := {
  ix_classes : gmap (list string) SubsumptionClass;
  ix_membership : gmap K Membership
}.

Definition index_new : ConstraintIndex := {| ix_classes := ∅; ix_membership := ∅ |}.

Definition complex_is_empty (cx : ComplexIndex) : bool := (cx_len cx =? 0)%nat.

Definition index_remove (ix : ConstraintIndex) (fingerprint : K) : ConstraintIndex :=
  match ix_membership ix !! fingerprint with
  | None => ix
  | Some membership =>
      let membership' := delete fingerprint (ix_membership ix) in
      match ix_classes ix !! mb_columns membership with
      | None => {| ix_classes := ix_classes ix; ix_membership := membership' |}
      | Some bucket =>
          let bucket :=
            match mb_payload membership with
            | MpEquality values =>
                {| sub_equality := map_retain (sub_equality bucket) values
                                     (other_than fingerprint);
                   sub_complex := sub_complex bucket |}
            | MpComplex shapes =>
                {| sub_equality := sub_equality bucket;
                   sub_complex := complex_remove (sub_complex bucket) fingerprint shapes |}
            end in
          {| ix_classes :=
               if bool_decide (sub_equality bucket = ∅) && complex_is_empty (sub_complex bucket)
               then delete (mb_columns membership) (ix_classes ix)
               else <[mb_columns membership := bucket]> (ix_classes ix);
             ix_membership := membership' |}
      end
  end.

Definition membership_of (table_constraints : list TableConstraint) : Membership :=
  match classify table_constraints with
  | EqualityPure columns values => {| mb_columns := columns; mb_payload := MpEquality values |}
  | Complex columns =>
      {| mb_columns := columns;
         mb_payload := MpComplex (column_ranges table_constraints columns) |}
  end.

Definition index_insert (ix : ConstraintIndex) (fingerprint : K)
    (table_constraints : list TableConstraint) : ConstraintIndex :=
  let ix := if bool_decide (is_Some (ix_membership ix !! fingerprint))
            then index_remove ix fingerprint else ix in
  let membership := membership_of table_constraints in
  let columns := mb_columns membership in
  let bucket := default (class_new (length columns)) (ix_classes ix !! columns) in
  let bucket :=
    match mb_payload membership with
    | MpEquality values =>
        {| sub_equality := map_push (sub_equality bucket) values fingerprint;
           sub_complex := sub_complex bucket |}
    | MpComplex ranges =>
        {| sub_equality := sub_equality bucket;
           sub_complex := complex_insert (sub_complex bucket) fingerprint ranges |}
    end in
  {| ix_classes := <[columns := bucket]> (ix_classes ix);
     ix_membership := <[fingerprint := membership]> (ix_membership ix) |}.

Definition equal_key (r : ColumnRange) : option ValueKey :=
  match r with CrEqual v => value_key v | _ => None end.

Definition subset_probe (new_constraints : list TableConstraint) (subset : list string)
    (bucket : SubsumptionClass) : list K :=
  let ranges := column_ranges new_constraints subset in
  (match mapM equal_key ranges with
   | Some key => default [] (sub_equality bucket !! key)
   | None => []
   end)
  ++ complex_candidates (sub_complex bucket) ranges.

Definition index_candidates (ix : ConstraintIndex) (new_constraints : list TableConstraint)
    : list K :=
  let new_columns := into_columns (classify new_constraints) in
  let n := length new_columns in
  if (n <? 32)%nat && (2 ^ n <=? size (ix_classes ix))%nat then
    flat_map (fun subset =>
      match ix_classes ix !! subset with
      | Some bucket => subset_probe new_constraints subset bucket
      | None => []
      end) (column_set_powerset new_columns)
  else
    flat_map (fun sb =>
      if is_subset_of sb.1 new_columns then subset_probe new_constraints sb.1 sb.2 else [])
      (map_to_list (ix_classes ix)).

(** ** The point probe *)

Definition ColumnKeys : Type := list (option ValueKey).

Definition value_key_product (key_sets : list ColumnKeys) : list (list ValueKey) :=
  fold_left (fun result ks =>
    flat_map (fun prefix => (fun k => prefix ++ [k]) <$> omap id ks) result) key_sets [[]].

Definition form_keys (forms : ColumnForms) : ColumnKeys :=
  (fun slot => r ← slot; equal_key r) <$> forms.

Definition key_matches (ks : ColumnKeys) (t : ValueKey) : bool :=
  match omap id ks with [] => true | keys => bool_decide (t ∈ keys) end.

Definition class_candidates_point (col_forms_fn : string -> ColumnForms)
    (column_set : list string) (class : SubsumptionClass) : list K :=
  let col_forms := col_forms_fn <$> column_set in
  let key_sets := form_keys <$> col_forms in
  (if forallb (fun ks => existsb (fun k => bool_decide (is_Some k)) ks) key_sets then
     flat_map (fun tuple => default [] (sub_equality class !! tuple))
       (value_key_product key_sets)
   else
     flat_map (fun tf =>
       if forallb (fun kt => key_matches kt.1 kt.2) (zip key_sets tf.1) then tf.2 else [])
       (map_to_list (sub_equality class)))
  ++ complex_candidates_point (sub_complex class) col_forms.

Definition candidates_point_into (ix : ConstraintIndex) (col_forms_fn : string -> ColumnForms)
    : list K :=
  flat_map (fun cc => class_candidates_point col_forms_fn cc.1 cc.2)
    (map_to_list (ix_classes ix)).

(** ** Buckets *)

(** [x] is in the bucket of [key]. *)
Definition has {L A} `{Countable L} (m : gmap L (list A)) (key : L) (x : A) : Prop :=
  x ∈ default [] (m !! key).

Section buckets.
Context {L A : Type} `{Countable L}.
Implicit Types (m : gmap L (list A)).

Lemma has_push m key x key' y :
  has (map_push m key x) key' y <-> has m key' y \/ (key' = key /\ y = x).
Proof.
  unfold has, map_push. destruct (decide (key' = key)) as [-> |Hne].
  - rewrite lookup_insert_eq. simpl. set_solver.
  - rewrite lookup_insert_ne by done. naive_solver.
Qed.

Lemma has_retain m key keep key' y :
  has (map_retain m key keep) key' y <-> has m key' y /\ (key' = key -> keep y = true).
Proof.
  unfold has, map_retain. destruct (m !! key) as [l|] eqn:El.
  - destruct (decide (key' = key)) as [-> |Hne].
    + rewrite El. simpl. pose proof (filter_elem keep l y) as Hf.
      destruct (List.filter keep l); [rewrite lookup_delete_eq|rewrite lookup_insert_eq];
        simpl; rewrite Hf; naive_solver.
    + destruct (List.filter keep l); [rewrite lookup_delete_ne by done|
        rewrite lookup_insert_ne by done]; naive_solver.
  - destruct (decide (key' = key)) as [-> |Hne]; [rewrite El; simpl; set_solver|naive_solver].
Qed.

Lemma has_push_all m keys x key' y :
  has (fold_left (fun m key => map_push m key x) keys m) key' y
  <-> has m key' y \/ (key' ∈ keys /\ y = x).
Proof.
  revert m. induction keys as [|k keys IH]; intros m; simpl; [set_solver|].
  rewrite IH, has_push. set_solver.
Qed.

Lemma has_retain_all m keys keep key' y :
  has (fold_left (fun m key => map_retain m key keep) keys m) key' y
  <-> has m key' y /\ (key' ∈ keys -> keep y = true).
Proof.
  revert m. induction keys as [|k keys IH]; intros m; simpl; [set_solver|].
  rewrite IH, has_retain. set_solver.
Qed.
End buckets.

Lemma buckets_where_elem {A} p (m : gmap ValueKey (list A)) x :
  x ∈ buckets_where p m <-> exists key, p key = true /\ has m key x.
Proof.
  unfold buckets_where, has. rewrite flat_map_elem. split.
  - intros ([key l] & Hin%elem_of_map_to_list & Hx). simpl in Hx.
    destruct (p key) eqn:Ep; [|by apply not_elem_of_nil in Hx].
    exists key. by rewrite Hin.
  - intros (key & Hp & Hx). destruct (m !! key) as [l|] eqn:El; [|by apply not_elem_of_nil in Hx].
    exists (key, l). simpl. rewrite Hp. split; [by apply elem_of_map_to_list|done].
Qed.

(** ** What a column index stores *)

(** A column index represents the ids with their ranges when each id is where
    its range's placement says, and nowhere else. *)
Record ci_repr (ci : ColumnIndex) (m : gmap K ColumnRange) : Prop := {
  repr_eq : forall key k, has (ci_eq ci) key k
    <-> exists r, m !! k = Some r /\ placement r = PEq key;
  repr_inset : forall key k, has (ci_inset ci) key k
    <-> exists r keys, m !! k = Some r /\ placement r = PInSet keys /\ key ∈ keys;
  repr_lower : forall key k, has (ci_range_lower ci) key k
    <-> exists r, m !! k = Some r /\ placement r = PRangeLower key;
  repr_upper : forall key k, has (ci_range_upper ci) key k
    <-> exists r, m !! k = Some r /\ placement r = PRangeUpper key;
  repr_both : forall lo up k, has (ci_range_both ci) lo (up, k)
    <-> exists r, m !! k = Some r /\ placement r = PRangeBoth lo up;
  repr_opaque : forall k, k ∈ ci_opaque ci
    <-> exists r, m !! k = Some r /\ placement r = POpaque
}.

Lemma column_index_default_repr : ci_repr column_index_default ∅.
Proof.
  split; intros; unfold has; cbn [column_index_default ci_eq ci_inset ci_range_lower
    ci_range_upper ci_range_both ci_opaque]; rewrite ?lookup_empty;
    (split; [by intros ?%not_elem_of_nil|]);
    (intros (r & [=] & _) || intros (r & keys & [=] & _)).
Qed.

(** Inserting a fresh id. *)
Lemma insert_exists (m : gmap K ColumnRange) k r (P : ColumnRange -> Prop) k' :
  m !! k = None ->
  (exists r', <[k:=r]> m !! k' = Some r' /\ P r')
  <-> (exists r', m !! k' = Some r' /\ P r') \/ (k' = k /\ P r).
Proof.
  intros Hk. destruct (decide (k' = k)) as [-> |Hne].
  - rewrite lookup_insert_eq, Hk. naive_solver.
  - rewrite lookup_insert_ne by done. naive_solver.
Qed.

Lemma delete_exists (m : gmap K ColumnRange) k (P : ColumnRange -> Prop) k' :
  (exists r', delete k m !! k' = Some r' /\ P r')
  <-> (exists r', m !! k' = Some r' /\ P r') /\ k' <> k.
Proof.
  destruct (decide (k' = k)) as [-> |Hne].
  - rewrite lookup_delete_eq. naive_solver.
  - rewrite lookup_delete_ne by done. naive_solver.
Qed.

Lemma exists_and_assoc (m : gmap K ColumnRange) k' (P : ColumnRange -> list ValueKey -> Prop) :
  (exists r keys, m !! k' = Some r /\ P r keys)
  <-> exists r, m !! k' = Some r /\ exists keys, P r keys.
Proof. naive_solver. Qed.

Lemma column_index_insert_repr ci m k r :
  ci_repr ci m -> m !! k = None -> ci_repr (column_index_insert ci k r) (<[k:=r]> m).
Proof.
  intros [He Hi Hl Hu Hb Ho] Hk. unfold column_index_insert.
  split; intros; rewrite ?exists_and_assoc, (insert_exists m k r) by done;
    rewrite <- ?exists_and_assoc;
    rewrite <- ?He, <- ?Hi, <- ?Hl, <- ?Hu, <- ?Hb, <- ?Ho;
    destruct (placement r) eqn:Ep; cbn [ci_eq ci_inset ci_range_lower ci_range_upper
      ci_range_both ci_opaque];
    rewrite ?has_push, ?has_push_all, ?elem_of_app, ?list_elem_of_singleton; naive_solver.
Qed.

Lemma other_than_true (fp x : K) : other_than fp x = true <-> x <> fp.
Proof. unfold other_than. rewrite negb_true_iff, bool_decide_eq_false. done. Qed.

Lemma remove_here (stored at_key : Prop) (k k' : K) :
  (stored -> k' = k -> at_key) -> stored /\ (at_key -> k' <> k) <-> stored /\ k' <> k.
Proof. tauto. Qed.

Lemma remove_elsewhere (stored : Prop) (k k' : K) :
  (stored -> k' = k -> False) -> stored <-> stored /\ k' <> k.
Proof. tauto. Qed.

Lemma column_index_remove_repr ci m k r :
  ci_repr ci m -> m !! k = Some r -> ci_repr (column_index_remove ci k r) (delete k m).
Proof.
  intros [He Hi Hl Hu Hb Ho] Hk. unfold column_index_remove.
  split; intros; rewrite ?exists_and_assoc, delete_exists; rewrite <- ?exists_and_assoc;
    rewrite <- ?He, <- ?Hi, <- ?Hl, <- ?Hu, <- ?Hb, <- ?Ho;
    destruct (placement r) eqn:Ep; cbn [ci_eq ci_inset ci_range_lower ci_range_upper
      ci_range_both ci_opaque];
    rewrite ?has_retain, ?has_retain_all, ?filter_elem; cbn [snd];
    rewrite ?other_than_true; try done;
    first [apply remove_here|apply remove_elsewhere];
    rewrite ?He, ?Hi, ?Hl, ?Hu, ?Hb, ?Ho;
    (intros (r' & ks & Hr' & Hp & Hin) -> || intros (r' & Hr' & Hp) ->);
    rewrite Hr' in Hk; injection Hk as ->; rewrite Ep in Hp;
    first [discriminate Hp|injection Hp as ->; done].
Qed.

(** ** What a lookup returns *)

(** Which placements the lookup of a range reads. *)
Definition reach_all (p : Placement) : bool :=
  match p with PInSet [] => false | _ => true end.
Definition reach_span (lo hi : ValueKey) (p : Placement) : bool :=
  match p with
  | PEq k => false
  | PInSet ks => false
  | PRangeLower k => value_key_le k lo
  | PRangeUpper k => value_key_le hi k
  | PRangeBoth l u => value_key_le l lo && value_key_le hi u
  | POpaque => true
  end.
Definition reach_key (key : ValueKey) (p : Placement) : bool :=
  match p with
  | PEq k => bool_decide (k = key)
  | PInSet ks => bool_decide (key ∈ ks)
  | _ => reach_span key key p
  end.

Definition reaches (query : ColumnRange) (p : Placement) : bool :=
  match p with POpaque => true | _ =>
  match query with
  | CrUnknown | CrEmpty | CrUnconstrained => reach_all p
  | CrEqual v => match value_key v with Some key => reach_key key p | None => reach_all p end
  | CrInSet set =>
      match mapM value_key (elements set) with
      | None => reach_all p
      | Some [] => false
      | Some (first :: rest) =>
          match p with
          | PEq k => bool_decide (k = first) && bool_decide (rest = [])
          | PInSet ks => forallb (fun v => bool_decide (v ∈ ks)) (first :: rest)
          | _ => reach_span (key_min first rest) (key_max first rest) p
          end
      end
  | CrRange lower upper _ =>
      match p with
      | PRangeLower k =>
          match lower with
          | Some lb => match value_key (rb_value lb) with
                       | Some key => value_key_le k key | None => true end
          | None => false
          end
      | PRangeUpper k =>
          match upper with
          | Some ub => match value_key (rb_value ub) with
                       | Some key => value_key_le key k | None => true end
          | None => false
          end
      | PRangeBoth l u =>
          match lower, upper with
          | Some lb, Some ub =>
              match value_key (rb_value lb), value_key (rb_value ub) with
              | Some lo, Some hi => value_key_le l lo && value_key_le hi u
              | _, _ => true
              end
          | _, _ => false
          end
      | _ => false
      end
  end end.

Section lookup.
Context (ci : ColumnIndex) (m : gmap K ColumnRange) (Hrepr : ci_repr ci m).

(** [k] is stored with a placement [P] accepts. *)
Definition stored (P : Placement -> Prop) (k : K) : Prop :=
  exists r, m !! k = Some r /\ P (placement r).

Lemma stored_iff P Q k : (forall p, P p <-> Q p) -> stored P k <-> stored Q k.
Proof. intros HPQ. unfold stored. by setoid_rewrite HPQ. Qed.

Lemma stored_or P Q k : stored P k \/ stored Q k <-> stored (fun p => P p \/ Q p) k.
Proof.
  unfold stored. split; [intros [(r & ? & ?)|(r & ? & ?)]; eauto|].
  intros (r & ? & [?|?]); eauto.
Qed.

(** Placements in one structure, at keys [q] accepts. *)
Definition in_eq (q : ValueKey -> Prop) (p : Placement) : Prop :=
  match p with PEq key => q key | _ => False end.
Definition in_inset (q : list ValueKey -> Prop) (p : Placement) : Prop :=
  match p with PInSet ks => q ks | _ => False end.
Definition in_lower (q : ValueKey -> Prop) (p : Placement) : Prop :=
  match p with PRangeLower key => q key | _ => False end.
Definition in_upper (q : ValueKey -> Prop) (p : Placement) : Prop :=
  match p with PRangeUpper key => q key | _ => False end.
Definition in_both (q : ValueKey -> ValueKey -> Prop) (p : Placement) : Prop :=
  match p with PRangeBoth l u => q l u | _ => False end.

Lemma eq_elem key k : k ∈ default [] (ci_eq ci !! key) <-> stored (in_eq (fun k => k = key)) k.
Proof using Hrepr.
  rewrite (repr_eq ci m Hrepr key k). apply (stored_iff (fun p => p = PEq key)).
  intros []; simpl; try done. split; [by intros [= ->]|by intros ->].
Qed.
Lemma inset_elem key k :
  k ∈ default [] (ci_inset ci !! key) <-> stored (in_inset (fun ks => key ∈ ks)) k.
Proof using Hrepr.
  rewrite (repr_inset ci m Hrepr key k). split.
  - intros (r & ks & Hr & Hp & Hin). exists r. by rewrite Hp.
  - intros (r & Hr & Hp). destruct (placement r) as [|ks| | | |] eqn:E; try done. eauto 6.
Qed.
Lemma opaque_elem k : k ∈ ci_opaque ci <-> stored (fun p => p = POpaque) k.
Proof using Hrepr. apply (repr_opaque ci m Hrepr). Qed.
Lemma eqs_elem q k :
  k ∈ buckets_where q (ci_eq ci) <-> stored (in_eq (fun key => q key = true)) k.
Proof using Hrepr.
  rewrite buckets_where_elem. setoid_rewrite (repr_eq ci m Hrepr). split.
  - intros (key & Hq & r & Hr & Hp). exists r. by rewrite Hp.
  - intros (r & Hr & Hp). destruct (placement r) eqn:E; try done. eauto 6.
Qed.
Lemma insets_elem q k :
  k ∈ buckets_where q (ci_inset ci)
  <-> stored (in_inset (fun ks => exists key, key ∈ ks /\ q key = true)) k.
Proof using Hrepr.
  rewrite buckets_where_elem. setoid_rewrite (repr_inset ci m Hrepr). split.
  - intros (key & Hq & r & ks & Hr & Hp & Hin). exists r. rewrite Hp. simpl. eauto.
  - intros (r & Hr & Hp). destruct (placement r) eqn:E; try done.
    destruct Hp as (key & Hin & Hq). eauto 8.
Qed.
Lemma lowers_elem q k :
  k ∈ buckets_where q (ci_range_lower ci) <-> stored (in_lower (fun key => q key = true)) k.
Proof using Hrepr.
  rewrite buckets_where_elem. setoid_rewrite (repr_lower ci m Hrepr). split.
  - intros (key & Hq & r & Hr & Hp). exists r. by rewrite Hp.
  - intros (r & Hr & Hp). destruct (placement r) eqn:E; try done. eauto 6.
Qed.
Lemma uppers_elem q k :
  k ∈ buckets_where q (ci_range_upper ci) <-> stored (in_upper (fun key => q key = true)) k.
Proof using Hrepr.
  rewrite buckets_where_elem. setoid_rewrite (repr_upper ci m Hrepr). split.
  - intros (key & Hq & r & Hr & Hp). exists r. by rewrite Hp.
  - intros (r & Hr & Hp). destruct (placement r) eqn:E; try done. eauto 6.
Qed.
Lemma two_sided_where_elem (q : ValueKey -> bool) (t : ValueKey * K -> bool) k :
  k ∈ (List.filter t (buckets_where q (ci_range_both ci))).*2
  <-> stored (in_both (fun l u => q l = true /\ t (u, k) = true)) k.
Proof using Hrepr.
  rewrite list_elem_of_fmap. split.
  - intros ([u fp] & -> & [Hin Hu]%filter_elem). apply buckets_where_elem in Hin as (l & Hl & Hin).
    apply (repr_both ci m Hrepr) in Hin as (r & Hr & Hp). exists r. simpl. by rewrite Hp.
  - intros (r & Hr & Hp). destruct (placement r) as [| | | |l u|] eqn:E; try done.
    destruct Hp as [Hl Hu]. exists (u, k). split; [done|].
    apply filter_elem. split; [|done]. apply buckets_where_elem. exists l. split; [done|].
    apply (repr_both ci m Hrepr). eauto.
Qed.
Lemma both_all_elem k : k ∈ range_both_all ci <-> stored (in_both (fun _ _ => True)) k.
Proof using Hrepr.
  unfold range_both_all.
  assert (Hf : forall l : list (ValueKey * K), List.filter (fun _ => true) l = l).
  { intros l. induction l as [|x l IH]; simpl; congruence. }
  rewrite <- (Hf (buckets_where _ _)), two_sided_where_elem.
  apply stored_iff. by intros [].
Qed.
Lemma two_sided_elem lo hi k :
  k ∈ two_sided ci lo hi
  <-> stored (in_both (fun l u => value_key_le l lo = true /\ value_key_le hi u = true)) k.
Proof using Hrepr. apply two_sided_where_elem. Qed.

Lemma all_entries_elem k :
  k ∈ all_entries ci <-> stored (fun p => p <> POpaque /\ reach_all p = true) k.
Proof using Hrepr.
  unfold all_entries.
  rewrite !elem_of_app, eqs_elem, insets_elem, lowers_elem, uppers_elem, both_all_elem, !stored_or.
  apply stored_iff. intros [key|[|key keys]|key|key|l u|]; simpl;
    try (intuition discriminate; fail).
  - split; [|by intros [_ ?]].
    intros [[]|[(key & []%not_elem_of_nil & _)|[[]|[[]|[]]]]].
  - split; [done|]. intros _. right; left. exists key. split; [by left|done].
Qed.

Lemma span_elem lo hi k :
  k ∈ buckets_where (fun key => value_key_le key lo) (ci_range_lower ci)
      ++ buckets_where (fun key => value_key_le hi key) (ci_range_upper ci)
      ++ two_sided ci lo hi
  <-> stored (fun p => p <> POpaque /\ reach_span lo hi p = true) k.
Proof using Hrepr.
  rewrite !elem_of_app, lowers_elem, uppers_elem, two_sided_elem, !stored_or.
  apply stored_iff. intros []; simpl; rewrite ?andb_true_iff; intuition discriminate.
Qed.

(** The members of every bucket of the keys [first :: rest]. *)
Lemma members_elem first rest k :
  k ∈ fold_left (fun acc v => List.filter (fun fp =>
        bool_decide (fp ∈ default [] (ci_inset ci !! v))) acc) rest
        (default [] (ci_inset ci !! first))
  <-> stored (in_inset (fun ks =>
        forallb (fun v => bool_decide (v ∈ ks)) (first :: rest) = true)) k.
Proof using Hrepr.
  assert (Hfold : forall acc, k ∈ fold_left (fun acc v => List.filter (fun fp =>
        bool_decide (fp ∈ default [] (ci_inset ci !! v))) acc) rest acc
      <-> k ∈ acc /\ forall v, v ∈ rest -> k ∈ default [] (ci_inset ci !! v)).
  { clear first. induction rest as [|v rest IH]; intros acc; simpl; [set_solver|].
    rewrite IH, filter_elem, bool_decide_eq_true. set_solver. }
  rewrite Hfold, inset_elem. setoid_rewrite inset_elem. split.
  - intros ((r & Hr & Hp) & Hrest). exists r. split; [done|].
    destruct (placement r) as [|ks| | | |] eqn:E; try done. simpl in Hp.
    apply forallb_elem. intros v [-> |Hv]%elem_of_cons; [by apply bool_decide_eq_true|].
    destruct (Hrest v Hv) as (r' & Hr' & Hp'). simplify_eq. rewrite E in Hp'.
    by apply bool_decide_eq_true.
  - intros (r & Hr & Hp). destruct (placement r) as [|ks| | | |] eqn:E; try done.
    unfold in_inset in Hp. rewrite forallb_elem in Hp. setoid_rewrite bool_decide_eq_true in Hp.
    split; [|intros v Hv]; exists r; rewrite E; (split; [done|]); apply Hp; [by left|by right].
Qed.

(** A lookup returns the ids whose placement it reaches. *)
Lemma containing_elem q k : k ∈ containing ci q <-> stored (fun p => reaches q p = true) k.
Proof using Hrepr.
  unfold containing. rewrite elem_of_app, opaque_elem.
  assert (Hopaque : forall P : Placement -> Prop,
    (forall p, p <> POpaque -> P p <-> reaches q p = true) ->
    stored (fun p => p = POpaque) k \/ stored (fun p => p <> POpaque /\ P p) k
    <-> stored (fun p => reaches q p = true) k).
  { intros P HP. rewrite stored_or. apply stored_iff. intros p.
    destruct (decide (p = POpaque)) as [-> |Hne]; [naive_solver|].
    specialize (HP p Hne). tauto. }
  assert (Hall : (forall p, p <> POpaque -> reach_all p = true <-> reaches q p = true) ->
    stored (fun p => p = POpaque) k \/ k ∈ all_entries ci
    <-> stored (fun p => reaches q p = true) k).
  { rewrite all_entries_elem. apply Hopaque. }
  destruct q as [| | |v|set|lower upper ne].
  - apply Hall. by intros [].
  - apply Hall. by intros [].
  - apply Hall. by intros [].
  - unfold lower_covering, upper_covering, two_sided_lit. destruct (value_key v) as [key|] eqn:Ev.
    + rewrite elem_of_app, elem_of_app, eq_elem, inset_elem, span_elem, !stored_or.
      apply stored_iff. intros p. unfold reaches. rewrite Ev.
      destruct p; simpl; rewrite ?bool_decide_eq_true; intuition discriminate.
    + apply Hall. intros p Hp. unfold reaches. rewrite Ev. by destruct p.
  - unfold containing_inset. destruct (mapM value_key (elements set)) as [[|first rest]|] eqn:Ek.
    + rewrite elem_of_nil. unfold stored. split.
      * intros [(r & Hr & Hp)|[]]. exists r. by rewrite Hp.
      * intros (r & Hr & Hp). left. exists r. split; [done|]. unfold reaches in Hp.
        rewrite Ek in Hp. by destruct (placement r).
    + rewrite elem_of_app, elem_of_app, members_elem, span_elem.
      assert (Heq : k ∈ (match rest with [] => default [] (ci_eq ci !! first) | _ => [] end)
        <-> stored (in_eq (fun key => key = first /\ rest = [])) k).
      { destruct rest; [rewrite eq_elem|rewrite elem_of_nil; unfold stored].
        - apply stored_iff. intros []; simpl; tauto.
        - split; [done|]. intros (r & _ & Hp). by destruct (placement r), Hp. }
      rewrite Heq, !stored_or. apply stored_iff. intros p. unfold reaches. rewrite Ek.
      destruct p; cbn [reach_span in_inset in_eq];
        rewrite ?andb_true_iff, ?bool_decide_eq_true; intuition discriminate.
    + apply Hall. intros p Hp. unfold reaches. rewrite Ek. by destruct p.
  - set (q := CrRange lower upper ne) in *.
    unfold lower_covering, upper_covering, two_sided_lit.
    assert (Hl : k ∈ (match lower with Some lb => match value_key (rb_value lb) with
        | Some key => buckets_where (fun k => value_key_le k key) (ci_range_lower ci)
        | None => buckets_where (fun _ => true) (ci_range_lower ci) end | None => [] end)
      <-> stored (in_lower (fun key => reaches q (PRangeLower key) = true)) k).
    { unfold q. destruct lower as [lb|].
      - simpl. destruct (value_key (rb_value lb)); rewrite lowers_elem; apply stored_iff; by intros [].
      - rewrite elem_of_nil. split; [done|]. intros (r & _ & Hp). by destruct (placement r). }
    assert (Hu : k ∈ (match upper with Some ub => match value_key (rb_value ub) with
        | Some key => buckets_where (fun k => value_key_le key k) (ci_range_upper ci)
        | None => buckets_where (fun _ => true) (ci_range_upper ci) end | None => [] end)
      <-> stored (in_upper (fun key => reaches q (PRangeUpper key) = true)) k).
    { unfold q. destruct upper as [ub|].
      - simpl. destruct (value_key (rb_value ub)); rewrite uppers_elem; apply stored_iff; by intros [].
      - rewrite elem_of_nil. split; [done|]. intros (r & _ & Hp). by destruct (placement r). }
    assert (Hb : k ∈ (match lower, upper with
        | Some lb, Some ub => match value_key (rb_value lb), value_key (rb_value ub) with
          | Some lo, Some hi => two_sided ci lo hi | _, _ => range_both_all ci end
        | _, _ => [] end)
      <-> stored (in_both (fun l u => reaches q (PRangeBoth l u) = true)) k).
    { unfold q. destruct lower as [lb|], upper as [ub|];
        try (rewrite elem_of_nil; split; [done|]; intros (r & _ & Hp); by destruct (placement r)).
      simpl. destruct (value_key (rb_value lb)), (value_key (rb_value ub));
        rewrite ?two_sided_elem, ?both_all_elem; apply stored_iff;
        intros []; simpl; rewrite ?andb_true_iff; tauto. }
    rewrite !elem_of_app, Hl, Hu, Hb, !stored_or. apply stored_iff.
    intros p. destruct p; unfold q; cbn [reaches in_lower in_upper in_both]; intuition discriminate.
Qed.
End lookup.

(** ** What the whole index stores *)

(** The registered ids with their constraints: the contract of the index. *)
Notation Registry := (gmap K (list TableConstraint)).

Definition in_class (reg : Registry) (cols : list string) (pl : MembershipPayload) (k : K) : Prop :=
  exists cs, reg !! k = Some cs /\
    membership_of cs = {| mb_columns := cols; mb_payload := pl |}.

Definition shapes_of (cols : list string) (cs : list TableConstraint) : option (list ColumnRange) :=
  match membership_of cs with
  | {| mb_columns := c; mb_payload := MpComplex rs |} =>
      if bool_decide (c = cols) then Some rs else None
  | _ => None
  end.

(** The complex entries of a class, and their ranges on its [i]-th column. *)
Definition complex_reg (cols : list string) (reg : Registry) : gmap K (list ColumnRange) :=
  omap (shapes_of cols) reg.
Definition column_reg (i : nat) (cx : gmap K (list ColumnRange)) : gmap K ColumnRange :=
  omap (fun rs => rs !! i) cx.

Lemma column_reg_lookup i (cx : gmap K (list ColumnRange)) k :
  column_reg i cx !! k = rs ← cx !! k; rs !! i.
Proof. apply lookup_omap. Qed.

Record class_repr (class : SubsumptionClass) (cols : list string) (reg : Registry) : Prop := {
  repr_equality : forall values k, has (sub_equality class) values k
    <-> in_class reg cols (MpEquality values) k;
  repr_width : length (cx_per_column (sub_complex class)) = length cols;
  repr_len : cx_len (sub_complex class) = size (complex_reg cols reg);
  repr_columns : forall i ci, cx_per_column (sub_complex class) !! i = Some ci ->
    ci_repr ci (column_reg i (complex_reg cols reg))
}.

Record index_repr (ix : ConstraintIndex) (reg : Registry) : Prop := {
  repr_membership : ix_membership ix = membership_of <$> reg;
  repr_class : forall cols class, ix_classes ix !! cols = Some class -> class_repr class cols reg;
  repr_no_class : forall cols pl k, ix_classes ix !! cols = None -> ~ in_class reg cols pl k
}.

Lemma zip_update_lookup f columns ranges i :
  zip_update f columns ranges !! i =
  c ← columns !! i; Some (match ranges !! i with Some r => f c r | None => c end).
Proof.
  revert ranges i. induction columns as [|c columns IH]; intros [|r ranges] [|i]; simpl; try done.
  by destruct (columns !! i).
Qed.

Lemma zip_update_length f columns ranges :
  length (zip_update f columns ranges) = length columns.
Proof.
  revert ranges. induction columns as [|c columns IH]; intros [|r ranges]; simpl; auto.
Qed.

Lemma membership_of_width cs cols rs :
  membership_of cs = {| mb_columns := cols; mb_payload := MpComplex rs |} ->
  length rs = length cols.
Proof.
  unfold membership_of. destruct (classify cs); intros [= <- <-]. apply length_fmap.
Qed.

Lemma shapes_of_Some cols cs rs :
  shapes_of cols cs = Some rs
  <-> membership_of cs = {| mb_columns := cols; mb_payload := MpComplex rs |}.
Proof.
  unfold shapes_of. destruct (membership_of cs) as [c [vs|rs']].
  - split; intros [=].
  - case_bool_decide as Hc; (split; [intros [= <-]|intros [= -> <-]]); by subst.
Qed.

Lemma shapes_of_equality cols cs c vs :
  membership_of cs = {| mb_columns := c; mb_payload := MpEquality vs |} ->
  shapes_of cols cs = None.
Proof. unfold shapes_of. by intros ->. Qed.

Lemma in_class_insert reg k cs cols pl k' :
  reg !! k = None ->
  in_class (<[k:=cs]> reg) cols pl k' <->
  in_class reg cols pl k' \/
  (k' = k /\ membership_of cs = {| mb_columns := cols; mb_payload := pl |}).
Proof.
  intros Hk. unfold in_class. destruct (decide (k' = k)) as [-> |Hne].
  - rewrite lookup_insert_eq, Hk. naive_solver.
  - rewrite lookup_insert_ne by done. naive_solver.
Qed.

Lemma in_class_delete reg k cols pl k' :
  in_class (delete k reg) cols pl k' <-> in_class reg cols pl k' /\ k' <> k.
Proof.
  unfold in_class. destruct (decide (k' = k)) as [-> |Hne].
  - rewrite lookup_delete_eq. naive_solver.
  - rewrite lookup_delete_ne by done. naive_solver.
Qed.

Lemma in_class_inj reg cols cols' pl pl' k :
  in_class reg cols pl k -> in_class reg cols' pl' k -> cols = cols' /\ pl = pl'.
Proof. intros (cs & Hc & E) (cs' & Hc' & E'). simplify_eq. rewrite E in E'. by simplify_eq. Qed.

(** A class the entry does not belong to is untouched. *)
Lemma complex_reg_insert_other cols reg k cs :
  reg !! k = None -> shapes_of cols cs = None ->
  complex_reg cols (<[k:=cs]> reg) = complex_reg cols reg.
Proof.
  intros Hk Hs. unfold complex_reg. rewrite omap_insert_None by done.
  apply delete_id. by rewrite lookup_omap, Hk.
Qed.

Lemma complex_reg_delete_other cols reg k cs :
  reg !! k = Some cs -> shapes_of cols cs = None ->
  complex_reg cols (delete k reg) = complex_reg cols reg.
Proof.
  intros Hk Hs. unfold complex_reg. rewrite omap_delete.
  apply delete_id. by rewrite lookup_omap, Hk.
Qed.

Lemma class_new_repr cols reg :
  (forall pl k, ~ in_class reg cols pl k) -> class_repr (class_new (length cols)) cols reg.
Proof.
  intros Hno.
  assert (Hempty : complex_reg cols reg = ∅).
  { apply map_empty. intros k. unfold complex_reg. rewrite lookup_omap.
    destruct (reg !! k) as [cs|] eqn:Ek; [|done]. simpl.
    destruct (shapes_of cols cs) as [rs|] eqn:Es; [|done].
    apply shapes_of_Some in Es. destruct (Hno (MpComplex rs) k). by exists cs. }
  split; simpl.
  - intros values k. unfold has. rewrite lookup_empty. simpl. split; [by intros ?%not_elem_of_nil|].
    intros Hin. by destruct (Hno _ _ Hin).
  - apply length_replicate.
  - by rewrite Hempty, map_size_empty.
  - intros i ci Hi. apply lookup_replicate in Hi as [-> _]. unfold column_reg.
    rewrite Hempty, omap_empty. apply column_index_default_repr.
Qed.

(** Adding a fresh entry to its class. *)
Lemma class_insert_repr class cols reg k cs :
  class_repr class cols reg -> reg !! k = None -> mb_columns (membership_of cs) = cols ->
  class_repr
    match mb_payload (membership_of cs) with
    | MpEquality values =>
        {| sub_equality := map_push (sub_equality class) values k;
           sub_complex := sub_complex class |}
    | MpComplex ranges =>
        {| sub_equality := sub_equality class;
           sub_complex := complex_insert (sub_complex class) k ranges |}
    end cols (<[k:=cs]> reg).
Proof.
  intros [He Hw Hl Hc] Hk Hcols.
  destruct (membership_of cs) as [c [vs|rs]] eqn:Em; simpl in Hcols; subst c; simpl.
  - pose proof (shapes_of_equality cols cs _ _ Em) as Hs.
    split; simpl; rewrite ?(complex_reg_insert_other cols reg k cs) by done; try done.
    intros values k'. rewrite has_push, He, in_class_insert by done. rewrite Em. naive_solver.
  - assert (Hs : shapes_of cols cs = Some rs) by (by apply shapes_of_Some).
    assert (Hnone : complex_reg cols reg !! k = None) by (unfold complex_reg; by rewrite lookup_omap, Hk).
    assert (Hcx : complex_reg cols (<[k:=cs]> reg) = <[k:=rs]> (complex_reg cols reg)).
    { unfold complex_reg. by rewrite (omap_insert_Some _ _ _ _ rs) by done. }
    split; simpl; rewrite ?Hcx.
    + intros values k'. rewrite He, in_class_insert, Em by done. naive_solver.
    + by rewrite zip_update_length.
    + by rewrite map_size_insert_None, Hl.
    + intros i ci. rewrite zip_update_lookup.
      destruct (cx_per_column (sub_complex class) !! i) as [c|] eqn:Ei; [|done]. simpl.
      intros [= <-].
      assert (is_Some (rs !! i)) as [r Hr].
      { apply lookup_lt_is_Some. rewrite (membership_of_width cs cols rs Em), <- Hw.
        by eapply lookup_lt_Some. }
      rewrite Hr. unfold column_reg. rewrite (omap_insert_Some _ _ _ _ r) by done.
      apply column_index_insert_repr; [by apply Hc|]. by rewrite lookup_omap, Hnone.
Qed.

(** Taking an entry out of its class. *)
Lemma class_remove_repr class cols reg k cs :
  class_repr class cols reg -> reg !! k = Some cs -> mb_columns (membership_of cs) = cols ->
  class_repr
    match mb_payload (membership_of cs) with
    | MpEquality values =>
        {| sub_equality := map_retain (sub_equality class) values (other_than k);
           sub_complex := sub_complex class |}
    | MpComplex shapes =>
        {| sub_equality := sub_equality class;
           sub_complex := complex_remove (sub_complex class) k shapes |}
    end cols (delete k reg).
Proof.
  intros [He Hw Hl Hc] Hk Hcols.
  destruct (membership_of cs) as [c [vs|rs]] eqn:Em; simpl in Hcols; subst c; simpl.
  - pose proof (shapes_of_equality cols cs _ _ Em) as Hs.
    split; simpl; rewrite ?(complex_reg_delete_other cols reg k cs) by done; try done.
    intros values k'. rewrite has_retain, He, in_class_delete, other_than_true.
    apply remove_here. intros Hin ->.
    by destruct (in_class_inj _ _ _ _ _ _ Hin (ex_intro _ cs (conj Hk Em))) as [_ [= ->]].
  - assert (Hs : shapes_of cols cs = Some rs) by (by apply shapes_of_Some).
    assert (Hsome : complex_reg cols reg !! k = Some rs)
      by (unfold complex_reg; by rewrite lookup_omap, Hk).
    assert (Hcx : complex_reg cols (delete k reg) = delete k (complex_reg cols reg))
      by apply omap_delete.
    split; simpl; rewrite ?Hcx.
    + intros values k'. rewrite He, in_class_delete. apply remove_elsewhere. intros Hin ->.
      by destruct (in_class_inj _ _ _ _ _ _ Hin (ex_intro _ cs (conj Hk Em))) as [_ [=]].
    + by rewrite zip_update_length.
    + rewrite map_size_delete_Some, Hl by (by eexists). lia.
    + intros i ci. rewrite zip_update_lookup.
      destruct (cx_per_column (sub_complex class) !! i) as [c|] eqn:Ei; [|done]. simpl.
      intros [= <-].
      assert (is_Some (rs !! i)) as [r Hr].
      { apply lookup_lt_is_Some. rewrite (membership_of_width cs cols rs Em), <- Hw.
        by eapply lookup_lt_Some. }
      rewrite Hr. unfold column_reg. rewrite omap_delete.
      apply column_index_remove_repr; [by apply Hc|]. by rewrite lookup_omap, Hsome.
Qed.

Lemma class_other_insert class cols reg k cs :
  class_repr class cols reg -> reg !! k = None -> mb_columns (membership_of cs) <> cols ->
  class_repr class cols (<[k:=cs]> reg).
Proof.
  intros [He Hw Hl Hc] Hk Hne.
  assert (Hs : shapes_of cols cs = None).
  { destruct (shapes_of cols cs) as [rs|] eqn:E; [|done].
    apply shapes_of_Some in E. by rewrite E in Hne. }
  split; rewrite ?complex_reg_insert_other by done; try done.
  intros values k'. rewrite He, in_class_insert by done. split; [by left|].
  intros [?|[_ E]]; [done|]. by rewrite E in Hne.
Qed.

Lemma class_other_delete class cols reg k cs :
  class_repr class cols reg -> reg !! k = Some cs -> mb_columns (membership_of cs) <> cols ->
  class_repr class cols (delete k reg).
Proof.
  intros [He Hw Hl Hc] Hk Hne.
  assert (Hs : shapes_of cols cs = None).
  { destruct (shapes_of cols cs) as [rs|] eqn:E; [|done].
    apply shapes_of_Some in E. by rewrite E in Hne. }
  split; rewrite ?(complex_reg_delete_other cols reg k cs) by done; try done.
  intros values k'. rewrite He, in_class_delete. apply remove_elsewhere.
  intros (cs' & Hk' & E) ->. simplify_eq. by rewrite E in Hne.
Qed.

(** A class with no equality bucket and no complex entry has no entry. *)
Lemma class_empty class cols reg :
  class_repr class cols reg -> sub_equality class = ∅ -> cx_len (sub_complex class) = 0 ->
  forall pl k, ~ in_class reg cols pl k.
Proof.
  intros [He Hw Hl Hc] Hempty Hlen [values|rs] k Hin.
  - apply He in Hin. unfold has in Hin. rewrite Hempty, lookup_empty in Hin.
    by apply not_elem_of_nil in Hin.
  - rewrite Hlen in Hl. symmetry in Hl. apply map_size_empty_inv in Hl.
    destruct Hin as (cs & Hk & E%shapes_of_Some).
    assert (complex_reg cols reg !! k = Some rs) as H1 by (unfold complex_reg; by rewrite lookup_omap, Hk).
    by rewrite Hl, lookup_empty in H1.
Qed.

Lemma index_new_repr : index_repr index_new ∅.
Proof.
  split; simpl.
  - by rewrite fmap_empty.
  - by intros cols class ?%lookup_empty_Some.
  - intros cols pl k _ (cs & Hk & _). by rewrite lookup_empty in Hk.
Qed.

Lemma index_remove_repr ix reg k :
  index_repr ix reg -> index_repr (index_remove ix k) (delete k reg).
Proof.
  intros [Hm Hc Hno]. unfold index_remove. rewrite Hm, lookup_fmap.
  destruct (reg !! k) as [cs|] eqn:Ek; simpl.
  2: { by rewrite delete_id. }
  set (cols := mb_columns (membership_of cs)).
  assert (Hin : in_class reg cols (mb_payload (membership_of cs)) k).
  { exists cs. split; [done|]. by destruct (membership_of cs). }
  destruct (ix_classes ix !! cols) as [class|] eqn:Ec;
    [|by destruct (Hno cols (mb_payload (membership_of cs)) k Ec)].
  pose proof (class_remove_repr class cols reg k cs (Hc _ _ Ec) Ek eq_refl) as Hr.
  set (class' := match mb_payload (membership_of cs) with MpEquality _ => _ | MpComplex _ => _ end) in *.
  assert (Hother : forall cols' class', cols' <> cols -> ix_classes ix !! cols' = Some class' ->
    class_repr class' cols' (delete k reg)).
  { intros cols' c' Hne E. eapply class_other_delete; eauto. }
  split; simpl.
  - by rewrite fmap_delete.
  - intros cols' c'. destruct (decide (cols' = cols)) as [-> |Hne].
    + case_match; [by rewrite lookup_delete_eq|]. rewrite lookup_insert_eq. by intros [= <-].
    + case_match; [rewrite lookup_delete_ne by done|rewrite lookup_insert_ne by done];
        by apply Hother.
  - intros cols' pl k'. destruct (decide (cols' = cols)) as [-> |Hne].
    + destruct (bool_decide (sub_equality class' = ∅) && complex_is_empty (sub_complex class'))
        eqn:Ee; [|by rewrite lookup_insert_eq].
      intros _. unfold complex_is_empty in Ee. bool_hyps. apply Nat.eqb_eq in H1.
      by apply (class_empty class' cols (delete k reg)).
    + intros Hl [Hin' _]%in_class_delete.
      assert (ix_classes ix !! cols' = None) as E.
      { case_match; [by rewrite lookup_delete_ne in Hl|by rewrite lookup_insert_ne in Hl]. }
      by apply (Hno cols' pl k').
Qed.

Lemma index_insert_fresh_repr ix reg k cs :
  index_repr ix reg -> reg !! k = None ->
  index_repr (index_insert ix k cs) (<[k:=cs]> reg).
Proof.
  intros [Hm Hc Hno] Hk. unfold index_insert.
  rewrite bool_decide_false by (rewrite Hm, lookup_fmap, Hk; by intros [? [=]]).
  set (cols := mb_columns (membership_of cs)).
  set (class := default (class_new (length cols)) (ix_classes ix !! cols)).
  assert (Hclass : class_repr class cols reg).
  { unfold class. destruct (ix_classes ix !! cols) as [c|] eqn:Ec; simpl; [by apply Hc|].
    apply class_new_repr. intros pl k'. by apply Hno. }
  split; simpl.
  - by rewrite fmap_insert, Hm.
  - intros cols' c'. destruct (decide (cols' = cols)) as [-> |Hne].
    + rewrite lookup_insert_eq. intros [= <-]. by apply class_insert_repr.
    + rewrite lookup_insert_ne by done. intros E. apply class_other_insert; auto.
  - intros cols' pl k'. destruct (decide (cols' = cols)) as [-> |Hne];
      [by rewrite lookup_insert_eq|].
    rewrite lookup_insert_ne by done. intros E. rewrite in_class_insert by done.
    intros [Hin|[_ Em]]; [by apply (Hno cols' pl k')|]. apply Hne. unfold cols. by rewrite Em.
Qed.

Lemma index_insert_remove ix k cs :
  is_Some (ix_membership ix !! k) ->
  index_insert ix k cs = index_insert (index_remove ix k) k cs.
Proof.
  intros Hs. unfold index_insert. rewrite (bool_decide_true (is_Some (ix_membership ix !! k))) by done.
  rewrite bool_decide_false; [done|]. unfold index_remove.
  destruct (ix_membership ix !! k) as [mb|] eqn:E; [|by destruct Hs].
  destruct (ix_classes ix !! mb_columns mb); simpl; rewrite lookup_delete_eq; by intros [? [=]].
Qed.

Lemma index_insert_repr ix reg k cs :
  index_repr ix reg -> index_repr (index_insert ix k cs) (<[k:=cs]> reg).
Proof.
  intros Hr. destruct (reg !! k) as [old|] eqn:Ek; [|by apply index_insert_fresh_repr].
  rewrite index_insert_remove.
  - rewrite <- insert_delete_eq. apply index_insert_fresh_repr; [by apply index_remove_repr|].
    apply lookup_delete_eq.
  - rewrite (repr_membership _ _ Hr), lookup_fmap, Ek. by eexists.
Qed.

(** ** The point probe *)

Lemma insert_by_length_elem l ls x : x ∈ insert_by_length l ls <-> x = l \/ x ∈ ls.
Proof.
  induction ls as [|y ls IH]; simpl; [set_solver|].
  destruct (_ <=? _)%nat; [set_solver|]. rewrite !elem_of_cons, IH. tauto.
Qed.

Lemma sort_by_length_elem ls x : x ∈ foldr insert_by_length [] ls <-> x ∈ ls.
Proof. induction ls as [|l ls IH]; simpl; [done|]. rewrite insert_by_length_elem, IH. set_solver. Qed.

Lemma intersect_elem ls k :
  k ∈ intersect_smallest_first ls <-> ls <> [] /\ forall l, l ∈ ls -> k ∈ l.
Proof.
  unfold intersect_smallest_first.
  assert (Hfold : forall (rest : list (list K)) acc, k ∈ fold_left (fun acc column =>
      List.filter (fun fp => bool_decide (fp ∈ column)) acc) rest acc
    <-> k ∈ acc /\ forall l, l ∈ rest -> k ∈ l).
  { induction rest as [|l rest IH]; intros acc; simpl; [set_solver|].
    rewrite IH, filter_elem, bool_decide_eq_true. set_solver. }
  setoid_rewrite <- (sort_by_length_elem ls).
  assert (ls <> [] <-> foldr insert_by_length [] ls <> []) as ->.
  { destruct ls as [|l ls]; [done|]. split; [|done]. intros _ E.
    pose proof (proj2 (sort_by_length_elem (l :: ls) l) ltac:(by left)) as Hl.
    rewrite E in Hl. by apply not_elem_of_nil in Hl. }
  destruct (foldr insert_by_length [] ls) as [|first rest]; [set_solver|].
  rewrite Hfold. set_solver.
Qed.

Lemma forms_containing_elem ci m forms k :
  ci_repr ci m ->
  k ∈ forms_containing ci forms <->
  exists form r, Some form ∈ forms /\ m !! k = Some r /\ reaches form (placement r) = true.
Proof.
  intros Hr. unfold forms_containing. rewrite flat_map_elem.
  setoid_rewrite (containing_elem ci m Hr). setoid_rewrite list_elem_of_omap. unfold stored, id.
  naive_solver.
Qed.

(** Some reading of the row reaches the entry's range on every column. *)
Definition shapes_reached (forms_fn : string -> list (option ColumnRange))
    (cols : list string) (shapes : list ColumnRange) : Prop :=
  forall i c r, cols !! i = Some c -> shapes !! i = Some r ->
    exists form, Some form ∈ forms_fn c /\ reaches form (placement r) = true.

Definition tuple_reached (forms_fn : string -> list (option ColumnRange))
    (cols : list string) (values : list ValueKey) : Prop :=
  Forall2 (fun c v => key_matches (form_keys (forms_fn c)) v = true) cols values.

Lemma lookup_zip_forms {A B} (l : list A) (k : list B) i a b :
  l !! i = Some a -> k !! i = Some b -> (a, b) ∈ zip l k.
Proof.
  intros Ha Hb. apply list_elem_of_lookup. exists i. by apply lookup_zip_with_Some; eauto.
Qed.

Lemma complex_point_elem class cols reg forms_fn k :
  class_repr class cols reg -> cols <> [] ->
  k ∈ complex_candidates_point (sub_complex class) (forms_fn <$> cols) <->
  exists rs, complex_reg cols reg !! k = Some rs /\ shapes_reached forms_fn cols rs.
Proof.
  intros [_ Hw Hl Hc] Hne. set (cx := sub_complex class) in *.
  assert (Hcol : forall i ci c, cx_per_column cx !! i = Some ci -> cols !! i = Some c ->
    k ∈ forms_containing ci (forms_fn c) <-> exists rs r form, complex_reg cols reg !! k = Some rs /\
      rs !! i = Some r /\ Some form ∈ forms_fn c /\ reaches form (placement r) = true).
  { intros i ci c Hci _. rewrite (forms_containing_elem ci _ _ k (Hc i ci Hci)).
    setoid_rewrite column_reg_lookup. split.
    - intros (form & r & Hf & Hr & Hre). destruct (complex_reg cols reg !! k) as [rs|]; [|done].
      by exists rs, r, form.
    - intros (rs & r & form & -> & Hr & Hf & Hre). by exists form, r. }
  assert (Hall : (forall i ci c, cx_per_column cx !! i = Some ci -> cols !! i = Some c ->
      k ∈ forms_containing ci (forms_fn c)) <->
    exists rs, complex_reg cols reg !! k = Some rs /\ shapes_reached forms_fn cols rs).
  { split.
    - intros H1. destruct cols as [|c0 cols0]; [done|].
      destruct (cx_per_column cx) as [|ci0 cis] eqn:Ecis; [done|].
      destruct (proj1 (Hcol 0 ci0 c0 eq_refl eq_refl) (H1 0 ci0 c0 eq_refl eq_refl))
        as (rs & _ & _ & Hrs & _).
      exists rs. split; [done|]. intros i c r Hi Hr.
      assert (is_Some ((ci0 :: cis) !! i)) as [ci Hci].
      { apply lookup_lt_is_Some. rewrite Hw. by eapply lookup_lt_Some. }
      destruct (proj1 (Hcol i ci c Hci Hi) (H1 i ci c Hci Hi)) as (rs' & r' & form & E & ? & ? & ?).
      rewrite Hrs in E. injection E as <-. simplify_eq. eauto.
    - intros (rs & Hrs & Hreach) i ci c Hci Hi. apply (Hcol i ci c Hci Hi).
      assert (is_Some (rs !! i)) as [r Hr].
      { unfold complex_reg in Hrs. rewrite lookup_omap in Hrs.
        destruct (reg !! k) as [cs|]; [|done]. simpl in Hrs. apply shapes_of_Some in Hrs.
        apply lookup_lt_is_Some. rewrite (membership_of_width cs cols rs Hrs).
        by eapply lookup_lt_Some. }
      destruct (Hreach i c r Hi Hr) as (form & ? & ?). eauto 8. }
  rewrite <- Hall. clear Hall. unfold complex_candidates_point.
  destruct (Nat.eqb_spec (cx_len cx) 0) as [E0|_].
  { rewrite E0 in Hl. symmetry in Hl. apply map_size_empty_inv in Hl. split.
    - by intros ?%not_elem_of_nil.
    - intros H1. destruct cols as [|c0 cols0]; [done|].
      destruct (cx_per_column cx) as [|ci0 cis] eqn:Ecis; [done|].
      destruct (proj1 (Hcol 0 ci0 c0 eq_refl eq_refl) (H1 0 ci0 c0 eq_refl eq_refl))
        as (rs & _ & _ & Hrs & _). by rewrite Hl, lookup_empty in Hrs. }
  assert (Hmany : k ∈ intersect_smallest_first ((fun cf => forms_containing cf.1 cf.2) <$>
      zip (cx_per_column cx) (forms_fn <$> cols)) <->
    forall i ci c, cx_per_column cx !! i = Some ci -> cols !! i = Some c ->
      k ∈ forms_containing ci (forms_fn c)).
  { rewrite intersect_elem. split.
    - intros [_ H1] i ci c Hci Hi. apply H1, list_elem_of_fmap. exists (ci, forms_fn c).
      split; [done|]. apply (lookup_zip_forms _ _ i); [done|]. by rewrite list_lookup_fmap, Hi.
    - intros H1. split.
      + destruct cols as [|c0 cols0]; [done|]. by destruct (cx_per_column cx).
      + intros l Hin. apply list_elem_of_fmap in Hin as ([ci forms] & -> & Hz).
        apply list_elem_of_lookup in Hz as [i Hi].
        apply lookup_zip_with_Some in Hi as (ci' & f' & E & Hci & Hf). simplify_eq.
        rewrite list_lookup_fmap in Hf. destruct (cols !! i) as [c|] eqn:Ei; [|done].
        simpl in Hf. injection Hf as <-. by apply (H1 i). }
  destruct (cx_per_column cx) as [|c1 [|c2 cs]] eqn:Ecis; [by destruct cols| |exact Hmany].
  destruct cols as [|c0 [|c1' cols]]; [done| |done]. simpl. split.
  - intros Hk [|i] ci c Hci Hi; [by simplify_eq/=|by simplify_eq/=].
  - intros H1. by apply (H1 0).
Qed.

Lemma value_key_product_elem key_sets tuple :
  tuple ∈ value_key_product key_sets <->
  Forall2 (fun ks v => v ∈ omap id ks) key_sets tuple.
Proof.
  unfold value_key_product.
  assert (Hfold : forall acc, tuple ∈ fold_left (fun result ks =>
      flat_map (fun prefix => (fun k => prefix ++ [k]) <$> omap id ks) result) key_sets acc
    <-> exists prefix suffix, prefix ∈ acc /\ tuple = prefix ++ suffix /\
          Forall2 (fun ks v => v ∈ omap id ks) key_sets suffix).
  { induction key_sets as [|ks kss IH]; intros acc; simpl.
    - split.
      + intros Ht. exists tuple, []. rewrite app_nil_r. by repeat constructor.
      + intros (prefix & suffix & Hp & -> & Hs). inversion Hs. by rewrite app_nil_r.
    - rewrite IH. split.
      + intros (p' & suffix & (p & Hp & Hk)%flat_map_elem & -> & Hs).
        apply list_elem_of_fmap in Hk as (k & -> & Hk). exists p, (k :: suffix).
        rewrite <- app_assoc. by repeat constructor.
      + intros (p & suffix & Hp & -> & Hs). inversion Hs as [|? k ? suffix' Hk Hs']; subst.
        exists (p ++ [k]), suffix'. rewrite <- app_assoc. split_and!; [|done|done].
        apply flat_map_elem. exists p. split; [done|]. apply list_elem_of_fmap. eauto. }
  rewrite Hfold. split.
  - intros (prefix & suffix & ->%list_elem_of_singleton & -> & Hs). done.
  - intros Hs. exists [], tuple. by repeat constructor.
Qed.

Lemma keyed_iff (ks : ColumnKeys) :
  existsb (fun k => bool_decide (is_Some k)) ks = true <-> omap id ks <> [].
Proof.
  rewrite existsb_elem. setoid_rewrite bool_decide_eq_true. split.
  - intros (k & Hk & v & ->) E.
    assert (v ∈ omap id ks) as Hv by (apply list_elem_of_omap; by exists (Some v)).
    rewrite E in Hv. by apply not_elem_of_nil in Hv.
  - intros Hne. destruct (omap id ks) as [|v l] eqn:E; [done|].
    assert (v ∈ omap id ks) as Hv by (rewrite E; by left).
    apply list_elem_of_omap in Hv as (k & Hk & Hv). exists k. split; [done|]. by exists v.
Qed.

Lemma class_point_elem class cols reg forms_fn k :
  class_repr class cols reg -> (forall rs, ~ in_class reg [] (MpComplex rs) k) ->
  k ∈ class_candidates_point forms_fn cols class <->
  (exists values, in_class reg cols (MpEquality values) k /\ tuple_reached forms_fn cols values) \/
  (exists rs, in_class reg cols (MpComplex rs) k /\ shapes_reached forms_fn cols rs).
Proof.
  intros Hr Hcomplex. unfold class_candidates_point. cbv zeta. rewrite elem_of_app.
  assert (Hc : k ∈ complex_candidates_point (sub_complex class) (forms_fn <$> cols) <->
    exists rs, in_class reg cols (MpComplex rs) k /\ shapes_reached forms_fn cols rs).
  { destruct (decide (cols = [])) as [-> |Hne].
    - unfold complex_candidates_point. rewrite (proj1 (length_zero_iff_nil _) (repr_width _ _ _ Hr)).
      split; [case_match; by intros ?%not_elem_of_nil|]. by intros (rs & ?%Hcomplex & _).
    - rewrite (complex_point_elem class cols reg forms_fn k Hr Hne). unfold complex_reg.
      rewrite lookup_omap. unfold in_class. setoid_rewrite <- shapes_of_Some. split.
      + intros (rs & Hrs & Hre). destruct (reg !! k) as [cs|] eqn:Ek; [|done]. eauto.
      + intros (rs & (cs & -> & Hrs) & Hre). eauto. }
  rewrite Hc. apply or_iff_compat_r. clear Hc.
  assert (Hwidth : forall values k', in_class reg cols (MpEquality values) k' ->
    length values = length cols).
  { intros values k' (cs & _ & Em). unfold membership_of in Em.
    destruct (classify cs) as [c vs|c] eqn:Ecl; [|done]. injection Em as -> ->.
    unfold classify in Ecl. repeat case_match; simplify_eq.
    symmetry. by eapply length_mapM. }
  set (key_sets := form_keys <$> (forms_fn <$> cols)).
  assert (Hmatch : forall values, tuple_reached forms_fn cols values <->
    Forall2 (fun ks v => key_matches ks v = true) key_sets values).
  { intros values. unfold tuple_reached, key_sets. by rewrite !Forall2_fmap_l. }
  destruct (forallb (fun ks => existsb (fun k => bool_decide (is_Some k)) ks) key_sets) eqn:Eall.
  - rewrite forallb_elem in Eall. rewrite flat_map_elem.
    assert (Heq : forall values, tuple_reached forms_fn cols values <->
      values ∈ value_key_product key_sets).
    { intros values. rewrite Hmatch, value_key_product_elem.
      assert (Hks : Forall (fun ks => omap id ks <> []) key_sets).
      { apply Forall_elem. intros ks Hks. by apply keyed_iff, Eall. }
      clear -Hks. split; intros HF; induction HF as [|ks v kss vs Hk HF IH];
        apply Forall_cons_1 in Hks as [Hne Hks] || constructor; constructor; auto;
        unfold key_matches in *; destruct (omap id ks) eqn:E; try done.
      - by apply bool_decide_eq_true in Hk.
      - by apply bool_decide_eq_true. }
    split.
    + intros (tuple & Ht & Hk). exists tuple. split; [by apply (repr_equality _ _ _ Hr)|by apply Heq].
    + intros (values & Hin & Ht). exists values. split; [by apply Heq|].
      by apply (repr_equality _ _ _ Hr).
  - rewrite flat_map_elem.
    assert (Heq : forall values, length values = length cols ->
      tuple_reached forms_fn cols values <->
      forallb (fun kt => key_matches kt.1 kt.2) (zip key_sets values) = true).
    { intros values Hlen. rewrite Hmatch.
      assert (Hl : length key_sets = length values) by (unfold key_sets; by rewrite !length_fmap).
      clearbody key_sets. clear -Hl. revert values Hl.
      induction key_sets as [|ks kss IH]; intros [|v vs] Hl; simpl; [|done|done|].
      { split; [done|constructor]. }
      injection Hl as Hl. rewrite andb_true_iff, <- (IH vs Hl). split.
      - intros HF. by inversion HF.
      - intros [? ?]. by constructor. }
    split.
    + intros ([tuple fps] & Hin%elem_of_map_to_list & Hk). simpl in Hk.
      destruct (forallb _ (zip key_sets tuple)) eqn:Ef; [|by apply not_elem_of_nil in Hk].
      assert (in_class reg cols (MpEquality tuple) k) as Hc.
      { apply (repr_equality _ _ _ Hr). unfold has. by rewrite Hin. }
      exists tuple. split; [done|]. apply Heq; [|done]. by eapply Hwidth.
    + intros (values & Hin & Ht). pose proof Hin as Hh. apply (repr_equality _ _ _ Hr) in Hh.
      unfold has in Hh. destruct (sub_equality class !! values) as [fps|] eqn:Ef;
        [|by apply not_elem_of_nil in Hh].
      exists (values, fps). split; [by apply elem_of_map_to_list|]. simpl.
      apply Heq in Ht; [|by eapply Hwidth]. by rewrite Ht.
Qed.

(** ** Classification *)

Lemma insert_name_elem x l y : y ∈ insert_name x l <-> y = x \/ y ∈ l.
Proof.
  induction l as [|z l IH]; simpl; [set_solver|].
  destruct (String.compare x z) eqn:E; [|set_solver|rewrite !elem_of_cons, IH; tauto].
  apply String.compare_eq_iff in E. set_solver.
Qed.

Lemma column_set_elem l y : y ∈ column_set l <-> y ∈ l.
Proof.
  unfold column_set. induction l as [|x l IH]; simpl; [done|].
  rewrite insert_name_elem, IH. set_solver.
Qed.

(** What the classification loop has seen. *)
Lemma classify_fold cs s :
  let s' := fold_left classify_step cs s in
  (forall c, c ∈ cl_columns s' <-> c ∈ cl_columns s \/ exists tc, tc ∈ cs /\ tc_column tc = c) /\
  (forall c v, cl_equality s' !! c = Some v ->
     cl_equality s !! c = Some v \/ TcComparison c OpEqual v ∈ cs) /\
  (cl_complex s' = false -> cl_complex s = false /\
     forall tc, tc ∈ cs -> exists c v, tc = TcComparison c OpEqual v).
Proof.
  revert s. induction cs as [|tc cs IH]; intros s; simpl.
  { split_and!; [set_solver|by left|]. intros ->. split; [done|]. by intros tc ?%not_elem_of_nil. }
  destruct (IH (classify_step s tc)) as (Hcol & Heq & Hcx). clear IH. split_and!.
  - intros c. rewrite Hcol.
    assert (c ∈ cl_columns (classify_step s tc) <-> c = tc_column tc \/ c ∈ cl_columns s) as ->.
    { rewrite <- elem_of_cons.
      destruct tc as [col [] v|col vs|col t op v]; simpl; try done.
      by destruct (cl_equality s !! col). }
    split.
    + intros [[-> |Hc]|(tc' & Hin & Ht)]; [right; exists tc|by left|right; exists tc'];
        (split; [|done]); [by left|by right].
    + intros [Hc|(tc' & [-> |Hin]%elem_of_cons & Ht)]; [by left; right|by left; left|].
      right. eauto.
  - intros c v Hv. destruct (Heq c v Hv) as [Hs|Hin]; [|by right; right].
    destruct tc as [col op w|col vs|col t op w]; [|by left..].
    destruct op; try (by left).
    simpl in Hs. destruct (cl_equality s !! col) as [prev|] eqn:Ep; [by left|]. simpl in Hs.
    destruct (decide (c = col)) as [-> |Hne].
    + rewrite lookup_insert_eq in Hs. injection Hs as ->. right. by left.
    + rewrite lookup_insert_ne in Hs by done. by left.
  - intros Hc. destruct (Hcx Hc) as [Hs Htc].
    assert (cl_complex s = false /\ exists c v, tc = TcComparison c OpEqual v) as [? ?].
    { destruct tc as [col [] v|col vs|col t op v]; simpl in Hs; try done.
      destruct (cl_equality s !! col); simpl in Hs; [apply orb_false_iff in Hs as [? _]|]; eauto. }
    split; [done|]. intros tc' [-> |Hin]%elem_of_cons; eauto.
Qed.

Lemma into_columns_elem cs c :
  c ∈ into_columns (classify cs) <-> exists tc, tc ∈ cs /\ tc_column tc = c.
Proof.
  destruct (classify_fold cs {| cl_equality := ∅; cl_columns := []; cl_complex := false |})
    as (Hcol & _). simpl in Hcol.
  assert (into_columns (classify cs) = column_set (cl_columns (fold_left classify_step cs
    {| cl_equality := ∅; cl_columns := []; cl_complex := false |}))) as ->.
  { unfold classify. by repeat case_match. }
  rewrite column_set_elem, Hcol. set_solver.
Qed.

Lemma mb_columns_into cs : mb_columns (membership_of cs) = into_columns (classify cs).
Proof. unfold membership_of. by destruct (classify cs). Qed.

Lemma classify_complex_columns cs cols : classify cs = Complex cols -> cols <> [].
Proof.
  intros Hc ->. destruct cs as [|tc cs]; [done|].
  pose proof (into_columns_elem (tc :: cs) (tc_column tc)) as He. rewrite Hc in He.
  apply (not_elem_of_nil (tc_column tc)), He. exists tc. by split; [left|].
Qed.

Lemma complex_not_unconstrained reg rs k : ~ in_class reg [] (MpComplex rs) k.
Proof.
  intros (cs & _ & Em). unfold membership_of in Em.
  destruct (classify cs) as [c vs|c] eqn:E; [done|]. injection Em as ->.
  by apply classify_complex_columns in E.
Qed.

(** ** Specification of the point probe *)

Definition point_reached (forms_fn : string -> list (option ColumnRange))
    (cs : list TableConstraint) : Prop :=
  match membership_of cs with
  | {| mb_columns := cols; mb_payload := MpEquality values |} => tuple_reached forms_fn cols values
  | {| mb_columns := cols; mb_payload := MpComplex rs |} => shapes_reached forms_fn cols rs
  end.

Lemma candidates_point_elem ix reg forms_fn k :
  index_repr ix reg ->
  k ∈ candidates_point_into ix forms_fn <->
  exists cs, reg !! k = Some cs /\ point_reached forms_fn cs.
Proof.
  intros [Hm Hc Hno]. unfold candidates_point_into. rewrite flat_map_elem. split.
  - intros ([cols class] & Hin%elem_of_map_to_list & Hk). simpl in Hk.
    apply (class_point_elem class cols reg) in Hk; [|by apply Hc|].
    2: { intros rs. apply complex_not_unconstrained. }
    unfold point_reached. destruct Hk as [(values & (cs & Hcs & Em) & Ht)|(rs & (cs & Hcs & Em) & Ht)];
      exists cs; by rewrite Em.
  - intros (cs & Hcs & Hp). set (cols := mb_columns (membership_of cs)).
    assert (Hin : in_class reg cols (mb_payload (membership_of cs)) k).
    { exists cs. split; [done|]. by destruct (membership_of cs). }
    destruct (ix_classes ix !! cols) as [class|] eqn:Ec;
      [|by destruct (Hno cols (mb_payload (membership_of cs)) k Ec)].
    exists (cols, class). split; [by apply elem_of_map_to_list|]. simpl.
    apply (class_point_elem class cols reg); [by apply Hc|intros rs; apply complex_not_unconstrained|].
    unfold cols in *. unfold point_reached in Hp.
    destruct (membership_of cs) as [c [values|rs]]; simpl in *; [left|right]; eauto.
Qed.

(** Sequences of insertions and removals, and the registry they leave. *)
Inductive IndexOp := IxInsert (k : K) (cs : list TableConstraint) | IxRemove (k : K).

Definition index_apply (ix : ConstraintIndex) (op : IndexOp) : ConstraintIndex :=
  match op with IxInsert k cs => index_insert ix k cs | IxRemove k => index_remove ix k end.
Definition registry_apply (reg : Registry) (op : IndexOp) : Registry :=
  match op with IxInsert k cs => <[k := cs]> reg | IxRemove k => delete k reg end.
Definition index_run (ops : list IndexOp) : ConstraintIndex := fold_left index_apply ops index_new.
Definition registry_run (ops : list IndexOp) : Registry := fold_left registry_apply ops ∅.

Lemma index_run_repr ops : index_repr (index_run ops) (registry_run ops).
Proof.
  unfold index_run, registry_run.
  assert (Hgen : forall ix reg, index_repr ix reg ->
    index_repr (fold_left index_apply ops ix) (fold_left registry_apply ops reg)).
  { induction ops as [|op ops IH]; intros ix reg Hr; simpl; [done|]. apply IH.
    destruct op; [by apply index_insert_repr|by apply index_remove_repr]. }
  apply Hgen, index_new_repr.
Qed.

(** ** The candidate lookup: two ways to visit the classes *)

Lemma string_compare_trans a b c :
  String.compare a b = Lt -> String.compare b c = Lt -> String.compare a c = Lt.
Proof.
  revert b c. induction a as [|x a IH]; intros [|y b] [|z c]; simpl; try done.
  rewrite !ascii_compare_digit.
  destruct (Z.compare_spec (digit_value x) (digit_value y)),
    (Z.compare_spec (digit_value y) (digit_value z)); try done; intros Hab Hbc;
    destruct (Z.compare_spec (digit_value x) (digit_value z)); try done; try lia.
  by apply (IH b).
Qed.

Lemma string_compare_refl a : String.compare a a = Eq.
Proof. induction a as [|x a IH]; simpl; [done|]. by rewrite ascii_compare_digit, Z.compare_refl. Qed.

Lemma string_compare_eq a b : String.compare a b = Eq <-> a = b.
Proof. split; [apply String.compare_eq_iff|]. intros ->. apply string_compare_refl. Qed.

Lemma column_set_sorted l : StronglySorted (fun a b => String.compare a b = Lt) (column_set l).
Proof.
  unfold column_set. induction l as [|x l IH]; simpl; [constructor|].
  induction IH as [|y s Hs IHs Hy]; simpl; [by repeat constructor|].
  destruct (String.compare x y) eqn:E.
  - by constructor.
  - constructor; [by constructor|]. constructor; [done|].
    eapply Forall_impl; [|exact Hy]. intros z. simpl. by apply string_compare_trans.
  - constructor; [done|]. apply Forall_elem. intros z [-> |Hz]%insert_name_elem.
    + rewrite String.compare_antisym, E. done.
    + rewrite Forall_elem in Hy. by apply Hy.
Qed.

(** Both walks visit the classes whose columns are a sublist of the query's. *)
Lemma skip_past_sublist col other rest s :
  skip_past col other = Some rest -> s `sublist_of` rest -> col :: s `sublist_of` other.
Proof.
  revert rest. induction other as [|o other IH]; intros rest; simpl; [done|].
  case_bool_decide as Ho; [intros [= ->]; subst; by constructor|].
  intros Hs Hsub. constructor. by eapply IH.
Qed.

Lemma sublist_skip_past col s other :
  col :: s `sublist_of` other -> exists rest, skip_past col other = Some rest /\ s `sublist_of` rest.
Proof.
  induction other as [|o other IH]; intros Hs; [by inversion Hs|]. simpl.
  case_bool_decide as Ho.
  - exists other. split; [done|]. inversion Hs as [| |? ? ? Hs']; subst; [done|].
    etrans; [|exact Hs']. by constructor.
  - inversion Hs; subst; [done|]. by apply IH.
Qed.

Lemma is_subset_of_sublist self other : is_subset_of self other = true <-> self `sublist_of` other.
Proof.
  revert other. induction self as [|col self IH]; intros other; simpl.
  { split; [intros _; apply sublist_nil_l|done]. }
  split.
  - destruct (skip_past col other) as [rest|] eqn:E; [|done].
    intros Hs%IH. by eapply skip_past_sublist.
  - intros (rest & -> & Hs)%sublist_skip_past. by apply IH.
Qed.

Lemma select_mask_ext m m' i cols :
  (forall j, i <= j -> Nat.testbit m j = Nat.testbit m' j) ->
  select_mask m i cols = select_mask m' i cols.
Proof.
  revert i. induction cols as [|c cols IH]; intros i Hb; simpl; [done|].
  rewrite (Hb i) by done. rewrite (IH (S i)); [done|]. intros j Hj. apply Hb. lia.
Qed.

Lemma select_mask_sublist mask i cols : select_mask mask i cols `sublist_of` cols.
Proof.
  revert i. induction cols as [|c cols IH]; intros i; simpl; [done|].
  destruct (Nat.testbit mask i); by constructor.
Qed.

Lemma testbit_double (m : nat) (b : bool) k j :
  S k <= j -> Nat.testbit ((2 * m + Nat.b2n b) * 2 ^ k) j = Nat.testbit (m * 2 ^ S k) j.
Proof.
  intros Hj. rewrite !Nat.mul_pow2_bits_high by lia.
  replace (j - k) with (S (j - S k)) by lia.
  destruct b; simpl Nat.b2n; [apply Nat.testbit_odd_succ'|].
  rewrite Nat.add_0_r. apply Nat.testbit_even_succ'.
Qed.

Lemma sublist_select_mask s cols k :
  s `sublist_of` cols ->
  exists mask, mask < 2 ^ length cols /\ select_mask (mask * 2 ^ k) k cols = s.
Proof.
  intros Hs. revert k.
  assert (Hstep : forall (b : bool) mask c cols s k, mask < 2 ^ length cols ->
    select_mask (mask * 2 ^ S k) (S k) cols = s ->
    2 * mask + Nat.b2n b < 2 ^ length (c :: cols) /\
    select_mask ((2 * mask + Nat.b2n b) * 2 ^ k) k (c :: cols) = if b then c :: s else s).
  { intros b mask c cs s' k Hm <-. split; [simpl; destruct b; simpl; lia|]. cbn [select_mask].
    rewrite (select_mask_ext _ (mask * 2 ^ S k) (S k)) by (intros; by apply testbit_double).
    rewrite Nat.mul_pow2_bits_high, Nat.sub_diag by lia.
    by destruct b; simpl Nat.b2n; rewrite ?Nat.add_0_r, ?Nat.testbit_odd_0, ?Nat.testbit_even_0. }
  induction Hs as [|c s cols Hs IH|c s cols Hs IH]; intros k.
  - exists 0. split; [simpl; lia|done].
  - destruct (IH (S k)) as (mask & Hm & E). exists (2 * mask + Nat.b2n true).
    by apply (Hstep true mask c cols s k).
  - destruct (IH (S k)) as (mask & Hm & E). exists (2 * mask + Nat.b2n false).
    by apply (Hstep false mask c cols s k).
Qed.

Lemma powerset_elem s cols : s ∈ column_set_powerset cols <-> s `sublist_of` cols.
Proof.
  unfold column_set_powerset. rewrite list_elem_of_fmap. split.
  - intros (mask & -> & _). apply select_mask_sublist.
  - intros Hs. destruct (sublist_select_mask s cols 0 Hs) as (mask & Hm & E).
    exists mask. simpl in E. rewrite Nat.mul_1_r in E. split; [done|].
    apply elem_of_seq. lia.
Qed.

Lemma index_candidates_visit ix new k :
  k ∈ index_candidates ix new <->
  exists cols class, ix_classes ix !! cols = Some class /\
    cols `sublist_of` into_columns (classify new) /\ k ∈ subset_probe new cols class.
Proof.
  unfold index_candidates. cbv zeta. case_match; rewrite flat_map_elem.
  - setoid_rewrite powerset_elem. split.
    + intros (cols & Hs & Hk). destruct (ix_classes ix !! cols) as [class|] eqn:E; [eauto|].
      by apply not_elem_of_nil in Hk.
    + intros (cols & class & E & Hs & Hk). exists cols. by rewrite E.
  - split.
    + intros ([cols class] & Hin%elem_of_map_to_list & Hk). simpl in Hk.
      destruct (is_subset_of cols _) eqn:E; [|by apply not_elem_of_nil in Hk].
      apply is_subset_of_sublist in E. eauto.
    + intros (cols & class & E & Hs & Hk). exists (cols, class).
      split; [by apply elem_of_map_to_list|]. simpl.
      apply is_subset_of_sublist in Hs. by rewrite Hs.
Qed.

(** An entry is a candidate when its columns are among the query's and, on each,
    the lookup of the query's range reads the entry's place. *)
Definition subset_reached (new cs : list TableConstraint) : Prop :=
  match membership_of cs with
  | {| mb_columns := cols; mb_payload := MpEquality values |} =>
      mapM equal_key (column_ranges new cols) = Some values
  | {| mb_columns := cols; mb_payload := MpComplex rs |} =>
      shapes_reached (fun c => [Some (column_range_of new c)]) cols rs
  end.

Lemma complex_candidates_point_eq cx new cols :
  length (cx_per_column cx) = length cols ->
  complex_candidates cx (column_ranges new cols)
  = complex_candidates_point cx ((fun c => [Some (column_range_of new c)]) <$> cols).
Proof.
  intros Hlen. unfold complex_candidates, complex_candidates_point, column_ranges.
  destruct (cx_len cx =? 0)%nat; [done|].
  assert (Hone : forall ci r, forms_containing ci [Some r] = containing ci r).
  { intros ci r. unfold forms_containing. simpl. apply app_nil_r. }
  assert (Hzip : (fun cr => containing cr.1 cr.2) <$> zip (cx_per_column cx) (column_range_of new <$> cols)
    = (fun cf => forms_containing cf.1 cf.2) <$>
        zip (cx_per_column cx) ((fun c => [Some (column_range_of new c)]) <$> cols)).
  { clear Hlen. revert cols. induction (cx_per_column cx) as [|ci cis IH]; intros [|c cols]; try done.
    simpl. rewrite Hone. f_equal. apply IH. }
  destruct (cx_per_column cx) as [|c1 [|c2 cis]]; [done| |].
  - destruct cols as [|c [|]]; try done. simpl. by rewrite Hone.
  - destruct cols as [|c [|c' cols]]; try done.
    exact (f_equal intersect_smallest_first Hzip).
Qed.

Lemma subset_probe_elem class cols reg new k :
  class_repr class cols reg ->
  k ∈ subset_probe new cols class <->
  exists cs, reg !! k = Some cs /\ mb_columns (membership_of cs) = cols /\ subset_reached new cs.
Proof.
  intros Hr. unfold subset_probe. cbv zeta. rewrite elem_of_app.
  rewrite complex_candidates_point_eq by apply (repr_width _ _ _ Hr).
  assert (Hc : k ∈ complex_candidates_point (sub_complex class)
      ((fun c => [Some (column_range_of new c)]) <$> cols) <->
    exists rs, in_class reg cols (MpComplex rs) k /\
      shapes_reached (fun c => [Some (column_range_of new c)]) cols rs).
  { destruct (decide (cols = [])) as [-> |Hne].
    - unfold complex_candidates_point. rewrite (proj1 (length_zero_iff_nil _) (repr_width _ _ _ Hr)).
      split; [case_match; by intros ?%not_elem_of_nil|].
      by intros (rs & ?%complex_not_unconstrained & _).
    - rewrite (complex_point_elem class cols reg _ k Hr Hne). unfold complex_reg.
      rewrite lookup_omap. unfold in_class. setoid_rewrite <- shapes_of_Some. split.
      + intros (rs & Hrs & Hre). destruct (reg !! k) as [cs|] eqn:Ek; [|done]. eauto.
      + intros (rs & (cs & -> & Hrs) & Hre). eauto. }
  rewrite Hc. clear Hc. unfold subset_reached. split.
  - intros [Hk|(rs & (cs & Hcs & Em) & Hre)]; [|exists cs; by rewrite Em].
    destruct (mapM equal_key (column_ranges new cols)) as [values|] eqn:E;
      [|by apply not_elem_of_nil in Hk].
    apply (repr_equality _ _ _ Hr) in Hk as (cs & Hcs & Em). exists cs. by rewrite Em.
  - intros (cs & Hcs & Hcols & Hp). destruct (membership_of cs) as [c [values|rs]] eqn:Em;
      simpl in Hcols; subst c; [left; rewrite Hp|right].
    + apply (repr_equality _ _ _ Hr). by exists cs.
    + exists rs. split; [by exists cs|done].
Qed.

Lemma index_candidates_elem ix reg new k :
  index_repr ix reg ->
  k ∈ index_candidates ix new <->
  exists cs, reg !! k = Some cs /\
    mb_columns (membership_of cs) `sublist_of` into_columns (classify new) /\
    subset_reached new cs.
Proof.
  intros Hr. rewrite index_candidates_visit. split.
  - intros (cols & class & E & Hs & Hk).
    apply (subset_probe_elem class cols reg new k (repr_class _ _ Hr _ _ E)) in Hk
      as (cs & Hcs & <- & Hp). eauto.
  - intros (cs & Hcs & Hs & Hp). set (cols := mb_columns (membership_of cs)) in *.
    destruct (ix_classes ix !! cols) as [class|] eqn:Ec.
    + exists cols, class. split_and!; [done..|].
      apply (subset_probe_elem class cols reg new k (repr_class _ _ Hr _ _ Ec)). eauto.
    + destruct (repr_no_class _ _ Hr cols (mb_payload (membership_of cs)) k Ec).
      exists cs. split; [done|]. unfold cols. by destruct (membership_of cs).
Qed.
End index.

Arguments IndexOp : clear implicits.

(** Sublists of sorted column sets are subsets. *)
Lemma sorted_sublist (s l : list string) :
  StronglySorted (fun a b => String.compare a b = Lt) s ->
  StronglySorted (fun a b => String.compare a b = Lt) l ->
  s `sublist_of` l <-> forall c, c ∈ s -> c ∈ l.
Proof.
  intros Hs Hl. split; [intros Hsub c Hc; by eapply elem_of_sublist|].
  revert s Hs. induction Hl as [|x l Hl IH Hx]; intros s Hs Hin.
  { destruct s as [|c s]; [done|]. exfalso. apply (not_elem_of_nil c), Hin. by left. }
  destruct s as [|c s]; [apply sublist_nil_l|].
  inversion Hs as [|? ? Hs' Hc]; subst. rewrite Forall_elem in Hx, Hc.
  assert (Hcase : forall d, d ∈ c :: s -> d = x \/ d ∈ l).
  { intros d Hd. apply elem_of_cons. by apply Hin. }
  destruct (decide (c = x)) as [-> |Hne].
  - apply sublist_skip. apply IH; [done|]. intros d Hd.
    destruct (Hcase d) as [-> |?]; [by right| |done].
    specialize (Hc x Hd). by rewrite string_compare_refl in Hc.
  - assert (c ∈ l) as Hcl by (by destruct (Hcase c); [left| |]).
    apply sublist_cons. apply IH; [done|]. intros d Hd.
    destruct (Hcase d Hd) as [-> |?]; [|done]. apply elem_of_cons in Hd as [->|Hd]; [done|].
    specialize (Hc x Hd). specialize (Hx c Hcl).
    rewrite String.compare_antisym, Hc in Hx. done.
Qed.

(** ** Properties *)

(** C32: the index implements the registry for the point probe.  After any
    sequence of insertions (which replace) and removals, the probe of a row
    returns exactly the registered ids for which some reading of the row reaches
    the entry's value tuple, or its range on every constrained column: no stale
    id, no lost one. *)
Theorem index_point_exact {K} `{Countable K} (ops : list (IndexOp K))
    (forms_fn : string -> list (option ColumnRange)) (k : K) :
  k ∈ candidates_point_into (index_run ops) forms_fn <->
  exists cs, registry_run ops !! k = Some cs /\ point_reached forms_fn cs.
Proof. apply candidates_point_elem, index_run_repr. Qed.

(** The subsumption lookup visits the right classes either way.  Whether
    [candidates] enumerates the subsets of the query's columns or scans the
    classes, it returns exactly the registered ids whose constrained columns are
    all constrained by the query and whose stored shapes the query's ranges
    reach. *)
Theorem index_candidates_exact {K} `{Countable K} (ops : list (IndexOp K))
    (new : list TableConstraint) (k : K) :
  k ∈ index_candidates (index_run ops) new <->
  exists cs, registry_run ops !! k = Some cs /\
    (forall tc, tc ∈ cs -> exists tc', tc' ∈ new /\ tc_column tc' = tc_column tc) /\
    subset_reached new cs.
Proof.
  rewrite (index_candidates_elem _ _ _ _ (index_run_repr ops)).
  assert (Hsub : forall cs, mb_columns (membership_of cs) `sublist_of` into_columns (classify new)
    <-> forall tc, tc ∈ cs -> exists tc', tc' ∈ new /\ tc_column tc' = tc_column tc).
  { intros cs. rewrite mb_columns_into.
    assert (Hsorted : forall l, StronglySorted (fun a b => String.compare a b = Lt)
      (into_columns (classify l))).
    { intros l. unfold classify. repeat case_match; apply column_set_sorted. }
    rewrite sorted_sublist by apply Hsorted. setoid_rewrite into_columns_elem. split.
    - intros Hc tc Htc. apply (Hc (tc_column tc)). eauto.
    - intros Hc c (tc & Htc & <-). by apply Hc. }
  by setoid_rewrite Hsub.
Qed.
