(* ===== verification/PointProbe.v ===== *)
(** * The point probe of a replicated row

    Models [row_value_forms] of src/src/query/constraint_index/point.rs and shows
    that the probe finds every registered query whose constraints a row
    satisfies. *)

From Stdlib Require Import Ascii String.
From stdpp Require Import base list strings.
From S2P Require Import Prelude Value Ast Cast Evaluate Range Subsume Catalog.
From S2P Require Import ConstraintIndex.

(** ** Readings of a row value *)

Definition row_value_forms (table_metadata : TableMetadata) (row_data : list (option string))
    (column : string) : list (option ColumnRange) :=
  match column_store_get (tm_columns table_metadata) column with
  | None => [Some CrUnknown; None; None]
  | Some meta =>
      match row_data !! column_index meta with
      | Some (Some text) =>
          let float :=
            match parse_f64 text with
            | Some (Some n) => Some (CrEqual (LFloat n))
            | _ => None
            end in
          let boolean := (fun b => CrEqual (LBoolean b)) <$> bool_wire_text_parse text in
          [Some (CrEqual (LString text)); float; boolean]
      | _ => [Some CrUnknown; None; None]
      end
  end.

(** ** Integers as bucket keys *)

(** The nearest binary64 of a positive integer, as an integer. *)
Definition round_int (n : Z) : Z :=
  let u := (Z.log2 n - 52)%Z in
  if (u <=? 0)%Z then n else (div_half_even n (2 ^ u) * 2 ^ u)%Z.

Lemma div_half_even_1 n : div_half_even n 1 = n.
Proof. unfold div_half_even. rewrite Z.mod_1_r, Z.div_1_r. done. Qed.

Lemma div_half_even_cases n d :
  (0 < d)%Z ->
  let q := (n / d)%Z in let r := (n mod d)%Z in
  (div_half_even n d = q /\ (2 * r <= d)%Z /\ (2 * r = d -> Z.even q = true)%Z) \/
  (div_half_even n d = (q + 1)%Z /\ (d <= 2 * r)%Z /\ (2 * r = d -> Z.even q = false)%Z).
Proof.
  intros Hd q r. unfold div_half_even. fold q r.
  destruct (Z.compare_spec (2 * r) d); [|left; split_and!; lia|right; split_and!; lia].
  destruct (Z.even q) eqn:E; [left|right]; split_and!; try lia; done.
Qed.

Lemma div_half_even_le n d c : (0 < d)%Z -> (n <= c * d)%Z -> (div_half_even n d <= c)%Z.
Proof.
  intros Hd Hn. pose proof (Z.div_mod n d ltac:(lia)) as E.
  pose proof (Z.mod_pos_bound n d Hd) as Hr.
  destruct (div_half_even_cases n d Hd) as [(-> & ? & ?)|(-> & ? & ?)]; nia.
Qed.

Lemma div_half_even_ge n d c : (0 < d)%Z -> (c * d <= n)%Z -> (c <= div_half_even n d)%Z.
Proof.
  intros Hd Hn. pose proof (Z.div_mod n d ltac:(lia)) as E.
  pose proof (Z.mod_pos_bound n d Hd) as Hr.
  destruct (div_half_even_cases n d Hd) as [(-> & ? & ?)|(-> & ? & ?)]; nia.
Qed.

Lemma div_half_even_mono a b d :
  (0 < d)%Z -> (a <= b)%Z -> (div_half_even a d <= div_half_even b d)%Z.
Proof.
  intros Hd Hab. pose proof (Z.div_mod a d ltac:(lia)) as Ea.
  pose proof (Z.mod_pos_bound a d Hd) as Ha. pose proof (Z.div_mod b d ltac:(lia)) as Eb.
  pose proof (Z.mod_pos_bound b d Hd) as Hb.
  assert (a / d <= b / d)%Z as Hq by (by apply Z.div_le_mono).
  destruct (decide (a / d = b / d)%Z) as [E|Hne].
  - destruct (div_half_even_cases a d Hd) as [(-> & ? & ?)|(-> & Ha1 & Ha2)],
      (div_half_even_cases b d Hd) as [(-> & Hb1 & Hb2)|(-> & ? & ?)]; try lia.
    exfalso. assert (2 * (a mod d) = d /\ 2 * (b mod d) = d)%Z as [E1 E2] by nia.
    specialize (Ha2 E1). specialize (Hb2 E2). rewrite E in Ha2. congruence.
  - destruct (div_half_even_cases a d Hd) as [(-> & ? & ?)|(-> & ? & ?)],
      (div_half_even_cases b d Hd) as [(-> & ? & ?)|(-> & ? & ?)]; lia.
Qed.

(** Rounding stays between the powers of two around the integer. *)
Lemma round_int_bounds n :
  (0 < n)%Z -> (2 ^ Z.log2 n <= round_int n <= 2 ^ (Z.log2 n + 1))%Z.
Proof.
  intros Hn. pose proof (Z.log2_spec n Hn) as [Hlo Hhi]. rewrite <- Z.add_1_r in Hhi.
  unfold round_int. destruct (Z.leb_spec (Z.log2 n - 52) 0); [lia|].
  set (u := (Z.log2 n - 52)%Z) in *.
  assert (0 < 2 ^ u)%Z by (apply Z.pow_pos_nonneg; lia).
  assert (2 ^ Z.log2 n = 2 ^ 52 * 2 ^ u)%Z as E1 by (rewrite <- Z.pow_add_r by lia; f_equal; lia).
  assert (2 ^ (Z.log2 n + 1) = 2 ^ 53 * 2 ^ u)%Z as E2
    by (rewrite <- Z.pow_add_r by lia; f_equal; lia).
  pose proof (div_half_even_ge n (2 ^ u) (2 ^ 52) ltac:(lia) ltac:(lia)).
  pose proof (div_half_even_le n (2 ^ u) (2 ^ 53) ltac:(lia) ltac:(lia)). nia.
Qed.

Lemma round_int_mono a b : (0 < a <= b)%Z -> (round_int a <= round_int b)%Z.
Proof.
  intros [Ha Hab]. pose proof (Z.log2_le_mono a b Hab) as Hl.
  destruct (decide (Z.log2 a = Z.log2 b)) as [E|Hne].
  - unfold round_int. rewrite E. destruct (Z.leb_spec (Z.log2 b - 52) 0); [done|].
    assert (0 < 2 ^ (Z.log2 b - 52))%Z by (apply Z.pow_pos_nonneg; lia).
    pose proof (div_half_even_mono a b (2 ^ (Z.log2 b - 52)) ltac:(lia) Hab). nia.
  - pose proof (round_int_bounds a Ha) as [_ H1].
    pose proof (round_int_bounds b ltac:(lia)) as [H2 _].
    assert (2 ^ (Z.log2 a + 1) <= 2 ^ Z.log2 b)%Z by (apply Z.pow_le_mono_r; lia). lia.
Qed.

Lemma round_positive_int n :
  (0 < n < 2 ^ 1000)%Z -> round_positive n 1 = F64Fin (Qc_of_Z (round_int n)).
Proof.
  intros Hn. pose proof (Z.log2_spec n ltac:(lia)) as [Hlo _].
  pose proof (Z.log2_nonneg n) as Hk.
  assert (Z.log2 n < 1000)%Z as Hk' by (apply Z.log2_lt_pow2; lia).
  unfold round_positive. change (Z.log2 1) with 0%Z. rewrite Z.sub_0_r.
  destruct (Z.leb_spec 0 (Z.log2 n)); [|lia]. rewrite Z.mul_1_l.
  destruct (Z.leb_spec (2 ^ Z.log2 n) n); [|lia].
  replace (Z.max (Z.log2 n - 52) (-1074)) with (Z.log2 n - 52)%Z by lia.
  pose proof (round_int_bounds n ltac:(lia)) as [_ Hb]. unfold round_int in *.
  set (u := (Z.log2 n - 52)%Z) in *. destruct (Z.leb_spec 0 u), (Z.leb_spec u 0); try lia.
  - assert (u = 0)%Z as -> by lia. rewrite Z.mul_1_l, div_half_even_1, Z.mul_1_r.
    destruct (Z.leb_spec (2 ^ 1024) n); [|done].
    assert (2 ^ 1000 < 2 ^ 1024)%Z by (by vm_compute). lia.
  - rewrite Z.mul_1_l. destruct (Z.leb_spec (2 ^ 1024) (div_half_even n (2 ^ u) * 2 ^ u)); [|done].
    assert (2 ^ (Z.log2 n + 1) <= 2 ^ 1000)%Z by (apply Z.pow_le_mono_r; lia).
    assert (2 ^ 1000 < 2 ^ 1024)%Z by (by vm_compute). lia.
  - rewrite div_half_even_1. f_equal. apply Qc_is_canon. simpl.
    rewrite !Qred_correct. unfold Qeq. simpl.
    rewrite Z2Pos.id by (apply Z.pow_pos_nonneg; lia). lia.
Qed.

(** The binary64 of any [i64], as an integer. *)
Definition i64_round (z : Z) : Z :=
  match z with Z0 => 0 | Zpos p => round_int (Zpos p) | Zneg p => - round_int (Zpos p) end.

Lemma round_f64_int z :
  i64_range z -> round_f64 (inject_Z z) = F64Fin (Qc_of_Z (i64_round z)).
Proof.
  unfold i64_range, i64_min, i64_max. intros Hz.
  assert (2 ^ 64 < 2 ^ 1000)%Z as H64 by (by vm_compute).
  destruct z as [|p|p]; unfold round_f64, inject_Z, i64_round; cbn [Qnum Qden].
  - by apply f_equal, Qc_is_canon.
  - rewrite round_positive_int; [done|]. lia.
  - rewrite round_positive_int by lia. simpl. f_equal. apply Qc_is_canon. simpl.
    by rewrite !Qred_correct.
Qed.

Lemma i64_round_mono a b : (a <= b)%Z -> (i64_round a <= i64_round b)%Z.
Proof.
  assert (Hpos : forall p, (0 < round_int (Zpos p))%Z).
  { intros p. pose proof (round_int_bounds (Zpos p) ltac:(lia)) as [H _].
    assert (0 < 2 ^ Z.log2 (Zpos p))%Z by (apply Z.pow_pos_nonneg; [lia|apply Z.log2_nonneg]). lia. }
  intros Hab. destruct a as [|p|p], b as [|q|q]; simpl; try lia;
    try (pose proof (Hpos p)); try (pose proof (Hpos q)); try lia.
  - apply round_int_mono. lia.
  - assert (round_int (Zpos q) <= round_int (Zpos p))%Z by (apply round_int_mono; lia). lia.
Qed.

(** An integer's text reads as a number, and as its binary64. *)
Lemma scan_digits_text fuel n acc c :
  (0 <= n < 10 ^ Z.of_nat fuel)%Z -> (fuel <> 0)%nat ->
  exists c', (c < c')%nat /\ scan_digits (digits_text fuel n acc) 0 c = scan_digits acc n c'.
Proof.
  revert n acc. induction fuel as [|fuel IH]; intros n acc Hn Hf; [done|].
  rewrite Nat2Z.inj_succ, Z.pow_succ_r in Hn by lia.
  assert (0 <= n mod 10 < 10)%Z as Hm by (apply Z.mod_pos_bound; lia).
  destruct (digit_text _ Hm) as [Hd Hv]. cbn [digits_text].
  assert (Hstep : forall m k, scan_digits (String (ascii_of_N (Z.to_N (n mod 10) + 48)) acc) m k
    = scan_digits acc (10 * m + n mod 10) (S k)).
  { intros m k. cbn [scan_digits]. by rewrite Hd, Hv. }
  destruct (Z.ltb_spec n 10).
  - exists (S c). rewrite Hstep, Z.mod_small by lia. split; [lia|]. f_equal; lia.
  - destruct fuel as [|fuel]; [simpl in Hn; lia|].
    destruct (IH (n / 10)%Z (String (ascii_of_N (Z.to_N (n mod 10) + 48)) acc)) as (c' & Hc & ->);
      [|done|].
    { split; [apply Z.div_pos; lia|apply Z.div_lt_upper_bound; lia]. }
    exists (S c'). rewrite Hstep. split; [lia|].
    f_equal. rewrite (Z.div_mod n 10) at 3; lia.
Qed.

Lemma parse_unsigned_text n :
  (0 <= n < 10 ^ 20)%Z ->
  parse_unsigned_f64 (digits_text 20 n "") = Some (Some (round_f64 (inject_Z n))).
Proof.
  intros Hn. unfold parse_unsigned_f64, parse_decimal.
  destruct (scan_digits_text 20 n "" 0 Hn) as (c & Hc & ->); [done|]. cbn [scan_digits].
  destruct (Nat.eqb_spec (c + 0) 0); [lia|]. cbn. by rewrite Z.mul_1_r.
Qed.

Lemma f64_neg_round n : (0 < n)%Z -> f64_neg (round_f64 (inject_Z n)) = round_f64 (inject_Z (- n)).
Proof. by destruct n. Qed.

Lemma parse_f64_text z :
  i64_range z -> parse_f64 (i64_text z) = Some (Some (round_f64 (inject_Z z))).
Proof.
  unfold i64_range, i64_min, i64_max. intros Hz. unfold i64_text.
  destruct (Z.ltb_spec z 0).
  - unfold parse_f64. rewrite parse_unsigned_text by lia. simpl option_map.
    rewrite f64_neg_round by lia. by rewrite Z.opp_involutive.
  - destruct (digits_text_head 20 z "") as (a & s & E & Ha); [lia..|].
    pose proof (parse_unsigned_text z ltac:(lia)) as Hp. rewrite E in *.
    rewrite <- Hp. unfold parse_f64.
    clear -Ha. destruct a as [[] [] [] [] [] [] [] []]; done.
Qed.

(** ** Readings that decide a column's comparisons *)

(** One of the readings [forms] gives a bucket key ordered against the keys of the
    column's literals as the value is against the literals. *)
Definition forms_read {V} `{!PgCompare V} `{!PgColumn V} (forms : list (option ColumnRange))
    (v : V) : Prop :=
  exists lf kf, Some (CrEqual lf) ∈ forms /\ value_key lf = Some kf /\
    forall l, pg_literal l -> exists kl, value_key l = Some kl /\
      match pg_cmp v l with
      | Eq => kf = kl
      | Lt => value_key_le kf kl = true
      | Gt => value_key_le kl kf = true
      end.

Lemma value_key_le_refl k : value_key_le k k = true.
Proof.
  unfold value_key_le. destruct k as [f|s|b]; simpl.
  - by rewrite (proj2 (f64_cmp_eq f f) eq_refl).
  - by rewrite string_compare_refl.
  - by destruct b.
Qed.

Section reading.
Context {V : Type} `{!PgCompare V} `{!PgColumn V}.

Lemma mapM_value_key_elem (l : list LiteralValue) x kx :
  Forall (fun l => is_Some (value_key l)) l -> x ∈ l -> value_key x = Some kx ->
  exists keys, mapM value_key l = Some keys /\ kx ∈ keys.
Proof.
  intros Hl Hx Hk. destruct (mapM value_key l) as [keys|] eqn:E.
  - exists keys. split; [done|]. apply mapM_Some in E.
    apply list_elem_of_lookup in Hx as [i Hi].
    destruct (Forall2_lookup_l _ _ _ _ _ E Hi) as (k & Hki & Hk').
    apply list_elem_of_lookup. exists i. congruence.
  - apply mapM_None in E. rewrite Exists_exists in E. destruct E as (y & Hy & Hn).
    apply list_elem_of_In in Hy.
    rewrite Forall_elem in Hl. destruct (Hl y Hy) as [? Hs]. congruence.
Qed.

(** A value in a range is reached through such a reading. *)
Lemma range_mem_reached forms (v : V) r :
  forms_read forms v -> Forall pg_literal (range_literals r) -> range_mem v r ->
  exists form, Some form ∈ forms /\ reaches form (placement r) = true.
Proof.
  intros (lf & kf & Hf & Hkf & Hlaw) Hlit Hm. exists (CrEqual lf). split; [done|].
  assert (Hreach : reach_key kf (placement r) = true).
  2: { unfold reaches. rewrite Hkf. by destruct (placement r). }
  destruct r as [| | |x|s|lo up ne]; try done; simpl in Hlit, Hm |- *.
  - apply Forall_cons_1 in Hlit as [Hx _]. destruct (Hlaw x Hx) as (kx & -> & Hc).
    rewrite Hm in Hc. simpl. by apply bool_decide_eq_true.
  - destruct Hm as (x & Hx & Hv). apply elem_of_elements in Hx.
    rewrite Forall_elem in Hlit. destruct (Hlaw x (Hlit x Hx)) as (kx & Hkx & Hc).
    rewrite Hv in Hc. subst kx.
    destruct (mapM_value_key_elem (elements s) x kf) as (keys & -> & Hin); [|done..|].
    + apply Forall_elem. intros y Hy. destruct (Hlaw y (Hlit y Hy)) as (k & ? & _). by exists k.
    + simpl. by apply bool_decide_eq_true.
  - apply Forall_app in Hlit as [Hb _]. unfold view_bounds in Hb. simpl in Hb.
    apply Forall_app in Hb as [Hlo Hup]. destruct Hm as (Hml & Hmu & _). simpl in Hml, Hmu.
    assert (Hlower : forall b, lo = Some b -> exists kl, value_key (rb_value b) = Some kl /\
      value_key_le kl kf = true).
    { intros b ->. simpl in Hlo. apply Forall_cons_1 in Hlo as [Hlb _].
      destruct (Hlaw _ Hlb) as (kl & Hkl & Hc). exists kl. split; [done|].
      simpl in Hml. unfold bound_sat, admits in Hml. simpl in Hml.
      destruct (pg_cmp v (rb_value b)); try done. subst. apply value_key_le_refl. }
    assert (Hupper : forall b, up = Some b -> exists ku, value_key (rb_value b) = Some ku /\
      value_key_le kf ku = true).
    { intros b ->. simpl in Hup. apply Forall_cons_1 in Hup as [Hub _].
      destruct (Hlaw _ Hub) as (ku & Hku & Hc). exists ku. split; [done|].
      simpl in Hmu. unfold bound_sat, admits in Hmu. simpl in Hmu.
      destruct (pg_cmp v (rb_value b)); try done. subst. apply value_key_le_refl. }
    destruct lo as [lb|], up as [ub|]; try done;
      try (destruct (Hlower _ eq_refl) as (kl & -> & Hkl));
      try (destruct (Hupper _ eq_refl) as (ku & -> & Hku)); simpl; try done.
    by rewrite Hkl, Hku.
Qed.
End reading.

(** ** The probe finds every satisfied query *)

Section probe.
Context (V : BucketKey -> Type).
Context `{Hcmp : forall k, PgCompare (V k)} `{Hcol : forall k, PgColumn (V k)}.

(** The readings of a row: every column has one, and those of a column that is
    not NULL decide its comparisons. *)
Definition row_forms_read (forms_fn : string -> list (option ColumnRange)) (row : Row V) : Prop :=
  forall c, (exists form, Some form ∈ forms_fn c) /\
    forall v, row (c, None) = Some v -> forms_read (forms_fn c) v.

Lemma column_shape_reached forms_fn row cs c :
  row_forms_read forms_fn row -> constraints_typed V cs ->
  (forall k, order_decided (set_literals (bucket_of cs k)) (bound_literals (bucket_of cs k))) ->
  Forall (fun tc => row_sat V row tc = true) cs ->
  (exists tc, tc ∈ cs /\ tc_column tc = c) ->
  exists form, Some form ∈ forms_fn c /\
    reaches form (placement (column_range_of cs c)) = true.
Proof.
  intros Hforms Htyped Hdec Hrow (tc & Htc & Hc). destruct (Hforms c) as [[form Hform] Hread].
  unfold column_range_of. set (on_col := List.filter _ cs).
  assert (Hopaque : forall r, placement r = POpaque ->
    exists form, Some form ∈ forms_fn c /\ reaches form (placement r) = true).
  { intros r ->. by exists form. }
  destruct (existsb is_cast on_col) eqn:Ecast; [by apply Hopaque|].
  assert (Hbucket : on_col = bucket_of cs (c, None)).
  { unfold on_col, bucket_of. rewrite existsb_false in Ecast. unfold on_col in Ecast.
    clear -Ecast. induction cs as [|t cs IH]; simpl in *; [done|].
    case_bool_decide as Ht.
    - rewrite bool_decide_true.
      + f_equal. apply IH. intros x Hx. apply Ecast. by right.
      + assert (is_cast t = false) as Hcast by (apply Ecast; by left).
        unfold tc_column in Ht. destruct t; simpl in *; by subst.
    - rewrite bool_decide_false; [by apply IH|].
      intros E. apply Ht. unfold tc_column. by rewrite E. }
  rewrite Hbucket.
  assert (Hin : tc ∈ bucket_of cs (c, None)).
  { rewrite <- Hbucket. apply filter_elem. split; [done|]. by apply bool_decide_eq_true. }
  pose proof Hin as Hk. apply filter_elem in Hk as [_ Hk]. bool_hyps.
  destruct (row (c, None)) as [v|] eqn:Ev.
  2: { rewrite Forall_elem in Hrow. specialize (Hrow tc Htc). unfold row_sat in Hrow.
       by rewrite Hk, Ev in Hrow. }
  destruct (column_range_build_sources (bucket_of cs (c, None))) as [Hsrc _].
  assert (Hlit : Forall (@pg_literal (V (c, None)) _ _)
    (range_literals (column_range_build (bucket_of cs (c, None))))).
  { pose proof (Htyped (c, None)) as Ht. rewrite Forall_elem in Ht.
    eapply Forall_impl; [|exact Hsrc]. simpl. auto. }
  assert (Hdec_unknown : forall r, r = CrUnknown \/ r <> CrUnknown) by (intros []; auto).
  destruct (Hdec_unknown (column_range_build (bucket_of cs (c, None)))) as [->|Hknown];
    [by apply Hopaque|].
  apply (range_mem_reached (forms_fn c) v); [by apply Hread|done|].
  apply column_range_build_mem; [apply Htyped|apply Hdec|done|].
  by apply (bucket_of_sat V row cs (c, None) v).
Qed.

Lemma point_reached_row forms_fn row cs :
  row_forms_read forms_fn row -> constraints_typed V cs ->
  (forall k, order_decided (set_literals (bucket_of cs k)) (bound_literals (bucket_of cs k))) ->
  Forall (fun tc => row_sat V row tc = true) cs -> point_reached forms_fn cs.
Proof.
  intros Hforms Htyped Hdec Hrow. unfold point_reached.
  destruct (membership_of cs) as [cols [values|rs]] eqn:Em.
  - unfold membership_of in Em. destruct (classify cs) as [c' vs'|] eqn:Ecl; [|done].
    injection Em as -> ->. unfold tuple_reached.
    destruct (classify_fold cs {| cl_equality := ∅; cl_columns := []; cl_complex := false |})
      as (_ & Heq & _).
    unfold classify in Ecl. cbv zeta in Ecl.
    set (s := fold_left classify_step cs _) in *.
    destruct (negb (cl_complex s) && (size (cl_equality s) =? length (column_set (cl_columns s)))%nat);
      [|done].
    destruct (mapM _ (column_set (cl_columns s))) as [values'|] eqn:Emap; [|done].
    injection Ecl as <- <-. apply mapM_Some in Emap.
    eapply Forall2_impl; [|exact Emap]. intros c v Hv. simpl in Hv.
    destruct (cl_equality s !! c) as [l|] eqn:El; [|done]. simpl in Hv.
    destruct (Heq c l El) as [Habs|Hin]; [done|].
    rewrite Forall_elem in Hrow. pose proof (Hrow _ Hin) as Hsat. unfold row_sat in Hsat. simpl in Hsat.
    destruct (row (c, None)) as [x|] eqn:Ex; [|done].
    destruct (Hforms c) as [_ Hread]. destruct (Hread x Ex) as (lf & kf & Hf & Hkf & Hlaw).
    assert (Hpl : pg_literal (V := V (c, None)) l).
    { pose proof (Htyped (c, None)) as Ht. rewrite Forall_elem in Ht. apply Ht, flat_map_elem.
      exists (TcComparison c OpEqual l). split; [|by left].
      apply filter_elem. split; [done|]. by apply bool_decide_eq_true. }
    destruct (Hlaw l Hpl) as (kl & Hkl & Hc). rewrite Hkl in Hv. injection Hv as ->.
    unfold comparison_sat in Hsat. simpl in Hsat.
    destruct (pg_cmp x l) eqn:Ecmp; try done. subst kf.
    unfold key_matches. assert (Hmem : v ∈ omap id (form_keys (forms_fn c))).
    { apply list_elem_of_omap. exists (Some v). split; [|done]. unfold form_keys.
      apply list_elem_of_fmap. exists (Some (CrEqual lf)). split; [|done]. simpl. by rewrite Hkf. }
    destruct (omap id (form_keys (forms_fn c))); [done|]. by apply bool_decide_eq_true.
  - unfold membership_of in Em. destruct (classify cs) as [|c'] eqn:Ecl; [done|].
    injection Em as -> <-. intros i c r Hi Hr. unfold column_ranges in Hr.
    rewrite list_lookup_fmap, Hi in Hr. injection Hr as <-.
    apply (column_shape_reached forms_fn row cs c); try done.
    apply into_columns_elem. rewrite Ecl. by eapply list_elem_of_lookup_2.
Qed.
End probe.

(** ** Columns *)

(** An [i64] column: literals within the type's range. *)
Module I64Column.
Import IntColumn.

Definition i64_literal (l : LiteralValue) : Prop := exists i, l = LInteger i /\ i64_range i.

Definition i64_column : PgColumn Z.
Proof.
  refine (Build_PgColumn Z _ i64_literal _ _).
  - intros v a b c (i & -> & _) (j & -> & _) [= <-]. apply Z_comp_chain.
  - intros v a b (i & -> & _) (j & -> & _). by intros <-%Z.compare_eq <-%Z.compare_eq.
Defined.

Lemma i64_key_order a b :
  i64_range a -> i64_range b ->
  match Z.compare a b with
  | Eq => VkNum (round_f64 (inject_Z a)) = VkNum (round_f64 (inject_Z b))
  | Lt => value_key_le (VkNum (round_f64 (inject_Z a))) (VkNum (round_f64 (inject_Z b))) = true
  | Gt => value_key_le (VkNum (round_f64 (inject_Z b))) (VkNum (round_f64 (inject_Z a))) = true
  end.
Proof.
  intros Ha Hb.
  assert (Hle : forall x y, i64_range x -> i64_range y -> (x <= y)%Z ->
    value_key_le (VkNum (round_f64 (inject_Z x))) (VkNum (round_f64 (inject_Z y))) = true).
  { intros x y Hx Hy Hxy. unfold value_key_le. simpl. rewrite !round_f64_int by done. simpl.
    rewrite Qc_of_Z_compare. pose proof (i64_round_mono x y Hxy) as Hm.
    by destruct (Z.compare_spec (i64_round x) (i64_round y)); [| |lia]. }
  destruct (Z.compare_spec a b) as [-> | |]; [done|..]; apply Hle; done || lia.
Qed.
End I64Column.

(** A boolean column: equality tests only have an order to agree with. *)
Module BoolColumn.
#[export] Instance bool_compare : PgCompare bool := fun v l =>
  match l with LBoolean b => bool_cmp v b | _ => Lt end.

Definition bool_literal (l : LiteralValue) : Prop := exists b, l = LBoolean b.

Definition bool_column : PgColumn bool.
Proof.
  refine (Build_PgColumn bool _ bool_literal _ _).
  - by intros v a b c [i ->] [j ->].
  - intros v a b [i ->] [j ->]. unfold pg_cmp, bool_compare. by destruct v, i, j.
Defined.
End BoolColumn.

Section columns.
Context (table : TableMetadata) (row_data : list (option string)) (column text : string).
Context (meta : ColumnMetadata).
Hypothesis column_found : column_store_get (tm_columns table) column = Some meta.
Hypothesis value_present : row_data !! column_index meta = Some (Some text).

Lemma row_value_forms_present :
  row_value_forms table row_data column =
  [Some (CrEqual (LString text));
   match parse_f64 text with Some (Some n) => Some (CrEqual (LFloat n)) | _ => None end;
   (fun b => CrEqual (LBoolean b)) <$> bool_wire_text_parse text].
Proof using All. unfold row_value_forms. by rewrite column_found, value_present. Qed.

Lemma text_forms_read (s : string) :
  text = s ->
  @forms_read string (text_compare String.compare)
    (text_column String.compare string_compare_eq) (row_value_forms table row_data column) s.
Proof using All.
  intros <-. rewrite row_value_forms_present. exists (LString text), (VkStr text).
  split; [by left|]. split; [done|]. intros l [t ->]. exists (VkStr t). split; [done|].
  unfold pg_cmp, text_compare, value_key_le. simpl.
  destruct (String.compare text t) eqn:E; [|done|].
  - f_equal. by apply String.compare_eq_iff.
  - by rewrite String.compare_antisym, E.
Qed.

Lemma int_forms_read (z : Z) :
  i64_range z -> text = i64_text z ->
  @forms_read Z _ I64Column.i64_column (row_value_forms table row_data column) z.
Proof using All.
  intros Hz Htext. rewrite row_value_forms_present. rewrite Htext, parse_f64_text by done.
  exists (LFloat (round_f64 (inject_Z z))), (VkNum (round_f64 (inject_Z z))).
  split; [right; by left|]. split; [done|]. intros l (i & -> & Hi).
  exists (VkNum (round_f64 (inject_Z i))). split; [done|].
  by apply I64Column.i64_key_order.
Qed.

Lemma bool_forms_read (b : bool) :
  text = (if b then "t" else "f")%string ->
  @forms_read bool _ BoolColumn.bool_column (row_value_forms table row_data column) b.
Proof using All.
  intros Htext. rewrite row_value_forms_present. exists (LBoolean b), (VkBool b).
  split; [|split; [done|]].
  - right; right. rewrite Htext. destruct b; by left.
  - intros l [c ->]. exists (VkBool c). split; [done|]. by destruct b, c.
Qed.
End columns.

(** ** Properties *)

(** C33: the probe of a row finds every query the row matches. Whatever was registered and
    removed before, take an entry whose constraints are over columns ordered as their
    literals say ([constraints_typed]), with IN-list literals ordered against the bounds on
    the same column ([order_decided]), and readings of the row that decide the comparisons
    of its columns ([row_forms_read]). If the row satisfies all the entry's constraints,
    the entry is among the candidates. (Text bounds under a collation other than C are
    outside these conditions.) *)
Theorem point_probe_complete {K} `{Countable K} (V : BucketKey -> Type)
    `{Hcmp : forall k, PgCompare (V k)} `{Hcol : forall k, PgColumn (V k)}
    (ops : list (IndexOp K)) (forms_fn : string -> list (option ColumnRange)) (row : Row V)
    (k : K) (cs : list TableConstraint)
    (Hregistered : registry_run ops !! k = Some cs)
    (Hforms : row_forms_read V forms_fn row)
    (Htyped : constraints_typed V cs)
    (Hdecided : forall b, order_decided (set_literals (bucket_of cs b))
                            (bound_literals (bucket_of cs b)))
    (Hrow : Forall (fun tc => row_sat V row tc = true) cs) :
  k ∈ candidates_point_into (index_run ops) forms_fn.
Proof.
  apply (candidates_point_elem _ _ _ _ (index_run_repr ops)). exists cs.
  split; [done|]. by apply (point_reached_row V forms_fn row).
Qed.

(** The readings of a replicated value decide its column's comparisons.  For a
    value present in the row, [row_value_forms] gives one reading ordered against
    the keys of the column's literals as the value is against the literals: for
    text under the byte order, for booleans, and for every [i64], although keys
    are binary64 and integers past [2 ^ 53] share them. *)
Theorem row_value_forms_decide (table : TableMetadata) (row_data : list (option string))
    (column text : string) (meta : ColumnMetadata)
    (Hcolumn : column_store_get (tm_columns table) column = Some meta)
    (Hvalue : row_data !! column_index meta = Some (Some text)) :
  @forms_read string (text_compare String.compare)
    (text_column String.compare string_compare_eq) (row_value_forms table row_data column) text /\
  (forall b : bool, text = (if b then "t" else "f")%string ->
     @forms_read bool _ BoolColumn.bool_column (row_value_forms table row_data column) b) /\
  (forall z, i64_range z -> text = i64_text z ->
     @forms_read Z _ I64Column.i64_column (row_value_forms table row_data column) z).
Proof.
  split_and!.
  - by apply (text_forms_read table row_data column text meta).
  - intros b. by apply (bool_forms_read table row_data column text meta).
  - intros z. by apply (int_forms_read table row_data column text meta).
Qed.

(** ** Witnesses *)

Module ProbeWitness.
Import IntColumn I64Column.

Definition id_meta : ColumnMetadata :=
  {| cm_name := "id"; cm_position := 1; cm_type_oid := 20; cm_data_type := TInt8;
     cm_type_name := "int8"; cm_cache_type_name := "int8"; cm_is_primary_key := true |}.
Definition the_table : TableMetadata :=
  {| tm_relation_oid := 1; tm_name := "t"; tm_schema := "public";
     tm_primary_key_columns := ["id"]; tm_columns := column_store_new [id_meta];
     tm_replica_identity_full := false |}.
(** [2 ^ 53 + 1], which no binary64 represents. *)
Definition big : Z := (2 ^ 53 + 1)%Z.
Definition big_row : list (option string) := [Some (i64_text big)].

Lemma big_range : i64_range big.
Proof. by split. Qed.

Lemma row_value_forms_decide_witness :
  @forms_read Z _ i64_column (row_value_forms the_table big_row "id") big.
Proof.
  refine (proj2 (proj2 (row_value_forms_decide the_table big_row "id" (i64_text big) id_meta
    eq_refl eq_refl)) big big_range eq_refl).
Defined.

Definition id_domain : BucketKey -> Type := fun _ => Z.
Definition id_columns : forall k, PgColumn (id_domain k) := fun _ => i64_column.

(** [WHERE id > 2 ^ 53 AND id <> 5], registered, replaced and probed *)
Definition big_cs : list TableConstraint :=
  [TcComparison "id" OpGreaterThan (LInteger (2 ^ 53));
   TcComparison "id" OpNotEqual (LInteger 5)].
Definition the_ops : list (IndexOp nat) :=
  [IxInsert 1 []; IxInsert 2 [TcComparison "id" OpEqual (LInteger 9)]; IxRemove 2;
   IxInsert 1 big_cs].
Definition big_forms : string -> list (option ColumnRange) := fun _ =>
  row_value_forms the_table big_row "id".

Lemma point_probe_complete_witness :
  1 ∈ candidates_point_into (index_run the_ops) big_forms.
Proof.
  assert (Hlits : forall tc l, tc ∈ big_cs -> l ∈ constraint_literals tc -> i64_literal l).
  { intros tc l [-> | ->%list_elem_of_singleton]%elem_of_cons ->%list_elem_of_singleton;
      (eexists; split; [done|by split]). }
  apply (point_probe_complete id_domain (Hcol := id_columns) the_ops big_forms (fun _ => Some big)
    1 big_cs).
  - reflexivity.
  - intros c. split; [by exists (CrEqual (LString (i64_text big))); left|].
    intros v [= <-]. apply (int_forms_read the_table big_row "id" (i64_text big) id_meta); try done.
  - intros b. apply Forall_elem. intros l (tc & [Htc _]%filter_elem & Hl)%flat_map_elem.
    by apply (Hlits tc).
  - intros b l l' (tc & [Htc _]%filter_elem & Hl)%flat_map_elem.
    exfalso. by apply elem_of_cons in Htc as [-> | ->%list_elem_of_singleton]; apply not_elem_of_nil in Hl.
  - by repeat constructor.
Defined.
End ProbeWitness.
