(* ===== verification/UpdateQuery.v ===== *)
(** * Update queries of a relation

    Models src/src/cache/update_query.rs: the per-table [UpdateQuery] derived from
    a cached query, and the [UpdateQueries] of a relation with its indexes,
    carve-out sets and refcounted column unions.  Registration
    ([update_queries_register] of writer/registration/resolve.rs) and removal
    ([update_queries_remove_fingerprint] of types.rs) are the two ways a relation's
    collection changes.

    The SQL template of an update query ([pg_eval_template]) is not modelled: it is
    text handed to the cache database. *)

From S2P Require Import Prelude Value Ast Range Subsume Evaluate ConstraintIndex.

Definition Fingerprint : Type := N.

(** ** Data *)

Inductive UpdateEvalStrategy := LocalEval | PgEval.

Record OrderByKey := {
  ok_column : string;
  ok_descending : bool;
  ok_nulls_first : bool
}.

Record ColumnChange := {
  cc_changed : bool;
  cc_old_less_than_new : option bool;
  cc_old_is_null : bool
}.

Notation RowChanges := (gmap string ColumnChange).

Inductive UpdateQuerySource :=
| UsFromClause
| UsSubquery (kind : SubqueryKind)
| UsOuterJoinTerminal
| UsOuterJoinOptional.

#[export] Instance SubqueryKind_eq_dec : EqDecision SubqueryKind.
Proof. solve_decision. Defined.
#[export] Instance UpdateQuerySource_eq_dec : EqDecision UpdateQuerySource.
Proof. solve_decision. Defined.

Record UpdateQuery := {
  uq_fingerprint : Fingerprint;
  uq_resolved : ResolvedQueryExpr;
  uq_source : UpdateQuerySource;
  uq_constraints : QueryConstraints;
  uq_has_limit : bool;
  uq_eval_strategy : UpdateEvalStrategy;
  uq_limit_window_columns : gset string;
  uq_order_by_keys : option (list OrderByKey);
  uq_change_dependent : bool;
  uq_pg_batchable : bool;
  uq_predicate_columns : gset string;
  uq_is_single_table : bool;
  uq_compiled_where : option CompiledPredicate
}.

(** [matches!(source, Subquery(_) | OuterJoinOptional)]. *)
Definition source_always (source : UpdateQuerySource) : bool :=
  match source with
  | UsSubquery _ | UsOuterJoinOptional => true
  | UsFromClause | UsOuterJoinTerminal => false
  end.

Definition source_from_clause (source : UpdateQuerySource) : bool :=
  match source with UsFromClause => true | _ => false end.

(** [UpdateQuery::update_invalidation_possible]. *)
Definition update_invalidation_possible (q : UpdateQuery) (table_name : string) : bool :=
  source_always (uq_source q)
  || (source_from_clause (uq_source q) && uq_has_limit q
      && negb (bool_decide (uq_limit_window_columns q = ∅)))
  || negb (bool_decide (table_join_columns (uq_constraints q) table_name = []))
  || (source_from_clause (uq_source q) && negb (uq_is_single_table q)).

(** ** The collection of a relation *)

(** Counters are [usize]; they count entries held in memory. *)
Record UpdateQueries := {
  us_relation_oid : N;
  us_queries : gmap Fingerprint UpdateQuery;
  us_subsumption : @ConstraintIndex Fingerprint _ _;
  us_eval_index : @ConstraintIndex Fingerprint _ _;
  us_always_check : gset Fingerprint;
  us_has_limit_from : gset Fingerprint;
  us_limit_predicate_columns : gmap string nat;
  us_limit_order_columns : gmap string nat;
  us_epoch : N;
  us_change_dependent_count : nat
}.

Definition update_queries_new (relation_oid : N) : UpdateQueries :=
  {| us_relation_oid := relation_oid; us_queries := ∅;
     us_subsumption := index_new; us_eval_index := index_new;
     us_always_check := ∅; us_has_limit_from := ∅;
     us_limit_predicate_columns := ∅; us_limit_order_columns := ∅;
     us_epoch := 0; us_change_dependent_count := 0 |}.

Definition carveout_membership (q : UpdateQuery) : bool * bool :=
  (source_always (uq_source q), uq_has_limit q && source_from_clause (uq_source q)).

(** One column of [column_refcounts_account]. *)
Definition column_refcount_account (added : bool) (counts : gmap string nat) (c : string)
    : gmap string nat :=
  if added then <[c := S (default 0 (counts !! c))]> counts
  else
    match counts !! c with
    | None => counts
    | Some n =>
        let n := n - 1 in
        if (n =? 0)%nat then delete c counts else <[c := n]> counts
    end.

Definition column_refcounts_account (counts : gmap string nat) (columns : list string)
    (added : bool) : gmap string nat :=
  fold_left (column_refcount_account added) columns counts.

Definition order_key_columns (q : UpdateQuery) : list string :=
  ok_column <$> default [] (uq_order_by_keys q).

Definition set_account (s : gset Fingerprint) (fp : Fingerprint) (added : bool)
    : gset Fingerprint :=
  if added then {[fp]} ∪ s else s ∖ {[fp]}.

Definition carveout_account (us : UpdateQueries) (fp : Fingerprint) (q : UpdateQuery)
    (added : bool) : UpdateQueries :=
  let '(always, limit_from) := carveout_membership q in
  {| us_relation_oid := us_relation_oid us; us_queries := us_queries us;
     us_subsumption := us_subsumption us; us_eval_index := us_eval_index us;
     us_always_check :=
       if always then set_account (us_always_check us) fp added else us_always_check us;
     us_has_limit_from :=
       if limit_from then set_account (us_has_limit_from us) fp added
       else us_has_limit_from us;
     us_limit_predicate_columns :=
       if limit_from then
         column_refcounts_account (us_limit_predicate_columns us)
           (elements (uq_predicate_columns q)) added
       else us_limit_predicate_columns us;
     us_limit_order_columns :=
       if limit_from then
         column_refcounts_account (us_limit_order_columns us) (order_key_columns q) added
       else us_limit_order_columns us;
     us_epoch := us_epoch us; us_change_dependent_count := us_change_dependent_count us |}.

Definition change_dependent_account (us : UpdateQueries) (change_dependent added : bool)
    : UpdateQueries :=
  if negb change_dependent then us
  else
    {| us_relation_oid := us_relation_oid us; us_queries := us_queries us;
       us_subsumption := us_subsumption us; us_eval_index := us_eval_index us;
       us_always_check := us_always_check us; us_has_limit_from := us_has_limit_from us;
       us_limit_predicate_columns := us_limit_predicate_columns us;
       us_limit_order_columns := us_limit_order_columns us;
       us_epoch := us_epoch us;
       us_change_dependent_count :=
         if added then S (us_change_dependent_count us)
         else us_change_dependent_count us - 1 |}.

(** Assigning [queries], bumping the epoch or not. *)
Definition with_queries (us : UpdateQueries) (queries : gmap Fingerprint UpdateQuery)
    (epoch : N) : UpdateQueries :=
  {| us_relation_oid := us_relation_oid us; us_queries := queries;
     us_subsumption := us_subsumption us; us_eval_index := us_eval_index us;
     us_always_check := us_always_check us; us_has_limit_from := us_has_limit_from us;
     us_limit_predicate_columns := us_limit_predicate_columns us;
     us_limit_order_columns := us_limit_order_columns us;
     us_epoch := epoch; us_change_dependent_count := us_change_dependent_count us |}.

(** Un-account an entry that left [queries], or account one that enters it. *)
Definition query_account (us : UpdateQueries) (fp : Fingerprint) (q : UpdateQuery)
    (added : bool) : UpdateQueries :=
  carveout_account (change_dependent_account us (uq_change_dependent q) added) fp q added.

Arguments query_account : simpl never.

Definition query_insert (us : UpdateQueries) (query : UpdateQuery)
    : UpdateQueries * option UpdateQuery :=
  let fp := uq_fingerprint query in
  let prev := us_queries us !! fp in
  let us := with_queries us (delete fp (us_queries us)) (us_epoch us + 1) in
  let us := match prev with Some prev => query_account us fp prev false | None => us end in
  let us := query_account us fp query true in
  (with_queries us (<[fp := query]> (us_queries us)) (us_epoch us), prev).

Definition query_remove (us : UpdateQueries) (fingerprint : Fingerprint)
    : UpdateQueries * option UpdateQuery :=
  match us_queries us !! fingerprint with
  | None => (us, None)
  | Some removed =>
      let us := with_queries us (delete fingerprint (us_queries us)) (us_epoch us + 1) in
      (query_account us fingerprint removed false, Some removed)
  end.

Definition limit_predicate_changed (us : UpdateQueries) (row_changes : RowChanges) : bool :=
  existsb (fun '(c, cc) =>
      cc_changed cc && bool_decide (is_Some (us_limit_predicate_columns us !! c)))
    (map_to_list row_changes).

Definition needs_change_eval (us : UpdateQueries) : bool :=
  (0 <? us_change_dependent_count us)%nat.

(** ** Registration and removal *)

Record TableAdmission := {
  ad_relation_oid : N;
  ad_table_name : string;
  ad_update_query : UpdateQuery;
  ad_subsumer_eligible : bool;
  ad_index_constraints : list TableConstraint
}.

Definition with_indexes (us : UpdateQueries)
    (subsumption eval_index : @ConstraintIndex Fingerprint _ _) : UpdateQueries :=
  {| us_relation_oid := us_relation_oid us; us_queries := us_queries us;
     us_subsumption := subsumption; us_eval_index := eval_index;
     us_always_check := us_always_check us; us_has_limit_from := us_has_limit_from us;
     us_limit_predicate_columns := us_limit_predicate_columns us;
     us_limit_order_columns := us_limit_order_columns us;
     us_epoch := us_epoch us; us_change_dependent_count := us_change_dependent_count us |}.

(** One admission of the loop in [update_queries_register], on its relation's
    collection; the update query carries the fingerprint registered. *)
Definition admission_register (us : UpdateQueries) (a : TableAdmission) : UpdateQueries :=
  let fingerprint := uq_fingerprint (ad_update_query a) in
  let us := (query_insert us (ad_update_query a)).1 in
  with_indexes us
    (if ad_subsumer_eligible a
     then index_insert (us_subsumption us) fingerprint (ad_index_constraints a)
     else us_subsumption us)
    (index_insert (us_eval_index us) fingerprint (ad_index_constraints a)).

(** The whole loop, over the relations' collections. *)
Definition update_queries_register (all : gmap N UpdateQueries)
    (tables : list TableAdmission) : gmap N UpdateQueries * list N :=
  (fold_left (fun all a =>
     let relation_oid := ad_relation_oid a in
     let us := default (update_queries_new relation_oid) (all !! relation_oid) in
     <[relation_oid := admission_register us a]> all) tables all,
   ad_relation_oid <$> tables).

(** The body of the loop in [update_queries_remove_fingerprint]. *)
Definition fingerprint_remove (us : UpdateQueries) (fingerprint : Fingerprint)
    : UpdateQueries :=
  let us := (query_remove us fingerprint).1 in
  with_indexes us (index_remove (us_subsumption us) fingerprint)
    (index_remove (us_eval_index us) fingerprint).

Definition update_queries_remove_fingerprint (all : gmap N UpdateQueries)
    (fingerprint : Fingerprint) (oids : list N) : gmap N UpdateQueries :=
  fold_left (fun all oid =>
    match all !! oid with
    | Some us => <[oid := fingerprint_remove us fingerprint]> all
    | None => all
    end) oids all.

Arguments query_insert : simpl never.
Arguments query_remove : simpl never.

(** ** Sums over the queries of a relation *)

Definition query_sum (f : UpdateQuery -> nat) (m : gmap Fingerprint UpdateQuery) : nat :=
  map_fold (fun _ q acc => f q + acc) 0 m.

Lemma query_sum_empty f : query_sum f ∅ = 0.
Proof. apply map_fold_empty. Qed.

Lemma query_sum_insert f m fp q :
  m !! fp = None -> query_sum f (<[fp := q]> m) = f q + query_sum f m.
Proof.
  intros Hfp. unfold query_sum.
  rewrite (map_fold_insert_L (fun _ q acc => f q + acc)); [done|intros; lia|done].
Qed.

Lemma query_sum_positive f m :
  0 < query_sum f m <-> exists fp q, m !! fp = Some q /\ 0 < f q.
Proof.
  induction m as [|fp q m Hfp IH] using map_ind.
  { rewrite query_sum_empty. split; [lia|]. intros (? & ? & ? & _). set_solver. }
  rewrite query_sum_insert by done. split.
  - intros Hpos. destruct (decide (0 < f q)); [exists fp, q; by rewrite lookup_insert_eq|].
    destruct (proj1 IH) as (fp' & q' & Hl & Hq); [lia|]. exists fp', q'.
    rewrite lookup_insert_ne; [done|]. by intros ->; rewrite Hfp in Hl.
  - intros (fp' & q' & Hl & Hq). destruct (decide (fp = fp')) as [-> |Hne].
    + rewrite lookup_insert_eq in Hl. injection Hl as ->. lia.
    + rewrite lookup_insert_ne in Hl by done.
      assert (0 < query_sum f m) by (apply IH; eauto). lia.
Qed.

(** ** Refcounts *)

Definition occurrences (c : string) (l : list string) : nat :=
  length (filter (eq c) l).

Definition nonzero (n : nat) : option nat := if (n =? 0)%nat then None else Some n.

(** A refcount map holds exactly the positive counts. *)
Definition counts_repr (counts : gmap string nat) (f : string -> nat) : Prop :=
  forall c, counts !! c = nonzero (f c).

Lemma default_nonzero n : default 0 (nonzero n) = n.
Proof. by destruct n. Qed.

Lemma occurrences_cons c d l :
  occurrences c (d :: l) = (if decide (c = d) then 1 else 0) + occurrences c l.
Proof. unfold occurrences. rewrite filter_cons. by destruct (decide (c = d)). Qed.

Lemma counts_repr_ext counts f g :
  (forall c, f c = g c) -> counts_repr counts f -> counts_repr counts g.
Proof. intros Hfg Hf c. by rewrite <- Hfg. Qed.

Lemma refcount_add counts f d :
  counts_repr counts f ->
  counts_repr (column_refcount_account true counts d)
    (fun c => (if decide (c = d) then 1 else 0) + f c).
Proof.
  intros Hf c. simpl. rewrite Hf, default_nonzero. destruct (decide (c = d)) as [-> |Hne].
  - by rewrite lookup_insert_eq.
  - rewrite lookup_insert_ne by congruence. by rewrite Hf.
Qed.

Lemma refcount_sub counts f d :
  counts_repr counts (fun c => (if decide (c = d) then 1 else 0) + f c) ->
  counts_repr (column_refcount_account false counts d) f.
Proof.
  intros Hf c. unfold column_refcount_account. rewrite Hf. rewrite decide_True by done.
  simpl. rewrite Nat.sub_0_r. specialize (Hf c).
  destruct (decide (c = d)) as [-> |Hne].
  - destruct (f d); simpl; [apply lookup_delete_eq|apply lookup_insert_eq].
  - simpl in Hf. rewrite ?decide_False in Hf by done. simpl in Hf.
    destruct (f d); simpl; [rewrite lookup_delete_ne|rewrite lookup_insert_ne]; congruence.
Qed.

Lemma refcounts_add columns : forall counts f,
  counts_repr counts f ->
  counts_repr (column_refcounts_account counts columns true)
    (fun c => occurrences c columns + f c).
Proof.
  induction columns as [|d columns IH]; intros counts f Hf; [done|].
  eapply counts_repr_ext; [|apply IH, refcount_add, Hf].
  intros c. simpl. rewrite occurrences_cons. lia.
Qed.

Lemma refcounts_sub columns : forall counts f,
  counts_repr counts (fun c => occurrences c columns + f c) ->
  counts_repr (column_refcounts_account counts columns false) f.
Proof.
  induction columns as [|d columns IH]; intros counts f Hf; [done|].
  apply IH, refcount_sub. eapply counts_repr_ext; [|apply Hf].
  intros c. simpl. rewrite occurrences_cons. lia.
Qed.

(** ** What the derived fields hold *)

Definition limit_from (q : UpdateQuery) : bool := (carveout_membership q).2.

Definition limit_weight (columns : UpdateQuery -> list string) (c : string) (q : UpdateQuery)
    : nat :=
  if limit_from q then occurrences c (columns q) else 0.

Definition predicate_column_list (q : UpdateQuery) : list string :=
  elements (uq_predicate_columns q).

Definition set_repr (s : gset Fingerprint) (p : UpdateQuery -> bool)
    (m : gmap Fingerprint UpdateQuery) : Prop :=
  forall fp, fp ∈ s <-> exists q, m !! fp = Some q /\ p q = true.

(** The derived fields are the ones recomputed from the queries [m]. *)
Record accounts (us : UpdateQueries) (m : gmap Fingerprint UpdateQuery) : Prop := {
  ac_always : set_repr (us_always_check us) (fun q => source_always (uq_source q)) m;
  ac_limit : set_repr (us_has_limit_from us) limit_from m;
  ac_predicate : counts_repr (us_limit_predicate_columns us)
    (fun c => query_sum (limit_weight predicate_column_list c) m);
  ac_order : counts_repr (us_limit_order_columns us)
    (fun c => query_sum (limit_weight order_key_columns c) m);
  ac_dependent : us_change_dependent_count us =
    query_sum (fun q => Nat.b2n (uq_change_dependent q)) m
}.

Section account.
Context (us : UpdateQueries) (m : gmap Fingerprint UpdateQuery).
Context (fp : Fingerprint) (q : UpdateQuery) (Hfresh : m !! fp = None).

Lemma set_account_add s p :
  set_repr s p m ->
  set_repr (if p q then set_account s fp true else s) p (<[fp := q]> m).
Proof.
  intros Hs k. transitivity (k ∈ s \/ (k = fp /\ p q = true)).
  { destruct (p q); simpl; [|intuition discriminate]. set_solver. }
  rewrite (Hs k). destruct (decide (k = fp)) as [-> |Hne].
  - rewrite lookup_insert_eq, Hfresh. split.
    + intros [(? & ? & _)|[_ Hp]]; [done|eauto].
    + intros (q' & [= <-] & Hp). by right.
  - rewrite lookup_insert_ne by done. split; [|by left]. intros [?|[? _]]; done.
Qed.

Lemma set_account_sub s p :
  set_repr s p (<[fp := q]> m) ->
  set_repr (if p q then set_account s fp false else s) p m.
Proof.
  intros Hs k. transitivity (k ∈ s /\ k <> fp).
  { destruct (p q) eqn:Ep; simpl; [set_solver|]. split; [|tauto]. intros Hk. split; [done|].
    intros ->. apply Hs in Hk as (q' & Hq' & Hp). rewrite lookup_insert_eq in Hq'. congruence. }
  rewrite (Hs k). destruct (decide (k = fp)) as [-> |Hne].
  - rewrite Hfresh. split; [tauto|]. by intros (? & ? & _).
  - rewrite lookup_insert_ne by done. tauto.
Qed.

Lemma limit_counts_add columns counts :
  counts_repr counts (fun c => query_sum (limit_weight columns c) m) ->
  counts_repr
    (if limit_from q then column_refcounts_account counts (columns q) true else counts)
    (fun c => query_sum (limit_weight columns c) (<[fp := q]> m)).
Proof.
  intros Hc.
  apply (counts_repr_ext _
    (fun c => limit_weight columns c q + query_sum (limit_weight columns c) m)).
  { intros c. by rewrite query_sum_insert. }
  unfold limit_weight at 1. destruct (limit_from q); [|done]. by apply refcounts_add.
Qed.

Lemma limit_counts_sub columns counts :
  counts_repr counts (fun c => query_sum (limit_weight columns c) (<[fp := q]> m)) ->
  counts_repr
    (if limit_from q then column_refcounts_account counts (columns q) false else counts)
    (fun c => query_sum (limit_weight columns c) m).
Proof.
  intros Hc. apply (counts_repr_ext _ _
    (fun c => limit_weight columns c q + query_sum (limit_weight columns c) m)) in Hc.
  2: { intros c. by rewrite query_sum_insert. }
  unfold limit_weight at 1 in Hc. destruct (limit_from q); [|done]. by apply refcounts_sub.
Qed.

Lemma query_account_add :
  accounts us m -> accounts (query_account us fp q true) (<[fp := q]> m).
Proof.
  intros [Ha Hl Hp Ho Hd]. unfold query_account, change_dependent_account, carveout_account.
  split; simpl.
  - destruct (uq_change_dependent q);
      by apply (set_account_add _ (fun q => source_always (uq_source q))).
  - destruct (uq_change_dependent q); by apply (set_account_add _ limit_from).
  - destruct (uq_change_dependent q); by apply (limit_counts_add predicate_column_list).
  - destruct (uq_change_dependent q); by apply (limit_counts_add order_key_columns).
  - rewrite query_sum_insert by done. destruct (uq_change_dependent q); simpl; lia.
Qed.

Lemma query_account_sub :
  accounts us (<[fp := q]> m) -> accounts (query_account us fp q false) m.
Proof.
  intros [Ha Hl Hp Ho Hd]. unfold query_account, change_dependent_account, carveout_account.
  rewrite query_sum_insert in Hd by done. split; simpl.
  - destruct (uq_change_dependent q);
      by apply (set_account_sub _ (fun q => source_always (uq_source q))).
  - destruct (uq_change_dependent q); by apply (set_account_sub _ limit_from).
  - destruct (uq_change_dependent q); by apply (limit_counts_sub predicate_column_list).
  - destruct (uq_change_dependent q); by apply (limit_counts_sub order_key_columns).
  - destruct (uq_change_dependent q); simpl in *; lia.
Qed.
End account.

Lemma accounts_new oid : accounts (update_queries_new oid) ∅.
Proof.
  split; simpl; try (intros fp; rewrite ?lookup_empty, ?query_sum_empty; set_solver).
  by rewrite query_sum_empty.
Qed.

Lemma accounts_with_queries us m queries epoch :
  accounts us m -> accounts (with_queries us queries epoch) m.
Proof. intros []. by constructor. Qed.

Lemma accounts_with_indexes us m subsumption eval_index :
  accounts us m -> accounts (with_indexes us subsumption eval_index) m.
Proof. intros []. by constructor. Qed.

Lemma query_insert_accounts us query :
  accounts us (us_queries us) ->
  accounts (query_insert us query).1 (<[uq_fingerprint query := query]> (us_queries us)).
Proof.
  intros Ha. unfold query_insert. set (fp := uq_fingerprint query).
  assert (Hdel : delete fp (us_queries us) !! fp = None) by apply lookup_delete_eq.
  rewrite <- (insert_delete_eq (us_queries us) fp query).
  assert (H1 : accounts
    match us_queries us !! fp with
    | Some prev => query_account
        (with_queries us (delete fp (us_queries us)) (us_epoch us + 1)) fp prev false
    | None => with_queries us (delete fp (us_queries us)) (us_epoch us + 1)
    end (delete fp (us_queries us))).
  { destruct (us_queries us !! fp) as [prev|] eqn:E.
    - apply query_account_sub; [done|]. rewrite insert_delete_id by done. by apply accounts_with_queries.
    - rewrite delete_id by done. by apply accounts_with_queries. }
  apply (query_account_add _ _ fp query Hdel) in H1. by apply accounts_with_queries.
Qed.

Lemma query_account_queries us fp q added :
  us_queries (query_account us fp q added) = us_queries us.
Proof. unfold query_account, change_dependent_account. by destruct (uq_change_dependent q). Qed.

Lemma query_insert_queries us query :
  us_queries (query_insert us query).1 = <[uq_fingerprint query := query]> (us_queries us).
Proof.
  unfold query_insert. cbn. rewrite query_account_queries.
  destruct (us_queries us !! _); rewrite ?query_account_queries; apply insert_delete_eq.
Qed.

Lemma query_remove_spec us fp :
  accounts us (us_queries us) ->
  accounts (query_remove us fp).1 (delete fp (us_queries us)) /\
  us_queries (query_remove us fp).1 = delete fp (us_queries us).
Proof.
  intros Ha. unfold query_remove. destruct (us_queries us !! fp) as [q|] eqn:E; cbn.
  - split; [|apply query_account_queries]. apply query_account_sub; [apply lookup_delete_eq|].
    rewrite insert_delete_id by done. by apply accounts_with_queries.
  - by rewrite delete_id.
Qed.

(** The indexes are untouched by the accounting. *)
Lemma query_account_indexes us fp q added :
  us_subsumption (query_account us fp q added) = us_subsumption us /\
  us_eval_index (query_account us fp q added) = us_eval_index us.
Proof. unfold query_account, change_dependent_account. by destruct (uq_change_dependent q). Qed.

Lemma query_insert_indexes us query :
  us_subsumption (query_insert us query).1 = us_subsumption us /\
  us_eval_index (query_insert us query).1 = us_eval_index us.
Proof.
  unfold query_insert. cbn. split.
  - rewrite (proj1 (query_account_indexes _ _ _ _)).
    destruct (us_queries us !! _); [by rewrite (proj1 (query_account_indexes _ _ _ _))|done].
  - rewrite (proj2 (query_account_indexes _ _ _ _)).
    destruct (us_queries us !! _); [by rewrite (proj2 (query_account_indexes _ _ _ _))|done].
Qed.

Lemma query_remove_indexes us fp :
  us_subsumption (query_remove us fp).1 = us_subsumption us /\
  us_eval_index (query_remove us fp).1 = us_eval_index us.
Proof.
  unfold query_remove. destruct (us_queries us !! fp); [|done]. cbn.
  destruct (query_account_indexes (with_queries us (delete fp (us_queries us)) (us_epoch us + 1))
    fp u false) as [-> ->]. done.
Qed.

(** ** Runs *)

Inductive UqOp := UqRegister (a : TableAdmission) | UqRemove (fp : Fingerprint).

Definition uq_apply (us : UpdateQueries) (op : UqOp) : UpdateQueries :=
  match op with
  | UqRegister a => admission_register us a
  | UqRemove fp => fingerprint_remove us fp
  end.

Definition uq_run (oid : N) (ops : list UqOp) : UpdateQueries :=
  fold_left uq_apply ops (update_queries_new oid).

(** The abstract state: the last admission of every fingerprint not removed since. *)
Definition admitted_apply (adm : gmap Fingerprint TableAdmission) (op : UqOp)
    : gmap Fingerprint TableAdmission :=
  match op with
  | UqRegister a => <[uq_fingerprint (ad_update_query a) := a]> adm
  | UqRemove fp => delete fp adm
  end.

Definition admitted (ops : list UqOp) : gmap Fingerprint TableAdmission :=
  fold_left admitted_apply ops ∅.

Record uq_refines (us : UpdateQueries) (adm : gmap Fingerprint TableAdmission) : Prop := {
  ur_queries : us_queries us = ad_update_query <$> adm;
  ur_accounts : accounts us (us_queries us);
  ur_eval : index_repr (us_eval_index us) (ad_index_constraints <$> adm);
  ur_subsumption : exists sub, index_repr (us_subsumption us) sub /\
    forall fp cs, sub !! fp = Some cs -> is_Some (adm !! fp)
}.

Lemma uq_refines_new oid : uq_refines (update_queries_new oid) ∅.
Proof.
  split; simpl; [by rewrite fmap_empty|apply accounts_new| |].
  - rewrite fmap_empty. apply index_new_repr.
  - exists ∅. split; [apply index_new_repr|]. intros fp cs. by rewrite lookup_empty.
Qed.

Lemma admission_register_refines us adm a :
  uq_refines us adm -> uq_refines (admission_register us a) (admitted_apply adm (UqRegister a)).
Proof.
  intros [Hq Ha He (sub & Hs & Hsub)]. unfold admission_register.
  destruct (query_insert_indexes us (ad_update_query a)) as [Es Ee].
  split; cbn.
  - by rewrite query_insert_queries, fmap_insert, Hq.
  - rewrite query_insert_queries. by apply accounts_with_indexes, query_insert_accounts.
  - rewrite Ee, fmap_insert. by apply index_insert_repr.
  - rewrite Es. set (fp := uq_fingerprint (ad_update_query a)).
    assert (Hold : forall k cs, sub !! k = Some cs -> is_Some ((<[fp := a]> adm) !! k)).
    { intros k cs Hk. apply lookup_insert_is_Some'. right. by apply (Hsub k cs). }
    destruct (ad_subsumer_eligible a); [|by exists sub].
    exists (<[fp := ad_index_constraints a]> sub). split; [by apply index_insert_repr|].
    intros k cs Hk. destruct (decide (k = fp)) as [-> |Hne]; [by rewrite lookup_insert_eq|].
    rewrite lookup_insert_ne in Hk by congruence. eauto.
Qed.

Lemma fingerprint_remove_refines us adm fp :
  uq_refines us adm -> uq_refines (fingerprint_remove us fp) (admitted_apply adm (UqRemove fp)).
Proof.
  intros [Hq Ha He (sub & Hs & Hsub)]. unfold fingerprint_remove.
  destruct (query_remove_indexes us fp) as [Es Ee].
  destruct (query_remove_spec us fp Ha) as [Ha' Hq']. split; cbn.
  - by rewrite Hq', Hq, fmap_delete.
  - rewrite Hq'. by apply accounts_with_indexes.
  - rewrite Ee, fmap_delete. by apply index_remove_repr.
  - rewrite Es. exists (delete fp sub). split; [by apply index_remove_repr|].
    intros k cs [Hne Hk]%lookup_delete_Some. rewrite lookup_delete_ne by done. eauto.
Qed.

Lemma uq_run_refines oid ops : uq_refines (uq_run oid ops) (admitted ops).
Proof.
  unfold uq_run, admitted.
  assert (Hgen : forall us adm, uq_refines us adm ->
    uq_refines (fold_left uq_apply ops us) (fold_left admitted_apply ops adm)).
  { induction ops as [|[a|fp] ops IH]; intros us adm Hr; [done|..]; apply IH;
      [by apply admission_register_refines|by apply fingerprint_remove_refines]. }
  apply Hgen, uq_refines_new.
Qed.

Lemma admitted_registered ops fp a : admitted ops !! fp = Some a -> UqRegister a ∈ ops.
Proof.
  unfold admitted.
  assert (Hgen : forall m, fold_left admitted_apply ops m !! fp = Some a ->
    m !! fp = Some a \/ UqRegister a ∈ ops).
  { induction ops as [|op ops IH]; intros m H; [by left|]. simpl in H.
    destruct (IH _ H) as [Hm|Hin]; [|right; by right].
    destruct op as [b|k]; simpl in Hm.
    - destruct (decide (uq_fingerprint (ad_update_query b) = fp)) as [<- |Hne].
      + rewrite lookup_insert_eq in Hm. injection Hm as ->. right. by left.
      + rewrite lookup_insert_ne in Hm by done. by left.
    - apply lookup_delete_Some in Hm as [_ Hm]. by left. }
  intros H. destruct (Hgen ∅ H) as [Hm|?]; [|done]. by rewrite lookup_empty in Hm.
Qed.

(** ** What the callers read *)

Definition column_changed (row_changes : RowChanges) (c : string) : bool :=
  match row_changes !! c with Some cc => cc_changed cc | None => false end.

Lemma occurrences_positive c l : 0 < occurrences c l <-> c ∈ l.
Proof.
  unfold occurrences. split.
  - intros Hpos. destruct (filter (eq c) l) as [|d l'] eqn:E; [simpl in Hpos; lia|].
    assert (d ∈ filter (eq c) l) as [-> Hd]%list_elem_of_filter by (rewrite E; by left). done.
  - intros Hc. assert (c ∈ filter (eq c) l) as Hin by (by apply list_elem_of_filter).
    destruct (filter (eq c) l); [by apply not_elem_of_nil in Hin|simpl; lia].
Qed.

Lemma limit_weight_positive columns c q :
  0 < limit_weight columns c q <-> limit_from q = true /\ c ∈ columns q.
Proof.
  unfold limit_weight. destruct (limit_from q).
  - rewrite occurrences_positive. tauto.
  - split; [lia|]. by intros [? _].
Qed.

Lemma nonzero_is_Some n : is_Some (nonzero n) <-> 0 < n.
Proof. destruct n; simpl; split; try lia; [by intros []|eauto]. Qed.

Lemma limit_predicate_changed_spec us row_changes :
  accounts us (us_queries us) ->
  limit_predicate_changed us row_changes = true <->
  exists fp q c, us_queries us !! fp = Some q /\ limit_from q = true /\
    c ∈ uq_predicate_columns q /\ column_changed row_changes c = true.
Proof.
  intros Ha. unfold limit_predicate_changed, column_changed. rewrite existsb_elem. split.
  - intros ([c cc] & Hin%elem_of_map_to_list & Hb). bool_hyps.
    match goal with H : is_Some _ |- _ => rewrite (ac_predicate _ _ Ha) in H;
      apply nonzero_is_Some, query_sum_positive in H as (fp & q & Hq & [Hl Hc]%limit_weight_positive)
    end.
    exists fp, q, c. rewrite Hin. unfold predicate_column_list in Hc. set_solver.
  - intros (fp & q & c & Hq & Hl & Hc & Hcc).
    destruct (row_changes !! c) as [cc|] eqn:E; [|done].
    exists (c, cc). split; [by apply elem_of_map_to_list|]. rewrite Hcc. simpl.
    apply bool_decide_eq_true. rewrite (ac_predicate _ _ Ha). apply nonzero_is_Some.
    apply query_sum_positive. exists fp, q. split; [done|]. apply limit_weight_positive.
    unfold predicate_column_list. set_solver.
Qed.

Lemma needs_change_eval_spec us :
  accounts us (us_queries us) ->
  needs_change_eval us = true <->
  exists fp q, us_queries us !! fp = Some q /\ uq_change_dependent q = true.
Proof.
  intros Ha. unfold needs_change_eval. rewrite Nat.ltb_lt, (ac_dependent _ _ Ha).
  rewrite query_sum_positive. split; intros (fp & q & Hq & Hd); exists fp, q; (split; [done|]);
    destruct (uq_change_dependent q); simpl in *; lia || done.
Qed.

(** ** Properties *)

(** C31: the bookkeeping of a relation never drifts.  After any sequence of
    registrations (replacements of the same fingerprint included) and removals,
    the carve-out sets hold exactly the queries whose source or LIMIT puts them
    there, the two refcounted column unions count every predicate and ORDER BY
    column of the limited queries and keep no zero entry, and
    [change_dependent_count] counts the change-dependent queries, so
    [needs_change_eval] says whether one exists. *)
Theorem update_queries_accounting (oid : N) (ops : list UqOp) :
  let us := uq_run oid ops in
  (forall fp, fp ∈ us_always_check us <->
     exists q, us_queries us !! fp = Some q /\ source_always (uq_source q) = true) /\
  (forall fp, fp ∈ us_has_limit_from us <->
     exists q, us_queries us !! fp = Some q /\
       (carveout_membership q).2 = true) /\
  (forall c, us_limit_predicate_columns us !! c =
     nonzero (query_sum (limit_weight predicate_column_list c) (us_queries us))) /\
  (forall c, us_limit_order_columns us !! c =
     nonzero (query_sum (limit_weight order_key_columns c) (us_queries us))) /\
  us_change_dependent_count us =
    query_sum (fun q => Nat.b2n (uq_change_dependent q)) (us_queries us) /\
  (needs_change_eval us = true <->
     exists fp q, us_queries us !! fp = Some q /\ uq_change_dependent q = true).
Proof.
  pose proof (ur_accounts _ _ (uq_run_refines oid ops)) as Ha. cbv zeta.
  split_and!; [apply Ha..|by apply needs_change_eval_spec].
Qed.

(** A relation's collection refines the map from a fingerprint to its last
    admission.  After any sequence of registrations and removals the queries are
    the admitted ones, a point probe of the evaluation index returns exactly the
    admitted fingerprints whose indexed constraints the row's readings reach, and
    the subsumption index never offers a fingerprint that is not registered. *)
Theorem update_queries_refine (oid : N) (ops : list UqOp) :
  let us := uq_run oid ops in
  us_queries us = ad_update_query <$> admitted ops /\
  (forall forms fp, fp ∈ candidates_point_into (us_eval_index us) forms <->
     exists a, admitted ops !! fp = Some a /\ point_reached forms (ad_index_constraints a)) /\
  (forall new fp, fp ∈ index_candidates (us_subsumption us) new ->
     is_Some (us_queries us !! fp)).
Proof.
  destruct (uq_run_refines oid ops) as [Hq _ He (sub & Hs & Hsub)]. cbv zeta. split_and!.
  - done.
  - intros forms fp. rewrite (candidates_point_elem _ _ _ _ He). setoid_rewrite lookup_fmap.
    split.
    + intros (cs & (a & Ha & ->)%fmap_Some & Hp). by exists a.
    + intros (a & Ha & Hp). exists (ad_index_constraints a). by rewrite Ha.
  - intros new fp (cs & Hcs & _)%(index_candidates_elem _ _ _ _ Hs).
    rewrite Hq, lookup_fmap, fmap_is_Some. by apply (Hsub fp cs).
Qed.
