(* ===== verification/Invalidation.v ===== *)
(** * Row matching and invalidation

    Models src/src/cache/writer/cdc/row_match.rs and the decision part of
    src/src/cache/writer/cdc/invalidation.rs: which cached queries a replicated row
    event invalidates, the narrowing of that check to a few candidates, and the
    ORDER BY / LIMIT window analysis.

    [eval_candidates_into] only looks up the relation before probing, and
    [memo_frame_accumulate], [query_invalidated_mark] and
    [cache_query_cdc_invalidate] are store updates modelled with the cache's
    state. *)

From S2P Require Import Prelude Value Ast Range Subsume Cast Evaluate Catalog.
From S2P Require Import ConstraintIndex UpdateQuery.

(** ** Matching a row *)

Definition constraint_column (tc : TableConstraint) : string :=
  match tc with
  | TcComparison col _ _ | TcAnyOf col _ | TcCastComparison col _ _ _ => col
  end.

Definition constraint_value_matches (tc : TableConstraint) (row_str : string) : bool :=
  match tc with
  | TcComparison _ op val => where_value_compare_string val row_str op
  | TcAnyOf _ values => existsb (fun v => where_value_compare_string v row_str OpEqual) values
  | TcCastComparison _ cast op val =>
      match cast_target_coerce_text cast row_str with
      | Some coerced => literal_compare coerced op val
      | None => false
      end
  end.

(** The value a row carries for a column of the table, if both have it. *)
Definition table_row_value (table_metadata : TableMetadata) (row_data : list (option string))
    (column : string) : option (option string) :=
  meta ← column_store_get (tm_columns table_metadata) column;
  row_data !! column_index meta.

Definition constraint_row_matches (table_metadata : TableMetadata)
    (row_data : list (option string)) (tc : TableConstraint) : bool :=
  match table_row_value table_metadata row_data (constraint_column tc) with
  | None => true
  | Some None => false
  | Some (Some row_str) => constraint_value_matches tc row_str
  end.

Definition row_constraints_match (constraints : QueryConstraints)
    (table_metadata : TableMetadata) (row_data : list (option string)) : bool :=
  match qc_table_constraints constraints !! tm_name table_metadata with
  | None => true
  | Some cs => forallb (constraint_row_matches table_metadata row_data) cs
  end.

Definition update_pk_changed (table_metadata : TableMetadata)
    (key_data new_row_data : list (option string)) : bool :=
  match key_data with
  | [] => false
  | _ =>
      if negb (tm_replica_identity_full table_metadata) then true
      else
        existsb (fun pk =>
          match column_store_get (tm_columns table_metadata) pk with
          | None => true
          | Some meta =>
              negb (bool_decide
                (key_data !! column_index meta = new_row_data !! column_index meta))
          end) (tm_primary_key_columns table_metadata)
  end.

(** ** The LIMIT window *)

Definition window_changes_are_order_keys (q : UpdateQuery) (keys : list OrderByKey)
    (row_changes : RowChanges) : bool :=
  forallb (fun column =>
      negb (column_changed row_changes column)
      || existsb (fun k => bool_decide (ok_column k = column)) keys)
    (elements (uq_limit_window_columns q)).

Definition sort_key_move_is_forward (key : OrderByKey) (change : ColumnChange)
    (new_is_null : bool) : bool :=
  match cc_old_is_null change, new_is_null with
  | true, true => false
  | true, false => negb (ok_nulls_first key)
  | false, true => ok_nulls_first key
  | false, false =>
      match cc_old_less_than_new change with
      | Some true => ok_descending key
      | Some false => negb (ok_descending key)
      | None => false
      end
  end.

Definition is_nil {A} (l : list A) : bool := match l with [] => true | _ :: _ => false end.
Definition is_none {A} (o : option A) : bool := match o with None => true | Some _ => false end.

(** The loop over the keys: the first changed key decides. *)
Fixpoint first_change_is_forward (table_metadata : TableMetadata)
    (row_data : list (option string)) (row_changes : RowChanges) (keys : list OrderByKey)
    : bool :=
  match keys with
  | [] => false
  | key :: keys =>
      match row_changes !! ok_column key with
      | None => false
      | Some change =>
          if negb (cc_changed change)
          then first_change_is_forward table_metadata row_data row_changes keys
          else
            match table_row_value table_metadata row_data (ok_column key) with
            | None => false
            | Some new_value => sort_key_move_is_forward key change (is_none new_value)
            end
      end
  end.

Definition window_move_is_promotion (q : UpdateQuery) (table_metadata : TableMetadata)
    (row_data : list (option string)) (row_changes : RowChanges) : bool :=
  match uq_order_by_keys q with
  | None => false
  | Some keys =>
      if negb (window_changes_are_order_keys q keys row_changes) then false
      else first_change_is_forward table_metadata row_data row_changes keys
  end.

Definition update_query_matches_locally (q : UpdateQuery) (row_data : list (option string))
    : bool :=
  match uq_compiled_where q with
  | None => true
  | Some predicate => eval predicate row_data
  end.

Definition join_membership_unchanged (q : UpdateQuery) (table_metadata : TableMetadata)
    (key_data : option (list (option string))) : bool :=
  match key_data with
  | None | Some (_ :: _) => false
  | Some [] =>
      match table_join_columns (uq_constraints q) (tm_name table_metadata) with
      | [] => false
      | join_columns =>
          forallb (fun col =>
            existsb (fun pk => bool_decide (pk = col)) (tm_primary_key_columns table_metadata))
            join_columns
      end
  end.

(** ** Deciding an event *)

Inductive CdcOperation := CdcUpsert | CdcDelete.

#[export] Instance CdcOperation_eq_dec : EqDecision CdcOperation.
Proof. solve_decision. Defined.

Record RowEvent := {
  ev_row_data : list (option string);
  ev_key_data : option (list (option string));
  ev_operation : CdcOperation;
  ev_row_changes : option RowChanges
}.

Definition row_relevant (q : UpdateQuery) (table_metadata : TableMetadata) (event : RowEvent)
    : bool :=
  match qc_table_constraints (uq_constraints q) !! tm_name table_metadata with
  | Some _ => row_constraints_match (uq_constraints q) table_metadata (ev_row_data event)
  | None => negb (join_membership_unchanged q table_metadata (ev_key_data event))
  end.

Definition subquery_change_expands (kind : SubqueryKind) (operation : CdcOperation) : bool :=
  match kind, operation with
  | SkScalar, _ => true
  | SkInclusion, CdcUpsert => true
  | SkInclusion, CdcDelete => false
  | SkExclusion, CdcUpsert => false
  | SkExclusion, CdcDelete => true
  end.

Definition from_clause_uncached_invalidates (q : UpdateQuery) (table_metadata : TableMetadata)
    (event : RowEvent) : bool :=
  if decide (ev_operation event = CdcDelete) then uq_has_limit q
  else negb (uq_is_single_table q) && row_relevant q table_metadata event.

Definition row_uncached_invalidates (q : UpdateQuery) (table_metadata : TableMetadata)
    (event : RowEvent) : bool :=
  match uq_source q with
  | UsFromClause => from_clause_uncached_invalidates q table_metadata event
  | UsSubquery kind =>
      row_relevant q table_metadata event
      && subquery_change_expands kind (ev_operation event)
  | UsOuterJoinTerminal => false
  | UsOuterJoinOptional =>
      row_constraints_match (uq_constraints q) table_metadata (ev_row_data event)
  end.

Definition columns_changed (columns : list string) (row_changes : RowChanges) : bool :=
  existsb (column_changed row_changes) columns.

Definition limit_window_move_invalidates (q : UpdateQuery) (table_metadata : TableMetadata)
    (row_data : list (option string)) (row_changes : RowChanges) : bool :=
  let windowed := uq_has_limit q && source_from_clause (uq_source q) in
  if negb windowed || negb (columns_changed (elements (uq_limit_window_columns q)) row_changes)
  then false
  else if columns_changed (elements (uq_predicate_columns q)) row_changes then true
  else
    row_constraints_match (uq_constraints q) table_metadata row_data
    && negb (window_move_is_promotion q table_metadata row_data row_changes).

(** [is_none_or(|cc| cc.changed)]: a column missing from the projection counts as
    changed. *)
Definition join_columns_changed (q : UpdateQuery) (table_metadata : TableMetadata)
    (row_changes : RowChanges) : bool :=
  existsb (fun column =>
      match row_changes !! column with None => true | Some cc => cc_changed cc end)
    (table_join_columns (uq_constraints q) (tm_name table_metadata)).

Definition row_cached_invalidates (q : UpdateQuery) (table_metadata : TableMetadata)
    (row_data : list (option string)) (row_changes : RowChanges) : bool :=
  if source_always (uq_source q) then true
  else if limit_window_move_invalidates q table_metadata row_data row_changes then true
  else
    join_columns_changed q table_metadata row_changes
    && row_constraints_match (uq_constraints q) table_metadata row_data.

Definition toast_fallback_structural_invalidate (q : UpdateQuery)
    (table_metadata : TableMetadata) (event : RowEvent) (toasted_columns : list string)
    : bool :=
  if existsb (fun c => bool_decide (c ∈ toasted_columns)) (elements (uq_predicate_columns q))
  then true
  else
    match uq_source q with
    | UsSubquery _ | UsOuterJoinOptional => true
    | UsFromClause | UsOuterJoinTerminal =>
        uq_has_limit q
        || (negb (uq_is_single_table q) && row_relevant q table_metadata event)
    end.

Definition narrowed_candidates (us : UpdateQueries) (event : RowEvent)
    (candidates : gset Fingerprint) : list Fingerprint :=
  let expand_limit :=
    match ev_operation event, ev_row_changes event with
    | CdcDelete, _ => true
    | CdcUpsert, Some rc => limit_predicate_changed us rc
    | CdcUpsert, None => false
    end in
  elements candidates ++ elements (us_always_check us)
  ++ (if expand_limit then elements (us_has_limit_from us) else []).

(** The [debug_assert] on [change_dependent] has no effect in a release build;
    that it never fires is a property below. *)
Definition query_row_invalidates (q : UpdateQuery) (table_metadata : TableMetadata)
    (event : RowEvent) : bool :=
  match ev_row_changes event with
  | Some row_changes =>
      row_cached_invalidates q table_metadata (ev_row_data event) row_changes
  | None => row_uncached_invalidates q table_metadata event
  end.

(** [update_queries_check_invalidate], past the lookup of the relation. *)
Definition update_queries_check_invalidate (us : UpdateQueries)
    (table_metadata : TableMetadata) (event : RowEvent) (candidates : gset Fingerprint)
    : list Fingerprint :=
  List.filter (fun fp =>
      match us_queries us !! fp with
      | Some q => query_row_invalidates q table_metadata event
      | None => false
      end) (narrowed_candidates us event candidates).

(** ** What an invalidation implies *)

Lemma relevant_matches q table_metadata event :
  row_relevant q table_metadata event = true ->
  row_constraints_match (uq_constraints q) table_metadata (ev_row_data event) = true.
Proof.
  unfold row_relevant, row_constraints_match. by destruct (qc_table_constraints _ !! _).
Qed.

Lemma columns_changed_spec columns row_changes :
  columns_changed columns row_changes = true <->
  exists c, c ∈ columns /\ column_changed row_changes c = true.
Proof. apply existsb_elem. Qed.

(** The three ways an UPDATE of a cached row invalidates. *)
Lemma row_cached_cases q table_metadata row_data rc :
  row_cached_invalidates q table_metadata row_data rc = true ->
  source_always (uq_source q) = true \/
  (limit_from q = true /\ columns_changed (elements (uq_limit_window_columns q)) rc = true /\
   (columns_changed (elements (uq_predicate_columns q)) rc = true \/
    row_constraints_match (uq_constraints q) table_metadata row_data = true)) \/
  (join_columns_changed q table_metadata rc = true /\
   row_constraints_match (uq_constraints q) table_metadata row_data = true).
Proof.
  unfold row_cached_invalidates, limit_window_move_invalidates.
  destruct (source_always _); [by left|]. intros H. right.
  change (uq_has_limit q && source_from_clause (uq_source q)) with (limit_from q) in H.
  destruct (limit_from q); simpl in H; [|right; bool_hyps; done].
  destruct (columns_changed (elements (uq_limit_window_columns q)) rc); simpl in H;
    [|right; bool_hyps; done].
  destruct (columns_changed (elements (uq_predicate_columns q)) rc); [left; tauto|].
  destruct (row_constraints_match _ _ _); [left; tauto|]. simpl in H.
  by rewrite andb_false_r in H.
Qed.

(** The two ways an event on an uncached row does. *)
Lemma row_uncached_cases q table_metadata event :
  row_uncached_invalidates q table_metadata event = true ->
  source_always (uq_source q) = true \/
  (uq_source q = UsFromClause /\
   if decide (ev_operation event = CdcDelete) then uq_has_limit q = true
   else uq_is_single_table q = false /\ row_relevant q table_metadata event = true).
Proof.
  unfold row_uncached_invalidates, from_clause_uncached_invalidates.
  destruct (uq_source q); simpl; try tauto; [].
 
  intros H. right. split; [done|]. destruct (decide _); [done|]. by bool_hyps.
Qed.

Lemma join_columns_changed_nonempty q table_metadata rc :
  join_columns_changed q table_metadata rc = true ->
  exists c, c ∈ table_join_columns (uq_constraints q) (tm_name table_metadata) /\
    match rc !! c with None => True | Some cc => cc_changed cc = true end.
Proof.
  unfold join_columns_changed. intros (c & Hc & H)%existsb_elem. exists c. split; [done|].
  by destruct (rc !! c).
Qed.

Lemma upsert_invalidation_possible q table_metadata event :
  ev_operation event = CdcUpsert ->
  query_row_invalidates q table_metadata event = true ->
  update_invalidation_possible q (tm_name table_metadata) = true.
Proof.
  intros Hop. unfold query_row_invalidates, update_invalidation_possible.
  destruct (ev_row_changes event) as [rc|].
  - intros [-> |[(Hl & Hw & _)|[Hj _]]]%row_cached_cases; [done|..].
    + apply columns_changed_spec in Hw as (c & Hc%elem_of_elements & _).
      unfold limit_from in Hl. simpl in Hl. bool_hyps.
      rewrite bool_decide_eq_false_2 by set_solver.
      destruct (uq_has_limit q), (source_from_clause _); [|done..]. simpl.
      by rewrite !orb_true_r.
    + apply join_columns_changed_nonempty in Hj as (c & Hc & _).
      rewrite (bool_decide_eq_false_2 (table_join_columns _ _ = [])); [by rewrite !orb_true_r|].
      intros E. rewrite E in Hc. by apply not_elem_of_nil in Hc.
  - intros [-> |[Hs Hr]]%row_uncached_cases; [done|]. rewrite Hop in Hr.
    destruct (decide _); [done|]. destruct Hr as [-> _]. rewrite Hs. by rewrite !orb_true_r.
Qed.

(** Everything an event can invalidate is a candidate, a carve-out or a limited
    query the event expands to. *)
Lemma invalidates_narrowed us table_metadata event candidates fp q :
  accounts us (us_queries us) ->
  (forall fp q, us_queries us !! fp = Some q ->
     row_constraints_match (uq_constraints q) table_metadata (ev_row_data event) = true ->
     fp ∈ candidates) ->
  us_queries us !! fp = Some q ->
  query_row_invalidates q table_metadata event = true ->
  fp ∈ narrowed_candidates us event candidates.
Proof.
  intros Ha Hcand Hq Hinv. unfold narrowed_candidates. rewrite !elem_of_app, !elem_of_elements.
  assert (Hal : source_always (uq_source q) = true -> fp ∈ us_always_check us)
    by (intros; apply (ac_always _ _ Ha); eauto).
  assert (Hli : limit_from q = true -> fp ∈ us_has_limit_from us)
    by (intros; apply (ac_limit _ _ Ha); eauto).
  unfold query_row_invalidates in Hinv. destruct (ev_row_changes event) as [rc|].
  - apply row_cached_cases in Hinv as [?|[(Hl & _ & [Hp|Hm])|[_ Hm]]]; [tauto| |left; eauto..].
    right; right. destruct (ev_operation event); [|by apply elem_of_elements, Hli].
    rewrite (proj2 (limit_predicate_changed_spec us rc Ha)); [by apply elem_of_elements, Hli|].
    apply columns_changed_spec in Hp as (c & Hc%elem_of_elements & Hcc). by exists fp, q, c.
  - apply row_uncached_cases in Hinv as [?|[Hs Hr]]; [tauto|]. destruct (decide _) as [Ho|Ho].
    + right; right. rewrite Ho. apply elem_of_elements, Hli.
      unfold limit_from. simpl. by rewrite Hr, Hs.
    + left. eapply Hcand; [done|]. by apply relevant_matches, Hr.
Qed.

Lemma check_invalidate_elem us table_metadata event candidates fp :
  accounts us (us_queries us) ->
  (forall fp q, us_queries us !! fp = Some q ->
     row_constraints_match (uq_constraints q) table_metadata (ev_row_data event) = true ->
     fp ∈ candidates) ->
  fp ∈ update_queries_check_invalidate us table_metadata event candidates <->
  exists q, us_queries us !! fp = Some q /\
    query_row_invalidates q table_metadata event = true.
Proof.
  intros Ha Hcand. unfold update_queries_check_invalidate.
  rewrite list_elem_of_In, filter_In, <- list_elem_of_In. split.
  - intros [_ H]. destruct (us_queries us !! fp) as [q|]; [eauto|done].
  - intros (q & Hq & Hi). rewrite Hq. split; [|done]. by eapply invalidates_narrowed.
Qed.

Lemma join_membership_stable q table_metadata event rc :
  join_membership_unchanged q table_metadata (ev_key_data event) = true ->
  (ev_key_data event = Some [] ->
   forall pk, pk ∈ tm_primary_key_columns table_metadata ->
     exists cc, rc !! pk = Some cc /\ cc_changed cc = false) ->
  join_columns_changed q table_metadata rc = false.
Proof.
  intros Hu Hpk. destruct (join_columns_changed q table_metadata rc) eqn:Hj; [|done].
  apply join_columns_changed_nonempty in Hj as (c & Hc & Hcc). exfalso.
  unfold join_membership_unchanged in Hu. destruct (ev_key_data event) as [[|]|]; [|done..].
  assert (Hall : forallb (fun col => existsb (fun pk => bool_decide (pk = col))
    (tm_primary_key_columns table_metadata))
    (table_join_columns (uq_constraints q) (tm_name table_metadata)) = true)
    by (by destruct (table_join_columns _ _)).
  rewrite forallb_elem in Hall. specialize (Hall c Hc).
  apply existsb_elem in Hall as (pk & Hin & ->%bool_decide_eq_true).
  destruct (Hpk eq_refl c Hin) as (cc & Hl & Hch). rewrite Hl in Hcc. congruence.
Qed.

Lemma toast_fallback_upper_bound q table_metadata event toasted rc :
  (uq_is_single_table q = true ->
   table_join_columns (uq_constraints q) (tm_name table_metadata) = []) ->
  (ev_key_data event = Some [] ->
   forall pk, pk ∈ tm_primary_key_columns table_metadata ->
     exists cc, rc !! pk = Some cc /\ cc_changed cc = false) ->
  ev_operation event = CdcUpsert ->
  row_cached_invalidates q table_metadata (ev_row_data event) rc = true \/
  row_uncached_invalidates q table_metadata event = true ->
  toast_fallback_structural_invalidate q table_metadata event toasted = true.
Proof.
  intros Hsingle Hpk Hop Hinv. unfold toast_fallback_structural_invalidate.
  destruct (existsb _ _); [done|].
  assert (Hmulti : uq_has_limit q = true \/
    (uq_is_single_table q = false /\ row_relevant q table_metadata event = true) ->
    uq_has_limit q || negb (uq_is_single_table q) && row_relevant q table_metadata event = true).
  { intros [-> |[-> ->]]; [done|apply orb_true_r]. }
  destruct Hinv as [Hinv|Hinv].
  - apply row_cached_cases in Hinv as [Ha|[(Hl & _)|[Hj Hm]]].
    + by destruct (uq_source q).
    + unfold limit_from in Hl. simpl in Hl. bool_hyps. destruct (uq_source q); [|done..].
      apply Hmulti. by left.
    + destruct (uq_source q); try done; apply Hmulti; right;
        (split; [destruct (uq_is_single_table q); [|done];
           apply join_columns_changed_nonempty in Hj as (c & Hc & _);
           rewrite Hsingle in Hc by done; by apply not_elem_of_nil in Hc|]);
        unfold row_relevant; destruct (qc_table_constraints _ !! _); [done| |done|];
        apply negb_true_iff; destruct (join_membership_unchanged _ _ _) eqn:Hu; try done;
        by rewrite (join_membership_stable _ _ _ _ Hu Hpk) in Hj.
  - apply row_uncached_cases in Hinv as [Ha|[Hs Hr]]; [by destruct (uq_source q)|].
    rewrite Hs. apply Hmulti. rewrite Hop in Hr. destruct (decide _); [done|tauto].
Qed.

(** Queries that carry the static flag may skip the dynamic check. *)
Lemma upsert_skip_safe (oid : N) (ops : list UqOp)
    (table_metadata : TableMetadata) (event : RowEvent)
    (Hop : ev_operation event = CdcUpsert)
    (Hflags : forall fp q, us_queries (uq_run oid ops) !! fp = Some q ->
       uq_change_dependent q = update_invalidation_possible q (tm_name table_metadata)) :
  (forall fp q, us_queries (uq_run oid ops) !! fp = Some q ->
     query_row_invalidates q table_metadata event = true -> uq_change_dependent q = true) /\
  (needs_change_eval (uq_run oid ops) = false ->
   forall candidates, update_queries_check_invalidate (uq_run oid ops) table_metadata event
     candidates = []).
Proof.
  assert (Hdep : forall fp q, us_queries (uq_run oid ops) !! fp = Some q ->
     query_row_invalidates q table_metadata event = true -> uq_change_dependent q = true).
  { intros fp q Hq Hi. rewrite (Hflags fp q Hq). by apply (upsert_invalidation_possible _ _ event). }
  split; [done|]. intros Hno candidates.
  destruct (update_queries_check_invalidate _ _ _ _) as [|fp l] eqn:E; [done|].
  assert (Hin : In fp (update_queries_check_invalidate (uq_run oid ops) table_metadata event
    candidates)) by (rewrite E; by left).
  apply filter_In in Hin as [_ Hi].
  destruct (us_queries (uq_run oid ops) !! fp) as [q|] eqn:Eq; [|done].
  assert (needs_change_eval (uq_run oid ops) = true); [|congruence].
  apply needs_change_eval_spec; [apply uq_run_refines|eauto].
Qed.

(** ** Windows under promotion *)

Section window.
Context {Id V : Type} `{Countable Id}.

(** The order of a column's values, as the ORDER BY sort sees it. *)
Context (vcmp : string -> V -> V -> comparison).

Class ValueOrder := {
  vo_opp : forall c a b, vcmp c b a = CompOpp (vcmp c a b);
  vo_refl : forall c a, vcmp c a a = Eq;
  vo_le_trans : forall c x y z, vcmp c x y <> Gt -> vcmp c y z <> Gt -> vcmp c x z <> Gt
}.

(** One sort key on two possibly-NULL values. *)
Definition key_cmp (key : OrderByKey) (a b : option V) : comparison :=
  match a, b with
  | None, None => Eq
  | None, Some _ => if ok_nulls_first key then Lt else Gt
  | Some _, None => if ok_nulls_first key then Gt else Lt
  | Some a, Some b =>
      if ok_descending key then CompOpp (vcmp (ok_column key) a b)
      else vcmp (ok_column key) a b
  end.

(** A row's values by column name. *)
Definition Values : Type := string -> option V.

Fixpoint order_cmp (keys : list OrderByKey) (a b : Values) : comparison :=
  match keys with
  | [] => Eq
  | key :: keys =>
      match key_cmp key (a (ok_column key)) (b (ok_column key)) with
      | Eq => order_cmp keys a b
      | c => c
      end
  end.

(** A valid result of ORDER BY and LIMIT [n] over the rows [rows]: ties may be
    broken either way. *)
Definition window (keys : list OrderByKey) (n : nat) (rows : gset Id) (values : Id -> Values)
    (w : gset Id) : Prop :=
  w ⊆ rows /\ size w = n `min` size rows /\
  forall x y, x ∈ w -> y ∈ rows -> y ∉ w -> order_cmp keys (values x) (values y) <> Gt.

(** The row-change lookup agrees with the row's old and new values. *)
Definition changes_reflect (table_metadata : TableMetadata) (row_data : list (option string))
    (rc : RowChanges) (old new : Values) (column : string) : Prop :=
  (forall cc, rc !! column = Some cc ->
     (cc_changed cc = false -> old column = new column) /\
     (cc_old_is_null cc = true <-> old column = None) /\
     (forall a b lt, old column = Some a -> new column = Some b ->
        cc_changed cc = true -> cc_old_less_than_new cc = Some lt ->
        vcmp column a b = if lt then Lt else Gt)) /\
  (forall v, table_row_value table_metadata row_data column = Some v ->
     v = None <-> new column = None).

Context `{!ValueOrder}.

Lemma forward_key table_metadata row_data rc old new key cc v :
  changes_reflect table_metadata row_data rc old new (ok_column key) ->
  rc !! ok_column key = Some cc -> cc_changed cc = true ->
  table_row_value table_metadata row_data (ok_column key) = Some v ->
  sort_key_move_is_forward key cc (is_none v) = true ->
  key_cmp key (new (ok_column key)) (old (ok_column key)) = Lt.
Proof.
  intros [Hcc Hv] Hl Hch Hrow Hf. destruct (Hcc cc Hl) as (_ & Hnull & Hlt).
  specialize (Hv v Hrow). unfold sort_key_move_is_forward in Hf. unfold key_cmp.
  destruct (old (ok_column key)) as [a|] eqn:Eo, (new (ok_column key)) as [b|] eqn:En;
    destruct (cc_old_is_null cc); try (by destruct Hnull as [H1 H2]; (discriminate (H1 eq_refl) || discriminate (H2 eq_refl)));
    destruct v; simpl in Hf;
    try (by destruct Hv as [H1 H2]; (discriminate (H1 eq_refl) || discriminate (H2 eq_refl)));
    try done.
  - destruct (cc_old_less_than_new cc) as [lt|] eqn:El; [|done].
    rewrite vo_opp, (Hlt a b lt) by done. by destruct lt, (ok_descending key).
  - by rewrite Hf.
  - by destruct (ok_nulls_first key).
Qed.

Lemma promotion_order_cmp table_metadata row_data rc old new keys :
  (forall key, key ∈ keys ->
     changes_reflect table_metadata row_data rc old new (ok_column key)) ->
  first_change_is_forward table_metadata row_data rc keys = true ->
  order_cmp keys new old = Lt.
Proof.
  induction keys as [|key keys IH]; simpl; intros Href Hf; [done|].
  destruct (rc !! ok_column key) as [cc|] eqn:El; [|done].
  assert (Hk : changes_reflect table_metadata row_data rc old new (ok_column key))
    by (apply Href; by left).
  destruct (cc_changed cc) eqn:Ec; simpl in Hf.
  - destruct (table_row_value _ _ _) as [v|] eqn:Ev; [|done].
    by rewrite (forward_key _ _ _ _ _ _ _ _ Hk El Ec Ev Hf).
  - rewrite (proj1 (proj1 Hk cc El)) by done.
    assert (key_cmp key (new (ok_column key)) (new (ok_column key)) = Eq) as ->.
    { unfold key_cmp. destruct (new _); [|done]. rewrite vo_refl. by destruct (ok_descending _). }
    apply IH; [|done]. intros k Hk'. apply Href. by right.
Qed.

Lemma key_cmp_opp key a b : key_cmp key b a = CompOpp (key_cmp key a b).
Proof.
  destruct a as [a|], b as [b|]; simpl; try by destruct (ok_nulls_first key).
  rewrite (vo_opp _ a b). by destruct (ok_descending key), (vcmp _ a b).
Qed.

Lemma key_cmp_trans key a b c :
  key_cmp key a b <> Gt -> key_cmp key b c <> Gt -> key_cmp key a c <> Gt.
Proof.
  destruct a as [a|], b as [b|], c as [c|]; simpl; try by destruct (ok_nulls_first key).
  destruct (ok_descending key); [|apply vo_le_trans].
  rewrite <- !vo_opp. intros Hab Hbc. by apply (vo_le_trans _ _ b).
Qed.

Lemma order_cmp_opp keys a b : order_cmp keys b a = CompOpp (order_cmp keys a b).
Proof.
  induction keys as [|key keys IH]; simpl; [done|]. rewrite key_cmp_opp.
  by destruct (key_cmp key _ _).
Qed.

Lemma key_cmp_trans_lt key a b c :
  key_cmp key a b <> Gt -> key_cmp key b c <> Gt ->
  key_cmp key a c = Eq -> key_cmp key a b = Eq /\ key_cmp key b c = Eq.
Proof.
  intros Hab Hbc Hac.
  assert (Hca : key_cmp key c a <> Gt) by (rewrite key_cmp_opp, Hac; done).
  pose proof (key_cmp_trans key _ _ _ Hbc Hca) as Hba.
  pose proof (key_cmp_trans key _ _ _ Hca Hab) as Hcb.
  rewrite key_cmp_opp in Hba. rewrite key_cmp_opp in Hcb.
  by destruct (key_cmp key a b), (key_cmp key b c).
Qed.

Lemma order_cmp_trans keys a b c :
  order_cmp keys a b <> Gt -> order_cmp keys b c <> Gt -> order_cmp keys a c <> Gt.
Proof.
  induction keys as [|key keys IH]; simpl; [done|]. intros Hab Hbc.
  set (x := a (ok_column key)) in *. set (y := b (ok_column key)) in *.
  set (z := c (ok_column key)) in *.
  assert (H1 : key_cmp key x y <> Gt) by (by destruct (key_cmp key x y)).
  assert (H2 : key_cmp key y z <> Gt) by (by destruct (key_cmp key y z)).
  pose proof (key_cmp_trans key _ _ _ H1 H2) as H3.
  destruct (key_cmp key x z) eqn:E; try done.
  destruct (key_cmp_trans_lt key _ _ _ H1 H2 E) as [Exy Eyz].
  rewrite Exy in Hab. rewrite Eyz in Hbc. by apply IH.
Qed.

Lemma window_max keys (values : Id -> Values) (w : gset Id) :
  w <> ∅ ->
  exists m, m ∈ w /\ forall x, x ∈ w -> order_cmp keys (values x) (values m) <> Gt.
Proof.
  induction w as [|a w Ha IH] using set_ind_L; [done|]. intros _.
  assert (Hrefl : forall v : Values, order_cmp keys v v <> Gt).
  { intros v Hv. pose proof (order_cmp_opp keys v v) as Ho. by rewrite Hv in Ho. }
  destruct (decide (w = ∅)) as [-> |Hne].
  { exists a. split; [set_solver|]. intros x Hx. assert (x = a) as -> by set_solver. auto. }
  destruct (IH Hne) as (m & Hm & Hmax).
  destruct (order_cmp keys (values a) (values m)) eqn:E.
  3: { exists a. split; [set_solver|]. intros x [Hx|Hx]%elem_of_union.
       - assert (x = a) as -> by set_solver. auto.
       - apply (order_cmp_trans keys _ (values m)); [by apply Hmax|].
         by rewrite order_cmp_opp, E. }
  all: exists m; split; [set_solver|]; intros x [Hx|Hx]%elem_of_union; [|by apply Hmax];
    assert (x = a) as -> by set_solver; by rewrite E.
Qed.

(** Moving a row forward leaves a valid window among the old one and that row. *)
Lemma promotion_window keys n rows (old new : Id -> Values) r w :
  (forall x, x <> r -> new x = old x) ->
  order_cmp keys (new r) (old r) = Lt ->
  window keys n rows old w ->
  exists w', w' ⊆ {[r]} ∪ w /\ window keys n rows new w'.
Proof.
  intros Hsame Hpro (Hsub & Hsize & Hord).
  assert (Hfwd : forall v, order_cmp keys (old r) v <> Gt -> order_cmp keys (new r) v <> Gt).
  { intros v. apply order_cmp_trans. by rewrite Hpro. }
  destruct (decide (r ∈ rows /\ r ∉ w)) as [[Hr Hrw]|Hnot].
  2: { exists w. split; [set_solver|]. split_and!; [done..|]. intros x y Hx Hy Hyw.
       assert (y <> r) as Hyr by (intros ->; tauto). rewrite (Hsame y Hyr).
       destruct (decide (x = r)) as [-> |Hxr]; [apply Hfwd|rewrite (Hsame x Hxr)]; by apply Hord. }
  assert (Hlt : size w < size rows) by (apply subset_size; set_solver).
  assert (Hn : size w = n) by lia.
  destruct (decide (w = ∅)) as [Hempty|Hne].
  { exists w. split; [set_solver|]. split_and!; [done..|]. intros x y Hx. set_solver. }
  destruct (window_max keys old w Hne) as (m & Hm & Hmax).
  assert (Hmr : m <> r) by set_solver.
  destruct (decide (order_cmp keys (new r) (old m) = Gt)) as [Hgt|Hle].
  - exists w. split; [set_solver|]. split_and!; [done..|]. intros x y Hx Hy Hyw.
    rewrite (Hsame x) by set_solver. destruct (decide (y = r)) as [-> |Hyr].
    + apply (order_cmp_trans keys _ (old m)); [by apply Hmax|]. by rewrite order_cmp_opp, Hgt.
    + rewrite (Hsame y Hyr). by apply Hord.
  - exists ({[r]} ∪ (w ∖ {[m]})). split; [set_solver|]. split_and!.
    + set_solver.
    + rewrite size_union by set_solver. rewrite size_difference by set_solver.
      rewrite !size_singleton. assert (size w <> 0) by (intros E%size_empty_inv; set_solver). lia.
    + intros x y Hx Hy Hyw. rewrite (Hsame y) by set_solver.
      assert (Hmy : order_cmp keys (old m) (old y) <> Gt).
      { destruct (decide (y = m)) as [-> |Hym]; [by apply Hmax|]. apply Hord; set_solver. }
      destruct (decide (x = r)) as [-> |Hxr]; [by apply (order_cmp_trans keys _ (old m))|].
      rewrite (Hsame x Hxr). apply (order_cmp_trans keys _ (old m)); [|done].
      apply Hmax. set_solver.
Qed.
End window.

(** ** Properties *)

(** C30: narrowing the invalidation check loses nothing.  After any registrations
    and removals on the relation, if the candidate set holds every query whose
    constraints the row matches, the fingerprints the narrowed check returns are
    exactly the registered queries the row event invalidates: the carve-out sets
    and the LIMIT expansion cover every query invalidated without matching. *)
Theorem narrowed_check_exact (oid : N) (ops : list UqOp) (table_metadata : TableMetadata)
    (event : RowEvent) (candidates : gset Fingerprint) (fp : Fingerprint)
    (Hcandidates : forall fp q, us_queries (uq_run oid ops) !! fp = Some q ->
       row_constraints_match (uq_constraints q) table_metadata (ev_row_data event) = true ->
       fp ∈ candidates) :
  fp ∈ update_queries_check_invalidate (uq_run oid ops) table_metadata event candidates <->
  exists q, us_queries (uq_run oid ops) !! fp = Some q /\
    query_row_invalidates q table_metadata event = true.
Proof. apply check_invalidate_elem; [apply uq_run_refines|done]. Qed.

(** C37: the toast fallback is a conservative union.  When the changed columns of an
    update cannot be known, a query the structural check lets pass is one that
    neither the cached-row check, for any row changes that leave an unchanged key
    unchanged, nor the uncached-row check would invalidate. *)
Theorem toast_fallback_conservative (q : UpdateQuery) (table_metadata : TableMetadata)
    (event : RowEvent) (toasted : list string) (rc : RowChanges)
    (Hsingle : uq_is_single_table q = true ->
       table_join_columns (uq_constraints q) (tm_name table_metadata) = [])
    (Hkey : ev_key_data event = Some [] ->
       forall pk, pk ∈ tm_primary_key_columns table_metadata ->
         exists cc, rc !! pk = Some cc /\ cc_changed cc = false)
    (Hop : ev_operation event = CdcUpsert)
    (Hpass : toast_fallback_structural_invalidate q table_metadata event toasted = false) :
  row_cached_invalidates q table_metadata (ev_row_data event) rc = false /\
  row_uncached_invalidates q table_metadata event = false.
Proof.
  split; apply not_true_is_false; intros Hinv;
    rewrite (toast_fallback_upper_bound q table_metadata event toasted rc) in Hpass; auto; done.
Qed.

(** C29: a promotion never opens a gap in a LIMIT window.  If the update of a row is
    judged a promotion, its recorded changes agree with its old and new values on
    the ORDER BY columns, and [w] was a valid window of [n] rows before the
    update, then some valid window after it uses only rows of [w] and the updated
    row, which are all cached. *)
Theorem promotion_keeps_window {Id V} `{Countable Id}
    (vcmp : string -> V -> V -> comparison) `{!ValueOrder vcmp}
    (q : UpdateQuery) (keys : list OrderByKey) (table_metadata : TableMetadata)
    (row_data : list (option string)) (rc : RowChanges)
    (n : nat) (rows w : gset Id) (old new : Id -> Values) (r : Id)
    (Hkeys : uq_order_by_keys q = Some keys)
    (Hpromotion : window_move_is_promotion q table_metadata row_data rc = true)
    (Hreflect : forall key, key ∈ keys ->
       changes_reflect vcmp table_metadata row_data rc (old r) (new r) (ok_column key))
    (Hothers : forall x, x <> r -> new x = old x)
    (Hwindow : window vcmp keys n rows old w) :
  exists w', w' ⊆ {[r]} ∪ w /\ window vcmp keys n rows new w'.
Proof.
  unfold window_move_is_promotion in Hpromotion. rewrite Hkeys in Hpromotion.
  destruct (negb _); [done|]. apply (promotion_window vcmp _ _ _ old _ r); [done| |done].
  by apply (promotion_order_cmp vcmp table_metadata row_data rc).
Qed.

Module InvalidationWitness.
Definition col (name : string) (pos : Z) : ColumnMetadata :=
  {| cm_name := name; cm_position := pos; cm_type_oid := 23; cm_data_type := TInt4;
     cm_type_name := "int4"; cm_cache_type_name := "int4"; cm_is_primary_key := (pos =? 1)%Z |}.

Definition posts : TableMetadata :=
  {| tm_relation_oid := 7; tm_name := "posts"; tm_schema := "public";
     tm_primary_key_columns := ["id"];
     tm_columns := column_store_new [col "id" 1; col "author" 2; col "score" 3];
     tm_replica_identity_full := false |}.

Definition by_score : list OrderByKey :=
  [{| ok_column := "score"; ok_descending := true; ok_nulls_first := true |}].

Definition author_is (a : Z) : list TableConstraint :=
  [TcComparison "author" OpEqual (LInteger a)].

Definition empty_select : ResolvedQueryExpr :=
  QueryExpr (QbSelect (SelectNode false None [] None [] None)) [] None.

(** [SELECT .. FROM posts WHERE author = a ORDER BY score DESC LIMIT ..] *)
Definition top_posts (fp : Fingerprint) (a : Z) : UpdateQuery :=
  {| uq_fingerprint := fp; uq_resolved := empty_select; uq_source := UsFromClause;
     uq_constraints := {| qc_column_constraints := []; qc_equivalences := [];
       qc_table_constraints := {["posts" := author_is a]}; qc_where_analysis_complete := true |};
     uq_has_limit := true; uq_eval_strategy := LocalEval;
     uq_limit_window_columns := {["score"; "author"]}; uq_order_by_keys := Some by_score;
     uq_change_dependent := true; uq_pg_batchable := false;
     uq_predicate_columns := {["author"]}; uq_is_single_table := true;
     uq_compiled_where := None |}.

Definition admission_of (fp : Fingerprint) (a : Z) : TableAdmission :=
  {| ad_relation_oid := 7; ad_table_name := "posts"; ad_update_query := top_posts fp a;
     ad_subsumer_eligible := false; ad_index_constraints := author_is a |}.

Definition the_ops : list UqOp := [UqRegister (admission_of 1%N 4); UqRegister (admission_of 2%N 5)].

Definition changes (lt : bool) : RowChanges :=
  {["score" := {| cc_changed := true; cc_old_less_than_new := Some lt; cc_old_is_null := false |};
    "author" := {| cc_changed := false; cc_old_less_than_new := None; cc_old_is_null := false |};
    "id" := {| cc_changed := false; cc_old_less_than_new := None; cc_old_is_null := false |}]}.

(** The score of post 9 by author 4 drops, or rises. *)
Definition score_event (lt : bool) : RowEvent :=
  {| ev_row_data := [Some "9"; Some "4"; Some "20"]; ev_key_data := Some [];
     ev_operation := CdcUpsert; ev_row_changes := Some (changes lt) |}.

Lemma the_queries fp q :
  us_queries (uq_run 7 the_ops) !! fp = Some q ->
  (fp = 1%N /\ q = top_posts 1%N 4) \/ (fp = 2%N /\ q = top_posts 2%N 5).
Proof.
  rewrite (ur_queries _ _ (uq_run_refines 7 the_ops)), lookup_fmap.
  change (admitted the_ops)
    with (<[2%N := admission_of 2%N 5]> (<[1%N := admission_of 1%N 4]> (∅ : gmap Fingerprint TableAdmission))).
  intros (a & Ha & ->)%fmap_Some.
  destruct (decide (fp = 2%N)) as [-> |H2]; [rewrite lookup_insert_eq in Ha; injection Ha as <-; by right|].
  rewrite lookup_insert_ne in Ha by done.
  destruct (decide (fp = 1%N)) as [-> |H1]; [rewrite lookup_insert_eq in Ha; injection Ha as <-; by left|].
  rewrite lookup_insert_ne in Ha by done. done.
Qed.

Lemma narrowed_check_exact_witness :
  1%N ∈ update_queries_check_invalidate (uq_run 7 the_ops) posts (score_event false) {[1%N]} <->
  exists q, us_queries (uq_run 7 the_ops) !! 1%N = Some q /\
    query_row_invalidates q posts (score_event false) = true.
Proof.
  apply narrowed_check_exact.
  intros fp q [[-> ->]|[-> ->]]%the_queries; [intros _; set_solver|]. by vm_compute.
Defined.

(** An unlimited single-table query passes the structural check. *)
Definition all_posts : UpdateQuery :=
  {| uq_fingerprint := 3%N; uq_resolved := empty_select; uq_source := UsFromClause;
     uq_constraints := query_constraints_default; uq_has_limit := false;
     uq_eval_strategy := LocalEval; uq_limit_window_columns := ∅; uq_order_by_keys := None;
     uq_change_dependent := false; uq_pg_batchable := false; uq_predicate_columns := ∅;
     uq_is_single_table := true; uq_compiled_where := None |}.

Lemma toast_fallback_conservative_witness :
  row_cached_invalidates all_posts posts [Some "9"; Some "4"; Some "20"] (changes true) = false /\
  row_uncached_invalidates all_posts posts (score_event true) = false.
Proof.
  apply (toast_fallback_conservative all_posts posts (score_event true) ["body"] (changes true));
    try reflexivity.
  intros _ pk Hpk. assert (pk = "id") as -> by set_solver. eexists. split; reflexivity.
Defined.

(** Posts 9 and 8 with scores 10 and 15; post 9 rises to 20, a window of one row. *)
Definition zcmp (c : string) (a b : Z) : comparison := (a ?= b)%Z.

#[export] Instance zcmp_order : ValueOrder zcmp.
Proof.
  unfold zcmp. split; intros.
  - apply Z.compare_antisym.
  - apply Z.compare_refl.
  - rewrite Z.compare_gt_iff in *. lia.
Defined.

Definition old_values (x : N) : @Values Z := fun _ => Some (if (x =? 9)%N then 10%Z else 15%Z).
Definition new_values (x : N) : @Values Z := fun _ => Some (if (x =? 9)%N then 20%Z else 15%Z).

Lemma promotion_keeps_window_witness :
  exists w' : gset N, w' ⊆ {[9%N]} ∪ {[8%N]} /\
    window zcmp by_score 1 {[8%N; 9%N]} new_values w'.
Proof.
  apply (promotion_keeps_window zcmp (top_posts 1%N 4) by_score posts
    [Some "9"; Some "4"; Some "20"] (changes true) 1 {[8%N; 9%N]} {[8%N]}
    old_values new_values 9%N).
  - reflexivity.
  - vm_compute. reflexivity.
  - intros key Hkey. assert (key = {| ok_column := "score"; ok_descending := true;
      ok_nulls_first := true |}) as -> by set_solver. split.
    + intros cc Hcc. vm_compute in Hcc. injection Hcc as <-. split_and!; [done|done|].
      intros a b lt [= <-] [= <-] _ [= <-]. reflexivity.
    + intros v Hv. vm_compute in Hv. injection Hv as <-. done.
  - intros x Hx. unfold new_values, old_values. by rewrite (proj2 (N.eqb_neq x 9) Hx).
  - split_and!; [set_solver|reflexivity|]. intros x y Hx Hy Hyw.
    assert (x = 8%N) as -> by set_solver. assert (y = 9%N) as -> by set_solver. done.
Defined.
End InvalidationWitness.
