(* ===== verification/Branches.v ===== *)
(** * Walking the resolved AST

    Models the uniform pre-order walk of src/src/query/resolved/traverse.rs, the
    collection of SELECT branches with their sources
    (src/src/query/resolved/subquery_collect.rs), the direct tables and aggregates of
    src/src/query/resolved/analysis.rs, the outer-join analysis of
    src/src/cache/query/outer_join.rs and the per-table update queries of
    src/src/query/update.rs. *)

From S2P Require Import Prelude Value Ast Range Subsume Evaluate Catalog UpdateQuery Invalidation.

(** ** The uniform walk

    [nodes::<N>] for the two node types the code asks for; [on_column] and
    [on_table] say what a node of each type contributes. *)

Section walk.
Context {A : Type} (on_column : ResolvedColumnNode -> list A) (on_table : ResolvedTableNode -> list A).

Definition opt_walk {B} (f : B -> list A) (o : option B) : list A :=
  match o with Some x => f x | None => [] end.

Fixpoint scalar_walk (e : ResolvedScalarExpr) : list A :=
  match e with
  | SColumn c => on_column c
  | SIdentifier _ | SLiteral _ => []
  | SFunction f => function_walk f
  | SCase arg whens default =>
      opt_walk scalar_walk arg ++ flat_map case_when_walk whens ++ opt_walk scalar_walk default
  | SArithmetic l _ r => scalar_walk l ++ scalar_walk r
  | SSubquery q _ => query_walk q
  | SArray elems => flat_map scalar_walk elems
  | STypeCast e _ => scalar_walk e
  end
with function_walk (f : ResolvedFunctionCall) : list A :=
  match f with
  | FunctionCall _ args _ _ agg_order agg_filter over =>
      flat_map scalar_walk args ++ flat_map order_by_walk agg_order
      ++ opt_walk where_walk agg_filter ++ opt_walk window_spec_walk over
  end
with window_spec_walk (w : ResolvedWindowSpec) : list A :=
  match w with
  | WindowSpec partition_by order_by frame =>
      flat_map scalar_walk partition_by ++ flat_map order_by_walk order_by
      ++ opt_walk window_frame_walk frame
  end
with window_frame_walk (w : ResolvedWindowFrame) : list A :=
  match w with
  | WindowFrame _ start finish _ => frame_bound_walk start ++ frame_bound_walk finish
  end
with frame_bound_walk (b : ResolvedFrameBound) : list A :=
  match b with
  | FbOffsetPreceding e | FbOffsetFollowing e => scalar_walk e
  | FbUnboundedPreceding | FbCurrentRow | FbUnboundedFollowing => []
  end
with case_when_walk (w : ResolvedCaseWhen) : list A :=
  match w with CaseWhen condition result => where_walk condition ++ scalar_walk result end
with order_by_walk (o : ResolvedOrderByClause) : list A :=
  match o with OrderByClause e _ _ => scalar_walk e end
with where_walk (e : ResolvedWhereExpr) : list A :=
  match e with
  | WScalar s => scalar_walk s
  | WUnary _ e => where_walk e
  | WBinary _ l r => where_walk l ++ where_walk r
  | WMulti _ es => flat_map where_walk es
  | WSubquery q _ test_expr _ => query_walk q ++ opt_walk scalar_walk test_expr
  end
with source_walk (s : ResolvedTableSource) : list A :=
  match s with
  | TsTable t => on_table t
  | TsSubquery q _ _ => query_walk q
  | TsJoin _ l r qual => source_walk l ++ source_walk r ++ qual_walk qual
  end
with qual_walk (q : ResolvedJoinQual) : list A :=
  match q with JqOn e | JqUsing _ e => where_walk e | JqCross => [] end
with select_walk (s : ResolvedSelectNode) : list A :=
  match s with
  | SelectNode _ columns from where_clause group_by having =>
      opt_walk (flat_map (fun c => scalar_walk c.1)) columns ++ flat_map source_walk from
      ++ opt_walk where_walk where_clause ++ flat_map on_column group_by
      ++ opt_walk where_walk having
  end
with body_walk (b : ResolvedQueryBody) : list A :=
  match b with
  | QbSelect s => select_walk s
  | QbValues _ => []
  | QbSetOp _ _ l r => query_walk l ++ query_walk r
  end
with query_walk (q : ResolvedQueryExpr) : list A :=
  match q with QueryExpr body order_by _ => body_walk body ++ flat_map order_by_walk order_by end.
End walk.

Definition no_nodes {A B} (_ : B) : list A := [].

(** [nodes::<ResolvedColumnNode>] and [nodes::<ResolvedTableNode>]. *)
Definition where_columns : ResolvedWhereExpr -> list ResolvedColumnNode :=
  where_walk (fun c => [c]) no_nodes.
Definition query_tables : ResolvedQueryExpr -> list ResolvedTableNode :=
  query_walk no_nodes (fun t => [t]).

Definition as_select (q : ResolvedQueryExpr) : option ResolvedSelectNode :=
  match q with
  | QueryExpr (QbSelect s) _ _ => Some s
  | QueryExpr (QbValues _) _ _ | QueryExpr (QbSetOp _ _ _ _) _ _ => None
  end.

(** [ResolvedQueryExpr::is_single_table] stops at the second table node. *)
Definition query_is_single_table (q : ResolvedQueryExpr) : bool :=
  match query_tables q with [] | [_] => true | _ => false end.

(** [ResolvedSelectNode::is_single_table]. *)
Definition select_is_single_table (s : ResolvedSelectNode) : bool :=
  match sel_from s with [TsTable _] => true | _ => false end.

Fixpoint direct_table_nodes_collect (s : ResolvedTableSource) : list ResolvedTableNode :=
  match s with
  | TsTable t => [t]
  | TsSubquery _ _ _ => []
  | TsJoin _ l r _ => direct_table_nodes_collect l ++ direct_table_nodes_collect r
  end.

Definition direct_table_nodes (s : ResolvedSelectNode) : list ResolvedTableNode :=
  flat_map direct_table_nodes_collect (sel_from s).

(** ** SELECT branches and their sources *)

Definition Branch : Type := ResolvedSelectNode * UpdateQuerySource.

Definition sublink_kind (sublink_type : SubLinkType) (negated : bool) : SubqueryKind :=
  match sublink_type with
  | SlExpr => SkScalar
  | SlAny | SlExists => if negated then SkExclusion else SkInclusion
  | SlAll => if negated then SkInclusion else SkExclusion
  end.

Definition source_kind (kind : SubqueryKind) (negated : bool) : SubqueryKind :=
  match kind, negated with
  | SkScalar, _ => SkScalar
  | SkInclusion, true => SkExclusion
  | SkExclusion, true => SkInclusion
  | kind, false => kind
  end.

(** The overwrite of [subquery_nodes_collect_as_scalar]. *)
Definition force_scalar (b : Branch) : Branch :=
  match b with
  | (s, UsSubquery _) => (s, UsSubquery SkScalar)
  | b => b
  end.

(** Each function returns the branches the source pushes, in order. *)
Fixpoint where_branches (e : ResolvedWhereExpr) (negated : bool) : list Branch :=
  match e with
  | WScalar s => scalar_branches s
  | WBinary _ l r => where_branches l negated ++ where_branches r negated
  | WUnary op e =>
      let child_negated := match op with UNot => negb negated | _ => negated end in
      where_branches e child_negated
  | WMulti _ es => flat_map (fun e => where_branches e negated) es
  | WSubquery q sublink_type test_expr _ =>
      query_branches q (UsSubquery (sublink_kind sublink_type negated)) negated
      ++ opt_walk scalar_branches test_expr
  end
with scalar_branches (e : ResolvedScalarExpr) : list Branch :=
  match e with
  | SColumn _ | SIdentifier _ | SLiteral _ => []
  | SFunction f => function_branches f
  | SCase arg whens default =>
      opt_walk scalar_branches arg ++ flat_map case_when_branches whens
      ++ opt_walk scalar_branches default
  | SArithmetic l _ r => scalar_branches l ++ scalar_branches r
  | SSubquery q _ => query_branches q (UsSubquery SkScalar) false
  | SArray elems => flat_map scalar_branches elems
  | STypeCast e _ => scalar_branches e
  end
with function_branches (f : ResolvedFunctionCall) : list Branch :=
  match f with
  | FunctionCall _ args _ _ agg_order agg_filter over =>
      flat_map scalar_branches args ++ flat_map order_by_branches agg_order
      ++ opt_walk (fun e => force_scalar <$> where_branches e false) agg_filter
      ++ opt_walk window_spec_branches over
  end
with window_spec_branches (w : ResolvedWindowSpec) : list Branch :=
  match w with
  | WindowSpec partition_by order_by _ =>
      flat_map scalar_branches partition_by ++ flat_map order_by_branches order_by
  end
with case_when_branches (w : ResolvedCaseWhen) : list Branch :=
  match w with
  | CaseWhen condition result =>
      (force_scalar <$> where_branches condition false) ++ scalar_branches result
  end
with order_by_branches (o : ResolvedOrderByClause) : list Branch :=
  match o with OrderByClause e _ _ => scalar_branches e end
with source_branches (s : ResolvedTableSource) (negated : bool) : list Branch :=
  match s with
  | TsTable _ => []
  | TsSubquery q _ kind => query_branches q (UsSubquery (source_kind kind negated)) negated
  | TsJoin _ l r qual =>
      source_branches l negated ++ source_branches r negated ++ qual_branches qual negated
  end
with qual_branches (q : ResolvedJoinQual) (negated : bool) : list Branch :=
  match q with JqOn e | JqUsing _ e => where_branches e negated | JqCross => [] end
with select_branches (s : ResolvedSelectNode) (negated : bool) : list Branch :=
  match s with
  | SelectNode _ columns from where_clause _ having =>
      flat_map (fun s => source_branches s negated) from
      ++ opt_walk (fun e => where_branches e negated) where_clause
      ++ opt_walk (fun e => where_branches e negated) having
      ++ opt_walk (flat_map (fun c => scalar_branches c.1)) columns
  end
with body_branches (b : ResolvedQueryBody) (outer_source : UpdateQuerySource) (negated : bool)
    : list Branch :=
  match b with
  | QbSelect s => (s, outer_source) :: select_branches s negated
  | QbValues _ => []
  | QbSetOp _ _ l r =>
      query_branches l outer_source negated ++ query_branches r outer_source negated
  end
with query_branches (q : ResolvedQueryExpr) (outer_source : UpdateQuerySource) (negated : bool)
    : list Branch :=
  match q with QueryExpr body _ _ => body_branches body outer_source negated end.

Definition select_nodes_with_source (q : ResolvedQueryExpr) : list Branch :=
  query_branches q UsFromClause false.

(** ** Aggregates and output names *)

Section aggregates.
Context (agg_fns : gset string).

Definition opt_any {B} (f : B -> bool) (o : option B) : bool :=
  match o with Some x => f x | None => false end.

(** Does not descend into scalar subqueries, CASE conditions or FILTER. *)
Fixpoint has_aggregate (e : ResolvedScalarExpr) : bool :=
  match e with
  | SFunction f => function_has_aggregate f
  | SCase arg whens default =>
      opt_any has_aggregate arg || existsb when_has_aggregate whens
      || opt_any has_aggregate default
  | SArithmetic l _ r => has_aggregate l || has_aggregate r
  | SArray elems => existsb has_aggregate elems
  | STypeCast e _ => has_aggregate e
  | SColumn _ | SIdentifier _ | SLiteral _ | SSubquery _ _ => false
  end
with function_has_aggregate (f : ResolvedFunctionCall) : bool :=
  match f with
  | FunctionCall name args _ _ _ _ _ =>
      bool_decide (name ∈ agg_fns) || existsb has_aggregate args
  end
with when_has_aggregate (w : ResolvedCaseWhen) : bool :=
  match w with CaseWhen _ result => has_aggregate result end.
End aggregates.

(** A SELECT column is its expression and alias. *)
Definition output_name (c : ResolvedScalarExpr * option string) : option string :=
  match c with
  | (_, Some alias) => Some alias
  | (SColumn c, None) => Some (rc_column c)
  | (SIdentifier name, None) => Some name
  | (_, None) => None
  end.

(** ** Outer joins *)

Definition table_refs (e : ResolvedWhereExpr) : gset string :=
  list_to_set (rc_table <$> where_columns e).

Fixpoint source_table_names (s : ResolvedTableSource) : gset string :=
  match s with
  | TsTable t => {[rt_name t]}
  | TsJoin _ l r _ => source_table_names l ∪ source_table_names r
  | TsSubquery _ _ _ => ∅
  end.

Definition optional_side (join_type : JoinType) (l r : ResolvedTableSource)
    : option ResolvedTableSource :=
  match join_type with
  | JLeft => Some r
  | JRight => Some l
  | JInner | JFull => None
  end.

(** [resolved_join_terminality_walk], on a source: the recursion enters a side only
    when it is a join.  Returns all optional tables and the non-terminal ones. *)
Fixpoint join_terminality_walk (s : ResolvedTableSource) (non_terminal_refs : gset string)
    : gset string * gset string :=
  match s with
  | TsTable _ | TsSubquery _ _ _ => (∅, ∅)
  | TsJoin join_type l r qual =>
      let optional_tables :=
        match optional_side join_type l r with
        | Some side => source_table_names side
        | None => ∅
        end in
      let child_refs :=
        match join_predicate qual with
        | Some condition => non_terminal_refs ∪ table_refs condition
        | None => non_terminal_refs
        end in
      let '(l_optional, l_non_terminal) := join_terminality_walk l child_refs in
      let '(r_optional, r_non_terminal) := join_terminality_walk r child_refs in
      (optional_tables ∪ l_optional ∪ r_optional,
       (optional_tables ∩ non_terminal_refs) ∪ l_non_terminal ∪ r_non_terminal)
  end.

(** Returns the terminal and the non-terminal tables. *)
Definition outer_join_optional_tables (select : ResolvedSelectNode)
    : gset string * gset string :=
  match sel_from select with
  | [TsJoin _ _ _ _ as join] =>
      let non_terminal_refs :=
        match sel_where select with Some w => table_refs w | None => ∅ end in
      let '(all_optional, non_terminal) := join_terminality_walk join non_terminal_refs in
      (all_optional ∖ non_terminal, non_terminal)
  | _ => (∅, ∅)
  end.

(** ** Update queries of a query *)

Definition select_true_columns : option (list (ResolvedScalarExpr * option string)) :=
  Some [(SLiteral (LBoolean true), None)].

Definition resolved_select_node_update_replace (node : ResolvedSelectNode)
    (columns : option (list (ResolvedScalarExpr * option string))) : ResolvedSelectNode :=
  let 'SelectNode distinct _ from where_clause group_by having := node in
  SelectNode distinct columns from where_clause group_by having.

Definition effective_source (source : UpdateQuerySource) (terminal non_terminal : gset string)
    (table : ResolvedTableNode) : UpdateQuerySource :=
  if decide (source = UsFromClause) then
    if bool_decide (rt_name table ∈ non_terminal) then UsOuterJoinOptional
    else if bool_decide (rt_name table ∈ terminal) then UsOuterJoinTerminal
    else source
  else source.

Definition branch_update_queries (b : Branch)
    : list (ResolvedTableNode * ResolvedQueryExpr * UpdateQuerySource) :=
  let '(branch, source) := b in
  let '(terminal, non_terminal) := outer_join_optional_tables branch in
  (fun table =>
     (table,
      QueryExpr (QbSelect (resolved_select_node_update_replace branch select_true_columns)) [] None,
      effective_source source terminal non_terminal table))
  <$> direct_table_nodes branch.

Definition query_table_update_queries (resolved : ResolvedQueryExpr)
    : list (ResolvedTableNode * ResolvedQueryExpr * UpdateQuerySource) :=
  flat_map branch_update_queries (select_nodes_with_source resolved).

(** ** Every table of a query belongs to a branch

    The positions the collection does not enter: the ORDER BY of a query and the
    bounds of a window frame. *)

Definition order_by_tables : ResolvedOrderByClause -> list ResolvedTableNode :=
  order_by_walk no_nodes (fun t => [t]).
Definition frame_tables : ResolvedWindowFrame -> list ResolvedTableNode :=
  window_frame_walk no_nodes (fun t => [t]).

Fixpoint where_skipped (e : ResolvedWhereExpr) : list ResolvedTableNode :=
  match e with
  | WScalar s => scalar_skipped s
  | WBinary _ l r => where_skipped l ++ where_skipped r
  | WUnary _ e => where_skipped e
  | WMulti _ es => flat_map where_skipped es
  | WSubquery q _ test_expr _ => query_skipped q ++ opt_walk scalar_skipped test_expr
  end
with scalar_skipped (e : ResolvedScalarExpr) : list ResolvedTableNode :=
  match e with
  | SColumn _ | SIdentifier _ | SLiteral _ => []
  | SFunction f => function_skipped f
  | SCase arg whens default =>
      opt_walk scalar_skipped arg ++ flat_map case_when_skipped whens
      ++ opt_walk scalar_skipped default
  | SArithmetic l _ r => scalar_skipped l ++ scalar_skipped r
  | SSubquery q _ => query_skipped q
  | SArray elems => flat_map scalar_skipped elems
  | STypeCast e _ => scalar_skipped e
  end
with function_skipped (f : ResolvedFunctionCall) : list ResolvedTableNode :=
  match f with
  | FunctionCall _ args _ _ agg_order agg_filter over =>
      flat_map scalar_skipped args ++ flat_map order_by_skipped agg_order
      ++ opt_walk where_skipped agg_filter ++ opt_walk window_spec_skipped over
  end
with window_spec_skipped (w : ResolvedWindowSpec) : list ResolvedTableNode :=
  match w with
  | WindowSpec partition_by order_by frame =>
      flat_map scalar_skipped partition_by ++ flat_map order_by_skipped order_by
      ++ opt_walk frame_tables frame
  end
with case_when_skipped (w : ResolvedCaseWhen) : list ResolvedTableNode :=
  match w with CaseWhen condition result => where_skipped condition ++ scalar_skipped result end
with order_by_skipped (o : ResolvedOrderByClause) : list ResolvedTableNode :=
  match o with OrderByClause e _ _ => scalar_skipped e end
with source_skipped (s : ResolvedTableSource) : list ResolvedTableNode :=
  match s with
  | TsTable _ => []
  | TsSubquery q _ _ => query_skipped q
  | TsJoin _ l r qual => source_skipped l ++ source_skipped r ++ qual_skipped qual
  end
with qual_skipped (q : ResolvedJoinQual) : list ResolvedTableNode :=
  match q with JqOn e | JqUsing _ e => where_skipped e | JqCross => [] end
with select_skipped (s : ResolvedSelectNode) : list ResolvedTableNode :=
  match s with
  | SelectNode _ columns from where_clause _ having =>
      flat_map source_skipped from ++ opt_walk where_skipped where_clause
      ++ opt_walk where_skipped having
      ++ opt_walk (flat_map (fun c => scalar_skipped c.1)) columns
  end
with body_skipped (b : ResolvedQueryBody) : list ResolvedTableNode :=
  match b with
  | QbSelect s => select_skipped s
  | QbValues _ => []
  | QbSetOp _ _ l r => query_skipped l ++ query_skipped r
  end
with query_skipped (q : ResolvedQueryExpr) : list ResolvedTableNode :=
  match q with
  | QueryExpr body order_by _ => body_skipped body ++ flat_map order_by_tables order_by
  end.

(** A table is a direct table of one of the branches, or sits in a skipped position. *)
Definition covered (t : ResolvedTableNode) (bs : list Branch) (skipped : list ResolvedTableNode)
    : Prop :=
  (exists b, b ∈ bs /\ t ∈ direct_table_nodes b.1) \/ t ∈ skipped.

Lemma covered_app_l t bs bs' sk sk' : covered t bs sk -> covered t (bs ++ bs') (sk ++ sk').
Proof. intros [(b & Hb & Ht)|Hs]; [left; exists b|right]; set_solver. Qed.

Lemma covered_app_r t bs bs' sk sk' : covered t bs' sk' -> covered t (bs ++ bs') (sk ++ sk').
Proof. intros [(b & Hb & Ht)|Hs]; [left; exists b|right]; set_solver. Qed.

Lemma covered_skip t bs sk : t ∈ sk -> covered t bs sk.
Proof. by right. Qed.

Lemma covered_force_scalar t bs sk : covered t bs sk -> covered t (force_scalar <$> bs) sk.
Proof.
  intros [(b & Hb & Ht)|Hs]; [left; exists (force_scalar b)|by right]. split.
  - by apply list_elem_of_fmap_2.
  - by destruct b as [s []].
Qed.

Lemma covered_none t bs sk : covered t bs sk -> covered t (bs ++ []) (sk ++ []).
Proof. apply covered_app_l. Qed.

#[local] Hint Resolve covered_app_l covered_app_r covered_skip covered_force_scalar : pgc.

(** Walks of this section collect tables. *)
#[local] Notation tables f := (f ResolvedTableNode no_nodes (fun t => [t])).

(** One step: which part of a composite node the table sits in. *)
Ltac walk_cases :=
  repeat match goal with
  | H : _ ∈ [] |- _ => by apply not_elem_of_nil in H
  | H : _ ∈ _ ++ _ |- _ => apply elem_of_app in H as [H|H]
  end.

Lemma flat_map_app_cover {B} (walk : B -> list ResolvedTableNode) (branches : B -> list Branch)
    (skipped : B -> list ResolvedTableNode) t x l :
  (t ∈ walk x -> covered t (branches x) (skipped x)) ->
  (t ∈ flat_map walk l -> covered t (flat_map branches l) (flat_map skipped l)) ->
  t ∈ flat_map walk (x :: l) -> covered t (flat_map branches (x :: l)) (flat_map skipped (x :: l)).
Proof. simpl. intros Hx Hl [H|H]%elem_of_app; auto with pgc. Qed.

#[local] Notation one_table := (fun t : ResolvedTableNode => [t]).

(** Mutual structural recursion over the AST: every recursive use is on a component. *)
Lemma where_cover (e : ResolvedWhereExpr) : forall negated t,
  t ∈ where_walk no_nodes one_table e -> covered t (where_branches e negated) (where_skipped e)
with scalar_cover (e : ResolvedScalarExpr) : forall t,
  t ∈ scalar_walk no_nodes one_table e -> covered t (scalar_branches e) (scalar_skipped e)
with function_cover (f : ResolvedFunctionCall) : forall t,
  t ∈ function_walk no_nodes one_table f -> covered t (function_branches f) (function_skipped f)
with window_spec_cover (w : ResolvedWindowSpec) : forall t,
  t ∈ window_spec_walk no_nodes one_table w ->
  covered t (window_spec_branches w) (window_spec_skipped w)
with case_when_cover (w : ResolvedCaseWhen) : forall t,
  t ∈ case_when_walk no_nodes one_table w -> covered t (case_when_branches w) (case_when_skipped w)
with order_by_cover (o : ResolvedOrderByClause) : forall t,
  t ∈ order_by_walk no_nodes one_table o -> covered t (order_by_branches o) (order_by_skipped o)
with source_cover (s : ResolvedTableSource) : forall negated t,
  t ∈ source_walk no_nodes one_table s ->
  t ∈ direct_table_nodes_collect s \/ covered t (source_branches s negated) (source_skipped s)
with qual_cover (q : ResolvedJoinQual) : forall negated t,
  t ∈ qual_walk no_nodes one_table q -> covered t (qual_branches q negated) (qual_skipped q)
with select_cover (s : ResolvedSelectNode) : forall negated t,
  t ∈ select_walk no_nodes one_table s ->
  t ∈ direct_table_nodes s \/ covered t (select_branches s negated) (select_skipped s)
with body_cover (b : ResolvedQueryBody) : forall source negated t,
  t ∈ body_walk no_nodes one_table b ->
  covered t (body_branches b source negated) (body_skipped b)
with query_cover (q : ResolvedQueryExpr) : forall source negated t,
  t ∈ query_walk no_nodes one_table q ->
  covered t (query_branches q source negated) (query_skipped q).
Proof.
  - destruct e as [s|op e|op l r|op es|q sl te refs]; simpl; intros negated t H.
    + apply scalar_cover, H.
    + apply where_cover, H.
    + walk_cases; [apply covered_app_l|apply covered_app_r]; apply where_cover, H.
    + revert H. induction es as [|e es IH]; [by intros ?%not_elem_of_nil|].
      apply flat_map_app_cover; [apply where_cover|apply IH].
    + walk_cases; [apply covered_app_l, query_cover, H|apply covered_app_r].
      destruct te as [te|]; [apply scalar_cover, H|by apply not_elem_of_nil in H].
  - destruct e as [c|n|f|v|arg whens df|l op r|q refs|es|e target]; simpl; intros t H;
      [by apply not_elem_of_nil in H..| | | | | | |].
    + apply function_cover, H.
    + by apply not_elem_of_nil in H.
    + walk_cases; [apply covered_app_l|apply covered_app_r, covered_app_l|
        apply covered_app_r, covered_app_r].
      * destruct arg as [arg|]; [apply scalar_cover, H|by apply not_elem_of_nil in H].
      * revert H. induction whens as [|w whens IH]; [by intros ?%not_elem_of_nil|].
        apply flat_map_app_cover; [apply case_when_cover|apply IH].
      * destruct df as [df|]; [apply scalar_cover, H|by apply not_elem_of_nil in H].
    + walk_cases; [apply covered_app_l|apply covered_app_r]; apply scalar_cover, H.
    + apply query_cover, H.
    + revert H. induction es as [|e es IH]; [by intros ?%not_elem_of_nil|].
      apply flat_map_app_cover; [apply scalar_cover|apply IH].
    + apply scalar_cover, H.
  - destruct f as [name args st di ao af over]; simpl; intros t H. walk_cases.
    + apply covered_app_l. revert H. induction args as [|e es IH]; [by intros ?%not_elem_of_nil|].
      apply flat_map_app_cover; [apply scalar_cover|apply IH].
    + apply covered_app_r, covered_app_l. revert H.
      induction ao as [|o os IH]; [by intros ?%not_elem_of_nil|].
      apply flat_map_app_cover; [apply order_by_cover|apply IH].
    + apply covered_app_r, covered_app_r, covered_app_l.
      destruct af as [e|]; [|by apply not_elem_of_nil in H].
      apply covered_force_scalar, where_cover, H.
    + apply covered_app_r, covered_app_r, covered_app_r.
      destruct over as [w|]; [apply window_spec_cover, H|by apply not_elem_of_nil in H].
  - destruct w as [ps os fr]; simpl; intros t H. walk_cases.
    + apply covered_app_l. revert H. induction ps as [|e es IH]; [by intros ?%not_elem_of_nil|].
      apply flat_map_app_cover; [apply scalar_cover|apply IH].
    + apply covered_app_r.
      assert (Hos : covered t (flat_map order_by_branches os) (flat_map order_by_skipped os)).
      { revert H. induction os as [|o os IH]; [by intros ?%not_elem_of_nil|].
        apply flat_map_app_cover; [apply order_by_cover|apply IH]. }
      destruct Hos as [?|?]; [by left|right]. apply elem_of_app. by left.
    + right. apply elem_of_app. right. apply elem_of_app. by right.
  - destruct w as [c r]; simpl; intros t H. walk_cases;
      [apply covered_app_l, covered_force_scalar, where_cover, H|apply covered_app_r, scalar_cover, H].
  - destruct o as [e d n]; simpl; intros t H. apply scalar_cover, H.
  - destruct s as [tb|q a k|jt l r qual]; simpl; intros negated t H.
    + by left.
    + right. apply query_cover, H.
    + walk_cases.
      * destruct (source_cover l negated t H) as [?|?]; [left; apply elem_of_app; by left|].
        right. by apply covered_app_l.
      * destruct (source_cover r negated t H) as [?|?]; [left; apply elem_of_app; by right|].
        right. by apply covered_app_r, covered_app_l.
      * right. apply covered_app_r, covered_app_r, qual_cover, H.
  - destruct q as [e|cs e|]; simpl; intros negated t H;
      [apply where_cover, H|apply where_cover, H|by apply not_elem_of_nil in H].
  - destruct s as [di cs fr wh gb hv]; simpl; intros negated t H. walk_cases.
    + right. apply covered_app_r, covered_app_r, covered_app_r.
      destruct cs as [cs|]; [simpl in *|by apply not_elem_of_nil in H].
      revert H. induction cs as [|[e a] cs IH]; [by intros ?%not_elem_of_nil|].
      apply (flat_map_app_cover (fun c => scalar_walk no_nodes one_table c.1)); [apply scalar_cover|apply IH].
    + unfold direct_table_nodes. simpl.
      assert (Hfr : t ∈ flat_map direct_table_nodes_collect fr \/
        covered t (flat_map (fun s => source_branches s negated) fr) (flat_map source_skipped fr)).
      { revert H. induction fr as [|s fr IH]; [by intros ?%not_elem_of_nil|]. simpl.
        intros [H|H]%elem_of_app.
        - destruct (source_cover s negated t H) as [?|?]; [left; apply elem_of_app; by left|].
          right. by apply covered_app_l.
        - destruct (IH H) as [?|?]; [left; apply elem_of_app; by right|].
          right. by apply covered_app_r. }
      destruct Hfr as [?|?]; [by left|right]. by apply covered_app_l.
    + right. apply covered_app_r, covered_app_l.
      destruct wh as [e|]; [apply where_cover, H|by apply not_elem_of_nil in H].
    + exfalso. induction gb as [|c gb IH]; [by apply not_elem_of_nil in H|]. by apply IH.
    + right. apply covered_app_r, covered_app_r, covered_app_l.
      destruct hv as [e|]; [apply where_cover, H|by apply not_elem_of_nil in H].
  - destruct b as [s|rows|op al l r]; simpl; intros source negated t H.
    + destruct (select_cover s negated t H) as [Hd|[(b & Hb & Ht)|Hs]].
      * left. exists (s, source). split; [by left|done].
      * left. exists b. split; [by right|done].
      * by right.
    + by apply not_elem_of_nil in H.
    + walk_cases; [apply covered_app_l|apply covered_app_r]; apply query_cover, H.
  - destruct q as [body os lim]; simpl; intros source negated t H. walk_cases.
    + destruct (body_cover body source negated t H) as [?|?]; [by left|right].
      apply elem_of_app. by left.
    + right. apply elem_of_app. by right.
Qed.

Lemma update_query_of_branch b resolved t :
  b ∈ select_nodes_with_source resolved -> t ∈ direct_table_nodes b.1 ->
  exists uq source, (t, uq, source) ∈ query_table_update_queries resolved /\
    sel_where b.1 = (s ← as_select uq; sel_where s).
Proof.
  intros Hb Ht. destruct b as [s src]. simpl in Ht.
  destruct (outer_join_optional_tables s) as [term nonterm] eqn:Eo.
  exists (QueryExpr (QbSelect (resolved_select_node_update_replace s select_true_columns)) [] None),
    (effective_source src term nonterm t). split; [|by destruct s].
  unfold query_table_update_queries. apply flat_map_elem. exists (s, src). split; [done|].
  unfold branch_update_queries. rewrite Eo. apply list_elem_of_fmap. by exists t.
Qed.

(** ** Polarity of subqueries

    The truth of a WHERE clause, in Kleene logic, as a function of what its
    subqueries return: [atom] gives the value of every leaf and comparison, [rows]
    the result of every subquery, [link] the truth of a subquery link. *)

Definition kleene_not (a : option bool) : option bool := negb <$> a.

Definition is_test (op : UnaryOp) (v : option bool) : option bool :=
  match op with
  | UNot => kleene_not v
  | UIsNull => Some (bool_decide (v = None))
  | UIsNotNull => Some (negb (bool_decide (v = None)))
  | UIsTrue => Some (bool_decide (v = Some true))
  | UIsNotTrue => Some (negb (bool_decide (v = Some true)))
  | UIsFalse => Some (bool_decide (v = Some false))
  | UIsNotFalse => Some (negb (bool_decide (v = Some false)))
  end.

Section polarity.
Context {R : Type} (atom : ResolvedWhereExpr -> option bool).
Context (link : SubLinkType -> option ResolvedScalarExpr -> list R -> option bool).

Definition Results : Type := ResolvedQueryExpr -> list R.

Fixpoint where_value (rows : Results) (e : ResolvedWhereExpr) : option bool :=
  match e with
  | WUnary op e => is_test op (where_value rows e)
  | WBinary OpAnd l r => kleene_and (where_value rows l) (where_value rows r)
  | WBinary OpOr l r => kleene_or (where_value rows l) (where_value rows r)
  | WSubquery q sl te _ => link sl te (rows q)
  | WScalar _ | WBinary _ _ _ | WMulti _ _ => atom e
  end.

(** AND, OR, NOT, IS TRUE and IS NOT FALSE above subquery links and expressions
    without subqueries. *)
Fixpoint logical (e : ResolvedWhereExpr) : bool :=
  match e with
  | WUnary UNot e | WUnary UIsTrue e | WUnary UIsNotFalse e => logical e
  | WBinary OpAnd l r | WBinary OpOr l r => logical l && logical r
  | WSubquery _ _ te _ => true
  | WUnary _ _ => false
  | WScalar _ | WBinary _ _ _ | WMulti _ _ => bool_decide (length (where_branches e false) = 0)
  end.

(** The subquery links of a clause, with the kind the collection gives their
    branches. *)
Fixpoint where_links (e : ResolvedWhereExpr) (negated : bool)
    : list (ResolvedQueryExpr * SubLinkType * SubqueryKind) :=
  match e with
  | WUnary op e => where_links e (match op with UNot => negb negated | _ => negated end)
  | WBinary _ l r => where_links l negated ++ where_links r negated
  | WSubquery q sl _ _ => [(q, sl, sublink_kind sl negated)]
  | WScalar _ | WMulti _ _ => []
  end.

(** What a replicated row event does to the result of a subquery it is a row of: the
    new version of a row that was not cached can only add rows, a deletion can only
    take rows away. *)
Definition result_moves (operation : CdcOperation) (before after : list R) : Prop :=
  match operation with
  | CdcUpsert => before ⊆ after
  | CdcDelete => after ⊆ before
  end.

(** An event on a table of the subquery that the check of an uncached row lets pass.
    A row that is not relevant to the subquery leaves its result as it is. *)
Definition event_skipped (kind : SubqueryKind) (before after : list R) : Prop :=
  exists uq table_metadata event,
    uq_source uq = UsSubquery kind /\
    row_uncached_invalidates uq table_metadata event = false /\
    (row_relevant uq table_metadata event = false -> after = before) /\
    result_moves (ev_operation event) before after.

(** A history of such events. *)
Definition change_skipped (kind : SubqueryKind) : list R -> list R -> Prop :=
  rtc (event_skipped kind).

Definition truth (v : option bool) : nat :=
  match v with Some false => 0 | None => 1 | Some true => 2 end.

Class LinkMonotone := {
  lm_any : forall sl te a b, sl = SlAny \/ sl = SlExists -> a ⊆ b ->
    truth (link sl te a) <= truth (link sl te b);
  lm_all : forall te a b, a ⊆ b -> truth (link SlAll te b) <= truth (link SlAll te a)
}.

Context `{!LinkMonotone}.

Lemma is_test_monotone op a b :
  op = UIsTrue \/ op = UIsNotFalse -> truth a <= truth b ->
  truth (is_test op a) <= truth (is_test op b).
Proof. by intros [-> | ->]; destruct a as [[]|], b as [[]|]; simpl; try lia. Qed.

Lemma kleene_not_antitone a b : truth a <= truth b -> truth (kleene_not b) <= truth (kleene_not a).
Proof. destruct a as [[]|], b as [[]|]; simpl; lia. Qed.

Lemma kleene_and_monotone a b c d :
  truth a <= truth b -> truth c <= truth d -> truth (kleene_and a c) <= truth (kleene_and b d).
Proof. destruct a as [[]|], b as [[]|], c as [[]|], d as [[]|]; simpl; lia. Qed.

Lemma kleene_or_monotone a b c d :
  truth a <= truth b -> truth c <= truth d -> truth (kleene_or a c) <= truth (kleene_or b d).
Proof. destruct a as [[]|], b as [[]|], c as [[]|], d as [[]|]; simpl; lia. Qed.

(** The direction in which the skipped events of a kind move a result. *)
Definition skip_direction (kind : SubqueryKind) (before after : list R) : Prop :=
  match kind with
  | SkInclusion => after ⊆ before
  | SkExclusion => before ⊆ after
  | SkScalar => before = after
  end.

Lemma event_skipped_direction kind before after :
  event_skipped kind before after -> skip_direction kind before after.
Proof.
  intros (uq & tm & event & Hs & Hcheck & Hrel & Hmoves).
  unfold row_uncached_invalidates in Hcheck. rewrite Hs in Hcheck.
  destruct (row_relevant uq tm event); [|rewrite Hrel by done; destruct kind; simpl; reflexivity].
  destruct kind, (ev_operation event); done.
Qed.

Lemma change_skipped_direction kind before after :
  change_skipped kind before after -> skip_direction kind before after.
Proof.
  induction 1 as [rows|a b c Hab _ IH]; [destruct kind; simpl; reflexivity|].
  apply event_skipped_direction in Hab. destruct kind; simpl in *; by etrans.
Qed.

Lemma link_skipped sl te negated before after :
  change_skipped (sublink_kind sl negated) before after ->
  if negated then truth (link sl te before) <= truth (link sl te after)
  else truth (link sl te after) <= truth (link sl te before).
Proof.
  intros Hc%change_skipped_direction. revert Hc.
  destruct sl, negated; simpl; intros Hc; try (by subst);
    try (by apply lm_any; auto); by apply lm_all.
Qed.

Lemma skipped_contracts (before after : Results) e : forall negated,
  logical e = true ->
  (forall q sl kind, (q, sl, kind) ∈ where_links e negated ->
     change_skipped kind (before q) (after q)) ->
  if negated then truth (where_value before e) <= truth (where_value after e)
  else truth (where_value after e) <= truth (where_value before e).
Proof.
  induction e as [s|op e IH|op l r IHl IHr|op es|q sl te refs] using where_expr_ind;
    intros negated Hl Hlinks; simpl in Hlinks.
  - by destruct negated.
  - destruct op; try done; simpl in Hl |- *.
    + specialize (IH (negb negated) Hl Hlinks). destruct negated; simpl in IH;
        by apply kleene_not_antitone.
    + specialize (IH negated Hl Hlinks). destruct negated; by apply (is_test_monotone UIsTrue); auto.
    + specialize (IH negated Hl Hlinks). destruct negated; by apply (is_test_monotone UIsNotFalse); auto.
  - destruct op; simpl in Hl |- *; try (by destruct negated); bool_hyps;
      (destruct negated;
       [specialize (IHl true); specialize (IHr true)|specialize (IHl false); specialize (IHr false)];
       simpl in IHl, IHr;
       (apply kleene_and_monotone || apply kleene_or_monotone);
       [apply IHl|apply IHr|apply IHl|apply IHr]; try done; intros; eapply Hlinks, elem_of_app; eauto).
  - by destruct negated.
  - simpl. apply link_skipped, (Hlinks q sl). by left.
Qed.
End polarity.

Lemma where_links_branches e : forall negated s ob lim sl kind,
  (QueryExpr (QbSelect s) ob lim, sl, kind) ∈ where_links e negated ->
  (s, UsSubquery kind) ∈ where_branches e negated.
Proof.
  induction e as [sc|op e IH|op l r IHl IHr|op es|q sl te refs] using where_expr_ind;
    intros negated s ob lim sl' kind; simpl.
  - by intros ?%not_elem_of_nil.
  - apply IH.
  - intros [H|H]%elem_of_app; apply elem_of_app; [left; by eapply IHl|right; by eapply IHr].
  - by intros ?%not_elem_of_nil.
  - intros [= <- -> ->]%list_elem_of_singleton. apply elem_of_app. left. by left.
Qed.

(** ** Properties *)

(** Every table a query reads gets an update query.  A table node anywhere in
    the query, in joins, derived tables, CTEs inlined as derived tables, WHERE,
    HAVING, JOIN and SELECT-list subqueries at any depth, is the subject of an
    update query, unless it only occurs under an ORDER BY or in the bounds of a
    window frame. *)
Theorem update_queries_cover_tables (resolved : ResolvedQueryExpr) (t : ResolvedTableNode)
    (Htable : t ∈ query_tables resolved) (Hplace : t ∉ query_skipped resolved) :
  exists uq source, (t, uq, source) ∈ query_table_update_queries resolved.
Proof.
  destruct (query_cover resolved UsFromClause false t Htable) as [(b & Hb & Ht)|?]; [|done].
  destruct (update_query_of_branch b resolved t Hb Ht) as (uq & source & H & _). eauto.
Qed.

(** C36: skipping a contracting subquery change is sound.  For a WHERE clause built
    from AND, OR, NOT, IS TRUE and IS NOT FALSE over subquery links and
    subquery-free conditions, take for every link any history of row events on its
    subquery that the check of uncached rows ([row_uncached_invalidates] on an update
    query with the kind of the link) lets pass, an upsert adding rows to the
    subquery's result, a deletion removing rows, an irrelevant row changing nothing.
    Then a row that satisfies the clause afterwards satisfied it before: no row can
    be missing from the cache.  The kinds are the ones recorded with the collected
    branches.  ANY and EXISTS are assumed monotone in the subquery's rows and ALL
    antitone.  (Clauses with other IS tests over a subquery, and subqueries inside a
    negated subquery, are outside the statement: [BranchGap] has the failures.) *)
Theorem skipped_subquery_changes_contract {R} (atom : ResolvedWhereExpr -> option bool)
    (link : SubLinkType -> option ResolvedScalarExpr -> list R -> option bool)
    `{!LinkMonotone link} (before after : Results) (e : ResolvedWhereExpr)
    (Hlogical : logical e = true)
    (Hskipped : forall q sl kind, (q, sl, kind) ∈ where_links e false ->
       change_skipped kind (before q) (after q))
    (Hafter : where_value atom link after e = Some true) :
  where_value atom link before e = Some true /\
  (forall s ob lim sl kind, (QueryExpr (QbSelect s) ob lim, sl, kind) ∈ where_links e false ->
     (s, UsSubquery kind) ∈ where_branches e false).
Proof.
  split; [|intros s ob lim sl kind; apply where_links_branches].
  pose proof (skipped_contracts atom link before after e false Hlogical Hskipped) as Hle.
  simpl in Hle. rewrite Hafter in Hle. destruct (where_value atom link before e) as [[]|]; simpl in Hle;
    [done|lia..].
Qed.

Module BranchWitness.
Definition table (name : string) (oid : N) : ResolvedTableNode :=
  {| rt_schema := "public"; rt_name := name; rt_alias := None; rt_relation_oid := oid |}.
Definition meta (name : string) : ColumnMetadata :=
  {| cm_name := name; cm_position := 1; cm_type_oid := 23; cm_data_type := TInt4;
     cm_type_name := "int4"; cm_cache_type_name := "int4"; cm_is_primary_key := false |}.
Definition column (t c : string) : ResolvedColumnNode :=
  {| rc_schema := "public"; rc_table := t; rc_table_alias := None; rc_column := c;
     rc_metadata := meta c |}.
Definition col (t c : string) : ResolvedScalarExpr := SColumn (column t c).
Definition select (t : ResolvedTableNode) (c : string) (w : option ResolvedWhereExpr)
    : ResolvedSelectNode :=
  SelectNode false (Some [(col (rt_name t) c, None)]) [TsTable t] w [] None.
Definition query (s : ResolvedSelectNode) : ResolvedQueryExpr := QueryExpr (QbSelect s) [] None.

Definition a_table : ResolvedTableNode := table "a" 1.
Definition b_table : ResolvedTableNode := table "b" 2.
Definition c_table : ResolvedTableNode := table "c" 3.

(** [x IN (SELECT y FROM b)] *)
Definition b_query : ResolvedQueryExpr := query (select b_table "y" None).
Definition in_b : ResolvedWhereExpr := WSubquery b_query SlAny (Some (col "a" "x")) [].

Definition a_query : ResolvedQueryExpr :=
  query (select a_table "x" (Some (WUnary UNot in_b))).

Lemma update_queries_cover_tables_witness :
  exists uq source, (b_table, uq, source) ∈ query_table_update_queries a_query.
Proof.
  apply update_queries_cover_tables.
  - vm_compute. right. left.
  - vm_compute. intros H%not_elem_of_nil. exact H.
Defined.

(** Links over the values a subquery returns, tested against the value 1. *)
Definition link (sl : SubLinkType) (te : option ResolvedScalarExpr) (rows : list nat)
    : option bool :=
  match sl with
  | SlExists => Some (negb (bool_decide (rows = [])))
  | SlAny => Some (bool_decide (1 ∈ rows))
  | SlAll => Some (bool_decide (1 ∉ rows))
  | SlExpr => Some (bool_decide (rows = [1]))
  end.

#[export] Instance link_monotone : LinkMonotone link.
Proof.
  split.
  - intros sl te a b [-> | ->] Hab; simpl.
    + destruct (decide (1 ∈ a)) as [Ha|Ha]; [|rewrite (bool_decide_eq_false_2 _ Ha); simpl; lia].
      rewrite !bool_decide_eq_true_2; [done|by apply Hab|done].
    + destruct a as [|x a]; [simpl; lia|].
      rewrite (bool_decide_eq_false_2 (b = [])); [by rewrite bool_decide_eq_false_2|].
      intros ->. apply (not_elem_of_nil x), Hab. by left.
  - intros te a b Hab; simpl.
    destruct (decide (1 ∉ b)) as [Hb|Hb]; [|rewrite (bool_decide_eq_false_2 _ Hb); simpl; lia].
    rewrite !bool_decide_eq_true_2; [done|by intros H%Hab|done].
Defined.

Definition no_atom (e : ResolvedWhereExpr) : option bool := None.

(** The update query of [b], and the insertion of a row into it. *)
Definition b_update (kind : SubqueryKind) : UpdateQuery :=
  {| uq_fingerprint := 1%N; uq_resolved := b_query; uq_source := UsSubquery kind;
     uq_constraints := {| qc_column_constraints := []; qc_equivalences := [];
       qc_table_constraints := ∅; qc_where_analysis_complete := true |};
     uq_has_limit := false; uq_eval_strategy := LocalEval;
     uq_limit_window_columns := ∅; uq_order_by_keys := None;
     uq_change_dependent := false; uq_pg_batchable := false;
     uq_predicate_columns := ∅; uq_is_single_table := true;
     uq_compiled_where := None |}.
Definition b_meta : TableMetadata :=
  {| tm_relation_oid := 2; tm_name := "b"; tm_schema := "public";
     tm_primary_key_columns := ["y"]; tm_columns := column_store_new [meta "y"];
     tm_replica_identity_full := false |}.
Definition b_insert : RowEvent :=
  {| ev_row_data := [Some "3"]; ev_key_data := None; ev_operation := CdcUpsert;
     ev_row_changes := None |}.

(** The excluded set grows from [[2]] to [[2; 3]]: a row with x = 1 keeps its place. *)
Lemma skipped_subquery_changes_contract_witness :
  where_value no_atom link (fun _ => [2]) (WUnary UNot in_b) = Some true.
Proof.
  apply (skipped_subquery_changes_contract no_atom link (fun _ => [2]) (fun _ => [2; 3])).
  - reflexivity.
  - intros q sl kind [= -> -> ->]%list_elem_of_singleton. apply rtc_once.
    exists (b_update SkExclusion), b_meta, b_insert.
    split; [done|]. split; [by vm_compute|]. split; [by vm_compute|]. simpl. set_solver.
  - reflexivity.
Defined.
End BranchWitness.

Module BranchGap.
Import BranchWitness.

(** The kind recorded for a subquery can have the wrong direction.  Under [IS NOT
    TRUE] an IN subquery is recorded as an inclusion, so a deletion from it is
    skipped, though the deletion turns the condition from false to true.  Inside
    [<> ALL (SELECT .. WHERE z IN (SELECT ..))] the inner subquery is also recorded
    as an inclusion: a deletion from it empties the outer set and makes the ALL
    condition true. *)
Theorem subquery_kind_misdirected :
  let is_not_true := WUnary UIsNotTrue in_b in
  let c_query := query (select c_table "z" None) in
  let in_c := WSubquery c_query SlAny (Some (col "b" "z")) [] in
  let all_b := WSubquery (query (select b_table "y" (Some in_c))) SlAll (Some (col "a" "x")) [] in
  let b_rows c_rows := if bool_decide (where_value no_atom link (fun _ => c_rows) in_c = Some true)
                       then [1] else [] in
  (where_branches is_not_true false = [(select b_table "y" None, UsSubquery SkInclusion)] /\
   where_value no_atom link (fun _ => [1]) is_not_true = Some false /\
   where_value no_atom link (fun _ => []) is_not_true = Some true) /\
  (where_branches all_b false =
     [(select b_table "y" (Some in_c), UsSubquery SkExclusion);
      (select c_table "z" None, UsSubquery SkInclusion)] /\
   where_value no_atom link (fun _ => b_rows [1]) all_b = Some false /\
   where_value no_atom link (fun _ => b_rows []) all_b = Some true).
Proof. vm_compute. auto 10. Qed.

(** A table read only by a subquery in ORDER BY has no update query, so changes
    to it reach neither the cached rows nor the invalidation check. *)
Theorem order_by_subquery_not_tracked :
  let q := QueryExpr (QbSelect (select a_table "x" None))
             [OrderByClause (SSubquery b_query []) OrdAsc NullsDefault] None in
  query_tables q = [a_table; b_table] /\
  (fun u => u.1.1) <$> query_table_update_queries q = [a_table].
Proof. vm_compute. auto. Qed.
End BranchGap.
