(* ===== verification/Admission.v ===== *)
(** * Admission analysis

    Models src/src/cache/admission/: the classifiers of update_classify.rs and the
    per-table derivation of analyze.rs.  Decorrelation is not modelled: the
    derivation takes the query it returned.  The SQL membership template is not
    built (see UpdateQuery). *)

From S2P Require Import Prelude Value Ast Range Subsume Cast Evaluate Extract Catalog.
From S2P Require Import ConstraintIndex UpdateQuery Invalidation Branches.

(** ** Classifiers *)

Definition sel_group_by (s : ResolvedSelectNode) : list ResolvedColumnNode :=
  let 'SelectNode _ _ _ _ g _ := s in g.
Definition sel_having (s : ResolvedSelectNode) : option ResolvedWhereExpr :=
  let 'SelectNode _ _ _ _ _ h := s in h.
Definition sel_distinct (s : ResolvedSelectNode) : bool :=
  let 'SelectNode d _ _ _ _ _ := s in d.
Definition sel_columns (s : ResolvedSelectNode)
    : option (list (ResolvedScalarExpr * option string)) :=
  let 'SelectNode _ c _ _ _ _ := s in c.
Definition query_order_by (q : ResolvedQueryExpr) : list ResolvedOrderByClause :=
  let 'QueryExpr _ ob _ := q in ob.

(** [!select.group_by.is_empty() || select.having.is_some()] *)
Definition grouped (s : ResolvedSelectNode) : bool :=
  negb (is_nil (sel_group_by s)) || negb (is_none (sel_having s)).

Definition update_eval_strategy_classify (resolved : ResolvedQueryExpr)
    (source : UpdateQuerySource) : UpdateEvalStrategy :=
  if negb (source_from_clause source) then PgEval
  else
    match as_select resolved with
    | None => PgEval
    | Some select =>
        if negb (select_is_single_table select) then PgEval
        else if grouped select then PgEval
        else
          match sel_where select with
          | None => LocalEval
          | Some where_expr =>
              if resolved_where_expr_supported where_expr then LocalEval else PgEval
          end
    end.

(** Occurrences of a relation among the table nodes of a query. *)
Definition relation_count (resolved : ResolvedQueryExpr) (relation_oid : N) : nat :=
  length (List.filter (fun t => bool_decide (rt_relation_oid t = relation_oid))
    (query_tables resolved)).

Definition pg_batchable_classify (resolved : ResolvedQueryExpr) (relation_oid : N)
    (aggregate_functions : gset string) : bool :=
  match as_select resolved with
  | None => false
  | Some select =>
      if grouped select then false
      else if (1 <? relation_count resolved relation_oid)%nat then false
      else
        match sel_columns select with
        | None => true
        | Some cols => forallb (fun c => negb (has_aggregate aggregate_functions c.1)) cols
        end
  end.

(** [TableColumns]: the columns of one table among some references. *)
Definition table_columns (table : string) (cs : list ResolvedColumnNode) : gset string :=
  list_to_set (rc_column <$> List.filter (fun c => bool_decide (rc_table c = table)) cs).

#[local] Notation one_column := (fun c : ResolvedColumnNode => [c]).

Definition select_alias_exprs (select : ResolvedSelectNode) (name : string)
    : list ResolvedScalarExpr :=
  fst <$> List.filter (fun c => bool_decide (output_name c = Some name))
            (default [] (sel_columns select)).

Definition limit_window_columns_collect (resolved : ResolvedQueryExpr) (table_name : string)
    : gset string :=
  let select := as_select resolved in
  let order_refs := flat_map (fun clause =>
    let 'OrderByClause expr _ _ := clause in
    scalar_walk one_column no_nodes expr
    ++ match expr, select with
       | SIdentifier name, Some select =>
           flat_map (scalar_walk one_column no_nodes) (select_alias_exprs select name)
       | _, _ => []
       end) (query_order_by resolved) in
  let clause_refs :=
    match select with
    | Some select =>
        opt_walk where_columns (sel_where select) ++ opt_walk where_columns (sel_having select)
    | None => []
    end in
  table_columns table_name (order_refs ++ clause_refs).

Definition row_level_window (resolved : ResolvedQueryExpr) (select : ResolvedSelectNode)
    : bool :=
  let reshaped := sel_distinct select || grouped select in
  negb reshaped && negb (is_nil (query_order_by resolved)).

Definition order_key_column (expr : ResolvedScalarExpr) (select : ResolvedSelectNode)
    : option ResolvedColumnNode :=
  target ← match expr with
           | SIdentifier name => head (select_alias_exprs select name)
           | expr => Some expr
           end;
  match target with SColumn column => Some column | _ => None end.

Definition order_by_key (column : ResolvedColumnNode) (clause : ResolvedOrderByClause)
    : OrderByKey :=
  let 'OrderByClause _ direction null_order := clause in
  let descending := match direction with OrdDesc => true | OrdAsc => false end in
  {| ok_column := rc_column column; ok_descending := descending;
     ok_nulls_first :=
       match null_order with
       | NullsFirst => true
       | NullsLast => false
       | NullsDefault => descending
       end |}.

Definition limit_order_keys_collect (resolved : ResolvedQueryExpr) (table_name : string)
    : option (list OrderByKey) :=
  select ← as_select resolved;
  if negb (row_level_window resolved select) then None
  else
    mapM (fun clause =>
      let 'OrderByClause expr _ _ := clause in
      column ← order_key_column expr select;
      if negb (bool_decide (rc_table column = table_name)) then None
      else Some (order_by_key column clause)) (query_order_by resolved).

Definition predicate_columns_collect (resolved : ResolvedQueryExpr) (table_name : string)
    : gset string :=
  table_columns table_name
    (match as_select resolved with
     | None => query_walk one_column no_nodes resolved
     | Some select =>
         flat_map (source_walk one_column no_nodes) (sel_from select)
         ++ opt_walk where_columns (sel_where select)
         ++ sel_group_by select
         ++ opt_walk where_columns (sel_having select)
     end).

(** ** The derivation *)

Inductive AdmissionDepth := DepthFull | DepthDecisionOnly.

Definition depth_full (d : AdmissionDepth) : bool :=
  match d with DepthFull => true | DepthDecisionOnly => false end.

Definition is_local (s : UpdateEvalStrategy) : bool :=
  match s with LocalEval => true | PgEval => false end.

Definition with_change_dependent (q : UpdateQuery) (b : bool) : UpdateQuery :=
  {| uq_fingerprint := uq_fingerprint q; uq_resolved := uq_resolved q;
     uq_source := uq_source q; uq_constraints := uq_constraints q;
     uq_has_limit := uq_has_limit q; uq_eval_strategy := uq_eval_strategy q;
     uq_limit_window_columns := uq_limit_window_columns q;
     uq_order_by_keys := uq_order_by_keys q; uq_change_dependent := b;
     uq_pg_batchable := uq_pg_batchable q; uq_predicate_columns := uq_predicate_columns q;
     uq_is_single_table := uq_is_single_table q; uq_compiled_where := uq_compiled_where q |}.

(** The body of the loop for one table of [query_table_update_queries].  The
    constraint analysis always returns; its [option] is the fuel of its loop. *)
Definition table_admission (resolved : ResolvedQueryExpr) (fingerprint : Fingerprint)
    (has_limit : bool) (aggregate_functions : gset string) (depth : AdmissionDepth)
    (item : ResolvedTableNode * ResolvedQueryExpr * UpdateQuerySource) : TableAdmission :=
  let '(table_node, update_resolved, source) := item in
  let relation_oid := rt_relation_oid table_node in
  let table_name := rt_name table_node in
  let constraints :=
    default query_constraints_default (as_select update_resolved ≫= analyze_query_constraints) in
  let eval_strategy := update_eval_strategy_classify update_resolved source in
  let pg_batchable :=
    depth_full depth && negb (is_local eval_strategy)
    && pg_batchable_classify update_resolved relation_oid aggregate_functions in
  let is_single_table := query_is_single_table update_resolved in
  let update_query :=
    {| uq_fingerprint := fingerprint; uq_resolved := update_resolved; uq_source := source;
       uq_constraints := constraints; uq_has_limit := has_limit;
       uq_eval_strategy := eval_strategy;
       uq_limit_window_columns :=
         if has_limit then limit_window_columns_collect resolved table_name else ∅;
       uq_order_by_keys :=
         if has_limit && is_single_table && source_from_clause source
         then limit_order_keys_collect resolved table_name else None;
       uq_change_dependent := false;
       uq_pg_batchable := pg_batchable;
       uq_predicate_columns := predicate_columns_collect update_resolved table_name;
       uq_is_single_table := is_single_table;
       uq_compiled_where :=
         if depth_full depth && is_local eval_strategy
         then (fun w => compile w table_name) <$> (as_select update_resolved ≫= sel_where)
         else None |} in
  let update_query :=
    if depth_full depth
    then with_change_dependent update_query (update_invalidation_possible update_query table_name)
    else update_query in
  let self_joined := (1 <? relation_count update_resolved relation_oid)%nat in
  {| ad_relation_oid := relation_oid; ad_table_name := table_name;
     ad_update_query := update_query;
     ad_subsumer_eligible :=
       negb self_joined && negb has_limit && qc_where_analysis_complete constraints;
     ad_index_constraints :=
       if self_joined then [] else default [] (qc_table_constraints constraints !! table_name) |}.

(** [query_admission_analyze] past the decorrelation, on the query it chose. *)
Definition query_admission_analyze (update_source resolved : ResolvedQueryExpr)
    (fingerprint : Fingerprint) (has_limit : bool) (aggregate_functions : gset string)
    (depth : AdmissionDepth) : list TableAdmission :=
  table_admission resolved fingerprint has_limit aggregate_functions depth
  <$> query_table_update_queries update_source.

(** ** What local evaluation reads *)

Lemma scalar_leaf_walk e s :
  resolved_where_scalar_leaf e = Some s ->
  where_columns e = scalar_walk one_column no_nodes s.
Proof.
  destruct e as [sc| | | |]; try done. intros [= <-]. unfold where_columns. simpl.
  destruct sc as [| | | | | | | |e t]; try done. destruct e; try done. simpl.
  by destruct (cast_target_is_identity_on _ _).
Qed.

Lemma column_target_walk s c t :
  column_target s = Some (c, t) -> scalar_walk one_column no_nodes s = [c].
Proof.
  destruct s as [c'| | | | | | | |e t']; try done; [by intros [= -> _]|].
  destruct e; try done. by intros [= -> _].
Qed.

Lemma canonicalize_column op l r c t op' v :
  canonicalize_comparison op l r = Some (c, t, op', v) ->
  c ∈ where_columns l ++ where_columns r.
Proof.
  unfold canonicalize_comparison. rewrite elem_of_app.
  destruct (resolved_where_scalar_leaf l) as [ls|] eqn:El; [|done].
  destruct (resolved_where_scalar_leaf r) as [rs|] eqn:Er; [|by destruct ls].
  rewrite (scalar_leaf_walk l ls El), (scalar_leaf_walk r rs Er).
  assert (Hrev : match ls with
      | SLiteral val => '(col, target) ← column_target rs; flipped ← op_flip op;
          Some (col, target, flipped, val)
      | _ => None end = Some (c, t, op', v) ->
    c ∈ scalar_walk one_column no_nodes ls \/ c ∈ scalar_walk one_column no_nodes rs).
  { destruct ls as [| | |w| | | | |]; try done.
    destruct (column_target rs) as [[c' t']|] eqn:Ec; [|done]. simpl.
    destruct (op_flip op) as [o|]; [|done]. simpl. intros [= -> -> _ _].
    right. rewrite (column_target_walk rs c t Ec). by left. }
  destruct rs as [| | |w| | | | |]; try exact Hrev.
  destruct (column_target ls) as [[c' t']|] eqn:Ec; [|exact Hrev].
  intros [= -> -> _ _]. left. rewrite (column_target_walk ls c t Ec). by left.
Qed.

(** Two rows that agree on the columns a clause names evaluate it alike. *)
Lemma evaluate_agree e row row' table :
  (forall c, c ∈ where_columns e -> rc_table c = table ->
     row !! column_index (rc_metadata c) = row' !! column_index (rc_metadata c)) ->
  where_expr_evaluate e row table = where_expr_evaluate e row' table.
Proof.
  induction e as [s|op e IH|op l r IHl IHr|op es|q sl te refs] using where_expr_ind;
    intros Hagree; try done.
  - assert (Hv : unary_value e row table = unary_value e row' table).
    { destruct e as [[c| | | | | | | |]| | | |]; try done. simpl. unfold column_value_get.
      case_bool_decide as Hc; [|done]. by rewrite (Hagree c) by (done || by left). }
    destruct op; simpl; by rewrite ?Hv, ?(IH Hagree).
  - assert (Hcmp : expr_comparison_evaluate op l r row table
      = expr_comparison_evaluate op l r row' table).
    { unfold expr_comparison_evaluate.
      destruct (canonicalize_comparison op l r) as [[[[c t] o] v]|] eqn:Ec; [|done].
      apply canonicalize_column in Ec. unfold column_row_value_get.
      case_bool_decide as Hc; [|done]. by rewrite (Hagree c). }
    assert (Hl : where_expr_evaluate l row table = where_expr_evaluate l row' table).
    { apply IHl. intros c Hc. apply Hagree, elem_of_app. by left. }
    assert (Hr : where_expr_evaluate r row table = where_expr_evaluate r row' table).
    { apply IHr. intros c Hc. apply Hagree, elem_of_app. by right. }
    destruct op; simpl; rewrite ?Hl, ?Hr; done || exact Hcmp.
Qed.

Lemma table_columns_elem table cs c :
  c ∈ cs -> rc_table c = table -> rc_column c ∈ table_columns table cs.
Proof.
  intros Hc Ht. unfold table_columns. apply elem_of_list_to_set, list_elem_of_fmap.
  exists c. split; [done|]. apply list_elem_of_In, filter_In.
  split; [by apply list_elem_of_In|]. by apply bool_decide_eq_true.
Qed.

(** The update query of one item, field by field. *)
Section item.
Context (resolved : ResolvedQueryExpr) (fingerprint : Fingerprint) (has_limit : bool).
Context (aggs : gset string) (table : ResolvedTableNode) (uq : ResolvedQueryExpr).
Context (source : UpdateQuerySource).

Definition item_query (depth : AdmissionDepth) : UpdateQuery :=
  ad_update_query (table_admission resolved fingerprint has_limit aggs depth (table, uq, source)).

Lemma item_flag :
  uq_change_dependent (item_query DepthFull)
  = update_invalidation_possible (item_query DepthFull) (rt_name table).
Proof. done. Qed.

Lemma item_local (s : ResolvedSelectNode) row_data :
  as_select uq = Some s -> uq_eval_strategy (item_query DepthFull) = LocalEval ->
  update_query_matches_locally (item_query DepthFull) row_data =
  match sel_where s with
  | None => true
  | Some w => where_expr_evaluate w row_data (rt_name table)
  end.
Proof.
  intros Hs. unfold item_query, update_query_matches_locally. simpl. intros ->. simpl.
  rewrite Hs. simpl. destruct (sel_where s); simpl; [apply compile_eval_eq|done].
Qed.

Lemma local_eval_select :
  update_eval_strategy_classify uq source = LocalEval ->
  source = UsFromClause /\ exists s, as_select uq = Some s /\
    select_is_single_table s = true /\ grouped s = false /\
    forall w, sel_where s = Some w -> resolved_where_expr_supported w = true.
Proof.
  unfold update_eval_strategy_classify. destruct source; try done. simpl.
  destruct (as_select uq) as [s|]; [|done]. intros H. split; [done|]. exists s.
  destruct (select_is_single_table s); [|done]. simpl in H.
  destruct (grouped s); [done|]. split_and!; [done..|]. intros w Hw. rewrite Hw in H.
  by destruct (resolved_where_expr_supported w).
Qed.
End item.

Lemma admission_item a src resolved fp has_limit aggs :
  a ∈ query_admission_analyze src resolved fp has_limit aggs DepthFull ->
  exists table uq source,
    (table, uq, source) ∈ query_table_update_queries src /\
    a = table_admission resolved fp has_limit aggs DepthFull (table, uq, source).
Proof. intros ([[table uq] source] & -> & Hin)%list_elem_of_fmap. eauto. Qed.

(** ** Properties *)

(** C35: local evaluation decides the query's WHERE, and its predicate columns are all
    it reads.  An admitted query marked for local evaluation is a single-table
    SELECT without GROUP BY or HAVING whose WHERE the evaluator supports; matching
    a row against its compiled predicate is evaluating that WHERE; and two images of
    a row that agree on [predicate_columns] match alike, so an update that changes
    none of them cannot move a row in or out of the query. *)
Theorem local_eval_decides_where (src resolved : ResolvedQueryExpr) (fp : Fingerprint)
    (has_limit : bool) (aggs : gset string) (a : TableAdmission)
    (Hadmitted : a ∈ query_admission_analyze src resolved fp has_limit aggs DepthFull)
    (Hlocal : uq_eval_strategy (ad_update_query a) = LocalEval) :
  exists s, as_select (uq_resolved (ad_update_query a)) = Some s /\
    select_is_single_table s = true /\ grouped s = false /\
    (forall w, sel_where s = Some w -> resolved_where_expr_supported w = true) /\
    (forall row, update_query_matches_locally (ad_update_query a) row =
       match sel_where s with
       | None => true
       | Some w => where_expr_evaluate w row (ad_table_name a)
       end) /\
    (forall tm row row',
       (forall w c, sel_where s = Some w -> c ∈ where_columns w -> rc_table c = ad_table_name a ->
          column_store_get (tm_columns tm) (rc_column c) = Some (rc_metadata c)) ->
       (forall c, c ∈ uq_predicate_columns (ad_update_query a) ->
          table_row_value tm row c = table_row_value tm row' c) ->
       update_query_matches_locally (ad_update_query a) row
       = update_query_matches_locally (ad_update_query a) row').
Proof.
  destruct (admission_item _ _ _ _ _ _ Hadmitted) as (table & uq & source & _ & ->).
  destruct (local_eval_select uq source Hlocal) as (_ & s & Hs & Hsingle & Hgroup & Hsup).
  pose proof (fun row => item_local resolved fp has_limit aggs table uq source s row Hs Hlocal)
    as Hmatch.
  exists s. split_and!; try done. intros tm row row' Hmeta Hagree.
  unfold item_query in Hmatch. rewrite !Hmatch. destruct (sel_where s) as [w|] eqn:Ew; [|done].
  apply evaluate_agree. intros c Hc Ht. specialize (Hmeta w c eq_refl Hc Ht).
  assert (Hin : rc_column c ∈ predicate_columns_collect uq (rt_name table)).
  { unfold predicate_columns_collect. rewrite Hs. apply table_columns_elem; [|done].
    rewrite Ew. simpl. rewrite !elem_of_app. by right; left. }
  specialize (Hagree _ Hin). unfold table_row_value in Hagree. by rewrite Hmeta in Hagree.
Qed.

(** C34: skipping the change check of an UPDATE is safe for admitted queries.  When
    every registration on a relation comes from the full admission analysis of some
    query for that relation's table, a query an upsert event invalidates is marked
    change-dependent, and when no query is ([needs_change_eval] is false) the check
    would return nothing, whatever candidates it is given. *)
Theorem admitted_skip_safe (oid : N) (ops : list UqOp) (tm : TableMetadata) (event : RowEvent)
    (Hops : forall a, UqRegister a ∈ ops -> ad_table_name a = tm_name tm /\
       exists src resolved fp has_limit aggs,
         a ∈ query_admission_analyze src resolved fp has_limit aggs DepthFull)
    (Hop : ev_operation event = CdcUpsert) :
  (forall fp q, us_queries (uq_run oid ops) !! fp = Some q ->
     query_row_invalidates q tm event = true -> uq_change_dependent q = true) /\
  (needs_change_eval (uq_run oid ops) = false ->
   forall candidates, update_queries_check_invalidate (uq_run oid ops) tm event candidates = []).
Proof.
  apply upsert_skip_safe; [done|]. intros fp q Hq.
  rewrite (ur_queries _ _ (uq_run_refines oid ops)), lookup_fmap in Hq.
  apply fmap_Some in Hq as (a & Ha & ->).
  destruct (Hops a (admitted_registered ops fp a Ha)) as (Hname & src & r & f & l & g & Hin).
  destruct (admission_item _ _ _ _ _ _ Hin) as (table & uq & source & _ & ->). by rewrite <- Hname.
Qed.
