(* ===== verification/Pipeline.v ===== *)
(** * From a row event to the queries it touches

    Composes the admission analysis, the update queries of a relation, the probe of
    its evaluation index and the invalidation check, as the writer runs them for a
    replicated row ([eval_candidates_into] and [update_queries_check_invalidate] of
    src/src/cache/writer/cdc/invalidation.rs). *)

From Stdlib Require Import Ascii String.
From stdpp Require Import base list strings.
From S2P Require Import Prelude Value Ast Range Subsume Cast Evaluate Extract Catalog.
From S2P Require Import ConstraintIndex PointProbe UpdateQuery Invalidation Branches.
From S2P Require Import Admission.

(** [eval_candidates_into], past the lookup of the relation. *)
Definition eval_candidates (us : UpdateQueries) (tm : TableMetadata)
    (row : list (option string)) : gset Fingerprint :=
  list_to_set (candidates_point_into (us_eval_index us) (row_value_forms tm row)).

(** ** Integer columns *)

(** Comparisons and IN lists over [i64] literals, on columns the row carries as
    PostgreSQL's integer text or NULL. *)
Definition int_constraint (tm : TableMetadata) (row : list (option string))
    (tc : TableConstraint) : Prop :=
  match tc with
  | TcComparison _ _ l => I64Column.i64_literal l
  | TcAnyOf _ ls => Forall I64Column.i64_literal ls
  | TcCastComparison _ _ _ _ => False
  end /\
  (table_row_value tm row (constraint_column tc) = Some None \/
   exists z, i64_range z /\
     table_row_value tm row (constraint_column tc) = Some (Some (i64_text z))).

Section integers.
Context (tm : TableMetadata) (row : list (option string)).

(** The integers a row spells. *)
Definition int_values : Row (fun _ => Z) := fun k =>
  match table_row_value tm row k.1 with
  | Some (Some text) =>
      match parse_i64 text with
      | Some z =>
          if (i64_min <=? z)%Z && (z <=? i64_max)%Z && bool_decide (i64_text z = text)
          then Some z else None
      | None => None
      end
  | _ => None
  end.

#[local] Existing Instance IntColumn.int_compare.
#[local] Existing Instance I64Column.i64_column.

Lemma int_values_text k z :
  i64_range z -> table_row_value tm row k.1 = Some (Some (i64_text z)) ->
  int_values k = Some z.
Proof.
  intros Hz Ht. unfold int_values. rewrite Ht, parse_i64_text by done.
  rewrite (bool_decide_eq_true_2 (i64_text z = i64_text z)) by done.
  destruct Hz as [Hlo Hhi].
  by rewrite (proj2 (Z.leb_le _ _) Hlo), (proj2 (Z.leb_le _ _) Hhi).
Qed.

Lemma int_values_forms : row_forms_read (fun _ => Z) (row_value_forms tm row) int_values.
Proof.
  intros c. split.
  { unfold row_value_forms. destruct (column_store_get _ c) as [m|]; [|eexists; by left].
    destruct (row !! column_index m) as [[]|]; eexists; by left. }
  intros v Hv. unfold int_values, table_row_value in Hv. simpl in Hv.
  destruct (column_store_get (tm_columns tm) c) as [m|] eqn:Em; [|done]. simpl in Hv.
  destruct (row !! column_index m) as [[text|]|] eqn:Er; try done.
  destruct (parse_i64 text) as [z|]; [|done].
  destruct ((i64_min <=? z)%Z && (z <=? i64_max)%Z && bool_decide (i64_text z = text)) eqn:Eb;
    [|done].
  injection Hv as <-. bool_hyps.
  apply (int_forms_read tm row c text m); [done|done|split; by apply Z.leb_le|done].
Qed.

Lemma int_constraint_sat tc :
  int_constraint tm row tc -> constraint_row_matches tm row tc = true ->
  row_sat (fun _ => Z) int_values tc = true.
Proof.
  intros [Hlit Hval] Hm. unfold constraint_row_matches in Hm.
  destruct Hval as [Hnull|(z & Hz & Ht)]; [by rewrite Hnull in Hm|].
  rewrite Ht in Hm. unfold row_sat.
  assert (Hcmp : forall op l, I64Column.i64_literal l ->
    where_value_compare_string l (i64_text z) op = ordering_satisfies_op (pg_cmp z l) op).
  { intros op l (i & -> & _). by apply (reads_compare None (i64_text z) (VInt z)); [constructor| |]. }
  destruct tc as [col op l|col ls|]; [| |done]; simpl in Ht, Hm |- *;
    rewrite (int_values_text (col, None) z) by done.
  - unfold constraint_sat, comparison_sat. simpl. by rewrite <- Hcmp.
  - apply existsb_elem in Hm as (l & Hl & Hm). simpl. apply existsb_elem. exists l.
    split; [done|]. rewrite Forall_elem in Hlit. rewrite Hcmp in Hm by (by apply Hlit).
    simpl in Hm. by destruct (pg_cmp z l).
Qed.

Lemma int_constraints_typed cs :
  Forall (int_constraint tm row) cs -> constraints_typed (fun _ => Z) cs.
Proof.
  intros Hcs k. apply Forall_elem. intros l (tc & [Htc _]%filter_elem & Hl)%flat_map_elem.
  rewrite Forall_elem in Hcs. destruct (Hcs tc Htc) as [Hlit _].
  destruct tc as [col op v|col vs|]; [| |done]; simpl in Hl, Hlit.
  - by apply list_elem_of_singleton in Hl as ->.
  - rewrite Forall_elem in Hlit. by apply Hlit.
Qed.

Lemma int_constraints_decided cs k :
  Forall (int_constraint tm row) cs ->
  order_decided (set_literals (bucket_of cs k)) (bound_literals (bucket_of cs k)).
Proof.
  intros Hcs l b. rewrite Forall_elem in Hcs.
  intros (tc & [Htc _]%filter_elem & Hl)%flat_map_elem
    (tc' & [Htc' _]%filter_elem & Hb)%flat_map_elem.
  destruct (Hcs tc Htc) as [Hlit _], (Hcs tc' Htc') as [Hlit' _].
  destruct tc as [| col vs |]; try (by apply not_elem_of_nil in Hl); simpl in Hl, Hlit.
  rewrite Forall_elem in Hlit. destruct (Hlit l Hl) as (i & -> & _).
  destruct tc' as [col' op v| |]; try (by apply not_elem_of_nil in Hb); simpl in Hb, Hlit'; [|done].
  destruct (is_bound_op op); [|by apply not_elem_of_nil in Hb].
  apply list_elem_of_singleton in Hb as ->. destruct Hlit' as (j & -> & _). simpl. eauto.
Qed.

(** A row that matches integer constraints is found by the probe. *)
Lemma int_match_reached cs :
  Forall (int_constraint tm row) cs ->
  forallb (constraint_row_matches tm row) cs = true ->
  point_reached (row_value_forms tm row) cs.
Proof.
  intros Hcs Hm. apply (point_reached_row (fun _ => Z) _ int_values).
  - apply int_values_forms.
  - by apply int_constraints_typed.
  - intros k. by apply int_constraints_decided.
  - apply Forall_elem. intros tc Htc. rewrite forallb_elem in Hm. rewrite Forall_elem in Hcs.
    apply int_constraint_sat; auto.
Qed.
End integers.

(** Admitted queries are indexed under their constraints on the relation, or under
    none. *)
Lemma admission_index_constraints a src resolved fp has_limit aggs :
  a ∈ query_admission_analyze src resolved fp has_limit aggs DepthFull ->
  ad_index_constraints a = [] \/
  qc_table_constraints (uq_constraints (ad_update_query a)) !! ad_table_name a
  = Some (ad_index_constraints a).
Proof.
  intros (table & uq & source & _ & ->)%admission_item. simpl.
  destruct (1 <? relation_count uq (rt_relation_oid table))%nat; [by left|].
  destruct (_ !! rt_name table) as [cs|] eqn:E; simpl; [right|by left]. done.
Qed.

Lemma int_nil_reached tm row : point_reached (row_value_forms tm row) [].
Proof. by apply int_match_reached. Qed.

(** ** Properties *)

(** C1: the narrowed invalidation check is exact end to end on integer columns.
    When every registration on a relation comes from the admission analysis, and the
    constraints recorded for the relation's table compare columns the row carries as
    integers or NULL with [i64] literals, the check run on the candidates the index
    probe returns for the row yields exactly the registered queries the event
    invalidates. *)
Theorem integer_events_narrowed_exact (oid : N) (ops : list UqOp) (tm : TableMetadata)
    (event : RowEvent) (fp : Fingerprint)
    (Hops : forall a, UqRegister a ∈ ops -> ad_table_name a = tm_name tm /\
       exists src resolved fp has_limit aggs,
         a ∈ query_admission_analyze src resolved fp has_limit aggs DepthFull)
    (Hints : forall fp q cs, us_queries (uq_run oid ops) !! fp = Some q ->
       qc_table_constraints (uq_constraints q) !! tm_name tm = Some cs ->
       Forall (int_constraint tm (ev_row_data event)) cs) :
  fp ∈ update_queries_check_invalidate (uq_run oid ops) tm event
         (eval_candidates (uq_run oid ops) tm (ev_row_data event)) <->
  exists q, us_queries (uq_run oid ops) !! fp = Some q /\
    query_row_invalidates q tm event = true.
Proof.
  destruct (uq_run_refines oid ops) as [Hq Hac He _].
  apply check_invalidate_elem; [done|]. intros k q Hk Hm.
  unfold eval_candidates. apply elem_of_list_to_set, (candidates_point_elem _ _ _ _ He).
  pose proof Hk as Hk'. rewrite Hq, lookup_fmap in Hk'. apply fmap_Some in Hk' as (a & Ha & ->).
  exists (ad_index_constraints a). split; [by rewrite lookup_fmap, Ha|].
  destruct (Hops a (admitted_registered ops k a Ha)) as (Hname & src & r & f & l & g & Hin).
  destruct (admission_index_constraints _ _ _ _ _ _ Hin) as [-> |Hcs]; [apply int_nil_reached|].
  rewrite Hname in Hcs. apply int_match_reached; [by apply (Hints k _ _ Hk)|].
  unfold row_constraints_match in Hm. by rewrite Hcs in Hm.
Qed.

Module PipelineWitness.
Import BranchWitness.

Definition col_meta (name : string) (pos : Z) : ColumnMetadata :=
  {| cm_name := name; cm_position := pos; cm_type_oid := 23; cm_data_type := TInt4;
     cm_type_name := "int4"; cm_cache_type_name := "int4"; cm_is_primary_key := (pos =? 1)%Z |}.
Definition items : TableMetadata :=
  {| tm_relation_oid := 9; tm_name := "items"; tm_schema := "public";
     tm_primary_key_columns := ["id"];
     tm_columns := column_store_new [col_meta "id" 1; col_meta "kind" 2; col_meta "rank" 3];
     tm_replica_identity_full := false |}.
Definition items_node : ResolvedTableNode := table "items" 9.
Definition item_col (name : string) (pos : Z) : ResolvedScalarExpr :=
  SColumn {| rc_schema := "public"; rc_table := "items"; rc_table_alias := None;
             rc_column := name; rc_metadata := col_meta name pos |}.
Definition kind_is (k : Z) : ResolvedWhereExpr :=
  WBinary OpEqual (WScalar (item_col "kind" 2)) (WScalar (SLiteral (LInteger k))).
Definition items_select (k : Z) : ResolvedSelectNode :=
  SelectNode false (Some [(item_col "id" 1, None)]) [TsTable items_node] (Some (kind_is k)) [] None.

(** [SELECT id FROM items WHERE kind = k ORDER BY rank DESC LIMIT ..] *)
Definition top_items (k : Z) : ResolvedQueryExpr :=
  QueryExpr (QbSelect (items_select k)) [OrderByClause (item_col "rank" 3) OrdDesc NullsDefault]
    None.

Definition admissions (fp : Fingerprint) (q : ResolvedQueryExpr) (has_limit : bool)
    : list TableAdmission :=
  query_admission_analyze q q fp has_limit ∅ DepthFull.

Definition the_ops : list UqOp :=
  UqRegister <$> (admissions 1%N (top_items 4) true ++ admissions 2%N (top_items 5) false).

Lemma the_ops_admitted a : UqRegister a ∈ the_ops -> ad_table_name a = tm_name items /\
  exists src resolved fp has_limit aggs,
    a ∈ query_admission_analyze src resolved fp has_limit aggs DepthFull.
Proof.
  unfold the_ops. intros (a' & [= <-] & Ha)%list_elem_of_fmap.
  apply elem_of_app in Ha as [Ha|Ha];
    (split; [apply list_elem_of_singleton in Ha as ->; reflexivity|by do 5 eexists]).
Qed.

(** Item 3 moves from kind 4 to kind 6. *)
Definition kind_event : RowEvent :=
  {| ev_row_data := [Some "3"; Some "6"; Some "10"]; ev_key_data := Some [];
     ev_operation := CdcUpsert;
     ev_row_changes := Some {["kind" := {| cc_changed := true; cc_old_less_than_new := None;
       cc_old_is_null := false |}]} |}.

Lemma the_constraints fp q cs :
  us_queries (uq_run 9 the_ops) !! fp = Some q ->
  qc_table_constraints (uq_constraints q) !! "items" = Some cs ->
  Forall (int_constraint items (ev_row_data kind_event)) cs.
Proof.
  rewrite (ur_queries _ _ (uq_run_refines 9 the_ops)), lookup_fmap.
  intros (a & Ha%admitted_registered & ->)%fmap_Some.
  unfold the_ops in Ha. apply list_elem_of_fmap in Ha as (a' & [= <-] & Ha).
  assert (Hint : forall k, i64_range k ->
    int_constraint items (ev_row_data kind_event) (TcComparison "kind" OpEqual (LInteger k))).
  { intros k Hk. split; [by exists k|]. right. exists 6%Z. split; [by split|]. by vm_compute. }
  assert (Hcs : forall k, i64_range k ->
    qc_table_constraints (uq_constraints (ad_update_query a)) !! "items"
      = Some [TcComparison "kind" OpEqual (LInteger k)] ->
    qc_table_constraints (uq_constraints (ad_update_query a)) !! "items" = Some cs ->
    Forall (int_constraint items (ev_row_data kind_event)) cs).
  { intros k Hk -> [= <-]. apply Forall_cons_2; [by apply Hint|apply Forall_nil_2]. }
  apply elem_of_app in Ha as [->%list_elem_of_singleton| ->%list_elem_of_singleton];
    [apply (Hcs 4%Z)|apply (Hcs 5%Z)]; (by split) || (by vm_compute).
Qed.

Lemma integer_events_narrowed_exact_witness :
  1%N ∈ update_queries_check_invalidate (uq_run 9 the_ops) items kind_event
          (eval_candidates (uq_run 9 the_ops) items (ev_row_data kind_event)) <->
  exists q, us_queries (uq_run 9 the_ops) !! 1%N = Some q /\
    query_row_invalidates q items kind_event = true.
Proof. apply (integer_events_narrowed_exact 9 the_ops items kind_event 1%N the_ops_admitted the_constraints). Defined.

(** Without LIMIT no query of the relation is change-dependent. *)
Definition unlimited_ops : list UqOp := UqRegister <$> admissions 2%N (top_items 5) false.

Lemma unlimited_ops_admitted a : UqRegister a ∈ unlimited_ops -> ad_table_name a = tm_name items /\
  exists src resolved fp has_limit aggs,
    a ∈ query_admission_analyze src resolved fp has_limit aggs DepthFull.
Proof.
  intros Ha. apply the_ops_admitted. unfold the_ops. rewrite fmap_app. apply elem_of_app. by right.
Qed.

Lemma admitted_skip_safe_witness :
  needs_change_eval (uq_run 9 unlimited_ops) = false /\
  update_queries_check_invalidate (uq_run 9 unlimited_ops) items kind_event {[2%N]} = [].
Proof.
  split; [by vm_compute|].
  apply (proj2 (admitted_skip_safe 9 unlimited_ops items kind_event unlimited_ops_admitted eq_refl)).
  by vm_compute.
Defined.

(** An update of [rank] alone does not change whether item 3 has kind 4. *)
Lemma local_eval_decides_where_witness :
  exists a, a ∈ admissions 1%N (top_items 4) true /\
    update_query_matches_locally (ad_update_query a) [Some "3"; Some "4"; Some "10"]
    = update_query_matches_locally (ad_update_query a) [Some "3"; Some "4"; Some "99"].
Proof.
  eexists. split; [by left|].
  edestruct (local_eval_decides_where (top_items 4) (top_items 4) 1%N true ∅) as (s & Hs & _ & _ & _ & _ & H);
    [by left|by vm_compute|].
  apply (H items).
  - intros w c Hw. vm_compute in Hs. injection Hs as <-. injection Hw as <-.
    intros ->%list_elem_of_singleton _. by vm_compute.
  - intros c Hc. assert (c = "kind") as ->; [|by vm_compute].
    match type of Hc with c ∈ ?s => assert (s = {["kind"]}) as E by (by vm_compute) end.
    rewrite E in Hc. set_solver.
Defined.
End PipelineWitness.

Module PipelineGap.
Import BranchWitness PipelineWitness.

(** [SELECT id FROM items WHERE kind = 1 UNION SELECT id FROM items WHERE kind = 2]
    registered under one fingerprint. *)
Definition union_items : ResolvedQueryExpr :=
  QueryExpr (QbSetOp SetUnion false (query (items_select 1)) (query (items_select 2))) [] None.

Definition union_queries : UpdateQueries :=
  uq_run 9 (UqRegister <$> admissions 1%N union_items false).

(** The two branches of a UNION over one table leave one update query: the second
    branch replaces the first under the fingerprint.  A new row of kind 1, which
    belongs to the result, is no candidate, does not match the update query that is
    left and invalidates nothing: the cached query misses it. *)
Theorem union_branch_lost :
  length (admissions 1%N union_items false) = 2 /\
  (forall q, us_queries union_queries !! 1%N = Some q ->
     uq_resolved q = query (resolved_select_node_update_replace (items_select 2)
                              select_true_columns) /\
     update_query_matches_locally q [Some "7"; Some "1"; Some "0"] = false /\
     query_row_invalidates q items {| ev_row_data := [Some "7"; Some "1"; Some "0"];
       ev_key_data := None; ev_operation := CdcUpsert; ev_row_changes := None |} = false) /\
  elements (eval_candidates union_queries items [Some "7"; Some "1"; Some "0"]) = [].
Proof.
  split_and!.
  - by vm_compute.
  - intros q Hq.
    assert (E : us_queries union_queries !! 1%N
      = Some (ad_update_query (table_admission union_items 1%N false ∅ DepthFull
          (items_node, query (resolved_select_node_update_replace (items_select 2)
             select_true_columns), UsFromClause)))) by (by vm_compute).
    rewrite E in Hq. injection Hq as <-. split_and!; by vm_compute.
  - by vm_compute.
Qed.

(** [a JOIN c ON a.id = c.a_id RIGHT JOIN b ON a.id = b.a_id]: both tables of the
    optional side count as terminal, so an insert into [a] is applied in place and
    never invalidates, though the row of [c] it now joins with need not be cached. *)
Definition right_join : ResolvedSelectNode :=
  SelectNode false None
    [TsJoin JRight
       (TsJoin JInner (TsTable a_table) (TsTable c_table)
          (JqOn (WBinary OpEqual (WScalar (col "a" "id")) (WScalar (col "c" "a_id")))))
       (TsTable b_table)
       (JqOn (WBinary OpEqual (WScalar (col "a" "id")) (WScalar (col "b" "a_id"))))]
    None [] None.

Theorem joined_optional_side_terminal :
  elements (outer_join_optional_tables right_join).1 = ["c"; "a"] /\
  elements (outer_join_optional_tables right_join).2 = [] /\
  (fun u => u.2) <$> query_table_update_queries (query right_join)
    = [UsOuterJoinTerminal; UsOuterJoinTerminal; UsFromClause] /\
  forall q tm event, uq_source q = UsOuterJoinTerminal ->
    row_uncached_invalidates q tm event = false.
Proof.
  split_and!; [by vm_compute..|]. intros q tm event Hs. unfold row_uncached_invalidates. by rewrite Hs.
Qed.
End PipelineGap.
