(* ===== verification/WriteAggregate.v ===== *)
(** * Pending writes of one table

    Models src/src/query/write.rs (what the classifier extracts of a forwarded
    write) and src/src/proxy/connection/write_log/aggregate.rs (the state a tier
    keeps of the writes to one table: column-major INSERT rows, shape-grouped
    equality tuples, range maps, the caps that degrade it) with the part of
    write_log/log.rs that folds a write into it and tests a read against it.

    The aggregate is an optimisation of keeping every statement: the reference
    is [statement_disjoint], one range-map comparison per statement (or per
    inserted row), and the theorems relate the folded state to it. *)

From S2P Require Import Prelude Value Ast Range Subsume RangeOverlap.
From stdpp Require Import sorting.

(** ** Classified writes *)

Record RelationRef := { rr_schema : option string; rr_name : string }.

Notation InsertRow := (list (option LiteralValue)).
Definition WriteComparison : Type := string * BinaryOp * LiteralValue.
Definition SetAssignment : Type := string * option LiteralValue.

Record InsertStatement := {
  ins_relation : RelationRef;
  ins_columns : list string;
  ins_rows : list InsertRow
}.

Record DeleteStatement := {
  del_relation : RelationRef;
  del_comparisons : list WriteComparison
}.

Record UpdateStatement := {
  upd_relation : RelationRef;
  upd_where_comparisons : list WriteComparison;
  upd_set : list SetAssignment
}.

Inductive WriteClass :=
| WcInsertRows (insert : InsertStatement)
| WcDeleteRows (delete : DeleteStatement)
| WcUpdateRows (update : UpdateStatement)
| WcTable (relation : RelationRef)
| WcConnection
| WcConnectionUnstampable.

(** ** INSERT rows, column-major *)

Notation ReadRanges := (gmap string ColumnRange).

Definition UPDATE_DELETE_PREDICATE_CAP : N := 64.
Definition MERGED_PREDICATE_CAP : N := 1024.
Definition INSERT_MERGED_ROWS_CAP : N := 1024.
Definition INSERT_MERGED_CELLS_CAP : N := 8192.

Definition len {A} (l : list A) : N := N.of_nat (length l).

Record InsertAggregate := {
  ia_columns : list string;
  ia_rows : list InsertRow
}.

Definition insert_aggregate_default : InsertAggregate := {| ia_columns := []; ia_rows := [] |}.

Definition caps_exceeded (self : InsertAggregate) (incoming_columns : list string)
    (incoming_rows : N) : bool :=
  let new_columns :=
    len (List.filter (fun c => negb (bool_decide (c ∈ ia_columns self))) incoming_columns) in
  let rows_total := (len (ia_rows self) + incoming_rows)%N in
  (INSERT_MERGED_ROWS_CAP <? rows_total)%N
  || (INSERT_MERGED_CELLS_CAP <? rows_total * (len (ia_columns self) + new_columns))%N.

(** [iter().position(..)]: the first occurrence. *)
Fixpoint column_position (columns : list string) (c : string) : option nat :=
  match columns with
  | [] => None
  | existing :: rest =>
      if bool_decide (existing = c) then Some 0%nat else S <$> column_position rest c
  end.

(** The extended column list and the statement's positions in it. *)
Fixpoint column_positions_resolve (columns statement_columns : list string)
    : list string * list nat :=
  match statement_columns with
  | [] => (columns, [])
  | c :: rest =>
      match column_position columns c with
      | Some p =>
          let '(columns', ps) := column_positions_resolve columns rest in (columns', p :: ps)
      | None =>
          let '(columns', ps) := column_positions_resolve (columns ++ [c]) rest in
          (columns', length columns :: ps)
      end
  end.

Definition scatter (cells : list (option LiteralValue)) (vp : option LiteralValue * nat)
    : list (option LiteralValue) :=
  <[vp.2 := vp.1]> cells.

Definition row_cells (columns : list string) (positions : list nat) (values : InsertRow)
    : InsertRow :=
  fold_left scatter (zip values positions) (replicate (length columns) None).

Definition row_push (self : InsertAggregate) (positions : list nat) (values : InsertRow)
    : InsertAggregate :=
  {| ia_columns := ia_columns self;
     ia_rows := ia_rows self ++ [row_cells (ia_columns self) positions values] |}.

(** [column_positions_resolve], then one [row_push] per row. *)
Definition rows_fold (self : InsertAggregate) (columns : list string) (rows : list InsertRow)
    : InsertAggregate :=
  let '(columns', positions) := column_positions_resolve (ia_columns self) columns in
  fold_left (fun agg row => row_push agg positions row) rows
    {| ia_columns := columns'; ia_rows := ia_rows self |}.

(** [None] is the source's [false]: over a cap, nothing folded. *)
Definition insert_fold (self : InsertAggregate) (insert : InsertStatement)
    : option InsertAggregate :=
  if caps_exceeded self (ins_columns insert) (len (ins_rows insert)) then None
  else Some (rows_fold self (ins_columns insert) (ins_rows insert)).

Definition insert_merge (self other : InsertAggregate) : option InsertAggregate :=
  if caps_exceeded self (ia_columns other) (len (ia_rows other)) then None
  else match ia_rows self with
  | [] => Some other
  | _ => Some (rows_fold self (ia_columns other) (ia_rows other))
  end.

Definition read_unsatisfiable (read_ranges : ReadRanges) : bool :=
  existsb (fun cr => is_empty_range cr.2) (map_to_list read_ranges).

(** The columns the read constrains, as positions of the list. *)
Fixpoint constrained_from (start : nat) (columns : list string) (read_ranges : ReadRanges)
    : list (nat * ColumnRange) :=
  match columns with
  | [] => []
  | c :: rest =>
      match read_ranges !! c with
      | Some range => (start, range) :: constrained_from (S start) rest read_ranges
      | None => constrained_from (S start) rest read_ranges
      end
  end.

Definition constrained (columns : list string) (read_ranges : ReadRanges)
    : list (nat * ColumnRange) := constrained_from 0 columns read_ranges.

(** Some constrained position carries a known value its range excludes. *)
Definition excluded_at (positions : list (nat * ColumnRange)) (get : nat -> option LiteralValue)
    : bool :=
  existsb (fun '(p, range) =>
    match get p with
    | Some value => excludes range value
    | None => false
    end) positions.

Definition is_nil {A} (l : list A) : bool := match l with [] => true | _ => false end.

Definition insert_disjoint (self : InsertAggregate) (read_ranges : ReadRanges) : bool :=
  if read_unsatisfiable read_ranges then true
  else
    let positions := constrained (ia_columns self) read_ranges in
    if is_nil positions then is_nil (ia_rows self)
    else forallb (fun row => excluded_at positions (fun p => mjoin (row !! p))) (ia_rows self).

(** ** Equality tuples, grouped by shape *)

Notation EqualityTuple := (list LiteralValue).
Notation MergedTuples := (gmap (list string) (list EqualityTuple)).

Definition column_le {A} (a b : string * A) : Prop := String.leb a.1 b.1 = true.

#[export] Instance column_le_dec {A} : RelDecision (@column_le A) :=
  fun a b => decide (String.leb a.1 b.1 = true).

(** [windows(2).any(..)] *)
Fixpoint adjacent_duplicate {A} (pairs : list (string * A)) : bool :=
  match pairs with
  | a :: (b :: _) as rest => bool_decide (a.1 = b.1) || adjacent_duplicate rest
  | _ => false
  end.

Definition equality_tuple_build (comparisons : list WriteComparison)
    : option (list string * EqualityTuple) :=
  if existsb (fun '(_, op, _) => negb (bool_decide (op = OpEqual))) comparisons then None
  else
    let pairs := merge_sort column_le (map (fun '(c, _, v) => (c, v)) comparisons) in
    if adjacent_duplicate pairs then None
    else Some (map fst pairs, map snd pairs).

Definition merged_tuples_disjoint (merged : MergedTuples) (read_ranges : ReadRanges) : bool :=
  if read_unsatisfiable read_ranges then true
  else forallb (fun '(columns, tuples) =>
    let positions := constrained columns read_ranges in
    if is_nil positions then is_nil tuples
    else forallb (fun tuple : EqualityTuple => excluded_at positions (tuple !!.)) tuples)
    (map_to_list merged).

Notation SetTuple := (list (option LiteralValue)).
Notation UpdateShape := (list string * list string)%type.
Notation MergedUpdates := (gmap UpdateShape (list (EqualityTuple * SetTuple))).

Fixpoint duplicate_set (set : list SetAssignment) : bool :=
  match set with
  | [] => false
  | (column, _) :: rest =>
      existsb (fun '(other, _) => bool_decide (other = column)) rest || duplicate_set rest
  end.

Definition update_tuple_build (update : UpdateStatement)
    : option (UpdateShape * (EqualityTuple * SetTuple)) :=
  match equality_tuple_build (upd_where_comparisons update) with
  | None => None
  | Some (where_columns, where_values) =>
      if duplicate_set (upd_set update) then None
      else
        let set_pairs := merge_sort column_le (upd_set update) in
        Some ((where_columns, map fst set_pairs), (where_values, map snd set_pairs))
  end.

Definition merged_updates_disjoint (merged : MergedUpdates) (read_ranges : ReadRanges) : bool :=
  if read_unsatisfiable read_ranges then true
  else forallb (fun '((where_columns, set_columns), tuples) =>
    let where_constrained := constrained where_columns read_ranges in
    let where_in_image :=
      List.filter (fun '(p, _) =>
        match where_columns !! p with
        | Some column => negb (bool_decide (column ∈ set_columns))
        | None => false
        end) where_constrained in
    let set_constrained := constrained set_columns read_ranges in
    forallb (fun '(where_values, set_values) =>
      if negb (excluded_at where_constrained ((where_values : EqualityTuple) !!.)) then false
      else excluded_at where_in_image (where_values !!.)
           || excluded_at set_constrained (fun p => mjoin ((set_values : SetTuple) !! p)))
      tuples)
    (map_to_list merged).

(** ** The aggregate *)

Record UpdatePredicate := { up_where_ranges : ReadRanges; up_image_ranges : ReadRanges }.

Definition set_override (image : ReadRanges) (a : SetAssignment) : ReadRanges :=
  match a.2 with
  | Some literal => <[a.1 := CrEqual literal]> image
  | None => delete a.1 image
  end.

Definition update_predicate_build (update : UpdateStatement) : UpdatePredicate :=
  let where_ranges := column_ranges_from_comparisons (upd_where_comparisons update) in
  {| up_where_ranges := where_ranges;
     up_image_ranges := fold_left set_override (upd_set update) where_ranges |}.

Record TableAggregate := {
  ag_opaque : bool;
  ag_inserts : option InsertAggregate;
  ag_merged_deletes : MergedTuples;
  ag_deletes : list ReadRanges;
  ag_merged_updates : MergedUpdates;
  ag_merged_predicates : N;
  ag_updates : list UpdatePredicate
}.

Definition aggregate_default : TableAggregate :=
  {| ag_opaque := false; ag_inserts := None; ag_merged_deletes := ∅; ag_deletes := [];
     ag_merged_updates := ∅; ag_merged_predicates := 0; ag_updates := [] |}.

(** Every field is overwritten. *)
Definition degrade_opaque (self : TableAggregate) : TableAggregate :=
  {| ag_opaque := true; ag_inserts := None; ag_merged_deletes := ∅; ag_deletes := [];
     ag_merged_updates := ∅; ag_merged_predicates := 0; ag_updates := [] |}.

Definition has_row_predicates (self : TableAggregate) : bool :=
  bool_decide (is_Some (ag_inserts self))
  || negb (bool_decide (ag_merged_deletes self = ∅))
  || negb (is_nil (ag_deletes self))
  || negb (bool_decide (ag_merged_updates self = ∅))
  || negb (is_nil (ag_updates self)).

(** [entry(k).or_default().extend(ts)] *)
Definition group_extend {K T} `{Countable K} (k : K) (ts : list T) (m : gmap K (list T))
    : gmap K (list T) := <[k := default [] (m !! k) ++ ts]> m.

Definition merge_inserts (self other : option InsertAggregate)
    : option (option InsertAggregate) :=
  match other with
  | None => Some self
  | Some other_inserts =>
      Some <$> insert_merge (default insert_aggregate_default self) other_inserts
  end.

Definition aggregate_merge (self other : TableAggregate) : TableAggregate :=
  if ag_opaque self || ag_opaque other then degrade_opaque self
  else match merge_inserts (ag_inserts self) (ag_inserts other) with
  | None => degrade_opaque self
  | Some inserts =>
      let merged :=
        {| ag_opaque := false;
           ag_inserts := inserts;
           ag_merged_deletes :=
             map_fold group_extend (ag_merged_deletes self) (ag_merged_deletes other);
           ag_deletes := ag_deletes self ++ ag_deletes other;
           ag_merged_updates :=
             map_fold group_extend (ag_merged_updates self) (ag_merged_updates other);
           ag_merged_predicates :=
             (ag_merged_predicates self + ag_merged_predicates other)%N;
           ag_updates := ag_updates self ++ ag_updates other |} in
      if (UPDATE_DELETE_PREDICATE_CAP <? len (ag_deletes merged) + len (ag_updates merged))%N
         || (MERGED_PREDICATE_CAP <? ag_merged_predicates merged)%N
      then degrade_opaque merged
      else merged
  end.

(** ** Folding one write in *)

(** The arms of [WriteLog::record], on the table's active aggregate. *)
Definition insert_record (agg : TableAggregate) (insert : InsertStatement) : TableAggregate :=
  if ag_opaque agg then agg
  else match insert_fold (default insert_aggregate_default (ag_inserts agg)) insert with
  | Some inserts =>
      {| ag_opaque := ag_opaque agg; ag_inserts := Some inserts;
         ag_merged_deletes := ag_merged_deletes agg; ag_deletes := ag_deletes agg;
         ag_merged_updates := ag_merged_updates agg;
         ag_merged_predicates := ag_merged_predicates agg; ag_updates := ag_updates agg |}
  | None => degrade_opaque agg
  end.

Definition delete_record (agg : TableAggregate) (del : DeleteStatement) : TableAggregate :=
  if ag_opaque agg then agg
  else match equality_tuple_build (del_comparisons del) with
  | Some (columns, values) =>
      let agg' :=
        {| ag_opaque := ag_opaque agg; ag_inserts := ag_inserts agg;
           ag_merged_deletes := group_extend columns [values] (ag_merged_deletes agg);
           ag_deletes := ag_deletes agg; ag_merged_updates := ag_merged_updates agg;
           ag_merged_predicates := (ag_merged_predicates agg + 1)%N;
           ag_updates := ag_updates agg |} in
      if (MERGED_PREDICATE_CAP <? ag_merged_predicates agg')%N then degrade_opaque agg'
      else agg'
  | None =>
      let agg' :=
        {| ag_opaque := ag_opaque agg; ag_inserts := ag_inserts agg;
           ag_merged_deletes := ag_merged_deletes agg;
           ag_deletes := ag_deletes agg
                         ++ [column_ranges_from_comparisons (del_comparisons del)];
           ag_merged_updates := ag_merged_updates agg;
           ag_merged_predicates := ag_merged_predicates agg; ag_updates := ag_updates agg |} in
      if (UPDATE_DELETE_PREDICATE_CAP <? len (ag_deletes agg') + len (ag_updates agg'))%N
      then degrade_opaque agg' else agg'
  end.

Definition update_record (agg : TableAggregate) (update : UpdateStatement) : TableAggregate :=
  if ag_opaque agg then agg
  else match update_tuple_build update with
  | Some (shape, tuple) =>
      let agg' :=
        {| ag_opaque := ag_opaque agg; ag_inserts := ag_inserts agg;
           ag_merged_deletes := ag_merged_deletes agg; ag_deletes := ag_deletes agg;
           ag_merged_updates := group_extend shape [tuple] (ag_merged_updates agg);
           ag_merged_predicates := (ag_merged_predicates agg + 1)%N;
           ag_updates := ag_updates agg |} in
      if (MERGED_PREDICATE_CAP <? ag_merged_predicates agg')%N then degrade_opaque agg'
      else agg'
  | None =>
      let agg' :=
        {| ag_opaque := ag_opaque agg; ag_inserts := ag_inserts agg;
           ag_merged_deletes := ag_merged_deletes agg; ag_deletes := ag_deletes agg;
           ag_merged_updates := ag_merged_updates agg;
           ag_merged_predicates := ag_merged_predicates agg;
           ag_updates := ag_updates agg ++ [update_predicate_build update] |} in
      if (UPDATE_DELETE_PREDICATE_CAP <? len (ag_deletes agg') + len (ag_updates agg'))%N
      then degrade_opaque agg' else agg'
  end.

(** ** The gate's test of one aggregate *)

Record DisjointKinds := { dk_insert : bool; dk_delete : bool; dk_update : bool }.
Definition kinds_default : DisjointKinds :=
  {| dk_insert := false; dk_delete := false; dk_update := false |}.
Definition kinds_any (k : DisjointKinds) : bool := dk_insert k || dk_delete k || dk_update k.

Definition insert_proved (k : DisjointKinds) : DisjointKinds :=
  {| dk_insert := true; dk_delete := dk_delete k; dk_update := dk_update k |}.
Definition delete_proved (k : DisjointKinds) : DisjointKinds :=
  {| dk_insert := dk_insert k; dk_delete := true; dk_update := dk_update k |}.
Definition update_proved (k : DisjointKinds) : DisjointKinds :=
  {| dk_insert := dk_insert k; dk_delete := dk_delete k; dk_update := true |}.

Definition some_and {A} (o : option A) (f : A -> bool) : bool :=
  match o with Some a => f a | None => false end.

(** One guarded step: a present store that is not proved disjoint returns
    [true] at once, with the kinds marked so far; otherwise the test goes on. *)
Definition checked (present disjoint : bool) (mark : DisjointKinds -> DisjointKinds)
    (rest : DisjointKinds -> bool * DisjointKinds) (kinds : DisjointKinds)
    : bool * DisjointKinds :=
  if present then if disjoint then rest (mark kinds) else (true, kinds)
  else rest kinds.

Fixpoint checked_all {A} (items : list A) (disjoint : A -> bool)
    (mark : DisjointKinds -> DisjointKinds) (rest : DisjointKinds -> bool * DisjointKinds)
    (kinds : DisjointKinds) : bool * DisjointKinds :=
  match items with
  | [] => rest kinds
  | item :: items' =>
      checked true (disjoint item) mark (checked_all items' disjoint mark rest) kinds
  end.

(** Whether the read intersects, and the kinds proved disjoint on the way. *)
Definition aggregate_intersects (agg : TableAggregate) (read_ranges : option ReadRanges)
    (kinds : DisjointKinds) : bool * DisjointKinds :=
  if ag_opaque agg then (true, kinds)
  else
    checked (bool_decide (is_Some (ag_inserts agg)))
      (some_and read_ranges (fun r => some_and (ag_inserts agg) (fun i => insert_disjoint i r)))
      insert_proved
    (checked (negb (bool_decide (ag_merged_deletes agg = ∅)))
      (some_and read_ranges (merged_tuples_disjoint (ag_merged_deletes agg)))
      delete_proved
    (checked_all (ag_deletes agg)
      (fun del => some_and read_ranges (fun r => column_ranges_disjoint r del))
      delete_proved
    (checked (negb (bool_decide (ag_merged_updates agg = ∅)))
      (some_and read_ranges (merged_updates_disjoint (ag_merged_updates agg)))
      update_proved
    (checked_all (ag_updates agg)
      (fun up => some_and read_ranges (fun r =>
         column_ranges_disjoint r (up_where_ranges up)
         && column_ranges_disjoint r (up_image_ranges up)))
      update_proved
    (fun kinds => (false, kinds)))))) kinds.

(** ** Reference: one test per statement *)

(** The known cells of an inserted row as a range map; of two cells for one
    column the later counts. *)
Definition insert_row_ranges (columns : list string) (row : InsertRow) : ReadRanges :=
  fold_left set_override (zip columns row) ∅.

Definition statement_disjoint (w : WriteClass) (r : ReadRanges) : bool :=
  match w with
  | WcInsertRows ins =>
      forallb (fun row => column_ranges_disjoint r (insert_row_ranges (ins_columns ins) row))
        (ins_rows ins)
  | WcDeleteRows del =>
      column_ranges_disjoint r (column_ranges_from_comparisons (del_comparisons del))
  | WcUpdateRows update =>
      let p := update_predicate_build update in
      column_ranges_disjoint r (up_where_ranges p) && column_ranges_disjoint r (up_image_ranges p)
  | WcTable _ | WcConnection | WcConnectionUnstampable => false
  end.

(** A read whose ranges could not be derived is disjoint from no write. *)
Definition write_disjoint (read_ranges : option ReadRanges) (w : WriteClass) : bool :=
  some_and read_ranges (statement_disjoint w).

(** ** Reading the operations as propositions *)

Lemma read_unsatisfiable_spec r :
  read_unsatisfiable r = true <-> exists c, r !! c = Some CrEmpty.
Proof.
  unfold read_unsatisfiable. rewrite existsb_elem. split.
  - intros ([c x] & Hin%elem_of_map_to_list & Hx). exists c. by destruct x.
  - intros [c Hc]. exists (c, CrEmpty). split; [|done]. by apply elem_of_map_to_list.
Qed.

Lemma constrained_from_spec start columns r p range :
  (p, range) ∈ constrained_from start columns r <->
  exists i c, p = (start + i)%nat /\ columns !! i = Some c /\ r !! c = Some range.
Proof.
  revert start. induction columns as [|c cs IH]; intros start; cbn [constrained_from].
  { split; [by intros ?%not_elem_of_nil|]. by intros (i & c & _ & ? & _). }
  assert (Hrest : (p, range) ∈ constrained_from (S start) cs r <->
    exists i c', p = (start + S i)%nat /\ cs !! i = Some c' /\ r !! c' = Some range).
  { rewrite IH. split; intros (i & c' & -> & ? & ?); exists i, c'; (split; [lia|done]). }
  destruct (r !! c) as [range'|] eqn:Ec; rewrite ?elem_of_cons, Hrest; split.
  - intros [[= -> ->]|(i & c' & ? & ? & ?)]; [exists 0%nat, c|exists (S i), c'];
      (split; [lia|done]).
  - intros ([|i] & c' & -> & Hc & Hr); simpl in Hc; [left|right; eauto].
    injection Hc as ->. rewrite Hr in Ec. injection Ec as ->. f_equal. lia.
  - intros (i & c' & ? & ? & ?). exists (S i), c'. done.
  - intros ([|i] & c' & -> & Hc & Hr); simpl in Hc; [congruence|eauto].
Qed.

Lemma excluded_at_spec columns r get :
  excluded_at (constrained columns r) get = true <->
  exists p c range v, columns !! p = Some c /\ r !! c = Some range /\ get p = Some v /\
    excludes range v = true.
Proof.
  unfold excluded_at, constrained. rewrite existsb_elem. split.
  - intros ([p range] & (i & c & -> & Hc & Hr)%constrained_from_spec & Hx). simpl in Hx.
    destruct (get i) as [v|] eqn:Ev; [|done]. by exists i, c, range, v.
  - intros (p & c & range & v & Hc & Hr & Hv & Hx). exists (p, range). rewrite Hv.
    split; [|done]. apply constrained_from_spec. by exists p, c.
Qed.

(** The values a column list and a row give, by column name. *)
Definition cells (columns : list string) (row : list (option LiteralValue)) : gmap string LiteralValue :=
  omap id (list_to_map (zip columns row) : gmap string (option LiteralValue)).

Lemma cells_lookup columns (row : list (option LiteralValue)) c v :
  NoDup columns ->
  cells columns row !! c = Some v <->
  exists p, columns !! p = Some c /\ row !! p = Some (Some v).
Proof.
  intros Hnd. unfold cells. rewrite lookup_omap, <- zip_elem.
  rewrite elem_of_list_to_map by by apply zip_NoDup.
  destruct (list_to_map (zip columns row) !! c) as [[x|]|]; simpl; naive_solver.
Qed.

(** An excluded row: some known cell lies outside the read's range. *)
Definition cell_excluded (known : gmap string LiteralValue) (r : ReadRanges) : Prop :=
  exists c range v, r !! c = Some range /\ known !! c = Some v /\ excludes range v = true.

Lemma excluded_at_cells columns (row : list (option LiteralValue)) r :
  NoDup columns ->
  excluded_at (constrained columns r) (fun p => mjoin (row !! p)) = true <->
  cell_excluded (cells columns row) r.
Proof.
  intros Hnd. rewrite excluded_at_spec. split.
  - intros (p & c & range & v & Hc & Hr & Hv & Hx). exists c, range, v.
    split_and!; [done| |done]. apply cells_lookup; [done|]. exists p. split; [done|].
    by destruct (row !! p) as [[]|]; simpl in Hv; simplify_eq.
  - intros (c & range & v & Hr & (p & Hc & Hv)%cells_lookup & Hx); [|done].
    exists p, c, range, v. by rewrite Hv.
Qed.

(** ** Point ranges against the range-map test *)

(** A range an equality with [v] builds. *)
Definition is_point (range : ColumnRange) (v : LiteralValue) : Prop :=
  range = CrEqual v \/ (literal_value_is_incomparable v = true /\ range = CrUnknown).

Lemma literal_value_eq_sym a b : literal_value_eq a b = literal_value_eq b a.
Proof. destruct a, b; simpl; try done; f_equal; apply bool_decide_ext; naive_solver. Qed.

Lemma literal_value_eq_comparable a b x :
  literal_value_eq a b = Some x ->
  literal_value_is_incomparable a = false /\ literal_value_is_incomparable b = false.
Proof. by destruct a, b. Qed.

Lemma excludes_comparable range v :
  excludes range v = true -> literal_value_is_incomparable v = false.
Proof.
  unfold excludes, column_range_contains. intros H. bool_hyps.
  by destruct (literal_value_is_incomparable v).
Qed.

Lemma excludes_equal_sym x v : excludes (CrEqual x) v = excludes (CrEqual v) x.
Proof.
  unfold excludes, column_range_contains. rewrite (literal_value_eq_sym v x).
  destruct (literal_value_eq x v) as [b|] eqn:E.
  - by destruct (literal_value_eq_comparable _ _ _ E) as [-> ->].
  - by destruct (literal_value_is_incomparable v), (literal_value_is_incomparable x).
Qed.

Lemma column_range_disjoint_point range point v :
  range <> CrEmpty -> is_point point v -> column_range_disjoint range point = excludes range v.
Proof.
  intros Hne [-> |[Hv ->]].
  - destruct range; try done; simpl.
    + symmetry. apply bool_decide_eq_false. unfold column_range_contains.
      by destruct (literal_value_is_incomparable v).
    + apply excludes_equal_sym.
  - unfold excludes, column_range_contains. rewrite Hv. by destruct range.
Qed.

Lemma column_ranges_disjoint_points (r b : ReadRanges) (known : gmap string LiteralValue) :
  (forall c, option_Forall2 is_point (b !! c) (known !! c)) ->
  column_ranges_disjoint r b = true <-> read_unsatisfiable r = true \/ cell_excluded known r.
Proof.
  intros Hb. change (column_ranges_disjoint r b) with
    (if read_unsatisfiable r || read_unsatisfiable b then true
     else existsb (fun '(col, ra) =>
       match b !! col with Some rb => column_range_disjoint ra rb | None => false end)
       (map_to_list r)).
  destruct (read_unsatisfiable r) eqn:Eu.
  { cbn [orb]. split; intros _; [by left|reflexivity]. }
  replace (read_unsatisfiable b) with false.
  2: { symmetry. apply not_true_iff_false. rewrite read_unsatisfiable_spec. intros [c Hc].
       specialize (Hb c). rewrite Hc in Hb. inversion Hb as [? ? Hp|]; subst.
       destruct Hp as [?|[_ ?]]; congruence. }
  cbn [orb]. rewrite existsb_elem. split.
  - intros ([c range] & Hin%elem_of_map_to_list & Hd). right.
    specialize (Hb c). destruct (b !! c) as [point|]; [|done].
    inversion Hb as [? v Hp Hv|]; subst. exists c, range, v. split_and!; [done..|].
    rewrite <- Hd. symmetry. apply column_range_disjoint_point; [|done]. intros ->.
    assert (read_unsatisfiable r = true) by (apply read_unsatisfiable_spec; eauto). congruence.
  - intros [?|(c & range & v & Hr & Hv & Hx)]; [done|]. exists (c, range).
    split; [by apply elem_of_map_to_list|]. specialize (Hb c). rewrite Hv in Hb.
    inversion Hb as [point ? Hp|]; subst. rewrite <- Hx.
    apply column_range_disjoint_point; [|done]. intros ->.
    assert (read_unsatisfiable r = true) by (apply read_unsatisfiable_spec; eauto). congruence.
Qed.

(** ** Column order and equality tuples *)

#[export] Instance column_le_trans {A} : Transitive (@column_le A).
Proof.
  intros a b c. unfold column_le. rewrite !string_leb_compare. apply string_compare_le_trans.
Qed.

#[export] Instance column_le_total {A} : Total (@column_le A).
Proof. intros a b. apply String.leb_total. Qed.

Lemma sorted_no_duplicate {A} (l : list (string * A)) :
  StronglySorted column_le l -> adjacent_duplicate l = false -> NoDup l.*1.
Proof.
  induction 1 as [|a l Hl IH Ha]; intros Hd; [constructor|]. simpl.
  destruct l as [|b l]; [apply NoDup_singleton|].
  cbn [adjacent_duplicate] in Hd. bool_hyps. apply list.NoDup_cons. split; [|auto].
  intros ([c' x] & Hc & Hin)%list_elem_of_fmap. simpl in Hc.
  rewrite Forall_elem in Ha. inversion Hl as [|? ? _ Hb]; subst. rewrite Forall_elem in Hb.
  pose proof (Ha b ltac:(by left)) as Hab.
  apply elem_of_cons in Hin as [<- |Hin]; [done|]. specialize (Hb _ Hin).
  unfold column_le in Hab, Hb. simpl in Hb.
  apply H. by apply String.leb_antisym.
Qed.

Lemma zip_fmap_some (l : list (string * LiteralValue)) :
  zip (map fst l) (Some <$> map snd l) = prod_map id Some <$> l.
Proof. induction l as [|[a b] l IH]; simpl; [done|]. by f_equal. Qed.

Lemma cells_some (l : list (string * LiteralValue)) c v :
  NoDup l.*1 -> cells (map fst l) (Some <$> map snd l) !! c = Some v <-> (c, v) ∈ l.
Proof.
  intros Hnd. rewrite cells_lookup by done. rewrite <- zip_elem, zip_fmap_some.
  rewrite list_elem_of_fmap. split; [|by exists (c, v)].
  by intros ([c' v'] & [= -> ->] & ?).
Qed.

Definition comparison_column (c : WriteComparison) : string := c.1.1.

Lemma bucket_of_singleton (cs : list WriteComparison) c op v :
  NoDup (comparison_column <$> cs) -> (c, op, v) ∈ cs ->
  bucket_of (comparison_constraint <$> cs) (c, None) = [TcComparison c op v].
Proof.
  induction cs as [|[[c' op'] v'] cs IH]; [by intros _ ?%not_elem_of_nil|].
  rewrite fmap_cons. intros [Hn Hnd]%list.NoDup_cons [Heq|Hin]%elem_of_cons.
  - injection Heq as <- <- <-. simpl. rewrite bool_decide_eq_true_2 by done. f_equal.
    clear -Hn. unfold comparison_column in Hn. simpl in Hn.
    induction cs as [|[[c' op'] v'] cs IH]; [done|]. simpl in *.
    rewrite bool_decide_eq_false_2 by set_solver. set_solver.
  - simpl. rewrite bool_decide_eq_false_2; [by apply IH|]. intros [= ->]. apply Hn.
    apply list_elem_of_fmap. by exists (c, op, v).
Qed.

Lemma bucket_of_absent (cs : list WriteComparison) c :
  c ∉ comparison_column <$> cs -> bucket_of (comparison_constraint <$> cs) (c, None) = [].
Proof.
  induction cs as [|[[c' op] v] cs IH]; [done|]. rewrite fmap_cons. intros Hn. simpl.
  rewrite bool_decide_eq_false_2; [apply IH; set_solver|]. intros [= ->]. set_solver.
Qed.

(** What [equality_tuple_build] stores: the comparisons are equalities of distinct
    columns, and the tuple holds each column's value. *)
Lemma equality_tuple_build_spec cs columns values :
  equality_tuple_build cs = Some (columns, values) ->
  exists pairs, columns = map fst pairs /\ values = map snd pairs /\ NoDup pairs.*1 /\
    forall c, option_Forall2 is_point (column_ranges_from_comparisons cs !! c)
                (cells columns (Some <$> values) !! c).
Proof.
  unfold equality_tuple_build. case_match eqn:Eop; [done|].
  destruct (adjacent_duplicate _) eqn:Ed; [done|]. intros [= <- <-].
  set (strip := fun '(c, _, v) => (c, v)) in *.
  set (pairs := merge_sort column_le (map strip cs)) in *.
  assert (Hp : pairs ≡ₚ map strip cs) by apply merge_sort_Permutation.
  assert (Hnd : NoDup pairs.*1).
  { apply sorted_no_duplicate; [apply StronglySorted_merge_sort; apply _|done]. }
  exists pairs. split_and!; [done..|]. intros c.
  assert (Hcols : (map strip cs).*1 = comparison_column <$> cs).
  { clear. induction cs as [|[[? ?] ?] cs IH]; [done|]. apply (f_equal2 cons); [done|exact IH]. }
  assert (Hnd' : NoDup (comparison_column <$> cs)) by by rewrite <- Hcols, <- Hp.
  rewrite column_ranges_from_comparisons_lookup.
  destruct (cells _ _ !! c) as [v|] eqn:Ec.
  - apply cells_some in Ec; [|done]. rewrite Hp in Ec.
    apply list_elem_of_fmap in Ec as ([[c' op] v'] & [= <- <-] & Hin).
    rewrite existsb_false in Eop. specialize (Eop _ Hin). simpl in Eop. bool_hyps. subst op.
    rewrite (bucket_of_singleton cs c OpEqual v) by done. constructor.
    unfold is_point. simpl. destruct (literal_value_is_incomparable v); [by right|by left].
  - rewrite bucket_of_absent; [constructor|]. rewrite <- Hcols, <- Hp.
    intros ([c' v] & -> & Hin)%list_elem_of_fmap. simpl in Ec.
    apply (cells_some pairs c' v) in Hin; [|done]. congruence.
Qed.

(** ** INSERT rows *)

Lemma column_position_Some columns c p :
  column_position columns c = Some p -> columns !! p = Some c.
Proof.
  revert p. induction columns as [|c' cs IH]; intros p; simpl; [done|].
  case_bool_decide; [by intros [= <-]; subst|].
  intros (q & Hq & ->)%fmap_Some. by apply IH.
Qed.

Lemma column_position_None columns c : column_position columns c = None -> c ∉ columns.
Proof.
  induction columns as [|c' cs IH]; simpl; [intros _; apply not_elem_of_nil|].
  case_bool_decide; [done|]. intros ?%fmap_None. apply not_elem_of_cons. auto.
Qed.

Definition new_columns (columns statement : list string) : nat :=
  length (List.filter (fun c => negb (bool_decide (c ∈ columns))) statement).

Lemma new_columns_mono (a b statement : list string) :
  a ⊆ b -> (new_columns b statement <= new_columns a statement)%nat.
Proof.
  intros Hab. unfold new_columns. induction statement as [|c cs IH]; simpl; [done|].
  repeat case_bool_decide; simpl; [lia|lia|set_solver|lia].
Qed.

Lemma column_positions_resolve_spec statement columns columns' ps :
  NoDup columns -> column_positions_resolve columns statement = (columns', ps) ->
  NoDup columns' /\ columns `prefix_of` columns' /\
  Forall2 (fun c p => columns' !! p = Some c) statement ps /\
  (length columns' <= length columns + new_columns columns statement)%nat.
Proof.
  revert columns ps. induction statement as [|c cs IH]; intros columns ps Hnd; simpl.
  { intros [= <- <-]. split_and!; [done|done|constructor|lia]. }
  destruct (column_position columns c) as [p|] eqn:Ep.
  - apply column_position_Some in Ep. destruct (column_positions_resolve columns cs) eqn:Er.
    intros [= -> <-]. destruct (IH _ _ Hnd Er) as (? & ? & ? & Hl). split_and!; [done..| |].
    + constructor; [|done]. by eapply prefix_lookup_Some.
    + revert Hl. unfold new_columns. simpl.
      rewrite bool_decide_eq_true_2 by by apply list_elem_of_lookup_2 in Ep. done.
  - apply column_position_None in Ep.
    destruct (column_positions_resolve (columns ++ [c]) cs) eqn:Er. intros [= -> <-].
    assert (Hnd' : NoDup (columns ++ [c])).
    { apply NoDup_app. split_and!; [done| |apply NoDup_singleton]. set_solver. }
    destruct (IH _ _ Hnd' Er) as (? & Hpre & ? & Hl). split_and!; [done| | |].
    + by etrans; [apply prefix_app_r|].
    + constructor; [|done]. eapply prefix_lookup_Some; [|exact Hpre].
      rewrite lookup_app_r, Nat.sub_diag by done. done.
    + pose proof (new_columns_mono columns (columns ++ [c]) cs ltac:(set_solver)).
      rewrite length_app in Hl. simpl in Hl. unfold new_columns in *. simpl.
      rewrite bool_decide_eq_false_2 by done. simpl. lia.
Qed.

Lemma cells_insert columns (row : list (option LiteralValue)) p c v :
  NoDup columns -> columns !! p = Some c -> (p < length row)%nat ->
  cells columns (<[p := v]> row) =
  match v with
  | Some x => <[c := x]> (cells columns row)
  | None => delete c (cells columns row)
  end.
Proof.
  intros Hnd Hp Hlt. apply map_eq. intros c'. apply option_eq. intros x.
  rewrite cells_lookup by done. destruct (decide (c' = c)) as [-> |Hne].
  - trans (v = Some x).
    + split; [|intros ->; exists p; split; [done|by apply list_lookup_insert_eq]].
      intros (q & Hq & Hx). assert (q = p) as -> by by eapply list.NoDup_lookup.
      rewrite list_lookup_insert_eq in Hx by done. congruence.
    + destruct v; [rewrite lookup_insert_eq|rewrite lookup_delete_eq]; naive_solver.
  - trans (cells columns row !! c' = Some x).
    + rewrite cells_lookup by done. apply exist_proper. intros q. split; intros [Hq Hx];
        (split; [done|]); rewrite list_lookup_insert_ne in *; congruence.
    + destruct v; by rewrite ?lookup_insert_ne, ?lookup_delete_ne by done.
Qed.

Lemma scatter_fold columns statement positions values (row : list (option LiteralValue)) :
  NoDup columns -> Forall2 (fun c p => columns !! p = Some c) statement positions ->
  length row = length columns ->
  fold_left set_override (zip statement values) (CrEqual <$> cells columns row) =
    CrEqual <$> cells columns (fold_left scatter (zip values positions) row) /\
  length (fold_left scatter (zip values positions) row) = length columns.
Proof.
  intros Hnd Hps. revert values row.
  induction Hps as [|c p cs ps Hp _ IH]; intros [|v values] row Hlen; simpl; try done.
  destruct (IH values (scatter row (v, p))) as [<- Hl]; [by unfold scatter; rewrite length_insert|].
  split; [|done]. f_equal. unfold scatter. simpl.
  assert (p < length row)%nat by (rewrite Hlen; by eapply lookup_lt_Some).
  rewrite (cells_insert columns row p c v) by done. unfold set_override. simpl.
  destruct v; by rewrite ?fmap_insert, ?fmap_delete.
Qed.

Lemma cells_replicate columns n : cells columns (replicate n None) = ∅.
Proof.
  unfold cells. apply map_eq. intros c. rewrite lookup_omap, lookup_empty.
  destruct (list_to_map (zip columns (replicate n None)) !! c) as [x|] eqn:E; [|done].
  apply elem_of_list_to_map_2, zip_elem in E as (p & _ & Hp).
  apply lookup_replicate in Hp as [<- _]. done.
Qed.

(** A pushed row holds the statement's row, cell by cell. *)
Lemma row_cells_spec columns statement positions values :
  NoDup columns -> Forall2 (fun c p => columns !! p = Some c) statement positions ->
  insert_row_ranges statement values = CrEqual <$> cells columns (row_cells columns positions values)
  /\ length (row_cells columns positions values) = length columns.
Proof.
  intros Hnd Hps. unfold insert_row_ranges, row_cells.
  destruct (scatter_fold columns statement positions values (replicate (length columns) None))
    as [Hs Hl]; [done..|by rewrite length_replicate|].
  rewrite cells_replicate, fmap_empty in Hs. done.
Qed.

(** Widening the column list leaves earlier rows as they were. *)
Lemma cells_widen columns columns' (row : list (option LiteralValue)) :
  columns `prefix_of` columns' -> (length row <= length columns)%nat ->
  cells columns' row = cells columns row.
Proof.
  intros [k ->] Hl. unfold cells. do 2 f_equal. revert row Hl.
  induction columns as [|c cs IH]; intros [|x row] Hl; simpl in *; try done; [|lia|].
  - by destruct k.
  - f_equal. apply IH. lia.
Qed.

Lemma forallb_const_false {A} (l : list A) : forallb (fun _ => false) l = is_nil l.
Proof. by destruct l. Qed.

(** One row's test, as [insert_disjoint] and [merged_tuples_disjoint] run it. *)
Definition row_disjoint (columns : list string) (row : list (option LiteralValue))
    (r : ReadRanges) : bool :=
  read_unsatisfiable r || excluded_at (constrained columns r) (fun p => mjoin (row !! p)).

(** It decides as the range maps do. *)
Lemma row_disjoint_ranges columns row r (b : ReadRanges) :
  NoDup columns -> (forall c, option_Forall2 is_point (b !! c) (cells columns row !! c)) ->
  row_disjoint columns row r = column_ranges_disjoint r b.
Proof.
  intros Hnd Hb. apply eq_true_iff_eq. unfold row_disjoint.
  by rewrite orb_true_iff, excluded_at_cells, (column_ranges_disjoint_points r b _ Hb).
Qed.

Lemma row_disjoint_equal columns row r :
  NoDup columns ->
  row_disjoint columns row r = column_ranges_disjoint r (CrEqual <$> cells columns row).
Proof.
  intros Hnd. apply row_disjoint_ranges; [done|]. intros c. rewrite lookup_fmap.
  destruct (cells columns row !! c); constructor. by left.
Qed.

Lemma insert_disjoint_rows i r :
  insert_disjoint i r = forallb (fun row => row_disjoint (ia_columns i) row r) (ia_rows i).
Proof.
  unfold insert_disjoint, row_disjoint.
  destruct (read_unsatisfiable r); cbn [orb]; [by rewrite forallb_const_true|].
  destruct (constrained (ia_columns i) r) eqn:E; cbn [is_nil]; [|done].
  rewrite <- forallb_const_false. by apply forallb_ext.
Qed.

Definition insert_wf (i : InsertAggregate) : Prop :=
  NoDup (ia_columns i) /\ Forall (fun row => length row <= length (ia_columns i))%nat (ia_rows i).

Lemma insert_default_wf : insert_wf insert_aggregate_default.
Proof. split; constructor. Qed.

Lemma fold_row_push positions rows i :
  fold_left (fun agg row => row_push agg positions row) rows i =
  {| ia_columns := ia_columns i;
     ia_rows := ia_rows i ++ map (row_cells (ia_columns i) positions) rows |}.
Proof.
  revert i. induction rows as [|row rows IH]; intros i; simpl.
  - rewrite app_nil_r. by destruct i.
  - rewrite IH. simpl. by rewrite <- app_assoc.
Qed.

Definition rows_disjoint (columns : list string) (rows : list InsertRow) (r : ReadRanges) : bool :=
  forallb (fun row => column_ranges_disjoint r (insert_row_ranges columns row)) rows.

Lemma rows_fold_spec i columns rows :
  insert_wf i ->
  insert_wf (rows_fold i columns rows) /\
  (forall r, insert_disjoint (rows_fold i columns rows) r =
             insert_disjoint i r && rows_disjoint columns rows r) /\
  length (ia_rows (rows_fold i columns rows)) = (length (ia_rows i) + length rows)%nat /\
  (length (ia_columns (rows_fold i columns rows)) <=
   length (ia_columns i) + new_columns (ia_columns i) columns)%nat.
Proof.
  intros [Hnd Hrows]. unfold rows_fold.
  destruct (column_positions_resolve (ia_columns i) columns) as [cols ps] eqn:Er.
  destruct (column_positions_resolve_spec _ _ _ _ Hnd Er) as (Hnd' & Hpre & Hps & Hlen).
  rewrite fold_row_push. simpl. split_and!.
  - split; simpl; [done|]. apply Forall_app. split.
    + apply prefix_length in Hpre. eapply Forall_impl; [exact Hrows|]. simpl. lia.
    + apply Forall_elem. intros row (values & -> & _)%list_elem_of_fmap.
      by destruct (row_cells_spec cols columns ps values Hnd' Hps) as [_ ->].
  - intros r. rewrite !insert_disjoint_rows. simpl. rewrite forallb_app. f_equal.
    + apply forallb_ext. intros row Hin. rewrite Forall_elem in Hrows.
      rewrite !row_disjoint_equal by done.
      by rewrite (cells_widen (ia_columns i) cols) by auto.
    + rewrite forallb_map. apply forallb_ext. intros values _.
      rewrite row_disjoint_equal by done.
      by destruct (row_cells_spec cols columns ps values Hnd' Hps) as [<- _].
  - by rewrite length_app, length_map.
  - done.
Qed.

(** Overriding distinct columns, looked up. *)
Lemma set_override_lookup (l : list (string * option LiteralValue)) (m : ReadRanges) c :
  NoDup l.*1 ->
  fold_left set_override l m !! c =
  match (list_to_map l : gmap string (option LiteralValue)) !! c with
  | Some (Some v) => Some (CrEqual v)
  | Some None => None
  | None => m !! c
  end.
Proof.
  revert m. induction l as [|[c' v] l IH]; intros m Hnd; [done|].
  cbn [fmap list_fmap fst] in Hnd. apply list.NoDup_cons in Hnd as [Hc Hnd].
  cbn [fold_left]. rewrite IH by done. cbn [list_to_map fst snd foldr].
  destruct (decide (c' = c)) as [-> |Hne].
  - rewrite lookup_insert_eq. apply (not_elem_of_list_to_map_1 (M:=gmap string)) in Hc as ->.
    unfold set_override. destruct v; simpl; [apply lookup_insert_eq|apply lookup_delete_eq].
  - rewrite lookup_insert_ne by done.
    replace (set_override m (c', v) !! c) with (m !! c); [done|].
    unfold set_override. destruct v; simpl; by rewrite ?lookup_insert_ne, ?lookup_delete_ne.
Qed.

Lemma insert_row_ranges_cells columns row :
  NoDup columns -> insert_row_ranges columns row = CrEqual <$> cells columns row.
Proof.
  intros Hnd. unfold insert_row_ranges, cells. apply map_eq. intros c.
  rewrite set_override_lookup by by apply zip_NoDup. rewrite lookup_fmap, lookup_omap.
  by destruct (list_to_map (zip columns row) !! c) as [[]|].
Qed.

Lemma rows_disjoint_insert i r :
  insert_wf i -> rows_disjoint (ia_columns i) (ia_rows i) r = insert_disjoint i r.
Proof.
  intros [Hnd _]. rewrite insert_disjoint_rows. apply forallb_ext. intros row _.
  by rewrite insert_row_ranges_cells, row_disjoint_equal.
Qed.

(** ** Shape-grouped tuples *)

Definition group_all {K T} `{Countable K} (f : K -> T -> bool) (m : gmap K (list T)) : bool :=
  forallb (fun '(k, ts) => forallb (f k) ts) (map_to_list m).

Section groups.
Context {K T : Type} `{Countable K}.
Implicit Types (m : gmap K (list T)) (f : K -> T -> bool).

Lemma group_all_spec f m :
  group_all f m = true <-> forall k ts, m !! k = Some ts -> forallb (f k) ts = true.
Proof.
  unfold group_all. rewrite forallb_elem. split.
  - intros Hm k ts Hk. apply (Hm (k, ts)). by apply elem_of_map_to_list.
  - intros Hm [k ts] Hk%elem_of_map_to_list. by apply Hm.
Qed.

Lemma group_all_extend f k ts m :
  group_all f (group_extend k ts m) = group_all f m && forallb (f k) ts.
Proof.
  apply eq_true_iff_eq. rewrite andb_true_iff, !group_all_spec. unfold group_extend.
  assert (Hd : forallb (f k) (default [] (m !! k) ++ ts) =
    forallb (f k) (default [] (m !! k)) && forallb (f k) ts) by apply forallb_app.
  split.
  - intros Hm. pose proof (Hm k _ (lookup_insert_eq _ _ _)) as Hk. rewrite Hd in Hk.
    bool_hyps. split; [|done]. intros k' ts' Hk'. destruct (decide (k = k')) as [<- |Hne].
    + by rewrite Hk' in *.
    + apply Hm. by rewrite lookup_insert_ne.
  - intros [Hm Hts] k' ts'. destruct (decide (k = k')) as [<- |Hne].
    + rewrite lookup_insert_eq. intros [= <-]. rewrite Hd, Hts, andb_true_r.
      destruct (m !! k) eqn:E; [by apply Hm|done].
    + rewrite lookup_insert_ne by done. apply Hm.
Qed.

Lemma group_insert_extend k ts m : m !! k = None -> <[k := ts]> m = group_extend k ts m.
Proof. intros Hk. unfold group_extend. by rewrite Hk. Qed.

Lemma group_all_merge f m m' :
  group_all f (map_fold group_extend m m') = group_all f m && group_all f m'.
Proof.
  apply (map_fold_weak_ind (fun acc m' => group_all f acc = group_all f m && group_all f m')).
  - unfold group_all at 3. rewrite map_to_list_empty. by rewrite andb_true_r.
  - intros k ts m'' acc Hk IH. rewrite (group_insert_extend k ts m'') by done.
    by rewrite !group_all_extend, IH, andb_assoc.
Qed.

Lemma group_extend_nonempty k ts m : group_extend k ts m <> ∅.
Proof. apply insert_non_empty. Qed.

Lemma group_merge_empty m m' : map_fold group_extend m m' = ∅ <-> m = ∅ /\ m' = ∅.
Proof.
  apply (map_fold_weak_ind (fun acc m' => acc = ∅ <-> m = ∅ /\ m' = ∅)).
  - naive_solver.
  - intros k ts m'' acc Hk _. split.
    + by intros ?%group_extend_nonempty.
    + by intros [_ ?%insert_non_empty].
Qed.

Definition group_count m : N := map_fold (fun _ ts n => len ts + n)%N 0%N m.

Lemma group_count_insert k ts m :
  m !! k = None -> group_count (<[k := ts]> m) = (len ts + group_count m)%N.
Proof.
  intros Hk. unfold group_count. apply (map_fold_insert_L (fun _ ts n => len ts + n)%N);
    [lia|done].
Qed.

Lemma len_app {A} (l k : list A) : len (l ++ k) = (len l + len k)%N.
Proof. unfold len. rewrite length_app. lia. Qed.

Lemma group_count_extend k ts m :
  group_count (group_extend k ts m) = (group_count m + len ts)%N.
Proof.
  destruct (m !! k) as [ts'|] eqn:Hk.
  - unfold group_extend. rewrite Hk, <- insert_delete_eq, group_count_insert
      by apply lookup_delete_eq.
    rewrite <- (insert_delete_id m k ts') at 2 by done.
    rewrite group_count_insert by apply lookup_delete_eq. simpl. rewrite len_app. lia.
  - rewrite <- group_insert_extend, group_count_insert by done. lia.
Qed.

Lemma group_count_merge m m' :
  group_count (map_fold group_extend m m') = (group_count m + group_count m')%N.
Proof.
  apply (map_fold_weak_ind (fun acc m' => group_count acc = (group_count m + group_count m')%N)).
  - unfold group_count at 3. rewrite map_fold_empty. lia.
  - intros k ts m'' acc Hk IH. rewrite group_count_insert, group_count_extend by done. lia.
Qed.
End groups.

Lemma excluded_at_ext positions get get' :
  (forall p, get p = get' p) -> excluded_at positions get = excluded_at positions get'.
Proof.
  intros Hg. unfold excluded_at. induction positions as [|[p range] ps IH]; simpl; [done|].
  by rewrite Hg, IH.
Qed.

Lemma tuple_get (tuple : list LiteralValue) p : tuple !! p = mjoin ((Some <$> tuple) !! p).
Proof. rewrite list_lookup_fmap. by destruct (tuple !! p). Qed.

Lemma merged_tuples_disjoint_all m r :
  merged_tuples_disjoint m r =
  group_all (fun columns (tuple : list LiteralValue) => row_disjoint columns (Some <$> tuple) r) m.
Proof.
  unfold merged_tuples_disjoint, group_all, row_disjoint.
  destruct (read_unsatisfiable r); cbn [orb].
  { symmetry. apply forallb_elem. intros [k ts] _. apply forallb_const_true. }
  apply forallb_ext. intros [k ts] _. destruct (constrained k r) eqn:E; cbn [is_nil].
  - rewrite <- forallb_const_false. by apply forallb_ext.
  - apply forallb_ext. intros tuple _. apply excluded_at_ext, tuple_get.
Qed.

(** A merged DELETE is tested as its range map would be. *)
Lemma equality_tuple_disjoint cs columns values r :
  equality_tuple_build cs = Some (columns, values) ->
  row_disjoint columns (Some <$> values) r =
  column_ranges_disjoint r (column_ranges_from_comparisons cs).
Proof.
  intros (pairs & -> & -> & Hnd & Hp)%equality_tuple_build_spec.
  by apply row_disjoint_ranges.
Qed.

(** ** Merged UPDATEs *)

Definition where_in_image (where_columns set_columns : list string) (r : ReadRanges)
    : list (nat * ColumnRange) :=
  List.filter (fun '(p, _) =>
    match where_columns !! p with
    | Some column => negb (bool_decide (column ∈ set_columns))
    | None => false
    end) (constrained where_columns r).

Definition update_tuple_disjoint (shape : UpdateShape) (tuple : EqualityTuple * SetTuple)
    (r : ReadRanges) : bool :=
  read_unsatisfiable r
  || (excluded_at (constrained shape.1 r) ((tuple.1 : list LiteralValue) !!.)
      && (excluded_at (where_in_image shape.1 shape.2 r) ((tuple.1 : list LiteralValue) !!.)
          || excluded_at (constrained shape.2 r)
               (fun p => mjoin ((tuple.2 : list (option LiteralValue)) !! p)))).

Lemma merged_updates_disjoint_all m r :
  merged_updates_disjoint m r = group_all (fun shape tuple => update_tuple_disjoint shape tuple r) m.
Proof.
  unfold merged_updates_disjoint, group_all, update_tuple_disjoint.
  destruct (read_unsatisfiable r); cbn [orb].
  { symmetry. apply forallb_elem. intros [k ts] _. apply forallb_const_true. }
  apply forallb_ext. intros [[wc sc] ts] _. apply forallb_ext. intros [wv sv] _. simpl.
  fold (where_in_image wc sc r). by destruct (excluded_at (constrained wc r) (wv !!.)).
Qed.

(** The post-update image by column: SET overrides WHERE. *)
Definition image_cells (where_columns set_columns : list string)
    (where_values : list LiteralValue) (set_values : list (option LiteralValue))
    : gmap string LiteralValue :=
  cells set_columns set_values
  ∪ filter (fun kv => kv.1 ∉ set_columns) (cells where_columns (Some <$> where_values)).

Lemma image_cells_lookup wc sc wv sv c :
  image_cells wc sc wv sv !! c =
  match cells sc sv !! c with
  | Some v => Some v
  | None => if bool_decide (c ∈ sc) then None else cells wc (Some <$> wv) !! c
  end.
Proof.
  unfold image_cells. rewrite lookup_union, map_lookup_filter.
  destruct (cells sc sv !! c) as [v|] eqn:Es; simpl; [by rewrite union_Some_l|].
  rewrite (left_id_L None (∪)). destruct (cells wc (Some <$> wv) !! c) as [v|]; simpl.
  - case_bool_decide; case_guard; simpl; done.
  - by case_bool_decide.
Qed.

Lemma image_excluded wc sc wv sv r :
  NoDup wc -> NoDup sc -> length sc = length sv ->
  excluded_at (where_in_image wc sc r) (wv !!.)
  || excluded_at (constrained sc r) (fun p => mjoin (sv !! p)) = true <->
  cell_excluded (image_cells wc sc wv sv) r.
Proof.
  intros Hw Hs Hlen. rewrite orb_true_iff, excluded_at_cells by done.
  assert (Hwhere : excluded_at (where_in_image wc sc r) (wv !!.) = true <->
    exists c range v, r !! c = Some range /\ c ∉ sc /\
      cells wc (Some <$> wv) !! c = Some v /\ excludes range v = true).
  { unfold excluded_at, where_in_image, constrained. rewrite existsb_elem. split.
    - intros ([p range] & [Hin Hc]%filter_elem & Hx).
      apply constrained_from_spec in Hin as (i & c & -> & Hi & Hr). simpl in Hc, Hx.
      rewrite Hi in Hc. bool_hyps. destruct (wv !! i) as [v|] eqn:Ev; [|done].
      exists c, range, v. split_and!; [done..| |done]. apply cells_lookup; [done|].
      exists i. by rewrite list_lookup_fmap, Ev.
    - intros (c & range & v & Hr & Hc & (p & Hp & Hv)%cells_lookup & Hx); [|done].
      rewrite list_lookup_fmap in Hv. destruct (wv !! p) as [v'|] eqn:Ev; [|done].
      injection Hv as ->. exists (p, range). rewrite Ev. split; [|done].
      apply filter_elem. rewrite Hp, bool_decide_eq_false_2 by done. split; [|done].
      apply constrained_from_spec. by exists p, c. }
  rewrite Hwhere. unfold cell_excluded. setoid_rewrite image_cells_lookup. split.
  - intros [(c & range & v & Hr & Hc & Hv & Hx)|(c & range & v & Hr & Hv & Hx)];
      exists c, range, v; (split_and!; [done| |done]).
    + destruct (cells sc sv !! c) as [w|] eqn:Es.
      * apply cells_lookup in Es as (p & Hp & _); [|done].
        by apply list_elem_of_lookup_2 in Hp.
      * by rewrite bool_decide_eq_false_2.
    + by rewrite Hv.
  - intros (c & range & v & Hr & Hv & Hx). destruct (cells sc sv !! c) as [w|] eqn:Es.
    + right. exists c, range, v. by simplify_eq.
    + left. exists c, range, v. case_bool_decide; by simplify_eq.
Qed.

Lemma duplicate_set_NoDup (set : list (string * option LiteralValue)) :
  duplicate_set set = false -> NoDup set.*1.
Proof.
  induction set as [|[c v] set IH]; intros Hd; [constructor|].
  apply orb_false_iff in Hd as [He Hd]. rewrite fmap_cons. apply list.NoDup_cons. split; [|auto].
  intros ([c' v'] & Hc & Hin)%list_elem_of_fmap. simpl in Hc. subst c'.
  rewrite existsb_false in He. specialize (He _ Hin). simpl in He. by bool_hyps.
Qed.

(** A merged UPDATE is tested as its two range maps would be. *)
Lemma update_tuple_statement u shape tuple r :
  update_tuple_build u = Some (shape, tuple) ->
  update_tuple_disjoint shape tuple r = statement_disjoint (WcUpdateRows u) r.
Proof.
  unfold update_tuple_build.
  destruct (equality_tuple_build (upd_where_comparisons u)) as [[wc wv]|] eqn:Ew; [|done].
  destruct (duplicate_set (upd_set u)) eqn:Ed; [done|]. intros [= <- <-].
  pose proof (equality_tuple_disjoint _ _ _ r Ew) as Hwhere.
  apply equality_tuple_build_spec in Ew as (pairs & -> & -> & Hnd & Hpt).
  apply duplicate_set_NoDup in Ed.
  set (sp := merge_sort column_le (upd_set u)) in *.
  assert (Hsp : sp ≡ₚ upd_set u) by apply merge_sort_Permutation.
  assert (Hnds : NoDup sp.*1) by by rewrite Hsp.
  simpl. unfold update_tuple_disjoint. simpl. rewrite <- Hwhere. unfold row_disjoint.
  rewrite (excluded_at_ext _ _ _ (tuple_get _)).
  assert (Himage : column_ranges_disjoint r
      (fold_left set_override (upd_set u) (column_ranges_from_comparisons (upd_where_comparisons u)))
    = read_unsatisfiable r
      || (excluded_at (where_in_image (map fst pairs) (map fst sp) r) (map snd pairs !!.)
          || excluded_at (constrained (map fst sp) r) (fun p => mjoin (map snd sp !! p)))).
  { apply eq_true_iff_eq. rewrite orb_true_iff, image_excluded by (rewrite ?length_map; done).
    apply column_ranges_disjoint_points. intros c. rewrite image_cells_lookup.
    rewrite set_override_lookup by done. unfold cells at 1. rewrite zip_fst_snd, lookup_omap.
    rewrite (list_to_map_proper (M:=gmap string) (upd_set u) sp) by (by rewrite ?Hsp).
    destruct (list_to_map sp !! c) as [[v|]|] eqn:El; simpl.
    - constructor. by left.
    - rewrite bool_decide_eq_true_2; [constructor|].
      apply elem_of_list_to_map_2 in El. apply list_elem_of_fmap. by exists (c, None).
    - rewrite bool_decide_eq_false_2; [apply Hpt|]. by apply not_elem_of_list_to_map_2 in El. }
  rewrite Himage. by destruct (read_unsatisfiable r).
Qed.

(** ** The aggregate against the statements folded into it *)

(** The table-scoped arms of [record]. *)
Definition aggregate_record (agg : TableAggregate) (w : WriteClass) : TableAggregate :=
  match w with
  | WcInsertRows insert => insert_record agg insert
  | WcDeleteRows del => delete_record agg del
  | WcUpdateRows update => update_record agg update
  | WcTable _ => degrade_opaque agg
  | WcConnection | WcConnectionUnstampable => agg
  end.

Definition table_scoped (w : WriteClass) : bool :=
  match w with WcConnection | WcConnectionUnstampable => false | _ => true end.

(** The read passes the aggregate. *)
Definition aggregate_serves (read_ranges : option ReadRanges) (agg : TableAggregate) : bool :=
  negb (aggregate_intersects agg read_ranges kinds_default).1.

(** Each store's part of the verdict. *)
Definition inserts_clear (rr : option ReadRanges) (i : option InsertAggregate) : bool :=
  match i with None => true | Some i => some_and rr (insert_disjoint i) end.
Definition deletes_clear (rr : option ReadRanges) (m : MergedTuples) : bool :=
  bool_decide (m = ∅) || some_and rr (merged_tuples_disjoint m).
Definition updates_clear (rr : option ReadRanges) (m : MergedUpdates) : bool :=
  bool_decide (m = ∅) || some_and rr (merged_updates_disjoint m).
Definition ranges_clear (rr : option ReadRanges) (l : list ReadRanges) : bool :=
  forallb (fun d => some_and rr (fun r => column_ranges_disjoint r d)) l.
Definition predicates_clear (rr : option ReadRanges) (l : list UpdatePredicate) : bool :=
  forallb (fun u => some_and rr (fun r =>
    column_ranges_disjoint r (up_where_ranges u)
    && column_ranges_disjoint r (up_image_ranges u))) l.

Lemma checked_fst present disjoint mark rest k b :
  (forall k, (rest k).1 = negb b) ->
  (checked present disjoint mark rest k).1 = negb ((negb present || disjoint) && b).
Proof. intros Hr. unfold checked. destruct present, disjoint; simpl; by rewrite ?Hr. Qed.

Lemma checked_absent_fst absent disjoint mark rest k b :
  (forall k, (rest k).1 = negb b) ->
  (checked (negb absent) disjoint mark rest k).1 = negb ((absent || disjoint) && b).
Proof. intros Hr. rewrite (checked_fst _ _ _ _ _ b) by done. by rewrite negb_involutive. Qed.

Lemma checked_all_fst {A} (items : list A) disjoint mark rest k b :
  (forall k, (rest k).1 = negb b) ->
  (checked_all items disjoint mark rest k).1 = negb (forallb disjoint items && b).
Proof.
  intros Hr. revert k. induction items as [|x items IH]; intros k; [apply Hr|].
  cbn [checked_all forallb]. rewrite (checked_fst _ _ _ _ _ _ IH). cbn [negb orb].
  by rewrite andb_assoc.
Qed.

Lemma aggregate_intersects_fst agg rr k :
  (aggregate_intersects agg rr k).1 =
  negb (negb (ag_opaque agg) && (inserts_clear rr (ag_inserts agg) &&
    (deletes_clear rr (ag_merged_deletes agg) && (ranges_clear rr (ag_deletes agg) &&
      (updates_clear rr (ag_merged_updates agg) && predicates_clear rr (ag_updates agg)))))).
Proof.
  unfold aggregate_intersects. destruct (ag_opaque agg); [done|]. cbn [negb andb].
  replace (inserts_clear rr (ag_inserts agg)) with
    (negb (bool_decide (is_Some (ag_inserts agg)))
     || some_and rr (fun r => some_and (ag_inserts agg) (fun i => insert_disjoint i r)))
    by (destruct (ag_inserts agg), rr; done).
  unfold deletes_clear, updates_clear, ranges_clear, predicates_clear.
  apply checked_fst. intros ?. apply checked_absent_fst. intros ?.
  apply checked_all_fst. intros ?. apply checked_absent_fst. intros ?.
  rewrite <- (andb_true_r (forallb _ (ag_updates agg))). by apply checked_all_fst.
Qed.

Lemma aggregate_serves_parts rr agg :
  aggregate_serves rr agg =
  negb (ag_opaque agg) && (inserts_clear rr (ag_inserts agg) &&
    (deletes_clear rr (ag_merged_deletes agg) && (ranges_clear rr (ag_deletes agg) &&
      (updates_clear rr (ag_merged_updates agg) && predicates_clear rr (ag_updates agg))))).
Proof. unfold aggregate_serves. by rewrite aggregate_intersects_fst, negb_involutive. Qed.

Lemma aggregate_intersects_kinds agg rr k :
  (aggregate_intersects agg rr k).1 = negb (aggregate_serves rr agg).
Proof. by rewrite aggregate_serves_parts, aggregate_intersects_fst. Qed.

(** The state a tier keeps: bounded, and nothing beside [opaque] once degraded. *)
Record aggregate_ok (agg : TableAggregate) : Prop := {
  ok_inserts : forall i, ag_inserts agg = Some i ->
    insert_wf i /\ (len (ia_rows i) <= INSERT_MERGED_ROWS_CAP)%N /\
    (len (ia_rows i) * len (ia_columns i) <= INSERT_MERGED_CELLS_CAP)%N;
  ok_count : (group_count (ag_merged_deletes agg) + group_count (ag_merged_updates agg) =
              ag_merged_predicates agg)%N;
  ok_merged_cap : (ag_merged_predicates agg <= MERGED_PREDICATE_CAP)%N;
  ok_list_cap : (len (ag_deletes agg) + len (ag_updates agg) <= UPDATE_DELETE_PREDICATE_CAP)%N;
  ok_opaque : ag_opaque agg = true -> has_row_predicates agg = false
}.

Lemma aggregate_default_ok : aggregate_ok aggregate_default.
Proof. split; try done. Qed.

Lemma degrade_opaque_ok agg : aggregate_ok (degrade_opaque agg).
Proof. split; done. Qed.

#[export] Hint Resolve aggregate_default_ok degrade_opaque_ok : pgc.

Definition insert_ok (i : InsertAggregate) : Prop :=
  insert_wf i /\ (len (ia_rows i) <= INSERT_MERGED_ROWS_CAP)%N /\
  (len (ia_rows i) * len (ia_columns i) <= INSERT_MERGED_CELLS_CAP)%N.

Lemma insert_default_ok : insert_ok insert_aggregate_default.
Proof. split; [apply insert_default_wf|done]. Qed.

Lemma insert_default_disjoint r : insert_disjoint insert_aggregate_default r = true.
Proof. by rewrite insert_disjoint_rows. Qed.

Lemma rows_fold_ok i columns rows :
  insert_wf i -> caps_exceeded i columns (len rows) = false ->
  insert_ok (rows_fold i columns rows).
Proof.
  intros Hi Hc. destruct (rows_fold_spec i columns rows Hi) as (Hwf & _ & Hr & Hcols).
  apply orb_false_iff in Hc as [H1%N.ltb_ge H2%N.ltb_ge].
  unfold new_columns in Hcols. unfold insert_ok, len in *. rewrite Hr, Nat2N.inj_add.
  split_and!; [done|lia|]. etrans; [|exact H2]. apply N.mul_le_mono_l. lia.
Qed.

Lemma insert_fold_spec i ins i' :
  insert_wf i -> insert_fold i ins = Some i' ->
  insert_ok i' /\ forall r, insert_disjoint i' r =
    insert_disjoint i r && rows_disjoint (ins_columns ins) (ins_rows ins) r.
Proof.
  intros Hi. unfold insert_fold. destruct (caps_exceeded _ _ _) eqn:Ec; [done|].
  intros [= <-]. split; [by apply rows_fold_ok|]. by apply rows_fold_spec.
Qed.

Lemma insert_merge_spec i j i' :
  insert_wf i -> insert_ok j -> insert_merge i j = Some i' ->
  insert_ok i' /\ forall r, insert_disjoint i' r = insert_disjoint i r && insert_disjoint j r.
Proof.
  intros Hi Hj. unfold insert_merge. destruct (caps_exceeded _ _ _) eqn:Ec; [done|].
  destruct (ia_rows i) as [|row rows] eqn:Er; intros [= <-]; (split; [|intros r]).
  - done.
  - rewrite (insert_disjoint_rows i), Er. done.
  - by apply rows_fold_ok.
  - destruct (rows_fold_spec i (ia_columns j) (ia_rows j) Hi) as (_ & -> & _).
    destruct Hj as [Hj _]. by rewrite rows_disjoint_insert.
Qed.

Lemma group_all_empty {K T} `{Countable K} (f : K -> T -> bool) : group_all f ∅ = true.
Proof. unfold group_all. by rewrite map_to_list_empty. Qed.

Section clear.
Context (rr : option ReadRanges).

Lemma inserts_clear_fold o ins i' :
  insert_wf (default insert_aggregate_default o) ->
  insert_fold (default insert_aggregate_default o) ins = Some i' ->
  inserts_clear rr (Some i') = inserts_clear rr o && write_disjoint rr (WcInsertRows ins).
Proof.
  intros Hwf Hf. destruct (insert_fold_spec _ _ _ Hwf Hf) as [_ Hd].
  destruct rr as [r|]; simpl; [|by rewrite andb_false_r]. rewrite Hd.
  destruct o as [i|]; [done|]. cbn [default]. by rewrite insert_default_disjoint.
Qed.

Lemma inserts_clear_merge o o' o'' :
  insert_wf (default insert_aggregate_default o) ->
  (forall i, o' = Some i -> insert_ok i) -> merge_inserts o o' = Some o'' ->
  inserts_clear rr o'' = inserts_clear rr o && inserts_clear rr o' /\
  (forall i, o'' = Some i -> insert_ok i \/ o = Some i).
Proof.
  intros Hwf Hok. destruct o' as [j|]; simpl.
  2: { intros [= <-]. split; [by rewrite andb_true_r|auto]. }
  intros (i' & Hm & ->)%fmap_Some.
  destruct (insert_merge_spec _ _ _ Hwf (Hok j eq_refl) Hm) as [Hi' Hd].
  split; [|intros i [= <-]; by left].
  destruct rr as [r|]; simpl; [|by rewrite andb_false_r]. rewrite Hd.
  destruct o as [i|]; [done|]. cbn [default]. by rewrite insert_default_disjoint.
Qed.

Context {K T : Type} `{Countable K} (test : gmap K (list T) -> ReadRanges -> bool)
  (f : ReadRanges -> K -> T -> bool) (Htest : forall m r, test m r = group_all (f r) m).

Definition group_clear (m : gmap K (list T)) : bool :=
  bool_decide (m = ∅) || some_and rr (test m).

Lemma group_clear_extend k t m :
  group_clear (group_extend k [t] m) = group_clear m && some_and rr (fun r => f r k t).
Proof.
  unfold group_clear. rewrite bool_decide_eq_false_2 by apply group_extend_nonempty.
  destruct rr as [r|]; simpl; [|by rewrite andb_false_r].
  rewrite !Htest, group_all_extend. simpl. rewrite andb_true_r.
  case_bool_decide as He; [|done]. by rewrite He, group_all_empty.
Qed.

Lemma group_clear_merge m m' :
  group_clear (map_fold group_extend m m') = group_clear m && group_clear m'.
Proof.
  unfold group_clear. rewrite (bool_decide_ext _ _ (group_merge_empty m m')), bool_decide_and.
  destruct rr as [r|]; simpl; [|by rewrite !orb_false_r].
  rewrite !Htest, group_all_merge.
  case_bool_decide as H1; case_bool_decide as H2; subst; rewrite ?group_all_empty; simpl;
    by rewrite ?andb_true_r.
Qed.
End clear.

Lemma deletes_clear_group rr m :
  deletes_clear rr m = group_clear rr merged_tuples_disjoint m.
Proof. unfold deletes_clear, group_clear. f_equal. by apply bool_decide_ext. Qed.

Lemma updates_clear_group rr m :
  updates_clear rr m = group_clear rr merged_updates_disjoint m.
Proof. unfold updates_clear, group_clear. f_equal. by apply bool_decide_ext. Qed.

Lemma aggregate_insert_wf agg :
  aggregate_ok agg -> insert_wf (default insert_aggregate_default (ag_inserts agg)).
Proof.
  intros Hok. destruct (ag_inserts agg) as [i|] eqn:E; [|apply insert_default_wf].
  by apply (ok_inserts agg Hok).
Qed.

Lemma serves_opaque rr agg : ag_opaque agg = true -> aggregate_serves rr agg = false.
Proof. intros Ho. by rewrite aggregate_serves_parts, Ho. Qed.

(** Folding a write in: the bounds hold, and the read passes the result exactly
    when it passed before and is disjoint from the write, unless a cap made the
    table opaque. *)
Definition record_correct (agg agg' : TableAggregate) (w : WriteClass) : Prop :=
  aggregate_ok agg' /\
  forall rr, aggregate_serves rr agg' =
    negb (ag_opaque agg') && (aggregate_serves rr agg && write_disjoint rr w).

Lemma record_correct_opaque agg agg' w :
  aggregate_ok agg' -> ag_opaque agg' = true -> record_correct agg agg' w.
Proof. intros Hok Ho. split; [done|]. intros rr. by rewrite (serves_opaque _ _ Ho), Ho. Qed.

Lemma insert_record_correct agg ins :
  aggregate_ok agg -> record_correct agg (insert_record agg ins) (WcInsertRows ins).
Proof.
  intros Hok. unfold insert_record.
  destruct (ag_opaque agg) eqn:Eo; [by apply record_correct_opaque|].
  pose proof (aggregate_insert_wf agg Hok) as Hwf.
  destruct (insert_fold _ ins) as [i'|] eqn:Ef; [|apply record_correct_opaque; auto with pgc].
  destruct (insert_fold_spec _ _ _ Hwf Ef) as [Hi' _].
  split; [|intros rr].
  - destruct Hok. split; simpl; try done. intros i [= <-]. exact Hi'.
  - rewrite !aggregate_serves_parts, Eo. cbn [negb andb ag_inserts ag_opaque
      ag_merged_deletes ag_deletes ag_merged_updates ag_updates].
    rewrite (inserts_clear_fold rr (ag_inserts agg) ins i') by done. btauto.
Qed.

(** The bounds of an aggregate that grew by one entry under its cap. *)
Ltac grown_ok :=
  split; cbn [ag_inserts ag_opaque ag_merged_deletes ag_deletes ag_merged_updates
    ag_merged_predicates ag_updates]; try done; try congruence;
  rewrite ?group_count_extend; unfold len in *; rewrite ?length_app in *; cbn [length] in *; lia.

Ltac serves_parts :=
  rewrite !aggregate_serves_parts; cbn [ag_inserts ag_opaque ag_merged_deletes ag_deletes
    ag_merged_updates ag_updates].

Lemma delete_record_correct agg del :
  aggregate_ok agg -> record_correct agg (delete_record agg del) (WcDeleteRows del).
Proof.
  intros Hok. unfold delete_record.
  destruct (ag_opaque agg) eqn:Eo; [by apply record_correct_opaque|].
  destruct (equality_tuple_build _) as [[cols vals]|] eqn:Et; cbn zeta;
    (case_match eqn:Ecap; [apply record_correct_opaque; auto with pgc|];
     apply N.ltb_ge in Ecap; cbn [ag_merged_predicates ag_deletes ag_updates] in Ecap;
     split; [destruct Hok; grown_ok|intros rr; serves_parts]).
  - rewrite Eo, !deletes_clear_group.
    rewrite (group_clear_extend rr _ _ merged_tuples_disjoint_all).
    replace (write_disjoint rr (WcDeleteRows del)) with
      (some_and rr (fun r => row_disjoint cols (Some <$> vals) r)); [btauto|].
    destruct rr as [r|]; [|done]. by apply equality_tuple_disjoint.
  - rewrite Eo. unfold ranges_clear. rewrite forallb_app. cbn [forallb].
    unfold write_disjoint, statement_disjoint. btauto.
Qed.

Lemma update_record_correct agg u :
  aggregate_ok agg -> record_correct agg (update_record agg u) (WcUpdateRows u).
Proof.
  intros Hok. unfold update_record.
  destruct (ag_opaque agg) eqn:Eo; [by apply record_correct_opaque|].
  destruct (update_tuple_build u) as [[shape tuple]|] eqn:Et; cbn zeta;
    (case_match eqn:Ecap; [apply record_correct_opaque; auto with pgc|];
     apply N.ltb_ge in Ecap; cbn [ag_merged_predicates ag_deletes ag_updates] in Ecap;
     split; [destruct Hok; grown_ok|intros rr; serves_parts]).
  - rewrite Eo, !updates_clear_group.
    rewrite (group_clear_extend rr _ _ merged_updates_disjoint_all).
    replace (write_disjoint rr (WcUpdateRows u)) with
      (some_and rr (fun r => update_tuple_disjoint shape tuple r)); [btauto|].
    destruct rr as [r|]; [|done]. by apply update_tuple_statement.
  - rewrite Eo. unfold predicates_clear. rewrite forallb_app. cbn [forallb].
    unfold write_disjoint, statement_disjoint. btauto.
Qed.

Lemma aggregate_record_correct agg w :
  aggregate_ok agg -> table_scoped w = true -> record_correct agg (aggregate_record agg w) w.
Proof.
  intros Hok Hw. destruct w; simpl; [by apply insert_record_correct
    |by apply delete_record_correct|by apply update_record_correct
    |apply record_correct_opaque; auto with pgc|done..].
Qed.

(** Folding one aggregate into another, likewise. *)
Lemma aggregate_merge_correct a b :
  aggregate_ok a -> aggregate_ok b ->
  aggregate_ok (aggregate_merge a b) /\
  forall rr, aggregate_serves rr (aggregate_merge a b) =
    negb (ag_opaque (aggregate_merge a b)) && (aggregate_serves rr a && aggregate_serves rr b).
Proof.
  intros Ha Hb. unfold aggregate_merge.
  destruct (ag_opaque a || ag_opaque b) eqn:Eo; [split; [auto with pgc|done]|].
  apply orb_false_iff in Eo as [Ea Eb].
  destruct (merge_inserts _ _) as [o|] eqn:Em; [|split; [auto with pgc|done]].
  pose proof (inserts_clear_merge) as Hins.
  specialize (fun rr => Hins rr _ _ _ (aggregate_insert_wf a Ha) (ok_inserts b Hb) Em).
  cbn zeta. case_match eqn:Ecap; [split; [auto with pgc|done]|].
  apply orb_false_iff in Ecap as [Hc1%N.ltb_ge Hc2%N.ltb_ge].
  cbn [ag_merged_predicates ag_deletes ag_updates] in Hc1, Hc2. split; [|intros rr].
  - destruct (Hins None) as [_ Ho], Ha, Hb.
    split; cbn [ag_inserts ag_opaque ag_merged_deletes ag_deletes ag_merged_updates
      ag_merged_predicates ag_updates]; try done.
    + intros i Hi. destruct (Ho i Hi) as [?|?]; [done|auto].
    + rewrite !group_count_merge. lia.
  - destruct (Hins rr) as [Hcl _]. serves_parts. rewrite Ea, Eb, Hcl.
    rewrite !deletes_clear_group, !updates_clear_group.
    rewrite (group_clear_merge rr _ _ merged_tuples_disjoint_all).
    rewrite (group_clear_merge rr _ _ merged_updates_disjoint_all).
    unfold ranges_clear, predicates_clear. rewrite !forallb_app. btauto.
Qed.

Lemma aggregate_record_opaque agg w :
  ag_opaque agg = true -> ag_opaque (aggregate_record agg w) = true.
Proof.
  intros Ho. destruct w; simpl; unfold insert_record, delete_record, update_record;
    by rewrite ?Ho.
Qed.

Lemma aggregate_fold_correct ws :
  Forall (fun w => table_scoped w = true) ws ->
  aggregate_ok (fold_left aggregate_record ws aggregate_default) /\
  forall rr, aggregate_serves rr (fold_left aggregate_record ws aggregate_default) =
    negb (ag_opaque (fold_left aggregate_record ws aggregate_default))
    && forallb (write_disjoint rr) ws.
Proof.
  induction ws as [|w ws IH] using rev_ind; [split; [auto with pgc|done]|].
  rewrite Forall_app, Forall_singleton, fold_left_app. intros [Hws Hw]. simpl.
  destruct (IH Hws) as [Hok Hs].
  destruct (aggregate_record_correct _ w Hok Hw) as [Hok' Hs']. split; [done|].
  intros rr. rewrite Hs', Hs, forallb_app. simpl.
  destruct (ag_opaque (fold_left _ ws _)) eqn:Eo.
  - by rewrite aggregate_record_opaque.
  - simpl. btauto.
Qed.

(** ** Rows a write touches *)

(** The last assignment to a column. *)
Definition assigned (l : list (string * option LiteralValue)) (c : string)
    : option (option LiteralValue) :=
  fold_left (fun acc a => if bool_decide (a.1 = c) then Some a.2 else acc) l None.

Lemma set_override_assigned l (m : ReadRanges) c :
  fold_left set_override l m !! c =
  match assigned l c with
  | Some (Some v) => Some (CrEqual v)
  | Some None => None
  | None => m !! c
  end.
Proof.
  induction l as [|[c' v] l IH] using rev_ind; [done|].
  unfold assigned in *. rewrite !fold_left_app. simpl. unfold set_override at 1. simpl.
  case_bool_decide as Hc; [subst c'|]; destruct v; simpl.
  - apply lookup_insert_eq.
  - apply lookup_delete_eq.
  - by rewrite lookup_insert_ne.
  - by rewrite lookup_delete_ne.
Qed.

Lemma assigned_elem l c v : assigned l c = Some v -> (c, v) ∈ l.
Proof.
  induction l as [|[c' v'] l IH] using rev_ind; [done|].
  unfold assigned. rewrite fold_left_app. simpl. rewrite elem_of_app.
  case_bool_decide as Hc; [intros [= ->]; right; subst; by left|]. left. auto.
Qed.

Section touched.
Context (V : BucketKey -> Type).
Context `{Hcmp : forall k, PgCompare (V k)} `{Hov : forall k, PgOverlap (V k)}.

(** A row whose column holds the written literal; a NULL or an unbound parameter
    says nothing of it. *)
Definition cell_holds (row : Row V) (c : string) (v : LiteralValue) : Prop :=
  literal_value_is_incomparable v = true \/
  exists x, row (c, None) = Some x /\ pg_cmp x v = Eq.

Definition where_holds (cs : list WriteComparison) (row : Row V) : Prop :=
  Forall (fun c => row_sat V row (comparison_constraint c) = true) cs.

(** The rows whose presence or content a write may change: those it inserts or
    deletes, those it updates and what it makes of them. *)
Definition touches (w : WriteClass) (row : Row V) : Prop :=
  match w with
  | WcInsertRows ins =>
      exists values, values ∈ ins_rows ins /\
        forall c v, assigned (zip (ins_columns ins) values) c = Some (Some v) ->
          cell_holds row c v
  | WcDeleteRows del => where_holds (del_comparisons del) row
  | WcUpdateRows u =>
      where_holds (upd_where_comparisons u) row \/
      exists old, where_holds (upd_where_comparisons u) old /\
        forall c, match assigned (upd_set u) c with
                  | Some (Some v) => cell_holds row c v
                  | Some None => True
                  | None => row (c, None) = old (c, None)
                  end
  | _ => True
  end.

(** The literals of the write obey the laws of their columns. *)
Definition cells_typed (l : list (string * option LiteralValue)) : Prop :=
  Forall (fun a => forall v, a.2 = Some v -> literal_value_is_incomparable v = false ->
    @po_literal (V (a.1, None)) _ _ v) l.

Definition write_typed (Hcol : forall k, PgColumn (V k)) (w : WriteClass) : Prop :=
  match w with
  | WcInsertRows ins =>
      Forall (fun values => cells_typed (zip (ins_columns ins) values)) (ins_rows ins)
  | WcDeleteRows del =>
      predicate_typed V Hcol (comparison_constraint <$> del_comparisons del)
  | WcUpdateRows u =>
      predicate_typed V Hcol (comparison_constraint <$> upd_where_comparisons u)
      /\ cells_typed (upd_set u)
  | _ => True
  end.

Definition null_unknown (r : ColumnRange) : ColumnRange :=
  match r with
  | CrEqual v => if literal_value_is_incomparable v then CrUnknown else r
  | _ => r
  end.

Lemma null_unknown_empty r : is_empty_range (null_unknown r) = is_empty_range r.
Proof. destruct r; try done. simpl. by case_match. Qed.

Lemma null_unknown_disjoint ra rb :
  column_range_disjoint ra rb = true -> column_range_disjoint ra (null_unknown rb) = true.
Proof.
  destruct rb as [| | |v| |]; try done. simpl null_unknown.
  destruct (literal_value_is_incomparable v) eqn:Ev; [|done].
  assert (Hcases : ra = CrEmpty \/ ra <> CrEmpty) by (destruct ra; (by left) || (by right)).
  destruct Hcases as [-> |Hne]; [done|].
  rewrite (column_range_disjoint_point ra (CrEqual v) v Hne) by by left.
  by rewrite (column_range_disjoint_point ra CrUnknown v Hne) by by right.
Qed.

Lemma column_ranges_disjoint_nulls (a b : ReadRanges) :
  column_ranges_disjoint a b = true -> column_ranges_disjoint a (null_unknown <$> b) = true.
Proof.
  unfold column_ranges_disjoint.
  assert (He : existsb (fun cr => is_empty_range cr.2) (map_to_list (null_unknown <$> b)) =
               existsb (fun cr => is_empty_range cr.2) (map_to_list b)).
  { rewrite map_to_list_fmap. clear. induction (map_to_list b) as [|[c r] l IH]; [done|].
    rewrite fmap_cons. cbn [existsb]. rewrite IH. simpl. by rewrite null_unknown_empty. }
  rewrite He. case_match; [done|]. rewrite !existsb_elem.
  intros ([c ra] & Hin & Hd). exists (c, ra). split; [done|]. rewrite lookup_fmap.
  destruct (b !! c) as [rb|]; [|done]. by apply null_unknown_disjoint.
Qed.

(** A row agrees with a map entry: by its value, or by the cell written there. *)
Definition entry_holds (row : Row V) (c : string) (r : ColumnRange) : Prop :=
  (Forall (@po_literal (V (c, None)) _ _) (range_literals r) /\
   (r = CrUnknown \/ exists x, row (c, None) = Some x /\ range_mem x r)) \/
  exists v, r = CrEqual v /\ cell_holds row c v /\
    (literal_value_is_incomparable v = false -> @po_literal (V (c, None)) _ _ v).

Lemma entries_disjoint_rows row (a b : ReadRanges) :
  ranges_typed V a -> column_ranges_disjoint a b = true -> row_in_ranges V row a ->
  (forall c r, b !! c = Some r -> entry_holds row c r) -> False.
Proof.
  intros Ta Hd%column_ranges_disjoint_nulls Ra Hb.
  apply (column_ranges_disjoint_rows V row a (null_unknown <$> b) Ta); [|done|done|].
  - intros c r. rewrite lookup_fmap. intros (r' & Hr & ->)%fmap_Some.
    destruct (Hb c r' Hr) as [[Hp _]|(v & -> & _ & Hp)].
    + destruct r' as [| | |v| |]; try done. simpl. by case_match.
    + simpl. destruct (literal_value_is_incomparable v); [apply Forall_nil_2|].
      apply Forall_singleton. auto.
  - intros c r. rewrite lookup_fmap. intros (r' & Hr & ->)%fmap_Some.
    destruct (Hb c r' Hr) as [[_ [-> |(x & Hx & Hm)]]|(v & -> & Hc & _)]; [by left| |].
    + destruct r' as [| | |v| |]; try (right; by exists x). simpl.
      case_match; [by left|right; by exists x].
    + simpl. destruct (literal_value_is_incomparable v) eqn:Ev; [by left|].
      destruct Hc as [?|(x & Hx & Hv)]; [congruence|]. right. by exists x.
Qed.

Lemma where_ranges_rows Hcol cs row :
  predicate_typed V Hcol (comparison_constraint <$> cs) ->
  ranges_typed V (column_ranges_from_comparisons cs) /\
  (where_holds cs row -> row_in_ranges V row (column_ranges_from_comparisons cs)).
Proof.
  intros Ht.
  destruct (bucket_ranges_rows V Hcol row _ _ (column_ranges_from_comparisons_lookup cs) Ht)
    as [Tb Hin].
  split; [done|]. intros Hw. apply Hin. apply Forall_elem. intros tc [Htc _]%filter_elem.
  apply list_elem_of_fmap in Htc as (c & -> & Hc). unfold where_holds in Hw.
  rewrite Forall_elem in Hw. by apply Hw.
Qed.

Lemma assigned_typed l c v :
  cells_typed l -> assigned l c = Some (Some v) ->
  literal_value_is_incomparable v = false -> @po_literal (V (c, None)) _ _ v.
Proof.
  intros Hl Ha%assigned_elem Hv. unfold cells_typed in Hl. rewrite Forall_elem in Hl.
  by apply (Hl _ Ha).
Qed.

Lemma image_disjoint_rows Hcol cs l row old r :
  predicate_typed V Hcol (comparison_constraint <$> cs) -> cells_typed l ->
  where_holds cs old ->
  (forall c, match assigned l c with
             | Some (Some v) => cell_holds row c v
             | Some None => True
             | None => row (c, None) = old (c, None)
             end) ->
  ranges_typed V r -> row_in_ranges V row r ->
  column_ranges_disjoint r (fold_left set_override l (column_ranges_from_comparisons cs)) = true ->
  False.
Proof.
  intros Hcs Hl Hold Hnew Ta Ra Hd. destruct (where_ranges_rows Hcol cs old Hcs) as [Tw Hw].
  specialize (Hw Hold). apply (entries_disjoint_rows row _ _ Ta Hd Ra). intros c x.
  rewrite set_override_assigned. specialize (Hnew c).
  destruct (assigned l c) as [[v|]|] eqn:Ea; [intros [= <-]|done|].
  - right. exists v. split_and!; [done..|]. by apply (assigned_typed l).
  - intros Hx. left. split; [by apply (Tw c)|]. rewrite Hnew. by apply Hw.
Qed.

Lemma statement_disjoint_touches Hcol r w row :
  ranges_typed V r -> row_in_ranges V row r -> write_typed Hcol w ->
  statement_disjoint w r = true -> touches w row -> False.
Proof.
  intros Ta Ra Hw Hd. destruct w as [ins|del|u| | |]; try done; simpl in *.
  - intros (values & Hin & Hc). rewrite forallb_elem in Hd. rewrite Forall_elem in Hw.
    apply (entries_disjoint_rows row _ _ Ta (Hd _ Hin) Ra). intros c x.
    unfold insert_row_ranges. rewrite set_override_assigned.
    destruct (assigned _ c) as [[v|]|] eqn:Ea; [intros [= <-]|done|done].
    right. exists v. split_and!; [done|by apply Hc|].
    by apply (assigned_typed _ c v (Hw _ Hin)).
  - intros Hrow. destruct (where_ranges_rows Hcol _ row Hw) as [Tw Hr].
    by apply (column_ranges_disjoint_rows V row _ _ Ta Tw Hd Ra), Hr.
  - destruct Hw as [Hcs Hl]. apply andb_true_iff in Hd as [Hd1 Hd2].
    intros [Hrow|(old & Hold & Hnew)].
    + destruct (where_ranges_rows Hcol _ row Hcs) as [Tw Hr].
      by apply (column_ranges_disjoint_rows V row _ _ Ta Tw Hd1 Ra), Hr.
    + by apply (image_disjoint_rows Hcol _ _ row old r Hcs Hl Hold Hnew Ta Ra).
Qed.
End touched.

(** ** Properties *)


(** C4: the folded state decides as the statements do.  Whatever INSERTs,
    DELETEs, UPDATEs and opaque writes are recorded against a table, the
    aggregate (column-major rows, shape-grouped tuples, range maps) stays within
    its caps, and unless it has degraded to opaque it lets a read through exactly
    when every recorded statement, tested on its own, is disjoint from the read;
    once opaque it lets nothing through. *)
Theorem aggregate_exact (ws : list WriteClass) (read_ranges : option (gmap string ColumnRange))
    (Hscoped : Forall (fun w => table_scoped w = true) ws) :
  let agg := fold_left aggregate_record ws aggregate_default in
  aggregate_ok agg /\
  (aggregate_intersects agg read_ranges kinds_default).1 =
    ag_opaque agg || negb (forallb (write_disjoint read_ranges) ws).
Proof.
  destruct (aggregate_fold_correct ws Hscoped) as [Hok Hs]. cbn zeta. split; [done|].
  rewrite aggregate_intersects_kinds, Hs. by rewrite negb_andb, negb_involutive.
Qed.

(** ** Witnesses *)

Module AggregateWitness.
Import NumericColumn OverlapWitness.

Definition rel_t : RelationRef := {| rr_schema := None; rr_name := "t" |}.

(** [UPDATE t SET price = 9 WHERE id = 5] against
    [price IN (1, 2) AND id >= 10]. *)
Definition update5 : UpdateStatement :=
  {| upd_relation := rel_t;
     upd_where_comparisons := [("id", OpEqual, LInteger 5)];
     upd_set := [("price", Some (LInteger 9))] |}.

Definition row_match : Row num_domains := fun k =>
  Some (F8Num (F64Fin (Qc_of_Z (if bool_decide (k.1 = "id") then 12 else 1)))).


Definition insert34 : InsertStatement :=
  {| ins_relation := rel_t; ins_columns := ["price"; "id"];
     ins_rows := [[Some (LInteger 3); None]; [None; Some (LInteger 4)]] |}.
Definition delete7 : DeleteStatement :=
  {| del_relation := rel_t;
     del_comparisons := [("id", OpEqual, LInteger 7); ("price", OpEqual, LInteger 1)] |}.
Definition ws3 : list WriteClass :=
  [WcInsertRows insert34; WcDeleteRows delete7; WcUpdateRows update5].

Lemma aggregate_exact_witness :
  ag_opaque (fold_left aggregate_record ws3 aggregate_default) = false /\
  (aggregate_intersects (fold_left aggregate_record ws3 aggregate_default)
     (Some (table_column_ranges read_q "t")) kinds_default).1 = false.
Proof.
  split; [by vm_compute|].
  destruct (aggregate_exact ws3 (Some (table_column_ranges read_q "t"))) as [_ ->];
    [repeat constructor|by vm_compute].
Defined.
End AggregateWitness.
