(* ===== verification/WriteLog.v ===== *)
(** * The read-your-writes log

    Models src/src/proxy/connection/write_log/{mod,tiers,log}.rs: the
    per-connection log of forwarded writes, the LSN tiers they wait in, and the
    verdict the gate of src/src/proxy/connection/relay.rs takes of it before a
    cached read is served.

    Sequence numbers and LSNs are [u64]s in the source, of which only the order
    is used here; they are [N].  The instants and metrics a tier carries are left
    out: nothing is decided by them.  A query is represented by the table nodes
    its walk visits, in order. *)

From S2P Require Import Prelude Value Ast Range Subsume RangeOverlap Extract WriteAggregate.

(** ** Tiers *)

Notation Lsn := N (only parsing).

Definition WAITING_TIERS_MAX : nat := 8.

Record WaitingTier := { wt_bound : Lsn; wt_aggregate : TableAggregate }.

Record TableTiers := {
  tt_waiting : list WaitingTier;
  tt_active : option (N * TableAggregate)
}.

Definition tiers_default : TableTiers := {| tt_waiting := []; tt_active := None |}.

Definition tiers_is_empty (t : TableTiers) : bool :=
  is_nil (tt_waiting t) && negb (bool_decide (is_Some (tt_active t))).

(** [active_mut(seq)], the aggregate it lends then changed by [f]. *)
Definition active_mut (t : TableTiers) (seq : N) (f : TableAggregate -> TableAggregate)
    : TableTiers :=
  {| tt_waiting := tt_waiting t;
     tt_active := Some (seq, f (match tt_active t with
                                | Some (_, agg) => agg
                                | None => aggregate_default
                                end)) |}.

Definition tiers_stamp (stamp_seq : N) (lsn : Lsn) (t : TableTiers) : TableTiers :=
  match tt_active t with
  | None => t
  | Some (latest_seq, agg) =>
      if (latest_seq <=? stamp_seq)%N then
        let newest_at := pred (length (tt_waiting t)) in
        match (if (WAITING_TIERS_MAX <=? length (tt_waiting t))%nat
               then tt_waiting t !! newest_at else None) with
        | Some newest =>
            {| tt_waiting :=
                 <[newest_at := {| wt_bound := N.max (wt_bound newest) lsn;
                                   wt_aggregate := aggregate_merge (wt_aggregate newest) agg |}]>
                   (tt_waiting t);
               tt_active := None |}
        | None =>
            {| tt_waiting := tt_waiting t ++ [{| wt_bound := lsn; wt_aggregate := agg |}];
               tt_active := None |}
        end
      else t
  end.

Definition aggregates_bounded (t : TableTiers) : list (option Lsn * TableAggregate) :=
  map (fun tier => (Some (wt_bound tier), wt_aggregate tier)) (tt_waiting t)
  ++ match tt_active t with Some (_, agg) => [(None, agg)] | None => [] end.

Definition aggregates (t : TableTiers) : list TableAggregate := map snd (aggregates_bounded t).

Record ConnectionTiers := {
  ct_waiting : option Lsn;
  ct_active : option N;
  ct_unstampable : bool
}.

Definition connection_default : ConnectionTiers :=
  {| ct_waiting := None; ct_active := None; ct_unstampable := false |}.

Definition connection_is_empty (c : ConnectionTiers) : bool :=
  negb (bool_decide (is_Some (ct_waiting c))) && negb (bool_decide (is_Some (ct_active c)))
  && negb (ct_unstampable c).

(** ** Verdicts *)

Inductive RawForwardReason := RfTable | RfConnection.
Inductive RawBlocker := Unstamped | Stamped (lsn : Lsn).
Inductive RawDecision :=
| RdServe
| RdServeDisjoint (kinds : DisjointKinds)
| RdForward (reason : RawForwardReason) (blocker : RawBlocker).
Inductive RawForwardCause := CauseUnstamped | CauseDeliveryLag | CauseApplyLag.

Definition blocker_merge (a b : RawBlocker) : RawBlocker :=
  match a, b with
  | Stamped a, Stamped b => Stamped (N.max a b)
  | _, _ => Unstamped
  end.

Definition forward_cause (blocker : RawBlocker) (received : option Lsn) : RawForwardCause :=
  match blocker with
  | Unstamped => CauseUnstamped
  | Stamped bound =>
      match received with
      | Some received => if (bound <=? received)%N then CauseApplyLag else CauseDeliveryLag
      | None => CauseDeliveryLag
      end
  end.

Definition connection_blocker (c : ConnectionTiers) : RawBlocker :=
  if bool_decide (is_Some (ct_active c)) || ct_unstampable c then Unstamped
  else match ct_waiting c with Some lsn => Stamped lsn | None => Unstamped end.

Definition connection_stamp (stamp_seq : N) (lsn : Lsn) (c : ConnectionTiers)
    : ConnectionTiers :=
  if ct_unstampable c then c
  else match ct_active c with
  | Some latest_seq =>
      if (latest_seq <=? stamp_seq)%N then
        {| ct_waiting := Some (match ct_waiting c with
                               | Some prior => N.max lsn prior
                               | None => lsn
                               end);
           ct_active := None; ct_unstampable := ct_unstampable c |}
      else c
  | None => c
  end.

(** ** The log *)

Notation SchemaBucket := (gmap (option string) TableTiers).

Record WriteLog := {
  wl_tables : gmap string SchemaBucket;
  wl_connection : ConnectionTiers;
  wl_next_seq : N;
  wl_enabled : bool
}.

Definition with_enabled (enabled : bool) : WriteLog :=
  {| wl_tables := ∅; wl_connection := connection_default; wl_next_seq := 0;
     wl_enabled := enabled |}.

Definition disable (l : WriteLog) : WriteLog :=
  {| wl_tables := ∅; wl_connection := connection_default; wl_next_seq := wl_next_seq l;
     wl_enabled := false |}.

Definition log_is_empty (l : WriteLog) : bool :=
  is_nil (map_to_list (wl_tables l)) && connection_is_empty (wl_connection l).

Definition all_tiers (l : WriteLog) : list TableTiers :=
  flat_map (fun '(_, bucket) => map snd (map_to_list (bucket : SchemaBucket)))
    (map_to_list (wl_tables l)).

Definition log_has_row_predicates (l : WriteLog) : bool :=
  existsb (fun tiers => existsb has_row_predicates (aggregates tiers)) (all_tiers l).

(** [table_active(relation, seq)], the aggregate it lends then changed by [f]. *)
Definition table_active (tables : gmap string SchemaBucket) (relation : RelationRef)
    (seq : N) (f : TableAggregate -> TableAggregate) : gmap string SchemaBucket :=
  let bucket := default ∅ (tables !! rr_name relation) in
  let tiers := default tiers_default (bucket !! rr_schema relation) in
  <[rr_name relation := <[rr_schema relation := active_mut tiers seq f]> bucket]> tables.

Definition record (l : WriteLog) (class : WriteClass) : WriteLog :=
  if negb (wl_enabled l) then l
  else
    let seq := wl_next_seq l in
    let l := {| wl_tables := wl_tables l; wl_connection := wl_connection l;
                wl_next_seq := (seq + 1)%N; wl_enabled := wl_enabled l |} in
    if ct_unstampable (wl_connection l) then l
    else
      let on_table relation f :=
        {| wl_tables := table_active (wl_tables l) relation seq f;
           wl_connection := wl_connection l; wl_next_seq := wl_next_seq l;
           wl_enabled := wl_enabled l |} in
      match class with
      | WcInsertRows insert =>
          on_table (ins_relation insert) (fun agg => insert_record agg insert)
      | WcDeleteRows delete =>
          on_table (del_relation delete) (fun agg => delete_record agg delete)
      | WcUpdateRows update =>
          on_table (upd_relation update) (fun agg => update_record agg update)
      | WcTable relation => on_table relation degrade_opaque
      | WcConnection =>
          {| wl_tables := wl_tables l;
             wl_connection := {| ct_waiting := ct_waiting (wl_connection l);
                                 ct_active := Some seq;
                                 ct_unstampable := ct_unstampable (wl_connection l) |};
             wl_next_seq := wl_next_seq l; wl_enabled := wl_enabled l |}
      | WcConnectionUnstampable =>
          {| wl_tables := ∅;
             wl_connection := {| ct_waiting := None; ct_active := None;
                                 ct_unstampable := true |};
             wl_next_seq := wl_next_seq l; wl_enabled := wl_enabled l |}
      end.

(** [Iterator::max] *)
Definition list_max (l : list N) : option N :=
  fold_left (fun acc x => Some (match acc with Some y => N.max y x | None => x end)) l None.

Definition stamp_seq (l : WriteLog) : option N :=
  list_max (flat_map (fun tiers => option_list (fst <$> tt_active tiers)) (all_tiers l)
            ++ option_list (ct_active (wl_connection l))).

Definition stamp (l : WriteLog) (stamp_seq : N) (lsn : Lsn) : WriteLog :=
  {| wl_tables := fmap (fun bucket : SchemaBucket => tiers_stamp stamp_seq lsn <$> bucket)
                    (wl_tables l);
     wl_connection := connection_stamp stamp_seq lsn (wl_connection l);
     wl_next_seq := wl_next_seq l; wl_enabled := wl_enabled l |}.

(** The [retain] closures, inside out. *)
Definition tiers_purge (watermark : Lsn) (t : TableTiers) : option TableTiers :=
  let t' := {| tt_waiting :=
                 List.filter (fun tier => (watermark <? wt_bound tier)%N) (tt_waiting t);
               tt_active := tt_active t |} in
  if tiers_is_empty t' then None else Some t'.

Definition bucket_purge (watermark : Lsn) (bucket : SchemaBucket) : option SchemaBucket :=
  let bucket' := omap (tiers_purge watermark) bucket in
  if is_nil (map_to_list bucket') then None else Some bucket'.

Definition connection_purge (watermark : Lsn) (c : ConnectionTiers) : ConnectionTiers :=
  match ct_waiting c with
  | Some lsn =>
      if (lsn <=? watermark)%N then
        {| ct_waiting := None; ct_active := ct_active c; ct_unstampable := ct_unstampable c |}
      else c
  | None => c
  end.

Definition purge (l : WriteLog) (watermark : Lsn) : WriteLog :=
  {| wl_tables := omap (bucket_purge watermark) (wl_tables l);
     wl_connection := connection_purge watermark (wl_connection l);
     wl_next_seq := wl_next_seq l; wl_enabled := wl_enabled l |}.

(** ** The verdict *)

Record TableNode := {
  tn_schema : option string;
  tn_name : string;
  tn_alias : option TableAlias
}.

Definition schema_matches (relation table : option string) : bool :=
  match relation, table with
  | Some a, Some b => bool_decide (a = b)
  | _, _ => true
  end.

(** The blocker accumulated over a table's tiers, and the kinds proved disjoint. *)
Definition GateState : Type := option RawBlocker * DisjointKinds.

Definition tier_intersects (read_ranges : option ReadRanges) (st : GateState)
    (tier : option Lsn * TableAggregate) : GateState :=
  let '(blocker, kinds) := st in
  let '(bound, agg) := tier in
  let '(intersects, kinds) := aggregate_intersects agg read_ranges kinds in
  if intersects then
    let tier := match bound with Some lsn => Stamped lsn | None => Unstamped end in
    (Some (match blocker with Some prior => blocker_merge prior tier | None => tier end), kinds)
  else (blocker, kinds).

Definition table_intersects (l : WriteLog) (table : TableNode)
    (read_ranges : option ReadRanges) (kinds : DisjointKinds) : GateState :=
  match wl_tables l !! tn_name table with
  | None => (None, kinds)
  | Some bucket =>
      fold_left (fun st '(schema, tiers) =>
        if schema_matches schema (tn_schema table)
        then fold_left (tier_intersects read_ranges) (aggregates_bounded tiers) st
        else st) (map_to_list bucket) (None, kinds)
  end.

(** The walk over the query's tables, stopped by the first blocked one. *)
Fixpoint tables_blocked (l : WriteLog) (tables : list TableNode)
    (read_ranges : option ReadRanges) (kinds : DisjointKinds) : GateState :=
  match tables with
  | [] => (None, kinds)
  | table :: rest =>
      match table_intersects l table read_ranges kinds with
      | (Some blocker, kinds) => (Some blocker, kinds)
      | (None, kinds) => tables_blocked l rest read_ranges kinds
      end
  end.

Definition log_decide (l : WriteLog) (tables : list TableNode) (read_ranges : option ReadRanges)
    : RawDecision :=
  if negb (connection_is_empty (wl_connection l))
  then RdForward RfConnection (connection_blocker (wl_connection l))
  else match tables_blocked l tables read_ranges kinds_default with
  | (Some blocker, _) => RdForward RfTable blocker
  | (None, kinds) => if kinds_any kinds then RdServeDisjoint kinds else RdServe
  end.

Definition table_has_row_predicate (l : WriteLog) (table : TableNode) : bool :=
  match wl_tables l !! tn_name table with
  | None => false
  | Some bucket =>
      existsb (fun '(schema, tiers) =>
        schema_matches schema (tn_schema table)
        && existsb has_row_predicates (aggregates tiers)) (map_to_list bucket)
  end.

(** ** The gate of relay.rs *)

Definition single_table (tables : list TableNode) : option TableNode :=
  match tables with
  | [table] => Some table
  | _ => None
  end.

(** [resolved] is the cached query's resolved SELECT, looked up by the read's
    fingerprint; [None] when the read is not registered or not a SELECT. *)
Definition read_column_ranges (tables : list TableNode)
    (resolved : option ResolvedSelectNode) (l : WriteLog) : option ReadRanges :=
  table ← single_table tables;
  if negb (table_has_row_predicate l table) then None
  else
    select ← resolved;
    constraints ← analyze_query_constraints select;
    if negb (qc_where_analysis_complete constraints) then None
    else Some (table_column_ranges constraints (tn_name table)).

(** The read-after-write gate: the log after it, and whether the read goes on to
    the cache. *)
Definition raw_gate (l : WriteLog) (settled_lsn : option Lsn) (tables : list TableNode)
    (resolved : option ResolvedSelectNode) : WriteLog * bool :=
  if log_is_empty l then (l, true)
  else
    let l := match settled_lsn with Some watermark => purge l watermark | None => l end in
    let has_pred := log_has_row_predicates l in
    let read_ranges := if has_pred then read_column_ranges tables resolved l else None in
    (l, match log_decide l tables read_ranges with
        | RdForward _ _ => false
        | RdServeDisjoint _ | RdServe => true
        end).

(** ** What the verdict looks at *)

Definition log_tiers (l : WriteLog) (name : string) (schema : option string)
    : option TableTiers := wl_tables l !! name ≫= fun bucket => bucket !! schema.

Definition table_aggregates (l : WriteLog) (table : TableNode)
    : list (option Lsn * TableAggregate) :=
  match wl_tables l !! tn_name table with
  | None => []
  | Some bucket =>
      flat_map (fun '(schema, tiers) =>
        if schema_matches schema (tn_schema table) then aggregates_bounded tiers else [])
        (map_to_list bucket)
  end.

Lemma table_aggregates_elem l table x :
  x ∈ table_aggregates l table <->
  exists schema tiers, log_tiers l (tn_name table) schema = Some tiers /\
    schema_matches schema (tn_schema table) = true /\ x ∈ aggregates_bounded tiers.
Proof.
  unfold table_aggregates, log_tiers.
  destruct (wl_tables l !! tn_name table) as [bucket|]; simpl.
  2: { split; [by intros ?%not_elem_of_nil|naive_solver]. }
  rewrite flat_map_elem. split.
  - intros ([schema tiers] & Hin%elem_of_map_to_list & Hx).
    destruct (schema_matches schema (tn_schema table)) eqn:Es; [by exists schema, tiers|].
    by apply not_elem_of_nil in Hx.
  - intros (schema & tiers & Hb & Hs & Hx). exists (schema, tiers).
    rewrite elem_of_map_to_list, Hs. done.
Qed.

(** The clearance constraints of the tiers the read does not pass. *)
Definition tier_blocker (bound : option Lsn) : RawBlocker :=
  match bound with Some lsn => Stamped lsn | None => Unstamped end.

Definition blockers (rr : option ReadRanges) (aggs : list (option Lsn * TableAggregate))
    : list RawBlocker :=
  map (fun x => tier_blocker x.1) (List.filter (fun x => negb (aggregate_serves rr x.2)) aggs).

Definition blocker_add (acc : option RawBlocker) (x : RawBlocker) : option RawBlocker :=
  Some (match acc with Some prior => blocker_merge prior x | None => x end).

Lemma tier_fold_blockers rr aggs st :
  (fold_left (tier_intersects rr) aggs st).1 = fold_left blocker_add (blockers rr aggs) st.1.
Proof.
  revert st. induction aggs as [|[bound agg] aggs IH]; intros st; [done|].
  cbn [fold_left]. rewrite IH. unfold blockers. cbn [List.filter snd].
  destruct st as [b k]. unfold tier_intersects.
  pose proof (aggregate_intersects_kinds agg rr k) as Hk.
  destruct (aggregate_intersects agg rr k) as [i k']. simpl in Hk. subst i.
  by destruct (aggregate_serves rr agg).
Qed.

Lemma table_intersects_blockers l table rr k :
  (table_intersects l table rr k).1 =
  fold_left blocker_add (blockers rr (table_aggregates l table)) None.
Proof.
  unfold table_intersects, table_aggregates.
  destruct (wl_tables l !! tn_name table) as [bucket|]; [|done].
  rewrite <- (tier_fold_blockers rr _ (None, k)). f_equal.
  generalize (None : option RawBlocker, k).
  induction (map_to_list bucket) as [|[schema tiers] rest IH]; intros st; [done|].
  cbn [fold_left flat_map]. rewrite fold_left_app, IH. by destruct (schema_matches _ _).
Qed.

Lemma blocker_fold_Some bs b : exists b', fold_left blocker_add bs (Some b) = Some b'.
Proof. revert b. induction bs as [|x bs IH]; intros b; [by exists b|]. apply IH. Qed.

Lemma blocker_fold_None bs : fold_left blocker_add bs None = None <-> bs = [].
Proof.
  split; [|by intros ->]. destruct bs as [|x bs]; [done|].
  destruct (blocker_fold_Some bs x) as [b' Hb]. intros Hn. cbn [fold_left] in Hn.
  change (blocker_add None x) with (Some x) in Hn. congruence.
Qed.

Lemma blockers_nil rr aggs :
  blockers rr aggs = [] <-> forall x, x ∈ aggs -> aggregate_serves rr x.2 = true.
Proof.
  unfold blockers. split.
  - intros H%map_eq_nil x Hx. destruct (aggregate_serves rr x.2) eqn:E; [done|].
    assert (Hin : x ∈ List.filter (fun x => negb (aggregate_serves rr x.2)) aggs)
      by (apply filter_elem; by rewrite E).
    rewrite H in Hin. by apply not_elem_of_nil in Hin.
  - intros H. induction aggs as [|x aggs IH]; [done|]. simpl.
    rewrite H by by left. apply IH. intros y Hy. apply H. by right.
Qed.

Lemma tables_blocked_None l tables rr k :
  (tables_blocked l tables rr k).1 = None <->
  forall table, table ∈ tables -> blockers rr (table_aggregates l table) = [].
Proof.
  revert k. induction tables as [|t ts IH]; intros k; cbn [tables_blocked].
  { split; [by intros _ t ?%not_elem_of_nil|done]. }
  pose proof (table_intersects_blockers l t rr k) as Ht.
  destruct (table_intersects l t rr k) as [[b|] k'] eqn:E; simpl in Ht.
  - split; [done|]. intros H. rewrite (H t) in Ht by by left. done.
  - symmetry in Ht. apply blocker_fold_None in Ht. rewrite IH. split.
    + intros H t' [-> |Hin]%elem_of_cons; auto.
    + intros H t' Hin. apply H. by right.
Qed.

Definition serves (d : RawDecision) : bool :=
  match d with RdForward _ _ => false | _ => true end.

(** The read is served exactly when no connection-scoped write is pending and it
    passes every tier of every table it references. *)
Lemma log_decide_serves l tables rr :
  serves (log_decide l tables rr) = true <->
  connection_is_empty (wl_connection l) = true /\
  forall table x, table ∈ tables -> x ∈ table_aggregates l table ->
    aggregate_serves rr x.2 = true.
Proof.
  unfold log_decide. destruct (connection_is_empty (wl_connection l)); simpl; [|naive_solver].
  pose proof (tables_blocked_None l tables rr kinds_default) as Hb.
  destruct (tables_blocked l tables rr kinds_default) as [[b|] k]; simpl in *.
  - split; [done|]. intros [_ H]. exfalso. enough (Some b = None) by done. apply Hb.
    intros t Ht. apply blockers_nil. eauto.
  - split; [|by case_match]. intros _. split; [done|]. intros t x Ht.
    apply blockers_nil. by apply Hb.
Qed.

(** ** Looking a table's tiers up after each operation *)

Lemma table_active_lookup l c n e relation seq f name schema :
  log_tiers {| wl_tables := table_active (wl_tables l) relation seq f; wl_connection := c;
               wl_next_seq := n; wl_enabled := e |} name schema =
  if bool_decide (name = rr_name relation /\ schema = rr_schema relation)
  then Some (active_mut (default tiers_default
         (log_tiers l (rr_name relation) (rr_schema relation))) seq f)
  else log_tiers l name schema.
Proof.
  unfold log_tiers, table_active. simpl. case_bool_decide as Hk.
  - destruct Hk as [-> ->]. rewrite lookup_insert_eq. simpl. rewrite lookup_insert_eq.
    by destruct (wl_tables l !! rr_name relation).
  - destruct (base.decide (name = rr_name relation)) as [-> |Hn].
    + rewrite lookup_insert_eq. simpl. rewrite lookup_insert_ne by naive_solver.
      destruct (wl_tables l !! rr_name relation); [done|]. simpl. by rewrite lookup_empty.
    + by rewrite lookup_insert_ne.
Qed.

Lemma stamp_lookup l q lsn name schema :
  log_tiers (stamp l q lsn) name schema = tiers_stamp q lsn <$> log_tiers l name schema.
Proof.
  unfold log_tiers, stamp. simpl. rewrite lookup_fmap.
  destruct (wl_tables l !! name) as [bucket|]; simpl; [|done]. by rewrite lookup_fmap.
Qed.

Lemma is_nil_map {K A} `{Countable K} (m : gmap K A) :
  is_nil (map_to_list m) = true <-> m = ∅.
Proof.
  split; [|by intros ->; rewrite map_to_list_empty].
  intros Hm. apply map_to_list_empty_iff. by destruct (map_to_list m).
Qed.

Lemma purge_lookup l wm name schema :
  log_tiers (purge l wm) name schema = log_tiers l name schema ≫= tiers_purge wm.
Proof.
  unfold log_tiers, purge. simpl. rewrite lookup_omap.
  destruct (wl_tables l !! name) as [bucket|]; simpl; [|done].
  unfold bucket_purge. destruct (is_nil (map_to_list (omap _ bucket))) eqn:E; simpl.
  - apply is_nil_map in E. rewrite <- (lookup_omap (tiers_purge wm)), E. by rewrite lookup_empty.
  - by rewrite lookup_omap.
Qed.

(** ** Bounds *)

Record tiers_ok (t : TableTiers) : Prop := {
  tok_depth : (length (tt_waiting t) <= WAITING_TIERS_MAX)%nat;
  tok_waiting : Forall (fun tier => aggregate_ok (wt_aggregate tier)) (tt_waiting t);
  tok_active : forall seq agg, tt_active t = Some (seq, agg) -> aggregate_ok agg
}.

Lemma tiers_default_ok : tiers_ok tiers_default.
Proof. split; [simpl; unfold WAITING_TIERS_MAX; lia|constructor|done]. Qed.

Definition active_aggregate (t : TableTiers) : TableAggregate :=
  match tt_active t with Some (_, agg) => agg | None => aggregate_default end.

Lemma active_aggregate_ok t : tiers_ok t -> aggregate_ok (active_aggregate t).
Proof.
  intros [_ _ Ha]. unfold active_aggregate.
  destruct (tt_active t) as [[s agg]|]; [by eapply Ha|auto with pgc].
Qed.

Lemma active_mut_ok t seq f :
  tiers_ok t -> aggregate_ok (f (active_aggregate t)) -> tiers_ok (active_mut t seq f).
Proof. intros [Hd Hw _] Hf. split; [done..|]. intros s agg [= <- <-]. exact Hf. Qed.

Lemma tiers_stamp_ok q lsn t : tiers_ok t -> tiers_ok (tiers_stamp q lsn t).
Proof.
  intros [Hd Hw Ha]. unfold tiers_stamp.
  destruct (tt_active t) as [[a agg]|] eqn:Ea; [|by split; [..|intros; congruence]].
  specialize (Ha a agg eq_refl).
  destruct (a <=? q)%N; [|split; [done..|]; intros s g; rewrite Ea; naive_solver].
  cbn zeta. destruct (WAITING_TIERS_MAX <=? length (tt_waiting t))%nat eqn:Ef.
  - destruct (tt_waiting t !! _) as [newest|] eqn:En.
    + split; simpl; [by rewrite length_insert| |done]. apply Forall_insert; [done|]. simpl.
      apply aggregate_merge_correct; [|done]. rewrite Forall_elem in Hw.
      by eapply Hw, list_elem_of_lookup_2.
    + apply lookup_ge_None in En. apply Nat.leb_le in Ef. unfold WAITING_TIERS_MAX in Ef. lia.
  - apply Nat.leb_gt in Ef. split; simpl; [rewrite length_app; simpl; lia| |done].
    apply Forall_app. split; [done|]. by apply Forall_singleton.
Qed.

Lemma tiers_purge_Some wm t t' :
  tiers_purge wm t = Some t' ->
  t' = {| tt_waiting := List.filter (fun tier => (wm <? wt_bound tier)%N) (tt_waiting t);
          tt_active := tt_active t |}.
Proof. unfold tiers_purge. case_match; [done|]. by intros [= <-]. Qed.

Lemma tiers_purge_ok wm t t' : tiers_ok t -> tiers_purge wm t = Some t' -> tiers_ok t'.
Proof.
  intros [Hd Hw Ha] ->%tiers_purge_Some. split; simpl.
  - etrans; [|exact Hd]. clear. induction (tt_waiting t) as [|x l IH]; simpl; [done|].
    case_match; simpl; lia.
  - rewrite Forall_elem in *. intros tier [Hin _]%filter_elem. auto.
  - done.
Qed.

Definition log_ok (l : WriteLog) : Prop :=
  forall name schema t, log_tiers l name schema = Some t -> tiers_ok t.

Lemma log_ok_new b : log_ok (with_enabled b).
Proof. by intros name schema t. Qed.

Lemma log_ok_default l name schema :
  log_ok l -> tiers_ok (default tiers_default (log_tiers l name schema)).
Proof.
  intros Hl. specialize (Hl name schema).
  destruct (log_tiers l name schema) as [t|]; [by apply Hl|apply tiers_default_ok].
Qed.

Definition write_relation (w : WriteClass) : option RelationRef :=
  match w with
  | WcInsertRows i => Some (ins_relation i)
  | WcDeleteRows d => Some (del_relation d)
  | WcUpdateRows u => Some (upd_relation u)
  | WcTable r => Some r
  | WcConnection | WcConnectionUnstampable => None
  end.

(** A table-scoped record, in one form. *)
Lemma record_table l w relation :
  write_relation w = Some relation -> wl_enabled l = true ->
  ct_unstampable (wl_connection l) = false ->
  record l w =
  {| wl_tables := table_active (wl_tables l) relation (wl_next_seq l)
                    (fun agg => aggregate_record agg w);
     wl_connection := wl_connection l; wl_next_seq := (wl_next_seq l + 1)%N;
     wl_enabled := wl_enabled l |}.
Proof.
  intros Hr He Hu. unfold record. rewrite He. simpl. rewrite Hu.
  by destruct w; simpl in Hr; simplify_eq.
Qed.

Lemma write_relation_scoped w relation : write_relation w = Some relation -> table_scoped w = true.
Proof. by destruct w. Qed.

Lemma log_ok_record l w : log_ok l -> log_ok (record l w).
Proof.
  intros Hl. destruct (wl_enabled l) eqn:He; [|by unfold record; rewrite He].
  destruct (ct_unstampable (wl_connection l)) eqn:Hu.
  { unfold record. rewrite He. simpl. by rewrite Hu. }
  destruct (write_relation w) as [relation|] eqn:Hr.
  - rewrite (record_table l w relation) by done. intros name schema t.
    rewrite table_active_lookup. case_bool_decide as Hk; [|apply Hl].
    intros [= <-]. set (t0 := default _ _).
    assert (Ht0 : tiers_ok t0) by by apply log_ok_default.
    apply active_mut_ok; [done|].
    apply aggregate_record_correct; [by apply active_aggregate_ok|].
    by eapply write_relation_scoped.
  - unfold record. rewrite He. simpl. rewrite Hu. by destruct w.
Qed.

Lemma log_ok_stamp l q lsn : log_ok l -> log_ok (stamp l q lsn).
Proof.
  intros Hl name schema t. rewrite stamp_lookup. intros (t' & Ht & ->)%fmap_Some.
  eapply tiers_stamp_ok, Hl, Ht.
Qed.

Lemma log_ok_purge l wm : log_ok l -> log_ok (purge l wm).
Proof.
  intros Hl name schema t. rewrite purge_lookup. intros (t' & Ht & Hp)%bind_Some.
  eapply tiers_purge_ok; [|done]. by eapply Hl.
Qed.

#[export] Hint Resolve log_ok_new log_ok_record log_ok_stamp log_ok_purge : pgc.

(** ** Runs and coverage *)

(** A connection's history: the writes recorded, newest first, each under its
    sequence number; the probes' bounds; the watermarks the log was purged with,
    of which the greatest is kept.  [commit s] is the LSN at which write [s]
    became durable.  A probe is honest: its LSN is sampled after the writes it
    stamps have committed, so it bounds them. A prepared transaction commits
    later, so no probe bounds it. *)
Inductive LogRun (commit : N -> Lsn) : WriteLog -> list (N * WriteClass) -> Lsn -> Prop :=
| run_new : LogRun commit (with_enabled true) [] 0
| run_record l h wm w :
    LogRun commit l h wm -> LogRun commit (record l w) ((wl_next_seq l, w) :: h) wm
| run_stamp l h wm q lsn :
    LogRun commit l h wm ->
    (forall s w, (s, w) ∈ h -> (s <= q)%N -> w <> WcConnectionUnstampable ->
       (commit s <= lsn)%N) ->
    LogRun commit (stamp l q lsn) h wm
| run_purge l h wm watermark :
    LogRun commit l h wm -> LogRun commit (purge l watermark) h (N.max wm watermark).

(** An aggregate stands for a write: a read that passes it is disjoint from it. *)
Definition covers (agg : TableAggregate) (w : WriteClass) : Prop :=
  forall rr, aggregate_serves rr agg = true -> write_disjoint rr w = true.

(** Write [s], durable at [lsn], still has a tier that stands for it. *)
Definition tiers_cover (s : N) (lsn : Lsn) (w : WriteClass) (t : TableTiers) : Prop :=
  (exists latest agg, tt_active t = Some (latest, agg) /\ (s <= latest)%N /\ covers agg w) \/
  (exists tier, tier ∈ tt_waiting t /\ (lsn <= wt_bound tier)%N /\
     covers (wt_aggregate tier) w).

Lemma covers_merge_l a b w :
  aggregate_ok a -> aggregate_ok b -> covers a w -> covers (aggregate_merge a b) w.
Proof.
  intros Ha Hb Hc rr. destruct (aggregate_merge_correct a b Ha Hb) as [_ ->].
  intros Hs. bool_hyps. auto.
Qed.

Lemma covers_merge_r a b w :
  aggregate_ok a -> aggregate_ok b -> covers b w -> covers (aggregate_merge a b) w.
Proof.
  intros Ha Hb Hc rr. destruct (aggregate_merge_correct a b Ha Hb) as [_ ->].
  intros Hs. bool_hyps. auto.
Qed.

Lemma covers_record agg w w' :
  aggregate_ok agg -> table_scoped w' = true -> (covers agg w \/ w = w') ->
  covers (aggregate_record agg w') w.
Proof.
  intros Hok Hw Hc rr. destruct (aggregate_record_correct agg w' Hok Hw) as [_ ->].
  intros Hs. bool_hyps. destruct Hc as [Hc| ->]; auto.
Qed.

Lemma active_mut_cover s lsn w t seq w' :
  tiers_ok t -> table_scoped w' = true -> (s <= seq)%N ->
  tiers_cover s lsn w t \/ w = w' ->
  tiers_cover s lsn w (active_mut t seq (fun agg => aggregate_record agg w')).
Proof.
  intros Hok Hw Hs Hc.
  assert (Hnew : covers (active_aggregate t) w \/ w = w' ->
    tiers_cover s lsn w (active_mut t seq (fun agg => aggregate_record agg w'))).
  { intros H. left. exists seq, (aggregate_record (active_aggregate t) w').
    split_and!; [done..|]. apply covers_record; [by apply active_aggregate_ok|done|done]. }
  destruct Hc as [[(latest & agg & Ha & _ & Hc)|Hwait]|Heq]; [|by right|auto].
  apply Hnew. left. unfold active_aggregate. by rewrite Ha.
Qed.

Lemma tiers_stamp_cover s lsn w t q bound :
  tiers_ok t -> ((s <= q)%N -> (lsn <= bound)%N) ->
  tiers_cover s lsn w t -> tiers_cover s lsn w (tiers_stamp q bound t).
Proof.
  intros [Hd Hw Ha] Hhonest Hc. unfold tiers_stamp.
  destruct (tt_active t) as [[latest agg]|] eqn:Ea; [|done].
  destruct (N.leb_spec latest q) as [Hq|Hq]; [|done]. specialize (Ha _ _ eq_refl).
  cbn zeta. destruct (WAITING_TIERS_MAX <=? length (tt_waiting t))%nat eqn:Ef.
  2: { destruct Hc as [(l' & agg' & Heq & Hs & Hc)|(tier & Hin & Hb & Hc)]; right.
       - rewrite Ea in Heq. injection Heq as <- <-. simpl. eexists. split_and!;
           [apply elem_of_app; right; by left|simpl; apply Hhonest; lia|done].
       - exists tier. simpl. split_and!; [apply elem_of_app; by left|done..]. }
  set (i := pred (length (tt_waiting t))).
  destruct (tt_waiting t !! i) as [newest|] eqn:En.
  2: { apply lookup_ge_None in En. apply Nat.leb_le in Ef. unfold i, WAITING_TIERS_MAX in *. lia. }
  pose proof (lookup_lt_Some _ _ _ En) as Hi.
  assert (Hn : aggregate_ok (wt_aggregate newest)).
  { rewrite Forall_elem in Hw. by eapply Hw, list_elem_of_lookup_2. }
  right. simpl. destruct Hc as [(l' & agg' & Heq & Hs & Hc)|(tier & Hin & Hb & Hc)].
  - rewrite Ea in Heq. injection Heq as <- <-. eexists. split_and!.
    + eapply list_elem_of_lookup_2. by apply list_lookup_insert_eq.
    + simpl. assert (lsn <= bound)%N by (apply Hhonest; lia). lia.
    + by apply covers_merge_r.
  - apply list_elem_of_lookup in Hin as [j Hj]. destruct (base.decide (i = j)) as [<- |Hne].
    + rewrite En in Hj. injection Hj as ->. eexists. split_and!.
      * eapply list_elem_of_lookup_2. by apply list_lookup_insert_eq.
      * simpl. lia.
      * by apply covers_merge_l.
    + exists tier. split_and!; [|done..]. eapply list_elem_of_lookup_2.
      by rewrite list_lookup_insert_ne.
Qed.

Lemma tiers_purge_cover s lsn w t wm :
  (wm < lsn)%N -> tiers_cover s lsn w t ->
  exists t', tiers_purge wm t = Some t' /\ tiers_cover s lsn w t'.
Proof.
  intros Hlt Hc.
  set (t' := {| tt_waiting := List.filter (fun tier => (wm <? wt_bound tier)%N) (tt_waiting t);
                tt_active := tt_active t |}).
  assert (Hc' : tiers_cover s lsn w t').
  { destruct Hc as [?|(tier & Hin & Hb & Hc)]; [by left|]. right. exists tier.
    split_and!; [|done..]. apply filter_elem. split; [done|]. apply N.ltb_lt. lia. }
  exists t'. split; [|done]. unfold tiers_purge. fold t'.
  destruct (tiers_is_empty t') eqn:E; [|done]. exfalso. unfold tiers_is_empty in E.
  bool_hyps. destruct Hc' as [(a & agg & Ha & _)|(tier & Hin & _)].
  - rewrite Ha in *. match goal with H : ~ _ |- _ => apply H end. by eexists.
  - destruct (tt_waiting t'); [by apply not_elem_of_nil in Hin|done].
Qed.

Definition connection_cover (s : N) (lsn : Lsn) (c : ConnectionTiers) : Prop :=
  (exists latest, ct_active c = Some latest /\ (s <= latest)%N) \/
  (exists bound, ct_waiting c = Some bound /\ (lsn <= bound)%N).

Definition log_cover (l : WriteLog) (s : N) (lsn : Lsn) (w : WriteClass) : Prop :=
  match write_relation w with
  | Some relation =>
      exists t, log_tiers l (rr_name relation) (rr_schema relation) = Some t /\
        tiers_cover s lsn w t
  | None => w = WcConnection /\ connection_cover s lsn (wl_connection l)
  end.

Record log_inv (commit : N -> Lsn) (l : WriteLog) (h : list (N * WriteClass)) (wm : Lsn)
    : Prop := {
  li_enabled : wl_enabled l = true;
  li_ok : log_ok l;
  li_seq : forall s w, (s, w) ∈ h -> (s < wl_next_seq l)%N;
  li_cover : ct_unstampable (wl_connection l) = true \/
    forall s w, (s, w) ∈ h -> (wm < commit s)%N -> log_cover l s (commit s) w
}.

Lemma log_cover_record l s lsn w w' :
  wl_enabled l = true -> log_ok l -> ct_unstampable (wl_connection l) = false ->
  w' <> WcConnectionUnstampable -> (s <= wl_next_seq l)%N ->
  log_cover l s lsn w \/ (w = w' /\ s = wl_next_seq l) -> log_cover (record l w') s lsn w.
Proof.
  intros He Hok Hu Hw' Hs Hc. unfold log_cover in *.
  destruct (write_relation w') as [relation'|] eqn:Hr'.
  - rewrite (record_table l w' relation') by done.
    pose proof (write_relation_scoped _ _ Hr') as Hsc.
    destruct (write_relation w) as [relation|] eqn:Hr; [|naive_solver].
    rewrite table_active_lookup. case_bool_decide as Hk.
    + destruct Hk as [Hn Hsch]. eexists. split; [done|].
      apply active_mut_cover; [|done|done|].
      * by apply log_ok_default.
      * destruct Hc as [(t & Ht & Hc)|[-> _]]; [|by right]. left.
        rewrite <- Hn, <- Hsch, Ht. done.
    + destruct Hc as [Hc|[-> _]]; [done|]. exfalso. apply Hk. by simplify_eq.
  - destruct w'; try done. unfold record. rewrite He. simpl. rewrite Hu.
    destruct (write_relation w) as [relation|] eqn:Hr.
    + destruct Hc as [Hc|[-> _]]; [exact Hc|done].
    + split; [naive_solver|]. left. simpl. eexists. split; [done|lia].
Qed.

Lemma connection_stamp_cover s lsn c q bound :
  ((s <= q)%N -> (lsn <= bound)%N) ->
  connection_cover s lsn c -> connection_cover s lsn (connection_stamp q bound c).
Proof.
  intros Hh Hc. unfold connection_stamp.
  destruct (ct_unstampable c); [done|]. destruct (ct_active c) as [latest|] eqn:Ea; [|done].
  destruct (N.leb_spec latest q); [|done]. right. simpl.
  destruct Hc as [(l & Hl & Hs)|(b & Hb & Hs)].
  - simplify_eq. assert (lsn <= bound)%N by (apply Hh; lia). eexists. split; [done|].
    case_match; lia.
  - rewrite Hb. eexists. split; [done|]. lia.
Qed.

Lemma connection_purge_cover s lsn c wm :
  (wm < lsn)%N -> connection_cover s lsn c -> connection_cover s lsn (connection_purge wm c).
Proof.
  intros Hlt Hc. unfold connection_purge. destruct (ct_waiting c) as [b|] eqn:Eb; [|done].
  destruct (N.leb_spec b wm); [|done]. destruct Hc as [Ha|(b' & Hb & Hs)]; [by left|].
  simplify_eq. lia.
Qed.

Lemma unstampable_stamp q lsn c :
  ct_unstampable (connection_stamp q lsn c) = ct_unstampable c.
Proof.
  unfold connection_stamp. destruct (ct_unstampable c) eqn:E; [done|].
  destruct (ct_active c); [|done]. by destruct (_ <=? _)%N.
Qed.

Lemma unstampable_purge wm c : ct_unstampable (connection_purge wm c) = ct_unstampable c.
Proof. unfold connection_purge. destruct (ct_waiting c); [|done]. by destruct (_ <=? _)%N. Qed.

Lemma unstampable_dec w : w = WcConnectionUnstampable \/ w <> WcConnectionUnstampable.
Proof. destruct w; (by left) || (by right). Qed.

Lemma record_frame l w :
  wl_enabled l = true ->
  wl_enabled (record l w) = true /\ wl_next_seq (record l w) = (wl_next_seq l + 1)%N.
Proof.
  intros He. unfold record. rewrite He. simpl. destruct (ct_unstampable _); [done|].
  by destruct w.
Qed.

Lemma log_run_inv commit l h wm : LogRun commit l h wm -> log_inv commit l h wm.
Proof.
  induction 1 as [|l h wm w _ [He Hok Hseq Hc]|l h wm q lsn _ [He Hok Hseq Hc] Hh
                 |l h wm wm' _ [He Hok Hseq Hc]].
  - split; [done|auto with pgc|..]; [|right]; by intros s w ?%not_elem_of_nil.
  - destruct (record_frame l w He) as [He' Hn]. split; [done|auto with pgc|..].
    + intros s w' [[= -> ->]|Hin]%elem_of_cons; rewrite Hn; [lia|].
      specialize (Hseq s w' Hin). lia.
    + destruct (ct_unstampable (wl_connection l)) eqn:Eu.
      { left. unfold record. rewrite He. simpl. by rewrite Eu. }
      destruct Hc as [?|Hc]; [congruence|].
      destruct (unstampable_dec w) as [-> |Hw].
      { left. unfold record. rewrite He. simpl. by rewrite Eu. }
      right. intros s w' Hin Hlt. apply log_cover_record; try done.
      * apply elem_of_cons in Hin as [[= -> ->]|Hin]; [lia|]. specialize (Hseq s w' Hin). lia.
      * apply elem_of_cons in Hin as [[= -> ->]|Hin]; [by right|left; auto].
  - split; [done|auto with pgc|done|]. simpl. rewrite unstampable_stamp.
    destruct Hc as [?|Hc]; [by left|right]. intros s w Hin Hlt.
    specialize (Hc s w Hin Hlt). specialize (Hh s w Hin).
    unfold log_cover in *. destruct (write_relation w) as [relation|] eqn:Hr.
    + destruct Hc as (t & Ht & Hc). rewrite stamp_lookup, Ht. simpl. eexists. split; [done|].
      apply tiers_stamp_cover; [by eapply Hok|intros; apply Hh; [done|]|done].
      by intros ->.
    + destruct Hc as [-> Hc]. split; [done|]. apply connection_stamp_cover; [|done].
      intros. by apply Hh.
  - split; [done|auto with pgc|done|]. simpl. rewrite unstampable_purge.
    destruct Hc as [?|Hc]; [by left|right]. intros s w Hin Hlt.
    specialize (Hc s w Hin ltac:(lia)). unfold log_cover in *.
    destruct (write_relation w) as [relation|] eqn:Hr.
    + destruct Hc as (t & Ht & Hc). rewrite purge_lookup, Ht. simpl.
      apply tiers_purge_cover; [lia|done].
    + destruct Hc as [-> Hc]. split; [done|]. apply connection_purge_cover; [lia|done].
Qed.

(** ** Safety of the verdict *)

Lemma tiers_cover_aggregate s lsn w t :
  tiers_cover s lsn w t -> exists x, x ∈ aggregates_bounded t /\ covers x.2 w.
Proof.
  unfold aggregates_bounded. intros [(latest & agg & -> & _ & Hc)|(tier & Hin & _ & Hc)].
  - exists (None, agg). split; [|done]. apply elem_of_app. right. by left.
  - exists (Some (wt_bound tier), wt_aggregate tier). split; [|done].
    apply elem_of_app. left. apply list_elem_of_fmap. by exists tier.
Qed.

(** A log with a pending write lets a read through only when the write's table is
    none of the read's, or the two are disjoint. *)
Lemma log_decide_safe commit l h wm tables rr s w :
  log_inv commit l h wm -> serves (log_decide l tables rr) = true ->
  (s, w) ∈ h -> (wm < commit s)%N ->
  exists relation, write_relation w = Some relation /\
    forall table, table ∈ tables -> tn_name table = rr_name relation ->
      schema_matches (rr_schema relation) (tn_schema table) = true ->
      write_disjoint rr w = true.
Proof.
  intros [_ _ _ Hc] [Hconn Hs]%log_decide_serves Hin Hlt.
  unfold connection_is_empty in Hconn. bool_hyps.
  destruct Hc as [?|Hc]; [congruence|]. specialize (Hc s w Hin Hlt). unfold log_cover in Hc.
  destruct (write_relation w) as [relation|] eqn:Hr.
  - destruct Hc as (t & Ht & Hc). exists relation. split; [done|].
    intros table Htab Hn Hsch. destruct (tiers_cover_aggregate _ _ _ _ Hc) as (x & Hx & Hcov).
    apply Hcov, (Hs table x Htab). apply table_aggregates_elem.
    exists (rr_schema relation), t. by rewrite Hn.
  - exfalso. destruct Hc as [_ [(a & Ha & _)|(b & Hb & _)]]; rewrite ?Ha, ?Hb in *;
      match goal with H : ~ is_Some (Some _) |- _ => apply H end; by eexists.
Qed.

Lemma log_empty_serves l tables : log_is_empty l = true -> serves (log_decide l tables None) = true.
Proof.
  unfold log_is_empty. intros [Ht%is_nil_map Hc]%andb_true_iff.
  apply log_decide_serves. split; [done|]. intros table x _.
  unfold table_aggregates. rewrite Ht, lookup_empty. by intros ?%not_elem_of_nil.
Qed.

(** A read the gate lets through was served by the log, purged or empty, with the
    ranges the gate derived or with none. *)
Lemma raw_gate_decides commit l h wm settled tables resolved :
  LogRun commit l h wm -> (raw_gate l settled tables resolved).2 = true ->
  exists l' wm' rr, log_inv commit l' h wm' /\ (wm' <= N.max wm (default 0 settled))%N /\
    serves (log_decide l' tables rr) = true /\
    (rr = None \/ rr = read_column_ranges tables resolved l').
Proof.
  intros Hrun Hserved. unfold raw_gate in Hserved. destruct (log_is_empty l) eqn:Ee.
  { exists l, wm, None. split_and!; [by apply log_run_inv|lia|by apply log_empty_serves|by left]. }
  destruct settled as [watermark|]; simpl in *.
  - exists (purge l watermark), (N.max wm watermark). eexists.
    split_and!; [by apply log_run_inv, run_purge|done|exact Hserved|].
    destruct (log_has_row_predicates _); auto.
  - exists l, wm. eexists. split_and!; [by apply log_run_inv|lia|exact Hserved|].
    destruct (log_has_row_predicates _); auto.
Qed.

(** ** Draining *)

Lemma list_max_ge l x : x ∈ l -> exists m, list_max l = Some m /\ (x <= m)%N.
Proof.
  induction l as [|y l IH] using rev_ind; [by intros ?%not_elem_of_nil|].
  unfold list_max. rewrite fold_left_app. simpl. fold (list_max l).
  intros [Hin|Hin%list_elem_of_singleton]%elem_of_app.
  - destruct (IH Hin) as (m & -> & Hm). eexists. split; [done|lia].
  - subst y. eexists. split; [done|]. destruct (list_max l); lia.
Qed.

Lemma all_tiers_elem l name schema t : log_tiers l name schema = Some t -> t ∈ all_tiers l.
Proof.
  unfold log_tiers, all_tiers. intros (bucket & Hb & Ht)%bind_Some. apply flat_map_elem.
  exists (name, bucket). split; [by apply elem_of_map_to_list|].
  apply list_elem_of_fmap. exists (schema, t). split; [done|]. by apply elem_of_map_to_list.
Qed.

Lemma stamp_seq_table l name schema t seq agg :
  log_tiers l name schema = Some t -> tt_active t = Some (seq, agg) ->
  exists q, stamp_seq l = Some q /\ (seq <= q)%N.
Proof.
  intros Ht%all_tiers_elem Ha. apply list_max_ge, elem_of_app. left.
  apply flat_map_elem. exists t. split; [done|]. rewrite Ha. by left.
Qed.

Lemma stamp_seq_connection l seq :
  ct_active (wl_connection l) = Some seq -> exists q, stamp_seq l = Some q /\ (seq <= q)%N.
Proof. intros Ha. apply list_max_ge, elem_of_app. right. rewrite Ha. by left. Qed.

(** One round of maintenance: stamp what is stampable, then purge. *)
Definition probe_stamp (l : WriteLog) (lsn : Lsn) : WriteLog :=
  match stamp_seq l with Some q => stamp l q lsn | None => l end.

Lemma tiers_stamp_drained q lsn wm t :
  (forall seq agg, tt_active t = Some (seq, agg) -> (seq <= q)%N) ->
  (lsn <= wm)%N -> Forall (fun tier => wt_bound tier <= wm)%N (tt_waiting t) ->
  tiers_purge wm (tiers_stamp q lsn t) = None.
Proof.
  intros Ha Hlsn Hw.
  assert (Hnone : forall t', tt_active t' = None ->
    Forall (fun tier => wt_bound tier <= wm)%N (tt_waiting t') -> tiers_purge wm t' = None).
  { intros t' Hact Hw'. unfold tiers_purge, tiers_is_empty. simpl. rewrite Hact.
    replace (List.filter _ (tt_waiting t')) with ([] : list WaitingTier); [done|].
    symmetry. clear Hact. induction Hw' as [|x l Hx _ IH]; [done|]. simpl.
    destruct (N.ltb_spec wm (wt_bound x)); [lia|done]. }
  unfold tiers_stamp. destruct (tt_active t) as [[seq agg]|] eqn:Ea; [|by apply Hnone].
  specialize (Ha _ _ eq_refl). apply N.leb_le in Ha as ->. cbn zeta. case_match eqn:En.
  - apply Hnone; [done|]. simpl. apply Forall_insert; [done|]. simpl.
    case_match; [|done]. rewrite Forall_elem in Hw. apply list_elem_of_lookup_2 in En.
    specialize (Hw _ En). lia.
  - apply Hnone; [done|]. simpl. apply Forall_app. split; [done|]. by apply Forall_singleton.
Qed.

Lemma connection_drained l lsn wm :
  ct_unstampable (wl_connection l) = false -> (lsn <= wm)%N ->
  (forall bound, ct_waiting (wl_connection l) = Some bound -> (bound <= wm)%N) ->
  connection_is_empty (wl_connection (purge (probe_stamp l lsn) wm)) = true.
Proof.
  intros Hu Hlsn Hb. simpl. set (c := wl_connection (probe_stamp l lsn)).
  assert (Hc : ct_active c = None /\ ct_unstampable c = false /\
    forall b, ct_waiting c = Some b -> (b <= wm)%N).
  { unfold c, probe_stamp. destruct (ct_active (wl_connection l)) as [seq|] eqn:Ea.
    - destruct (stamp_seq_connection l seq Ea) as (q & -> & Hle). simpl.
      unfold connection_stamp. rewrite Hu, Ea. apply N.leb_le in Hle as ->. simpl.
      split_and!; [done..|]. intros b [= <-].
      destruct (ct_waiting (wl_connection l)) as [p|]; [specialize (Hb p eq_refl)|]; lia.
    - destruct (stamp_seq l); simpl; [|done]. unfold connection_stamp. by rewrite Hu, Ea. }
  destruct Hc as (Ha & Hu' & Hb'). unfold connection_is_empty, connection_purge.
  destruct (ct_waiting c) as [b|] eqn:Ew; [|by rewrite Ew, Ha, Hu'].
  specialize (Hb' b eq_refl). apply N.leb_le in Hb' as ->. simpl. by rewrite Ha, Hu'.
Qed.

Lemma purge_tables_empty l wm :
  (forall name schema, log_tiers (purge l wm) name schema = None) ->
  wl_tables (purge l wm) = ∅.
Proof.
  intros Hn. apply map_eq. intros name. rewrite lookup_empty. specialize (Hn name).
  unfold log_tiers in Hn. destruct (wl_tables (purge l wm) !! name) as [bucket|] eqn:E; [|done].
  exfalso. simpl in E. rewrite lookup_omap in E. apply bind_Some in E as (b & _ & Hb).
  unfold bucket_purge in Hb. case_match eqn:Eb; [done|]. injection Hb as <-.
  apply not_true_iff_false in Eb. apply Eb, is_nil_map, map_eq. intros schema.
  rewrite lookup_empty. apply Hn.
Qed.

(** ** Clearance *)

Lemma blocker_fold_stamped bs acc b :
  fold_left blocker_add bs acc = Some (Stamped b) ->
  (forall x, x ∈ option_list acc ++ bs -> exists a, x = Stamped a /\ (a <= b)%N) /\
  Stamped b ∈ option_list acc ++ bs.
Proof.
  revert acc. induction bs as [|x bs IH]; intros acc; cbn [fold_left].
  { intros ->. simpl. split; [|by left]. intros x [-> |[]%not_elem_of_nil]%elem_of_cons. eauto. }
  intros [Hall Hin]%IH. unfold blocker_add in *.
  destruct acc as [prior|]; simpl in *; [|done].
  destruct (Hall (blocker_merge prior x)) as (m & Hm & Hle); [by left|].
  destruct prior as [|p], x as [|a]; simpl in Hm; try done. injection Hm as <-. split.
  - intros y [-> |[-> |Hy]%elem_of_cons]%elem_of_cons; [exists p|exists a|];
      [split; [done|lia]..|]. apply Hall. by right.
  - apply elem_of_cons in Hin as [Hb|Hin]; [|by do 2 right]. injection Hb as ->.
    destruct (N.max_spec p a) as [[_ ->]|[_ ->]]; [right; by left|by left].
Qed.

Lemma aggregates_bounded_purge wm t x :
  x ∈ default [] (aggregates_bounded <$> tiers_purge wm t) <->
  x ∈ aggregates_bounded t /\ match x.1 with Some lsn => (wm < lsn)%N | None => True end.
Proof.
  trans (x ∈ aggregates_bounded
    {| tt_waiting := List.filter (fun tier => (wm <? wt_bound tier)%N) (tt_waiting t);
       tt_active := tt_active t |}).
  { unfold tiers_purge. destruct (tiers_is_empty _) eqn:E; [|done]. simpl.
    unfold tiers_is_empty in E. simpl in E. bool_hyps. unfold aggregates_bounded. simpl.
    destruct (List.filter _ _); [|done].
    destruct (tt_active t) as [[? ?]|]; [|done]. exfalso.
    match goal with H : ~ is_Some _ |- _ => apply H end. by eexists. }
  unfold aggregates_bounded. simpl. rewrite !elem_of_app, !list_elem_of_fmap. split.
  - intros [(tier & -> & [Hin Hlt]%filter_elem)|Hin].
    + split; [left; by exists tier|]. simpl. by apply N.ltb_lt.
    + split; [by right|]. destruct (tt_active t) as [[? ?]|];
        [apply list_elem_of_singleton in Hin as ->|apply not_elem_of_nil in Hin]; done.
  - intros [[(tier & -> & Hin)|Hin] Hx]; [left|by right]. exists tier. split; [done|].
    apply filter_elem. split; [done|]. by apply N.ltb_lt.
Qed.

Lemma table_aggregates_purge l wm table x :
  x ∈ table_aggregates (purge l wm) table <->
  x ∈ table_aggregates l table /\ match x.1 with Some lsn => (wm < lsn)%N | None => True end.
Proof.
  rewrite !table_aggregates_elem. setoid_rewrite purge_lookup. split.
  - intros (schema & t' & (t & Ht & Hp)%bind_Some & Hs & Hx).
    pose proof (aggregates_bounded_purge wm t x) as H. rewrite Hp in H. simpl in H.
    apply H in Hx as [Hx ?]. split; [|done]. by exists schema, t.
  - intros ((schema & t & Ht & Hs & Hx) & Hb). exists schema.
    pose proof (proj2 (aggregates_bounded_purge wm t x) (conj Hx Hb)) as H.
    destruct (tiers_purge wm t) as [t'|] eqn:Hp; simpl in H; [|by apply not_elem_of_nil in H].
    exists t'. by rewrite Ht.
Qed.

Lemma blockers_elem rr aggs y :
  y ∈ blockers rr aggs <->
  exists x, x ∈ aggs /\ aggregate_serves rr x.2 = false /\ y = tier_blocker x.1.
Proof.
  unfold blockers. rewrite list_elem_of_fmap. setoid_rewrite filter_elem.
  setoid_rewrite negb_true_iff. naive_solver.
Qed.

(** ** Properties *)

(** C2: a served read is not behind the connection's own writes.  Take any run
    of the log: writes recorded, honest probes stamping them, purges up to
    settled watermarks.  If the gate lets a read through, a write whose commit is
    past every settled watermark is not connection-scoped, and if it touched a
    table the read may reference, that table is the read's only one and the write
    is provably disjoint from the ranges of the read's completely analysed
    WHERE. *)
Theorem gate_reads_own_writes (commit : N -> Lsn) (l : WriteLog) (h : list (N * WriteClass))
    (wm : Lsn) (settled : option Lsn) (tables : list TableNode)
    (resolved : option ResolvedSelectNode) (s : N) (w : WriteClass)
    (Hrun : LogRun commit l h wm)
    (Hserved : (raw_gate l settled tables resolved).2 = true)
    (Hwritten : (s, w) ∈ h)
    (Hpending : (N.max wm (default 0 settled) < commit s)%N) :
  exists relation, write_relation w = Some relation /\
    forall table, table ∈ tables -> tn_name table = rr_name relation ->
      schema_matches (rr_schema relation) (tn_schema table) = true ->
      tables = [table] /\
      exists select qc, resolved = Some select /\
        analyze_query_constraints select = Some qc /\
        qc_where_analysis_complete qc = true /\
        statement_disjoint w (table_column_ranges qc (tn_name table)) = true.
Proof.
  destruct (raw_gate_decides commit l h wm settled tables resolved Hrun Hserved)
    as (l' & wm' & rr & Hinv & Hle & Hs & Hrr).
  assert (Hlt : (wm' < commit s)%N) by lia.
  destruct (log_decide_safe _ _ _ _ _ _ _ _ Hinv Hs Hwritten Hlt) as (relation & Hr & Hd).
  exists relation. split; [done|]. intros table Hin Hn Hsch.
  specialize (Hd table Hin Hn Hsch). destruct Hrr as [-> | ->]; [done|].
  unfold read_column_ranges in Hd.
  destruct tables as [|t [|? ?]]; simpl in Hd; try done.
  apply list_elem_of_singleton in Hin as ->. split; [done|].
  destruct (negb _); [done|]. destruct resolved as [select|]; [|done]. simpl in Hd.
  destruct (analyze_query_constraints select) as [qc|] eqn:Eq; [|done]. simpl in Hd.
  destruct (qc_where_analysis_complete qc) eqn:Ec; [|done]. simpl in Hd.
  by exists select, qc.
Qed.

(** C7: the log's memory is bounded per table.  In any run a table holds at most
    [WAITING_TIERS_MAX] stamped tiers beside its active one, and every tier's
    aggregate keeps its caps: inserted rows and cells, merged tuples (counted
    exactly by [merged_predicates]) and range maps. *)
Theorem write_log_bounded (commit : N -> Lsn) (l : WriteLog) (h : list (N * WriteClass))
    (wm : Lsn) (name : string) (schema : option string) (t : TableTiers)
    (Hrun : LogRun commit l h wm)
    (Hlookup : log_tiers l name schema = Some t) :
  (length (tt_waiting t) <= WAITING_TIERS_MAX)%nat /\
  forall agg, agg ∈ aggregates t -> aggregate_ok agg.
Proof.
  destruct (li_ok _ _ _ _ (log_run_inv _ _ _ _ Hrun) _ _ _ Hlookup) as [Hd Hw Ha].
  split; [done|]. unfold aggregates, aggregates_bounded. intros agg.
  rewrite map_app, elem_of_app. intros [Hin|Hin].
  - apply list_elem_of_fmap in Hin as (x & -> & Hx).
    apply list_elem_of_fmap in Hx as (tier & -> & Htier).
    rewrite Forall_elem in Hw. by apply Hw.
  - destruct (tt_active t) as [[seq a]|]; [|by apply not_elem_of_nil in Hin].
    apply list_elem_of_singleton in Hin as ->. by eapply Ha.
Qed.

(** The log drains.  Unless a transaction was prepared on the connection,
    one probe round (stamp everything up to [stamp_seq]) followed by a purge at a
    watermark past the probe's LSN and past the older bounds leaves the log
    empty, so reads are served again. *)
Theorem write_log_drains (l : WriteLog) (lsn watermark : Lsn)
    (Hstampable : ct_unstampable (wl_connection l) = false)
    (Hlsn : (lsn <= watermark)%N)
    (Hbounds : forall name schema t, log_tiers l name schema = Some t ->
       Forall (fun tier => wt_bound tier <= watermark)%N (tt_waiting t))
    (Hconnection : forall bound, ct_waiting (wl_connection l) = Some bound ->
       (bound <= watermark)%N) :
  log_is_empty (purge (probe_stamp l lsn) watermark) = true.
Proof.
  unfold log_is_empty. apply andb_true_iff. split.
  - apply is_nil_map, purge_tables_empty. intros name schema. rewrite purge_lookup.
    unfold probe_stamp. destruct (stamp_seq l) as [q|] eqn:Eq.
    + rewrite stamp_lookup. destruct (log_tiers l name schema) as [t|] eqn:Et; [|done].
      simpl. apply tiers_stamp_drained; [|done|by eapply Hbounds].
      intros seq agg Ha. destruct (stamp_seq_table _ _ _ _ _ _ Et Ha) as (q' & ? & ?). by simplify_eq.
    + destruct (log_tiers l name schema) as [t|] eqn:Et; [|done]. simpl.
      assert (Ha : tt_active t = None).
      { destruct (tt_active t) as [[seq agg]|] eqn:Ea; [|done].
        destruct (stamp_seq_table _ _ _ _ _ _ Et Ea) as (q' & ? & ?). congruence. }
      rewrite <- (tiers_stamp_drained 0 lsn watermark t); [|by rewrite Ha|done|by eapply Hbounds].
      unfold tiers_stamp. by rewrite Ha.
  - by apply connection_drained.
Qed.

(** C6: for a read of a single table, a forward's bound is the exact clearance point. When
    it is forwarded because of stamped writes recorded for that table, with bound [b], then
    once the log is purged at a watermark the same read is served if and only if the
    watermark has reached [b]. (For several tables the bound is that of the first blocking
    table, and a later one may keep the read back longer; an unstamped or connection-wide
    write gives no bound.) *)
Theorem forward_clears_at_bound (l : WriteLog) (table : TableNode)
    (read_ranges : option (gmap string ColumnRange)) (b watermark : Lsn)
    (Hforward : log_decide l [table] read_ranges = RdForward RfTable (Stamped b)) :
  serves (log_decide (purge l watermark) [table] read_ranges) = true <-> (b <= watermark)%N.
Proof.
  unfold log_decide in Hforward.
  destruct (connection_is_empty (wl_connection l)) eqn:Ec; [|done]. simpl in Hforward.
  pose proof (table_intersects_blockers l table read_ranges kinds_default) as Hb.
  destruct (table_intersects l table read_ranges kinds_default) as [[b'|] k];
    [|by destruct (kinds_any k)].
  injection Hforward as ->. simpl in Hb. symmetry in Hb.
  apply blocker_fold_stamped in Hb as [Hall Hin]. simpl in Hall, Hin.
  assert (Ec' : connection_is_empty (wl_connection (purge l watermark)) = true).
  { revert Ec. simpl. unfold connection_is_empty, connection_purge.
    destruct (ct_waiting (wl_connection l)) eqn:E; [done|]. by rewrite E. }
  rewrite log_decide_serves. split.
  - intros [_ Hs]. apply blockers_elem in Hin as (x & Hx & Hns & Hxb).
    destruct (N.le_gt_cases b watermark) as [|Hgt]; [done|].
    rewrite (Hs table x) in Hns; [done|by left|].
    apply table_aggregates_purge. split; [done|].
    by destruct (x.1); simpl in Hxb; simplify_eq.
  - intros Hle. split; [done|]. intros t x ->%list_elem_of_singleton [Hx Hlt]%table_aggregates_purge.
    destruct (aggregate_serves read_ranges x.2) eqn:Es; [done|]. exfalso.
    destruct (Hall (tier_blocker x.1)) as (a & Ha & Hab).
    { apply blockers_elem. by exists x. }
    destruct (x.1); simpl in Ha; simplify_eq. lia.
Qed.

(** ** Witnesses *)

Module WriteLogWitness.
Import AggregateWitness ExtractGap.

(** [SELECT * FROM t WHERE id = 10], with [DELETE FROM t WHERE id = 7 AND
    price = 1] stamped and [UPDATE t SET price = 9 WHERE id = 5] unstamped. *)
Definition read10 : ResolvedSelectNode :=
  select_all [table "t" None 1] (Some (eq_lit (on_table "t" "id" TInt4) 10)).
Definition node_t : TableNode := {| tn_schema := Some "public"; tn_name := "t"; tn_alias := None |}.
Definition log1 : WriteLog := stamp (record (with_enabled true) (WcDeleteRows delete7)) 0 100.
Definition log2 : WriteLog := purge (record log1 (WcUpdateRows update5)) 50.
Definition history2 : list (N * WriteClass) := [(1%N, WcUpdateRows update5); (0%N, WcDeleteRows delete7)].
Definition commit2 (s : N) : N := if bool_decide (s = 0%N) then 90%N else 120%N.

Lemma log2_run : LogRun commit2 log2 history2 50.
Proof.
  apply (run_purge _ _ _ 0). apply (run_record _ log1). apply run_stamp.
  - apply (run_record _ (with_enabled true)). apply run_new.
  - intros s w [= -> ->]%list_elem_of_singleton _ _. by vm_compute.
Qed.

Lemma gate_reads_own_writes_witness :
  (raw_gate log2 (Some 95%N) [node_t] (Some read10)).2 = true /\
  exists qc, analyze_query_constraints read10 = Some qc /\
    statement_disjoint (WcUpdateRows update5) (table_column_ranges qc "t") = true.
Proof.
  split; [by vm_compute|].
  destruct (gate_reads_own_writes commit2 log2 history2 50 (Some 95%N) [node_t] (Some read10)
    1 (WcUpdateRows update5) log2_run) as (relation & Hr & Hd);
    [by vm_compute|by left|by vm_compute|].
  injection Hr as <-.
  destruct (Hd node_t) as (_ & select & qc & Hs & Hq & _ & Hdis); [by left|done|done|].
  exists qc. injection Hs as <-. done.
Defined.

Definition tiers2 : TableTiers := default tiers_default (log_tiers log2 "t" None).

Lemma write_log_bounded_witness : (length (tt_waiting tiers2) <= WAITING_TIERS_MAX)%nat.
Proof. by apply (write_log_bounded commit2 log2 history2 50 "t" None tiers2 log2_run). Defined.

Lemma write_log_drains_witness :
  log_is_empty log2 = false /\ log_is_empty (purge (probe_stamp log2 130) 130) = true.
Proof.
  split; [by vm_compute|]. apply (write_log_drains log2 130 130); [done|done| |done].
  intros name schema t Ht%all_tiers_elem.
  assert (Hb : forallb (fun t => forallb (fun tier => wt_bound tier <=? 130)%N (tt_waiting t))
    (all_tiers log2) = true) by by vm_compute.
  rewrite forallb_elem in Hb. specialize (Hb t Ht). rewrite forallb_elem in Hb.
  apply Forall_elem. intros tier Hin. by apply N.leb_le, Hb.
Defined.

(** [TRUNCATE t], stamped at 100: every read of [t] waits for it. *)
Definition log3 : WriteLog := stamp (record (with_enabled true) (WcTable rel_t)) 0 100.

Lemma forward_clears_at_bound_witness :
  serves (log_decide (purge log3 100) [node_t] None) = true /\
  serves (log_decide (purge log3 99) [node_t] None) <> true.
Proof.
  split.
  - by apply (forward_clears_at_bound log3 node_t None 100 100).
  - intros H. apply (forward_clears_at_bound log3 node_t None 100 99) in H; [lia|].
    by vm_compute.
Defined.
End WriteLogWitness.
