(* ===== verification/Egress.v ===== *)
(** * The ordered egress queue of a connection

    Models proxy/egress.rs: every client request reserves a slot in receive order, origin
    relays, synthesised replies and cache serves complete them, and only the head slot is
    written.  A run ([egress_step]) carries two ghosts, the responses the requests are
    owed and the bytes the client has received.  The theorems: the client receives each
    request's own response, whole and in request order, although the producers finish out
    of order; and a queue that waits for nobody drains.  Both are about the runs in which
    origin sends nothing unasked and the client awaits the reply to a Flush
    ([disciplined]); [EgressGap] shows the two histories outside them that wedge a
    connection or overtake a reply. *)
From Stdlib Require Import Strings.Byte.
From S2P Require Import Prelude.

Notation Bytes := (list byte).

(** ** The queue *)

Inductive EgressSlot (C : Type) :=
| SlotOrigin (buf : list Bytes) (sealed : bool)
| SlotSynth (buf : Bytes)
| SlotCache (msg : option C) (serving : bool).
Arguments SlotOrigin {C} _ _.
Arguments SlotSynth {C} _.
Arguments SlotCache {C} _ _.

Notation EgressQueue C := (list (EgressSlot C)).

Section Queue.
Context {C : Type}.
Implicit Types (q : EgressQueue C).

Definition unsealed_origin (s : EgressSlot C) : bool :=
  match s with SlotOrigin _ sealed => negb sealed | _ => false end.

Definition origin_all_sealed q : bool := negb (existsb unsealed_origin q).

Definition origin_open q : EgressQueue C := q ++ [SlotOrigin [] false].

(** Update the first element that satisfies [p]: the slot [oldest_unsealed_origin]
    lends out. *)
Fixpoint update_first {A} (p : A -> bool) (f : A -> A) (l : list A) : list A :=
  match l with
  | [] => []
  | x :: l => if p x then f x :: l else x :: update_first p f l
  end.

Definition oldest_unsealed_origin (f : EgressSlot C -> EgressSlot C) q : EgressQueue C :=
  update_first unsealed_origin f q.

Definition slot_push (bytes : Bytes) (s : EgressSlot C) : EgressSlot C :=
  match s with SlotOrigin buf sealed => SlotOrigin (buf ++ [bytes]) sealed | _ => s end.

Definition slot_seal (s : EgressSlot C) : EgressSlot C :=
  match s with SlotOrigin buf _ => SlotOrigin buf true | _ => s end.

Definition origin_append (bytes : Bytes) q : EgressQueue C :=
  match bytes with
  | [] => q
  | _ =>
      let q := if existsb unsealed_origin q then q else origin_open q in
      oldest_unsealed_origin (slot_push bytes) q
  end.

Fixpoint prune_done q : EgressQueue C :=
  match q with
  | SlotOrigin [] true :: q => prune_done q
  | _ => q
  end.

Definition origin_seal q : EgressQueue C := prune_done (oldest_unsealed_origin slot_seal q).

Definition synth_push (buf : Bytes) q : EgressQueue C :=
  match buf with [] => q | _ => q ++ [SlotSynth buf] end.

Definition cache_push (msg : C) q : EgressQueue C := q ++ [SlotCache (Some msg) false].

Definition has_writable q : bool :=
  match q with
  | SlotSynth _ :: _ => true
  | SlotOrigin buf _ :: _ => match buf with [] => false | _ => true end
  | SlotCache _ _ :: _ | [] => false
  end.

Definition write_chunk q : Bytes :=
  match q with
  | SlotSynth buf :: _ => buf
  | SlotOrigin buf _ :: _ => match buf with chunk :: _ => chunk | [] => [] end
  | _ => []
  end.

(** The [while n > 0] loop of [advance] over an origin slot's chunks. *)
Fixpoint chunks_advance (n : nat) (buf : list Bytes) : list Bytes :=
  match buf with
  | [] => []
  | chunk :: rest =>
      match n with
      | 0 => buf
      | _ =>
          let take := n `min` length chunk in
          match drop take chunk with
          | [] => chunks_advance (n - take) rest
          | chunk' => chunk' :: rest
          end
      end
  end.

Definition advance (n : nat) q : EgressQueue C :=
  match q with
  | [] => []
  | SlotSynth buf :: rest =>
      match drop (n `min` length buf) buf with
      | [] => rest
      | buf' => SlotSynth buf' :: rest
      end
  | SlotOrigin buf sealed :: rest =>
      match chunks_advance n buf, sealed with
      | [], true => rest
      | buf', _ => SlotOrigin buf' sealed :: rest
      end
  | SlotCache _ _ :: _ => q
  end.

Definition cache_dispatch q : option C * EgressQueue C :=
  match q with
  | SlotCache msg false :: rest => (msg, SlotCache None true :: rest)
  | _ => (None, q)
  end.

Definition cache_to_origin q : EgressQueue C :=
  match q with
  | SlotCache _ _ :: rest => SlotOrigin [] false :: rest
  | _ => q
  end.

Definition cache_done q : EgressQueue C := tail q.

End Queue.

(** ** What a run owes the client *)

Inductive Source := FromOrigin | FromSynth | FromCache.

#[global] Instance source_eq_dec : EqDecision Source.
Proof. solve_decision. Defined.

(** The response to one request, as far as its producer has made it. *)
Record Response := { rs_source : Source; rs_bytes : Bytes; rs_closed : bool }.

Definition response (s : Source) (b : Bytes) (closed : bool) : Response :=
  {| rs_source := s; rs_bytes := b; rs_closed := closed |}.
Definition produce (b : Bytes) (r : Response) : Response :=
  response (rs_source r) (rs_bytes r ++ b) (rs_closed r).
Definition close (r : Response) : Response :=
  response (rs_source r) (rs_bytes r) true.
Definition to_origin (r : Response) : Response :=
  response FromOrigin (rs_bytes r) (rs_closed r).

Definition stream (rs : list Response) : Bytes := concat (map rs_bytes rs).

(** The client has received the first [k] responses, all complete, and a prefix of
    the next one. *)
Definition delivered_in_order (rs : list Response) (out : Bytes) : Prop :=
  exists k p,
    Forall (fun r => rs_closed r = true) (take k rs) /\
    out = stream (take k rs) ++ p /\
    p `prefix_of` match rs !! k with Some r => rs_bytes r | None => [] end.

Record World (C : Type) := {
  w_queue : EgressQueue C;
  w_responses : list Response;  (* one per request, in receive order *)
  w_pending : list nat;         (* requests sent to origin and unanswered, in sending order *)
  w_client : Bytes;             (* everything written to the client's socket *)
  w_flush : bool;               (* [flush_describe_pending] *)
}.
Arguments w_queue {C}. Arguments w_responses {C}. Arguments w_pending {C}. Arguments w_client {C}.
Arguments w_flush {C}.

Definition flagged {C} (flush : bool) (q : EgressQueue C) rs pend out : World C :=
  {| w_queue := q; w_responses := rs; w_pending := pend; w_client := out; w_flush := flush |}.
#[local] Notation world := (flagged false).
Definition world_new {C} : World C := world [] [] [] [].

Definition is_cache {C} (s : EgressSlot C) : bool :=
  match s with SlotCache _ _ => true | _ => false end.

(** [Regular] steps, the seal of a Flush's slot, and bytes origin sends unasked. *)
Inductive EgressEvent := Regular | FlushSeal | Unsolicited (bytes : Bytes).

Definition close_oldest (pend : list nat) (rs : list Response) : list Response :=
  match pend with i :: _ => alter close i rs | [] => rs end.

(** The steps of a connection.  A request is read from the client only while no cache
    slot is queued ([ProxyMode::OriginDrain] stops reading), origin answers the requests
    it was sent in the order it was sent them, and a response's last message is its
    ReadyForQuery, so a response is sealed with bytes in it.  A Flush forwards what is
    buffered in a slot of its own, whose response ends without a ReadyForQuery: reading
    the next client message seals the oldest open slot before that message is handled.
    What origin sends while it owes no response goes to a slot opened for it.  The
    worker writes to the client's socket itself while its slot is being served. *)
Inductive egress_step {C} : EgressEvent -> World C -> World C -> Prop :=
| step_forward q rs pend out :
    existsb is_cache q = false ->
    egress_step Regular (world q rs pend out)
      (world (origin_open q) (rs ++ [response FromOrigin [] false])
         (pend ++ [length rs]) out)
| step_flush q rs pend out :
    existsb is_cache q = false ->
    egress_step Regular (world q rs pend out)
      (flagged true (origin_open q) (rs ++ [response FromOrigin [] false])
         (pend ++ [length rs]) out)
| step_flush_seal q rs pend out :
    existsb is_cache q = false ->
    egress_step FlushSeal (flagged true q rs pend out)
      (world (origin_seal q) (close_oldest pend rs) (tail pend) out)
| step_synth q rs pend out b :
    existsb is_cache q = false -> b <> [] ->
    egress_step Regular (world q rs pend out)
      (world (synth_push b q) (rs ++ [response FromSynth b true]) pend out)
| step_cacheable q rs pend out msg :
    existsb is_cache q = false ->
    egress_step Regular (world q rs pend out)
      (world (cache_push msg q) (rs ++ [response FromCache [] false]) pend out)
| step_answer fl q rs i pend out b :
    egress_step Regular (flagged fl q rs (i :: pend) out)
      (flagged fl (origin_append b q) (alter (produce b) i rs) (i :: pend) out)
| step_answered fl q rs i r pend out :
    rs !! i = Some r -> rs_bytes r <> [] ->
    egress_step Regular (flagged fl q rs (i :: pend) out)
      (flagged fl (origin_seal q) (alter close i rs) pend out)
| step_unsolicited fl q rs out b :
    egress_step (Unsolicited b) (flagged fl q rs [] out)
      (flagged fl (origin_append b q) rs [] out)
| step_write fl q rs pend out n :
    n <= length (write_chunk q) ->
    egress_step Regular (flagged fl q rs pend out)
      (flagged fl (advance n q) rs pend (out ++ take n (write_chunk q)))
| step_dispatch fl q rs pend out msg q' :
    cache_dispatch q = (Some msg, q') ->
    egress_step Regular (flagged fl q rs pend out) (flagged fl q' rs pend out)
| step_worker fl q rs pend out b q' :
    q = SlotCache None true :: q' ->
    egress_step Regular (flagged fl q rs pend out)
      (flagged fl q (alter (produce b) (pred (length rs)) rs) pend (out ++ b))
| step_served fl q rs pend out q' :
    q = SlotCache None true :: q' ->
    egress_step Regular (flagged fl q rs pend out)
      (flagged fl (cache_done q) (alter close (pred (length rs)) rs) pend out)
| step_fallback fl q rs pend out q' r :
    q = SlotCache None true :: q' ->
    rs !! pred (length rs) = Some r -> rs_bytes r = [] ->
    egress_step Regular (flagged fl q rs pend out)
      (flagged fl (cache_to_origin q) (alter to_origin (pred (length rs)) rs)
         (pend ++ [pred (length rs)]) out).

(** The discipline the code relies on: origin sends nothing while it owes no response,
    and after a Flush the client reads the reply before it sends anything more (then
    the Flush is the one request origin still holds). *)
Definition disciplined {C} (e : EgressEvent) (w : World C) : Prop :=
  match e with
  | Regular => True
  | FlushSeal =>
      w_client w = stream (w_responses w) /\
      exists i r, w_pending w = [i] /\ w_responses w !! i = Some r /\ rs_bytes r <> []
  | Unsolicited _ => False
  end.

Definition disciplined_step {C} (w w' : World C) : Prop :=
  exists e, egress_step e w w' /\ disciplined e w.

(** ** The simulation *)

Definition unanswered (r : Response) : bool :=
  bool_decide (rs_source r = FromOrigin) && negb (rs_closed r).

(** The positions of the requests origin still has to answer. *)
Fixpoint unanswered_from (k : nat) (rs : list Response) : list nat :=
  match rs with
  | [] => []
  | r :: rs => if unanswered r then k :: unanswered_from (S k) rs else unanswered_from (S k) rs
  end.

(** Slot [s] still owes the client the response [r] but for its first [off] bytes. *)
Definition owes {C} (s : EgressSlot C) (off : nat) (r : Response) : Prop :=
  match s with
  | SlotOrigin buf sealed =>
      rs_source r = FromOrigin /\ rs_closed r = sealed /\ off <= length (rs_bytes r) /\
      concat buf = drop off (rs_bytes r) /\ Forall (fun c => c <> []) buf
  | SlotSynth b =>
      rs_source r = FromSynth /\ rs_closed r = true /\ off <= length (rs_bytes r) /\
      b = drop off (rs_bytes r) /\ b <> []
  | SlotCache msg serving =>
      rs_source r = FromCache /\ rs_closed r = false /\ off = length (rs_bytes r) /\
      (if serving then msg = None else rs_bytes r = [] /\ is_Some msg)
  end.

Fixpoint owes_all {C} (off : nat) (q : EgressQueue C) (rs : list Response) : Prop :=
  match q, rs with
  | [], [] => off = 0
  | s :: q, r :: rs => owes s off r /\ owes_all 0 q rs
  | _, _ => False
  end.

Definition settled {C} (s : EgressSlot C) : Prop :=
  match s with SlotOrigin [] true => False | _ => True end.

Definition head_bytes (rs : list Response) : Bytes :=
  match rs with r :: _ => rs_bytes r | [] => [] end.

(** [done] are the responses the client has in full, [off] bytes of the next one have
    been written, and the queue holds what is left. *)
Record synced {C} (done : list Response) (off : nat) (rest : list Response)
    (q : EgressQueue C) (out : Bytes) : Prop := {
  sy_closed : Forall (fun r => rs_closed r = true) done;
  sy_owes : owes_all off q rest;
  sy_out : out = stream done ++ take off (head_bytes rest);
}.

(** Only the last slot can be a cache slot. *)
Fixpoint cache_last {C} (q : EgressQueue C) : Prop :=
  match q with
  | [] => True
  | s :: q => (is_cache s = true -> q = []) /\ cache_last q
  end.

Definition egress_inv {C} (w : World C) : Prop :=
  exists done off rest,
    w_responses w = done ++ rest /\
    synced done off rest (w_queue w) (w_client w) /\
    Forall settled (w_queue w) /\
    cache_last (w_queue w) /\
    w_pending w = unanswered_from 0 (w_responses w).

Lemma stream_app a b : stream (a ++ b) = stream a ++ stream b.
Proof. unfold stream. by rewrite map_app, concat_app. Qed.

Lemma stream_snoc a r : stream (a ++ [r]) = stream a ++ rs_bytes r.
Proof. rewrite stream_app. unfold stream at 2. simpl. by rewrite app_nil_r. Qed.

Section Simulation.
Context {C : Type}.
Implicit Types (q : EgressQueue C) (s : EgressSlot C) (r : Response).

Lemma owes_unanswered s off r : owes s off r -> unsealed_origin s = unanswered r.
Proof.
  unfold unanswered.
  by destruct s; intros (-> & -> & _); simpl; rewrite ?bool_decide_true by done.
Qed.

Lemma update_first_app {A} (p : A -> bool) f a b :
  Forall (fun x => p x = false) a -> update_first p f (a ++ b) = a ++ update_first p f b.
Proof. induction 1 as [|x a Hx _ IH]; simpl; by rewrite ?Hx, ?IH. Qed.

Lemma update_first_id {A} (p : A -> bool) f (l : list A) :
  (forall x, f x = x) -> update_first p f l = l.
Proof. intros H. induction l as [|x l IH]; simpl; rewrite ?H, ?IH; [done|by destruct (p x)]. Qed.

Lemma closed_answered l :
  Forall (fun r => rs_closed r = true) l -> Forall (fun r => unanswered r = false) l.
Proof.
  rewrite !Forall_elem. intros H r Hr. unfold unanswered. rewrite (H r Hr). apply andb_false_r.
Qed.

Lemma owes_all_update (f : EgressSlot C -> EgressSlot C) (g : Response -> Response) off q rs :
  (forall s o r, owes s o r -> unsealed_origin s = true -> owes (f s) o (g r)) ->
  owes_all off q rs ->
  owes_all off (update_first unsealed_origin f q) (update_first unanswered g rs).
Proof.
  intros Hf. revert off rs. induction q as [|s q IH]; intros off [|r rs] H; simpl in *; try done.
  destruct H as [H1 H2]. rewrite (owes_unanswered _ _ _ H1).
  destruct (unanswered r) eqn:E; simpl; split; eauto.
  apply Hf; [done|]. by rewrite (owes_unanswered _ _ _ H1).
Qed.

Lemma owes_all_app off q rs s r :
  owes_all off q rs -> owes s 0 r -> owes_all off (q ++ [s]) (rs ++ [r]).
Proof.
  revert off rs. induction q as [|s' q IH]; intros off [|r' rs] H Hs; simpl in *; try done.
  - by subst off.
  - destruct H as [? ?]. eauto.
Qed.

Lemma owes_all_unsealed off q rs :
  owes_all off q rs -> existsb unsealed_origin q = existsb unanswered rs.
Proof.
  revert off rs. induction q as [|s q IH]; intros off [|r rs] H; simpl in *; try done.
  destruct H as [H1 H2]. by rewrite (owes_unanswered _ _ _ H1), (IH _ _ H2).
Qed.

Lemma head_bytes_update g off q rs :
  (forall r, exists b, rs_bytes (g r) = rs_bytes r ++ b) ->
  owes_all off q rs ->
  take off (head_bytes (update_first unanswered g rs)) = take off (head_bytes rs).
Proof.
  intros Hg. destruct q as [|s q], rs as [|r rs]; simpl; try done. intros [H _].
  destruct (unanswered r) eqn:E; [|done]. simpl. destruct (Hg r) as [b ->].
  apply take_app_le. destruct s; destruct H as (_ & _ & H & _); lia.
Qed.

Lemma synced_update f g done off rest q out :
  (forall s o r, owes s o r -> unsealed_origin s = true -> owes (f s) o (g r)) ->
  (forall r, exists b, rs_bytes (g r) = rs_bytes r ++ b) ->
  synced done off rest q out ->
  synced done off (update_first unanswered g rest) (update_first unsealed_origin f q) out.
Proof.
  intros Hf Hg [H1 H2 H3]. split; [done| |].
  - by apply owes_all_update.
  - erewrite head_bytes_update; eauto.
Qed.

Lemma synced_push done off rest q out s r :
  synced done off rest q out -> owes s 0 r ->
  synced done off (rest ++ [r]) (q ++ [s]) out.
Proof.
  intros [H1 H2 H3] Hs. split; [done|by apply owes_all_app|]. subst out. f_equal.
  destruct rest as [|r' rest]; [|done]. destruct q; [|done]. simpl in H2. by subst off.
Qed.

Lemma synced_pop done off r rest s q out :
  synced done off (r :: rest) (s :: q) out ->
  rs_closed r = true -> off <= length (rs_bytes r) -> drop off (rs_bytes r) = [] ->
  synced (done ++ [r]) 0 rest q out.
Proof.
  intros [H1 [_ H2] ->] Hc Ho Hd. split; [|done|].
  - apply Forall_app. auto.
  - rewrite stream_snoc. simpl. rewrite app_nil_r. f_equal.
    rewrite <- (take_drop off (rs_bytes r)) at 2. by rewrite Hd, app_nil_r.
Qed.

Lemma unanswered_from_app k a b :
  unanswered_from k (a ++ b) = unanswered_from k a ++ unanswered_from (k + length a) b.
Proof.
  revert k. induction a as [|r a IH]; intros k; simpl; [by rewrite Nat.add_0_r|].
  rewrite IH, Nat.add_succ_comm. by destruct (unanswered r).
Qed.

Lemma unanswered_from_first k g rs i p :
  unanswered_from k rs = i :: p -> k <= i /\ update_first unanswered g rs = alter g (i - k) rs.
Proof.
  revert k. induction rs as [|r rs IH]; intros k; simpl; [done|].
  destruct (unanswered r) eqn:E.
  - intros [= <- _]. by rewrite Nat.sub_diag.
  - intros H. apply IH in H as [H1 ->]. split; [lia|].
    by replace (i - k) with (S (i - S k)) by lia.
Qed.

Lemma unanswered_from_keep k g rs :
  (forall r, unanswered r = true -> unanswered (g r) = true) ->
  unanswered_from k (update_first unanswered g rs) = unanswered_from k rs.
Proof.
  intros Hg. revert k. induction rs as [|r rs IH]; intros k; simpl; [done|].
  destruct (unanswered r) eqn:E; simpl; [by rewrite Hg|]. by rewrite E, IH.
Qed.

Lemma unanswered_from_close k rs :
  unanswered_from k (update_first unanswered close rs) = tail (unanswered_from k rs).
Proof.
  revert k. induction rs as [|r rs IH]; intros k; simpl; [done|].
  destruct (unanswered r) eqn:E; simpl; [|by rewrite E, IH].
  unfold unanswered at 1. simpl. by rewrite andb_false_r.
Qed.

Lemma unanswered_from_existsb k rs i p :
  unanswered_from k rs = i :: p -> existsb unanswered rs = true.
Proof.
  revert k. induction rs as [|r rs IH]; intros k; simpl; [done|].
  destruct (unanswered r); simpl; eauto.
Qed.

(** *** Writing the head slot *)

Lemma chunks_advance_concat n (buf : list Bytes) :
  concat (chunks_advance n buf) = drop n (concat buf).
Proof.
  revert n. induction buf as [|c buf IH]; intros n; simpl; [by rewrite drop_nil|].
  destruct n as [|n]; [done|]. rewrite drop_app.
  destruct (decide (length c <= S n)) as [Hn|Hn].
  - replace (S n `min` length c) with (length c) by lia.
    rewrite drop_all, IH, (drop_ge c) by lia. done.
  - replace (S n `min` length c) with (S n) by lia.
    destruct (drop (S n) c) as [|x c'] eqn:E.
    + apply (f_equal length) in E. rewrite length_drop in E. simpl in E. lia.
    + replace (S n - length c) with 0 by lia. done.
Qed.

Lemma chunks_advance_nonempty n (buf : list Bytes) :
  Forall (fun c => c <> []) buf -> Forall (fun c => c <> []) (chunks_advance n buf).
Proof.
  intros H. revert n. induction H as [|c buf Hc H IH]; intros n; cbn [chunks_advance]; [by constructor|].
  destruct n as [|n]; [by constructor|].
  destruct (drop (S n `min` length c) c); [apply IH|by constructor].
Qed.

Lemma advance_cases q n :
  n <= length (write_chunk q) ->
  (n = 0 \/ has_writable q = true) /\
  match q with
  | SlotSynth b :: rest =>
      advance n q = (if bool_decide (drop n b = []) then rest else SlotSynth (drop n b) :: rest)
  | SlotOrigin buf sealed :: rest =>
      advance n q =
        (if bool_decide (chunks_advance n buf = []) && sealed then rest
         else SlotOrigin (chunks_advance n buf) sealed :: rest)
  | _ => advance n q = q
  end.
Proof.
  destruct q as [|[buf sealed|b|msg sv] rest]; simpl; intros Hn; (split; [|try done]); auto with lia.
  - destruct buf; [simpl in Hn; left; lia|by right].
  - by destruct (chunks_advance n buf), sealed.
  - rewrite Nat.min_l by done. by destruct (drop n b).
Qed.

Lemma synced_write done off r rest s q out n :
  synced done off (r :: rest) (s :: q) out ->
  (forall s', owes s' (off + n) r ->
     synced done (off + n) (r :: rest) (s' :: q) (out ++ take n (drop off (rs_bytes r)))) /\
  (rs_closed r = true -> drop (off + n) (rs_bytes r) = [] ->
     synced (done ++ [r]) 0 rest q (out ++ take n (drop off (rs_bytes r)))).
Proof.
  intros [H1 [H2 H3] H4].
  assert (Hout : out ++ take n (drop off (rs_bytes r)) = stream done ++ take (off + n) (rs_bytes r)).
  { rewrite H4. simpl. by rewrite <- app_assoc, take_take_drop. }
  rewrite Hout. split.
  - intros s' Ho. split; [done|by split|done].
  - intros Hc Hd. split; [apply Forall_app; auto|done|].
    rewrite stream_snoc. simpl. rewrite app_nil_r. f_equal.
    rewrite <- (take_drop (off + n) (rs_bytes r)) at 2. by rewrite Hd, app_nil_r.
Qed.

(** The head slot after [n] of its bytes were written: its state, or its response done. *)
Lemma owes_advance s off r q n :
  owes s off r -> n <= length (write_chunk (s :: q)) -> is_cache s = false ->
  take n (write_chunk (s :: q)) = take n (drop off (rs_bytes r)) /\
  ((exists s', advance n (s :: q) = s' :: q /\ owes s' (off + n) r /\ settled s') \/
   (advance n (s :: q) = q /\ rs_closed r = true /\ drop (off + n) (rs_bytes r) = [])).
Proof.
  intros Ho Hn Hc. destruct (advance_cases (s :: q) n Hn) as [_ Ha].
  destruct s as [buf sealed|b|msg sv]; [| |done]; destruct Ho as (E1 & E2 & E3 & E4 & E5).
  - assert (Hcat : concat (chunks_advance n buf) = drop (off + n) (rs_bytes r))
      by (by rewrite chunks_advance_concat, E4, drop_drop).
    assert (Hlen : off + n <= length (rs_bytes r)).
    { apply (f_equal length) in E4. rewrite length_drop in E4.
      destruct buf as [|c buf]; simpl in *; [lia|]. rewrite length_app in E4. lia. }
    split.
    { rewrite <- E4. destruct buf as [|c buf]; simpl in *; [done|]. by rewrite take_app_le. }
    rewrite Ha. destruct (base.decide (chunks_advance n buf = [])) as [Hd|Hd];
      [rewrite bool_decide_true by done; destruct sealed|rewrite bool_decide_false by done]; simpl.
    + right. split_and!; [done|done|]. by rewrite <- Hcat, Hd.
    + left. exists (SlotOrigin (chunks_advance n buf) false).
      split_and!; [done|by repeat split; auto using chunks_advance_nonempty|].
      by destruct (chunks_advance n buf).
    + left. exists (SlotOrigin (chunks_advance n buf) sealed).
      split_and!; [done|by repeat split; auto using chunks_advance_nonempty|].
      by destruct (chunks_advance n buf).
  - simpl in Hn.
    assert (Hlen : off + n <= length (rs_bytes r)).
    { apply (f_equal length) in E4. rewrite length_drop in E4. lia. }
    split; [simpl; by rewrite E4|]. rewrite Ha. rewrite E4, drop_drop.
    destruct (base.decide (drop (off + n) (rs_bytes r) = [])) as [Hd|Hd].
    + right. by rewrite bool_decide_true.
    + left. rewrite bool_decide_false by done. eexists. by split_and!.
Qed.

Lemma synced_advance done off rest q out n :
  n <= length (write_chunk q) -> Forall settled q ->
  synced done off rest q out ->
  exists done' off' rest',
    done ++ rest = done' ++ rest' /\
    synced done' off' rest' (advance n q) (out ++ take n (write_chunk q)) /\
    Forall settled (advance n q).
Proof.
  intros Hn Hs Hq. destruct q as [|s q]; [|destruct rest as [|r rest]; [by destruct Hq|]].
  { exists done, off, rest. simpl in *. by rewrite take_nil, app_nil_r. }
  pose proof Hs as Hss. apply list.Forall_cons in Hs as [Hs Hs'].
  destruct (is_cache s) eqn:Hc.
  { exists done, off, (r :: rest). destruct s; try done. simpl. by rewrite take_nil, app_nil_r. }
  destruct (synced_write _ _ _ _ _ _ _ n Hq) as [Hkeep Hpop].
  destruct (owes_advance s off r q n) as [-> [(s' & -> & Ho & ?)|(-> & Hcl & Hd)]];
    [by apply (sy_owes _ _ _ _ _ Hq)|done..| |].
  - exists done, (off + n), (r :: rest). split; [done|]. split; [auto|by constructor].
  - exists (done ++ [r]), 0, rest. rewrite <- app_assoc. auto.
Qed.

(** *** Sealing *)

Lemma synced_prune done off rest q out :
  synced done off rest q out ->
  exists done' off' rest',
    done ++ rest = done' ++ rest' /\ synced done' off' rest' (prune_done q) out.
Proof.
  revert done off rest. induction q as [|s q IH]; intros done off rest H; [by exists done, off, rest|].
  destruct rest as [|r rest]; [by destruct H|].
  destruct s as [[|c buf] [|]|b|msg sv]; try (by exists done, off, (r :: rest)).
  simpl. destruct (IH (done ++ [r]) 0 rest) as (done' & off' & rest' & E & Hs).
  - pose proof (sy_owes _ _ _ _ _ H) as [(_ & Hc & Ho & Hd & _) _]. simpl in Hd. by eapply synced_pop.
  - exists done', off', rest'. by rewrite <- E, <- app_assoc.
Qed.

Lemma prune_settled q : Forall settled (tail q) -> Forall settled (prune_done q).
Proof.
  induction q as [|s q IH]; simpl; intros H; [done|].
  destruct s as [[|c buf] [|]|b|msg sv]; try by constructor.
  apply IH. by destruct H.
Qed.

Lemma prune_cache_last q : cache_last q -> cache_last (prune_done q).
Proof. induction q as [|s q IH]; [done|]. intros [H1 H2]. destruct s as [[|c buf] [|]|b|msg sv]; simpl; auto. Qed.

Lemma update_cache_last f q :
  (forall s, unsealed_origin s = true -> is_cache (f s) = false) ->
  cache_last q -> cache_last (update_first unsealed_origin f q).
Proof.
  intros Hf. induction q as [|s q IH]; simpl; [done|]. intros [H1 H2].
  destruct (unsealed_origin s) eqn:E; simpl.
  - by rewrite Hf.
  - split; [|auto]. intros Hc. by rewrite (H1 Hc).
Qed.

Lemma seal_settled q rest :
  owes_all 0 q rest -> Forall settled q ->
  (forall r, List.find unanswered rest = Some r -> rs_bytes r <> []) ->
  Forall settled (update_first unsealed_origin slot_seal q).
Proof.
  revert rest. induction q as [|s q IH]; intros [|r rest] Ho Hs Hf; simpl in *; try done.
  destruct Ho as [H1 H2]. apply list.Forall_cons in Hs as [Hs Hs'].
  pose proof (owes_unanswered _ _ _ H1) as E. rewrite E. destruct (unanswered r); [|eauto].
  constructor; [|done]. destruct s as [[|c buf] sealed|b|msg sv]; simpl; try done.
  destruct H1 as (_ & _ & _ & H1 & _). by apply (Hf r).
Qed.

Lemma seal_settled_tail off q rest :
  owes_all off q rest -> Forall settled q ->
  (forall r, List.find unanswered rest = Some r -> rs_bytes r <> []) ->
  Forall settled (tail (update_first unsealed_origin slot_seal q)).
Proof.
  destruct q as [|s q], rest as [|r rest]; simpl; try done. intros [H1 H2] Hs Hf.
  apply list.Forall_cons in Hs as [Hs Hs']. pose proof (owes_unanswered _ _ _ H1) as E.
  rewrite E. destruct (unanswered r); simpl; [done|]. by eapply seal_settled.
Qed.

Lemma unanswered_from_find k rs i p :
  unanswered_from k rs = i :: p -> k <= i /\ List.find unanswered rs = rs !! (i - k).
Proof.
  revert k. induction rs as [|r rs IH]; intros k; simpl; [done|].
  destruct (unanswered r) eqn:E.
  - intros [= <- _]. by rewrite Nat.sub_diag.
  - intros H. apply IH in H as [H1 ->]. split; [lia|].
    by replace (i - k) with (S (i - S k)) by lia.
Qed.

Lemma find_answered_app a b :
  Forall (fun r => unanswered r = false) a -> List.find unanswered (a ++ b) = List.find unanswered b.
Proof. induction 1 as [|r a Hr _ IH]; simpl; by rewrite ?Hr. Qed.

Lemma no_cache_push q s : existsb is_cache q = false -> cache_last (q ++ [s]).
Proof.
  induction q as [|s' q IH]; simpl; [done|]. intros H. bool_hyps. split; [|auto]. congruence.
Qed.

Lemma push_settled q s : Forall settled q -> settled s -> Forall settled (q ++ [s]).
Proof. intros. apply Forall_app. auto. Qed.

Lemma update_settled f q :
  (forall s, unsealed_origin s = true -> settled (f s)) ->
  Forall settled q -> Forall settled (update_first unsealed_origin f q).
Proof.
  intros Hf. induction 1 as [|s q Hs H IH]; simpl; [done|].
  destruct (unsealed_origin s) eqn:E; constructor; auto.
Qed.

(** *** The steps *)

Lemma inv_push fl fl' q rs pend out s r :
  egress_inv (flagged fl q rs pend out) -> existsb is_cache q = false ->
  owes s 0 r -> settled s ->
  egress_inv (flagged fl' (q ++ [s]) (rs ++ [r])
    (pend ++ if unanswered r then [length rs] else []) out).
Proof.
  intros (done & off & rest & E & Hs & Hset & _ & Hp) Hc Ho Hst. simpl in *. subst rs pend.
  exists done, off, (rest ++ [r]). simpl. split_and!.
  - by rewrite app_assoc.
  - by apply synced_push.
  - by apply push_settled.
  - by apply no_cache_push.
  - rewrite (unanswered_from_app 0 _ [r]). simpl. by destruct (unanswered r).
Qed.

Lemma inv_answer fl q rs i pend out b :
  egress_inv (flagged fl q rs (i :: pend) out) ->
  egress_inv (flagged fl (origin_append b q) (alter (produce b) i rs) (i :: pend) out).
Proof.
  intros (done & off & rest & E & Hs & Hset & Hlast & Hp). simpl in *. subst rs.
  symmetry in Hp. pose proof (closed_answered _ (sy_closed _ _ _ _ _ Hs)) as Hd.
  pose proof (unanswered_from_first 0 (produce b) _ _ _ Hp) as [_ Hu].
  rewrite Nat.sub_0_r in Hu. rewrite <- Hu.
  assert (Hq : origin_append b q =
    match b with [] => q | _ => update_first unsealed_origin (slot_push b) q end).
  { unfold origin_append, oldest_unsealed_origin. destruct b; [done|].
    rewrite (owes_all_unsealed _ _ _ (sy_owes _ _ _ _ _ Hs)).
    pose proof (unanswered_from_existsb _ _ _ _ Hp) as Hex.
    rewrite existsb_app in Hex. apply orb_true_iff in Hex as [Hex|Hex]; [|by rewrite Hex].
    apply existsb_elem in Hex as (r & Hr & Hex). rewrite Forall_elem in Hd. by rewrite Hd in Hex. }
  rewrite update_first_app by done.
  exists done, off, (update_first unanswered (produce b) rest). simpl. rewrite Hq. split_and!.
  - done.
  - destruct b as [|x b].
    + rewrite update_first_id; [done|]. intros [? ? ?]. unfold produce. simpl. by rewrite app_nil_r.
    + apply synced_update; [|by intros; exists (x :: b)|done].
      intros s o r Ho Hun. destruct s as [buf sealed|?|? ?]; try done.
      destruct Ho as (E1 & E2 & E3 & E4 & E5). repeat split; simpl; [done..| | |].
      * rewrite length_app. lia.
      * rewrite concat_app, E4. simpl. rewrite app_nil_r. by rewrite drop_app_le.
      * apply Forall_app. by repeat constructor.
  - destruct b; [done|]. apply update_settled; [|done]. by intros [[|? ?] ?|?|? ?].
  - destruct b; [done|]. apply update_cache_last; [|done]. by intros [].
  - rewrite <- Hp, <- (update_first_app _ _ done), unanswered_from_keep; [done| |done].
    by intros [].
Qed.

Lemma inv_answered fl fl' q rs i r pend out :
  egress_inv (flagged fl q rs (i :: pend) out) -> rs !! i = Some r -> rs_bytes r <> [] ->
  egress_inv (flagged fl' (origin_seal q) (alter close i rs) pend out).
Proof.
  intros (done & off & rest & E & Hs & Hset & Hlast & Hp) Hi Hb. simpl in *. subst rs.
  symmetry in Hp. pose proof (closed_answered _ (sy_closed _ _ _ _ _ Hs)) as Hd.
  pose proof (unanswered_from_first 0 close _ _ _ Hp) as [_ Hu].
  pose proof (unanswered_from_find 0 _ _ _ Hp) as [_ Hf].
  rewrite Nat.sub_0_r in Hu, Hf. rewrite find_answered_app in Hf by done.
  assert (Hs' : synced done off (update_first unanswered close rest)
                  (update_first unsealed_origin slot_seal q) out).
  { apply synced_update; [|by intros; exists []; rewrite app_nil_r|done].
    intros s o x Ho Hun. destruct s as [buf sealed|?|? ?]; try done. by destruct Ho as (? & ? & ?). }
  destruct (synced_prune _ _ _ _ _ Hs') as (done' & off' & rest' & E & Hs'').
  exists done', off', rest'. simpl. rewrite <- Hu. split_and!.
  - by rewrite update_first_app.
  - done.
  - apply prune_settled. eapply seal_settled_tail; [by destruct Hs|done|].
    intros r'. rewrite Hf, Hi. by intros [= <-].
  - apply prune_cache_last, update_cache_last; [by intros []|done].
  - by rewrite unanswered_from_close, Hp.
Qed.

(** A served cache slot is the whole queue: its request is the last one. *)
Lemma inv_cache_head fl q' rs pend out msg sv :
  egress_inv (flagged fl (SlotCache msg sv :: q') rs pend out) ->
  exists done r,
    q' = [] /\ rs = done ++ [r] /\ pred (length rs) = length done /\
    Forall (fun r => rs_closed r = true) done /\ owes (SlotCache msg sv) (length (rs_bytes r)) r /\
    out = stream done ++ rs_bytes r /\ pend = unanswered_from 0 done.
Proof.
  intros (done & off & rest & E & [H1 H2 H3] & _ & [Hq _] & Hp). simpl in *.
  specialize (Hq eq_refl). subst q'. destruct rest as [|r [|]]; simpl in H2; try done;
    [|by destruct H2 as [? ?]].
  destruct H2 as [Ho _]. pose proof Ho as (Es & Ec & -> & _). exists done, r. subst rs out pend.
  refine (conj eq_refl (conj eq_refl (conj _ (conj H1 (conj Ho (conj _ _)))))).
  - rewrite length_app. simpl. lia.
  - by rewrite firstn_all.
  - rewrite unanswered_from_app. simpl. unfold unanswered at 1. rewrite Es. by rewrite app_nil_r.
Qed.

Lemma alter_last (f : Response -> Response) done r :
  alter f (length done) (done ++ [r]) = done ++ [f r].
Proof. induction done as [|x done IH]; [done|]. simpl. by rewrite <- IH. Qed.

Lemma inv_single fl s done off r out pend :
  Forall (fun r => rs_closed r = true) done -> owes s off r -> settled s ->
  out = stream done ++ take off (rs_bytes r) ->
  pend = unanswered_from 0 (done ++ [r]) ->
  egress_inv (flagged fl [s] (done ++ [r]) pend out).
Proof. intros. exists done, off, [r]. simpl. split_and!; auto; by split. Qed.

Lemma step_inv (w w' : World C) : disciplined_step w w' -> egress_inv w -> egress_inv w'.
Proof.
  intros (e & Hstep & Hd) H. destruct Hstep as [q rs pend out Hc|q rs pend out Hc|q rs pend out Hc
    |q rs pend out b Hc Hb|q rs pend out msg Hc|fl q rs i pend out b
    |fl q rs i r pend out Hi Hb|fl q rs out b|fl q rs pend out n Hn|fl q rs pend out msg q' Hq
    |fl q rs pend out b q' ->|fl q rs pend out q' ->|fl q rs pend out q' r -> Hr Hb].
  1, 2: eapply (inv_push _ _ _ _ _ _ (SlotOrigin [] false) (response FromOrigin [] false)) in H;
      [exact H|done|by repeat split|done].
  - destruct Hd as (_ & i & r & Hp & Hi & Hb). simpl in Hp, Hi. subst pend.
    by eapply inv_answered.
  - apply (inv_push _ false _ _ _ _ (SlotSynth b) (response FromSynth b true)) in H;
      [|done|repeat split; simpl; auto with lia|done].
    simpl in H. rewrite app_nil_r in H. by destruct b.
  - apply (inv_push _ false _ _ _ _ (SlotCache (Some msg) false) (response FromCache [] false)) in H;
      [|done|by repeat split; eauto|done].
    simpl in H. by rewrite app_nil_r in H.
  - by apply inv_answer.
  - by eapply inv_answered.
  - done.
  - destruct H as (done & off & rest & E & Hs & Hset & Hlast & Hp).
    destruct (synced_advance _ _ _ _ _ n Hn Hset Hs) as (done' & off' & rest' & E' & Hs' & Hset').
    exists done', off', rest'. split_and!; [by rewrite <- E'|done|done| |done].
    simpl. destruct (advance_cases q n Hn) as [_ Ha].
    destruct q as [|[buf sealed|b|msg sv] q]; rewrite Ha; try done.
    + by destruct (_ && _); simpl in *; destruct Hlast.
    + by case_bool_decide; simpl in *; destruct Hlast.
  - destruct q as [|[buf sealed|b|m [|]] q]; simpl in Hq; try done. simplify_eq.
    apply inv_cache_head in H as (done & r & -> & -> & _ & Hdone & Ho & -> & ->).
    destruct Ho as (? & ? & _ & Hb & _). eapply (inv_single _ _ done 0); [done| |done| |].
    + simpl. by rewrite Hb.
    + by rewrite Hb.
    + rewrite unanswered_from_app. simpl. unfold unanswered at 1. case_bool_decide; [congruence|].
      by rewrite app_nil_r.
  - apply inv_cache_head in H as (done & r & -> & -> & -> & Hdone & (? & ? & _) & -> & ->).
    rewrite alter_last, <- app_assoc. eapply inv_single; [done|by repeat split|done| |].
    + simpl. by rewrite firstn_all.
    + rewrite unanswered_from_app. simpl. unfold unanswered at 1. simpl.
      case_bool_decide; [congruence|]. by rewrite app_nil_r.
  - apply inv_cache_head in H as (done & r & -> & -> & -> & Hdone & (? & ? & _) & -> & ->).
    rewrite alter_last. exists (done ++ [close r]), 0, []. simpl. split_and!; [by rewrite app_nil_r|..].
    + split; [by apply Forall_app; auto|done|]. simpl. by rewrite stream_snoc, app_nil_r.
    + done.
    + done.
    + rewrite unanswered_from_app. simpl. unfold unanswered at 1. simpl.
      by rewrite andb_false_r, app_nil_r.
  - apply inv_cache_head in H as (done & x & -> & -> & E & Hdone & (? & Hcl & _) & -> & ->).
    rewrite E in *. rewrite list_lookup_middle in Hr by done. simplify_eq.
    rewrite alter_last. eapply (inv_single _ _ done 0); [done|..].
    + repeat split; simpl; [done|lia|by rewrite Hb|constructor].
    + done.
    + by rewrite Hb.
    + rewrite unanswered_from_app. simpl. unfold unanswered. simpl. by rewrite Hcl.
Qed.

End Simulation.

(** ** Delivery and liveness *)

Lemma run_inv {C} (w : World C) : rtc disciplined_step world_new w -> egress_inv w.
Proof.
  intros H. assert (H0 : egress_inv (C:=C) world_new) by (by exists [], 0, []).
  induction H as [|w1 w2 w3 Hstep _ IH]; [done|]. by eapply IH, step_inv.
Qed.


(** Every way of writing the queue to the client, in pieces of any size, comes to an end
    with nothing left or with one cache slot, dispatched or not. *)
Inductive drains {C} (q : EgressQueue C) : Prop :=
| drains_done : q = [] \/ (exists msg serving, q = [SlotCache msg serving]) -> drains q
| drains_write :
    has_writable q = true ->
    (forall n, 0 < n -> n <= length (write_chunk q) -> drains (advance n q)) -> drains q.

Definition slot_bytes {C} (s : EgressSlot C) : nat :=
  match s with
  | SlotOrigin buf _ => length (concat buf)
  | SlotSynth b => length b
  | SlotCache _ _ => 0
  end.

Definition queue_bytes {C} (q : EgressQueue C) : nat := sum_list_with slot_bytes q.

Lemma advance_bytes {C} (q : EgressQueue C) n :
  n <= length (write_chunk q) -> queue_bytes (advance n q) = queue_bytes q - n.
Proof.
  intros Hn. destruct (advance_cases q n Hn) as [_ Ha]. unfold queue_bytes.
  destruct q as [|[buf sealed|b|msg sv] q]; rewrite Ha; simpl in *; try lia.
  - pose proof (f_equal length (chunks_advance_concat n buf)) as E. rewrite length_drop in E.
    assert (n <= length (concat buf)).
    { destruct buf; simpl in *; [lia|]. rewrite length_app. lia. }
    case_bool_decide as Hd; destruct sealed; simpl; rewrite ?Hd in *; simpl in *; lia.
  - case_bool_decide as Hd; simpl; [apply (f_equal length) in Hd; simpl in Hd|];
      rewrite ?length_drop in *; lia.
Qed.

(** The head of a synced queue waits for origin, waits for the worker, or can be written. *)
Lemma head_progress {C} (w : World C) :
  egress_inv w -> w_pending w = [] ->
  w_queue w = [] \/ (exists msg sv, w_queue w = [SlotCache msg sv]) \/ has_writable (w_queue w) = true.
Proof.
  intros (done & off & rest & E & [H1 H2 H3] & Hset & Hlast & Hp) Hpend.
  destruct (w_queue w) as [|s q]; [by left|right].
  destruct rest as [|r rest]; [done|]. destruct H2 as [Ho _], Hlast as [Hlast _].
  apply list.Forall_cons in Hset as [Hs _].
  destruct s as [[|c buf] [|]|b|msg sv]; try (by right).
  - exfalso. rewrite Hpend, E, unanswered_from_app in Hp. symmetry in Hp.
    apply app_nil in Hp as [_ Hp]. simpl in Hp.
    by rewrite <- (owes_unanswered _ _ _ Ho) in Hp.
  - left. rewrite (Hlast eq_refl). eauto.
Qed.


(** ** Outside the discipline *)

Module EgressGap.

(** A message origin sends on its own, between requests (a notification, a notice, a
    changed parameter), opens a slot that no ReadyForQuery will seal.  Once it is
    written the slot stays at the head: a cacheable read queued behind it is never
    dispatched, and further such messages do not help. *)
Theorem async_message_wedges {C} (msg : C) (notice : Bytes) (more : list Bytes) :
  notice <> [] ->
  let deliver b q := let q' := origin_append b q in advance (length (write_chunk q')) q' in
  let q := cache_push msg (deliver notice []) in
  let q' := foldr deliver q (List.filter (fun b => bool_decide (b <> [])) more) in
  cache_dispatch q' = (None, q') /\ has_writable q' = false /\ write_chunk q' = [].
Proof.
  intros Hn deliver q. simpl.
  assert (Hd : forall b rest, b <> [] ->
    deliver b (SlotOrigin [] false :: rest) = SlotOrigin (C:=C) [] false :: rest).
  { intros b rest Hb. unfold deliver. destruct b as [|x b]; [done|]. simpl.
    by rewrite Nat.min_id, drop_all. }
  assert (Hq : q = [SlotOrigin [] false; SlotCache (Some msg) false]).
  { unfold q. replace (deliver notice []) with [SlotOrigin (C:=C) [] false]; [done|].
    rewrite <- (Hd notice []) by done. unfold deliver. by destruct notice. }
  assert (Hf : foldr deliver q (List.filter (fun b => bool_decide (b <> [])) more) = q).
  { induction more as [|b more IH]; simpl; [done|]. case_bool_decide as Hb; [|done].
    simpl. rewrite IH, Hq. by apply Hd. }
  by rewrite Hf, Hq.
Qed.

(** The slot of a forwarded Flush is sealed when the client's next message is read, not
    when origin has answered: a client that does not wait has its cacheable read
    dispatched while the Describe reply is still owed. *)
Theorem pipelined_flush_overtaken {C} (msg : C) :
  let flushed := origin_open [] in
  let next := cache_push msg (origin_seal flushed) in
  fst (cache_dispatch next) = Some msg.
Proof. done. Qed.

End EgressGap.

(** ** Witnesses *)

Module EgressWitness.

Definition run_world (q : EgressQueue nat) rs pend out : World nat := world q rs pend out.

(** Request 0 is a Flush, whose reply the client reads; then request 1 is forwarded,
    request 2 answered locally, request 3 served by the cache; origin answers last. *)
Definition r0 : list Response := [response FromOrigin [x64] true; response FromOrigin [x61; x62] true; response FromSynth [x63] true;
  response FromCache [] false].
Definition w_end : World nat := world [SlotCache (Some 7) false] r0 [] [x64; x61; x62; x63].

Lemma run_end : rtc disciplined_step world_new w_end.
Proof.
  eapply rtc_l; [exists Regular; split; [apply step_flush; reflexivity|done]|].
  eapply rtc_l; [exists Regular; split; [apply (step_answer _ _ _ _ _ _ [x64])|done]|].
  eapply rtc_l; [exists Regular; split; [apply (step_write _ _ _ _ _ 1); vm_compute; lia|done]|].
  eapply rtc_l; [exists FlushSeal; split; [apply step_flush_seal; reflexivity|]|].
  { split; [reflexivity|]. by eexists 0, _. }
  eapply rtc_l; [exists Regular; split; [apply step_forward; reflexivity|done]|].
  eapply rtc_l; [exists Regular; split; [apply (step_synth _ _ _ _ [x63]); [reflexivity|discriminate]|done]|].
  eapply rtc_l; [exists Regular; split; [apply (step_cacheable _ _ _ _ 7); reflexivity|done]|].
  eapply rtc_l; [exists Regular; split; [apply (step_answer _ _ _ _ _ _ [x61; x62])|done]|].
  eapply rtc_l; [exists Regular; split; [eapply step_answered; [reflexivity|discriminate]|done]|].
  eapply rtc_l; [exists Regular; split; [apply (step_write _ _ _ _ _ 1); vm_compute; lia|done]|].
  eapply rtc_l; [exists Regular; split; [apply (step_write _ _ _ _ _ 1); vm_compute; lia|done]|].
  eapply rtc_l; [exists Regular; split; [apply (step_write _ _ _ _ _ 1); vm_compute; lia|done]|].
  apply rtc_refl.
Qed.



End EgressWitness.
