(* ===== verification/Statement.v ===== *)
(** * What a forwarded statement does to the session

    Models the effects of query/write.rs, the raw-tree classifier of
    query/ast/convert_raw/write.rs for transaction control, SET, RESET and DISCARD, the
    search-path classifier of proxy/search_path/mutations.rs, and the effect a statement
    is given by [analyze] of proxy/query.rs.  The parse tree belongs to the parser library:
    its nodes are inductive types with the library's constructors; the row-level
    classifiers of DML and the cacheability verdict of a SELECT are parameters. *)
From Stdlib Require Import Ascii String ZifyBool.
From stdpp Require Import base list strings.
From S2P Require Import Prelude Value Cast WriteAggregate.

Open Scope string_scope.

(** ** Isolation levels and effects *)

Inductive TransactionBoundary := BoundaryBegin | BoundaryEnd.
Inductive IsolationLevel := ReadCommitted | RepeatableRead | Serializable.
Inductive IsolationEffect :=
| IeNone
| IeTransaction (level : IsolationLevel)
| IeSessionDefault (level : IsolationLevel)
| IeSessionUnknown.

#[global] Instance boundary_eq_dec : EqDecision TransactionBoundary.
Proof. solve_decision. Defined.
#[global] Instance isolation_level_eq_dec : EqDecision IsolationLevel.
Proof. solve_decision. Defined.
#[global] Instance isolation_effect_eq_dec : EqDecision IsolationEffect.
Proof. solve_decision. Defined.

Record StatementEffects := {
  se_write : option WriteClass;
  se_isolation : IsolationEffect;
  se_transaction : option TransactionBoundary;
}.

Definition effects_read_only (isolation : IsolationEffect)
    (transaction : option TransactionBoundary) : StatementEffects :=
  {| se_write := None; se_isolation := isolation; se_transaction := transaction |}.

Definition effects_write (class : WriteClass) (isolation : IsolationEffect) : StatementEffects :=
  {| se_write := Some class; se_isolation := isolation; se_transaction := None |}.

Definition effects_unknown : StatementEffects :=
  {| se_write := Some WcConnection; se_isolation := IeSessionUnknown; se_transaction := None |}.

(** [str::split_whitespace]: the maximal runs between white space.  Every step consumes
    at least one byte, so the length is fuel enough. *)
Definition white_space_strip (s : string) : option string :=
  head (omap (fun p => strip_prefix p s) white_space).

Definition word_flush (acc : list ascii) (rest : list string) : list string :=
  match acc with [] => rest | _ => string_of_list_ascii (reverse acc) :: rest end.

Fixpoint words_from (fuel : nat) (acc : list ascii) (s : string) : list string :=
  match fuel with
  | O => word_flush acc []
  | S fuel =>
      match white_space_strip s, s with
      | Some s', _ => word_flush acc (words_from fuel [] s')
      | None, EmptyString => word_flush acc []
      | None, String a s' => words_from fuel (a :: acc) s'
      end
  end.

Definition split_whitespace (s : string) : list string := words_from (S (String.length s)) [] s.

Fixpoint ascii_lowercase (s : string) : string :=
  match s with
  | EmptyString => EmptyString
  | String a s => String (to_ascii_lowercase a) (ascii_lowercase s)
  end.

Definition isolation_level_parse (value : string) : option IsolationLevel :=
  match ascii_lowercase <$> split_whitespace value with
  | [first] => if bool_decide (first = "serializable") then Some Serializable else None
  | [first; second] =>
      if bool_decide (first = "read") &&
         (bool_decide (second = "committed") || bool_decide (second = "uncommitted"))
      then Some ReadCommitted
      else if bool_decide (first = "repeatable") && bool_decide (second = "read")
      then Some RepeatableRead
      else None
  | _ => None
  end.

(** ** Parse-tree nodes *)

Inductive VariableSetKind :=
| VAR_SET_VALUE | VAR_SET_DEFAULT | VAR_SET_CURRENT | VAR_SET_MULTI | VAR_RESET | VAR_RESET_ALL.
Inductive DiscardMode := DISCARD_ALL | DISCARD_PLANS | DISCARD_SEQUENCES | DISCARD_TEMP.
Inductive TransactionStmtKind :=
| TRANS_STMT_BEGIN | TRANS_STMT_START | TRANS_STMT_COMMIT | TRANS_STMT_ROLLBACK
| TRANS_STMT_SAVEPOINT | TRANS_STMT_RELEASE | TRANS_STMT_ROLLBACK_TO
| TRANS_STMT_PREPARE | TRANS_STMT_COMMIT_PREPARED | TRANS_STMT_ROLLBACK_PREPARED.
#[global] Instance variable_set_kind_eq_dec : EqDecision VariableSetKind.
Proof. solve_decision. Defined.

(** A member of an argument or option list: a string constant, a [DefElem] with its
    argument (null for [None]), or any other node. *)
Inductive ArgNode := ArgString (value : string) | ArgOther.
Inductive Node := NodeArg (arg : ArgNode) | NodeDefElem (defname : string) (arg : option ArgNode).

(** A root statement.  [ReadOnlyStmt] stands for SHOW, DEALLOCATE, CLOSE, FETCH, PREPARE,
    LISTEN, UNLISTEN and NOTIFY; [DmlStmt] for INSERT, UPDATE, DELETE, MERGE, COPY and
    TRUNCATE; [OtherStmt] for every other utility (DDL, CALL, DO, EXECUTE, EXPLAIN). *)
Inductive Statement (Select Dml : Type) :=
| VariableSetStmt (kind : VariableSetKind) (name : string) (args : list Node) (is_local : bool)
| TransactionStmt (kind : TransactionStmtKind) (options : list Node) (chain : bool)
| DiscardStmt (target : DiscardMode)
| ReadOnlyStmt
| SelectStmt (select : Select)
| DmlStmt (dml : Dml)
| OtherStmt.
Arguments VariableSetStmt {Select Dml}. Arguments TransactionStmt {Select Dml}.
Arguments DiscardStmt {Select Dml}. Arguments ReadOnlyStmt {Select Dml}.
Arguments SelectStmt {Select Dml}. Arguments DmlStmt {Select Dml}. Arguments OtherStmt {Select Dml}.

(** ** Isolation effect of a statement *)

Definition isolation_level_of_arg (arg : option ArgNode) : option IsolationLevel :=
  match arg with
  | Some (ArgString value) => isolation_level_parse value
  | _ => None
  end.

Fixpoint isolation_defelem_find (options : list Node) : option (option IsolationLevel) :=
  match options with
  | [] => None
  | NodeDefElem defname arg :: options =>
      if eq_ignore_ascii_case defname "transaction_isolation"
      then Some (isolation_level_of_arg arg)
      else isolation_defelem_find options
  | NodeArg _ :: options => isolation_defelem_find options
  end.

Inductive IsolationScope := ScopeTransaction | ScopeSession.

Definition scope_effect (scope : IsolationScope) (level : option IsolationLevel) : IsolationEffect :=
  match scope, level with
  | ScopeTransaction, Some level => IeTransaction level
  | ScopeTransaction, None => IeTransaction Serializable
  | ScopeSession, Some level => IeSessionDefault level
  | ScopeSession, None => IeSessionUnknown
  end.

Definition begin_isolation_effect (options : list Node) : IsolationEffect :=
  match isolation_defelem_find options with
  | None => IeNone
  | Some level => scope_effect ScopeTransaction level
  end.

Definition isolation_guc_scope (name : string) : option IsolationScope :=
  if eq_ignore_ascii_case name "transaction_isolation" then Some ScopeTransaction
  else if eq_ignore_ascii_case name "default_transaction_isolation" then Some ScopeSession
  else None.

Definition set_characteristics_effect (name : string) (args : list Node) : IsolationEffect :=
  let with_scope scope :=
    match isolation_defelem_find args with
    | None => IeNone
    | Some level => scope_effect scope level
    end in
  if eq_ignore_ascii_case name "TRANSACTION" then with_scope ScopeTransaction
  else if eq_ignore_ascii_case name "SESSION CHARACTERISTICS" then with_scope ScopeSession
  else IeNone.

Definition node_arg (n : Node) : option ArgNode :=
  match n with NodeArg arg => Some arg | NodeDefElem _ _ => Some ArgOther end.

Definition variable_set_isolation_effect (kind : VariableSetKind) (name : string)
    (args : list Node) (is_local : bool) : IsolationEffect :=
  match kind with
  | VAR_RESET_ALL => IeSessionUnknown
  | VAR_SET_MULTI => set_characteristics_effect name args
  | _ =>
      match isolation_guc_scope name with
      | None => IeNone
      | Some scope =>
          if negb (bool_decide (kind = VAR_SET_VALUE)) || is_local
          then scope_effect scope None
          else scope_effect scope (head args ≫= fun n => isolation_level_of_arg (node_arg n))
      end
  end.

Inductive NonSelectClass :=
| NsWrite (class : WriteClass)
| NsReadOnly (transaction : option TransactionBoundary) (isolation : IsolationEffect).

Definition read_only (transaction : option TransactionBoundary) : NonSelectClass :=
  NsReadOnly transaction IeNone.

Definition transaction_classify (kind : TransactionStmtKind) (options : list Node) (chain : bool)
    : NonSelectClass :=
  match kind with
  | TRANS_STMT_BEGIN | TRANS_STMT_START =>
      NsReadOnly (Some BoundaryBegin) (begin_isolation_effect options)
  | TRANS_STMT_COMMIT | TRANS_STMT_ROLLBACK =>
      read_only (Some (if chain then BoundaryBegin else BoundaryEnd))
  | TRANS_STMT_SAVEPOINT | TRANS_STMT_RELEASE | TRANS_STMT_ROLLBACK_TO => read_only None
  | TRANS_STMT_PREPARE => NsWrite WcConnectionUnstampable
  | _ => NsWrite WcConnection
  end.

(** ** The search path *)

Inductive MutationKind := SearchPathSet | DiscardAll | TxnEnd.

Definition piggybackable (k : MutationKind) : bool :=
  match k with SearchPathSet | TxnEnd => true | DiscardAll => false end.

Record SearchPathMutations := { sm_any : bool; sm_single_piggybackable : option MutationKind }.

(** ** Classification and effects *)

Section Classify.
Context {Select Dml : Type}.
Notation Statement := (Statement Select Dml).

(** [insert_classify], [update_classify], [delete_classify], ...: the write of a DML
    statement; [None] for the read-only COPY TO. *)
Context (dml_classify : Dml -> option WriteClass).

(** What [analyze] decides of a SELECT: served from the cache, or forwarded with the write
    its volatile functions or data-modifying CTEs may make. *)
Inductive SelectVerdict := CacheCheck | Explain | ForwardSelect (write : option WriteClass).
Context (select_verdict : Select -> SelectVerdict).

Definition non_select_classify (stmt : Statement) : NonSelectClass :=
  match stmt with
  | DmlStmt dml =>
      match dml_classify dml with Some class => NsWrite class | None => read_only None end
  | TransactionStmt kind options chain => transaction_classify kind options chain
  | VariableSetStmt kind name args is_local =>
      NsReadOnly None (variable_set_isolation_effect kind name args is_local)
  | DiscardStmt target =>
      NsReadOnly None match target with DISCARD_ALL => IeSessionUnknown | _ => IeNone end
  | ReadOnlyStmt => read_only None
  | _ => NsWrite WcConnection
  end.

Definition stmt_classify_raw (stmt : Statement) : option MutationKind :=
  match stmt with
  | VariableSetStmt kind name _ _ =>
      if bool_decide (kind = VAR_RESET_ALL) || eq_ignore_ascii_case name "search_path"
      then Some SearchPathSet else None
  | DiscardStmt DISCARD_ALL => Some DiscardAll
  | TransactionStmt kind _ _ =>
      match kind with
      | TRANS_STMT_COMMIT | TRANS_STMT_ROLLBACK | TRANS_STMT_ROLLBACK_TO
      | TRANS_STMT_COMMIT_PREPARED | TRANS_STMT_ROLLBACK_PREPARED => Some TxnEnd
      | _ => None
      end
  | _ => None
  end.

Definition search_path_mutations_raw (stmts : list Statement) : SearchPathMutations :=
  let kinds := stmt_classify_raw <$> stmts in
  {| sm_any := existsb (fun k => bool_decide (is_Some k)) kinds;
     sm_single_piggybackable :=
       match kinds with
       | [Some k] => if piggybackable k then Some k else None
       | _ => None
       end |}.

(** [sql_mentions_set_config] over the text's windows. *)
Fixpoint sql_mentions_set_config (sql : string) : bool :=
  match sql with
  | EmptyString => false
  | String _ rest =>
      eq_ignore_ascii_case (String.substring 0 10 sql) "set_config" || sql_mentions_set_config rest
  end.

Inductive Action :=
| ActForward (effects : StatementEffects)
| ActCacheCheck
| ActExplain.

(** The verdict [analyze] computes on a miss of its memo, for a text that parses to [stmts].  [root_statement] wants
    exactly one statement. *)
Definition analyze (sql : string) (stmts : list Statement) : Action :=
  let isolation := if sql_mentions_set_config sql then IeSessionUnknown else IeNone in
  match stmts with
  | [SelectStmt select] =>
      match select_verdict select with
      | CacheCheck => ActCacheCheck
      | Explain => ActExplain
      | ForwardSelect (Some class) => ActForward (effects_write class isolation)
      | ForwardSelect None => ActForward (effects_read_only isolation None)
      end
  | [stmt] =>
      match non_select_classify stmt with
      | NsWrite class => ActForward (effects_write class isolation)
      | NsReadOnly transaction statement_isolation =>
          ActForward (effects_read_only
            (if bool_decide (statement_isolation = IeNone) then isolation else statement_isolation)
            transaction)
      end
  | _ => ActForward (effects_write WcConnection isolation)
  end.

End Classify.

(** ** PostgreSQL's spelling of a level *)

(** The values the server accepts for an isolation setting, in any case. *)
Definition pg_isolation_options : list (string * IsolationLevel) :=
  [("serializable", Serializable); ("repeatable read", RepeatableRead);
   ("read committed", ReadCommitted); ("read uncommitted", ReadCommitted)].

Definition pg_level (value : string) : option IsolationLevel :=
  snd <$> List.find (fun o => eq_ignore_ascii_case value o.1) pg_isolation_options.

Definition ascii_letter (a : ascii) : bool :=
  let c := byte_code a in
  ((65 <=? c) && (c <=? 90) || (97 <=? c) && (c <=? 122))%N.

Lemma lowercase_nonletter x y :
  ascii_letter x = false -> (x = to_ascii_lowercase y <-> x = y).
Proof.
  unfold ascii_letter, to_ascii_lowercase, byte_code. intros H.
  pose proof (N_ascii_bounded y) as Hb. case_match eqn:E; [|done].
  split; intros ->; rewrite ?N_ascii_embedding in H by lia; lia.
Qed.

Lemma strip_prefix_lowercase p s :
  forallb (fun a => negb (ascii_letter a)) (list_ascii_of_string p) = true ->
  strip_prefix p (ascii_lowercase s) = ascii_lowercase <$> strip_prefix p s.
Proof.
  revert s. induction p as [|x p IH]; intros [|y s]; simpl; [done..|]. intros H. bool_hyps.
  rewrite (bool_decide_ext _ (x = y)) by by apply lowercase_nonletter.
  case_bool_decide; [by apply IH|done].
Qed.

Lemma white_space_strip_lowercase s :
  white_space_strip (ascii_lowercase s) = ascii_lowercase <$> white_space_strip s.
Proof.
  unfold white_space_strip.
  assert (H : Forall (fun p => forallb (fun a => negb (ascii_letter a)) (list_ascii_of_string p) = true)
                white_space) by (apply Forall_forall; intros p Hp; vm_compute in Hp;
    repeat (destruct Hp as [<-|Hp]; [reflexivity|]); destruct Hp).
  induction H as [|p ws Hp _ IH]; simpl; [done|].
  rewrite strip_prefix_lowercase by done. destruct (strip_prefix p s); simpl; [done|apply IH].
Qed.

Lemma string_of_lowercase l :
  ascii_lowercase (string_of_list_ascii l) = string_of_list_ascii (to_ascii_lowercase <$> l).
Proof. induction l as [|a l IH]; simpl; by rewrite ?IH. Qed.

Lemma word_flush_lowercase acc rest :
  ascii_lowercase <$> word_flush acc rest =
  word_flush (to_ascii_lowercase <$> acc) (ascii_lowercase <$> rest).
Proof. destruct acc as [|a acc]; [done|]. simpl. by rewrite string_of_lowercase, fmap_reverse. Qed.

Lemma words_lowercase fuel acc s :
  ascii_lowercase <$> words_from fuel acc s =
  words_from fuel (to_ascii_lowercase <$> acc) (ascii_lowercase s).
Proof.
  revert acc s. induction fuel as [|fuel IH]; intros acc s; cbn [words_from];
    [apply word_flush_lowercase|].
  rewrite white_space_strip_lowercase. destruct (white_space_strip s) as [s'|]; simpl.
  - by rewrite word_flush_lowercase, IH.
  - destruct s; simpl; [by rewrite word_flush_lowercase|by rewrite IH].
Qed.

Lemma eq_ignore_case_lowercase a b :
  eq_ignore_ascii_case a b = true -> ascii_lowercase a = ascii_lowercase b.
Proof.
  revert b. induction a as [|x a IH]; intros [|y b]; simpl; try done. intros H. bool_hyps.
  by rewrite H, (IH b).
Qed.

Lemma lowercase_length s : String.length (ascii_lowercase s) = String.length s.
Proof. induction s as [|a s IH]; simpl; by rewrite ?IH. Qed.

Lemma split_whitespace_lowercase s :
  ascii_lowercase <$> split_whitespace s = split_whitespace (ascii_lowercase s).
Proof. unfold split_whitespace. by rewrite words_lowercase, lowercase_length. Qed.

(** Every level the server accepts is read as that level. *)
Lemma isolation_level_parse_pg value level :
  pg_level value = Some level -> isolation_level_parse value = Some level.
Proof.
  unfold pg_level, isolation_level_parse. rewrite split_whitespace_lowercase.
  intros H. apply fmap_Some in H as ([spelling l] & H & ->).
  apply find_some in H as [Hin Heq]. apply eq_ignore_case_lowercase in Heq. rewrite Heq.
  simpl in Hin. destruct_or! Hin; simplify_eq; by vm_compute.
Qed.
