(* ===== verification/SearchPath.v ===== *)
(** * The search path a session reports

    Models proxy/search_path/value.rs: parsing the text PostgreSQL prints for
    [search_path] and resolving it for a user.  [str::to_lowercase] maps all of Unicode and
    is a parameter of which only its effect on ASCII text is assumed.  The theorem:
    parsing inverts PostgreSQL's own printing of a list of schemas, quoted where they have
    to be.  [SearchPathGap] shows two printed values it misreads. *)
From Stdlib Require Import Ascii String ZifyBool.
From stdpp Require Import base list strings.
From S2P Require Import Prelude Value Cast Statement.

Open Scope string_scope.

Inductive SearchPathEntry := PathSchema (name : string) | PathSessionUser.

Definition quote_char : ascii := Ascii.ascii_of_nat 34.
Definition comma : ascii := Ascii.ascii_of_nat 44.

(** [str::split] on one ASCII character. *)
Fixpoint split_char (c : ascii) (s : string) : list string :=
  match s with
  | EmptyString => [EmptyString]
  | String a s =>
      if bool_decide (a = c) then EmptyString :: split_char c s
      else match split_char c s with
           | w :: ws => String a w :: ws
           | [] => [String a EmptyString]
           end
  end.

(** [replace] of a doubled quote by one, left to right. *)
Fixpoint unescape (s : string) : string :=
  match s with
  | String a s =>
      if bool_decide (a = quote_char) then
        match s with
        | String b s' => if bool_decide (b = quote_char) then String a (unescape s')
                         else String a (unescape s)
        | EmptyString => String a EmptyString
        end
      else String a (unescape s)
  | EmptyString => EmptyString
  end.

(** [strip_suffix] of one character. *)
Fixpoint strip_suffix_char (c : ascii) (s : string) : option string :=
  match s with
  | EmptyString => None
  | String a EmptyString => if bool_decide (a = c) then Some EmptyString else None
  | String a s => String a <$> strip_suffix_char c s
  end.

Section Parse.
Variable to_lowercase : string -> string.

Definition entry_parse (entry : string) : SearchPathEntry :=
  match strip_prefix (String quote_char EmptyString) entry ≫= strip_suffix_char quote_char with
  | Some quoted => PathSchema (unescape quoted)
  | None =>
      if bool_decide (entry = "$user") then PathSessionUser
      else PathSchema (to_lowercase entry)
  end.

Definition search_path_parse (s : string) : list SearchPathEntry :=
  entry_parse <$>
  List.filter (fun entry => negb (bool_decide (entry = EmptyString)))
    (trim <$> split_char comma s).

Definition search_path_resolve (session_user : option string) (path : list SearchPathEntry)
    : list string :=
  omap (fun entry => match entry with
                     | PathSchema name => Some name
                     | PathSessionUser => session_user
                     end) path.

End Parse.

(** ** PostgreSQL's printing *)

(** A schema name is printed bare when it reads back as itself, quoted otherwise. *)
Inductive PrintedSchema := Bare (name : string) | Quoted (name : string).

Definition printed_name (p : PrintedSchema) : string :=
  match p with Bare name | Quoted name => name end.

Fixpoint escape (s : string) : string :=
  match s with
  | EmptyString => EmptyString
  | String a s =>
      if bool_decide (a = quote_char) then String a (String a (escape s)) else String a (escape s)
  end.

Definition print_schema (p : PrintedSchema) : string :=
  match p with
  | Bare name => name
  | Quoted name =>
      String quote_char (escape name ++ String quote_char EmptyString)
  end.

Fixpoint print_path (ps : list PrintedSchema) : string :=
  match ps with
  | [] => EmptyString
  | [p] => print_schema p
  | p :: ps => print_schema p ++ String comma (String " " (print_path ps))
  end.

(** Lower-case letters, digits and underscores. *)
Definition bare_char (a : ascii) : bool :=
  let c := byte_code a in
  ((97 <=? c) && (c <=? 122) || (48 <=? c) && (c <=? 57) || (c =? 95))%N.

Definition printable (p : PrintedSchema) : bool :=
  match p with
  | Bare name =>
      negb (bool_decide (name = EmptyString)) && forallb bare_char (list_ascii_of_string name)
  | Quoted name => forallb (fun a => negb (bool_decide (a = comma))) (list_ascii_of_string name)
  end.

(** ** Lemmas on the string operations *)

Lemma list_ascii_app a b :
  list_ascii_of_string (a ++ b) = (list_ascii_of_string a ++ list_ascii_of_string b)%list.
Proof. induction a as [|x a IH]; simpl; by rewrite ?IH. Qed.

Definition lacks (c : ascii) (s : string) : bool :=
  forallb (fun a => negb (bool_decide (a = c))) (list_ascii_of_string s).

Lemma split_char_lacks c s : lacks c s = true -> split_char c s = [s].
Proof.
  unfold lacks. induction s as [|a s IH]; simpl; [done|]. intros H. bool_hyps.
  rewrite bool_decide_false by done. by rewrite IH.
Qed.

Lemma split_char_app c s t :
  lacks c s = true -> split_char c (s ++ String c t) = s :: split_char c t.
Proof.
  unfold lacks. induction s as [|a s IH]; simpl; intros H.
  - by rewrite bool_decide_true.
  - bool_hyps. rewrite bool_decide_false by done. by rewrite IH.
Qed.

(** Characters that neither start nor end an encoding of white space. *)
Definition plain_char (a : ascii) : bool := ((33 <=? byte_code a) && (byte_code a <=? 126))%N.

Definition starts_plain (s : string) : Prop :=
  exists a t, s = String a t /\ plain_char a = true.
Definition ends_plain (s : string) : Prop :=
  exists t a, s = t ++ String a EmptyString /\ plain_char a = true.

Lemma strip_plain seps s :
  Forall (fun p => match p with String x _ => plain_char x = false | EmptyString => False end) seps ->
  starts_plain s -> head (omap (fun p => strip_prefix p s) seps) = None.
Proof.
  intros H (a & t & -> & Ha). induction H as [|p seps Hp _ IH]; simpl; [done|].
  destruct p as [|x p]; [done|]. simpl. rewrite bool_decide_false; [done|congruence].
Qed.

Lemma strip_all_plain fuel seps s :
  Forall (fun p => match p with String x _ => plain_char x = false | EmptyString => False end) seps ->
  starts_plain s -> strip_all fuel seps s = s.
Proof. intros H Hs. destruct fuel; simpl; [done|]. by rewrite strip_plain. Qed.

Lemma white_space_not_plain :
  Forall (fun p => match p with String x _ => plain_char x = false | EmptyString => False end) white_space /\
  Forall (fun p => match p with String x _ => plain_char x = false | EmptyString => False end)
    (string_reverse <$> white_space).
Proof. split; repeat constructor. Qed.

Lemma string_list_roundtrip s : string_of_list_ascii (list_ascii_of_string s) = s.
Proof. apply string_of_list_ascii_of_string. Qed.

Lemma string_reverse_snoc t a :
  string_reverse (t ++ String a EmptyString) = String a (string_reverse t).
Proof. unfold string_reverse. by rewrite list_ascii_app, reverse_app. Qed.

Lemma trim_end_plain s : ends_plain s -> trim_end s = s.
Proof.
  intros (t & a & -> & Ha). unfold trim_end.
  rewrite strip_all_plain; [apply string_reverse_involutive|apply white_space_not_plain|].
  rewrite string_reverse_snoc. red. eauto.
Qed.

Lemma trim_plain s : starts_plain s -> ends_plain s -> trim s = s.
Proof.
  intros Hs He. unfold trim, trim_start.
  rewrite strip_all_plain; [by apply trim_end_plain|apply white_space_not_plain|done].
Qed.

Lemma trim_space_plain s : starts_plain s -> ends_plain s -> trim (String " " s) = s.
Proof.
  intros Hs He. unfold trim, trim_start. cbn [strip_all String.length].
  replace (head (omap (fun p => strip_prefix p (String " " s)) white_space)) with (Some s) by reflexivity.
  rewrite strip_all_plain; [by apply trim_end_plain|apply white_space_not_plain|done].
Qed.

Lemma unescape_escape s : unescape (escape s) = s.
Proof.
  induction s as [|a s IH]; simpl; [done|].
  case_bool_decide as Ha; simpl; rewrite ?(bool_decide_true (a = quote_char)) by done; simpl.
  - by rewrite IH.
  - rewrite bool_decide_false by done. by rewrite IH.
Qed.

Lemma strip_suffix_char_app c s : strip_suffix_char c (s ++ String c EmptyString) = Some s.
Proof.
  induction s as [|a s IH]; simpl; [by rewrite bool_decide_true|].
  rewrite IH. by destruct s.
Qed.

Lemma escape_lacks_comma s : lacks comma s = true -> lacks comma (escape s) = true.
Proof.
  unfold lacks. induction s as [|a s IH]; [done|]. intros H. cbn in H. bool_hyps. cbn [escape].
  case_bool_decide; cbn; rewrite bool_decide_false by done; by rewrite IH.
Qed.

Lemma bare_plain a : bare_char a = true -> plain_char a = true /\ a <> comma /\ a <> quote_char.
Proof.
  unfold bare_char, plain_char. intros H. split; [lia|].
  split; intros ->; vm_compute in H; discriminate.
Qed.

Lemma bare_lowercase name :
  forallb bare_char (list_ascii_of_string name) = true -> ascii_lowercase name = name.
Proof.
  induction name as [|a s IH]; simpl; [done|]. intros H. bool_hyps. rewrite IH by done. f_equal.
  unfold to_ascii_lowercase, bare_char in *. case_match; [|done]. lia.
Qed.

Lemma string_of_list_snoc l a :
  string_of_list_ascii (l ++ [a])%list = string_of_list_ascii l ++ String a EmptyString.
Proof. induction l as [|x l IH]; simpl; by rewrite ?IH. Qed.

Lemma bare_ends_plain name :
  name <> EmptyString -> forallb bare_char (list_ascii_of_string name) = true -> ends_plain name.
Proof.
  intros Hn H. destruct (exists_last (l:=list_ascii_of_string name)) as (l & a & E); [by destruct name|].
  exists (string_of_list_ascii l), a.
  rewrite <- string_of_list_snoc, <- E, string_list_roundtrip. split; [done|].
  rewrite E, forallb_app in H. simpl in H. bool_hyps. by apply bare_plain.
Qed.

Lemma print_schema_ends p :
  printable p = true ->
  starts_plain (print_schema p) /\ ends_plain (print_schema p) /\ lacks comma (print_schema p) = true.
Proof.
  destruct p as [name|name]; cbn [printable print_schema]; intros H.
  - apply andb_true_iff in H as [Hn Hb]. split_and!.
    + destruct name as [|a s]; [done|]. cbn in Hb. bool_hyps. exists a, s. by destruct (bare_plain a).
    + apply bare_ends_plain; [by bool_hyps|done].
    + apply forallb_elem. intros a Ha. apply negb_true_iff, bool_decide_false.
      rewrite forallb_elem in Hb. by apply bare_plain, Hb.
  - split_and!.
    + by exists quote_char, (escape name ++ String quote_char EmptyString).
    + by exists (String quote_char (escape name)), quote_char.
    + unfold lacks. cbn [list_ascii_of_string forallb]. rewrite list_ascii_app, forallb_app.
      rewrite (escape_lacks_comma name H : forallb _ _ = true). reflexivity.
Qed.

Lemma split_print_path p ps :
  forallb printable (p :: ps) = true ->
  split_char comma (print_path (p :: ps)) =
  print_schema p :: ((fun p => String " " (print_schema p)) <$> ps).
Proof.
  revert p. induction ps as [|p' ps IH]; intros p H; cbn [forallb] in H; bool_hyps.
  - apply split_char_lacks. by apply print_schema_ends.
  - change (print_path (p :: p' :: ps)) with
      (print_schema p ++ String comma (String " " (print_path (p' :: ps)))).
    rewrite split_char_app by by apply print_schema_ends. f_equal.
    change (split_char comma (String " " (print_path (p' :: ps)))) with
      (match split_char comma (print_path (p' :: ps)) with
       | w :: ws => String " " w :: ws | [] => [String " " EmptyString] end).
    rewrite IH; [done|]. cbn [forallb]. by apply andb_true_iff.
Qed.

Lemma trim_print_path p ps :
  forallb printable (p :: ps) = true ->
  trim <$> split_char comma (print_path (p :: ps)) = print_schema <$> (p :: ps).
Proof.
  intros H. rewrite split_print_path by done. cbn [forallb] in H. apply andb_true_iff in H as [Hp Hps].
  rewrite fmap_cons, fmap_cons. f_equal.
  - apply trim_plain; by apply print_schema_ends.
  - rewrite <- list_fmap_compose. apply list_fmap_ext. intros i q Hq. simpl.
    rewrite forallb_elem in Hps. apply list_elem_of_lookup_2, Hps in Hq.
    apply trim_space_plain; by apply print_schema_ends.
Qed.

(** ** The round trip *)

Section Roundtrip.
Variable to_lowercase : string -> string.
(** On ASCII text [to_lowercase] lowers the letters. *)
Hypothesis to_lowercase_ascii : forall s,
  forallb (fun a => (byte_code a <? 128)%N) (list_ascii_of_string s) = true ->
  to_lowercase s = ascii_lowercase s.

Lemma entry_parse_print p :
  printable p = true -> entry_parse to_lowercase (print_schema p) = PathSchema (printed_name p).
Proof.
  destruct p as [name|name]; cbn [printable print_schema printed_name]; unfold entry_parse; intros H.
  - apply andb_true_iff in H as [_ Hb]. destruct name as [|a s].
    { by rewrite to_lowercase_ascii. }
    assert (Ha : bare_char a = true) by (cbn in Hb; by bool_hyps).
    destruct (bare_plain a) as (_ & _ & Hq); [done|].
    cbn [strip_prefix]. rewrite bool_decide_false by done. cbn [mbind option_bind].
    rewrite bool_decide_false by (intros [= -> _]; discriminate).
    rewrite to_lowercase_ascii, bare_lowercase; [done|done|].
    apply forallb_elem. intros x Hx. rewrite forallb_elem in Hb. specialize (Hb x Hx).
    unfold bare_char in Hb. lia.
  - cbn [strip_prefix]. rewrite bool_decide_true by done. cbn [mbind option_bind].
    by rewrite strip_suffix_char_app, unescape_escape.
Qed.

(** Reading a search path gives back the schemas PostgreSQL printed.  For any list of
    schema names, bare where they are lower-case identifiers and quoted otherwise, with no
    comma inside a name, parsing the printed value and resolving it yields the names, in
    order and in their own case, for every session user. *)
Theorem search_path_roundtrip ps session_user :
  forallb printable ps = true ->
  search_path_resolve session_user (search_path_parse to_lowercase (print_path ps)) =
  printed_name <$> ps.
Proof.
  intros H. destruct ps as [|p ps]; [reflexivity|]. unfold search_path_parse.
  rewrite trim_print_path by done.
  assert (Hf : List.filter (fun e => negb (bool_decide (e = EmptyString))) (print_schema <$> p :: ps) =
               print_schema <$> p :: ps).
  { clear -H. induction (p :: ps) as [|q qs IH]; [done|]. cbn [forallb] in H. bool_hyps.
    cbn [fmap list_fmap List.filter]. destruct (print_schema_ends q) as [(a & t & E & _) _]; [done|].
    rewrite bool_decide_false by (rewrite E; discriminate). simpl. f_equal. by apply IH. }
  rewrite Hf. clear Hf. unfold search_path_resolve. induction (p :: ps) as [|q qs IH]; [done|].
  cbn [forallb] in H. bool_hyps. cbn. rewrite entry_parse_print by done. f_equal. by apply IH.
Qed.

End Roundtrip.

Module SearchPathGap.

(** PostgreSQL stores and prints its default path with the user entry quoted, and the
    server expands the quoted entry too; here it is read as a schema of that name, so the
    user's own schema is not on the resolved path. *)
Theorem default_path_user_literal :
  search_path_resolve (Some "alice")
    (search_path_parse ascii_lowercase (print_path [Quoted "$user"; Bare "public"])) =
  ["$user"; "public"].
Proof. reflexivity. Qed.

(** A quoted name with a comma in it is split into two entries. *)
Theorem comma_name_split :
  search_path_resolve None (search_path_parse ascii_lowercase (print_path [Quoted "a,b"])) <> ["a,b"] /\
  length (search_path_parse ascii_lowercase (print_path [Quoted "a,b"])) = 2.
Proof. split; [vm_compute; discriminate|reflexivity]. Qed.

End SearchPathGap.

Module SearchPathWitness.

Definition path3 : list PrintedSchema := [Bare "app_1"; Quoted "My Schema"; Bare "public"].

Lemma search_path_roundtrip_witness :
  search_path_resolve (Some "bob") (search_path_parse ascii_lowercase (print_path path3)) =
  ["app_1"; "My Schema"; "public"].
Proof. apply (search_path_roundtrip ascii_lowercase ltac:(done) path3 (Some "bob")). reflexivity. Defined.

End SearchPathWitness.
