(* ===== verification/Session.v ===== *)
(** * Session state a connection tracks, and the injected probes

    Models proxy/connection/transaction_isolation.rs and search_path_intercept.rs, and the
    parts of relay.rs that drive them: effects of forwarded statements, block boundaries,
    the discovery probes and the interception of their replies.  Origin is a relation that
    states what PostgreSQL documents of transaction blocks and isolation settings.  The
    theorems: a read inside a block is served only when the block is a healthy READ
    COMMITTED one, and the client of a connection receives exactly the replies to its own
    statements.  [SessionGap] holds the histories where the code loses one or the other. *)
From Stdlib Require Import Strings.Byte.
From stdpp Require Import base list strings.
From S2P Require Import Prelude Value Cast WriteAggregate WriteLog Egress Statement SearchPath.

Open Scope string_scope.
Open Scope list_scope.

(** ** State *)

Inductive TransactionStatus := Idle | InTransaction | Failed.
#[global] Instance transaction_status_eq_dec : EqDecision TransactionStatus.
Proof. solve_decision. Defined.

(** Byte 5 of the frame; anything but I and T reads as a failed block. *)
Definition from_ready_for_query (data : Bytes) : TransactionStatus :=
  match data !! 5 with
  | Some x49 => Idle
  | Some x54 => InTransaction
  | _ => Failed
  end.

Definition ready_for_query_message (s : TransactionStatus) : Bytes :=
  [x5a; x00; x00; x00; x05] ++
  [match s with Idle => x49 | InTransaction => x54 | Failed => x45 end].

Inductive IsolationState := IsoUnknown | IsoKnown (level : IsolationLevel).
#[global] Instance isolation_state_eq_dec : EqDecision IsolationState.
Proof. solve_decision. Defined.

Inductive TransactionForwardReason := TfFailed | TfIsolationUnknown | TfIsolationStrict.

(** The fields of [ConnectionState] the isolation tracker owns. *)
Record IsolationTracker := {
  it_transaction_status : TransactionStatus;
  it_session_isolation : IsolationState;
  it_block_isolation : IsolationState;
  it_pending_block_isolation : option IsolationLevel;
  it_begins_forwarded : N;               (* u32 *)
  it_isolation_mutated_in_block : bool;
}.

Inductive TrailingShowState := PreShow | InShow | ShowError.

Inductive OriginIntercept :=
| InterceptNone
| InterceptSearchPath
| InterceptLazyParseInline (statement_name : Bytes)
| InterceptTrailingShowSearchPath (state : TrailingShowState)
| InterceptWalLsnProbe (stamp_seq : N)
| InterceptDefaultTransactionIsolation.

Inductive SearchPathState := PathUnknown | PathResolved (path : list string).

(** A message pgcache itself puts on the origin socket. *)
Inductive Probe := ProbeSearchPath | ProbeDefaultIsolation.

(** What the session state needs of the statements and descriptions a connection keeps:
    forgetting the cached descriptions, and marking a statement origin acknowledged. *)
Class StatementMaps (M : Type) := {
  describe_clear : M -> M;
  statement_prepared : Bytes -> M -> M;
}.

Record Connection (M : Type) := {
  cs_isolation : IsolationTracker;
  cs_session_user : option string;
  cs_origin_intercept : OriginIntercept;
  cs_search_path_state : SearchPathState;
  cs_search_path_just_piggyback_resolved : bool;
  cs_search_path_auto_reported : bool;
  cs_injected : list Probe;              (* the probes pushed on origin_write_buf *)
  cs_maps : M;                           (* prepared_statements, portals, describe_cache *)
  cs_write_log : WriteLog;
}.
Arguments cs_isolation {M} _.
Arguments cs_session_user {M} _.
Arguments cs_origin_intercept {M} _.
Arguments cs_search_path_state {M} _.
Arguments cs_search_path_just_piggyback_resolved {M} _.
Arguments cs_search_path_auto_reported {M} _.
Arguments cs_injected {M} _.
Arguments cs_maps {M} _.
Arguments cs_write_log {M} _.

Definition tracker_new : IsolationTracker :=
  {| it_transaction_status := Idle; it_session_isolation := IsoUnknown;
     it_block_isolation := IsoUnknown; it_pending_block_isolation := None;
     it_begins_forwarded := 0; it_isolation_mutated_in_block := false |}.

Section Session.
Context {M : Type} {maps : StatementMaps M}.
Notation ConnectionState := (Connection M).

Definition connection_new (m : M) (user : option string) (log : bool) : ConnectionState :=
  {| cs_isolation := tracker_new; cs_session_user := user; cs_origin_intercept := InterceptNone;
     cs_search_path_state := PathUnknown; cs_search_path_just_piggyback_resolved := false;
     cs_search_path_auto_reported := false; cs_injected := []; cs_maps := m;
     cs_write_log := with_enabled log |}.

(** ** Isolation tracking *)

Definition in_transaction (t : IsolationTracker) : bool :=
  negb (bool_decide (it_transaction_status t = Idle)).

Definition forwarding_into_block (t : IsolationTracker) : bool :=
  in_transaction t || (0 <? it_begins_forwarded t)%N.

Definition session_isolation_set (st : IsolationState) (t : IsolationTracker) : IsolationTracker :=
  {| it_transaction_status := it_transaction_status t;
     it_session_isolation := st;
     it_block_isolation := it_block_isolation t;
     it_pending_block_isolation := it_pending_block_isolation t;
     it_begins_forwarded := it_begins_forwarded t;
     it_isolation_mutated_in_block := it_isolation_mutated_in_block t || forwarding_into_block t |}.

Definition transaction_isolation_apply (level : IsolationLevel) (begins : bool)
    (t : IsolationTracker) : IsolationTracker :=
  if bool_decide (level = ReadCommitted) then t
  else if begins then
    {| it_transaction_status := it_transaction_status t;
       it_session_isolation := it_session_isolation t;
       it_block_isolation := it_block_isolation t;
       it_pending_block_isolation := Some level;
       it_begins_forwarded := it_begins_forwarded t;
       it_isolation_mutated_in_block := it_isolation_mutated_in_block t |}
  else if forwarding_into_block t then
    {| it_transaction_status := it_transaction_status t;
       it_session_isolation := it_session_isolation t;
       it_block_isolation := IsoKnown level;
       it_pending_block_isolation := it_pending_block_isolation t;
       it_begins_forwarded := it_begins_forwarded t;
       it_isolation_mutated_in_block := it_isolation_mutated_in_block t |}
  else t.

Definition u32_max : N := 4294967295.

Definition begins_count (t : IsolationTracker) : IsolationTracker :=
  {| it_transaction_status := it_transaction_status t;
     it_session_isolation := it_session_isolation t;
     it_block_isolation := it_block_isolation t;
     it_pending_block_isolation := it_pending_block_isolation t;
     it_begins_forwarded := N.min (it_begins_forwarded t + 1) u32_max;
     it_isolation_mutated_in_block := it_isolation_mutated_in_block t |}.

Definition isolation_effects_apply (effects : StatementEffects) (t : IsolationTracker)
    : IsolationTracker :=
  let begins := bool_decide (se_transaction effects = Some BoundaryBegin) in
  let t :=
    match se_isolation effects with
    | IeNone => t
    | IeTransaction level => transaction_isolation_apply level begins t
    | IeSessionDefault ReadCommitted | IeSessionUnknown => session_isolation_set IsoUnknown t
    | IeSessionDefault level => session_isolation_set (IsoKnown level) t
    end in
  if begins then begins_count t else t.

Definition transaction_serve_check (t : IsolationTracker) : TransactionForwardReason + unit :=
  match it_transaction_status t with
  | Idle => inr tt
  | Failed => inl TfFailed
  | InTransaction =>
      match it_block_isolation t with
      | IsoKnown ReadCommitted => inr tt
      | IsoKnown _ => inl TfIsolationStrict
      | IsoUnknown => inl TfIsolationUnknown
      end
  end.

Definition block_enter (t : IsolationTracker) : IsolationTracker :=
  {| it_transaction_status := it_transaction_status t;
     it_session_isolation := it_session_isolation t;
     it_block_isolation :=
       match it_pending_block_isolation t with
       | Some level => IsoKnown level
       | None => it_session_isolation t
       end;
     it_pending_block_isolation := None;
     it_begins_forwarded := it_begins_forwarded t - 1;
     it_isolation_mutated_in_block := it_isolation_mutated_in_block t |}.

Definition block_exit (t : IsolationTracker) : IsolationTracker :=
  {| it_transaction_status := it_transaction_status t;
     it_session_isolation :=
       if it_isolation_mutated_in_block t then IsoUnknown else it_session_isolation t;
     it_block_isolation := IsoUnknown;
     it_pending_block_isolation := it_pending_block_isolation t;
     it_begins_forwarded := it_begins_forwarded t;
     it_isolation_mutated_in_block := false |}.

Definition isolation_block_transition (previous : TransactionStatus) (t : IsolationTracker)
    : IsolationTracker :=
  match negb (bool_decide (previous = Idle)), in_transaction t with
  | false, true => block_enter t
  | true, false => block_exit t
  | _, _ => t
  end.

Definition isolation_probe_needed (t : IsolationTracker) : bool :=
  bool_decide (it_session_isolation t = IsoUnknown) && negb (in_transaction t).

Definition status_set (s : TransactionStatus) (t : IsolationTracker) : IsolationTracker :=
  {| it_transaction_status := s;
     it_session_isolation := it_session_isolation t;
     it_block_isolation := it_block_isolation t;
     it_pending_block_isolation := it_pending_block_isolation t;
     it_begins_forwarded := it_begins_forwarded t;
     it_isolation_mutated_in_block := it_isolation_mutated_in_block t |}.

Definition probe_result (level : IsolationLevel) (t : IsolationTracker) : IsolationTracker :=
  {| it_transaction_status := it_transaction_status t;
     it_session_isolation := IsoKnown level;
     it_block_isolation := it_block_isolation t;
     it_pending_block_isolation := it_pending_block_isolation t;
     it_begins_forwarded := it_begins_forwarded t;
     it_isolation_mutated_in_block := it_isolation_mutated_in_block t |}.

(** ** Field updates *)

Definition isolation_update (f : IsolationTracker -> IsolationTracker) (c : ConnectionState)
    : ConnectionState :=
  {| cs_isolation := f (cs_isolation c); cs_session_user := cs_session_user c;
     cs_origin_intercept := cs_origin_intercept c; cs_search_path_state := cs_search_path_state c;
     cs_search_path_just_piggyback_resolved := cs_search_path_just_piggyback_resolved c;
     cs_search_path_auto_reported := cs_search_path_auto_reported c; cs_injected := cs_injected c;
     cs_maps := cs_maps c; cs_write_log := cs_write_log c |}.

(** Install an intercept, pushing the probe it waits for (none when one ends). *)
Definition intercept_set (i : OriginIntercept) (probes : list Probe) (c : ConnectionState)
    : ConnectionState :=
  {| cs_isolation := cs_isolation c; cs_session_user := cs_session_user c;
     cs_origin_intercept := i; cs_search_path_state := cs_search_path_state c;
     cs_search_path_just_piggyback_resolved := cs_search_path_just_piggyback_resolved c;
     cs_search_path_auto_reported := cs_search_path_auto_reported c;
     cs_injected := cs_injected c ++ probes;
     cs_maps := cs_maps c; cs_write_log := cs_write_log c |}.

Definition search_path_set (st : SearchPathState) (piggyback auto_reported : bool)
    (c : ConnectionState) : ConnectionState :=
  {| cs_isolation := cs_isolation c; cs_session_user := cs_session_user c;
     cs_origin_intercept := cs_origin_intercept c; cs_search_path_state := st;
     cs_search_path_just_piggyback_resolved := piggyback;
     cs_search_path_auto_reported := auto_reported; cs_injected := cs_injected c;
     cs_maps := cs_maps c; cs_write_log := cs_write_log c |}.

Definition maps_update (f : M -> M) (c : ConnectionState) : ConnectionState :=
  {| cs_isolation := cs_isolation c; cs_session_user := cs_session_user c;
     cs_origin_intercept := cs_origin_intercept c; cs_search_path_state := cs_search_path_state c;
     cs_search_path_just_piggyback_resolved := cs_search_path_just_piggyback_resolved c;
     cs_search_path_auto_reported := cs_search_path_auto_reported c; cs_injected := cs_injected c;
     cs_maps := f (cs_maps c); cs_write_log := cs_write_log c |}.

Definition write_log_update (f : WriteLog -> WriteLog) (c : ConnectionState) : ConnectionState :=
  {| cs_isolation := cs_isolation c; cs_session_user := cs_session_user c;
     cs_origin_intercept := cs_origin_intercept c; cs_search_path_state := cs_search_path_state c;
     cs_search_path_just_piggyback_resolved := cs_search_path_just_piggyback_resolved c;
     cs_search_path_auto_reported := cs_search_path_auto_reported c; cs_injected := cs_injected c;
     cs_maps := cs_maps c; cs_write_log := f (cs_write_log c) |}.

(** ** Messages from origin *)

(** A backend message by its type, with the part the handlers read: the first column of a
    row, the frame of a ReadyForQuery, the name and value of a parameter. *)
Inductive OriginMessage :=
| MsgDataRows (first_column : option string)
| MsgReadyForQuery (data : Bytes)
| MsgCommandComplete
| MsgErrorResponse
| MsgRowDescription
| MsgParseComplete
| MsgParameterStatus (parsed : option (string * string))
| MsgOther.

Definition is_ready (m : OriginMessage) : bool :=
  match m with MsgReadyForQuery _ => true | _ => false end.

Section Connection.
(** [str::to_lowercase], and [PgLsn]'s parser of the driver library. *)
Context (to_lowercase : string -> string) (lsn_parse : string -> option N).
Implicit Types (c : ConnectionState).

Definition path_resolved (value : string) (session_user : option string) : SearchPathState :=
  PathResolved (search_path_resolve session_user (search_path_parse to_lowercase value)).

Definition search_path_mark_unknown c : ConnectionState :=
  maps_update describe_clear
    (search_path_set PathUnknown (cs_search_path_just_piggyback_resolved c)
       (cs_search_path_auto_reported c) c).

Definition origin_intercept_idle c : bool :=
  match cs_origin_intercept c with InterceptNone => true | _ => false end.

Definition isolation_probe_inject c : ConnectionState :=
  if negb (isolation_probe_needed (cs_isolation c)) || negb (origin_intercept_idle c) then c
  else intercept_set InterceptDefaultTransactionIsolation [ProbeDefaultIsolation] c.

Definition session_discovery_inject c : ConnectionState :=
  if negb (origin_intercept_idle c) then c
  else match cs_search_path_state c with
       | PathUnknown => intercept_set InterceptSearchPath [ProbeSearchPath] c
       | PathResolved _ => isolation_probe_inject c
       end.

(** Returns whether the intercept is complete. *)
Definition default_transaction_isolation_handle (msg : OriginMessage) c : ConnectionState * bool :=
  match msg with
  | MsgDataRows first =>
      match first ≫= isolation_level_parse with
      | Some level => (isolation_update (probe_result level) c, false)
      | None => (c, false)
      end
  | MsgReadyForQuery _ => (c, true)
  | _ => (c, false)
  end.

(** Returns whether the message was consumed. *)
Definition trailing_show_search_path_handle (state : TrailingShowState) (msg : OriginMessage) c
    : ConnectionState * bool :=
  match state with
  | PreShow =>
      match msg with
      | MsgCommandComplete => (intercept_set (InterceptTrailingShowSearchPath InShow) [] c, false)
      | MsgErrorResponse => (intercept_set (InterceptTrailingShowSearchPath ShowError) [] c, false)
      | _ => (c, false)
      end
  | InShow =>
      match msg with
      | MsgDataRows (Some value) =>
          (search_path_set (path_resolved value (cs_session_user c)) true
             (cs_search_path_auto_reported c) c, true)
      | MsgDataRows None => (c, true)
      | MsgReadyForQuery _ => (intercept_set InterceptNone [] c, false)
      | MsgRowDescription | MsgCommandComplete => (c, true)
      | _ => (c, false)
      end
  | ShowError =>
      match msg with
      | MsgReadyForQuery _ => (intercept_set InterceptNone [] c, false)
      | _ => (c, false)
      end
  end.

Definition origin_intercept_handle (msg : OriginMessage) c : ConnectionState * bool :=
  match cs_origin_intercept c with
  | InterceptNone => (c, false)
  | InterceptSearchPath =>
      (match msg with
       | MsgDataRows (Some value) =>
           search_path_set (path_resolved value (cs_session_user c))
             (cs_search_path_just_piggyback_resolved c) (cs_search_path_auto_reported c) c
       | MsgReadyForQuery _ => intercept_set InterceptNone [] c
       | _ => c
       end, true)
  | InterceptLazyParseInline statement_name =>
      match msg with
      | MsgParseComplete =>
          (intercept_set InterceptNone []
             (maps_update (statement_prepared statement_name) c), true)
      | _ => (intercept_set InterceptNone [] c, false)
      end
  | InterceptTrailingShowSearchPath state => trailing_show_search_path_handle state msg c
  | InterceptDefaultTransactionIsolation =>
      let '(c, complete) := default_transaction_isolation_handle msg c in
      (if complete then intercept_set InterceptNone [] c else c, true)
  | InterceptWalLsnProbe stamp_seq =>
      (match msg with
       | MsgDataRows (Some value) =>
           match lsn_parse value with
           | Some lsn => write_log_update (fun l => stamp l stamp_seq lsn) c
           | None => c
           end
       | MsgReadyForQuery _ => intercept_set InterceptNone [] c
       | _ => c
       end, true)
  end.

(** [intercept_ready_followup]; its second probe, for the commit LSN, is the step
    [sys_wal_probe] below. *)
Definition intercept_ready_followup (msg : OriginMessage) c : ConnectionState :=
  if is_ready msg && origin_intercept_idle c then isolation_probe_inject c else c.

Definition parameter_status_handle (parsed : option (string * string)) c : ConnectionState :=
  match parsed with
  | Some (name, value) =>
      if bool_decide (name = "search_path") then
        search_path_set (path_resolved value (cs_session_user c))
          (cs_search_path_just_piggyback_resolved c) true c
      else c
  | None => c
  end.

Definition search_path_reset_needed (was_in_transaction : bool) c : bool :=
  let txn_ended := was_in_transaction && negb (in_transaction (cs_isolation c)) in
  let already_known :=
    cs_search_path_just_piggyback_resolved c || cs_search_path_auto_reported c in
  txn_ended && negb already_known.

Definition ready_for_query_handle (data : Bytes) c : ConnectionState :=
  let previous := it_transaction_status (cs_isolation c) in
  let was_in_transaction := in_transaction (cs_isolation c) in
  let c := isolation_update (status_set (from_ready_for_query data)) c in
  let c := if search_path_reset_needed was_in_transaction c then search_path_mark_unknown c else c in
  let c := search_path_set (cs_search_path_state c) false (cs_search_path_auto_reported c) c in
  let c := isolation_update (isolation_block_transition previous) c in
  session_discovery_inject c.

(** Returns whether the message is relayed to the client.  The arms left out update the
    extended-protocol bookkeeping (statement descriptions, ParseComplete) and strip a SASL
    mechanism; none touches the state modelled here. *)
Definition handle_origin_message (msg : OriginMessage) c : ConnectionState * bool :=
  let '(c, consumed) := origin_intercept_handle msg c in
  if consumed then (intercept_ready_followup msg c, false)
  else
    (match msg with
     | MsgParameterStatus parsed => parameter_status_handle parsed c
     | MsgReadyForQuery data => ready_for_query_handle data c
     | _ => c
     end, true).

(** The messages of a reply, one after the other, and those the client receives. *)
Fixpoint handle_origin_messages (msgs : list OriginMessage) c
    : ConnectionState * list OriginMessage :=
  match msgs with
  | [] => (c, [])
  | msg :: msgs =>
      let '(c, relayed) := handle_origin_message msg c in
      let '(c, out) := handle_origin_messages msgs c in
      (c, if relayed then msg :: out else out)
  end.

(** ** Statements from the client *)

Definition forwarded_effects_apply (effects : StatementEffects) c : ConnectionState :=
  let c := match se_write effects with
           | Some class => write_log_update (fun l => record l class) c
           | None => c
           end in
  isolation_update (isolation_effects_apply effects) c.

Section Statements.
Context {Select Dml : Type} (dml_classify : Dml -> option WriteClass)
  (select_verdict : Select -> SelectVerdict).
Notation Statement := (Statement Select Dml).

(** A simple query: its text and the statements it parses to. *)
Record QueryMessage := { qm_sql : string; qm_statements : list Statement }.

(** Appending the SHOW appends one statement to the parse. *)
Definition query_message_append_show_search_path (msg : QueryMessage) : QueryMessage :=
  {| qm_sql := String.append (qm_sql msg) "; SHOW search_path";
     qm_statements := qm_statements msg ++ [ReadOnlyStmt] |}.

Definition search_path_inspect_query (msg : QueryMessage) c : QueryMessage * ConnectionState :=
  if cs_search_path_auto_reported c then (msg, c)
  else
    let mutations := search_path_mutations_raw (qm_statements msg) in
    let c := if sm_any mutations then search_path_mark_unknown c else c in
    if bool_decide (is_Some (sm_single_piggybackable mutations)) && origin_intercept_idle c then
      (query_message_append_show_search_path msg,
       intercept_set (InterceptTrailingShowSearchPath PreShow) [] c)
    else (msg, c).

Definition search_path_parse_inspect (stmts : list Statement) c : ConnectionState :=
  if cs_search_path_auto_reported c then c
  else if sm_any (search_path_mutations_raw stmts) then search_path_mark_unknown c else c.

(** [simple_query_handle] with [simple_query_route], on a connection that may use the cache,
    for a statement that is forwarded: the inspection may rewrite the
    message, and the effects are those of the rewritten text. *)
Definition simple_query_forward (msg : QueryMessage) c : QueryMessage * ConnectionState :=
  let '(msg, c) := search_path_inspect_query msg c in
  match analyze dml_classify select_verdict (qm_sql msg) (qm_statements msg) with
  | ActForward effects => (msg, forwarded_effects_apply effects c)
  | ActCacheCheck | ActExplain => (msg, c)
  end.

End Statements.
End Connection.

(** ** Origin, as documented *)

(** A server session: the value of [default_transaction_isolation], the level of the open
    block, whether the block has failed, and whether the default was changed inside it. *)
Record Server := {
  sv_default : IsolationLevel;
  sv_block : option IsolationLevel;
  sv_failed : bool;
  sv_touched : bool;
}.

Definition sv_status (s : Server) : TransactionStatus :=
  match sv_block s with
  | None => Idle
  | Some _ => if sv_failed s then Failed else InTransaction
  end.

Definition sv_fail (s : Server) : Server :=
  match sv_block s with
  | None => s
  | Some _ => {| sv_default := sv_default s; sv_block := sv_block s; sv_failed := true;
                 sv_touched := sv_touched s |}
  end.

Definition sv_begin (level : IsolationLevel) (s : Server) : Server :=
  {| sv_default := sv_default s; sv_block := Some level; sv_failed := false; sv_touched := false |}.

(** A block's level changes only while a block is open. *)
Definition sv_set_block (level : IsolationLevel) (s : Server) : Server :=
  {| sv_default := sv_default s; sv_block := (fun _ => level) <$> sv_block s; sv_failed := sv_failed s;
     sv_touched := sv_touched s |}.

Definition sv_set_default (level : IsolationLevel) (s : Server) : Server :=
  {| sv_default := level; sv_block := sv_block s; sv_failed := sv_failed s;
     sv_touched := sv_touched s || bool_decide (is_Some (sv_block s)) |}.

Definition sv_end (default : IsolationLevel) (s : Server) : Server :=
  {| sv_default := default; sv_block := None; sv_failed := false; sv_touched := false |}.

(** The block goes on, or on in its successor: the failure is gone, and a default changed
    inside may have been reverted. *)
Definition sv_resume (default : IsolationLevel) (s : Server) : Server :=
  {| sv_default := default; sv_block := sv_block s; sv_failed := false; sv_touched := sv_touched s |}.

(** The isolation levels an option list names; the server applies them in order. *)
Definition option_levels (options : list Node) : list (option ArgNode) :=
  omap (fun n => match n with
                 | NodeDefElem defname arg =>
                     if eq_ignore_ascii_case defname "transaction_isolation" then Some arg else None
                 | NodeArg _ => None
                 end) options.

(** The default after a rollback or a commit: kept, unless it was touched. *)
Definition reverted (s : Server) (default : IsolationLevel) : Prop :=
  sv_touched s = false -> default = sv_default s.

Section System.
Context (to_lowercase : string -> string) (lsn_parse : string -> option N).
Context {Select Dml : Type} (dml_classify : Dml -> option WriteClass)
  (select_verdict : Select -> SelectVerdict).
Notation Statement := (Statement Select Dml).
Implicit Types (stmt : Statement) (c : ConnectionState) (s : Server).

(** What a statement, executed to its end, may do to the server session.  A statement can
    always fail.  Apart from SET, RESET and DISCARD, only a query whose text mentions
    [set_config] changes the default. *)
Inductive server_exec (sql : string) : Statement -> Server -> Server -> Prop :=
| ex_none stmt s : server_exec sql stmt s s
| ex_error stmt s : server_exec sql stmt s (sv_fail s)
| ex_begin kind options chain s level :
    kind = TRANS_STMT_BEGIN \/ kind = TRANS_STMT_START ->
    sv_block s = None ->
    match list.last (option_levels options) with
    | None => level = sv_default s
    | Some (Some (ArgString v)) => pg_level v = Some level
    | Some _ => False
    end ->
    server_exec sql (TransactionStmt kind options chain) s (sv_begin level s)
| ex_begin_again kind options chain s level v :
    kind = TRANS_STMT_BEGIN \/ kind = TRANS_STMT_START ->
    list.last (option_levels options) = Some (Some (ArgString v)) -> pg_level v = Some level ->
    server_exec sql (TransactionStmt kind options chain) s (sv_set_block level s)
| ex_end kind options chain s default :
    kind = TRANS_STMT_COMMIT \/ kind = TRANS_STMT_ROLLBACK \/ kind = TRANS_STMT_PREPARE ->
    reverted s default ->
    server_exec sql (TransactionStmt kind options chain) s (sv_end default s)
| ex_chain kind options s default :
    kind = TRANS_STMT_COMMIT \/ kind = TRANS_STMT_ROLLBACK -> reverted s default ->
    server_exec sql (TransactionStmt kind options true) s (sv_resume default s)
| ex_rollback_to options chain s default :
    reverted s default ->
    server_exec sql (TransactionStmt TRANS_STMT_ROLLBACK_TO options chain) s (sv_resume default s)
| ex_set_transaction name args is_local s v level :
    eq_ignore_ascii_case name "TRANSACTION" = true ->
    list.last (option_levels args) = Some (Some (ArgString v)) -> pg_level v = Some level ->
    server_exec sql (VariableSetStmt VAR_SET_MULTI name args is_local) s (sv_set_block level s)
| ex_set_characteristics name args is_local s v level :
    eq_ignore_ascii_case name "SESSION CHARACTERISTICS" = true ->
    list.last (option_levels args) = Some (Some (ArgString v)) -> pg_level v = Some level ->
    server_exec sql (VariableSetStmt VAR_SET_MULTI name args is_local) s (sv_set_default level s)
| ex_set_guc name v is_local s level s' :
    pg_level v = Some level ->
    (if eq_ignore_ascii_case name "transaction_isolation" then s' = sv_set_block level s
     else if eq_ignore_ascii_case name "default_transaction_isolation"
     then s' = sv_set_default level s else s' = s) ->
    server_exec sql (VariableSetStmt VAR_SET_VALUE name [NodeArg (ArgString v)] is_local) s s'
| ex_reset_guc kind name args is_local s level s' :
    kind = VAR_SET_DEFAULT \/ kind = VAR_SET_CURRENT \/ kind = VAR_RESET ->
    (if eq_ignore_ascii_case name "transaction_isolation" then s' = sv_set_block level s
     else if eq_ignore_ascii_case name "default_transaction_isolation"
     then s' = sv_set_default level s else s' = s) ->
    server_exec sql (VariableSetStmt kind name args is_local) s s'
| ex_reset_all name args is_local s level :
    server_exec sql (VariableSetStmt VAR_RESET_ALL name args is_local) s (sv_set_default level s)
| ex_discard_all s level :
    server_exec sql (DiscardStmt DISCARD_ALL) s (sv_set_default level s)
| ex_set_config stmt s level :
    sql_mentions_set_config sql = true ->
    match stmt with
    | SelectStmt select => select_verdict select <> CacheCheck /\ select_verdict select <> Explain
    | DmlStmt _ | OtherStmt => True
    | _ => False
    end ->
    server_exec sql stmt s (sv_set_default level s).

(** ** The system *)

Inductive Flight := FlProbe (p : Probe) | FlWal | FlClient (sql : string) (stmt : Statement).

(** The proxy's connection, origin's session, the requests on the origin socket in order,
    the messages origin sent in reply to the client's statements and the messages relayed
    to the client. *)
Record System := {
  sy_px : ConnectionState;
  sy_sv : Server;
  sy_flight : list Flight;
  sy_replies : list OriginMessage;
  sy_relayed : list OriginMessage;
}.

Definition system c s flight replies relayed : System :=
  {| sy_px := c; sy_sv := s; sy_flight := flight; sy_replies := replies; sy_relayed := relayed |}.

Definition client_effects (sql : string) stmt : StatementEffects :=
  match analyze dml_classify select_verdict sql [stmt] with
  | ActForward effects => effects
  | ActCacheCheck | ActExplain => effects_read_only IeNone None
  end.

Definition session_effect (e : StatementEffects) : bool :=
  match se_isolation e with IeSessionDefault _ | IeSessionUnknown => true | _ => false end.

Definition is_client (f : Flight) : bool :=
  match f with FlClient _ _ => true | _ => false end.

Definition statement_levels stmt : list (option ArgNode) :=
  match stmt with
  | TransactionStmt _ options _ => option_levels options
  | VariableSetStmt VAR_SET_MULTI _ args _ => option_levels args
  | _ => []
  end.

Definition begins_at_level stmt : bool :=
  match stmt with
  | TransactionStmt (TRANS_STMT_BEGIN | TRANS_STMT_START) options _ =>
      negb (bool_decide (option_levels options = []))
  | _ => false
  end.

(** The clients the theorems are about: one statement at a time; while a probe is in
    flight, no change of the default, and only once the default is known or being read;
    at most one isolation level per statement; no level on a BEGIN inside a block. *)
Definition client_may_send (e : StatementEffects) stmt c (flight : list Flight) : Prop :=
  existsb is_client flight = false /\
  (flight = [] \/
   (session_effect e = false /\
    (flight = [FlProbe ProbeDefaultIsolation] \/
     it_session_isolation (cs_isolation c) <> IsoUnknown))) /\
  length (statement_levels stmt) <= 1 /\
  (begins_at_level stmt = true -> in_transaction (cs_isolation c) = false).

(** The probes the proxy pushed are on the socket. *)
Definition injected_send c (flight : list Flight) : ConnectionState * list Flight :=
  ({| cs_isolation := cs_isolation c; cs_session_user := cs_session_user c;
      cs_origin_intercept := cs_origin_intercept c; cs_search_path_state := cs_search_path_state c;
      cs_search_path_just_piggyback_resolved := cs_search_path_just_piggyback_resolved c;
      cs_search_path_auto_reported := cs_search_path_auto_reported c; cs_injected := [];
      cs_maps := cs_maps c; cs_write_log := cs_write_log c |},
   flight ++ (FlProbe <$> cs_injected c)).

Definition receive c s flight replies relayed (reply : list OriginMessage) : System :=
  let '(c, out) := handle_origin_messages to_lowercase lsn_parse reply c in
  let '(c, flight) := injected_send c flight in
  system c s flight replies (relayed ++ out).

Definition ready s : list OriginMessage := [MsgReadyForQuery (ready_for_query_message (sv_status s))].

Inductive sys_step : System -> System -> Prop :=
| sys_client c s flight replies relayed sql stmt :
    client_may_send (client_effects sql stmt) stmt c flight ->
    sys_step (system c s flight replies relayed)
      (system
         (forwarded_effects_apply (client_effects sql stmt) (search_path_parse_inspect [stmt] c))
         s (flight ++ [FlClient sql stmt]) replies relayed)
| sys_reply c s s' sql stmt flight replies relayed body :
    server_exec sql stmt s s' -> existsb is_ready body = false ->
    sys_step (system c s (FlClient sql stmt :: flight) replies relayed)
      (receive c s' flight (replies ++ body ++ ready s') relayed (body ++ ready s'))
| sys_isolation_reply c s flight replies relayed v :
    pg_level v = Some (sv_default s) ->
    sys_step (system c s (FlProbe ProbeDefaultIsolation :: flight) replies relayed)
      (receive c s flight replies relayed
         ([MsgRowDescription; MsgDataRows (Some v); MsgCommandComplete] ++ ready s))
| sys_search_path_reply c s flight replies relayed body :
    existsb is_ready body = false ->
    sys_step (system c s (FlProbe ProbeSearchPath :: flight) replies relayed)
      (receive c s flight replies relayed (body ++ ready s))
| sys_wal_probe c s replies relayed seq :
    in_transaction (cs_isolation c) = false -> origin_intercept_idle c = true ->
    sys_step (system c s [] replies relayed)
      (system (intercept_set (InterceptWalLsnProbe seq) [] c) s [FlWal] replies relayed)
| sys_wal_reply c s flight replies relayed body :
    existsb is_ready body = false ->
    sys_step (system c s (FlWal :: flight) replies relayed)
      (receive c s flight replies relayed (body ++ ready s)).

(** A connection whose startup message has been forwarded. *)
Definition sys_init (m : M) (user : option string) (log : bool) (default : IsolationLevel) : System :=
  system (connection_new m user log)
    {| sv_default := default; sv_block := None; sv_failed := false; sv_touched := false |}
    [FlClient EmptyString ReadOnlyStmt] [] [].

(** ** The effect a statement is given covers what it does *)

Inductive server_effect (e : StatementEffects) (leveled : bool) (s : Server) : Server -> Prop :=
| sf_same : server_effect e leveled s s
| sf_fail : server_effect e leveled s (sv_fail s)
| sf_begin level :
    sv_block s = None -> se_transaction e = Some BoundaryBegin ->
    match se_isolation e with
    | IeTransaction level' => level <> ReadCommitted -> level' <> ReadCommitted
    | _ => level = sv_default s
    end ->
    server_effect e leveled s (sv_begin level s)
| sf_begin_again level : leveled = true -> server_effect e leveled s (sv_set_block level s)
| sf_end default : reverted s default -> server_effect e leveled s (sv_end default s)
| sf_resume default : reverted s default -> server_effect e leveled s (sv_resume default s)
| sf_block level level' :
    se_transaction e <> Some BoundaryBegin -> se_isolation e = IeTransaction level' ->
    (level <> ReadCommitted -> level' <> ReadCommitted) ->
    server_effect e leveled s (sv_set_block level s)
| sf_default level : session_effect e = true -> server_effect e leveled s (sv_set_default level s).

Lemma defelem_find_levels options :
  isolation_defelem_find options = isolation_level_of_arg <$> head (option_levels options).
Proof.
  induction options as [|[arg|defname arg] options IH]; simpl; [done|done|].
  by destruct (eq_ignore_ascii_case defname "transaction_isolation").
Qed.

Lemma single_level (l : list (option ArgNode)) v :
  length l <= 1 -> list.last l = Some (Some (ArgString v)) -> head l = Some (Some (ArgString v)).
Proof. destruct l as [|x [|y l]]; simpl; [done|done|lia]. Qed.

Lemma effects_utility sql stmt transaction isolation :
  non_select_classify dml_classify stmt = NsReadOnly transaction isolation ->
  match stmt with SelectStmt _ => False | _ => True end ->
  client_effects sql stmt =
  effects_read_only
    (if bool_decide (isolation = IeNone)
     then (if sql_mentions_set_config sql then IeSessionUnknown else IeNone) else isolation)
    transaction.
Proof. intros H Hs. unfold client_effects, analyze. destruct stmt; try done; by rewrite H. Qed.

Lemma level_scope_effect scope v level :
  pg_level v = Some level ->
  scope_effect scope (isolation_level_of_arg (Some (ArgString v))) =
  match scope with ScopeTransaction => IeTransaction level | ScopeSession => IeSessionDefault level end.
Proof. intros H. simpl. rewrite (isolation_level_parse_pg v level H). by destruct scope. Qed.

Lemma levels_effect sql name args is_local scope v level :
  length (option_levels args) <= 1 ->
  list.last (option_levels args) = Some (Some (ArgString v)) -> pg_level v = Some level ->
  set_characteristics_effect name args =
    match isolation_defelem_find args with None => IeNone | Some l => scope_effect scope l end ->
  client_effects sql (VariableSetStmt VAR_SET_MULTI name args is_local) =
  effects_read_only
    match scope with ScopeTransaction => IeTransaction level | ScopeSession => IeSessionDefault level end
    None.
Proof.
  intros Hl Hlast Hv Hsc. erewrite effects_utility; [|simpl; rewrite Hsc|done].
  2: { rewrite defelem_find_levels, (single_level _ _ Hl Hlast). cbn [fmap option_fmap option_map].
       by rewrite (level_scope_effect _ _ _ Hv). }
  by destruct scope.
Qed.

(** SET and RESET of one of the two settings: the effect names the level, or none. *)
Lemma guc_effect kind name args is_local scope :
  isolation_guc_scope name = Some scope -> kind <> VAR_RESET_ALL -> kind <> VAR_SET_MULTI ->
  exists lv,
    variable_set_isolation_effect kind name args is_local = scope_effect scope lv /\
    (forall v l, kind = VAR_SET_VALUE -> args = [NodeArg (ArgString v)] -> pg_level v = Some l ->
       lv = Some l \/ lv = None) /\
    (kind <> VAR_SET_VALUE -> lv = None).
Proof.
  intros Hs H1 H2. unfold variable_set_isolation_effect. rewrite Hs.
  destruct kind; try done; simpl; try (exists None; split_and!; [done|by right|done]).
  destruct is_local; simpl; [by exists None; split_and!; [|right|]|].
  eexists. split_and!; [done| |done]. intros v l _ -> Hl. left. simpl.
  by apply isolation_level_parse_pg.
Qed.

Lemma guc_exec sql kind name args is_local leveled s level s' :
  kind <> VAR_RESET_ALL -> kind <> VAR_SET_MULTI ->
  (kind <> VAR_SET_VALUE \/
   exists v, kind = VAR_SET_VALUE /\ args = [NodeArg (ArgString v)] /\ pg_level v = Some level) ->
  (if eq_ignore_ascii_case name "transaction_isolation" then s' = sv_set_block level s
   else if eq_ignore_ascii_case name "default_transaction_isolation"
   then s' = sv_set_default level s else s' = s) ->
  server_effect (client_effects sql (VariableSetStmt kind name args is_local)) leveled s s'.
Proof.
  intros H1 H2 Hk Hs. destruct (isolation_guc_scope name) as [scope|] eqn:Eg.
  - destruct (guc_effect kind name args is_local scope Eg H1 H2) as (lv & He & Hv & Hn).
    assert (Hlv : lv = Some level \/ lv = None).
    { destruct Hk as [Hk|(v & E1 & E2 & E3)]; [right|]; eauto. }
    assert (Hc : client_effects sql (VariableSetStmt kind name args is_local) =
                 effects_read_only (scope_effect scope lv) None).
    { erewrite effects_utility; [|by simpl; rewrite He|done]. rewrite bool_decide_false; [done|].
      by destruct scope, lv. }
    unfold isolation_guc_scope in Eg.
    destruct (eq_ignore_ascii_case name "transaction_isolation"); [|destruct (eq_ignore_ascii_case name _)];
      simplify_eq.
    + destruct Hlv as [-> | ->]; eapply sf_block; rewrite ?Hc; done.
    + apply sf_default. unfold session_effect. rewrite Hc. by destruct lv.
  - unfold isolation_guc_scope in Eg.
    destruct (eq_ignore_ascii_case name "transaction_isolation"); [done|].
    destruct (eq_ignore_ascii_case name _); [done|]. subst s'. apply sf_same.
Qed.

Lemma begin_exec sql kind options chain leveled s level :
  kind = TRANS_STMT_BEGIN \/ kind = TRANS_STMT_START -> sv_block s = None ->
  length (option_levels options) <= 1 ->
  match list.last (option_levels options) with
  | None => level = sv_default s
  | Some (Some (ArgString v)) => pg_level v = Some level
  | Some _ => False
  end ->
  server_effect (client_effects sql (TransactionStmt kind options chain)) leveled s (sv_begin level s).
Proof.
  intros Hk Hb Hl Hlev.
  assert (Hc : client_effects sql (TransactionStmt kind options chain) = effects_read_only
    (if bool_decide (begin_isolation_effect options = IeNone)
     then (if sql_mentions_set_config sql then IeSessionUnknown else IeNone)
     else begin_isolation_effect options) (Some BoundaryBegin)).
  { by destruct Hk as [-> | ->]. }
  apply sf_begin; rewrite ?Hc; [done|done|]. simpl.
  unfold begin_isolation_effect. rewrite defelem_find_levels.
  destruct (list.last (option_levels options)) as [[[v|]|]|] eqn:El; try done.
  - rewrite (single_level _ _ Hl El). cbn [fmap option_fmap option_map].
    by rewrite (level_scope_effect _ _ _ Hlev), bool_decide_false.
  - apply last_None in El. rewrite El. simpl. by destruct (sql_mentions_set_config sql).
Qed.

Lemma exec_effects sql stmt s s' :
  server_exec sql stmt s s' -> length (statement_levels stmt) <= 1 ->
  server_effect (client_effects sql stmt) (begins_at_level stmt) s s'.
Proof.
  intros H Hl. destruct H as [stmt s|stmt s|kind options chain s level Hk Hb Hlev
    |kind options chain s level v Hk Hlast Hv|kind options chain s d Hk Hr|kind options s d Hk Hr
    |options chain s d Hr|name args il s v level Hn Hlast Hv|name args il s v level Hn Hlast Hv
    |name v il s level s' Hv Hs|kind name args il s level s' Hk Hs|name args il s level|s level
    |stmt s level Hm Hs]; try (by constructor).
  - by apply begin_exec.
  - apply sf_begin_again. destruct Hk as [-> | ->]; simpl;
      (rewrite bool_decide_false; [done|by intros E; rewrite E in Hlast]).
  - pose proof (levels_effect sql name args il ScopeTransaction v level Hl Hlast Hv) as Hc.
    eapply sf_block; rewrite ?Hc; try done; unfold set_characteristics_effect; by rewrite Hn.
  - apply sf_default. unfold session_effect.
    rewrite (levels_effect sql name args il ScopeSession v level Hl Hlast Hv); [done|].
    unfold set_characteristics_effect. rewrite Hn.
    destruct (eq_ignore_ascii_case name "TRANSACTION") eqn:E; [|reflexivity].
    apply eq_ignore_case_lowercase in E, Hn. rewrite E in Hn. discriminate.
  - eapply guc_exec; eauto 10.
  - eapply guc_exec; eauto; [by destruct_or! Hk; subst..|]. left. by destruct_or! Hk; subst.
  - apply sf_default. unfold session_effect, client_effects, analyze. rewrite Hm.
    destruct stmt; try done; simpl.
    + destruct Hs as [H1 H2]. by destruct (select_verdict _) as [| |[|]].
    + by destruct (dml_classify _).
Qed.

(** ** The tracker follows the server *)

Record tracks (t : IsolationTracker) (s : Server) : Prop := {
  tr_status : it_transaction_status t = sv_status s;
  tr_touched : sv_touched s = true -> is_Some (sv_block s) /\ it_isolation_mutated_in_block t = true;
  tr_session : it_session_isolation t = IsoKnown ReadCommitted ->
    sv_default s = ReadCommitted /\ sv_touched s = false;
  tr_block : forall level, sv_block s = Some level -> level <> ReadCommitted ->
    it_block_isolation t <> IsoKnown ReadCommitted;
  tr_pending : it_pending_block_isolation t <> Some ReadCommitted;
}.

(** The tracker already accounts for the effect of the statement in flight. *)
Record expects (e : StatementEffects) (t : IsolationTracker) : Prop := {
  xp_begin : forall level, se_transaction e = Some BoundaryBegin ->
    se_isolation e = IeTransaction level -> level <> ReadCommitted ->
    it_pending_block_isolation t <> None;
  xp_block : forall level, se_transaction e <> Some BoundaryBegin ->
    se_isolation e = IeTransaction level -> level <> ReadCommitted ->
    in_transaction t = true -> it_block_isolation t <> IsoKnown ReadCommitted;
  xp_session : session_effect e = true ->
    it_session_isolation t <> IsoKnown ReadCommitted /\
    (in_transaction t = true -> it_isolation_mutated_in_block t = true);
}.

Lemma ready_roundtrip st : from_ready_for_query (ready_for_query_message st) = st.
Proof. by destruct st. Qed.

Lemma in_transaction_block t s : tracks t s -> in_transaction t = bool_decide (is_Some (sv_block s)).
Proof.
  intros H. unfold in_transaction. rewrite (tr_status _ _ H). unfold sv_status.
  destruct (sv_block s) as [l|]; [by destruct (sv_failed s)|done].
Qed.

Lemma effects_tracks e t s : tracks t s -> tracks (isolation_effects_apply e t) s.
Proof.
  intros [H1 H2 H3 H4 H5]. unfold isolation_effects_apply, transaction_isolation_apply.
  destruct (bool_decide (se_transaction e = Some BoundaryBegin)), (se_isolation e) as [|l|[]|];
    simpl; repeat case_match; bool_hyps; (split; simpl; try done);
    try (intros HH; apply H2 in HH as [? ->]; by split); intros; try congruence; eauto.
Qed.

Lemma effects_expects e t : expects e (isolation_effects_apply e t).
Proof.
  unfold isolation_effects_apply, transaction_isolation_apply. split.
  - intros l Hb Hi Hl. rewrite bool_decide_true, Hi by done. rewrite bool_decide_false by done. done.
  - intros l Hb Hi Hl. rewrite bool_decide_false, Hi by done. rewrite bool_decide_false by done.
    unfold forwarding_into_block. intros Hin. case_match eqn:E; simpl in *; [congruence|].
    by rewrite Hin in E.
  - unfold session_effect, forwarding_into_block, in_transaction. intros Hs.
    destruct (bool_decide (se_transaction e = Some BoundaryBegin)), (se_isolation e) as [|l|[]|]; try done;
      simpl; (split; [done|]); intros Hin; apply orb_true_iff; right; by apply orb_true_iff; left.
Qed.

Definition after_ready (s' : Server) (t : IsolationTracker) : IsolationTracker :=
  isolation_block_transition (it_transaction_status t) (status_set (sv_status s') t).

Ltac server_cases s :=
  unfold after_ready, isolation_block_transition, in_transaction, status_set, sv_status,
    sv_fail, sv_begin, sv_set_block, sv_set_default, sv_end, sv_resume in *;
  destruct s as [d [l|] [|] [|]]; simpl in *.

(** A block is entered at the pending level, or at the session's. *)
Lemma enter_tracks e t level s :
  tracks t s -> expects e t -> se_transaction e = Some BoundaryBegin ->
  match se_isolation e with
  | IeTransaction level' => level <> ReadCommitted -> level' <> ReadCommitted
  | _ => level = sv_default s
  end ->
  level <> ReadCommitted ->
  match it_pending_block_isolation t with
  | Some pending => IsoKnown pending
  | None => it_session_isolation t
  end <> IsoKnown ReadCommitted.
Proof.
  intros Ht Hx Hb Hi Hl. pose proof (tr_pending _ _ Ht) as Hp.
  destruct (it_pending_block_isolation t) as [pending|] eqn:Ep; [congruence|]. intros Hs.
  destruct (tr_session _ _ Ht Hs) as [Hd _].
  destruct (se_isolation e) eqn:Ei; try congruence. by apply (xp_begin _ _ Hx _ Hb Ei (Hi Hl)).
Qed.

Lemma reply_tracks e leveled t s s' :
  tracks t s -> expects e t -> (leveled = true -> sv_block s = None) ->
  server_effect e leveled s s' -> tracks (after_ready s' t) s'.
Proof.
  intros Htr Hx Hlev He. pose proof (enter_tracks e t) as Hent.
  pose proof Htr as [H1 H2 H3 H4 H5]. pose proof Hx as [X1 X2 X3].
  destruct He as [| |level Hb Ht Hi|level Hl|d' Hr|d' Hr|level level' Ht Hi Hl|level Hs];
    [| |specialize (Hent level _ Htr Hx Ht Hi)| | | |specialize (X2 _ Ht Hi)|specialize (X3 Hs)];
    unfold reverted in *; server_cases s; rewrite H1 in *; simpl in *;
    try (destruct (H2 eq_refl) as [[? [=]] _]);
    try (by specialize (Hlev Hl));
    (split; simpl; try done); intros; simplify_eq; eauto; try (by destruct X3);
    try (by destruct (H2 eq_refl); eauto).
  all: try (by rewrite Hr by done; eauto).
  all: try (destruct (H2 eq_refl) as [_ Hm]; rewrite Hm in *; done).
  all: try (by case_match; [done|]; rewrite Hr by done; eauto).
  all: try (by destruct H3; [done|]).
  all: destruct X3; eauto.
Qed.

(** ** Replies *)

Lemma handle_app xs ys c :
  handle_origin_messages to_lowercase lsn_parse (xs ++ ys) c =
  let '(c, out) := handle_origin_messages to_lowercase lsn_parse xs c in
  let '(c, out') := handle_origin_messages to_lowercase lsn_parse ys c in (c, out ++ out').
Proof.
  revert c. induction xs as [|m xs IH]; intros c; simpl.
  - by destruct (handle_origin_messages _ _ ys c).
  - destruct (handle_origin_message to_lowercase lsn_parse m c) as [c1 r].
    rewrite IH. destruct (handle_origin_messages _ _ xs c1) as [c2 out].
    destruct (handle_origin_messages _ _ ys c2) as [c3 out']. by destruct r.
Qed.

(** The parts of the state the tracker and the intercepts live in. *)
Definition same_core (c c' : ConnectionState) : Prop :=
  cs_isolation c' = cs_isolation c /\ cs_origin_intercept c' = cs_origin_intercept c /\
  cs_injected c' = cs_injected c.

#[local] Instance same_core_preorder : PreOrder same_core.
Proof. split; [done|]. intros a b c (? & ? & ?) (? & ? & ?). split_and!; congruence. Qed.

Lemma handle_relay body c :
  cs_origin_intercept c = InterceptNone -> existsb is_ready body = false ->
  exists c', handle_origin_messages to_lowercase lsn_parse body c = (c', body) /\ same_core c c'.
Proof.
  revert c. induction body as [|m body IH]; intros c Hi Hb; cbn [existsb] in Hb; [by exists c|].
  bool_hyps.
  assert (Hm : exists c1, handle_origin_message to_lowercase lsn_parse m c = (c1, true) /\ same_core c c1).
  { unfold handle_origin_message, origin_intercept_handle. rewrite Hi.
    destruct m as [| | | | | |[[name value]|]|]; try done; eexists; (split; [reflexivity|]); try done.
    simpl. by case_bool_decide. }
  destruct Hm as (c1 & Hm & Hc1). destruct (IH c1) as (c2 & Hb2 & Hc2);
    [destruct Hc1 as (_ & -> & _); done|done|].
  exists c2. simpl. rewrite Hm, Hb2. split; [done|]. by etrans.
Qed.

Lemma handle_isolation m c :
  cs_origin_intercept c = InterceptDefaultTransactionIsolation -> is_ready m = false ->
  handle_origin_message to_lowercase lsn_parse m c =
  ((default_transaction_isolation_handle m c).1, false).
Proof.
  intros Hi Hm. unfold handle_origin_message, origin_intercept_handle. rewrite Hi.
  unfold default_transaction_isolation_handle, intercept_ready_followup.
  destruct m as [first| | | | | | |]; try done. by destruct (first ≫= isolation_level_parse).
Qed.

Definition swallowing (i : OriginIntercept) : bool :=
  match i with InterceptSearchPath | InterceptWalLsnProbe _ => true | _ => false end.

Lemma handle_swallow body c :
  swallowing (cs_origin_intercept c) = true -> existsb is_ready body = false ->
  exists c', handle_origin_messages to_lowercase lsn_parse body c = (c', []) /\ same_core c c'.
Proof.
  revert c. induction body as [|m body IH]; intros c Hi Hb; cbn [existsb] in Hb; [by exists c|].
  bool_hyps.
  assert (Hm : exists c1, handle_origin_message to_lowercase lsn_parse m c = (c1, false) /\ same_core c c1).
  { unfold handle_origin_message, origin_intercept_handle, intercept_ready_followup.
    destruct (cs_origin_intercept c) eqn:Ei; try done; destruct m as [[v|]| | | | | | |]; try done;
      eexists; (split; [reflexivity|]); simpl; try done. by destruct (lsn_parse v). }
  destruct Hm as (c1 & Hm & Hc1). destruct (IH c1) as (c2 & Hb2 & Hc2);
    [destruct Hc1 as (_ & -> & _); done|done|].
  exists c2. simpl. rewrite Hm, Hb2. split; [done|]. by etrans.
Qed.

(** The outcome of a probe decision: none, or one probe with its intercept. *)
Definition probing (c : ConnectionState) (path_too : bool) : Prop :=
  (cs_origin_intercept c = InterceptNone /\ cs_injected c = []) \/
  (path_too = true /\ cs_origin_intercept c = InterceptSearchPath /\ cs_injected c = [ProbeSearchPath]) \/
  (cs_origin_intercept c = InterceptDefaultTransactionIsolation /\
   cs_injected c = [ProbeDefaultIsolation] /\ isolation_probe_needed (cs_isolation c) = true).

Lemma probe_inject_probing c path_too :
  cs_origin_intercept c = InterceptNone -> cs_injected c = [] ->
  cs_isolation (isolation_probe_inject c) = cs_isolation c /\ probing (isolation_probe_inject c) path_too.
Proof.
  intros Hi Hj. unfold isolation_probe_inject, origin_intercept_idle, probing. rewrite Hi. simpl.
  rewrite orb_false_r.
  destruct (isolation_probe_needed (cs_isolation c)) eqn:E; simpl; [|by rewrite Hi, Hj; auto].
  rewrite Hj. auto 10.
Qed.

Lemma discovery_probing c :
  cs_origin_intercept c = InterceptNone -> cs_injected c = [] ->
  cs_isolation (session_discovery_inject c) = cs_isolation c /\ probing (session_discovery_inject c) true.
Proof.
  intros Hi Hj. unfold session_discovery_inject, origin_intercept_idle. rewrite Hi. simpl.
  destruct (cs_search_path_state c); [|by apply probe_inject_probing].
  split; [done|]. right; left. simpl. by rewrite Hj.
Qed.

Lemma handle_ready_relay s' c :
  cs_origin_intercept c = InterceptNone -> cs_injected c = [] ->
  exists c', handle_origin_messages to_lowercase lsn_parse (ready s') c = (c', ready s') /\
    cs_isolation c' = after_ready s' (cs_isolation c) /\ probing c' true.
Proof.
  intros Hi Hj. unfold ready. simpl. unfold handle_origin_message, origin_intercept_handle.
  rewrite Hi. simpl. unfold ready_for_query_handle. rewrite ready_roundtrip.
  match goal with |- context [session_discovery_inject ?x] => destruct (discovery_probing x) as [E Hp] end.
  { by destruct (search_path_reset_needed _ _). }
  { by destruct (search_path_reset_needed _ _). }
  eexists. split; [reflexivity|]. split; [|done]. rewrite E. unfold after_ready. simpl.
  by destruct (search_path_reset_needed _ _).
Qed.

Lemma handle_ready_probe s' c :
  swallowing (cs_origin_intercept c) = true \/
    cs_origin_intercept c = InterceptDefaultTransactionIsolation ->
  cs_injected c = [] ->
  exists c', handle_origin_messages to_lowercase lsn_parse (ready s') c = (c', []) /\
    cs_isolation c' = cs_isolation c /\ probing c' false.
Proof.
  intros Hi Hj. unfold ready. simpl. unfold handle_origin_message.
  assert (Ho : origin_intercept_handle to_lowercase lsn_parse
    (MsgReadyForQuery (ready_for_query_message (sv_status s'))) c = (intercept_set InterceptNone [] c, true)).
  { unfold origin_intercept_handle. destruct Hi as [Hi|Hi]; [|by rewrite Hi].
    by destruct (cs_origin_intercept c). }
  rewrite Ho. unfold intercept_ready_followup. simpl.
  destruct (probe_inject_probing (intercept_set InterceptNone [] c) false) as [E Hp];
    [done|by simpl; rewrite Hj|].
  eexists. split; [reflexivity|]. by rewrite E.
Qed.

(** ** The invariant of the system *)

(** The head of the flight and the intercept agree; behind a probe there is at most one
    statement. *)
Definition head_intercept (i : OriginIntercept) (flight : list Flight) : Prop :=
  match flight with
  | [] => i = InterceptNone
  | FlClient _ _ :: rest => i = InterceptNone /\ rest = []
  | f :: rest =>
      match f with
      | FlProbe ProbeSearchPath => i = InterceptSearchPath
      | FlProbe ProbeDefaultIsolation => i = InterceptDefaultTransactionIsolation
      | FlWal => exists seq, i = InterceptWalLsnProbe seq
      | FlClient _ _ => False
      end /\ (rest = [] \/ exists sql stmt, rest = [FlClient sql stmt])
  end.

Record client_inv (sql : string) stmt (t : IsolationTracker) s (flight : list Flight) : Prop := {
  ci_expects : expects (client_effects sql stmt) t;
  ci_levels : length (statement_levels stmt) <= 1;
  ci_nested : begins_at_level stmt = true -> sv_block s = None;
  ci_session : session_effect (client_effects sql stmt) = true -> flight = [FlClient sql stmt];
}.

Record sys_inv (w : System) : Prop := {
  si_tracks : tracks (cs_isolation (sy_px w)) (sy_sv w);
  si_head : head_intercept (cs_origin_intercept (sy_px w)) (sy_flight w);
  si_idle : forall rest, sy_flight w = FlProbe ProbeDefaultIsolation :: rest -> sv_block (sy_sv w) = None;
  si_known : forall f rest, sy_flight w = f :: rest -> rest <> [] ->
    f <> FlProbe ProbeDefaultIsolation -> it_session_isolation (cs_isolation (sy_px w)) <> IsoUnknown;
  si_client : forall sql stmt, FlClient sql stmt ∈ sy_flight w ->
    client_inv sql stmt (cs_isolation (sy_px w)) (sy_sv w) (sy_flight w);
  si_injected : cs_injected (sy_px w) = [];
  si_relayed : sy_relayed w = sy_replies w;
}.

(** After a reply: the flight is what the proxy injected. *)
Lemma inv_probing c s replies path_too :
  tracks (cs_isolation c) s -> probing c path_too ->
  let '(c', flight) := injected_send c [] in sys_inv (system c' s flight replies replies).
Proof.
  intros Ht Hp. pose proof (in_transaction_block _ _ Ht) as Hin. simpl.
  destruct Hp as [[Hi Hj]|[(_ & Hi & Hj)|(Hi & Hj & Hn)]]; rewrite Hj; simpl;
    (split; simpl; [done|rewrite ?Hi; auto|..|done|done]); try done.
  - by intros ? ? ?%elem_of_nil.
  - by intros f rest [= <- <-].
  - intros sql stmt H. apply list_elem_of_singleton in H. done.
  - intros rest _. unfold isolation_probe_needed in Hn. rewrite Hin in Hn. bool_hyps.
    by destruct (sv_block s); [exfalso; eauto|].
  - by intros f rest [= <- <-].
  - intros sql stmt H. apply list_elem_of_singleton in H. done.
Qed.

Lemma inv_probe_done c s rest replies :
  tracks (cs_isolation c) s -> probing c false ->
  rest = [] \/ (exists sql stmt, rest = [FlClient sql stmt] /\
    client_inv sql stmt (cs_isolation c) s rest /\
    it_session_isolation (cs_isolation c) <> IsoUnknown) ->
  let '(c', flight) := injected_send c rest in sys_inv (system c' s flight replies replies).
Proof.
  intros Ht Hp [->|(sql & stmt & -> & Hc & Hk)]; [by apply (inv_probing c s replies false)|].
  destruct Hp as [[Hi Hj]|[(? & _)|(_ & _ & Hn)]]; [|done|].
  - simpl. rewrite Hj. simpl. split; simpl; [done|rewrite Hi; auto|done| |..|done|done].
    + by intros f rest [= <- <-].
    + intros sql' stmt' H. apply list_elem_of_singleton in H. by simplify_eq.
  - unfold isolation_probe_needed in Hn. by bool_hyps.
Qed.

Lemma client_inv_tail f sql stmt t s :
  client_inv sql stmt t s [f; FlClient sql stmt] -> client_inv sql stmt t s [FlClient sql stmt].
Proof. intros [H1 H2 H3 H4]. split; [done..|]. intros Hs. by apply H4 in Hs. Qed.

(** A probe of any other kind is swallowed whole and changes nothing the tracker sees. *)
Lemma swallow_inv c s f flight replies relayed body :
  sys_inv (system c s (f :: flight) replies relayed) ->
  swallowing (cs_origin_intercept c) = true -> f <> FlProbe ProbeDefaultIsolation ->
  existsb is_ready body = false ->
  sys_inv (receive c s flight replies relayed (body ++ ready s)).
Proof.
  intros [H1 H2 _ H4 H5 H6 H7] Hsw Hf Hb. simpl in *. subst relayed.
  destruct (handle_swallow body c Hsw Hb) as (c1 & Hh & E1 & E2 & E3).
  destruct (handle_ready_probe s c1) as (c2 & Hr & E4 & Hp); [by left; rewrite E2|congruence|].
  unfold receive. rewrite handle_app, Hh, Hr. cbn [app]. rewrite app_nil_r.
  apply inv_probe_done; [by rewrite E4, E1|done|].
  assert (Hrest : flight = [] \/ exists sql stmt, flight = [FlClient sql stmt]).
  { destruct f as [[]| |]; [by destruct H2..|]. by destruct H2 as [H2 _]; rewrite H2 in Hsw. }
  destruct Hrest as [->|(sql & stmt & ->)]; [by left|right]. exists sql, stmt.
  rewrite E4, E1. split_and!; [done| |].
  - apply (client_inv_tail f). apply H5. set_solver.
  - by eapply (H4 f).
Qed.

Lemma client_step_inv c s flight replies relayed sql stmt :
  sys_inv (system c s flight replies relayed) ->
  client_may_send (client_effects sql stmt) stmt c flight ->
  sys_inv (system
    (forwarded_effects_apply (client_effects sql stmt) (search_path_parse_inspect [stmt] c))
    s (flight ++ [FlClient sql stmt]) replies relayed).
Proof.
  intros [H1 H2 H3 H4 H5 H6 H7] (Hnc & Hsend & Hlev & Hnest). simpl in *.
  set (e := client_effects sql stmt) in *.
  remember (forwarded_effects_apply e (search_path_parse_inspect [stmt] c)) as c' eqn:Ec.
  assert (Hcore : cs_isolation c' = isolation_effects_apply e (cs_isolation c) /\
    cs_origin_intercept c' = cs_origin_intercept c /\ cs_injected c' = cs_injected c).
  { subst c'. unfold forwarded_effects_apply, search_path_parse_inspect.
    destruct (se_write e), (cs_search_path_auto_reported c); simpl; try done; by case_match. }
  clear Ec. destruct Hcore as (E1 & E2 & E3).
  assert (Hfl : flight = [] \/ exists f, flight = [f] /\ is_client f = false).
  { destruct flight as [|f [|g rest]]; [by left|right; exists f; split; [done|by destruct f]|].
    exfalso. simpl in Hnc. bool_hyps. destruct f as [[]| |]; simpl in *; try done;
      destruct H2 as [_ [?|(? & ? & ?)]]; simplify_eq; done. }
  assert (Hci : client_inv sql stmt (isolation_effects_apply e (cs_isolation c)) s (flight ++ [FlClient sql stmt])).
  { split; [apply effects_expects|done| |].
    - intros Hb. apply Hnest in Hb. rewrite (in_transaction_block _ _ H1) in Hb. bool_hyps.
      destruct (sv_block s); [exfalso; eauto|done].
    - intros Hs. destruct Hsend as [->|[Hs' _]]; [done|]. subst e. congruence. }
  split; simpl; rewrite ?E1, ?E2, ?E3; try done.
  - by apply effects_tracks.
  - destruct Hfl as [->|(f & -> & Hf)]; simpl in *; [done|].
    destruct f as [[]| |]; try done; (split; [by destruct H2|right; eauto]).
  - intros rest Hr. destruct Hfl as [->|(f & -> & Hf)]; simpl in *; simplify_eq. by apply (H3 []).
  - intros f rest Hr Hne Hf. destruct Hsend as [->|[Hs [->|Hk]]]; simpl in *; simplify_eq.
    unfold isolation_effects_apply, session_effect, transaction_isolation_apply in *.
    destruct (bool_decide (se_transaction e = Some BoundaryBegin)), (se_isolation e); try done; simpl;
      by repeat case_match.
  - intros sql' stmt' Hin. apply elem_of_app in Hin as [Hin|Hin%list_elem_of_singleton].
    + rewrite existsb_false in Hnc. by apply Hnc in Hin.
    + by simplify_eq.
Qed.

Lemma sys_step_inv w w' : sys_step w w' -> sys_inv w -> sys_inv w'.
Proof.
  intros Hstep H. destruct Hstep as [c s flight replies relayed sql stmt Hs
    |c s s' sql stmt flight replies relayed body Hex Hb|c s flight replies relayed v Hv
    |c s flight replies relayed body Hb|c s replies relayed seq Hin Hidle|c s flight replies relayed body Hb].
  - by apply client_step_inv.
  - destruct H as [H1 [Hi ->] H3 H4 H5 H6 H7]. simpl in *. subst relayed.
    destruct (H5 sql stmt) as [X1 X2 X3 X4]; [by left|].
    destruct (handle_relay body c Hi Hb) as (c1 & Hh & E1 & E2 & E3).
    destruct (handle_ready_relay s' c1) as (c2 & Hr & E4 & Hp); [congruence..|].
    unfold receive. rewrite handle_app, Hh, Hr. apply (inv_probing c2 s' _ true); [|done].
    rewrite E4, E1. by eapply reply_tracks, exec_effects.
  - destruct H as [H1 [Hi Hrest] H3 H4 H5 H6 H7].
    cbn [system sy_px sy_sv sy_flight sy_replies sy_relayed] in *. subst relayed.
    specialize (H3 flight eq_refl).
    assert (Hh : handle_origin_messages to_lowercase lsn_parse
      [MsgRowDescription; MsgDataRows (Some v); MsgCommandComplete] c =
      (isolation_update (probe_result (sv_default s)) c, [])).
    { cbn [handle_origin_messages]. rewrite !handle_isolation by done.
      unfold default_transaction_isolation_handle. cbn [mbind option_bind fst].
      by rewrite (isolation_level_parse_pg v _ Hv), !handle_isolation. }
    destruct (handle_ready_probe s (isolation_update (probe_result (sv_default s)) c))
      as (c2 & Hr & E4 & Hp); [by right|done|].
    unfold receive. rewrite handle_app, Hh, Hr. cbn [app]. rewrite app_nil_r.
    apply inv_probe_done; [|done|].
    + rewrite E4. destruct H1 as [T1 T2 T3 T4 T5]. split; simpl; try done. intros [= ->].
      split; [done|]. destruct (sv_touched s); [|done]. destruct T2 as [[? Hx] _]; [done|]. congruence.
    + destruct Hrest as [->|(sql & stmt & ->)]; [by left|right]. exists sql, stmt.
      destruct (H5 sql stmt) as [[Y1 Y2 Y3] X2 X3 X4]; [set_solver|]. rewrite E4. split_and!; [done| |done].
      split; [|done|done|]; [split; simpl; try done|]; intros Hs; by apply X4 in Hs.
  - eapply swallow_inv; try done. destruct H as [_ [Hi _]]. simpl in Hi. by rewrite Hi.
  - destruct H as [H1 H2 H3 H4 H5 H6 H7]. simpl in *. split; simpl; try done.
    + split; eauto.
    + by intros f rest [= <- <-].
    + intros sql stmt Hx. by apply list_elem_of_singleton in Hx.
    + by rewrite H6.
  - eapply swallow_inv; try done. destruct H as [_ [[seq Hi] _]]. simpl in Hi. by rewrite Hi.
Qed.

Lemma sys_run_inv m user log default w : rtc sys_step (sys_init m user log default) w -> sys_inv w.
Proof.
  intros H. assert (H0 : sys_inv (sys_init m user log default)).
  { split; simpl; try done.
    - by intros f rest [= <- <-].
    - intros sql stmt Hx. apply list_elem_of_singleton in Hx. simplify_eq.
      split; [by split|simpl; lia|done|done]. }
  induction H as [|w1 w2 w3 Hstep _ IH]; [done|]. by eapply IH, sys_step_inv.
Qed.


(** C11: injected probes are invisible. On the same runs (one statement at a time, no
    change of the isolation default while a probe is in flight, no SHOW appended to a
    statement, no Parse forwarded for a served statement), with the proxy's own probes for
    the search path, the isolation default and the commit LSN in flight around the client's
    statements, the messages relayed to the client are exactly origin's replies to its own
    statements: no message of a probe leaks and no reply is swallowed. *)
Theorem probes_invisible m user log default w :
  rtc sys_step (sys_init m user log default) w -> sy_relayed w = sy_replies w.
Proof. intros H. by apply sys_run_inv in H as [_ _ _ _ _ _ H]. Qed.

End System.

(** ** The SHOW appended to a client's statement *)

Definition quiet (m : OriginMessage) : bool :=
  match m with
  | MsgCommandComplete | MsgErrorResponse | MsgReadyForQuery _ | MsgParameterStatus _ => false
  | _ => true
  end.

Section Piggyback.
Context (to_lowercase : string -> string) (lsn_parse : string -> option N).
Implicit Types (c : ConnectionState).

Lemma show_relays st body c :
  st <> InShow -> cs_origin_intercept c = InterceptTrailingShowSearchPath st ->
  forallb quiet body = true ->
  handle_origin_messages to_lowercase lsn_parse body c = (c, body).
Proof.
  intros Hst Hi. induction body as [|m body IH]; cbn [forallb handle_origin_messages]; [done|].
  intros H. bool_hyps.
  replace (handle_origin_message to_lowercase lsn_parse m c) with (c, true); [by rewrite IH|].
  unfold handle_origin_message, origin_intercept_handle. rewrite Hi. by destruct st, m.
Qed.

Lemma discovery_path c :
  cs_search_path_state (session_discovery_inject c) = cs_search_path_state c.
Proof.
  unfold session_discovery_inject, isolation_probe_inject. repeat case_match; simplify_eq; done.
Qed.

(** C12: the statement a SHOW is appended to looks to the client as if it had been sent
    alone.  When it succeeds, its own messages and the final ReadyForQuery are relayed, the
    SHOW's are not, and its row becomes the connection's search path; when it fails, origin
    skips the SHOW, everything is relayed, the search path stays unknown and a probe for
    it is sent. *)
Theorem piggyback_transparent c body value data :
  cs_origin_intercept c = InterceptTrailingShowSearchPath PreShow ->
  cs_search_path_state c = PathUnknown ->
  forallb quiet body = true ->
  (let '(c', out) := handle_origin_messages to_lowercase lsn_parse
     (body ++ [MsgCommandComplete; MsgRowDescription; MsgDataRows (Some value);
               MsgCommandComplete; MsgReadyForQuery data]) c in
   out = body ++ [MsgCommandComplete; MsgReadyForQuery data] /\
   cs_search_path_state c' = path_resolved to_lowercase value (cs_session_user c)) /\
  (let '(c', out) := handle_origin_messages to_lowercase lsn_parse
     (body ++ [MsgErrorResponse; MsgReadyForQuery data]) c in
   out = body ++ [MsgErrorResponse; MsgReadyForQuery data] /\
   cs_search_path_state c' = PathUnknown /\
   cs_origin_intercept c' = InterceptSearchPath /\ cs_injected c' = cs_injected c ++ [ProbeSearchPath]).
Proof.
  intros Hi Hp Hb. rewrite !handle_app, (show_relays PreShow body c) by done. split.
  - cbn [handle_origin_messages]. unfold handle_origin_message at 1, origin_intercept_handle at 1.
    rewrite Hi. cbn -[session_discovery_inject]. unfold ready_for_query_handle. split; [done|].
    rewrite discovery_path. unfold search_path_reset_needed. cbn. rewrite andb_false_r. done.
  - cbn [handle_origin_messages]. unfold handle_origin_message at 1, origin_intercept_handle at 1.
    rewrite Hi. cbn -[session_discovery_inject]. unfold ready_for_query_handle.
    split; [done|].
    match goal with |- context [session_discovery_inject ?x] =>
      assert (Hx : cs_search_path_state x = PathUnknown /\ origin_intercept_idle x = true /\
                   cs_injected x = cs_injected c) by
        (simpl; destruct (search_path_reset_needed _ _); simpl; rewrite ?app_nil_r; done) end.
    destruct Hx as (Hx1 & Hx2 & Hx3).
    unfold session_discovery_inject. rewrite Hx1, Hx2. cbn. rewrite <- Hx3. done.
Qed.

End Piggyback.

End Session.

(** A connection with no statement. *)
#[global] Instance no_statements : StatementMaps unit :=
  {| describe_clear m := m; statement_prepared _ m := m |}.

(** ** Histories outside the discipline *)

Module SessionGap.
Implicit Types (c : Connection unit).

Definition begin_plain : StatementEffects := effects_read_only IeNone (Some BoundaryBegin).
Definition commit_plain : StatementEffects := effects_read_only IeNone (Some BoundaryEnd).
Definition begin_serializable : StatementEffects :=
  effects_read_only (IeTransaction Serializable) (Some BoundaryBegin).
Definition set_serializable : StatementEffects :=
  effects_read_only (IeTransaction Serializable) None.
Definition set_default_serializable : StatementEffects :=
  effects_read_only (IeSessionDefault Serializable) None.

(** ReadyForQuery with the given status. *)
Definition rfq (st : TransactionStatus) (t : IsolationTracker) : IsolationTracker :=
  isolation_block_transition (it_transaction_status t) (status_set st t).

Definition idle_read_committed (t : IsolationTracker) : Prop :=
  it_transaction_status t = Idle /\ it_session_isolation t = IsoKnown ReadCommitted /\
  it_pending_block_isolation t = None.

(** BEGIN and SET TRANSACTION ISOLATION LEVEL SERIALIZABLE sent without waiting: the
    ReadyForQuery of BEGIN overwrites the level SET TRANSACTION had set, and reads are
    served inside a serializable block. *)
Theorem pipelined_set_transaction_lost t :
  idle_read_committed t ->
  transaction_serve_check
    (rfq InTransaction (rfq InTransaction
       (isolation_effects_apply set_serializable (isolation_effects_apply begin_plain t)))) = inr tt.
Proof.
  intros (H1 & H2 & H3). destruct t as [st se bl pe bf mu]. simpl in *. subst.
  unfold isolation_effects_apply, transaction_isolation_apply, forwarding_into_block. simpl.
  by destruct (0 <? _)%N.
Qed.

(** BEGIN; COMMIT; BEGIN ISOLATION LEVEL SERIALIZABLE sent without waiting: the first
    block takes the level meant for the second. *)
Theorem pipelined_level_taken_early t :
  idle_read_committed t -> it_isolation_mutated_in_block t = false ->
  let sent := isolation_effects_apply begin_serializable
    (isolation_effects_apply commit_plain (isolation_effects_apply begin_plain t)) in
  transaction_serve_check (rfq InTransaction (rfq Idle (rfq InTransaction sent))) = inr tt.
Proof.
  intros (H1 & H2 & H3) Hm. destruct t as [st se bl pe bf mu]. simpl in *. by subst.
Qed.

(** BEGIN ISOLATION LEVEL SERIALIZABLE inside a READ COMMITTED block changes the block's
    level at the server; the proxy keeps the level for the next block. *)
Theorem nested_begin_level_ignored t :
  it_transaction_status t = InTransaction -> it_block_isolation t = IsoKnown ReadCommitted ->
  transaction_serve_check (rfq InTransaction (isolation_effects_apply begin_serializable t)) = inr tt.
Proof. intros H1 H2. destruct t as [st se bl pe bf mu]. simpl in *. by subst. Qed.

Notation stmt := (Statement unit unit).
Definition no_lsn (_ : string) : option N := None.
Definition no_dml (_ : unit) : option WriteClass := None.
Definition forward_select (_ : unit) : SelectVerdict := ForwardSelect None.

(** SET default_transaction_isolation TO serializable while the probe is in flight: the
    probe's row, read before the SET ran, makes READ COMMITTED the known default again. *)
Theorem stale_probe_row c :
  cs_origin_intercept c = InterceptDefaultTransactionIsolation ->
  let c' := forwarded_effects_apply set_default_serializable c in
  it_session_isolation (cs_isolation c') = IsoKnown Serializable /\
  it_session_isolation (cs_isolation
    (handle_origin_message ascii_lowercase no_lsn (MsgDataRows (Some "read committed")) c').1) =
  IsoKnown ReadCommitted.
Proof.
  intros Hi. unfold handle_origin_message, origin_intercept_handle. simpl. by rewrite Hi.
Qed.

(** A write leaves a commit-LSN probe in flight; the client sends DISCARD ALL before its
    reply arrives.  At the probe's ReadyForQuery the isolation probe is injected behind
    the outstanding statement: its intercept swallows the statement's reply and, finding
    no level in it, sends a second probe, whose reply the client receives in place of its
    own. *)
Theorem followup_probe_swallows_reply c seq :
  cs_origin_intercept c = InterceptWalLsnProbe seq ->
  it_transaction_status (cs_isolation c) = Idle ->
  it_begins_forwarded (cs_isolation c) = 0%N ->
  let discard : stmt := DiscardStmt DISCARD_ALL in
  let c1 := forwarded_effects_apply (client_effects no_dml forward_select "DISCARD ALL" discard) c in
  let ready := MsgReadyForQuery (ready_for_query_message Idle) in
  let wal_reply := [MsgRowDescription; MsgDataRows (Some "0/1"); MsgCommandComplete; ready] in
  let client_reply := [MsgCommandComplete; ready] in
  let show_reply := [MsgRowDescription; MsgDataRows (Some "read committed"); MsgCommandComplete; ready] in
  (handle_origin_messages ascii_lowercase no_lsn (wal_reply ++ client_reply) c1).1.(cs_injected) =
    cs_injected c ++ [ProbeDefaultIsolation; ProbeDefaultIsolation] /\
  (handle_origin_messages ascii_lowercase no_lsn
     (wal_reply ++ client_reply ++ show_reply ++ show_reply) c1).2 = show_reply.
Proof.
  intros Hi Hs Hb. destruct c as [[st se bl pe bf mu] us ic sp jp ar inj mp wl]. simpl in *. subst.
  split; [simpl; by rewrite !app_nil_r, <- app_assoc|reflexivity].
Qed.

(** A probe whose reply carries no readable row is sent again at once. *)
Theorem unreadable_probe_loops c data :
  cs_origin_intercept c = InterceptDefaultTransactionIsolation ->
  isolation_probe_needed (cs_isolation c) = true ->
  let '(c', out) := handle_origin_messages ascii_lowercase no_lsn
    [MsgErrorResponse; MsgReadyForQuery data] c in
  out = [] /\ cs_origin_intercept c' = InterceptDefaultTransactionIsolation /\
  cs_injected c' = cs_injected c ++ [ProbeDefaultIsolation].
Proof.
  intros Hi Hn. destruct c as [t us ic sp jp ar inj mp wl]. cbn in Hi, Hn. subst ic.
  cbn -[isolation_probe_needed]. unfold isolation_probe_inject. cbn -[isolation_probe_needed].
  rewrite Hn. cbn. by rewrite app_nil_r.
Qed.

(** Before PostgreSQL 18 a simple RESET ALL is rewritten to carry the SHOW, and is then
    analysed as a batch of two statements: the isolation default stays known although it
    was reset.  The same rewrite makes COMMIT a connection-wide write. *)
Theorem piggyback_hides_effects c :
  cs_search_path_auto_reported c = false -> cs_origin_intercept c = InterceptNone ->
  let reset : stmt := VariableSetStmt VAR_RESET_ALL "" [] false in
  let commit : stmt := TransactionStmt TRANS_STMT_COMMIT [] false in
  let forward sql st := (simple_query_forward no_dml forward_select
                           {| qm_sql := sql; qm_statements := [st] |} c).2 in
  it_session_isolation (cs_isolation (forward "RESET ALL" reset)) =
    it_session_isolation (cs_isolation c) /\
  se_isolation (client_effects no_dml forward_select "RESET ALL" reset) = IeSessionUnknown /\
  cs_write_log (forward "COMMIT" commit) = record (cs_write_log c) WcConnection /\
  se_write (client_effects no_dml forward_select "COMMIT" commit) = None.
Proof.
  intros Ha Hi. unfold simple_query_forward, search_path_inspect_query. simpl. rewrite Ha.
  unfold search_path_mark_unknown, origin_intercept_idle. simpl. by rewrite Hi.
Qed.

(** A batch that changes the default has no isolation effect, and of two levels in one
    option list the first is taken where the server keeps the last. *)
Theorem batch_and_repeated_level :
  analyze no_dml forward_select "SET default_transaction_isolation TO serializable; SELECT 1"
    [VariableSetStmt VAR_SET_VALUE "default_transaction_isolation"
       [NodeArg (ArgString "serializable")] false; SelectStmt tt : stmt] =
  ActForward (effects_write WcConnection IeNone) /\
  begin_isolation_effect
    [NodeDefElem "transaction_isolation" (Some (ArgString "read committed"));
     NodeDefElem "transaction_isolation" (Some (ArgString "serializable"))] =
  IeTransaction ReadCommitted.
Proof. split; reflexivity. Qed.

End SessionGap.

(** ** Witnesses *)

Module SessionWitness.
Import SessionGap.

Definition sv0 : Server :=
  {| sv_default := ReadCommitted; sv_block := None; sv_failed := false; sv_touched := false |}.
Notation Sys := (System (M:=unit) (Select:=unit) (Dml:=unit)).
Definition recv (w : Sys) (s : Server) flight replies (msgs : list OriginMessage) : Sys :=
  receive ascii_lowercase no_lsn (sy_px w) s flight replies (sy_relayed w) msgs.
Definition row (v : string) : list OriginMessage :=
  [MsgRowDescription; MsgDataRows (Some v); MsgCommandComplete].
Definition begin_stmt : stmt := TransactionStmt TRANS_STMT_BEGIN [] false.

Definition w0 : Sys := sys_init tt (Some "alice") true ReadCommitted.
Definition w1 : Sys := recv w0 sv0 [] (ready sv0) (ready sv0).
Definition w2 : Sys := recv w1 sv0 [] (sy_replies w1) (row "public" ++ ready sv0).
Definition w3 : Sys := recv w2 sv0 [] (sy_replies w2) (row "read committed" ++ ready sv0).
Definition w4 : Sys :=
  system (forwarded_effects_apply (client_effects no_dml forward_select "BEGIN" begin_stmt)
            (search_path_parse_inspect [begin_stmt] (sy_px w3)))
    sv0 [FlClient "BEGIN" begin_stmt] (sy_replies w3) (sy_relayed w3).
Definition sv1 : Server := sv_begin ReadCommitted sv0.
Definition w5 : Sys :=
  recv w4 sv1 [] (sy_replies w4 ++ [MsgCommandComplete] ++ ready sv1) ([MsgCommandComplete] ++ ready sv1).

Notation step := (sys_step ascii_lowercase no_lsn no_dml forward_select).

Lemma run_w5 : rtc step w0 w5.
Proof.
  apply (rtc_l step w0 w1).
  { exact (sys_reply _ _ _ _ (sy_px w0) sv0 sv0 "" ReadOnlyStmt [] [] [] [] (ex_none _ _ _ _) eq_refl). }
  apply (rtc_l step w1 w2).
  { exact (sys_search_path_reply _ _ _ _ (sy_px w1) sv0 [] (sy_replies w1) (sy_relayed w1)
             (row "public") eq_refl). }
  apply (rtc_l step w2 w3).
  { exact (sys_isolation_reply _ _ _ _ (sy_px w2) sv0 [] (sy_replies w2) (sy_relayed w2)
             "read committed" eq_refl). }
  apply (rtc_l step w3 w4).
  { refine (sys_client ascii_lowercase no_lsn no_dml forward_select (sy_px w3) sv0 [] (sy_replies w3)
              (sy_relayed w3) "BEGIN" begin_stmt _).
    split_and!; [reflexivity|by left|simpl; lia|done]. }
  apply (rtc_l step w4 w5); [|apply rtc_refl].
  refine (sys_reply _ _ _ _ (sy_px w4) sv0 sv1 "BEGIN" begin_stmt [] (sy_replies w4) (sy_relayed w4)
            [MsgCommandComplete] _ eq_refl).
  apply ex_begin; [by left|done|done].
Qed.


Lemma probes_invisible_witness : sy_relayed w5 = sy_replies w5 /\ length (sy_replies w5) = 3.
Proof.
  split; [|reflexivity].
  apply (probes_invisible ascii_lowercase no_lsn no_dml forward_select tt (Some "alice") true
    ReadCommitted w5 run_w5).
Defined.

Definition c_piggyback : Connection unit :=
  intercept_set (InterceptTrailingShowSearchPath PreShow) [] (connection_new tt None true).

Lemma piggyback_transparent_witness :
  (handle_origin_messages ascii_lowercase no_lsn
     [MsgErrorResponse; MsgReadyForQuery (ready_for_query_message Failed)] c_piggyback).2 =
  [MsgErrorResponse; MsgReadyForQuery (ready_for_query_message Failed)].
Proof.
  destruct (piggyback_transparent ascii_lowercase no_lsn c_piggyback [] "public"
    (ready_for_query_message Failed)) as [_ H]; [reflexivity..|].
  exact (proj1 H).
Defined.

End SessionWitness.
