(* ===== verification/WriteQueue.v ===== *)
(** * The write queue of a serve

    Models cache/write_queue.rs: the chunks of a response wait in an inline ring of eight,
    and in a heap queue once the ring is full.  The theorem: whatever the interleaving of
    pushes and writes, the queue is the byte stream pushed so far less the bytes written,
    in order, and what it shows a vectored writer is that stream's next chunks. *)
From Stdlib Require Import Strings.Byte.
From S2P Require Import Prelude Egress.

Definition INLINE_CAP : nat := 8.

Record WriteQueue := {
  wq_inline : list Bytes;   (* an array of INLINE_CAP *)
  wq_head : nat;
  wq_len : nat;
  wq_spill : list Bytes;
}.

Definition wq_new : WriteQueue :=
  {| wq_inline := replicate INLINE_CAP []; wq_head := 0; wq_len := 0; wq_spill := [] |}.

Definition wq_push (buf : Bytes) (q : WriteQueue) : WriteQueue :=
  match buf with
  | [] => q
  | _ =>
      let spilled :=
        {| wq_inline := wq_inline q; wq_head := wq_head q; wq_len := wq_len q;
           wq_spill := wq_spill q ++ [buf] |} in
      if bool_decide (wq_spill q = []) && (wq_len q <? INLINE_CAP) then
        let idx := (wq_head q + wq_len q) mod INLINE_CAP in
        match wq_inline q !! idx with
        | Some _ =>
            {| wq_inline := <[idx := buf]> (wq_inline q); wq_head := wq_head q;
               wq_len := S (wq_len q); wq_spill := wq_spill q |}
        | None => spilled
        end
      else spilled
  end.

Definition wq_is_empty (q : WriteQueue) : bool :=
  (wq_len q =? 0) && bool_decide (wq_spill q = []).

Definition wq_clear (q : WriteQueue) : WriteQueue :=
  {| wq_inline := (fun _ => []) <$> wq_inline q; wq_head := 0; wq_len := 0; wq_spill := [] |}.

(** [front_mut] reads the front chunk and writes it back. *)
Definition wq_front (q : WriteQueue) : option Bytes :=
  if 0 <? wq_len q then wq_inline q !! wq_head q else head (wq_spill q).

Definition wq_front_set (b : Bytes) (q : WriteQueue) : WriteQueue :=
  if 0 <? wq_len q then
    {| wq_inline := <[wq_head q := b]> (wq_inline q); wq_head := wq_head q;
       wq_len := wq_len q; wq_spill := wq_spill q |}
  else
    {| wq_inline := wq_inline q; wq_head := wq_head q; wq_len := wq_len q;
       wq_spill := <[0 := b]> (wq_spill q) |}.

Definition wq_pop_front (q : WriteQueue) : WriteQueue :=
  if 0 <? wq_len q then
    {| wq_inline := <[wq_head q := []]> (wq_inline q);
       wq_head := (wq_head q + 1) mod INLINE_CAP;
       wq_len := wq_len q - 1; wq_spill := wq_spill q |}
  else
    {| wq_inline := wq_inline q; wq_head := wq_head q; wq_len := wq_len q;
       wq_spill := tail (wq_spill q) |}.

(** The ring's chunks, front first: [inline[(head + i) % CAP]] for [i < len]. *)
Definition ring_chunks (q : WriteQueue) : list Bytes :=
  omap (fun i => wq_inline q !! ((wq_head q + i) mod INLINE_CAP)) (seq 0 (wq_len q)).

Definition wq_remaining (q : WriteQueue) : nat :=
  sum_list_with length (ring_chunks q) + sum_list_with length (wq_spill q).

Definition wq_chunk (q : WriteQueue) : Bytes := default [] (wq_front q).

(** The [while cnt > 0] loop.  Every turn takes a byte off [cnt] or a chunk off the queue,
    so [cnt] and the number of chunks are fuel enough.  The [debug_assert] after the loop is
    compiled out of a release build: past the end the queue stops at empty. *)
Fixpoint wq_advance_loop (fuel : nat) (cnt : nat) (q : WriteQueue) : WriteQueue :=
  match fuel, cnt with
  | _, 0 | 0, _ => q
  | S fuel, _ =>
      match wq_front q with
      | None => q
      | Some front =>
          let n := cnt `min` length front in
          let q := wq_front_set (drop n front) q in
          let q := if bool_decide (drop n front = []) then wq_pop_front q else q in
          wq_advance_loop fuel (cnt - n) q
      end
  end.

Definition wq_advance (cnt : nat) (q : WriteQueue) : WriteQueue :=
  wq_advance_loop (cnt + wq_len q + length (wq_spill q)) cnt q.

(** [chunks_vectored] fills at most [slots] slices. *)
Definition wq_chunks_vectored (slots : nat) (q : WriteQueue) : list Bytes :=
  let inline := take slots (ring_chunks q) in
  if length inline <? length (ring_chunks q) then inline
  else inline ++ take (slots - length inline) (wq_spill q).

(** ** The byte stream *)

Definition wq_chunks (q : WriteQueue) : list Bytes := ring_chunks q ++ wq_spill q.
Definition wq_stream (q : WriteQueue) : Bytes := concat (wq_chunks q).

Record wq_ok (q : WriteQueue) : Prop := {
  wk_inline : length (wq_inline q) = INLINE_CAP;
  wk_head : wq_head q < INLINE_CAP;
  wk_len : wq_len q <= INLINE_CAP;
  wk_chunks : Forall (fun c => c <> []) (wq_chunks q);
}.

Lemma ring_lookup_total (inline : list Bytes) i :
  length inline = INLINE_CAP -> is_Some (inline !! (i mod INLINE_CAP)).
Proof. intros H. apply lookup_lt_is_Some. rewrite H. by apply Nat.mod_upper_bound. Qed.

(** The ring read from position [head], as a function of its fields. *)
Fixpoint ring_from (inline : list Bytes) (head len : nat) : list Bytes :=
  match len with
  | 0 => []
  | S len => default [] (inline !! (head mod INLINE_CAP)) :: ring_from inline (S head) len
  end.

Lemma omap_seq_ring (inline : list Bytes) head start len :
  length inline = INLINE_CAP ->
  omap (fun i => inline !! ((head + i) mod INLINE_CAP)) (seq start len) =
  ring_from inline (head + start) len.
Proof.
  intros H. revert start. induction len as [|len IH]; intros start; [done|].
  cbn [seq omap list_omap ring_from].
  destruct (ring_lookup_total inline (head + start) H) as [x Hx]. rewrite Hx. cbn [default].
  f_equal. rewrite <- Nat.add_succ_r. apply IH.
Qed.

Lemma ring_chunks_from q :
  length (wq_inline q) = INLINE_CAP -> ring_chunks q = ring_from (wq_inline q) (wq_head q) (wq_len q).
Proof. intros H. unfold ring_chunks. rewrite omap_seq_ring by done. by rewrite Nat.add_0_r. Qed.

Lemma ring_from_insert_out (inline : list Bytes) j b head len :
  (forall i, i < len -> (head + i) mod INLINE_CAP <> j) ->
  ring_from (<[j := b]> inline) head len = ring_from inline head len.
Proof.
  revert head. induction len as [|len IH]; intros head H; [done|]. cbn [ring_from].
  rewrite list_lookup_insert_ne; [|intros E; apply (H 0); [lia|by rewrite Nat.add_0_r]].
  f_equal. apply IH. intros i Hi. replace (S head + i) with (head + S i) by lia. apply H. lia.
Qed.

Lemma ring_from_mod inline head len :
  ring_from inline (head mod INLINE_CAP) len = ring_from inline head len.
Proof.
  revert head. induction len as [|len IH]; intros head; [done|]. cbn [ring_from].
  rewrite Nat.Div0.mod_mod. f_equal. rewrite <- (IH (S (head mod INLINE_CAP))), <- (IH (S head)).
  f_equal. change (S (head mod INLINE_CAP)) with (1 + head mod INLINE_CAP).
  by rewrite Nat.Div0.add_mod_idemp_r.
Qed.

Lemma ring_from_app inline head n m :
  ring_from inline head (n + m) = ring_from inline head n ++ ring_from inline (head + n) m.
Proof.
  revert head. induction n as [|n IH]; intros head; [by rewrite Nat.add_0_r|].
  cbn [ring_from Nat.add app]. rewrite IH. by rewrite Nat.add_succ_r.
Qed.

(** Distinct offsets of less than a turn are distinct places. *)
Lemma ring_offset_ne head i k :
  i < k -> k - i < INLINE_CAP -> (head + i) mod INLINE_CAP <> (head + k) mod INLINE_CAP.
Proof.
  unfold INLINE_CAP. intros H1 H2 E.
  pose proof (Nat.div_mod_eq (head + i) 8). pose proof (Nat.div_mod_eq (head + k) 8). lia.
Qed.

(** The rest of the ring does not come back to its head. *)
Lemma ring_rest_ne head len i :
  head < INLINE_CAP -> S len <= INLINE_CAP -> i < len -> (S head + i) mod INLINE_CAP <> head.
Proof.
  intros Hh Hl Hi. rewrite <- (Nat.mod_small head INLINE_CAP) at 2 by done.
  replace (S head + i) with (head + S i) by lia.
  pose proof (ring_offset_ne head 0 (S i)) as H. rewrite Nat.add_0_r in H. intros E.
  apply H; [lia|lia|done].
Qed.

(** ** The operations on the stream *)

Lemma wq_push_chunks b q :
  wq_ok q -> wq_chunks (wq_push b q) = wq_chunks q ++ (if bool_decide (b = []) then [] else [b]) /\
  wq_ok (wq_push b q).
Proof.
  intros [H1 H2 H3 H4]. destruct b as [|x b]; [simpl; by rewrite app_nil_r|].
  rewrite bool_decide_false by done. unfold wq_push.
  set (b' := x :: b). assert (Hb : b' <> []) by done. clearbody b'. clear x b.
  assert (Hspill : forall q', wq_inline q' = wq_inline q -> wq_head q' = wq_head q ->
    wq_len q' = wq_len q -> wq_spill q' = wq_spill q ++ [b'] ->
    wq_chunks q' = wq_chunks q ++ [b'] /\ wq_ok q').
  { intros q' E1 E2 E3 E4.
    assert (Hc : wq_chunks q' = wq_chunks q ++ [b']).
    { unfold wq_chunks, ring_chunks. by rewrite E1, E2, E3, E4, app_assoc. }
    split; [done|]. split; rewrite ?E1, ?E2, ?E3; try done. rewrite Hc. apply Forall_app. auto. }
  destruct (bool_decide (wq_spill q = []) && (wq_len q <? INLINE_CAP)) eqn:E; [|by apply Hspill].
  apply andb_true_iff in E as [Es%bool_decide_eq_true El%Nat.ltb_lt].
  destruct (ring_lookup_total (wq_inline q) (wq_head q + wq_len q) H1) as [y Hy]. rewrite Hy.
  match goal with |- wq_chunks ?q' = _ /\ _ => assert (Hc : wq_chunks q' = wq_chunks q ++ [b']) end.
  { unfold wq_chunks. rewrite !ring_chunks_from; cbn [wq_inline wq_head wq_len wq_spill];
      rewrite ?length_insert; try done.
    rewrite Es, !app_nil_r. rewrite <- Nat.add_1_r, ring_from_app.
    rewrite ring_from_insert_out.
    2: { intros i Hi. apply ring_offset_ne; lia. }
    f_equal. cbn [ring_from]. rewrite list_lookup_insert_eq; [done|]. rewrite H1. by apply Nat.mod_upper_bound. }
  split; [done|]. split; [| | |rewrite Hc; apply Forall_app; auto];
    cbn [wq_inline wq_head wq_len]; by rewrite ?length_insert.
Qed.

Lemma wq_front_chunks q : wq_ok q -> wq_front q = head (wq_chunks q).
Proof.
  intros [H1 H2 H3 H4]. unfold wq_front, wq_chunks. rewrite ring_chunks_from by done.
  destruct (wq_len q) as [|len]; [done|]. cbn [ring_from]. rewrite (Nat.mod_small (wq_head q)) by done.
  destruct (lookup_lt_is_Some_2 (wq_inline q) (wq_head q)) as [x Hx]; [lia|]. by rewrite Hx.
Qed.

Lemma wq_front_set_chunks c b rest q :
  wq_ok q -> wq_chunks q = c :: rest ->
  wq_chunks (wq_front_set b q) = b :: rest /\
  length (wq_inline (wq_front_set b q)) = INLINE_CAP /\
  wq_head (wq_front_set b q) < INLINE_CAP /\ wq_len (wq_front_set b q) <= INLINE_CAP.
Proof.
  intros [H1 H2 H3 H4] Hc. unfold wq_chunks in Hc. rewrite ring_chunks_from in Hc by done. split.
  - unfold wq_chunks, wq_front_set. destruct (0 <? wq_len q) eqn:E; rewrite ring_chunks_from;
      cbn [wq_inline wq_head wq_len wq_spill]; rewrite ?length_insert; try done.
    + apply Nat.ltb_lt in E. destruct (wq_len q) as [|len]; [lia|]. cbn [ring_from] in *.
      rewrite (Nat.mod_small (wq_head q)) in * by done.
      rewrite list_lookup_insert_eq by lia. cbn [default app] in *. f_equal.
      rewrite ring_from_insert_out; [by injection Hc|].
      intros i Hi. by apply (ring_rest_ne _ len).
    + apply Nat.ltb_ge in E. destruct (wq_len q) as [|len]; [|lia]. cbn [ring_from app] in *.
      destruct (wq_spill q); [done|]. simpl. by injection Hc as <- <-.
  - unfold wq_front_set. by destruct (0 <? wq_len q); simpl; rewrite ?length_insert.
Qed.

Lemma wq_pop_chunks c rest q :
  length (wq_inline q) = INLINE_CAP -> wq_head q < INLINE_CAP -> wq_len q <= INLINE_CAP ->
  wq_chunks q = c :: rest -> Forall (fun c => c <> []) rest ->
  wq_chunks (wq_pop_front q) = rest /\ wq_ok (wq_pop_front q).
Proof.
  intros H1 H2 H3 Hc Hr. unfold wq_chunks in Hc. rewrite ring_chunks_from in Hc by done.
  assert (Hc' : wq_chunks (wq_pop_front q) = rest).
  { unfold wq_chunks, wq_pop_front. destruct (0 <? wq_len q) eqn:E; rewrite ring_chunks_from;
      cbn [wq_inline wq_head wq_len wq_spill]; rewrite ?length_insert; try done.
    - apply Nat.ltb_lt in E. destruct (wq_len q) as [|len]; [lia|]. cbn [ring_from app] in Hc.
      replace (S len - 1) with len by lia. rewrite ring_from_mod, Nat.add_1_r.
      rewrite ring_from_insert_out; [by injection Hc|].
      intros i Hi. by apply (ring_rest_ne _ len).
    - apply Nat.ltb_ge in E. destruct (wq_len q) as [|len]; [|lia]. simpl in *.
      destruct (wq_spill q); [done|]. by injection Hc as <- <-. }
  split; [done|]. unfold wq_pop_front in *. split; [| | |by rewrite Hc'];
    destruct (0 <? wq_len q) eqn:E; cbn [wq_inline wq_head wq_len]; rewrite ?length_insert;
    try done; try lia.
  by apply Nat.mod_upper_bound.
Qed.

Lemma wq_advance_loop_stream fuel cnt q :
  wq_ok q -> cnt <= fuel ->
  wq_stream (wq_advance_loop fuel cnt q) = drop cnt (wq_stream q) /\ wq_ok (wq_advance_loop fuel cnt q).
Proof.
  revert cnt q. induction fuel as [|fuel IH]; intros cnt q Hq Hf.
  { replace cnt with 0 by lia. simpl. by rewrite drop_0. }
  destruct cnt as [|cnt]; [cbn [wq_advance_loop]; by rewrite drop_0|]. cbn [wq_advance_loop].
  rewrite wq_front_chunks by done. unfold wq_stream at 2.
  destruct (wq_chunks q) as [|c rest] eqn:Hc; cbn [head concat].
  { rewrite drop_nil. unfold wq_stream. by rewrite Hc. }
  pose proof (wk_chunks _ Hq) as Hne. rewrite Hc in Hne. apply list.Forall_cons in Hne as [Hc0 Hne].
  assert (Hlen : 0 < length c) by (destruct c; [done|simpl; lia]).
  destruct (wq_front_set_chunks c (drop (S cnt `min` length c) c) rest q Hq Hc) as (E1 & E2 & E3 & E4).
  rewrite drop_app. case_bool_decide as Hd.
  - destruct (wq_pop_chunks _ _ _ E2 E3 E4 E1 Hne) as [E5 E6].
    destruct (IH (S cnt - S cnt `min` length c) _ E6) as [E7 E8]; [lia|]. split; [|done].
    rewrite E7. unfold wq_stream. rewrite E5.
    apply (f_equal length) in Hd. rewrite length_drop in Hd. cbn [length] in Hd.
    rewrite (drop_ge c) by lia. by replace (S cnt - S cnt `min` length c) with (S cnt - length c) by lia.
  - assert (Hok : wq_ok (wq_front_set (drop (S cnt `min` length c) c) q)).
    { split; try done. rewrite E1. by constructor. }
    destruct (IH (S cnt - S cnt `min` length c) _ Hok) as [E7 E8]; [lia|]. split; [|done].
    rewrite E7. unfold wq_stream. rewrite E1. cbn [concat].
    assert (S cnt < length c).
    { destruct (decide (length c <= S cnt)); [|lia]. exfalso. apply Hd. apply drop_ge. lia. }
    replace (S cnt `min` length c) with (S cnt) by lia. rewrite Nat.sub_diag, drop_0.
    by replace (S cnt - length c) with 0 by lia.
Qed.

Lemma wq_clear_ok q : wq_ok q -> wq_ok (wq_clear q) /\ wq_stream (wq_clear q) = [].
Proof.
  intros [H1 _ _ _]. split; [|done].
  split; simpl; rewrite ?length_fmap; try done; unfold INLINE_CAP; lia.
Qed.

Lemma concat_nonempty_nil (l : list Bytes) : Forall (fun c => c <> []) l -> concat l = [] -> l = [].
Proof. intros H E. destruct H as [|c l Hc _]; [done|]. simpl in E. by apply app_nil in E as [? _]. Qed.

(** ** Refinement *)

Inductive WqOp := WqPush (buf : Bytes) | WqAdvance (cnt : nat) | WqClear.

Definition wq_apply (q : WriteQueue) (op : WqOp) : WriteQueue :=
  match op with
  | WqPush buf => wq_push buf q
  | WqAdvance cnt => wq_advance cnt q
  | WqClear => wq_clear q
  end.

(** The specification: the bytes still to be written. *)
Definition stream_apply (s : Bytes) (op : WqOp) : Bytes :=
  match op with
  | WqPush buf => s ++ buf
  | WqAdvance cnt => drop cnt s
  | WqClear => []
  end.

Lemma wq_apply_stream q op :
  wq_ok q -> wq_ok (wq_apply q op) /\ wq_stream (wq_apply q op) = stream_apply (wq_stream q) op.
Proof.
  intros Hq. destruct op as [buf|cnt|]; simpl.
  - destruct (wq_push_chunks buf q Hq) as [E Hok]. split; [done|]. unfold wq_stream.
    rewrite E, concat_app. case_bool_decide; subst; simpl; by rewrite ?app_nil_r.
  - destruct (wq_advance_loop_stream (cnt + wq_len q + length (wq_spill q)) cnt q Hq); [lia|done].
  - by apply wq_clear_ok.
Qed.

Lemma sum_length_concat (l : list Bytes) : sum_list_with length l = length (concat l).
Proof. induction l as [|c l IH]; simpl; [done|]. by rewrite length_app, IH. Qed.

Lemma wq_vectored_chunks slots q : wq_chunks_vectored slots q = take slots (wq_chunks q).
Proof.
  unfold wq_chunks_vectored, wq_chunks. rewrite take_app, length_take.
  destruct (slots `min` length (ring_chunks q) <? length (ring_chunks q)) eqn:E.
  - apply Nat.ltb_lt in E. replace (slots - length (ring_chunks q)) with 0 by lia.
    by rewrite take_0, app_nil_r.
  - apply Nat.ltb_ge in E. by replace (slots `min` length (ring_chunks q)) with (length (ring_chunks q)) by lia.
Qed.

(** C25: the write queue is a byte stream.  After any sequence of pushes, writes and clears,
    what the ring and the spill hold together is exactly the bytes pushed and not yet
    written, in order; [remaining] is their number, [is_empty] tells when there are none,
    [chunk] is empty only then, and the slices offered to a vectored write are a prefix of
    the stream in nonempty pieces. *)
Theorem write_queue_refines ops :
  let q := fold_left wq_apply ops wq_new in
  let s := fold_left stream_apply ops [] in
  wq_stream q = s /\ wq_remaining q = length s /\
  wq_is_empty q = bool_decide (s = []) /\
  (wq_chunk q = [] <-> s = []) /\ wq_chunk q `prefix_of` s /\
  forall slots, concat (wq_chunks_vectored slots q) `prefix_of` s /\
    Forall (fun c => c <> []) (wq_chunks_vectored slots q) /\
    length (wq_chunks_vectored slots q) <= slots.
Proof.
  intros q s. assert (H : wq_ok q /\ wq_stream q = s).
  { subst q s. assert (Hn : wq_ok wq_new /\ wq_stream wq_new = []).
    { split; [|done]. split; simpl; try done; unfold INLINE_CAP; lia. }
    revert Hn. generalize wq_new ([] : Bytes). induction ops as [|op ops IH]; intros q s [Hq Hs]; [done|].
    simpl. apply IH. rewrite <- Hs. by apply wq_apply_stream. }
  destruct H as [Hq Hs]. clearbody q s. subst s. pose proof (wk_chunks _ Hq) as Hne.
  assert (Hnil : wq_stream q = [] <-> wq_chunks q = []).
  { split; [by apply concat_nonempty_nil|]. unfold wq_stream. by intros ->. }
  split_and!; [done| | | | |].
  - unfold wq_remaining, wq_stream, wq_chunks. by rewrite concat_app, length_app, !sum_length_concat.
  - unfold wq_is_empty. rewrite (bool_decide_ext _ _ Hnil). unfold wq_chunks.
    rewrite ring_chunks_from by apply Hq. destruct (wq_len q) as [|len]; [done|].
    symmetry. by apply bool_decide_eq_false.
  - unfold wq_chunk. rewrite wq_front_chunks, Hnil by done.
    destruct Hne as [|c l Hc _]; [done|]. by split; intros.
  - unfold wq_chunk, wq_stream. rewrite wq_front_chunks by done.
    destruct (wq_chunks q); [done|]. by apply prefix_app_r.
  - intros slots. rewrite wq_vectored_chunks. split_and!.
    + unfold wq_stream. rewrite <- (take_drop slots (wq_chunks q)) at 2. rewrite concat_app.
      by apply prefix_app_r.
    + by apply Forall_take.
    + rewrite length_take. lia.
Qed.
