(* ===== verification/Dispatch.v ===== *)
(** * Serve decision and coalescing

    Models cache/serve_decision.rs, cache/query/limit.rs, cache/coalesce_queue.rs, and of
    cache/query_cache/ the guarded state write ([transition_apply]) and the three drains of
    the coalescing queue.  The theorem: every request parked behind a population is
    answered exactly once, by a forward or by one shared serve whose cached rows cover its
    LIMIT.  The wait deadline is a time stamp given to the request; the floating-point
    estimate it is computed from is not modelled. *)
From S2P Require Import Prelude Value Egress Session.

(** ** Rows a LIMIT needs *)

Record LimitClause := { lc_count : option LiteralValue; lc_offset : option LiteralValue }.
#[global] Instance limit_clause_eq_dec : EqDecision LimitClause.
Proof. solve_decision. Defined.

(** [u64::try_from] on an i64 fails exactly below zero. *)
Definition u64_try_from (n : Z) : option Z := if (n <? 0)%Z then None else Some n.

Definition limit_rows_needed (limit : option LimitClause) : option Z :=
  match limit with
  | None => None
  | Some limit_clause =>
      match lc_count limit_clause with
      | Some (LInteger n) =>
          match u64_try_from n with
          | None => None
          | Some count =>
              let offset :=
                match lc_offset limit_clause with
                | Some (LInteger n) => default 0%Z (u64_try_from n)
                | _ => 0%Z
                end in
              Some (count + offset)%Z
          end
      | _ => None
      end
  end.

Definition limit_is_sufficient (cached_max needed : option Z) : bool :=
  match cached_max, needed with
  | None, _ => true
  | Some _, None => false
  | Some cached, Some needed => (needed <=? cached)%Z
  end.

(** ** Entries and decisions *)

Inductive CachedQueryState :=
| Pending (hit_count credit : Z)        (* u32 *)
| Loading
| Ready
| Invalidated.
#[global] Instance cached_query_state_eq_dec : EqDecision CachedQueryState.
Proof. solve_decision. Defined.

Inductive AdmitAction := ActAdmit | ActCheckOnly.
#[global] Instance admit_action_eq_dec : EqDecision AdmitAction.
Proof. solve_decision. Defined.

Inductive CachePolicy := Fifo | Clock.
#[global] Instance cache_policy_eq_dec : EqDecision CachePolicy.
Proof. solve_decision. Defined.

Record EntrySnapshot := { es_state : CachedQueryState; es_max_limit : option Z }.

Record DecisionInput := {
  di_rows_needed : option Z;
  di_admission_threshold : Z;           (* u32 *)
  di_cache_policy : CachePolicy;
  di_throttled : bool;
  di_pending_credit : Z;
}.

Inductive ForwardReason := FwdThrottled | FwdRegistrationRateLimited.

Record Transition := { tr_expected : option CachedQueryState; tr_new : CachedQueryState }.

Inductive ServeDecision :=
| DecHit
| DecLimitBump (transition : Transition)
| DecCoalesce
| DecForward (reason : ForwardReason)
| DecRegister (transition : Transition) (action : AdmitAction).

Definition decision_transition (d : ServeDecision) : option Transition :=
  match d with
  | DecLimitBump transition | DecRegister transition _ => Some transition
  | DecHit | DecCoalesce | DecForward _ => None
  end.

Definition serve_decide (entry : option EntrySnapshot) (input : DecisionInput)
    (registration_budget : bool) : ServeDecision :=
  match entry with
  | None =>
      if di_throttled input then DecForward FwdThrottled
      else if negb registration_budget then DecForward FwdRegistrationRateLimited
      else
        let immediate_admit :=
          bool_decide (di_cache_policy input = Fifo) || (di_admission_threshold input <=? 1)%Z in
        let '(new, action) :=
          if immediate_admit then (Loading, ActAdmit)
          else (Pending 1 (di_pending_credit input), ActCheckOnly) in
        DecRegister {| tr_expected := None; tr_new := new |} action
  | Some entry =>
      let from := Some (es_state entry) in
      match es_state entry with
      | Ready =>
          if limit_is_sufficient (es_max_limit entry) (di_rows_needed input) then DecHit
          else DecLimitBump {| tr_expected := from; tr_new := Loading |}
      | Loading => if di_throttled input then DecForward FwdThrottled else DecCoalesce
      | Pending hit_count _ =>
          let hit_count := ((hit_count + 1) mod 2 ^ 32)%Z in
          let '(new, action) :=
            if (di_admission_threshold input <=? hit_count)%Z then (Loading, ActAdmit)
            else (Pending hit_count (di_pending_credit input), ActCheckOnly) in
          DecRegister {| tr_expected := from; tr_new := new |} action
      | Invalidated => DecRegister {| tr_expected := from; tr_new := Loading |} ActAdmit
      end
  end.

(** ** The shared view and the guarded write *)

Notation Fingerprint := N (only parsing).
Notation Generation := Z (only parsing).             (* i64 *)
Notation SharedResolved := N (only parsing).         (* the identity of the shared resolved query *)

(** The deparsed SQL and the serve shape are written wherever [resolved] is; the
    materialized-view fields belong to the view state machine. *)
Record CachedQueryView := {
  v_state : CachedQueryState;
  v_generation : Generation;
  v_resolved : option SharedResolved;
  v_max_limit : option Z;
  v_referenced : bool;
}.

Notation StateView := (gmap Fingerprint CachedQueryView).

Definition view_snapshot (v : CachedQueryView) : EntrySnapshot :=
  {| es_state := v_state v; es_max_limit := v_max_limit v |}.

Definition view_set_state (s : CachedQueryState) (v : CachedQueryView) : CachedQueryView :=
  {| v_state := s; v_generation := v_generation v; v_resolved := v_resolved v;
     v_max_limit := v_max_limit v; v_referenced := v_referenced v |}.

Definition view_placeholder (s : CachedQueryState) : CachedQueryView :=
  {| v_state := s; v_generation := 0%Z; v_resolved := None; v_max_limit := None;
     v_referenced := false |}.

(** [mem::discriminant] equality. *)
Definition same_decision (a b : ServeDecision) : bool :=
  match a, b with
  | DecHit, DecHit | DecLimitBump _, DecLimitBump _ | DecCoalesce, DecCoalesce
  | DecForward _, DecForward _ | DecRegister _ _, DecRegister _ _ => true
  | _, _ => false
  end.

Definition transition_apply (view : StateView) (fingerprint : Fingerprint)
    (decision : ServeDecision) (input : DecisionInput) : StateView * option ServeDecision :=
  match decision_transition decision with
  | None => (view, None)
  | Some transition =>
      match tr_expected transition with
      | None =>
          match view !! fingerprint with
          | Some _ => (view, None)
          | None => (<[fingerprint := view_placeholder (tr_new transition)]> view, Some decision)
          end
      | Some _ =>
          match view !! fingerprint with
          | None => (view, None)
          | Some entry =>
              let guarded := serve_decide (Some (view_snapshot entry)) input false in
              if negb (same_decision guarded decision) then (view, None)
              else
                match decision_transition guarded with
                | None => (view, None)
                | Some t => (<[fingerprint := view_set_state (tr_new t) entry]> view, Some guarded)
                end
          end
      end
  end.

(** ** The coalescing queue *)

Inductive QueryType := Simple | Extended.
#[global] Instance query_type_eq_dec : EqDecision QueryType.
Proof. solve_decision. Defined.

Inductive PipelineDescribe := DescribeNone | DescribeStatement | DescribePortal.
#[global] Instance pipeline_describe_eq_dec : EqDecision PipelineDescribe.
Proof. solve_decision. Defined.

Inductive ResultFormats := Implicit | Uniform (code : Z) | PerColumn (codes : list Z).
#[global] Instance result_formats_eq_dec : EqDecision ResultFormats.
Proof. solve_decision. Defined.

Record PipelineContext := {
  pc_emit_rfq : bool;
  pc_has_parse : bool;
  pc_has_bind : bool;
  pc_describe : PipelineDescribe;
}.

(** A request, with the identity of its reply channel; its bytes are what a forward sends. *)
Record QueryRequest := {
  rq_id : N;
  rq_query_type : QueryType;
  rq_limit : option LimitClause;
  rq_result_formats : ResultFormats;
  rq_pipeline : option PipelineContext;
  rq_transaction_status : TransactionStatus;
  rq_deadline_at : option Z;
}.

Record CoalesceKey := {
  ck_query_type : QueryType;
  ck_emit_rfq : bool;
  ck_transaction_status : TransactionStatus;
  ck_has_parse : bool;
  ck_has_bind : bool;
  ck_pipeline_describe : PipelineDescribe;
  ck_result_formats : ResultFormats;
  ck_limit : option LimitClause;
}.
#[global] Instance coalesce_key_eq_dec : EqDecision CoalesceKey.
Proof. solve_decision. Defined.

Definition key_from_request (msg : QueryRequest) : CoalesceKey :=
  let '(emit_rfq, has_parse, has_bind, pipeline_describe) :=
    match rq_pipeline msg with
    | Some p => (pc_emit_rfq p, pc_has_parse p, pc_has_bind p, pc_describe p)
    | None => (false, false, false, DescribeNone)
    end in
  {| ck_query_type := rq_query_type msg; ck_emit_rfq := emit_rfq;
     ck_transaction_status := rq_transaction_status msg; ck_has_parse := has_parse;
     ck_has_bind := has_bind; ck_pipeline_describe := pipeline_describe;
     ck_result_formats := rq_result_formats msg; ck_limit := rq_limit msg |}.

(** The groups of a fingerprint: a hash map, as the list of its entries in some order. *)
Definition Groups := list (CoalesceKey * list QueryRequest).
Notation WaitingQueue := (gmap Fingerprint Groups).

Fixpoint waiters_push (key : CoalesceKey) (msg : QueryRequest) (groups : Groups) : Groups :=
  match groups with
  | [] => [(key, [msg])]
  | (k, waiters) :: rest =>
      if decide (k = key) then (k, waiters ++ [msg]) :: rest
      else (k, waiters) :: waiters_push key msg rest
  end.

(** [Err(msg)] is [None]: the caller dispatches the request again. *)
Definition enqueue_if_loading (view : StateView) (waiting : WaitingQueue)
    (fingerprint : Fingerprint) (key : CoalesceKey) (msg : QueryRequest) : option WaitingQueue :=
  if negb (bool_decide (v_state <$> view !! fingerprint = Some Loading)) then None
  else Some (<[fingerprint := waiters_push key msg (default [] (waiting !! fingerprint))]> waiting).

Definition drain (waiting : WaitingQueue) (fingerprint : Fingerprint) :
    option Groups * WaitingQueue :=
  (waiting !! fingerprint, delete fingerprint waiting).

Definition is_expired (now : Z) (w : QueryRequest) : bool :=
  match rq_deadline_at w with Some d => (d <=? now)%Z | None => false end.

Definition groups_expired (now : Z) (groups : Groups) : list QueryRequest :=
  flat_map (fun g => List.filter (is_expired now) g.2) groups.

Definition groups_retain (now : Z) (groups : Groups) : Groups :=
  List.filter (fun g => negb (bool_decide (g.2 = [])))
    (map (fun g => (g.1, List.filter (fun w => negb (is_expired now w)) g.2)) groups).

Definition drain_expired (now : Z) (waiting : WaitingQueue) : list QueryRequest * WaitingQueue :=
  (flat_map (fun e => groups_expired now e.2) (map_to_list waiting),
   omap (fun groups =>
     match groups_retain now groups with [] => None | retained => Some retained end) waiting).

Definition group_waiters (groups : Groups) : list QueryRequest := flat_map snd groups.
Definition queue_waiters (waiting : WaitingQueue) : list QueryRequest :=
  flat_map (fun e => group_waiters e.2) (map_to_list waiting).
Definition waiter_count (waiting : WaitingQueue) : nat := length (queue_waiters waiting).

(** ** The drains *)

(** What a drain does with a request: forward it to origin, or serve it as the primary of a
    group with the other clients of the group attached. *)
Inductive DrainAction :=
| ActForward (msg : QueryRequest)
| ActServe (primary : QueryRequest) (coalesced : list QueryRequest).

(** [waiters.remove(0)] panics on an empty group: [None]. *)
Definition drain_group (max_limit : option Z) (waiters : list QueryRequest) :
    option (list DrainAction) :=
  match waiters with
  | [] => None
  | primary :: waiters =>
      let primary_needed := limit_rows_needed (rq_limit primary) in
      if negb (limit_is_sufficient max_limit primary_needed) then
        Some (map ActForward (primary :: waiters))
      else Some [ActServe primary waiters]
  end.

Fixpoint drain_groups (max_limit : option Z) (groups : Groups) : option (list DrainAction) :=
  match groups with
  | [] => Some []
  | (_, waiters) :: rest =>
      match drain_group max_limit waiters, drain_groups max_limit rest with
      | Some actions, Some more => Some (actions ++ more)
      | _, _ => None
      end
  end.

Definition waiting_drain_ready (waiting : WaitingQueue) (fingerprint : Fingerprint)
    (max_limit : option Z) : option (list DrainAction * WaitingQueue) :=
  match drain waiting fingerprint with
  | (None, waiting) => Some ([], waiting)
  | (Some groups, waiting) => (fun actions => (actions, waiting)) <$> drain_groups max_limit groups
  end.

Definition waiting_drain_failed (waiting : WaitingQueue) (fingerprint : Fingerprint) :
    list DrainAction * WaitingQueue :=
  match drain waiting fingerprint with
  | (None, waiting) => ([], waiting)
  | (Some groups, waiting) => (map ActForward (group_waiters groups), waiting)
  end.

Definition waiting_drain_expired (now : Z) (waiting : WaitingQueue) :
    list DrainAction * WaitingQueue :=
  let '(expired, waiting) := drain_expired now waiting in (map ActForward expired, waiting).

(** ** The decision *)

(** LIMIT and OFFSET are i64, so their sum never leaves u64. *)
Lemma limit_rows_needed_fits lc n :
  (forall z, lc_count lc = Some (LInteger z) -> (z < 2 ^ 63)%Z) ->
  (forall z, lc_offset lc = Some (LInteger z) -> (z < 2 ^ 63)%Z) ->
  limit_rows_needed (Some lc) = Some n -> (0 <= n < 2 ^ 64)%Z.
Proof.
  intros Hc Ho. simpl. unfold u64_try_from.
  destruct (lc_count lc) as [[]|] eqn:Ec; try done. specialize (Hc _ eq_refl).
  destruct (i <? 0)%Z eqn:E; [done|]. apply Z.ltb_ge in E. intros [= <-].
  destruct (lc_offset lc) as [[| |j| | | | | |]|]; try lia. specialize (Ho _ eq_refl).
  destruct (j <? 0)%Z eqn:E'; simpl; [lia|]. apply Z.ltb_ge in E'. lia.
Qed.

(** The hit counter of a pending entry stays below the threshold it was compared with, so
    the increment of a u32 never wraps. *)
Lemma pending_hit_count_bounded entry input budget t a hits credit :
  serve_decide entry input budget = DecRegister t a -> tr_new t = Pending hits credit ->
  (hits < di_admission_threshold input)%Z.
Proof.
  destruct entry as [[s m]|]; unfold serve_decide; cbn [es_state].
  - destruct s; intros E H.
    + destruct (Z.leb_spec (di_admission_threshold input) ((hit_count + 1) mod 2 ^ 32));
        injection E as <- <-; simpl in H; [done|]. injection H as <- <-. lia.
    + by destruct (di_throttled input).
    + by destruct (limit_is_sufficient _ _).
    + by injection E as <- <-.
  - destruct (di_throttled input), budget; intros E H; try discriminate.
    destruct (bool_decide _) eqn:Ep; cbn [orb] in E; [by injection E as <- <-|].
    destruct (Z.leb_spec (di_admission_threshold input) 1); injection E as <- <-; simpl in H; [done|].
    injection H as <- <-. lia.
Qed.

(** ** The queue holds each request once *)

Definition group_ok (g : CoalesceKey * list QueryRequest) : Prop :=
  g.2 <> [] /\ Forall (fun w => key_from_request w = g.1) g.2.

Definition waiting_ok (waiting : WaitingQueue) : Prop :=
  forall fp groups, waiting !! fp = Some groups -> Forall group_ok groups.

Lemma waiters_push_perm key msg groups :
  group_waiters (waiters_push key msg groups) ≡ₚ msg :: group_waiters groups.
Proof.
  induction groups as [|[k ws] rest IH]; simpl; [done|].
  destruct (decide (k = key)); simpl; [|rewrite IH; by rewrite Permutation_middle].
  rewrite <- app_assoc. simpl. by rewrite Permutation_middle.
Qed.

Lemma waiters_push_ok msg groups :
  Forall group_ok groups -> Forall group_ok (waiters_push (key_from_request msg) msg groups).
Proof.
  induction 1 as [|[k ws] rest [Hne Hk] Hrest IH]; simpl.
  - by repeat constructor.
  - destruct (decide (k = key_from_request msg)) as [->|]; constructor; try done.
    split; simpl; [by destruct ws|]. apply Forall_app. split; [done|by repeat constructor].
Qed.

Lemma queue_waiters_delete waiting fp groups :
  waiting !! fp = Some groups ->
  queue_waiters waiting ≡ₚ group_waiters groups ++ queue_waiters (delete fp waiting).
Proof.
  intros H.
  pose proof (map_to_list_insert (delete fp waiting) fp groups (lookup_delete_eq _ _)) as E.
  rewrite (insert_delete_id waiting fp groups H) in E. unfold queue_waiters at 1.
  by rewrite (Permutation_flat_map _ E).
Qed.

Lemma queue_waiters_insert waiting fp groups :
  queue_waiters (<[fp := groups]> waiting) ≡ₚ group_waiters groups ++ queue_waiters (delete fp waiting).
Proof.
  rewrite (queue_waiters_delete _ fp groups) by apply lookup_insert_eq.
  by rewrite delete_insert_eq.
Qed.

Lemma queue_waiters_default waiting fp :
  queue_waiters waiting ≡ₚ group_waiters (default [] (waiting !! fp)) ++ queue_waiters (delete fp waiting).
Proof.
  destruct (waiting !! fp) as [g|] eqn:E; [by apply queue_waiters_delete|].
  by rewrite (delete_id _ _ E).
Qed.

Lemma enqueue_waiters view waiting fp key msg waiting' :
  enqueue_if_loading view waiting fp key msg = Some waiting' ->
  queue_waiters waiting' ≡ₚ msg :: queue_waiters waiting.
Proof.
  unfold enqueue_if_loading. destruct (negb _); [done|]. intros [= <-].
  rewrite queue_waiters_insert, waiters_push_perm, (queue_waiters_default waiting fp). done.
Qed.

Lemma filter_split_perm {A} (f : A -> bool) (l : list A) :
  List.filter f l ++ List.filter (fun x => negb (f x)) l ≡ₚ l.
Proof.
  induction l as [|x l IH]; simpl; [done|].
  destruct (f x); simpl; [by rewrite IH|]. by rewrite <- Permutation_middle, IH.
Qed.

Lemma groups_retain_waiters now groups :
  groups_expired now groups ++ group_waiters (groups_retain now groups) ≡ₚ group_waiters groups.
Proof.
  unfold groups_expired, groups_retain, group_waiters.
  induction groups as [|[k ws] rest IH]; simpl; [done|].
  etrans; [|exact (Permutation_app (filter_split_perm (is_expired now) ws) IH)].
  rewrite <- !app_assoc. f_equiv. case_bool_decide as E; simpl in *; [by rewrite E|].
  rewrite !app_assoc. f_equiv. apply Permutation_app_comm.
Qed.

Lemma groups_retain_ok now groups : Forall group_ok groups -> Forall group_ok (groups_retain now groups).
Proof.
  intros H. unfold groups_retain. apply Forall_elem. intros g Hg.
  apply filter_elem in Hg as [Hin Hne]. apply list_elem_of_fmap in Hin as ([k ws] & -> & Hin).
  apply negb_true_iff, bool_decide_eq_false in Hne. split; [done|]. simpl in *.
  apply (proj1 (Forall_elem _ _) H) in Hin as [_ Hk].
  apply Forall_elem. intros w Hw. apply filter_elem in Hw as [Hw _].
  by apply (proj1 (Forall_elem _ _) Hk).
Qed.

Lemma drain_expired_waiters now waiting :
  let '(expired, rest) := drain_expired now waiting in
  expired ++ queue_waiters rest ≡ₚ queue_waiters waiting.
Proof.
  unfold drain_expired. induction waiting as [|fp groups m Hm IH] using map_ind; [done|].
  rewrite (Permutation_flat_map _ (map_to_list_insert m fp groups Hm)).
  rewrite (queue_waiters_insert m), (delete_id m) by done. simpl.
  rewrite <- IH, <- (groups_retain_waiters now groups).
  destruct (groups_retain now groups) as [|g gs] eqn:E.
  - rewrite omap_insert_None by (simpl; by rewrite E).
    rewrite delete_id by (rewrite lookup_omap, Hm; done). simpl. by rewrite app_nil_r, <- app_assoc.
  - rewrite (omap_insert_Some _ _ _ _ (g :: gs)) by (simpl; by rewrite E).
    rewrite queue_waiters_insert, delete_id by (rewrite lookup_omap, Hm; done).
    rewrite <- !app_assoc. f_equiv. rewrite !app_assoc. f_equiv. apply Permutation_app_comm.
Qed.

Lemma drain_expired_ok now waiting :
  waiting_ok waiting -> waiting_ok (drain_expired now waiting).2 /\
  forall w, w ∈ queue_waiters (drain_expired now waiting).2 -> is_expired now w = false.
Proof.
  intros H. assert (Hr : forall fp groups, (drain_expired now waiting).2 !! fp = Some groups ->
    exists old, waiting !! fp = Some old /\ groups = groups_retain now old).
  { intros fp groups. simpl. rewrite lookup_omap. destruct (waiting !! fp) as [old|]; [|done].
    simpl. exists old. split; [done|]. destruct (groups_retain now old); congruence. }
  split.
  - intros fp groups (old & Ho & ->)%Hr. apply groups_retain_ok, (H _ _ Ho).
  - intros w Hw. apply flat_map_elem in Hw as ([fp groups] & Hg & Hw).
    apply elem_of_map_to_list, Hr in Hg as (old & _ & ->).
    apply flat_map_elem in Hw as ([k ws] & Hg & Hw). unfold groups_retain in Hg.
    apply filter_elem in Hg as [(g & [= _ ->] & _)%list_elem_of_fmap _].
    apply filter_elem in Hw as [_ Hw]. by apply negb_true_iff.
Qed.

(** The requests an action answers. *)
Definition action_requests (a : DrainAction) : list QueryRequest :=
  match a with ActForward msg => [msg] | ActServe primary coalesced => primary :: coalesced end.

(** A shared serve under [max_limit] suits every client of the group: same wire form, and
    no more rows needed than are cached. *)
Definition action_fits (max_limit : option Z) (a : DrainAction) : Prop :=
  match a with
  | ActForward _ => True
  | ActServe primary coalesced =>
      Forall (fun w => key_from_request w = key_from_request primary /\
        limit_is_sufficient max_limit (limit_rows_needed (rq_limit w)) = true) (primary :: coalesced)
  end.

Lemma key_from_request_limit a b : key_from_request a = key_from_request b -> rq_limit a = rq_limit b.
Proof.
  unfold key_from_request. destruct (rq_pipeline a), (rq_pipeline b); by intros [= ].
Qed.

Lemma forwards_requests l : flat_map action_requests (map ActForward l) = l.
Proof. induction l as [|x l IH]; simpl; [done|]. by rewrite IH. Qed.

Lemma drain_group_spec max_limit g :
  group_ok g -> exists actions, drain_group max_limit g.2 = Some actions /\
    flat_map action_requests actions = g.2 /\ Forall (action_fits max_limit) actions.
Proof.
  intros [Hne Hk]. destruct g as [k [|p ws]]; simpl in *; [done|].
  destruct (limit_is_sufficient max_limit (limit_rows_needed (rq_limit p))) eqn:E; simpl.
  - exists [ActServe p ws]. split_and!; [done|simpl; by rewrite app_nil_r|].
    constructor; [|done]. apply list.Forall_cons in Hk as [Hp Hk].
    constructor; [done|]. apply Forall_elem. intros w Hw.
    assert (Hkey : key_from_request w = key_from_request p).
    { rewrite Hp. by apply (proj1 (Forall_elem _ _) Hk). }
    split; [done|]. by rewrite (key_from_request_limit _ _ Hkey).
  - eexists. split_and!; [done|simpl; by rewrite forwards_requests|].
    apply Forall_elem. by intros a (m & -> & _)%(list_elem_of_fmap ActForward (p :: ws)).
Qed.

Lemma drain_groups_spec max_limit groups :
  Forall group_ok groups -> exists actions, drain_groups max_limit groups = Some actions /\
    flat_map action_requests actions = group_waiters groups /\ Forall (action_fits max_limit) actions.
Proof.
  induction 1 as [|[k ws] rest Hg _ (more & E & Er & Ef)]; simpl; [by exists []|].
  destruct (drain_group_spec max_limit _ Hg) as (actions & E' & Er' & Ef'). simpl in *.
  rewrite E, E'. eexists. split_and!; [done|by rewrite flat_map_app, Er, Er'|by apply Forall_app].
Qed.

(** ** Runs of the queue *)

Inductive QueueOp :=
| QEnqueue (view : StateView) (fingerprint : Fingerprint) (msg : QueryRequest)
| QReady (fingerprint : Fingerprint) (max_limit : option Z)
| QFailed (fingerprint : Fingerprint)
| QExpire (now : Z).

(** The queue, the requests parked so far and the actions taken, each with the row cap it
    was taken under.  [None] is a panic. *)
Record QueueRun := {
  qr_waiting : WaitingQueue;
  qr_parked : list QueryRequest;
  qr_actions : list (option Z * DrainAction);
}.

Definition queue_step (r : QueueRun) (op : QueueOp) : option QueueRun :=
  let log m '(actions, waiting) :=
    {| qr_waiting := waiting; qr_parked := qr_parked r;
       qr_actions := qr_actions r ++ map (pair m) actions |} in
  match op with
  | QEnqueue view fp msg =>
      match enqueue_if_loading view (qr_waiting r) fp (key_from_request msg) msg with
      | None => Some r
      | Some waiting =>
          Some {| qr_waiting := waiting; qr_parked := msg :: qr_parked r; qr_actions := qr_actions r |}
      end
  | QReady fp max_limit => log max_limit <$> waiting_drain_ready (qr_waiting r) fp max_limit
  | QFailed fp => Some (log None (waiting_drain_failed (qr_waiting r) fp))
  | QExpire now => Some (log None (waiting_drain_expired now (qr_waiting r)))
  end.

Fixpoint queue_run (ops : list QueueOp) (r : QueueRun) : option QueueRun :=
  match ops with
  | [] => Some r
  | op :: ops => queue_step r op ≫= queue_run ops
  end.

Record queue_ok (r : QueueRun) : Prop := {
  qo_waiting : waiting_ok (qr_waiting r);
  qo_once : flat_map action_requests (qr_actions r).*2 ++ queue_waiters (qr_waiting r) ≡ₚ qr_parked r;
  qo_fits : Forall (fun e => action_fits e.1 e.2) (qr_actions r);
}.

Lemma waiting_ok_delete waiting fp : waiting_ok waiting -> waiting_ok (delete fp waiting).
Proof. intros H fp' g [_ E]%lookup_delete_Some. by apply (H _ _ E). Qed.

(** A drain that answers exactly the requests it takes out of the queue. *)
Lemma queue_log_ok r m actions waiting :
  queue_ok r -> waiting_ok waiting ->
  flat_map action_requests actions ++ queue_waiters waiting ≡ₚ queue_waiters (qr_waiting r) ->
  Forall (action_fits m) actions ->
  queue_ok {| qr_waiting := waiting; qr_parked := qr_parked r;
              qr_actions := qr_actions r ++ map (pair m) actions |}.
Proof.
  intros [H1 H2 H3] Hw Hp Hf. split; simpl; [done| |].
  - rewrite fmap_app, flat_map_app, <- app_assoc, <- H2. f_equiv.
    replace ((map (pair m) actions).*2) with actions; [done|].
    clear. induction actions as [|a l IH]; [done|]. csimpl. by rewrite <- IH.
  - apply Forall_app. split; [done|]. apply Forall_elem.
    intros e (a & -> & Ha)%(list_elem_of_fmap (pair m)). by apply (proj1 (Forall_elem _ _) Hf).
Qed.

Lemma forwards_fit m l : Forall (action_fits m) (map ActForward l).
Proof. apply Forall_elem. by intros a (x & -> & _)%(list_elem_of_fmap ActForward l). Qed.

Lemma queue_step_ok r op : queue_ok r -> exists r', queue_step r op = Some r' /\ queue_ok r'.
Proof.
  intros Hr. pose proof (qo_waiting _ Hr) as Hw. destruct op as [view fp msg|fp m|fp|now]; cbn [queue_step].
  - destruct (enqueue_if_loading _ _ _ _ _) as [w|] eqn:E; [|by exists r]. eexists. split; [done|].
    pose proof (enqueue_waiters _ _ _ _ _ _ E) as Hp. destruct Hr as [_ H2 H3].
    split; simpl; [|rewrite Hp, <- H2; by rewrite Permutation_middle|done].
    unfold enqueue_if_loading in E. destruct (negb _); [done|]. injection E as <-.
    intros fp' g. rewrite lookup_insert_Some. intros [[<- <-]|[_ Hg]]; [|by apply (Hw _ _ Hg)].
    apply waiters_push_ok. destruct (qr_waiting r !! fp) eqn:E; [by apply (Hw _ _ E)|constructor].
  - unfold waiting_drain_ready, drain. destruct (qr_waiting r !! fp) as [g|] eqn:E.
    + destruct (drain_groups_spec m g (Hw _ _ E)) as (actions & -> & Er & Ef). simpl.
      eexists. split; [done|]. apply queue_log_ok; try done; [by apply waiting_ok_delete|].
      rewrite Er. symmetry. by apply queue_waiters_delete.
    + eexists. split; [done|]. apply queue_log_ok; try done; [by apply waiting_ok_delete|].
      by rewrite (delete_id _ _ E).
  - eexists. split; [done|]. unfold waiting_drain_failed, drain.
    destruct (qr_waiting r !! fp) as [g|] eqn:E; apply queue_log_ok; try done;
      try by apply waiting_ok_delete.
    + rewrite forwards_requests. symmetry. by apply queue_waiters_delete.
    + apply forwards_fit.
    + by rewrite (delete_id _ _ E).
  - eexists. split; [done|]. unfold waiting_drain_expired.
    pose proof (drain_expired_waiters now (qr_waiting r)) as Hp.
    destruct (drain_expired_ok now _ Hw) as [Hok _]. destruct (drain_expired now (qr_waiting r)).
    apply queue_log_ok; [done|exact Hok|by rewrite forwards_requests|apply forwards_fit].
Qed.

Definition queue_start : QueueRun := {| qr_waiting := ∅; qr_parked := []; qr_actions := [] |}.

(** C16: every parked request is answered exactly once.  Whatever the order of enqueues,
    ready and failed drains and deadline sweeps, no drain panics; the requests answered and
    those still waiting are together exactly the requests parked; a request served from the
    cache has the wire form of its group's primary and needs no more rows than the drain's
    row cap; and a sweep leaves no request whose deadline has passed. *)
Theorem coalesce_answers_once ops :
  exists r, queue_run ops queue_start = Some r /\
    flat_map action_requests (qr_actions r).*2 ++ queue_waiters (qr_waiting r) ≡ₚ qr_parked r /\
    Forall (fun e => action_fits e.1 e.2) (qr_actions r) /\
    forall now, exists r', queue_step r (QExpire now) = Some r' /\
      forall w, w ∈ queue_waiters (qr_waiting r') -> is_expired now w = false.
Proof.
  assert (H0 : queue_ok queue_start) by (split; [intros ?? [=]|done|constructor]).
  revert H0. generalize queue_start. induction ops as [|op ops IH]; intros r Hr; simpl.
  - exists r. split; [done|]. split; [apply Hr|]. split; [apply Hr|]. intros now.
    eexists. split; [done|]. exact (proj2 (drain_expired_ok now _ (qo_waiting _ Hr))).
  - destruct (queue_step_ok r op Hr) as (r' & -> & Hr'). by apply IH.
Qed.
