(* ===== verification/Lifecycle.v ===== *)
(** * Life cycle of a cached query

    Models the protocol between dispatch, the writer and the population workers: the state
    view (cache/types.rs), generations (cache/generation.rs), the writer's registration,
    readmission, limit bump, invalidation, eviction and clean-up (cache/writer/), and the
    notifications that drain coalesced waiters (cache/runtime/setup.rs).  The writer runs
    one operation at a time; dispatch, the drain task and the workers interleave with it at
    every access to the shared view and between its writes and its notifications.
    Results of the cache database and of query resolution are inputs of a step.  The
    theorems: no waiter is orphaned, every loading entry has the command or population that
    ends it, and a ready entry is backed by a live query whose generation is never purged.
    [LifecycleGap] holds the histories where the protocol goes wrong. *)
From S2P Require Import Prelude Value Egress Session Dispatch.

(** ** Generations *)

Definition i64_max : Z := (2 ^ 63 - 1)%Z.
Definition i64_min : Z := (- 2 ^ 63)%Z.

Definition generation_next (g : Generation) : Generation := Z.min (g + 1) i64_max.
Definition generation_previous (g : Generation) : Generation := Z.max (Z.max (g - 1) i64_min) 0.

(** ** State of the writer *)

(** The AST, the SQL and the byte count are payload; [cq_registering] is
    [registration_started_at.is_some()]. *)
Record CachedQuery := {
  cq_generation : Generation;
  cq_resolved : SharedResolved;
  cq_max_limit : option Z;
  cq_registering : bool;
  cq_invalidated : bool;
  cq_pinned : bool;
}.

(** [c_tracked] holds the fingerprints with update queries. *)
Record Cache := {
  c_cached : gmap Fingerprint CachedQuery;
  c_counter : Generation;
  c_generations : gset Generation;
  c_tracked : gset Fingerprint;
}.

Definition cache_new : Cache :=
  {| c_cached := ∅; c_counter := 0; c_generations := ∅; c_tracked := ∅ |}.

Definition generation_allocate (c : Cache) : Generation * Cache :=
  let g := generation_next (c_counter c) in
  (g, {| c_cached := c_cached c; c_counter := g; c_generations := {[ g ]} ∪ c_generations c;
         c_tracked := c_tracked c |}).

Definition generations_first (gs : gset Generation) : option Generation :=
  match elements gs with [] => None | g :: rest => Some (foldr Z.min g rest) end.

Definition generation_purge_threshold (c : Cache) : Generation :=
  match generations_first (c_generations c) with
  | Some min => generation_previous min
  | None => c_counter c
  end.

Definition with_cached (m : gmap Fingerprint CachedQuery) (c : Cache) : Cache :=
  {| c_cached := m; c_counter := c_counter c; c_generations := c_generations c; c_tracked := c_tracked c |}.
Definition with_generations (gs : gset Generation) (c : Cache) : Cache :=
  {| c_cached := c_cached c; c_counter := c_counter c; c_generations := gs; c_tracked := c_tracked c |}.
Definition with_tracked (t : gset Fingerprint) (c : Cache) : Cache :=
  {| c_cached := c_cached c; c_counter := c_counter c; c_generations := c_generations c; c_tracked := t |}.

(** [insert_overwrite] of the two-key map: entries with either key go. *)
Definition insert_overwrite (fp : Fingerprint) (q : CachedQuery)
    (m : gmap Fingerprint CachedQuery) : gmap Fingerprint CachedQuery :=
  <[fp := q]> (filter (fun e => cq_generation e.2 <> cq_generation q) m).

Definition tracked_add (fp : Fingerprint) (c : Cache) : Cache :=
  with_tracked ({[ fp ]} ∪ c_tracked c) c.
Definition tracked_remove (fp : Fingerprint) (c : Cache) : Cache :=
  with_tracked (c_tracked c ∖ {[ fp ]}) c.

(** ** The system *)

Inductive QueryCommand :=
| CmdRegister (fingerprint : Fingerprint) (action : AdmitAction) (pinned : bool)
| CmdMerge (fingerprint : Fingerprint) (generation : Generation)
| CmdFailed (fingerprint : Fingerprint) (generation : Generation)
| CmdLimitBump (fingerprint : Fingerprint) (max_limit : option Z)
| CmdReadmit (fingerprint : Fingerprint).

Inductive WriterNotify :=
| NotifyReady (fingerprint : Fingerprint) (generation : Generation) (max_limit : option Z)
| NotifyFailed (fingerprint : Fingerprint).

Definition notify_fingerprint (n : WriterNotify) : Fingerprint :=
  match n with NotifyReady fp _ _ | NotifyFailed fp => fp end.

(** [s_sending] is what the running writer operation has still to send on the notify
    channel, [s_claims] the commands of dispatches that have written the view and not yet
    sent.  [s_served] records the drains' actions with the generation they ran at. *)
Record Sys := {
  s_cache : Cache;
  s_view : StateView;
  s_sending : list WriterNotify;
  s_notify : list WriterNotify;
  s_waiting : WaitingQueue;
  s_claims : list QueryCommand;
  s_commands : list QueryCommand;
  s_populations : list (Fingerprint * Generation);
  s_merges : list (Fingerprint * Generation);
  s_bump : option Fingerprint;
  s_served : list (Fingerprint * Generation * list DrainAction);
}.

Definition sys_new : Sys :=
  {| s_cache := cache_new; s_view := ∅; s_sending := []; s_notify := []; s_waiting := ∅;
     s_claims := []; s_commands := []; s_populations := []; s_merges := []; s_bump := None;
     s_served := [] |}.

Definition with_cache (c : Cache) (s : Sys) : Sys :=
  {| s_cache := c; s_view := s_view s; s_sending := s_sending s; s_notify := s_notify s;
     s_waiting := s_waiting s; s_claims := s_claims s; s_commands := s_commands s;
     s_populations := s_populations s; s_merges := s_merges s; s_bump := s_bump s;
     s_served := s_served s |}.
Definition with_view (v : StateView) (s : Sys) : Sys :=
  {| s_cache := s_cache s; s_view := v; s_sending := s_sending s; s_notify := s_notify s;
     s_waiting := s_waiting s; s_claims := s_claims s; s_commands := s_commands s;
     s_populations := s_populations s; s_merges := s_merges s; s_bump := s_bump s;
     s_served := s_served s |}.
Definition with_notify (sending notify : list WriterNotify) (s : Sys) : Sys :=
  {| s_cache := s_cache s; s_view := s_view s; s_sending := sending; s_notify := notify;
     s_waiting := s_waiting s; s_claims := s_claims s; s_commands := s_commands s;
     s_populations := s_populations s; s_merges := s_merges s; s_bump := s_bump s;
     s_served := s_served s |}.
Definition with_commands (claims commands : list QueryCommand) (s : Sys) : Sys :=
  {| s_cache := s_cache s; s_view := s_view s; s_sending := s_sending s; s_notify := s_notify s;
     s_waiting := s_waiting s; s_claims := claims; s_commands := commands;
     s_populations := s_populations s; s_merges := s_merges s; s_bump := s_bump s;
     s_served := s_served s |}.
Definition with_work (populations merges : list (Fingerprint * Generation)) (s : Sys) : Sys :=
  {| s_cache := s_cache s; s_view := s_view s; s_sending := s_sending s; s_notify := s_notify s;
     s_waiting := s_waiting s; s_claims := s_claims s; s_commands := s_commands s;
     s_populations := populations; s_merges := merges; s_bump := s_bump s;
     s_served := s_served s |}.
Definition with_bump (b : option Fingerprint) (s : Sys) : Sys :=
  {| s_cache := s_cache s; s_view := s_view s; s_sending := s_sending s; s_notify := s_notify s;
     s_waiting := s_waiting s; s_claims := s_claims s; s_commands := s_commands s;
     s_populations := s_populations s; s_merges := s_merges s; s_bump := b;
     s_served := s_served s |}.
Definition with_waiting (w : WaitingQueue) (served : list (Fingerprint * Generation * list DrainAction))
    (s : Sys) : Sys :=
  {| s_cache := s_cache s; s_view := s_view s; s_sending := s_sending s; s_notify := s_notify s;
     s_waiting := w; s_claims := s_claims s; s_commands := s_commands s;
     s_populations := s_populations s; s_merges := s_merges s; s_bump := s_bump s;
     s_served := served |}.

Definition notify_send (n : WriterNotify) (s : Sys) : Sys :=
  with_notify (s_sending s ++ [n]) (s_notify s) s.
Definition command_send (c : QueryCommand) (s : Sys) : Sys :=
  with_commands (s_claims s) (s_commands s ++ [c]) s.

(** ** View transitions *)

Record QueryServing := {
  sv_generation : Generation;
  sv_resolved : SharedResolved;
  sv_max_limit : option Z;
}.

Definition serving_of (q : CachedQuery) : QueryServing :=
  {| sv_generation := cq_generation q; sv_resolved := cq_resolved q; sv_max_limit := cq_max_limit q |}.

(** Both arms of the entry call write the same fields. *)
Definition state_view_write (fp : Fingerprint) (state : CachedQueryState) (serving : QueryServing)
    (s : Sys) : Sys :=
  with_view (<[fp := {| v_state := state; v_generation := sv_generation serving;
                        v_resolved := Some (sv_resolved serving);
                        v_max_limit := sv_max_limit serving; v_referenced := false |}]> (s_view s)) s.

Definition state_loading_transition (fp : Fingerprint) (serving : QueryServing) (s : Sys) : Sys :=
  state_view_write fp Loading serving s.

Definition state_ready_transition (fp : Fingerprint) (serving : QueryServing) (s : Sys) : Sys :=
  notify_send (NotifyReady fp (sv_generation serving) (sv_max_limit serving))
    (state_view_write fp Ready serving s).

Definition waiters_fail (fp : Fingerprint) (s : Sys) : Sys := notify_send (NotifyFailed fp) s.

Definition population_finalize_allowed (live : option (Generation * bool)) (parked : Generation) : bool :=
  match live with
  | Some (generation, invalidated) => (generation =? parked)%Z && negb invalidated
  | None => false
  end.

Definition population_is_current (fp : Fingerprint) (generation : Generation) (s : Sys) : bool :=
  population_finalize_allowed
    ((fun q => (cq_generation q, cq_invalidated q)) <$> c_cached (s_cache s) !! fp) generation.

(** The work item is on the dispatcher's queue or with a worker.  The code's send fails
    when the dispatcher has gone; its callers then run [query_failed_cleanup], as for a
    failed publication.  That failure is not a step here. *)
Definition population_start (fp : Fingerprint) (generation : Generation) (s : Sys) : Sys :=
  with_work (s_populations s ++ [(fp, generation)]) (s_merges s) s.

(** ** Registration *)

Definition cached_query_insert (fp : Fingerprint) (pinned : bool) (resolved : SharedResolved)
    (max_limit : option Z) (s : Sys) : Generation * Sys :=
  let '(generation, c) := generation_allocate (s_cache s) in
  let q := {| cq_generation := generation; cq_resolved := resolved; cq_max_limit := max_limit;
              cq_registering := true; cq_invalidated := false; cq_pinned := pinned |} in
  (generation, with_cache (with_cached (insert_overwrite fp q (c_cached c)) c) s).

Definition query_readmit (fp : Fingerprint) (s : Sys) : Sys :=
  let '(new_generation, c) := generation_allocate (s_cache s) in
  match c_cached c !! fp with
  | None => with_cache c s
  | Some cached =>
      let cached :=
        {| cq_generation := new_generation; cq_resolved := cq_resolved cached;
           cq_max_limit := cq_max_limit cached; cq_registering := true; cq_invalidated := false;
           cq_pinned := cq_pinned cached |} in
      population_start fp new_generation
        (state_loading_transition fp (serving_of cached)
          (with_cache (with_cached (insert_overwrite fp cached (delete fp (c_cached c))) c) s))
  end.

Definition registering_clear (q : CachedQuery) : CachedQuery :=
  {| cq_generation := cq_generation q; cq_resolved := cq_resolved q; cq_max_limit := cq_max_limit q;
     cq_registering := false; cq_invalidated := cq_invalidated q; cq_pinned := cq_pinned q |}.

Definition query_ready_mark (fp : Fingerprint) (s : Sys) : Sys :=
  match c_cached (s_cache s) !! fp with
  | None => s
  | Some q =>
      state_ready_transition fp (serving_of q)
        (with_cache (with_cached (<[fp := registering_clear q]> (c_cached (s_cache s))) (s_cache s)) s)
  end.

(** What resolution and the cache database answer while a query registers. *)
Inductive SubsumeOutcome := SubsumePublicationError | SubsumeStampFailed | SubsumeStamped.

Record RegisterInput := {
  ri_resolution : option (SharedResolved * option Z);   (* the resolved query and its row cap *)
  ri_subsumed : bool;
  ri_subsume : SubsumeOutcome;
  ri_publication_ok : bool;
}.

(** [Some true] is a stamped and ready query, [Some false] the fallback, [None] an error. *)
Definition query_subsume (fp : Fingerprint) (pinned : bool) (resolved : SharedResolved)
    (max_limit : option Z) (outcome : SubsumeOutcome) (s : Sys) : Sys * option bool :=
  let '(generation, s) := cached_query_insert fp pinned resolved max_limit s in
  match outcome with
  | SubsumePublicationError => (s, None)
  | SubsumeStampFailed => (s, Some false)
  | SubsumeStamped =>
      let s := state_ready_transition fp
                 {| sv_generation := generation; sv_resolved := resolved; sv_max_limit := max_limit |} s in
      let c := s_cache s in
      (with_cache (with_cached (alter registering_clear fp (c_cached c)) c) s, Some true)
  end.

Definition subsumption_fallback_populate (fp : Fingerprint) (s : Sys) : Sys :=
  match c_cached (s_cache s) !! fp with
  | None => s
  | Some q => population_start fp (cq_generation q) s
  end.

Definition query_admit (fp : Fingerprint) (pinned : bool) (resolved : SharedResolved)
    (max_limit : option Z) (publication_ok : bool) (s : Sys) : Sys * bool :=
  let '(generation, s) := cached_query_insert fp pinned resolved max_limit s in
  if negb publication_ok then (s, false) else (population_start fp generation s, true).

(** The boolean is [Ok]. *)
Definition query_register (fp : Fingerprint) (action : AdmitAction) (pinned : bool)
    (input : RegisterInput) (s : Sys) : Sys * bool :=
  if bool_decide (cq_invalidated <$> c_cached (s_cache s) !! fp = Some true) then
    (query_readmit fp s, true)
  else
    match ri_resolution input with
    | None => (s, false)
    | Some (resolved, max_limit) =>
        let s := with_cache (tracked_add fp (s_cache s)) s in
        if ri_subsumed input then
          match query_subsume fp pinned resolved max_limit (ri_subsume input) s with
          | (s, None) => (s, false)
          | (s, Some true) => (s, true)
          | (s, Some false) => (subsumption_fallback_populate fp s, true)
          end
        else if bool_decide (action = ActCheckOnly) then
          (with_cache (tracked_remove fp (s_cache s)) s, true)
        else query_admit fp pinned resolved max_limit (ri_publication_ok input) s
    end.

(** ** Clean-up, failure, limit bump *)

Definition query_failed_cleanup (fp : Fingerprint) (s : Sys) : Sys :=
  let c := s_cache s in
  let c :=
    match c_cached c !! fp with
    | Some query =>
        tracked_remove fp
          (with_generations (c_generations c ∖ {[ cq_generation query ]})
            (with_cached (delete fp (c_cached c)) c))
    | None => tracked_remove fp c
    end in
  waiters_fail fp (with_view (delete fp (s_view s)) (with_cache c s)).

Definition register_command (fp : Fingerprint) (action : AdmitAction) (pinned : bool)
    (input : RegisterInput) (s : Sys) : Sys :=
  match query_register fp action pinned input s with
  | (s, true) => s
  | (s, false) => query_failed_cleanup fp s
  end.

(** The marks of the MV and the [has_limit] bit of the update queries are kept elsewhere. *)
Definition limit_bump_handle (fp : Fingerprint) (new_max_limit : option Z) (s : Sys) : Sys :=
  match c_cached (s_cache s) !! fp with
  | None => s
  | Some cached_query =>
      let old_generation := cq_generation cached_query in
      let '(new_generation, c) := generation_allocate (s_cache s) in
      let c := with_generations (c_generations c ∖ {[ old_generation ]}) c in
      let cached :=
        {| cq_generation := new_generation; cq_resolved := cq_resolved cached_query;
           cq_max_limit := new_max_limit; cq_registering := true;
           cq_invalidated := cq_invalidated cached_query; cq_pinned := cq_pinned cached_query |} in
      population_start fp new_generation
        (state_loading_transition fp (serving_of cached)
          (with_cache (with_cached (insert_overwrite fp cached (delete fp (c_cached c))) c) s))
  end.

(** ** Invalidation and eviction *)

Definition invalidated_set (q : CachedQuery) : CachedQuery :=
  {| cq_generation := cq_generation q; cq_resolved := cq_resolved q; cq_max_limit := cq_max_limit q;
     cq_registering := cq_registering q; cq_invalidated := true; cq_pinned := cq_pinned q |}.

Definition view_invalidate (v : CachedQueryView) : CachedQueryView :=
  {| v_state := Invalidated; v_generation := v_generation v; v_resolved := v_resolved v;
     v_max_limit := v_max_limit v; v_referenced := false |}.

Definition query_invalidated_mark (fp : Fingerprint) (generation : Generation) (s : Sys) : Sys :=
  let c := with_generations (c_generations (s_cache s) ∖ {[ generation ]}) (s_cache s) in
  let c := with_cached (alter invalidated_set fp (c_cached c)) c in
  waiters_fail fp (with_view (alter view_invalidate fp (s_view s)) (with_cache c s)).

(** Purging rows, dropping the MV and bumping the memo slot act on other stores.  One step
    here: the code awaits the drop of the materialized table after it has removed the query
    and its generation and before it removes the view entry, so that a dispatch in between
    can still meet the entry. *)
Definition cache_query_evict (fp : Fingerprint) (s : Sys) : Sys :=
  let c := s_cache s in
  match c_cached c !! fp with
  | None => s
  | Some query =>
      let c := with_generations (c_generations c ∖ {[ cq_generation query ]})
                 (with_cached (delete fp (c_cached c)) c) in
      let s := waiters_fail fp (with_view (delete fp (s_view s)) (with_cache c s)) in
      with_cache (tracked_remove fp (s_cache s)) s
  end.

Definition cache_query_cdc_invalidate (policy : CachePolicy) (fp : Fingerprint) (s : Sys) : Sys :=
  match c_cached (s_cache s) !! fp with
  | Some q =>
      if cq_pinned q then waiters_fail fp (command_send (CmdReadmit fp) s)
      else if bool_decide (policy = Fifo) then cache_query_evict fp s
      else if cq_invalidated q then s
      else query_invalidated_mark fp (cq_generation q) s
  | None => s
  end.

Inductive CandidateAction := PinnedBump | ClockBump | Skip | Evict.
#[global] Instance candidate_action_eq_dec : EqDecision CandidateAction.
Proof. solve_decision. Defined.

Definition eviction_candidate_action (fp : Fingerprint) (pinned clock_bump_allowed : bool)
    (s : Sys) : CandidateAction :=
  let view := s_view s !! fp in
  let ready := bool_decide (v_state <$> view = Some Ready) in
  if pinned then (if ready then PinnedBump else Skip)
  else
    let referenced := match view with Some e => v_referenced e | None => false end in
    if negb (clock_bump_allowed && referenced) then Evict
    else if ready then ClockBump
    else Skip.

(** A bump restamps rows in the cache database between the decision and its writes; the
    allocation is private to the writer and shown with the writes. *)
Definition generation_bump_finish (fp : Fingerprint) (stamped : bool) (s : Sys) : Sys :=
  let s := with_bump None s in
  match c_cached (s_cache s) !! fp with
  | None => s
  | Some query =>
      let old_generation := cq_generation query in
      let '(new_generation, c) := generation_allocate (s_cache s) in
      if negb stamped then with_cache c s
      else
        let c := with_generations (c_generations c ∖ {[ old_generation ]}) c in
        let cached :=
          {| cq_generation := new_generation; cq_resolved := cq_resolved query;
             cq_max_limit := cq_max_limit query; cq_registering := cq_registering query;
             cq_invalidated := cq_invalidated query; cq_pinned := cq_pinned query |} in
        let rekey v :=
          {| v_state := v_state v; v_generation := new_generation; v_resolved := v_resolved v;
             v_max_limit := v_max_limit v; v_referenced := false |} in
        with_view (alter rekey fp (s_view s))
          (with_cache (with_cached (insert_overwrite fp cached (delete fp (c_cached c))) c) s)
  end.

(** One candidate of an eviction round: a bump is left in progress. *)
Definition eviction_candidate (fp : Fingerprint) (clock_bump_allowed : bool) (s : Sys) : Sys :=
  match c_cached (s_cache s) !! fp with
  | None => s
  | Some query =>
      match eviction_candidate_action fp (cq_pinned query) clock_bump_allowed s with
      | PinnedBump | ClockBump => with_bump (Some fp) s
      | Skip => s
      | Evict => cache_query_evict fp s
      end
  end.

Definition entry_stale (threshold : Generation) (q : CachedQuery) : bool :=
  cq_invalidated q && negb (cq_pinned q) && (cq_generation q <? threshold)%Z.

Definition view_retain (threshold : Generation) (hit_delta : Z) (v : CachedQueryView) :
    option CachedQueryView :=
  match v_state v with
  | Pending hits credit =>
      let credit := Z.max (credit - hit_delta) 0 in
      if (0 <? credit)%Z then Some (view_set_state (Pending hits credit) v) else None
  | Invalidated => if (threshold <=? v_generation v)%Z then Some v else None
  | Loading | Ready => Some v
  end.

Definition stale_entries_cleanup (hit_delta : Z) (s : Sys) : Sys :=
  let c := s_cache s in
  let threshold := generation_purge_threshold c in
  let stale := dom (filter (fun e => entry_stale threshold e.2 = true) (c_cached c)) in
  let c := with_tracked (c_tracked c ∖ stale)
             (with_cached (filter (fun e => entry_stale threshold e.2 = false) (c_cached c)) c) in
  with_view (omap (view_retain threshold hit_delta) (s_view s)) (with_cache c s).

(** Rows of generation zero were promoted to the next generation. *)
Definition generation_zero_promote (s : Sys) : Sys :=
  let c := s_cache s in
  with_cache {| c_cached := c_cached c; c_counter := generation_next (c_counter c);
                c_generations := c_generations c; c_tracked := c_tracked c |} s.

(** ** Steps *)

Inductive Label :=
(* dispatch *)
| LClaim (fp : Fingerprint) (snapshot : option EntrySnapshot) (input : DecisionInput) (budget : bool)
| LClaimSend (i : nat) (delivered : bool)   (* false: the forward before a LimitBump failed *)
| LEnqueue (fp : Fingerprint) (msg : QueryRequest)
| LPinned (fp : Fingerprint)
(* the drain task *)
| LNotify
| LExpire (now : Z)
(* the writer *)
| LSend                                 (* the next pending notification goes out *)
| LCommand (input : RegisterInput)
| LMerge (fp : Fingerprint) (generation : Generation) (applied : bool)
| LCdc (policy : CachePolicy) (fp : Fingerprint)
| LEvict (fp : Fingerprint) (clock_bump_allowed : bool)
| LBumpFinish (stamped : bool)
| LCleanup (hit_delta : Z)
| LPromote
(* a population worker *)
| LPopulated (fp : Fingerprint) (generation : Generation) (ok : bool).

(** The command a dispatch sends after its view write. *)
Definition claim_command (fp : Fingerprint) (input : DecisionInput) (d : ServeDecision) :
    option QueryCommand :=
  match d with
  | DecLimitBump _ => Some (CmdLimitBump fp (di_rows_needed input))
  | DecRegister _ action => Some (CmdRegister fp action false)
  | _ => None
  end.

Definition claim_step (fp : Fingerprint) (snapshot : option EntrySnapshot) (input : DecisionInput)
    (budget : bool) (s : Sys) : Sys :=
  match transition_apply (s_view s) fp (serve_decide snapshot input budget) input with
  | (view, Some d) =>
      with_commands (s_claims s ++ option_list (claim_command fp input d)) (s_commands s)
        (with_view view s)
  | (_, None) => s
  end.

(** Concurrent dispatches send in any order; a failed forward drops a limit bump. *)
Definition claim_send (i : nat) (delivered : bool) (s : Sys) : option Sys :=
  match s_claims s !! i with
  | None => None
  | Some c =>
      let lost := match c with CmdLimitBump _ _ => negb delivered | _ => false end in
      Some (with_commands (delete i (s_claims s)) (s_commands s ++ (if lost then [] else [c])) s)
  end.

Definition pinned_register (fp : Fingerprint) (s : Sys) : Sys :=
  with_commands (s_claims s ++ [CmdRegister fp ActAdmit true]) (s_commands s)
    (with_view (<[fp := view_placeholder Loading]> (s_view s)) s).

Definition coalesce_drain (n : WriterNotify) (s : Sys) : option Sys :=
  match n with
  | NotifyReady fp generation max_limit =>
      (fun '(actions, w) => with_waiting w (s_served s ++ [(fp, generation, actions)]) s) <$>
        waiting_drain_ready (s_waiting s) fp max_limit
  | NotifyFailed fp =>
      Some (with_waiting (waiting_drain_failed (s_waiting s) fp).2 (s_served s) s)
  end.

Definition query_command_handle (cmd : QueryCommand) (input : RegisterInput) (s : Sys) : Sys :=
  match cmd with
  | CmdRegister fp action pinned => register_command fp action pinned input s
  | CmdMerge fp generation => with_work (s_populations s) (s_merges s ++ [(fp, generation)]) s
  | CmdFailed fp _ => query_failed_cleanup fp s
  | CmdLimitBump fp max_limit => limit_bump_handle fp max_limit s
  | CmdReadmit fp => query_readmit fp s
  end.

Fixpoint remove_one {A} `{EqDecision A} (x : A) (l : list A) : option (list A) :=
  match l with
  | [] => None
  | y :: l => if decide (y = x) then Some l else (y ::.) <$> remove_one x l
  end.

(** A merge is dropped when its population is no longer current, and otherwise ends in the
    ready mark or, aborted or failed, in the clean-up. *)
Definition merge_step (fp : Fingerprint) (generation : Generation) (applied : bool) (s : Sys) :
    option Sys :=
  match remove_one (fp, generation) (s_merges s) with
  | None => None
  | Some merges =>
      let s := with_work (s_populations s) merges s in
      Some (if negb (population_is_current fp generation s) then s
            else if applied then query_ready_mark fp s
            else query_failed_cleanup fp s)
  end.

Definition population_done (fp : Fingerprint) (generation : Generation) (ok : bool) (s : Sys) :
    option Sys :=
  match remove_one (fp, generation) (s_populations s) with
  | None => None
  | Some populations =>
      Some (command_send (if ok then CmdMerge fp generation else CmdFailed fp generation)
              (with_work populations (s_merges s) s))
  end.

(** The writer starts an operation when the previous one has sent its notifications and no
    bump is in progress. *)
Definition writer_idle (s : Sys) : bool :=
  bool_decide (s_sending s = []) && bool_decide (s_bump s = None).

Definition sys_step (l : Label) (s : Sys) : option Sys :=
  match l with
  | LClaim fp snapshot input budget => Some (claim_step fp snapshot input budget s)
  | LClaimSend i delivered => claim_send i delivered s
  | LEnqueue fp msg =>
      (fun w => with_waiting w (s_served s) s) <$>
        enqueue_if_loading (s_view s) (s_waiting s) fp (key_from_request msg) msg
  | LPinned fp => Some (pinned_register fp s)
  | LNotify =>
      match s_notify s with
      | [] => None
      | n :: notify => coalesce_drain n (with_notify (s_sending s) notify s)
      end
  | LExpire now =>
      Some (with_waiting (waiting_drain_expired now (s_waiting s)).2 (s_served s) s)
  | LSend =>
      match s_sending s with
      | [] => None
      | n :: sending => Some (with_notify sending (s_notify s ++ [n]) s)
      end
  | LCommand input =>
      match s_commands s with
      | cmd :: commands =>
          if writer_idle s then
            Some (query_command_handle cmd input (with_commands (s_claims s) commands s))
          else None
      | [] => None
      end
  | LMerge fp generation applied => if writer_idle s then merge_step fp generation applied s else None
  | LCdc policy fp => if writer_idle s then Some (cache_query_cdc_invalidate policy fp s) else None
  | LEvict fp allowed => if writer_idle s then Some (eviction_candidate fp allowed s) else None
  | LBumpFinish stamped =>
      match s_bump s with Some fp => Some (generation_bump_finish fp stamped s) | None => None end
  | LCleanup hit_delta => if writer_idle s then Some (stale_entries_cleanup hit_delta s) else None
  | LPromote => if writer_idle s then Some (generation_zero_promote s) else None
  | LPopulated fp generation ok => population_done fp generation ok s
  end.

Fixpoint sys_run (ls : list Label) (s : Sys) : option Sys :=
  match ls with [] => Some s | l :: ls => sys_step l s ≫= sys_run ls end.

(** ** No orphaned waiter *)

Definition view_loading (s : Sys) (fp : Fingerprint) : Prop := v_state <$> s_view s !! fp = Some Loading.
Definition notified (s : Sys) (fp : Fingerprint) : Prop :=
  exists n, n ∈ s_notify s ++ s_sending s /\ notify_fingerprint n = fp.

Definition parked_ok (s : Sys) : Prop :=
  forall fp, is_Some (s_waiting s !! fp) -> view_loading s fp \/ notified s fp.

(** What every operation outside the queue does to waiters. *)
Record keeps (s s' : Sys) : Prop := {
  kp_waiting : s_waiting s' = s_waiting s;
  kp_notified : forall fp, notified s fp -> notified s' fp;
  kp_loading : forall fp, view_loading s fp -> view_loading s' fp \/ notified s' fp;
}.

Lemma keeps_parked s s' : keeps s s' -> parked_ok s -> parked_ok s'.
Proof. intros [H1 H2 H3] H fp. rewrite H1. intros [?|?]%H; [by apply H3|right; by apply H2]. Qed.

#[export] Instance keeps_preorder : PreOrder keeps.
Proof.
  split.
  - by constructor; [| |left].
  - intros s1 s2 s3 [A1 A2 A3] [B1 B2 B3]. constructor; [congruence|auto|].
    intros fp [?|?]%A3; [by apply B3|right; by apply B2].
Qed.

(** An operation that changes neither the view, the queue nor the notifications. *)
Lemma keeps_same s s' :
  s_waiting s' = s_waiting s -> s_view s' = s_view s -> s_notify s' = s_notify s ->
  s_sending s' = s_sending s -> keeps s s'.
Proof.
  intros E1 E2 E3 E4. constructor; [done| |]; unfold notified, view_loading.
  - intros fp H. by rewrite E3, E4.
  - intros fp H. left. by rewrite E2.
Qed.

Lemma notified_send s n fp : notified s fp \/ notify_fingerprint n = fp -> notified (notify_send n s) fp.
Proof.
  unfold notified. simpl. intros [(m & Hm & E)|E].
  - exists m. split; [|done]. rewrite app_assoc. apply elem_of_app. by left.
  - exists n. split; [|done]. rewrite app_assoc. apply elem_of_app. right. by apply list_elem_of_singleton.
Qed.

(** Writing the view of [fp] and then notifying its waiters. *)
Lemma keeps_notify s s' fp n :
  s_waiting s' = s_waiting s -> (forall fp', fp' <> fp -> s_view s' !! fp' = s_view s !! fp') ->
  s_notify s' = s_notify s -> s_sending s' = s_sending s -> notify_fingerprint n = fp ->
  keeps s (notify_send n s').
Proof.
  intros E1 E2 E3 E4 En. constructor; [done| |].
  - intros fp' H. apply notified_send. left. unfold notified in *. by rewrite E3, E4.
  - intros fp' H. destruct (decide (fp' = fp)) as [->|Hne].
    + right. apply notified_send. by right.
    + left. unfold view_loading in *. simpl. by rewrite E2.
Qed.

Lemma keeps_loading_write s fp serving : keeps s (state_loading_transition fp serving s).
Proof.
  constructor; [done|done|]. intros fp' H. left. unfold view_loading in *. simpl.
  destruct (decide (fp' = fp)) as [->|?]; [by rewrite lookup_insert_eq|by rewrite lookup_insert_ne].
Qed.

Lemma keeps_repopulate fp g serving c s :
  keeps s (population_start fp g (state_loading_transition fp serving (with_cache c s))).
Proof.
  trans (with_cache c s); [by apply keeps_same|].
  trans (state_loading_transition fp serving (with_cache c s)); [apply keeps_loading_write|].
  by apply keeps_same.
Qed.

Lemma keeps_readmit fp s : keeps s (query_readmit fp s).
Proof.
  unfold query_readmit. destruct (generation_allocate _) as [g c].
  destruct (c_cached c !! fp); [apply keeps_repopulate|by apply keeps_same].
Qed.

Lemma keeps_limit_bump fp m s : keeps s (limit_bump_handle fp m s).
Proof.
  unfold limit_bump_handle. destruct (c_cached (s_cache s) !! fp); [|done].
  destruct (generation_allocate _). apply keeps_repopulate.
Qed.

Lemma keeps_ready fp serving s : keeps s (state_ready_transition fp serving s).
Proof. apply (keeps_notify _ _ fp); try done. intros fp' Hne. simpl. by rewrite lookup_insert_ne. Qed.

Lemma keeps_ready_mark fp s : keeps s (query_ready_mark fp s).
Proof.
  unfold query_ready_mark. destruct (c_cached (s_cache s) !! fp); [|done].
  etrans; [|apply keeps_ready]. by apply keeps_same.
Qed.

Lemma keeps_cleanup fp s : keeps s (query_failed_cleanup fp s).
Proof. apply (keeps_notify _ _ fp); try done. intros fp' Hne. simpl. by rewrite lookup_delete_ne. Qed.

Lemma keeps_evict fp s : keeps s (cache_query_evict fp s).
Proof.
  unfold cache_query_evict. destruct (c_cached (s_cache s) !! fp); [|done].
  match goal with |- keeps _ (with_cache _ ?x) => trans x end; [|by apply keeps_same].
  apply (keeps_notify _ _ fp); try done. intros fp' Hne. simpl. by rewrite lookup_delete_ne.
Qed.

Lemma keeps_insert fp pinned r m s : keeps s (cached_query_insert fp pinned r m s).2.
Proof. by apply keeps_same. Qed.

Lemma keeps_register fp action pinned input s :
  keeps s (query_register fp action pinned input s).1.
Proof.
  unfold query_register. case_bool_decide as Hi; [apply keeps_readmit|].
  destruct (ri_resolution input) as [[r m]|]; [|done]. cbv zeta.
  etrans; [apply (keeps_same s (with_cache (tracked_add fp (s_cache s)) s)); done|].
  generalize (with_cache (tracked_add fp (s_cache s)) s). clear Hi s. intros s.
  destruct (ri_subsumed input).
  - unfold query_subsume. pose proof (keeps_insert fp pinned r m s) as H.
    destruct (cached_query_insert fp pinned r m s) as [g s1]. simpl in H. etrans; [exact H|].
    destruct (ri_subsume input); simpl; [done| |].
    + unfold subsumption_fallback_populate. destruct (c_cached _ !! fp); [by apply keeps_same|done].
    + etrans; [apply keeps_ready|]. by apply keeps_same.
  - case_bool_decide as Ha; [by apply keeps_same|]. unfold query_admit.
    pose proof (keeps_insert fp pinned r m s) as H.
    destruct (cached_query_insert fp pinned r m s) as [g s1]. simpl in H.
    destruct (negb _); simpl; [done|]. etrans; [exact H|by apply keeps_same].
Qed.

Lemma keeps_command cmd input s : keeps s (query_command_handle cmd input s).
Proof.
  destruct cmd; simpl.
  - unfold register_command. pose proof (keeps_register fingerprint action pinned input s) as H.
    destruct (query_register _ _ _ _ _) as [s' []]; [done|]. etrans; [exact H|apply keeps_cleanup].
  - by apply keeps_same.
  - apply keeps_cleanup.
  - apply keeps_limit_bump.
  - apply keeps_readmit.
Qed.

Lemma keeps_cdc policy fp s : keeps s (cache_query_cdc_invalidate policy fp s).
Proof.
  unfold cache_query_cdc_invalidate. destruct (c_cached _ !! fp) as [q|]; [|done].
  destruct (cq_pinned q); [by apply (keeps_notify _ _ fp)|]. case_bool_decide; [apply keeps_evict|].
  destruct (cq_invalidated q); [done|]. apply (keeps_notify _ _ fp); try done.
  intros fp' Hne. simpl. by rewrite lookup_alter_ne.
Qed.

Lemma keeps_stale d s : keeps s (stale_entries_cleanup d s).
Proof.
  constructor; [done|done|]. intros fp H. left. unfold view_loading in *. simpl.
  rewrite lookup_omap. destruct (s_view s !! fp) as [v|]; [|done]. simpl in *.
  injection H as E. unfold view_retain. rewrite E. simpl. by rewrite E.
Qed.

Lemma keeps_bump_finish fp b s : keeps s (generation_bump_finish fp b s).
Proof.
  unfold generation_bump_finish. destruct (c_cached _ !! fp); [|by apply keeps_same].
  destruct (generation_allocate _). destruct (negb b); [by apply keeps_same|].
  constructor; [done|done|]. intros fp' H. left. unfold view_loading in *. simpl.
  rewrite lookup_alter. destruct (decide (fp = fp')) as [->|]; [|done].
  by destruct (s_view s !! fp').
Qed.

(** A guarded dispatch write leaves a loading entry loading. *)
Lemma transition_apply_loading view fp d input fp' :
  v_state <$> view !! fp' = Some Loading ->
  v_state <$> (transition_apply view fp d input).1 !! fp' = Some Loading.
Proof.
  intros H. unfold transition_apply. destruct (decision_transition d) as [t|]; [|done].
  destruct (tr_expected t); destruct (view !! fp) as [e|] eqn:E; try done.
  - destruct (negb _); [done|]. destruct (decision_transition (serve_decide _ _ _)) as [t'|] eqn:Et; [|done].
    simpl. destruct (decide (fp = fp')) as [->|]; [|by rewrite lookup_insert_ne].
    rewrite E in H. simpl in H. injection H as H. unfold serve_decide, view_snapshot in Et. simpl in Et.
    rewrite H in Et. by destruct (di_throttled input).
  - simpl. rewrite lookup_insert_ne; [done|]. intros ->. by rewrite E in H.
Qed.

Lemma keeps_claim fp snapshot input budget s : keeps s (claim_step fp snapshot input budget s).
Proof.
  unfold claim_step. destruct (transition_apply _ _ _ _) as [view [d|]] eqn:E; [|done].
  constructor; [done|done|]. intros fp' H. left. unfold view_loading in *. simpl.
  apply (transition_apply_loading _ fp (serve_decide snapshot input budget) input) in H. by rewrite E in H.
Qed.

Lemma keeps_pinned fp s : keeps s (pinned_register fp s).
Proof.
  constructor; [done|done|]. intros fp' H. left. unfold view_loading in *. simpl.
  destruct (decide (fp' = fp)) as [->|?]; [by rewrite lookup_insert_eq|by rewrite lookup_insert_ne].
Qed.

Lemma drain_parked s n notify served :
  parked_ok s -> s_notify s = n :: notify ->
  parked_ok (with_waiting (delete (notify_fingerprint n) (s_waiting s)) served
               (with_notify (s_sending s) notify s)).
Proof.
  intros H Hn fp [g Hg]. simpl in Hg. apply lookup_delete_Some in Hg as [Hne Hg].
  destruct (H fp) as [Hl|(m & Hm & Em)]; [by exists g|by left|].
  right. exists m. split; [|done]. simpl. rewrite Hn in Hm. simpl in Hm.
  apply elem_of_cons in Hm as [->|Hm]; [done|]. exact Hm.
Qed.

Lemma sys_step_parked l s s' : sys_step l s = Some s' -> parked_ok s -> parked_ok s'.
Proof.
  intros Hs H. destruct l; simpl in Hs.
  - injection Hs as <-. eapply keeps_parked; [apply keeps_claim|done].
  - unfold claim_send in Hs. destruct (s_claims s !! i); [|done]. injection Hs as <-.
    eapply keeps_parked; [|done]. by apply keeps_same.
  - destruct (enqueue_if_loading _ _ _ _ _) as [w|] eqn:E; [|done]. injection Hs as <-.
    unfold enqueue_if_loading in E. case_bool_decide as Hl; [|done]. injection E as <-.
    intros fp' [g Hg]. simpl in Hg. apply lookup_insert_Some in Hg as [[-> _]|[_ Hg]]; [by left|].
    by apply H.
  - injection Hs as <-. eapply keeps_parked; [apply keeps_pinned|done].
  - destruct (s_notify s) as [|n notify] eqn:En; [done|].
    destruct n as [fp g m|fp]; simpl in Hs.
    + unfold waiting_drain_ready, drain in Hs. simpl in Hs.
      assert (Hw : exists served, s' = with_waiting (delete fp (s_waiting s)) served (with_notify (s_sending s) notify s)).
      { destruct (s_waiting s !! fp); [destruct (drain_groups m g0)|]; simpl in Hs; try done;
          injection Hs as <-; by eexists. }
      destruct Hw as [served ->]. by apply (drain_parked s (NotifyReady fp g m)).
    + injection Hs as <-. unfold waiting_drain_failed, drain. simpl.
      destruct (s_waiting s !! fp); by apply (drain_parked s (NotifyFailed fp)).
  - injection Hs as <-. intros fp. simpl. rewrite lookup_omap. intros [g Hg].
    destruct (s_waiting s !! fp) eqn:E; [|done]. by apply H.
  - destruct (s_sending s) as [|n sending] eqn:E; [done|]. injection Hs as <-.
    eapply keeps_parked; [|exact H]. constructor; [done| |by left]. unfold notified. simpl. rewrite E.
    intros fp (m & Hm & Em). exists m. split; [|done]. by rewrite <- app_assoc.
  - destruct (s_commands s); [done|]. destruct (writer_idle s); [|done]. injection Hs as <-.
    eapply keeps_parked; [apply keeps_command|]. eapply keeps_parked; [|done]. by apply keeps_same.
  - destruct (writer_idle s); [|done]. unfold merge_step in Hs.
    destruct (remove_one _ _); [|done]. injection Hs as <-.
    eapply keeps_parked with (s := with_work (s_populations s) l s); [|eapply keeps_parked; [|done]; by apply keeps_same].
    destruct (negb _); [done|]. destruct applied; [apply keeps_ready_mark|apply keeps_cleanup].
  - destruct (writer_idle s); [|done]. injection Hs as <-. eapply keeps_parked; [apply keeps_cdc|done].
  - destruct (writer_idle s); [|done]. injection Hs as <-. eapply keeps_parked; [|done].
    unfold eviction_candidate. destruct (c_cached _ !! fp); [|done].
    destruct (eviction_candidate_action _ _ _ _); try by apply keeps_same. apply keeps_evict.
  - destruct (s_bump s); [|done]. injection Hs as <-. eapply keeps_parked; [apply keeps_bump_finish|done].
  - destruct (writer_idle s); [|done]. injection Hs as <-. eapply keeps_parked; [apply keeps_stale|done].
  - destruct (writer_idle s); [|done]. injection Hs as <-. eapply keeps_parked; [|done]. by apply keeps_same.
  - unfold population_done in Hs. destruct (remove_one _ _); [|done]. injection Hs as <-.
    eapply keeps_parked; [|done]. by apply keeps_same.
Qed.

(** ** Generations and ready entries *)

(** The invariant of the writer's cache and the shared view. *)
Record cache_ok (c : Cache) (view : StateView) : Prop := {
  co_counter : (0 <= c_counter c)%Z;
  co_gen : forall fp q, c_cached c !! fp = Some q -> (1 <= cq_generation q <= c_counter c)%Z;
  co_live : forall fp q, c_cached c !! fp = Some q -> cq_invalidated q = false ->
    cq_generation q ∈ c_generations c;
  co_gens : forall g, g ∈ c_generations c -> (1 <= g <= c_counter c)%Z;
  co_uniq : forall fp fp' q q', c_cached c !! fp = Some q -> c_cached c !! fp' = Some q' ->
    cq_generation q = cq_generation q' -> fp = fp';
  co_ready : forall fp v, view !! fp = Some v -> v_state v = Ready ->
    (exists q, c_cached c !! fp = Some q /\ cq_invalidated q = false) /\
    v_generation v ∈ c_generations c /\ is_Some (v_resolved v) /\
    forall fp' q', c_cached c !! fp' = Some q' -> cq_generation q' = v_generation v -> fp' = fp;
}.

Lemma generations_first_spec gs g :
  g ∈ gs -> exists m, generations_first gs = Some m /\ m ∈ gs /\ (m <= g)%Z.
Proof.
  intros Hg. unfold generations_first. rewrite <- elem_of_elements in Hg.
  assert (Hsub : forall x, x ∈ elements gs -> x ∈ gs) by (intros x; by rewrite elem_of_elements).
  destruct (elements gs) as [|x l]; [by apply elem_of_nil in Hg|]. eexists. split; [done|].
  assert (Hm : foldr Z.min x l ∈ x :: l /\ forall y, y ∈ x :: l -> (foldr Z.min x l <= y)%Z).
  { clear. induction l as [|z l [IH1 IH2]]; simpl.
    - split; [apply list_elem_of_here|]. intros y [->|H]%elem_of_cons; [lia|by apply elem_of_nil in H].
    - split.
      + destruct (Z.min_spec z (foldr Z.min x l)) as [[_ ->]|[_ ->]]; [set_solver|].
        apply elem_of_cons in IH1 as [->|]; [set_solver|set_solver].
      + intros y Hy. assert (y = z \/ y ∈ x :: l) as [->|Hy'] by set_solver; [lia|].
        specialize (IH2 y Hy'). lia. }
  split; [by apply Hsub, Hm|by apply Hm].
Qed.

(** A generation in use is above the purge threshold. *)
Lemma purge_threshold_below c view g :
  cache_ok c view -> g ∈ c_generations c -> (generation_purge_threshold c < g)%Z.
Proof.
  intros H Hg. unfold generation_purge_threshold, generation_previous, i64_min.
  destruct (generations_first_spec _ _ Hg) as (m & -> & Hm & Hle). pose proof (co_gens _ _ H m Hm). lia.
Qed.

Lemma insert_overwrite_lookup fp q m fp' :
  (forall k x, m !! k = Some x -> cq_generation x <> cq_generation q) ->
  insert_overwrite fp q m !! fp' = if decide (fp = fp') then Some q else m !! fp'.
Proof.
  intros H. unfold insert_overwrite. destruct (decide (fp = fp')) as [->|Hne]; [by rewrite lookup_insert_eq|].
  rewrite lookup_insert_ne by done. rewrite map_lookup_filter.
  destruct (m !! fp') as [x|] eqn:E; [|done]. simpl. rewrite option_guard_True; [done|]. by apply (H fp').
Qed.

(** The query of [fp] gets a fresh generation; its view is not ready, or ready at the fresh
    generation, or as it was. *)
Lemma rekey_ok c view c' view' fp q :
  cache_ok c view -> (c_counter c < i64_max)%Z ->
  cq_generation q = generation_next (c_counter c) -> c_counter c' = generation_next (c_counter c) ->
  (forall fp', c_cached c' !! fp' = if decide (fp = fp') then Some q else c_cached c !! fp') ->
  cq_generation q ∈ c_generations c' ->
  (forall g, g ∈ c_generations c' -> g = cq_generation q \/ g ∈ c_generations c) ->
  (forall g, g ∈ c_generations c ->
     g ∈ c_generations c' \/ exists q0, c_cached c !! fp = Some q0 /\ cq_generation q0 = g) ->
  (forall fp', fp' <> fp -> view' !! fp' = view !! fp') ->
  (forall v, view' !! fp = Some v -> v_state v = Ready -> cq_invalidated q = false /\
     is_Some (v_resolved v) /\ (v_generation v = cq_generation q \/
       (v_generation v ∈ c_generations c' /\
        exists v0, view !! fp = Some v0 /\ v_state v0 = Ready /\ v_generation v0 = v_generation v))) ->
  cache_ok c' view'.
Proof.
  intros H Hmax Hq Hc Hm Hg1 Hg2 Hg3 Hv Hfp. pose proof (co_counter _ _ H) as H0.
  assert (En : generation_next (c_counter c) = (c_counter c + 1)%Z) by (unfold generation_next; lia).
  assert (Hold : forall fp' q', c_cached c !! fp' = Some q' -> (cq_generation q' <= c_counter c)%Z).
  { intros fp' q' E. apply (co_gen _ _ H) in E. lia. }
  assert (Hkeep : forall fp' q', fp' <> fp -> c_cached c !! fp' = Some q' ->
    cq_generation q' ∈ c_generations c -> cq_generation q' ∈ c_generations c').
  { intros fp' q' Hne E Hin. destruct (Hg3 _ Hin) as [|(q0 & E0 & Eg)]; [done|].
    destruct Hne. symmetry. by apply (co_uniq _ _ H fp fp' q0 q'). }
  split.
  - lia.
  - intros fp' q'. rewrite Hm. case_decide; [intros [= <-]; lia|].
    intros E. apply (co_gen _ _ H) in E. lia.
  - intros fp' q'. rewrite Hm. case_decide; [by intros [= <-]|]. intros E Hi.
    apply (Hkeep fp'); [congruence|done|]. by apply (co_live _ _ H fp').
  - intros g [->|E]%Hg2; [lia|]. apply (co_gens _ _ H) in E. lia.
  - intros fp1 fp2 q1 q2. rewrite !Hm. case_decide; case_decide; subst; try done.
    + intros [= <-] E%Hold ?. lia.
    + intros E%Hold [= <-] ?. lia.
    + by apply (co_uniq _ _ H).
  - intros fp' v Ev Er. destruct (decide (fp' = fp)) as [->|Hne].
    + destruct (Hfp v Ev Er) as (Hi & Hr & Hgen). split; [|split; [|split; [done|]]].
      * exists q. rewrite Hm, decide_True by done. done.
      * destruct Hgen as [->|[? _]]; done.
      * intros fp1 q1. rewrite Hm. case_decide; [by subst|]. intros E Eg.
        destruct Hgen as [E'|(_ & v0 & Ev0 & Er0 & E')]; [apply Hold in E; lia|].
        destruct (co_ready _ _ H fp v0 Ev0 Er0) as (_ & _ & _ & Hu). apply (Hu _ _ E). congruence.
    + rewrite Hv in Ev by done. destruct (co_ready _ _ H fp' v Ev Er) as ((q' & Eq & Hi) & Hin & Hr & Hu).
      split; [|split; [|split; [done|]]].
      * exists q'. rewrite Hm, decide_False by congruence. done.
      * destruct (Hg3 _ Hin) as [|(q0 & E0 & Eg)]; [done|]. destruct Hne. symmetry. by apply (Hu fp q0).
      * intros fp1 q1. rewrite Hm. case_decide; [|by apply Hu]. intros [= <-] Eg.
        apply (co_gens _ _ H) in Hin. lia.
Qed.

(** The query of [fp] goes, with its generation and its view. *)
Lemma drop_ok c view c' fp :
  cache_ok c view -> c_counter c' = c_counter c -> c_cached c' = delete fp (c_cached c) ->
  (forall g, g ∈ c_generations c' <->
     g ∈ c_generations c /\ forall q, c_cached c !! fp = Some q -> g <> cq_generation q) ->
  cache_ok c' (delete fp view).
Proof.
  intros H Hc Hm Hg. split.
  - rewrite Hc. apply H.
  - intros fp' q. rewrite Hm, Hc. intros [_ E]%lookup_delete_Some. by apply (co_gen _ _ H fp').
  - intros fp' q. rewrite Hm. intros [Hne E]%lookup_delete_Some Hi. apply Hg. split; [by apply (co_live _ _ H fp')|].
    intros q0 E0 Eg. apply Hne. by apply (co_uniq _ _ H fp fp' q0 q).
  - intros g [E _]%Hg. rewrite Hc. by apply (co_gens _ _ H).
  - intros fp1 fp2 q1 q2. rewrite Hm. intros [_ E1]%lookup_delete_Some [_ E2]%lookup_delete_Some.
    by apply (co_uniq _ _ H).
  - intros fp' v [Hne Ev]%lookup_delete_Some Er.
    destruct (co_ready _ _ H fp' v Ev Er) as ((q' & Eq & Hi) & Hin & Hr & Hu).
    split; [|split; [|split; [done|]]].
    + exists q'. rewrite Hm, lookup_delete_ne by done. done.
    + apply Hg. split; [done|]. intros q0 E0 Eg. apply Hne. by apply (Hu fp q0).
    + intros fp1 q1. rewrite Hm. intros [_ E]%lookup_delete_Some. by apply Hu.
Qed.

(** Only views that were ready with the same generation are ready. *)
Lemma view_ok c view view' :
  cache_ok c view ->
  (forall fp v, view' !! fp = Some v -> v_state v = Ready -> view !! fp = Some v) -> cache_ok c view'.
Proof.
  intros H Hv. split; try apply H. intros fp v Ev Er. by apply (co_ready _ _ H fp v); [apply Hv|].
Qed.

(** Entries keep their generations and nothing is dropped from the live ones. *)
Lemma cached_ok c view m tracked :
  cache_ok c view ->
  (forall fp q, m !! fp = Some q -> exists q0, c_cached c !! fp = Some q0 /\
     cq_generation q = cq_generation q0 /\ cq_invalidated q = cq_invalidated q0) ->
  (forall fp q0, c_cached c !! fp = Some q0 -> cq_invalidated q0 = false ->
     exists q, m !! fp = Some q /\ cq_invalidated q = false) ->
  cache_ok {| c_cached := m; c_counter := c_counter c; c_generations := c_generations c;
              c_tracked := tracked |} view.
Proof.
  intros H H1 H2. split; simpl; try apply H.
  - intros fp q (q0 & E & -> & _)%H1. by apply (co_gen _ _ H fp).
  - intros fp q (q0 & E & -> & ->)%H1. by apply (co_live _ _ H fp).
  - intros fp1 fp2 q1 q2 (? & E1 & -> & _)%H1 (? & E2 & -> & _)%H1. by apply (co_uniq _ _ H).
  - intros fp v Ev Er. destruct (co_ready _ _ H fp v Ev Er) as ((q' & Eq & Hi) & Hin & Hr & Hu).
    split; [by apply (H2 _ q')|]. split; [done|]. split; [done|].
    intros fp1 q1 (? & E1 & -> & _)%H1. by apply Hu.
Qed.

Lemma ready_write_ok c view fp q :
  cache_ok c view -> c_cached c !! fp = Some q -> cq_invalidated q = false ->
  cache_ok c (<[fp := {| v_state := Ready; v_generation := cq_generation q;
                        v_resolved := Some (cq_resolved q); v_max_limit := cq_max_limit q;
                        v_referenced := false |}]> view).
Proof.
  intros H Eq Hi. split; try apply H. intros fp' v Ev Er.
  apply lookup_insert_Some in Ev as [[<- <-]|[Hne Ev]]; [|by apply (co_ready _ _ H)].
  simpl. split; [by exists q|]. split; [by apply (co_live _ _ H fp)|]. split; [by eexists|].
  intros fp1 q1 E1 Eg. by apply (co_uniq _ _ H fp1 fp q1 q).
Qed.

Lemma invalidate_ok c view fp q :
  cache_ok c view -> c_cached c !! fp = Some q ->
  cache_ok (with_cached (alter invalidated_set fp (c_cached c))
              (with_generations (c_generations c ∖ {[ cq_generation q ]}) c))
           (alter view_invalidate fp view).
Proof.
  intros H Eq. assert (Hm : forall fp' x, alter invalidated_set fp (c_cached c) !! fp' = Some x ->
    exists x0, c_cached c !! fp' = Some x0 /\ cq_generation x = cq_generation x0 /\
      (fp' <> fp -> x = x0) /\ (fp' = fp -> cq_invalidated x = true)).
  { intros fp' x. rewrite lookup_alter. destruct (decide (fp = fp')) as [->|].
    - destruct (c_cached c !! fp') as [x0|]; [|done]. intros [= <-]. by exists x0.
    - intros E. exists x. split_and!; done. }
  split; simpl; [apply H| | | | |].
  - intros fp' x (x0 & E & -> & _)%Hm. by apply (co_gen _ _ H fp').
  - intros fp' x (x0 & E & Eg & Hne & He)%Hm Hi. destruct (decide (fp' = fp)) as [->|Hd].
    { rewrite He in Hi; done. }
    rewrite (Hne Hd) in *. apply elem_of_difference. split; [by apply (co_live _ _ H fp')|].
    rewrite elem_of_singleton. intros Ex. apply Hd. by apply (co_uniq _ _ H fp' fp x0 q).
  - intros g [E _]%elem_of_difference. by apply (co_gens _ _ H).
  - intros fp1 fp2 q1 q2 (? & E1 & -> & _)%Hm (? & E2 & -> & _)%Hm. by apply (co_uniq _ _ H).
  - intros fp' v Ev Er. rewrite lookup_alter in Ev. destruct (decide (fp = fp')) as [->|Hd].
    { destruct (view !! fp'); [|done]. by injection Ev as <-. }
    destruct (co_ready _ _ H fp' v Ev Er) as ((q' & Eq' & Hi) & Hin & Hr & Hu).
    split; [|split; [|split; [done|]]].
    + exists q'. by rewrite lookup_alter_ne.
    + apply elem_of_difference. split; [done|]. rewrite elem_of_singleton. intros Ex. apply Hd.
      by apply (Hu fp q).
    + intros fp1 q1 (? & E1 & -> & _)%Hm. by apply Hu.
Qed.

(** ** The operations preserve it *)

(** Up to the last generation an operation preserves the invariant. *)
Record preserves (s s' : Sys) : Prop := {
  ps_counter : (c_counter (s_cache s') < i64_max)%Z -> (c_counter (s_cache s) < i64_max)%Z;
  ps_ok : (c_counter (s_cache s') < i64_max)%Z -> cache_ok (s_cache s) (s_view s) ->
    cache_ok (s_cache s') (s_view s');
}.

#[export] Instance preserves_preorder : PreOrder preserves.
Proof.
  split; [by constructor|]. intros s1 s2 s3 [A1 A2] [B1 B2]. constructor; [by auto|]. intros Hm H.
  apply B2; [done|]. apply A2; [by apply B1|done].
Qed.

Lemma preserves_same s s' : s_cache s' = s_cache s -> s_view s' = s_view s -> preserves s s'.
Proof. intros E1 E2. constructor; by rewrite E1, ?E2. Qed.

Lemma generation_next_max g : (generation_next g < i64_max)%Z -> (g < i64_max)%Z.
Proof. unfold generation_next. lia. Qed.

Lemma fresh_generation c view fp q :
  cache_ok c view -> (c_counter c < i64_max)%Z -> c_cached c !! fp = Some q ->
  cq_generation q <> generation_next (c_counter c).
Proof. intros H Hm E. apply (co_gen _ _ H) in E. unfold generation_next. lia. Qed.

(** Inserting a query under a fresh generation, after removing its old entry or not. *)
Lemma overwrite_fresh c view fp q m fp' :
  cache_ok c view -> (c_counter c < i64_max)%Z -> cq_generation q = generation_next (c_counter c) ->
  m = c_cached c \/ m = delete fp (c_cached c) ->
  insert_overwrite fp q m !! fp' = if decide (fp = fp') then Some q else c_cached c !! fp'.
Proof.
  intros H Hmax Hq Hm. rewrite insert_overwrite_lookup.
  - case_decide; [done|]. destruct Hm as [->| ->]; [done|]. by rewrite lookup_delete_ne.
  - intros k x E. rewrite Hq. apply (fresh_generation c view k); try done.
    destruct Hm as [->| ->]; [done|]. by apply lookup_delete_Some in E as [_ E].
Qed.

Lemma preserves_insert fp pinned r m s : preserves s (cached_query_insert fp pinned r m s).2.
Proof.
  constructor; simpl; [apply generation_next_max|]. intros Hmax%generation_next_max H.
  apply (rekey_ok (s_cache s) (s_view s) _ _ fp
    {| cq_generation := generation_next (c_counter (s_cache s)); cq_resolved := r; cq_max_limit := m;
       cq_registering := true; cq_invalidated := false; cq_pinned := pinned |}); try done; simpl.
  - intros fp'. apply (overwrite_fresh _ (s_view s)); auto.
  - set_solver.
  - set_solver.
  - set_solver.
  - intros v Ev Er. destruct (co_ready _ _ H fp v Ev Er) as (_ & Hin & Hr & _).
    split; [done|]. split; [done|]. right. split; [set_solver|]. by exists v.
Qed.

(** A generation allocated and not used. *)
Lemma leak_ok c view :
  cache_ok c view -> (c_counter c < i64_max)%Z -> cache_ok (generation_allocate c).2 view.
Proof.
  intros H Hmax. assert (En : generation_next (c_counter c) = (c_counter c + 1)%Z)
    by (unfold generation_next; lia).
  pose proof (co_counter _ _ H). split; simpl; try apply H.
  - lia.
  - intros fp' q' E. apply (co_gen _ _ H) in E. lia.
  - intros fp' q' E Hi. apply (co_live _ _ H) in E; [|done]. set_solver.
  - intros g [->%elem_of_singleton|E]%elem_of_union; [lia|]. apply (co_gens _ _ H) in E. lia.
  - intros fp' v Ev Er. destruct (co_ready _ _ H fp' v Ev Er) as (? & Hin & ? & ?).
    split_and!; try done. set_solver.
Qed.

Lemma preserves_readmit fp s : preserves s (query_readmit fp s).
Proof.
  unfold query_readmit. destruct (generation_allocate (s_cache s)) as [g c] eqn:Ea.
  injection Ea as <- <-. simpl. destruct (c_cached (s_cache s) !! fp) as [q|] eqn:Eq.
  - constructor; simpl; [apply generation_next_max|]. intros Hmax%generation_next_max H.
    match goal with |- context [insert_overwrite fp ?x _] =>
      apply (rekey_ok (s_cache s) (s_view s) _ _ fp x); try done; simpl end.
    + intros fp'. apply (overwrite_fresh _ (s_view s)); auto.
    + set_solver.
    + set_solver.
    + set_solver.
    + intros fp' Hne. by rewrite lookup_insert_ne.
    + intros v. rewrite lookup_insert_eq. by intros [= <-].
  - constructor; simpl; [apply generation_next_max|]. intros Hmax%generation_next_max H.
    by apply (leak_ok (s_cache s)).
Qed.

Lemma preserves_limit_bump fp m s : preserves s (limit_bump_handle fp m s).
Proof.
  unfold limit_bump_handle. destruct (c_cached (s_cache s) !! fp) as [q|] eqn:Eq; [|done].
  destruct (generation_allocate (s_cache s)) as [g c] eqn:Ea. injection Ea as <- <-.
  constructor; simpl; [apply generation_next_max|]. intros Hmax%generation_next_max H.
  pose proof (fresh_generation _ _ _ _ H Hmax Eq) as Hf.
  match goal with |- context [insert_overwrite fp ?x _] =>
    apply (rekey_ok (s_cache s) (s_view s) _ _ fp x); try done; simpl end.
  - intros fp'. apply (overwrite_fresh _ (s_view s)); auto.
  - set_solver.
  - set_solver.
  - intros g Hg. destruct (decide (g = cq_generation q)) as [->|]; [right; by exists q|set_solver].
  - intros fp' Hne. by rewrite lookup_insert_ne.
  - intros v. rewrite lookup_insert_eq. by intros [= <-].
Qed.

Lemma preserves_bump_finish fp stamped s :
  (forall q, c_cached (s_cache s) !! fp = Some q -> cq_invalidated q = false) ->
  preserves s (generation_bump_finish fp stamped s).
Proof.
  intros Hlive. unfold generation_bump_finish. simpl.
  destruct (c_cached (s_cache s) !! fp) as [q|] eqn:Eq; [|by apply preserves_same].
  destruct stamped; simpl; constructor; simpl; try apply generation_next_max;
    intros Hmax%generation_next_max H; pose proof (fresh_generation _ _ _ _ H Hmax Eq) as Hf.
  - match goal with |- context [insert_overwrite fp ?x _] =>
      apply (rekey_ok (s_cache s) (s_view s) _ _ fp x); try done; simpl end.
    + intros fp'. apply (overwrite_fresh _ (s_view s)); auto.
    + set_solver.
    + set_solver.
    + intros g Hg. destruct (decide (g = cq_generation q)) as [->|]; [right; by exists q|set_solver].
    + intros fp' Hne. by rewrite lookup_alter_ne.
    + intros v. rewrite lookup_alter_eq. destruct (s_view s !! fp) as [v0|] eqn:Ev; [|done].
      intros [= <-] Er. simpl in *. split; [by apply Hlive|]. split; [|by left].
      by apply (co_ready _ _ H fp v0).
  - by apply (leak_ok (s_cache s)).
Qed.

Lemma preserves_cleanup fp s : preserves s (query_failed_cleanup fp s).
Proof.
  unfold query_failed_cleanup. destruct (c_cached (s_cache s) !! fp) as [q|] eqn:Eq;
    (constructor; [done|]); intros _ H; simpl; apply (drop_ok (s_cache s)); try done; simpl.
  - intros g. rewrite elem_of_difference, elem_of_singleton, Eq. naive_solver.
  - symmetry. by apply delete_id.
  - intros g. rewrite Eq. naive_solver.
Qed.

Lemma preserves_evict fp s : preserves s (cache_query_evict fp s).
Proof.
  unfold cache_query_evict. destruct (c_cached (s_cache s) !! fp) as [q|] eqn:Eq; [|done].
  constructor; [done|]. intros _ H. simpl. apply (drop_ok (s_cache s)); try done; simpl.
  intros g. rewrite elem_of_difference, elem_of_singleton, Eq. naive_solver.
Qed.

Lemma preserves_cdc policy fp s : preserves s (cache_query_cdc_invalidate policy fp s).
Proof.
  unfold cache_query_cdc_invalidate. destruct (c_cached (s_cache s) !! fp) as [q|] eqn:Eq; [|done].
  destruct (cq_pinned q); [by apply preserves_same|]. case_bool_decide; [apply preserves_evict|].
  destruct (cq_invalidated q); [done|]. constructor; [done|]. intros _ Hok. exact (invalidate_ok _ _ _ _ Hok Eq).
Qed.

Lemma preserves_tracked t s : preserves s (with_cache (with_tracked t (s_cache s)) s).
Proof.
  constructor; [done|]. intros _ H. apply (cached_ok (s_cache s)); [done| |]; intros fp q E.
  - by exists q.
  - by exists q.
Qed.

(** Clearing the registration mark of one entry. *)
Lemma preserves_registering fp s :
  preserves s (with_cache (with_cached (alter registering_clear fp (c_cached (s_cache s))) (s_cache s)) s).
Proof.
  constructor; [done|]. intros _ H. apply (cached_ok (s_cache s)); [done| |]; intros fp' q E.
  - rewrite lookup_alter in E. destruct (decide (fp = fp')) as [->|]; [|by exists q].
    destruct (c_cached (s_cache s) !! fp') as [q0|]; [|done]. injection E as <-. by exists q0.
  - intros Hi. rewrite lookup_alter. destruct (decide (fp = fp')) as [->|]; [|by exists q].
    rewrite E. by eexists.
Qed.

Lemma cached_query_insert_lookup fp pinned r m s :
  c_cached (s_cache (cached_query_insert fp pinned r m s).2) !! fp =
  Some {| cq_generation := generation_next (c_counter (s_cache s)); cq_resolved := r; cq_max_limit := m;
          cq_registering := true; cq_invalidated := false; cq_pinned := pinned |}.
Proof. simpl. unfold insert_overwrite. by rewrite lookup_insert_eq. Qed.

Lemma preserves_register fp action pinned input s :
  preserves s (query_register fp action pinned input s).1.
Proof.
  unfold query_register. case_bool_decide as Hi; [apply preserves_readmit|].
  destruct (ri_resolution input) as [[r m]|]; [|done]. cbv zeta.
  etrans; [apply (preserves_tracked ({[ fp ]} ∪ c_tracked (s_cache s)))|].
  change (with_tracked _ (s_cache s)) with (tracked_add fp (s_cache s)).
  generalize (with_cache (tracked_add fp (s_cache s)) s). clear Hi s. intros s.
  pose proof (preserves_insert fp pinned r m s) as H.
  pose proof (cached_query_insert_lookup fp pinned r m s) as Hl.
  unfold query_subsume, query_admit.
  assert (Hg : (cached_query_insert fp pinned r m s).1 = generation_next (c_counter (s_cache s))) by done.
  destruct (cached_query_insert fp pinned r m s) as [g s1]. simpl in H, Hl, Hg.
  destruct (ri_subsumed input).
  - etrans; [exact H|]. destruct (ri_subsume input); simpl; [done| |].
    + unfold subsumption_fallback_populate. rewrite Hl. by apply preserves_same.
    + etrans; [|apply (preserves_registering fp (state_ready_transition fp {| sv_generation := g;
        sv_resolved := r; sv_max_limit := m |} s1))].
      constructor; [done|]. intros _ Hok. simpl. rewrite Hg.
      by apply (ready_write_ok (s_cache s1) (s_view s1) fp _ Hok Hl).
  - case_bool_decide as Ha; [apply preserves_tracked|].
    destruct (negb _); simpl; [done|]. etrans; [exact H|by apply preserves_same].
Qed.

Lemma preserves_command cmd input s : preserves s (query_command_handle cmd input s).
Proof.
  destruct cmd; simpl.
  - unfold register_command. pose proof (preserves_register fingerprint action pinned input s) as H.
    destruct (query_register _ _ _ _ _) as [s' []]; [done|]. etrans; [exact H|apply preserves_cleanup].
  - by apply preserves_same.
  - apply preserves_cleanup.
  - apply preserves_limit_bump.
  - apply preserves_readmit.
Qed.

Lemma preserves_ready_mark fp q s :
  c_cached (s_cache s) !! fp = Some q -> cq_invalidated q = false ->
  preserves s (query_ready_mark fp s).
Proof.
  intros Eq Hi. unfold query_ready_mark. rewrite Eq.
  set (s1 := with_cache (with_cached (<[fp:=registering_clear q]> (c_cached (s_cache s))) (s_cache s)) s).
  trans s1.
  - replace s1 with (with_cache (with_cached (alter registering_clear fp (c_cached (s_cache s))) (s_cache s)) s);
      [apply preserves_registering|].
    subst s1. do 2 f_equal. apply map_eq. intros i. rewrite lookup_alter.
    destruct (decide (fp = i)) as [->|]; [by rewrite Eq, lookup_insert_eq|by rewrite lookup_insert_ne].
  - constructor; [done|]. intros _ Hok.
    apply (ready_write_ok (s_cache s1) (s_view s1) fp (registering_clear q)); [done| |done].
    simpl. by rewrite lookup_insert_eq.
Qed.

Lemma preserves_stale d s : preserves s (stale_entries_cleanup d s).
Proof.
  unfold stale_entries_cleanup. set (t := generation_purge_threshold (s_cache s)). cbv zeta.
  constructor; [done|]. intros _ H. simpl. apply (view_ok _ (s_view s)).
  - apply (cached_ok (s_cache s)); [done| |]; intros fp q.
    + intros [E _]%map_lookup_filter_Some. by exists q.
    + intros E Hi. exists q. split; [|done]. apply map_lookup_filter_Some. split; [done|].
      unfold entry_stale. simpl. by rewrite Hi.
  - intros fp v Ev Er. rewrite lookup_omap in Ev. destruct (s_view s !! fp) as [v0|]; [|done]. simpl in Ev.
    unfold view_retain in Ev. destruct (v_state v0) eqn:Es; try congruence.
    + destruct (0 <? _)%Z; [|done]. by injection Ev as <-.
    + destruct (t <=? _)%Z; [|done]. injection Ev as <-. congruence.
Qed.


Lemma serve_decide_new entry input budget t :
  decision_transition (serve_decide entry input budget) = Some t ->
  tr_new t = Loading \/ exists hits credit, tr_new t = Pending hits credit.
Proof.
  unfold serve_decide. intros H. repeat (case_match; simplify_eq/=; eauto).
Qed.

(** A guarded dispatch write never makes an entry ready. *)
Lemma transition_apply_ready view fp snapshot input budget fp' v :
  (transition_apply view fp (serve_decide snapshot input budget) input).1 !! fp' = Some v ->
  v_state v = Ready -> view !! fp' = Some v.
Proof.
  unfold transition_apply. destruct (decision_transition _) as [t|] eqn:Et; [|done].
  apply serve_decide_new in Et.
  destruct (tr_expected t); destruct (view !! fp) as [e|] eqn:E; try done.
  - destruct (negb _); [done|]. destruct (decision_transition (serve_decide (Some _) _ _)) as [t'|] eqn:Et'; [|done].
    simpl. apply serve_decide_new in Et'. intros [[-> <-]|[_ ?]]%lookup_insert_Some Er; [|done].
    simpl in Er. destruct Et' as [Et'|(? & ? & Et')]; congruence.
  - simpl. intros [[-> <-]|[_ ?]]%lookup_insert_Some Er; [|done].
    simpl in Er. destruct Et as [Et|(? & ? & Et)]; congruence.
Qed.

Lemma preserves_claim fp snapshot input budget s : preserves s (claim_step fp snapshot input budget s).
Proof.
  unfold claim_step. pose proof (transition_apply_ready (s_view s) fp snapshot input budget) as Hr.
  destruct (transition_apply _ _ _ _) as [view [d|]]; [|done]. simpl in Hr.
  constructor; [done|]. intros _ H. apply (view_ok _ (s_view s)); [done|]. intros fp' v. apply Hr.
Qed.

Lemma preserves_pinned fp s : preserves s (pinned_register fp s).
Proof.
  constructor; [done|]. intros _ H. apply (view_ok _ (s_view s)); [done|]. simpl.
  by intros fp' v [[_ <-]|[_ ?]]%lookup_insert_Some Er.
Qed.

Lemma preserves_promote s : preserves s (generation_zero_promote s).
Proof.
  constructor; simpl; [apply generation_next_max|]. intros Hmax%generation_next_max H.
  pose proof (co_counter _ _ H). unfold generation_next. split; simpl; try apply H; try lia.
  - intros fp q E. apply (co_gen _ _ H) in E. lia.
  - intros g E. apply (co_gens _ _ H) in E. lia.
Qed.

(** Only an eviction candidate starts a bump. *)
Lemma cdc_bump policy fp s : s_bump (cache_query_cdc_invalidate policy fp s) = s_bump s.
Proof. unfold cache_query_cdc_invalidate, cache_query_evict. repeat case_match; done. Qed.

Lemma command_bump cmd input s : s_bump (query_command_handle cmd input s) = s_bump s.
Proof.
  destruct cmd; simpl; unfold limit_bump_handle, query_readmit; try (repeat case_match; done).
  unfold register_command, query_register, query_readmit, query_subsume, query_admit,
    subsumption_fallback_populate, cached_query_insert. simpl.
  repeat case_match; simplify_eq/=; done.
Qed.

Record sys_ok (s : Sys) : Prop := {
  so_cache : cache_ok (s_cache s) (s_view s);
  so_bump : forall fp, s_bump s = Some fp ->
    exists q, c_cached (s_cache s) !! fp = Some q /\ cq_invalidated q = false;
}.

Lemma sys_ok_writer s s' :
  preserves s s' -> s_bump s = None -> s_bump s' = None ->
  (c_counter (s_cache s') < i64_max)%Z -> sys_ok s -> sys_ok s'.
Proof. intros [_ H] Hb Hb' Hm [H1 _]. split; [by apply H|]. by rewrite Hb'. Qed.

Lemma sys_ok_other s s' :
  preserves s s' -> s_bump s' = s_bump s -> c_cached (s_cache s') = c_cached (s_cache s) ->
  (c_counter (s_cache s') < i64_max)%Z -> sys_ok s -> sys_ok s'.
Proof. intros [_ H] Hb Hc Hm [H1 H2]. split; [by apply H|]. by rewrite Hb, Hc. Qed.

Lemma writer_idle_bump s : writer_idle s = true -> s_bump s = None.
Proof. unfold writer_idle. rewrite andb_true_iff, !bool_decide_eq_true. by intros [_ ?]. Qed.

Lemma population_is_current_live fp g s :
  population_is_current fp g s = true ->
  exists q, c_cached (s_cache s) !! fp = Some q /\ cq_invalidated q = false /\ cq_generation q = g.
Proof.
  unfold population_is_current. destruct (c_cached (s_cache s) !! fp) as [q|]; [|done]. simpl.
  rewrite andb_true_iff, Z.eqb_eq, negb_true_iff. intros [? ?]. by exists q.
Qed.

(** Dispatch, the drain task and the workers leave the writer's cache alone. *)
Lemma other_step l s s' :
  sys_step l s = Some s' ->
  match l with
  | LClaim _ _ _ _ | LClaimSend _ _ | LEnqueue _ _ | LPinned _ | LNotify | LExpire _ | LSend
  | LPopulated _ _ _ => s_bump s' = s_bump s /\ s_cache s' = s_cache s /\ preserves s s'
  | _ => True
  end.
Proof.
  intros Hs. destruct l; simpl in Hs; try done.
  - injection Hs as <-. split_and!; [| |apply preserves_claim]; unfold claim_step;
      by destruct (transition_apply _ _ _ _) as [? [?|]].
  - unfold claim_send in Hs. destruct (s_claims s !! i); [|done]. injection Hs as <-.
    split_and!; [done|done|by apply preserves_same].
  - destruct (enqueue_if_loading _ _ _ _ _); [|done]. injection Hs as <-.
    split_and!; [done|done|by apply preserves_same].
  - injection Hs as <-. split_and!; [done|done|apply preserves_pinned].
  - destruct (s_notify s) as [|[fp g m|fp] n]; [done| |]; simpl in Hs.
    + destruct (waiting_drain_ready _ _ _) as [[a w]|]; [|done]. injection Hs as <-.
      split_and!; [done|done|by apply preserves_same].
    + injection Hs as <-. split_and!; [done|done|by apply preserves_same].
  - injection Hs as <-. split_and!; [done|done|by apply preserves_same].
  - destruct (s_sending s); [done|]. injection Hs as <-. split_and!; [done|done|by apply preserves_same].
  - unfold population_done in Hs. destruct (remove_one _ _); [|done]. injection Hs as <-.
    split_and!; [done|done|by apply preserves_same].
Qed.

(** The writer's steps, [LBumpFinish] apart, start and end with the invariant; a candidate
    may leave its bump in progress. *)
Lemma writer_step l s s' :
  sys_step l s = Some s' ->
  match l with
  | LCommand _ | LMerge _ _ _ | LCdc _ _ | LCleanup _ | LPromote =>
      s_bump s = None /\ s_bump s' = None /\ preserves s s'
  | LEvict fp allowed => s_bump s = None /\ preserves s s' /\
      (s' = with_bump (Some fp) s /\ v_state <$> s_view s !! fp = Some Ready \/ s_bump s' = None)
  | _ => True
  end.
Proof.
  intros Hs. destruct l; try done; simpl in Hs.
  - destruct (s_commands s); [done|]. destruct (writer_idle s) eqn:Hi; [|done]. injection Hs as <-.
    apply writer_idle_bump in Hi. split_and!; [done|by rewrite command_bump|].
    etrans; [|apply preserves_command]. by apply preserves_same.
  - destruct (writer_idle s) eqn:Hi; [|done]. apply writer_idle_bump in Hi.
    unfold merge_step in Hs. destruct (remove_one _ _) as [ms|]; [|done]. injection Hs as <-.
    set (s1 := with_work (s_populations s) ms s).
    assert (H1 : preserves s s1) by by apply preserves_same.
    split; [done|]. destruct (population_is_current fp generation s1) eqn:Ec; simpl; [|done].
    destruct (population_is_current_live _ _ _ Ec) as (q & Eq & Hinv & _).
    destruct applied; [|split; [done|]; etrans; [exact H1|apply preserves_cleanup]].
    split; [unfold query_ready_mark; by rewrite Eq|].
    etrans; [exact H1|by apply (preserves_ready_mark fp q)].
  - destruct (writer_idle s) eqn:Hi; [|done]. apply writer_idle_bump in Hi. injection Hs as <-.
    split_and!; [done|by rewrite cdc_bump|apply preserves_cdc].
  - destruct (writer_idle s) eqn:Hi; [|done]. apply writer_idle_bump in Hi. injection Hs as <-.
    split; [done|]. unfold eviction_candidate. destruct (c_cached (s_cache s) !! fp) as [q|] eqn:Eq.
    2: { split; [done|by right]. }
    unfold eviction_candidate_action. destruct (cq_pinned q);
      repeat case_bool_decide; repeat (destruct (negb _));
      try (split; [by apply preserves_same|left; done]); try (split; [done|by right]);
      (split; [apply preserves_evict|right; unfold cache_query_evict; by rewrite Eq]).
  - destruct (writer_idle s) eqn:Hi; [|done]. apply writer_idle_bump in Hi. injection Hs as <-.
    split_and!; [done|done|apply preserves_stale].
  - destruct (writer_idle s) eqn:Hi; [|done]. apply writer_idle_bump in Hi. injection Hs as <-.
    split_and!; [done|done|apply preserves_promote].
Qed.

Lemma bump_finish_counter fp stamped s :
  (c_counter (s_cache (generation_bump_finish fp stamped s)) < i64_max)%Z ->
  (c_counter (s_cache s) < i64_max)%Z.
Proof.
  unfold generation_bump_finish. simpl. destruct (c_cached (s_cache s) !! fp); [|done].
  destruct stamped; simpl; apply generation_next_max.
Qed.

Lemma sys_step_counter l s s' :
  sys_step l s = Some s' -> (c_counter (s_cache s') < i64_max)%Z -> (c_counter (s_cache s) < i64_max)%Z.
Proof.
  intros Hs. pose proof (other_step _ _ _ Hs) as Ho. pose proof (writer_step _ _ _ Hs) as Hw.
  destruct l; try apply Ho; try apply Hw.
  simpl in Hs. destruct (s_bump s); [|done]. injection Hs as <-. apply bump_finish_counter.
Qed.

Lemma sys_step_ok l s s' :
  sys_step l s = Some s' -> (c_counter (s_cache s') < i64_max)%Z -> sys_ok s -> sys_ok s'.
Proof.
  intros Hs Hm H. pose proof (other_step _ _ _ Hs) as Ho. pose proof (writer_step _ _ _ Hs) as Hw.
  destruct l; try (destruct Ho as (Hb & Hc & Hp); apply (sys_ok_other s); try done; by rewrite Hc);
    try (destruct Hw as (Hb & Hb' & Hp); by apply (sys_ok_writer s)).
  - destruct Hw as (Hb & Hp & [[-> Hr]|Hb']); [|by apply (sys_ok_writer s)].
    destruct H as [H _]. split; [by apply Hp|]. simpl. intros fp' [= <-].
    destruct (s_view s !! fp) as [v|] eqn:Ev; [|done]. simpl in Hr. injection Hr as Hr.
    by apply (co_ready _ _ H fp v).
  - simpl in Hs. destruct (s_bump s) as [fp|] eqn:Eb; [|done]. injection Hs as <-.
    destruct H as [H Hb]. destruct (Hb fp Eb) as (q & Eq & Hi). split.
    + apply (preserves_bump_finish fp stamped s); [|done|done]. intros q' E. congruence.
    + unfold generation_bump_finish. simpl. rewrite Eq. by destruct stamped.
Qed.

Lemma sys_new_ok : sys_ok sys_new.
Proof. split; [|done]. split; simpl; set_solver. Qed.

Lemma sys_run_counter ls s s' :
  sys_run ls s = Some s' -> (c_counter (s_cache s') < i64_max)%Z -> (c_counter (s_cache s) < i64_max)%Z.
Proof.
  revert s. induction ls as [|l ls IH]; intros s; simpl; [by intros [= <-]|].
  destruct (sys_step l s) as [s1|] eqn:E; [|done]. simpl. intros Hr Hm.
  by apply (sys_step_counter l s s1 E), IH.
Qed.

Lemma sys_run_ok ls s s' :
  sys_run ls s = Some s' -> (c_counter (s_cache s') < i64_max)%Z -> sys_ok s -> sys_ok s'.
Proof.
  revert s. induction ls as [|l ls IH]; intros s; simpl; [by intros [= <-]|].
  destruct (sys_step l s) as [s1|] eqn:E; [|done]. simpl. intros Hr Hm Hs.
  apply (IH s1); [done|done|]. apply (sys_step_ok l s); [done| |done]. by apply (sys_run_counter ls s1 s').
Qed.

(** ** Loading entries *)

Definition is_admit (fp : Fingerprint) (c : QueryCommand) : Prop := exists pinned, c = CmdRegister fp ActAdmit pinned.
Definition is_limit_bump (fp : Fingerprint) (c : QueryCommand) : Prop := exists m, c = CmdLimitBump fp m.
Definition requested (s : Sys) (P : QueryCommand -> Prop) : Prop :=
  exists c, c ∈ s_claims s ++ s_commands s /\ P c.

(** A population or its outcome is on its way. *)
Definition inflight (s : Sys) (fp : Fingerprint) (g : Generation) : Prop :=
  (fp, g) ∈ s_populations s \/ (fp, g) ∈ s_merges s \/
  CmdMerge fp g ∈ s_commands s \/ CmdFailed fp g ∈ s_commands s.

Definition live (s : Sys) (fp : Fingerprint) (q : CachedQuery) : Prop :=
  c_cached (s_cache s) !! fp = Some q /\ cq_invalidated q = false.

(** What will take an entry out of the loading state.  [CauseHung] is the state a limit
    bump leaves when it finds its query invalidated: nothing will. *)
Inductive cause (s : Sys) (fp : Fingerprint) : Prop :=
| CauseAdmit : requested s (is_admit fp) -> cause s fp
| CauseBump q : requested s (is_limit_bump fp) -> live s fp q -> cause s fp
| CausePopulation q : live s fp q -> inflight s fp (cq_generation q) -> cause s fp
| CauseHung q : c_cached (s_cache s) !! fp = Some q -> cq_invalidated q = true ->
    cq_generation q ∈ c_generations (s_cache s) -> cause s fp.

Definition cause_requested (s : Sys) (fp : Fingerprint) : Prop :=
  requested s (is_admit fp) \/ requested s (is_limit_bump fp) /\ exists q, live s fp q.

Record loading_ok (s : Sys) : Prop := {
  lo_cause : forall fp, view_loading s fp -> cause s fp;
  lo_bump : forall fp, s_bump s = Some fp -> view_loading s fp -> cause_requested s fp;
}.

(** A step that leaves the cached query, its generation and its work alone. *)
Lemma cause_frame s s' fp :
  c_cached (s_cache s') !! fp = c_cached (s_cache s) !! fp ->
  (forall q, c_cached (s_cache s) !! fp = Some q ->
     cq_generation q ∈ c_generations (s_cache s) -> cq_generation q ∈ c_generations (s_cache s')) ->
  (requested s (is_admit fp) -> requested s' (is_admit fp)) ->
  (requested s (is_limit_bump fp) -> requested s' (is_limit_bump fp)) ->
  (forall q, live s fp q -> inflight s fp (cq_generation q) -> inflight s' fp (cq_generation q)) ->
  cause s fp -> cause s' fp.
Proof.
  intros Ec Eg Ha Hb Hi [H|q H [E1 E2]|q [E1 E2] H|q E1 E2 E3].
  - by apply CauseAdmit, Ha.
  - apply (CauseBump _ _ q); [by apply Hb|]. split; [by rewrite Ec|done].
  - apply (CausePopulation _ _ q); [split; [by rewrite Ec|done]|]. by apply Hi.
  - apply (CauseHung _ _ q); [by rewrite Ec|done|by apply Eg].
Qed.

Lemma remove_one_elem {A} `{EqDecision A} (x y : A) l l' :
  remove_one x l = Some l' -> y ∈ l -> y = x \/ y ∈ l'.
Proof.
  revert l'. induction l as [|z l IH]; intros l'; simpl; [done|].
  destruct (decide (z = x)) as [->|].
  - intros [= <-] [->|]%elem_of_cons; auto.
  - destruct (remove_one x l) as [k|]; [|done]. intros [= <-] [->|Hy]%elem_of_cons; [right; set_solver|].
    destruct (IH k eq_refl Hy); set_solver.
Qed.

Lemma requested_grow s s' P :
  (forall c, c ∈ s_claims s -> c ∈ s_claims s' ++ s_commands s') ->
  (forall c, c ∈ s_commands s -> P c -> c ∈ s_claims s' ++ s_commands s') ->
  requested s P -> requested s' P.
Proof. intros H1 H2 (c & [Hc|Hc]%elem_of_app & HP); exists c; auto. Qed.

(** An operation on [fp] as other fingerprints see it. *)
Record frames (fp : Fingerprint) (s s' : Sys) : Prop := {
  fr_cached : forall fp', fp' <> fp -> c_cached (s_cache s') !! fp' = c_cached (s_cache s) !! fp';
  fr_gens : forall g, g ∈ c_generations (s_cache s) -> g ∈ c_generations (s_cache s') \/
    exists q, c_cached (s_cache s) !! fp = Some q /\ cq_generation q = g;
  fr_view : forall fp', fp' <> fp -> s_view s' !! fp' = s_view s !! fp';
  fr_claims : s_claims s' = s_claims s;
  fr_commands : forall c, c ∈ s_commands s -> c ∈ s_commands s';
  fr_populations : forall x, x ∈ s_populations s -> x ∈ s_populations s';
  fr_merges : forall x, x ∈ s_merges s -> x.1 <> fp -> x ∈ s_merges s';
}.

Lemma frames_cause fp s s' fp' :
  frames fp s s' -> cache_ok (s_cache s) (s_view s) -> fp' <> fp -> cause s fp' -> cause s' fp'.
Proof.
  intros [F1 F2 F3 F4 F5 F6 F7] H Hne. apply cause_frame.
  - by apply F1.
  - intros q E Hg. destruct (F2 _ Hg) as [|(q0 & E0 & Eg)]; [done|]. destruct Hne. by apply (co_uniq _ _ H fp' fp q q0).
  - apply requested_grow; rewrite F4; set_solver.
  - apply requested_grow; rewrite F4; set_solver.
  - intros q _. unfold inflight. intros [?|[?|[?|?]]]; [left; auto|right; left; by apply F7|
      right; right; left; auto|right; right; right; auto].
Qed.

Lemma frames_loading fp s s' fp' : frames fp s s' -> fp' <> fp -> view_loading s' fp' -> view_loading s fp'.
Proof. intros F Hne. unfold view_loading. by rewrite (fr_view _ _ _ F). Qed.

(** An operation on [fp] that settles [fp] itself. *)
Lemma frames_loading_ok fp s s' :
  frames fp s s' -> cache_ok (s_cache s) (s_view s) ->
  (forall fp', fp' <> fp -> view_loading s fp' -> cause s fp') ->
  (view_loading s' fp -> cause s' fp) -> forall fp', view_loading s' fp' -> cause s' fp'.
Proof.
  intros F H Hl Hfp fp' Hv. destruct (decide (fp' = fp)) as [->|Hne]; [by apply Hfp|].
  apply (frames_cause fp s); try done. apply Hl; [done|]. by apply (frames_loading fp s s').
Qed.

#[export] Instance frames_refl fp : Reflexive (frames fp).
Proof. intros s. split; auto. Qed.


Lemma frames_trans fp s1 s2 s3 :
  frames fp s1 s2 -> frames fp s2 s3 ->
  (forall q, c_cached (s_cache s2) !! fp = Some q -> cq_generation q ∈ c_generations (s_cache s1) ->
     exists q1, c_cached (s_cache s1) !! fp = Some q1 /\ cq_generation q1 = cq_generation q) ->
  frames fp s1 s3.
Proof.
  intros [A1 A2 A3 A4 A5 A6 A7] [B1 B2 B3 B4 B5 B6 B7] Hq. split; auto; try congruence.
  - intros fp' Hne. rewrite B1, A1; done.
  - intros g Hg. destruct (A2 _ Hg) as [Hg2|]; [|by right]. destruct (B2 _ Hg2) as [|(q & E & <-)]; [by left|].
    right. by apply Hq.
  - intros fp' Hne. rewrite B3, A3; done.
Qed.

Lemma frames_cleanup fp s : frames fp s (query_failed_cleanup fp s).
Proof.
  unfold query_failed_cleanup. destruct (c_cached (s_cache s) !! fp) as [q|] eqn:Eq; split; simpl; auto;
    try (intros fp' Hne; by rewrite lookup_delete_ne).
  intros g Hg. destruct (decide (g = cq_generation q)) as [->|]; [right; by exists q|left; set_solver].
Qed.

Lemma frames_evict fp s : frames fp s (cache_query_evict fp s).
Proof.
  unfold cache_query_evict. destruct (c_cached (s_cache s) !! fp) as [q|] eqn:Eq; [|done].
  split; simpl; auto; try (intros fp' Hne; by rewrite lookup_delete_ne).
  intros g Hg. destruct (decide (g = cq_generation q)) as [->|]; [right; by exists q|left; set_solver].
Qed.

Section fresh.
Context (s : Sys) (Hok : cache_ok (s_cache s) (s_view s)) (Hmax : (c_counter (s_cache s) < i64_max)%Z).

Lemma frames_insert fp pinned r m : frames fp s (cached_query_insert fp pinned r m s).2.
Proof.
  split; simpl; auto; [|set_solver]. intros fp' Hne.
  rewrite (overwrite_fresh (s_cache s) (s_view s)); auto. by rewrite decide_False.
Qed.

Lemma frames_readmit fp : frames fp s (query_readmit fp s).
Proof.
  unfold query_readmit. simpl. destruct (c_cached (s_cache s) !! fp) as [q|] eqn:Eq; split; simpl; auto;
    try set_solver.
  - intros fp' Hne. rewrite (overwrite_fresh (s_cache s) (s_view s)); auto. by rewrite decide_False.
  - intros fp' Hne. by rewrite lookup_insert_ne.
Qed.

Lemma frames_limit_bump fp m : frames fp s (limit_bump_handle fp m s).
Proof.
  unfold limit_bump_handle. destruct (c_cached (s_cache s) !! fp) as [q|] eqn:Eq; [|done].
  split; simpl; auto; try set_solver.
  - intros fp' Hne. rewrite (overwrite_fresh (s_cache s) (s_view s)); auto. by rewrite decide_False.
  - intros g Hg. destruct (decide (g = cq_generation q)) as [->|]; [right; by exists q|left; set_solver].
  - intros fp' Hne. by rewrite lookup_insert_ne.
Qed.

Lemma frames_bump_finish fp stamped : frames fp s (generation_bump_finish fp stamped s).
Proof.
  unfold generation_bump_finish. simpl. destruct (c_cached (s_cache s) !! fp) as [q|] eqn:Eq; [|by split; auto].
  destruct stamped; split; simpl; auto; try set_solver.
  - intros fp' Hne. rewrite (overwrite_fresh (s_cache s) (s_view s)); auto. by rewrite decide_False.
  - intros g Hg. destruct (decide (g = cq_generation q)) as [->|]; [right; by exists q|left; set_solver].
  - intros fp' Hne. by rewrite lookup_alter_ne.
Qed.

(** The fresh generation of a registration was not in use. *)
Lemma insert_fresh fp pinned r m q :
  c_cached (s_cache (cached_query_insert fp pinned r m s).2) !! fp = Some q ->
  cq_generation q ∉ c_generations (s_cache s).
Proof.
  rewrite cached_query_insert_lookup. intros [= <-] Hin%(co_gens _ _ Hok). simpl in Hin.
  unfold generation_next in Hin. lia.
Qed.

Lemma readmit_live fp :
  (exists q, c_cached (s_cache s) !! fp = Some q) -> cause (query_readmit fp s) fp.
Proof.
  intros [q Eq]. unfold query_readmit. simpl. rewrite Eq.
  match goal with |- context [insert_overwrite fp ?x _] => apply (CausePopulation _ _ x) end.
  - split; [|done]. simpl. unfold insert_overwrite. by rewrite lookup_insert_eq.
  - left. simpl. set_solver.
Qed.

End fresh.

(** ** The commands settle their fingerprint *)


Lemma cleanup_not_loading fp s : ~ view_loading (query_failed_cleanup fp s) fp.
Proof. unfold view_loading. simpl. by rewrite lookup_delete_eq. Qed.

Lemma frames_tracked fp t s : frames fp s (with_cache (with_tracked t (s_cache s)) s).
Proof. split; simpl; auto. Qed.

Lemma frames_population_start fp g s : frames fp s (population_start fp g s).
Proof. split; simpl; auto. set_solver. Qed.

Lemma frames_stamped fp serving s :
  let s1 := state_ready_transition fp serving s in
  frames fp s (with_cache (with_cached (alter registering_clear fp (c_cached (s_cache s1))) (s_cache s1)) s1).
Proof.
  split; simpl; auto; intros fp' Hne; [by rewrite lookup_alter_ne|by rewrite lookup_insert_ne].
Qed.

(** A query inserted and then started, stamped or cleaned up. *)
Lemma inserted_settles fp pinned r m s s' :
  cache_ok (s_cache s) (s_view s) -> (c_counter (s_cache s) < i64_max)%Z ->
  let '(g, s1) := cached_query_insert fp pinned r m s in
  let stamped := state_ready_transition fp {| sv_generation := g; sv_resolved := r; sv_max_limit := m |} s1 in
  s' = population_start fp g s1 \/ s' = query_failed_cleanup fp s1 \/
  s' = with_cache (with_cached (alter registering_clear fp (c_cached (s_cache stamped))) (s_cache stamped)) stamped ->
  frames fp s s' /\ (view_loading s' fp -> cause s' fp).
Proof.
  intros Hok Hmax. pose proof (frames_insert s Hok Hmax fp pinned r m) as F.
  pose proof (insert_fresh s Hok Hmax fp pinned r m) as Hf.
  pose proof (cached_query_insert_lookup fp pinned r m s) as Hl.
  assert (Hg : (cached_query_insert fp pinned r m s).1 = generation_next (c_counter (s_cache s))) by done.
  destruct (cached_query_insert fp pinned r m s) as [g s1]. simpl in F, Hf, Hl, Hg. cbv zeta.
  assert (Hq : forall q, c_cached (s_cache s1) !! fp = Some q -> cq_generation q ∈ c_generations (s_cache s) ->
     exists q1, c_cached (s_cache s) !! fp = Some q1 /\ cq_generation q1 = cq_generation q).
  { intros q E Hin. by apply Hf in E. }
  intros [->|[->| ->]].
  - split; [apply (frames_trans fp s s1); [done|apply frames_population_start|done]|].
    intros _. refine (CausePopulation (population_start fp g s1) fp _ (conj Hl eq_refl) _). left. simpl. rewrite Hg. set_solver.
  - split; [apply (frames_trans fp s s1); [done|apply frames_cleanup|done]|].
    by intros []%cleanup_not_loading.
  - split; [apply (frames_trans fp s s1); [done|apply frames_stamped|done]|].
    unfold view_loading. simpl. by rewrite lookup_insert_eq.
Qed.

(** After a registration the entry is gone, ready, or has its population; a mere check
    leaves it as it was. *)
Lemma register_settles fp action pinned input s :
  cache_ok (s_cache s) (s_view s) -> (c_counter (s_cache s) < i64_max)%Z ->
  (action = ActCheckOnly -> view_loading s fp -> cause s fp) ->
  let s' := register_command fp action pinned input s in
  frames fp s s' /\ (view_loading s' fp -> cause s' fp).
Proof.
  intros Hok Hmax Hcheck. unfold register_command, query_register. cbv zeta.
  case_bool_decide as Hi.
  { split; [by apply frames_readmit|]. intros _. apply (readmit_live s Hok Hmax).
    destruct (c_cached (s_cache s) !! fp) as [q|]; [by exists q|done]. }
  destruct (ri_resolution input) as [[r m]|].
  2: { split; [apply frames_cleanup|by intros []%cleanup_not_loading]. }
  set (s1 := with_cache (tracked_add fp (s_cache s)) s).
  assert (Hok1 : cache_ok (s_cache s1) (s_view s1)).
  { by apply (preserves_tracked ({[ fp ]} ∪ c_tracked (s_cache s)) s). }
  assert (F1 : frames fp s s1) by apply frames_tracked.
  assert (Htr : forall s', frames fp s1 s' -> frames fp s s').
  { intros s' F. apply (frames_trans fp s s1 s' F1 F). intros q E _. by exists q. }
  pose proof (inserted_settles fp pinned r m s1) as Hins.
  unfold query_subsume, query_admit. destruct (ri_subsumed input).
  - destruct (cached_query_insert fp pinned r m s1) as [g s2] eqn:E2.
    assert (Hl : c_cached (s_cache s2) !! fp <> None /\
      forall q, c_cached (s_cache s2) !! fp = Some q -> cq_generation q = g).
    { pose proof (cached_query_insert_lookup fp pinned r m s1) as Hl. rewrite E2 in Hl. simpl in Hl.
      rewrite Hl. split; [done|]. intros q [= <-]. simpl. by injection E2. }
    destruct (ri_subsume input).
    + destruct (Hins (query_failed_cleanup fp s2) Hok1 Hmax); auto.
    + unfold subsumption_fallback_populate.
      destruct (c_cached (s_cache s2) !! fp) as [q|] eqn:El; [|by destruct Hl].
      destruct Hl as [_ Hl]. rewrite (Hl q eq_refl).
      destruct (Hins (population_start fp g s2) Hok1 Hmax); auto.
    + match goal with |- frames fp s ?x /\ _ => destruct (Hins x Hok1 Hmax); auto end.
  - case_bool_decide as Ha.
    + split; [apply Htr, frames_tracked|]. intros Hv. specialize (Hcheck Ha Hv).
      revert Hcheck. by apply cause_frame.
    + destruct (cached_query_insert fp pinned r m s1) as [g s2].
      destruct (ri_publication_ok input); simpl;
        match goal with |- frames fp s ?x /\ _ => destruct (Hins x Hok1 Hmax); auto end.
Qed.

Lemma limit_bump_settles fp m s :
  cache_ok (s_cache s) (s_view s) -> (c_counter (s_cache s) < i64_max)%Z ->
  (c_cached (s_cache s) !! fp = None -> view_loading s fp -> cause s fp) ->
  let s' := limit_bump_handle fp m s in view_loading s' fp -> cause s' fp.
Proof.
  intros Hok Hmax. unfold limit_bump_handle. destruct (c_cached (s_cache s) !! fp) as [q|] eqn:Eq; [|auto].
  pose proof (fresh_generation _ _ _ _ Hok Hmax Eq). intros _ _. simpl.
  destruct (cq_invalidated q) eqn:Hi;
    match goal with |- context [insert_overwrite fp ?x ?y] =>
      assert (Hl : insert_overwrite fp x y !! fp = Some x)
        by (unfold insert_overwrite; by rewrite lookup_insert_eq);
      first [by apply (CauseHung _ _ x); [done|done|simpl; set_solver]
            |by apply (CausePopulation _ _ x); [split|left; simpl; set_solver]] end.
Qed.

Definition command_fingerprint (c : QueryCommand) : Fingerprint :=
  match c with
  | CmdRegister fp _ _ | CmdMerge fp _ | CmdFailed fp _ | CmdLimitBump fp _ | CmdReadmit fp => fp
  end.

Definition command_taken (rest : list QueryCommand) (s : Sys) : Sys := with_commands (s_claims s) rest s.

(** Taking a command off the channel loses only what that command was the cause of. *)
Lemma cause_taken s cmd rest fp :
  s_commands s = cmd :: rest -> ~ is_admit fp cmd -> ~ is_limit_bump fp cmd ->
  (forall g, cmd <> CmdMerge fp g /\ cmd <> CmdFailed fp g) ->
  cause s fp -> cause (command_taken rest s) fp.
Proof.
  intros Hc Ha Hb Hm. apply cause_frame; simpl; auto.
  - apply requested_grow; simpl; [set_solver|]. rewrite Hc.
    intros c [->|?]%elem_of_cons Hp; [by destruct Ha|set_solver].
  - apply requested_grow; simpl; [set_solver|]. rewrite Hc.
    intros c [->|?]%elem_of_cons Hp; [by destruct Hb|set_solver].
  - intros q _. unfold inflight. simpl. rewrite Hc.
    destruct (Hm (cq_generation q)) as [H1 H2].
    intros [?|[?|[[E|?]%elem_of_cons|[E|?]%elem_of_cons]]]; auto; congruence.
Qed.

Lemma cause_taken_other s cmd rest fp :
  s_commands s = cmd :: rest -> fp <> command_fingerprint cmd ->
  cause s fp -> cause (command_taken rest s) fp.
Proof.
  intros Hc Hne. apply (cause_taken s cmd); [done| | |].
  - by intros (p & ->).
  - by intros (m & ->).
  - intros g. split; intros ->; done.
Qed.

Lemma command_loading cmd rest input s :
  s_commands s = cmd :: rest ->
  cache_ok (s_cache s) (s_view s) -> (c_counter (s_cache s) < i64_max)%Z ->
  (forall fp, view_loading s fp -> cause s fp) ->
  forall fp, view_loading (query_command_handle cmd input (command_taken rest s)) fp ->
    cause (query_command_handle cmd input (command_taken rest s)) fp.
Proof.
  intros Hc Hok Hmax Hl. set (s0 := command_taken rest s).
  assert (Hother : forall fp, fp <> command_fingerprint cmd -> view_loading s0 fp -> cause s0 fp).
  { intros fp Hne Hv. by apply (cause_taken_other s cmd), Hl. }
  destruct cmd as [fp action pinned|fp g|fp g|fp m|fp]; simpl in Hother; cbn [query_command_handle].
  - destruct (register_settles fp action pinned input s0 Hok Hmax) as [F H]; [|by apply (frames_loading_ok fp s0)].
    intros -> Hv. apply (cause_taken s (CmdRegister fp ActCheckOnly pinned)); [done| | | |by apply Hl].
    + by intros (p & [= ]).
    + by intros (m & [= ]).
    + by intros g.
  - intros fp' Hv. generalize (Hl fp' Hv). apply cause_frame; simpl; auto.
    + apply requested_grow; simpl; [set_solver|]. rewrite Hc.
      intros c [->|?]%elem_of_cons Hp; [by destruct Hp|set_solver].
    + apply requested_grow; simpl; [set_solver|]. rewrite Hc.
      intros c [->|?]%elem_of_cons Hp; [by destruct Hp|set_solver].
    + intros q _. unfold inflight. simpl. rewrite Hc.
      intros [?|[?|[[[= -> ->]|?]%elem_of_cons|[?|?]%elem_of_cons]]]; auto; try done; set_solver.
  - apply (frames_loading_ok fp s0); [apply frames_cleanup|done|done|by intros []%cleanup_not_loading].
  - apply (frames_loading_ok fp s0); [by apply frames_limit_bump|done|done|].
    apply limit_bump_settles; [done|done|]. simpl. intros En Hv.
    destruct (Hl fp Hv) as [H|q H [E _]|q [E _] H|q E _ _]; try congruence.
    apply CauseAdmit. revert H. apply requested_grow; simpl; [set_solver|]. rewrite Hc.
    intros c [->|?]%elem_of_cons Hp; [by destruct Hp|set_solver].
  - apply (frames_loading_ok fp s0); [by apply frames_readmit|done|done|].
    destruct (c_cached (s_cache s0) !! fp) as [q|] eqn:Eq; [intros _; apply (readmit_live s0 Hok Hmax); by exists q|].
    intros Hv. assert (Hv0 : view_loading s fp).
    { revert Hv. unfold query_readmit. simpl in *. by rewrite Eq. }
    destruct (Hl fp Hv0) as [H|q H [E _]|q [E _] H|q E _ _]; simpl in *; try congruence.
    apply CauseAdmit. revert H. unfold query_readmit. simpl. rewrite Eq.
    apply requested_grow; simpl; [set_solver|]. rewrite Hc.
    intros c [->|?]%elem_of_cons Hp; [by destruct Hp|set_solver].
Qed.

Lemma merge_loading fp g applied s s' :
  merge_step fp g applied s = Some s' -> cache_ok (s_cache s) (s_view s) ->
  (forall fp, view_loading s fp -> cause s fp) -> forall fp, view_loading s' fp -> cause s' fp.
Proof.
  intros Hs Hok Hl. unfold merge_step in Hs. destruct (remove_one _ _) as [ms|] eqn:Er; [|done].
  injection Hs as <-. set (s1 := with_work (s_populations s) ms s).
  assert (Hin : forall x, x ∈ s_merges s -> x = (fp, g) \/ x ∈ ms).
  { intros x. by apply remove_one_elem. }
  assert (H1 : forall fp', (fp' = fp -> population_is_current fp g s1 = false) ->
    view_loading s1 fp' -> cause s1 fp').
  { intros fp' Hcur Hv. generalize (Hl fp' Hv). apply cause_frame; simpl; auto.
    intros q [E Hi]. unfold inflight. simpl. intros [?|[Hm|?]]; auto.
    destruct (Hin _ Hm) as [[= -> Eg]|?]; auto. specialize (Hcur eq_refl).
    unfold population_is_current in Hcur. simpl in Hcur. rewrite E in Hcur. simpl in Hcur.
    rewrite Hi, Eg, Z.eqb_refl in Hcur. done. }
  destruct (population_is_current fp g s1) eqn:Ec; simpl; [|by intros fp'; apply H1].
  destruct (population_is_current_live _ _ _ Ec) as (q & Eq & Hinv & _).
  assert (Ho : forall fp', fp' <> fp -> view_loading s1 fp' -> cause s1 fp') by (intros fp' Hne; by apply H1).
  destruct applied.
  - apply (frames_loading_ok fp s1); [|done|done|].
    + unfold query_ready_mark. rewrite Eq. split; simpl; auto; intros fp' Hne; by rewrite lookup_insert_ne.
    + unfold query_ready_mark, view_loading. rewrite Eq. simpl. by rewrite lookup_insert_eq.
  - apply (frames_loading_ok fp s1); [apply frames_cleanup|done|done|by intros []%cleanup_not_loading].
Qed.

Lemma cdc_loading policy fp s :
  cache_ok (s_cache s) (s_view s) -> (forall fp, view_loading s fp -> cause s fp) ->
  forall fp', view_loading (cache_query_cdc_invalidate policy fp s) fp' ->
    cause (cache_query_cdc_invalidate policy fp s) fp'.
Proof.
  intros Hok Hl. unfold cache_query_cdc_invalidate.
  destruct (c_cached (s_cache s) !! fp) as [q|] eqn:Eq; [|done]. destruct (cq_pinned q).
  - intros fp' Hv. generalize (Hl fp' Hv). apply cause_frame; simpl; auto.
    + apply requested_grow; simpl; set_solver.
    + apply requested_grow; simpl; set_solver.
    + intros q' _. unfold inflight. simpl. rewrite !elem_of_app. naive_solver.
  - case_bool_decide.
    + apply (frames_loading_ok fp s); [apply frames_evict|done|auto|].
      unfold view_loading, cache_query_evict. rewrite Eq. simpl. by rewrite lookup_delete_eq.
    + destruct (cq_invalidated q); [done|]. apply (frames_loading_ok fp s); [|done|auto|].
      * split; simpl; auto; try (intros fp' Hne; by rewrite lookup_alter_ne).
        intros g Hg. destruct (decide (g = cq_generation q)) as [->|]; [right; by exists q|left; set_solver].
      * unfold view_loading. simpl. rewrite lookup_alter_eq. by destruct (s_view s !! fp).
Qed.

Lemma stale_loading d s :
  cache_ok (s_cache s) (s_view s) -> (forall fp, view_loading s fp -> cause s fp) ->
  forall fp, view_loading (stale_entries_cleanup d s) fp -> cause (stale_entries_cleanup d s) fp.
Proof.
  intros Hok Hl fp Hv. assert (Hv0 : view_loading s fp).
  { revert Hv. unfold view_loading. simpl. rewrite lookup_omap.
    destruct (s_view s !! fp) as [v|]; [|done]. simpl. unfold view_retain.
    destruct (v_state v) eqn:Es; simpl; rewrite ?Es; try done.
    - by destruct (0 <? _)%Z.
    - destruct (_ <=? _)%Z; simpl; by rewrite ?Es. }
  set (t := generation_purge_threshold (s_cache s)).
  assert (Hkeep : forall q, c_cached (s_cache s) !! fp = Some q ->
    cq_invalidated q = false \/ cq_generation q ∈ c_generations (s_cache s) ->
    c_cached (s_cache (stale_entries_cleanup d s)) !! fp = Some q).
  { intros q E Hq. simpl. apply map_lookup_filter_Some. split; [done|]. unfold entry_stale. simpl.
    destruct Hq as [-> |Hg]; [done|]. pose proof (purge_threshold_below _ _ _ Hok Hg).
    destruct (Z.ltb_spec (cq_generation q) (generation_purge_threshold (s_cache s))); [lia|].
    by rewrite andb_false_r. }
  destruct (Hl fp Hv0) as [H|q H [E Hi]|q [E Hi] H|q E Hi Hg].
  - by apply CauseAdmit.
  - apply (CauseBump _ _ q); [done|]. split; [|done]. apply Hkeep; auto.
  - apply (CausePopulation _ _ q); [|done]. split; [|done]. apply Hkeep; auto.
  - apply (CauseHung _ _ q); [|done|done]. apply Hkeep; auto.
Qed.

Lemma serve_decide_loading entry input budget t :
  decision_transition (serve_decide entry input budget) = Some t -> tr_new t = Loading ->
  serve_decide entry input budget = DecRegister t ActAdmit \/
  serve_decide entry input budget = DecLimitBump t /\ tr_expected t = Some Ready /\
    exists e, entry = Some e /\ es_state e = Ready.
Proof.
  unfold serve_decide. destruct entry as [e|].
  - destruct (es_state e) eqn:Es.
    + destruct (di_admission_threshold input <=? _)%Z; intros [= <-] [=]; by left.
    + by destruct (di_throttled input).
    + destruct (limit_is_sufficient _ _); [done|]. intros [= <-] _. right.
      split_and!; [done|done|by exists e].
    + intros [= <-] _. by left.
  - destruct (di_throttled input), budget; try done. simpl.
    destruct (_ || _); intros [= <-] [=]; by left.
Qed.

(** A dispatch that makes an entry loading asks for an admission, or for a limit bump of an
    entry that was ready. *)
Lemma transition_apply_claim view fp snapshot input budget view' d :
  transition_apply view fp (serve_decide snapshot input budget) input = (view', Some d) ->
  (forall fp', fp' <> fp -> view' !! fp' = view !! fp') /\
  (v_state <$> view' !! fp = Some Loading ->
     (exists t, d = DecRegister t ActAdmit) \/
     (exists t, d = DecLimitBump t) /\ v_state <$> view !! fp = Some Ready).
Proof.
  unfold transition_apply. destruct (decision_transition _) as [t|] eqn:Et; [|done].
  destruct (tr_expected t) eqn:Ex; destruct (view !! fp) as [e|] eqn:E; try done.
  - destruct (negb _); [done|].
    destruct (decision_transition (serve_decide (Some _) _ _)) as [t'|] eqn:Et'; [|done].
    intros H. apply pair_equal_spec in H as [<- Hd]. apply (inj Some) in Hd. subst d. split; [intros fp' Hne; by rewrite lookup_insert_ne|].
    rewrite lookup_insert_eq. intros [= El].
    destruct (serve_decide_loading _ _ _ _ Et' El) as [->|(-> & _ & e' & [= <-] & Hr)]; [left; by eexists|].
    right. split; [by eexists|]. simpl in *. by rewrite Hr.
  - intros H. apply pair_equal_spec in H as [<- Hd]. apply (inj Some) in Hd. subst d. split; [intros fp' Hne; by rewrite lookup_insert_ne|].
    rewrite lookup_insert_eq. intros [= El].
    destruct (serve_decide_loading _ _ _ _ Et El) as [->|(_ & E' & _)]; [left; by eexists|congruence].
Qed.

(** No limit bump is lost between its claim and the channel. *)
Definition claims_delivered (l : Label) : Prop :=
  match l with LClaimSend _ delivered => delivered = true | _ => True end.

Lemma claim_loading_ok fp snapshot input budget s :
  cache_ok (s_cache s) (s_view s) -> loading_ok s -> loading_ok (claim_step fp snapshot input budget s).
Proof.
  intros Hok [H1 H2]. unfold claim_step.
  destruct (transition_apply _ _ _ _) as [view [d|]] eqn:E; [|by split].
  destruct (transition_apply_claim _ _ _ _ _ _ _ E) as [Hv Hd].
  set (s' := with_commands _ _ _).
  assert (Hreq : forall P, requested s P -> requested s' P) by (intros P; apply requested_grow; simpl; set_solver).
  assert (Hfp : view_loading s' fp -> cause_requested s' fp).
  { intros Hl. destruct (Hd Hl) as [(t & ->)|[(t & ->) Hr]].
    - left. exists (CmdRegister fp ActAdmit false). split; [simpl; set_solver|by eexists].
    - right. split; [exists (CmdLimitBump fp (di_rows_needed input)); split; [simpl; set_solver|by eexists]|].
      destruct (s_view s !! fp) as [v|] eqn:Ev; [|done]. simpl in Hr. injection Hr as Hr.
      by apply (co_ready _ _ Hok fp v). }
  assert (Hne : forall fp', fp' <> fp -> view_loading s' fp' -> view_loading s fp').
  { intros fp' Hne. unfold view_loading. simpl. by rewrite Hv. }
  split.
  - intros fp' Hl. destruct (decide (fp' = fp)) as [->|Hd'].
    + destruct (Hfp Hl) as [?|[? (q & ?)]]; [by apply CauseAdmit|by apply (CauseBump _ _ q)].
    + generalize (H1 fp' (Hne _ Hd' Hl)). apply cause_frame; auto.
  - intros fp' Hb Hl. destruct (decide (fp' = fp)) as [->|Hd']; [by apply Hfp|].
    destruct (H2 fp' Hb (Hne _ Hd' Hl)) as [?|[? ?]]; [left; auto|right; auto].
Qed.

Lemma bump_finish_loading fp stamped s :
  cache_ok (s_cache s) (s_view s) -> (c_counter (s_cache s) < i64_max)%Z ->
  s_bump s = Some fp -> loading_ok s -> loading_ok (generation_bump_finish fp stamped s).
Proof.
  intros Hok Hmax Hb [H1 H2].
  assert (Hn : s_bump (generation_bump_finish fp stamped s) = None).
  { unfold generation_bump_finish. simpl. destruct (c_cached _ !! fp); [by destruct stamped|done]. }
  split; [|by rewrite Hn].
  apply (frames_loading_ok fp s); [by apply frames_bump_finish|done|auto|]. intros Hv.
  assert (Hv0 : view_loading s fp).
  { revert Hv. unfold view_loading, generation_bump_finish. simpl.
    destruct (c_cached _ !! fp); [|done]. destruct stamped; [|done]. simpl. rewrite lookup_alter_eq.
    by destruct (s_view s !! fp). }
  assert (Hr : forall P, requested s P -> requested (generation_bump_finish fp stamped s) P).
  { intros P. apply requested_grow; unfold generation_bump_finish; simpl;
      (destruct (c_cached _ !! fp); [destruct stamped|]; simpl; set_solver). }
  destruct (H2 fp Hb Hv0) as [?|[? (q & E & Hi)]]; [by apply CauseAdmit, Hr|].
  assert (Hq : exists q', live (generation_bump_finish fp stamped s) fp q').
  { unfold live, generation_bump_finish. simpl. rewrite E. destruct stamped; simpl; [|by exists q].
    unfold insert_overwrite. rewrite lookup_insert_eq. by eexists. }
  destruct Hq as [q' Hq]. apply (CauseBump _ _ q'); auto.
Qed.

(** Steps that only move causes from one place to another. *)
Lemma moved_loading_ok s s' :
  s_cache s' = s_cache s -> s_view s' = s_view s -> s_bump s' = s_bump s ->
  (forall P, requested s P -> requested s' P) ->
  (forall fp g, inflight s fp g -> inflight s' fp g) -> loading_ok s -> loading_ok s'.
Proof.
  intros Ec Ev Eb Hr Hi [H1 H2]. unfold view_loading in *. split; unfold view_loading; rewrite Ev.
  - intros fp Hl. generalize (H1 fp Hl). apply cause_frame; rewrite ?Ec; auto.
  - rewrite Eb. intros fp Hb Hl. destruct (H2 fp Hb Hl) as [?|[? ?]]; [left; auto|right].
    unfold live. rewrite Ec. auto.
Qed.

Lemma sys_step_loading l s s' :
  sys_step l s = Some s' -> claims_delivered l -> (c_counter (s_cache s') < i64_max)%Z ->
  sys_ok s -> loading_ok s -> loading_ok s'.
Proof.
  intros Hs Hd Hmax Hok Hl. pose proof (sys_step_counter _ _ _ Hs Hmax) as Hm0.
  pose proof (so_cache _ Hok) as Hc. pose proof (lo_cause _ Hl) as Hl1.
  pose proof (writer_step _ _ _ Hs) as Hw.
  destruct l; simpl in Hs.
  - injection Hs as <-. by apply claim_loading_ok.
  - unfold claim_send in Hs. destruct (s_claims s !! i) as [c|] eqn:Ei; [|done]. injection Hs as <-.
    simpl in Hd. subst delivered.
    assert (E : (if match c with CmdLimitBump _ _ => negb true | _ => false end then [] else [c]) = [c])
      by by destruct c.
    rewrite E. apply (moved_loading_ok s); try done.
    + intros P. apply requested_grow; simpl; [|set_solver]. intros c' Hc'.
      apply (delete_Permutation _ _ _) in Ei. rewrite Ei in Hc'. set_solver.
    + intros fp g. unfold inflight. simpl. rewrite !elem_of_app. naive_solver.
  - destruct (enqueue_if_loading _ _ _ _ _); [|done]. injection Hs as <-. by apply (moved_loading_ok s).
  - injection Hs as <-. assert (Ha : requested (pinned_register fp s) (is_admit fp)).
    { exists (CmdRegister fp ActAdmit true). split; [simpl; set_solver|by eexists]. }
    assert (Hv : forall fp', fp' <> fp -> view_loading (pinned_register fp s) fp' -> view_loading s fp').
    { intros fp' Hne. unfold view_loading. simpl. by rewrite lookup_insert_ne. }
    assert (Hr : forall P, requested s P -> requested (pinned_register fp s) P).
    { intros P. apply requested_grow; simpl; set_solver. }
    split.
    + intros fp' H. destruct (decide (fp' = fp)) as [->|Hne]; [by apply CauseAdmit|].
      generalize (Hl1 fp' (Hv _ Hne H)). apply cause_frame; auto.
    + intros fp' Hb H. destruct (decide (fp' = fp)) as [->|Hne]; [by left|].
      destruct (lo_bump _ Hl fp' Hb (Hv _ Hne H)) as [?|[? ?]]; [left; auto|right; auto].
  - destruct (s_notify s) as [|[fp g m|fp] n]; [done| |]; simpl in Hs.
    + destruct (waiting_drain_ready _ _ _) as [[a w]|]; [|done]. injection Hs as <-. by apply (moved_loading_ok s).
    + injection Hs as <-. by apply (moved_loading_ok s).
  - injection Hs as <-. by apply (moved_loading_ok s).
  - destruct (s_sending s); [done|]. injection Hs as <-. by apply (moved_loading_ok s).
  - destruct Hw as (_ & Hb & _). split; [|by rewrite Hb].
    destruct (s_commands s) as [|cmd rest] eqn:E; [done|]. destruct (writer_idle s); [|done].
    injection Hs as <-. by apply command_loading.
  - destruct Hw as (_ & Hb & _). split; [|by rewrite Hb]. destruct (writer_idle s); [|done].
    by apply (merge_loading fp generation applied s).
  - destruct Hw as (_ & Hb & _). split; [|by rewrite Hb]. destruct (writer_idle s); [|done].
    injection Hs as <-. by apply cdc_loading.
  - destruct Hw as (_ & _ & [[-> Hr]|Hb]).
    + split; [intros fp' H; generalize (Hl1 fp' H); by apply cause_frame|]. simpl. intros fp' [= <-]. unfold view_loading. simpl. by rewrite Hr.
    + split; [|by rewrite Hb]. destruct (writer_idle s); [|done]. injection Hs as <-. revert Hb.
      unfold eviction_candidate. destruct (c_cached (s_cache s) !! fp) as [q|] eqn:Eq; [|done].
      destruct (eviction_candidate_action _ _ _ _); try done. intros _.
      apply (frames_loading_ok fp s); [apply frames_evict|done|auto|].
      unfold view_loading, cache_query_evict. rewrite Eq. simpl. by rewrite lookup_delete_eq.
  - destruct (s_bump s) as [fp|] eqn:Eb; [|done]. injection Hs as <-. by apply bump_finish_loading.
  - destruct Hw as (_ & Hb & _). split; [|by rewrite Hb]. destruct (writer_idle s); [|done].
    injection Hs as <-. by apply stale_loading.
  - destruct Hw as (_ & Hb & _). split; [|by rewrite Hb]. destruct (writer_idle s); [|done].
    injection Hs as <-. intros fp H. generalize (Hl1 fp H). by apply cause_frame.
  - unfold population_done in Hs. destruct (remove_one _ _) as [ps|] eqn:Er; [|done]. injection Hs as <-.
    apply (moved_loading_ok s); try done.
    + intros P. apply requested_grow; simpl; set_solver.
    + intros fp' g'. unfold inflight. simpl. rewrite !elem_of_app.
      intros [Hp|[?|[?|?]]]; auto. destruct (remove_one_elem _ _ _ _ Er Hp) as [[= -> ->]|?]; [|auto].
      destruct ok; [right; right; left|right; right; right]; set_solver.
Qed.

Lemma sys_run_loading ls s s' :
  sys_run ls s = Some s' -> Forall claims_delivered ls -> (c_counter (s_cache s') < i64_max)%Z ->
  sys_ok s -> loading_ok s -> loading_ok s'.
Proof.
  revert s. induction ls as [|l ls IH]; intros s; simpl; [by intros [= <-]|].
  destruct (sys_step l s) as [s1|] eqn:E; [|done]. simpl. intros Hr [Hd Hds]%list.Forall_cons Hm Hok Hl.
  pose proof (sys_run_counter _ _ _ Hr Hm) as Hm1.
  apply (IH s1); [done|done|done|by apply (sys_step_ok l s)|by apply (sys_step_loading l s)].
Qed.

Lemma sys_run_parked ls s s' : sys_run ls s = Some s' -> parked_ok s -> parked_ok s'.
Proof.
  revert s. induction ls as [|l ls IH]; intros s; simpl; [by intros [= <-]|].
  destruct (sys_step l s) as [s1|] eqn:E; [|done]. simpl. intros Hr Hp.
  by apply (IH s1), (sys_step_parked l s).
Qed.

(** ** Theorems *)

(** C13: no waiter is orphaned.  In every interleaving of dispatch, writer, workers and drain
    task, a fingerprint with parked requests is loading, or a notification that drains it
    has been sent or is about to be. *)
Theorem no_orphaned_waiter ls s fp groups :
  sys_run ls sys_new = Some s -> s_waiting s !! fp = Some groups ->
  view_loading s fp \/ notified s fp.
Proof.
  intros Hr Hw. apply (sys_run_parked ls sys_new s Hr); [|by exists groups].
  intros fp' [g Hg]. simpl in Hg. by rewrite lookup_empty in Hg.
Qed.

(** C14: a ready entry is backed by a live query.  Until the 64-bit generation counter is used
    up, in every interleaving, an entry that is served from has its resolved query, the
    writer holds a query of the fingerprint that is not invalidated, and the generation it
    is served at is above the purge threshold, so its rows are not purged. *)
Theorem ready_entry_live ls s fp v :
  sys_run ls sys_new = Some s -> (c_counter (s_cache s) < i64_max)%Z ->
  s_view s !! fp = Some v -> v_state v = Ready ->
  is_Some (v_resolved v) /\ (exists q, live s fp q) /\
  (generation_purge_threshold (s_cache s) < v_generation v)%Z.
Proof.
  intros Hr Hm Ev Er. pose proof (so_cache _ (sys_run_ok ls sys_new s Hr Hm sys_new_ok)) as H.
  destruct (co_ready _ _ H fp v Ev Er) as (Hq & Hg & Hres & _).
  split; [done|]. split; [done|]. by apply (purge_threshold_below _ (s_view s)).
Qed.

(** C15: every loading entry has what ends it. If no limit bump is lost before it reaches
    the writer ([claims_delivered]) and the generation counter is not exhausted, a loading
    entry has a pending admission, a pending limit bump of its live query, or a population
    of that query's generation that is running, reported or being merged; the one exception
    is an invalidated query that a late limit bump has made loading. *)
Theorem loading_entry_has_cause ls s fp :
  sys_run ls sys_new = Some s -> Forall claims_delivered ls ->
  (c_counter (s_cache s) < i64_max)%Z -> view_loading s fp -> cause s fp.
Proof.
  intros Hr Hd Hm. apply (sys_run_loading ls sys_new s Hr Hd Hm sys_new_ok).
  split; unfold view_loading; simpl; intros fp'; by rewrite ?lookup_empty.
Qed.

(** ** Example histories *)

Module LifecycleExamples.

Definition ask (rows : option Z) (threshold : Z) : DecisionInput :=
  {| di_rows_needed := rows; di_admission_threshold := threshold; di_cache_policy := Clock;
     di_throttled := false; di_pending_credit := 100 |}.

Definition answer (max_limit : option Z) (subsumed : bool) : RegisterInput :=
  {| ri_resolution := Some (7%N, max_limit); ri_subsumed := subsumed; ri_subsume := SubsumeStamped;
     ri_publication_ok := true |}.

Definition request : QueryRequest :=
  {| rq_id := 5; rq_query_type := Simple; rq_limit := None; rq_result_formats := Implicit;
     rq_pipeline := None; rq_transaction_status := Idle; rq_deadline_at := None |}.

(** A cold query is admitted, populated and merged. *)
Definition admitted (max_limit : option Z) : list Label :=
  [LClaim 1 None (ask max_limit 1) true; LClaimSend 0 true; LCommand (answer max_limit false);
   LPopulated 1 1 true; LCommand (answer max_limit false); LMerge 1 1 true].

(** The same with a request parked while it loads. *)
Definition admitted_parked : list Label :=
  [LClaim 1 None (ask None 1) true; LClaimSend 0 true; LCommand (answer None false);
   LEnqueue 1 request; LPopulated 1 1 true; LCommand (answer None false); LMerge 1 1 true].

Definition ready_with (max_limit : option Z) : option EntrySnapshot :=
  Some {| es_state := Ready; es_max_limit := max_limit |}.

End LifecycleExamples.

Module LifecycleWitness.
Import LifecycleExamples.

Lemma no_orphaned_waiter_witness :
  exists s groups, sys_run admitted_parked sys_new = Some s /\ s_waiting s !! 1%N = Some groups /\
    (view_loading s 1 \/ notified s 1).
Proof.
  eexists _, _. split; [vm_compute; reflexivity|]. split; [vm_compute; reflexivity|].
  apply (no_orphaned_waiter admitted_parked _ 1
    [(key_from_request request, [request])]); vm_compute; reflexivity.
Defined.

Lemma ready_entry_live_witness :
  exists s v, sys_run (admitted None) sys_new = Some s /\ s_view s !! 1%N = Some v /\
    is_Some (v_resolved v) /\ (exists q, live s 1 q) /\
    (generation_purge_threshold (s_cache s) < v_generation v)%Z.
Proof.
  eexists _, _. split; [vm_compute; reflexivity|]. split; [vm_compute; reflexivity|].
  apply (ready_entry_live (admitted None)); vm_compute; reflexivity.
Defined.

Lemma loading_entry_has_cause_witness :
  exists s, sys_run (take 4 (admitted None)) sys_new = Some s /\ view_loading s 1 /\ cause s 1.
Proof.
  eexists. split; [vm_compute; reflexivity|]. split; [vm_compute; reflexivity|].
  apply (loading_entry_has_cause (take 4 (admitted None))); try (vm_compute; reflexivity).
  repeat constructor.
Defined.

End LifecycleWitness.

(** ** Where the protocol goes wrong *)

Module LifecycleGap.
Import LifecycleExamples.

(** Nothing will ever change the entry: no command, population, merge or notification. *)
Definition quiescent (s : Sys) : bool :=
  bool_decide (s_claims s = []) && bool_decide (s_commands s = []) &&
  bool_decide (s_populations s = []) && bool_decide (s_merges s = []) &&
  bool_decide (s_notify s = []) && bool_decide (s_sending s = []).

Definition state_of (s : Sys) (fp : Fingerprint) : option CachedQueryState := v_state <$> s_view s !! fp.

(** A limit bump handled after a CDC invalidation: [limit_bump_handle] keeps the invalidated
    mark, so the population it starts is never current, its merge is dropped, and the entry
    stays loading with nothing left to happen. *)
Definition late_bump : list Label :=
  admitted (Some 10%Z) ++
  [LSend; LNotify; LClaim 1 (ready_with (Some 10%Z)) (ask None 1) true; LClaimSend 0 true; LCdc Clock 1; LSend;
   LNotify; LCommand (answer None false); LPopulated 1 2 true; LCommand (answer None false);
   LMerge 1 2 true; LCleanup 0].

Theorem late_limit_bump_hangs :
  exists s, sys_run late_bump sys_new = Some s /\ state_of s 1 = Some Loading /\ quiescent s = true.
Proof. eexists. split; [vm_compute; reflexivity|]. by vm_compute. Qed.

(** The drain serves every waiter of the fingerprint from the generation its notification
    carries, without looking at the entry: a request parked behind the readmission of an
    invalidated query is served at the invalidated generation. *)
Definition stale_ready : list Label :=
  admitted None ++
  [LSend; LCdc Clock 1; LClaim 1 (Some {| es_state := Invalidated; es_max_limit := None |}) (ask None 1) true;
   LEnqueue 1 request; LNotify].

Theorem stale_ready_serves_invalidated :
  exists s, sys_run stale_ready sys_new = Some s /\
    s_served s = [(1%N, 1%Z, [ActServe request []])] /\
    cq_invalidated <$> c_cached (s_cache s) !! 1%N = Some true /\ 1%Z ∉ c_generations (s_cache s).
Proof.
  eexists. split; [vm_compute; reflexivity|]. split; [by vm_compute|]. split; [by vm_compute|].
  apply (bool_decide_eq_false (1%Z ∈ _)). by vm_compute.
Qed.

(** Two checks of a pending query in the channel: the first is subsumed and makes it ready;
    the second is not (its parent was invalidated meanwhile) and removes the update queries
    of the ready entry, which CDC events no longer reach. *)
Definition second_check : list Label :=
  [LClaim 1 None (ask None 3) true; LClaim 1 (Some {| es_state := Pending 1 100; es_max_limit := None |}) (ask None 3) true;
   LClaimSend 0 true; LClaimSend 0 true; LCommand (answer None true); LSend; LCommand (answer None false)].

Theorem second_check_untracks_ready :
  exists s, sys_run second_check sys_new = Some s /\ state_of s 1 = Some Ready /\
    1%N ∉ c_tracked (s_cache s).
Proof.
  eexists. split; [vm_compute; reflexivity|]. split; [by vm_compute|].
  apply (bool_decide_eq_false (1%N ∈ _)). by vm_compute.
Qed.

(** A pinned query stays ready between its invalidation and its readmission. *)
Definition pinned_ready : list Label :=
  [LPinned 1; LClaimSend 0 true; LCommand (answer None false); LPopulated 1 1 true;
   LCommand (answer None false); LMerge 1 1 true; LSend; LNotify; LCdc Clock 1; LSend; LNotify].

Theorem pinned_served_after_invalidation :
  exists s, sys_run pinned_ready sys_new = Some s /\ state_of s 1 = Some Ready /\
    s_commands s = [CmdReadmit 1].
Proof. eexists. split; [vm_compute; reflexivity|]. by vm_compute. Qed.

(** Generations in use that belong to no query: the purge threshold never passes them. *)
Definition leaked (s : Sys) (g : Generation) : bool :=
  bool_decide (g ∈ c_generations (s_cache s)) &&
  bool_decide (filter (fun e => cq_generation e.2 = g) (c_cached (s_cache s)) = ∅) &&
  (generation_purge_threshold (s_cache s) <? g)%Z.

(** The readmission of a pinned query allocates a generation and keeps the old one. *)
Theorem pinned_readmit_leaks :
  exists s, sys_run (pinned_ready ++ [LCommand (answer None false); LPopulated 1 2 true;
      LCommand (answer None false); LMerge 1 2 true; LSend; LNotify]) sys_new = Some s /\
    state_of s 1 = Some Ready /\ quiescent s = true /\ leaked s 1 = true.
Proof. eexists. split; [vm_compute; reflexivity|]. by vm_compute. Qed.

(** A check that is subsumed and an admission behind it register the query twice; the first
    generation stays in use. *)
Theorem double_register_leaks :
  exists s, sys_run
      [LClaim 1 None (ask None 2) true; LClaim 1 (Some {| es_state := Pending 1 100; es_max_limit := None |}) (ask None 2) true;
       LClaimSend 0 true; LClaimSend 0 true; LCommand (answer None true); LSend; LNotify;
       LCommand (answer None false); LPopulated 1 2 true; LCommand (answer None false); LMerge 1 2 true;
       LSend; LNotify] sys_new = Some s /\
    state_of s 1 = Some Ready /\ quiescent s = true /\ leaked s 1 = true.
Proof. eexists. split; [vm_compute; reflexivity|]. by vm_compute. Qed.

(** A limit bump is claimed before the request is forwarded; when the forward fails the
    command is not sent and the entry stays loading. *)
Theorem lost_limit_bump_hangs :
  exists s, sys_run (admitted (Some 10%Z) ++
      [LSend; LNotify; LClaim 1 (ready_with (Some 10%Z)) (ask None 1) true; LClaimSend 0 false]) sys_new = Some s /\
    state_of s 1 = Some Loading /\ quiescent s = true.
Proof. eexists. split; [vm_compute; reflexivity|]. by vm_compute. Qed.

End LifecycleGap.
