(* ===== verification/Memo.v ===== *)
(** * The in-process result memo

    Models cache/memo.rs and the bracket the CDC flush puts around a commit
    (cache/writer/cdc/frame.rs, invalidation.rs).  Operations on the store are atomic steps;
    captures, gets, the sweep and the writer's frame interleave.  The theorems: the byte and
    membership accounts equal their recomputation, and, in histories where no capture
    finishes between the replay of a frame and its bracket and no capture overlaps a frame
    that finds the store empty, a hit is the result of its query on the committed state.
    [MemoGap] shows both conditions are needed. *)
From Stdlib Require Import Strings.Byte.
From S2P Require Import Prelude Value Egress Session Dispatch.

Notation Oid := N (only parsing).

(** [MAX_MEMO_ENTRY_BYTES] *)
Definition MAX_MEMO_ENTRY_BYTES : nat := Z.to_nat (128 * 1024).

Inductive SlotKey :=
| SlotMemo (fingerprint : Fingerprint)
| SlotRelation (oid : Oid)
| SlotRelationMembership (oid : Oid)
| SlotRelationColumn (oid : Oid) (attnum : N).
#[global] Instance slot_key_eq_dec : EqDecision SlotKey.
Proof. solve_decision. Defined.
#[global] Program Instance slot_key_countable : Countable SlotKey :=
  inj_countable'
    (fun k => match k with
      | SlotMemo f => inl (inl f) | SlotRelation o => inl (inr o)
      | SlotRelationMembership o => inr (inl o) | SlotRelationColumn o a => inr (inr (o, a)) end)
    (fun x => match x with
      | inl (inl f) => SlotMemo f | inl (inr o) => SlotRelation o
      | inr (inl o) => SlotRelationMembership o | inr (inr (o, a)) => SlotRelationColumn o a end) _.
Next Obligation. by intros []. Qed.

Record MemoShape := { sh_limit : option Z; sh_offset : option Z }.
#[global] Instance memo_shape_eq_dec : EqDecision MemoShape.
Proof. solve_decision. Defined.

(** A row count of the LIMIT clause: absent, a non-negative literal, or not keyable. *)
Definition shape_bound (bound : option LiteralValue) : option (option Z) :=
  match bound with
  | None => Some None
  | Some (LInteger n) => Some <$> u64_try_from n
  | Some _ => None
  end.

Definition shape_from_limit (limit : option LimitClause) : option MemoShape :=
  match limit with
  | None => Some {| sh_limit := None; sh_offset := None |}
  | Some clause =>
      match shape_bound (lc_count clause), shape_bound (lc_offset clause) with
      | Some limit, Some offset => Some {| sh_limit := limit; sh_offset := offset |}
      | _, _ => None
      end
  end.

Record MemoKey := { mk_fingerprint : Fingerprint; mk_binary : bool; mk_shape : MemoShape }.
#[global] Instance memo_key_eq_dec : EqDecision MemoKey.
Proof. solve_decision. Defined.
#[global] Program Instance memo_key_countable : Countable MemoKey :=
  inj_countable'
    (fun k => (mk_fingerprint k, mk_binary k, sh_limit (mk_shape k), sh_offset (mk_shape k)))
    (fun '(f, b, l, o) =>
       {| mk_fingerprint := f; mk_binary := b; mk_shape := {| sh_limit := l; sh_offset := o |} |}) _.
Next Obligation. by intros [? ? []]. Qed.

Record MemoEntry := {
  me_core : Bytes;
  me_rd_len : nat;
  me_stamped : list (SlotKey * N);
  me_relations : list Oid;
}.

Definition entry_size (e : MemoEntry) : nat := length (me_core e).

Record MemoHit := { mh_core : Bytes; mh_rd_len : nat }.

(** Versions are u64 counters, taken as not used up; [rm_budget] is the configured size,
    which stays the same during a history. *)
Record ResultMemo := {
  rm_entries : gmap MemoKey MemoEntry;
  rm_slots : gmap SlotKey N;
  rm_relations : gmap Oid (gmap Fingerprint nat);
  rm_total : nat;
  rm_gc_pending : bool;
  rm_budget : nat;
}.

Definition memo_new (budget : nat) : ResultMemo :=
  {| rm_entries := ∅; rm_slots := ∅; rm_relations := ∅; rm_total := 0; rm_gc_pending := false;
     rm_budget := budget |}.

Definition memo_enabled (m : ResultMemo) : bool := (0 <? rm_budget m)%nat.
Definition memo_is_empty (m : ResultMemo) : bool := bool_decide (rm_entries m = ∅).

Definition slot_version (m : ResultMemo) (slot : SlotKey) : N := default 0%N (rm_slots m !! slot).

Definition slot_bump (slot : SlotKey) (gc : bool) (m : ResultMemo) : ResultMemo :=
  {| rm_entries := rm_entries m; rm_slots := <[slot := (slot_version m slot + 1)%N]> (rm_slots m);
     rm_relations := rm_relations m; rm_total := rm_total m; rm_gc_pending := gc;
     rm_budget := rm_budget m |}.

Definition slot_dirty_begin (slot : SlotKey) (m : ResultMemo) : ResultMemo := slot_bump slot true m.
Definition slot_dirty_end (slot : SlotKey) (m : ResultMemo) : ResultMemo :=
  slot_bump slot (rm_gc_pending m) m.

Fixpoint slots_stamp (m : ResultMemo) (slots : list SlotKey) : option (list (SlotKey * N)) :=
  match slots with
  | [] => Some []
  | slot :: slots =>
      let v := slot_version m slot in
      if N.even v then ((slot, v) ::.) <$> slots_stamp m slots else None
  end.

Definition slots_valid (m : ResultMemo) (stamped : list (SlotKey * N)) : bool :=
  forallb (fun '(slot, version) => (slot_version m slot =? version)%N) stamped.

(** ** Membership of relations *)

Definition rel_incr_one (fp : Fingerprint) (oid : Oid) (r : gmap Oid (gmap Fingerprint nat)) :
    gmap Oid (gmap Fingerprint nat) :=
  let inner := default ∅ (r !! oid) in
  <[oid := <[fp := S (default 0 (inner !! fp))]> inner]> r.

Definition rel_decr_one (fp : Fingerprint) (oid : Oid) (r : gmap Oid (gmap Fingerprint nat)) :
    gmap Oid (gmap Fingerprint nat) :=
  match r !! oid with
  | None => r
  | Some inner =>
      let inner :=
        match inner !! fp with
        | Some count => if (count - 1 =? 0)%nat then delete fp inner else <[fp := count - 1]> inner
        | None => inner
        end in
      if bool_decide (inner = ∅) then delete oid r else <[oid := inner]> r
  end.

Definition with_relations (r : gmap Oid (gmap Fingerprint nat)) (m : ResultMemo) : ResultMemo :=
  {| rm_entries := rm_entries m; rm_slots := rm_slots m; rm_relations := r; rm_total := rm_total m;
     rm_gc_pending := rm_gc_pending m; rm_budget := rm_budget m |}.

Definition rel_incr (relations : list Oid) (fp : Fingerprint) (m : ResultMemo) : ResultMemo :=
  with_relations (fold_left (fun r oid => rel_incr_one fp oid r) relations (rm_relations m)) m.
Definition rel_decr (relations : list Oid) (fp : Fingerprint) (m : ResultMemo) : ResultMemo :=
  with_relations (fold_left (fun r oid => rel_decr_one fp oid r) relations (rm_relations m)) m.

Definition memoized_over (m : ResultMemo) (relation : Oid) (fp : Fingerprint) : bool :=
  match rm_relations m !! relation with
  | Some inner => bool_decide (is_Some (inner !! fp))
  | None => false
  end.

Definition fingerprints_for_relations (m : ResultMemo) (oids : list Oid) : gset Fingerprint :=
  ⋃ ((fun oid => dom (default ∅ (rm_relations m !! oid))) <$> oids).

Definition candidates_memoized_into (m : ResultMemo) (relation : Oid) (candidates : list Fingerprint)
    (out : gset Fingerprint) : gset Fingerprint :=
  list_to_set (List.filter (memoized_over m relation) candidates) ∪ out.

(** ** Entries *)

Definition with_entries (entries : gmap MemoKey MemoEntry) (total : nat) (m : ResultMemo) : ResultMemo :=
  {| rm_entries := entries; rm_slots := rm_slots m; rm_relations := rm_relations m; rm_total := total;
     rm_gc_pending := rm_gc_pending m; rm_budget := rm_budget m |}.

(** Taking out an entry with its bytes and its membership. *)
Definition memo_remove (key : MemoKey) (m : ResultMemo) : ResultMemo :=
  match rm_entries m !! key with
  | None => m
  | Some e =>
      rel_decr (me_relations e) (mk_fingerprint key)
        (with_entries (delete key (rm_entries m)) (rm_total m - entry_size e) m)
  end.

Definition memo_get (key : MemoKey) (m : ResultMemo) : option MemoHit * ResultMemo :=
  match rm_entries m !! key with
  | None => (None, m)
  | Some e =>
      if slots_valid m (me_stamped e) then
        (Some {| mh_core := me_core e; mh_rd_len := me_rd_len e |}, m)
      else (None, memo_remove key m)
  end.

(** The two halves of [insert]: the check of the size against the cap and the budget,
    and the change of the map with its accounts. *)
Definition memo_insert_admits (key : MemoKey) (e : MemoEntry) (m : ResultMemo) : bool :=
  let size := entry_size e in
  if (rm_budget m =? 0)%nat || (MAX_MEMO_ENTRY_BYTES <? size)%nat then false
  else
    let prev_size := default 0 (entry_size <$> rm_entries m !! key) in
    let projected := rm_total m - prev_size + size in
    negb (rm_budget m <? projected)%nat.

Definition memo_insert_store (key : MemoKey) (e : MemoEntry) (m : ResultMemo) : ResultMemo :=
  let size := entry_size e in
  let fp := mk_fingerprint key in
  let m := rel_incr (me_relations e) fp m in
  let prev := rm_entries m !! key in
  let m := with_entries (<[key := e]> (rm_entries m)) (rm_total m) m in
  let m :=
    match prev with
    | Some prev =>
        rel_decr (me_relations prev) fp
          (with_entries (rm_entries m) (rm_total m - entry_size prev) m)
    | None => m
    end in
  with_entries (rm_entries m) (rm_total m + size) m.

Definition memo_insert (key : MemoKey) (e : MemoEntry) (m : ResultMemo) : bool * ResultMemo :=
  if memo_insert_admits key e m then (true, memo_insert_store key e m) else (false, m).

Definition fingerprint_memoized (m : ResultMemo) (fp : Fingerprint) : bool :=
  existsb (fun '(k, e) => bool_decide (mk_fingerprint k = fp) && slots_valid m (me_stamped e))
    (map_to_list (rm_entries m)).

Definition memo_gc (m : ResultMemo) : ResultMemo :=
  if negb (rm_gc_pending m) then m
  else
    let m :=
      {| rm_entries := rm_entries m; rm_slots := rm_slots m; rm_relations := rm_relations m;
         rm_total := rm_total m; rm_gc_pending := false; rm_budget := rm_budget m |} in
    let stale := List.filter (fun e => negb (slots_valid m (me_stamped e.2))) (map_to_list (rm_entries m)) in
    fold_left (fun m e => memo_remove e.1 m) stale m.

(** ** Captures *)

Record MemoCapture := {
  mc_key : MemoKey;
  mc_stamped : list (SlotKey * N);
  mc_buf : Bytes;
  mc_rd_len : nat;
  mc_aborted : bool;
  mc_relations : list Oid;
}.

Definition capture_begin (m : ResultMemo) (key : MemoKey) (relation_oids : list Oid) : option MemoCapture :=
  if negb (memo_enabled m) then None
  else
    let slots := (SlotRelation <$> relation_oids) ++ [SlotMemo (mk_fingerprint key)] in
    match slots_stamp m slots with
    | None => None
    | Some stamped =>
        Some {| mc_key := key; mc_stamped := stamped; mc_buf := []; mc_rd_len := 0;
                mc_aborted := false; mc_relations := relation_oids |}
    end.

Definition capture_append (data : Bytes) (c : MemoCapture) : MemoCapture :=
  if mc_aborted c then c
  else if (MAX_MEMO_ENTRY_BYTES <? length (mc_buf c) + length data)%nat then
    {| mc_key := mc_key c; mc_stamped := mc_stamped c; mc_buf := []; mc_rd_len := mc_rd_len c;
       mc_aborted := true; mc_relations := mc_relations c |}
  else
    {| mc_key := mc_key c; mc_stamped := mc_stamped c; mc_buf := mc_buf c ++ data;
       mc_rd_len := mc_rd_len c; mc_aborted := false; mc_relations := mc_relations c |}.

Definition row_description_push (data : Bytes) (c : MemoCapture) : MemoCapture :=
  let c := capture_append data c in
  if negb (mc_aborted c) then
    {| mc_key := mc_key c; mc_stamped := mc_stamped c; mc_buf := mc_buf c;
       mc_rd_len := length (mc_buf c); mc_aborted := mc_aborted c; mc_relations := mc_relations c |}
  else c.

Definition data_push (data : Bytes) (c : MemoCapture) : MemoCapture := capture_append data c.
Definition command_complete_push (data : Bytes) (c : MemoCapture) : MemoCapture := capture_append data c.

Definition is_memo_slot (s : SlotKey * N) : bool := match s.1 with SlotMemo _ => true | _ => false end.

Definition capture_finish (c : MemoCapture) (m : ResultMemo) : bool * ResultMemo :=
  if mc_aborted c || negb (slots_valid m (mc_stamped c)) then (false, m)
  else
    memo_insert (mc_key c)
      {| me_core := mc_buf c; me_rd_len := mc_rd_len c;
         me_stamped := List.filter is_memo_slot (mc_stamped c); me_relations := mc_relations c |} m.

(** ** The writer's bracket *)

Definition memo_frame_accumulate (m : ResultMemo) (relation_oid : Oid) (candidates : list Fingerprint)
    (evictions : gset Fingerprint) : gset Fingerprint :=
  if memo_is_empty m then evictions
  else candidates_memoized_into m relation_oid candidates evictions.

Definition memo_bracket_begin (relation_oids : gset Oid) (evictions : gset Fingerprint)
    (m : ResultMemo) : bool * ResultMemo :=
  let memo_active := negb (memo_is_empty m) in
  let m := if memo_active then
             fold_left (fun m oid => slot_dirty_begin (SlotRelation oid) m) (elements relation_oids) m
           else m in
  (memo_active, fold_left (fun m fp => slot_dirty_begin (SlotMemo fp) m) (elements evictions) m).

Definition memo_bracket_end (memo_active : bool) (relation_oids : gset Oid) (evictions : gset Fingerprint)
    (m : ResultMemo) : ResultMemo :=
  let m := if memo_active then
             fold_left (fun m oid => slot_dirty_end (SlotRelation oid) m) (elements relation_oids) m
           else m in
  fold_left (fun m fp => slot_dirty_end (SlotMemo fp) m) (elements evictions) m.

(** An evicted query's memo is made stale at once. *)
Definition memo_evict_bump (fp : Fingerprint) (m : ResultMemo) : ResultMemo :=
  slot_dirty_end (SlotMemo fp) (slot_dirty_begin (SlotMemo fp) m).

(** ** Accounts *)

Definition msum (f : MemoKey -> MemoEntry -> nat) (m : gmap MemoKey MemoEntry) : nat :=
  sum_list ((fun e => f e.1 e.2) <$> map_to_list m).

Lemma sum_list_perm (l k : list nat) : l ≡ₚ k -> sum_list l = sum_list k.
Proof. induction 1; simpl; lia. Qed.

Lemma msum_insert f m k e : m !! k = None -> msum f (<[k := e]> m) = f k e + msum f m.
Proof.
  intros H. unfold msum. rewrite (sum_list_perm _ _ (fmap_Permutation _ _ _ (map_to_list_insert m k e H))).
  done.
Qed.

Lemma msum_delete f m k e : m !! k = Some e -> msum f m = f k e + msum f (delete k m).
Proof.
  intros H. rewrite <- (insert_delete_id m k e H) at 1. by rewrite msum_insert by apply lookup_delete_eq.
Qed.

Lemma msum_replace f m k e :
  msum f (<[k := e]> m) + default 0 (f k <$> m !! k) = f k e + msum f m.
Proof.
  destruct (m !! k) as [p|] eqn:E; simpl.
  - rewrite <- insert_delete_eq, msum_insert by apply lookup_delete_eq.
    rewrite (msum_delete f m k p E). lia.
  - rewrite msum_insert by done. lia.
Qed.

Definition occurrences (oid : Oid) (l : list Oid) : nat := length (List.filter (N.eqb oid) l).

(** How often live entries of [fp] read [oid]. *)
Definition reads_of (oid : Oid) (fp : Fingerprint) (k : MemoKey) (e : MemoEntry) : nat :=
  if decide (mk_fingerprint k = fp) then occurrences oid (me_relations e) else 0.

Definition refcount (r : gmap Oid (gmap Fingerprint nat)) (oid : Oid) (fp : Fingerprint) : nat :=
  default 0 (default ∅ (r !! oid) !! fp).

(** No empty bucket and no zero count is stored. *)
Definition relations_tight (r : gmap Oid (gmap Fingerprint nat)) : Prop :=
  forall oid inner, r !! oid = Some inner -> inner <> ∅ /\ forall fp n, inner !! fp = Some n -> n <> 0.

Record memo_ok (m : ResultMemo) : Prop := {
  mo_total : rm_total m = msum (fun _ e => entry_size e) (rm_entries m);
  mo_cap : forall k e, rm_entries m !! k = Some e -> entry_size e <= MAX_MEMO_ENTRY_BYTES;
  mo_tight : relations_tight (rm_relations m);
  mo_count : forall oid fp, refcount (rm_relations m) oid fp = msum (reads_of oid fp) (rm_entries m);
}.

Lemma rel_incr_one_spec fp oid r oid' fp' :
  refcount (rel_incr_one fp oid r) oid' fp' =
  refcount r oid' fp' + (if decide (oid = oid' /\ fp = fp') then 1 else 0).
Proof.
  unfold rel_incr_one, refcount. destruct (decide (oid = oid')) as [<-|Hne].
  - rewrite lookup_insert_eq. simpl. destruct (decide (fp = fp')) as [<-|Hf].
    + rewrite lookup_insert_eq, decide_True by done. simpl. lia.
    + rewrite lookup_insert_ne, decide_False by naive_solver. lia.
  - rewrite lookup_insert_ne, decide_False by naive_solver. lia.
Qed.

Lemma rel_incr_one_tight fp oid r : relations_tight r -> relations_tight (rel_incr_one fp oid r).
Proof.
  intros H o inner. unfold rel_incr_one. intros [[-> <-]|[_ E]]%lookup_insert_Some; [|by apply (H o inner)].
  split; [apply insert_non_empty|]. intros f n [[_ <-]|[_ E]]%lookup_insert_Some; [lia|].
  destruct (r !! o) as [i|] eqn:Ei; simpl in E; [by apply (proj2 (H o i Ei) f)|by rewrite lookup_empty in E].
Qed.

Lemma rel_decr_one_spec fp oid r oid' fp' :
  refcount (rel_decr_one fp oid r) oid' fp' =
  refcount r oid' fp' - (if decide (oid = oid' /\ fp = fp') then 1 else 0).
Proof.
  unfold rel_decr_one. destruct (r !! oid) as [inner|] eqn:E.
  2: { destruct (decide (oid = oid' /\ fp = fp')) as [[<- <-]|]; [|lia]. unfold refcount. by rewrite E. }
  set (inner' := match inner !! fp with Some _ => _ | None => _ end).
  assert (Hi : forall f, default 0 (inner' !! f) =
    default 0 (inner !! f) - (if decide (fp = f) then 1 else 0)).
  { intros f. subst inner'. destruct (inner !! fp) as [n|] eqn:En.
    - destruct (Nat.eqb_spec (n - 1) 0); destruct (decide (fp = f)) as [<-|];
        rewrite ?lookup_delete_eq, ?lookup_delete_ne, ?lookup_insert_eq, ?lookup_insert_ne by done;
        rewrite ?En; simpl; lia.
    - destruct (decide (fp = f)) as [<-|]; rewrite ?En; simpl; lia. }
  clearbody inner'. unfold refcount. destruct (decide (oid = oid')) as [<-|Hne].
  - rewrite E. simpl. case_bool_decide as Hb.
    + rewrite lookup_delete_eq. simpl. specialize (Hi fp'). rewrite Hb, lookup_empty in Hi. simpl in Hi.
      rewrite lookup_empty. simpl. destruct (decide (fp = fp')) as [<-|];
        [rewrite decide_True by done|rewrite decide_False by naive_solver]; lia.
    + rewrite lookup_insert_eq. simpl. rewrite Hi. destruct (decide (fp = fp')) as [<-|];
        [rewrite decide_True by done|rewrite decide_False by naive_solver]; lia.
  - rewrite decide_False by naive_solver. rewrite Nat.sub_0_r.
    case_bool_decide; by rewrite ?lookup_delete_ne, ?lookup_insert_ne.
Qed.

Lemma rel_decr_one_tight fp oid r : relations_tight r -> relations_tight (rel_decr_one fp oid r).
Proof.
  intros H. unfold rel_decr_one. destruct (r !! oid) as [inner|] eqn:E; [|done].
  case_bool_decide as Hb; intros o i; [intros [_ Ei]%lookup_delete_Some; by apply (H o i)|].
  intros [[-> <-]|[_ Ei]]%lookup_insert_Some; [|by apply (H o i)]. split; [done|]. intros f n Hf.
  destruct (H _ _ E) as [_ Hz]. destruct (inner !! fp) as [c|] eqn:Ec; [|by apply (Hz f)].
  destruct (Nat.eqb_spec (c - 1) 0).
  - apply lookup_delete_Some in Hf as [_ Hf]. by apply (Hz f).
  - apply lookup_insert_Some in Hf as [[_ <-]|[_ Hf]]; [done|]. by apply (Hz f).
Qed.

Lemma oid_occurrences_cons oid o l : occurrences oid (o :: l) = (if decide (o = oid) then 1 else 0) + occurrences oid l.
Proof.
  unfold occurrences. simpl. destruct (N.eqb_spec oid o); destruct (decide (o = oid)); subst; simpl; done.
Qed.

Lemma rel_incr_spec relations fp m oid fp' :
  refcount (rm_relations (rel_incr relations fp m)) oid fp' =
  refcount (rm_relations m) oid fp' + (if decide (fp = fp') then occurrences oid relations else 0).
Proof.
  unfold rel_incr. simpl. generalize (rm_relations m). induction relations as [|o l IH]; intros r; simpl.
  { destruct (decide _); simpl; unfold occurrences; simpl; lia. }
  rewrite IH, rel_incr_one_spec. destruct (decide (fp = fp')) as [<-|].
  - rewrite oid_occurrences_cons. destruct (decide (o = oid)) as [->|];
      [rewrite decide_True by done|rewrite decide_False by naive_solver]; lia.
  - rewrite decide_False by naive_solver. lia.
Qed.

Lemma rel_decr_spec relations fp m oid fp' :
  refcount (rm_relations (rel_decr relations fp m)) oid fp' =
  refcount (rm_relations m) oid fp' - (if decide (fp = fp') then occurrences oid relations else 0).
Proof.
  unfold rel_decr. simpl. generalize (rm_relations m). induction relations as [|o l IH]; intros r; simpl.
  { destruct (decide _); unfold occurrences; simpl; lia. }
  rewrite IH, rel_decr_one_spec. destruct (decide (fp = fp')) as [<-|].
  - rewrite oid_occurrences_cons. destruct (decide (o = oid)) as [->|];
      [rewrite decide_True by done|rewrite decide_False by naive_solver]; lia.
  - rewrite decide_False by naive_solver. lia.
Qed.

Lemma rel_incr_tight relations fp m :
  relations_tight (rm_relations m) -> relations_tight (rm_relations (rel_incr relations fp m)).
Proof.
  unfold rel_incr. simpl. generalize (rm_relations m). induction relations as [|o l IH]; intros r; simpl; [done|].
  intros H. by apply IH, rel_incr_one_tight.
Qed.

Lemma rel_decr_tight relations fp m :
  relations_tight (rm_relations m) -> relations_tight (rm_relations (rel_decr relations fp m)).
Proof.
  unfold rel_decr. simpl. generalize (rm_relations m). induction relations as [|o l IH]; intros r; simpl; [done|].
  intros H. by apply IH, rel_decr_one_tight.
Qed.

Lemma memo_remove_ok key m : memo_ok m -> memo_ok (memo_remove key m).
Proof.
  intros [H1 H2 H3 H4]. unfold memo_remove. destruct (rm_entries m !! key) as [e|] eqn:E; [|by split].
  split.
  - simpl. rewrite H1, (msum_delete _ _ _ _ E). lia.
  - simpl. intros k e' [_ E']%lookup_delete_Some. by apply (H2 k).
  - by apply rel_decr_tight.
  - intros oid fp. rewrite rel_decr_spec. simpl. rewrite H4, (msum_delete _ _ _ _ E).
    unfold reads_of at 1. destruct (decide _); lia.
Qed.

Lemma memo_insert_store_ok key e m :
  entry_size e <= MAX_MEMO_ENTRY_BYTES -> memo_ok m -> memo_ok (memo_insert_store key e m).
Proof.
  intros Ec [H1 H2 H3 H4]. unfold memo_insert_store. cbv zeta.
  change (rm_entries (rel_incr (me_relations e) (mk_fingerprint key) m)) with (rm_entries m).
  pose proof (msum_replace (fun _ x => entry_size x) (rm_entries m) key e) as Ht.
  assert (Hr : forall oid fp, msum (reads_of oid fp) (<[key:=e]> (rm_entries m)) +
      default 0 (reads_of oid fp key <$> rm_entries m !! key) =
      reads_of oid fp key e + msum (reads_of oid fp) (rm_entries m)) by (intros; apply msum_replace).
  destruct (rm_entries m !! key) as [p|] eqn:E; simpl in Ht, Hr.
  - split.
    + simpl. pose proof (msum_delete (fun _ x => entry_size x) _ _ _ E). lia.
    + simpl. intros k e' [[_ <-]|[_ E']]%lookup_insert_Some; [done|by apply (H2 k)].
    + apply (rel_decr_tight (me_relations p) (mk_fingerprint key)). by apply rel_incr_tight.
    + intros oid fp. etrans; [apply (rel_decr_spec (me_relations p) (mk_fingerprint key))|].
      etrans; [apply f_equal2; [apply (rel_incr_spec (me_relations e))|reflexivity]|].
      rewrite H4. specialize (Hr oid fp). unfold reads_of in Hr at 2 3. simpl.
      destruct (decide (mk_fingerprint key = fp)); lia.
  - split.
    + simpl. lia.
    + simpl. intros k e' [[_ <-]|[_ E']]%lookup_insert_Some; [done|by apply (H2 k)].
    + by apply rel_incr_tight.
    + intros oid fp. etrans; [apply (rel_incr_spec (me_relations e))|]. rewrite H4. specialize (Hr oid fp).
      unfold reads_of in Hr at 2. simpl. destruct (decide (mk_fingerprint key = fp)); lia.
Qed.

(** What an admitted insertion was checked for. *)
Lemma memo_insert_admitted key e m :
  memo_insert_admits key e m = true ->
  entry_size e <= MAX_MEMO_ENTRY_BYTES /\
  rm_total m - default 0 (entry_size <$> rm_entries m !! key) + entry_size e <= rm_budget m.
Proof.
  unfold memo_insert_admits. destruct (_ || _) eqn:Eb; [done|].
  apply orb_false_iff in Eb as [_ Ec%Nat.ltb_ge]. intros Hb%negb_true_iff%Nat.ltb_ge. done.
Qed.

Lemma memo_insert_ok key e m : memo_ok m -> memo_ok (memo_insert key e m).2.
Proof.
  intros H. unfold memo_insert. destruct (memo_insert_admits key e m) eqn:E; [|done].
  apply memo_insert_store_ok; [by eapply memo_insert_admitted|done].
Qed.

Lemma msum_pos f m : 0 < msum f m <-> exists k e, m !! k = Some e /\ 0 < f k e.
Proof.
  unfold msum. setoid_rewrite <- elem_of_map_to_list. induction (map_to_list m) as [|[k e] l IH]; csimpl.
  - split; [intros; lia|]. intros (k & e & H & _). by apply elem_of_nil in H.
  - split.
    + intros H. destruct (decide (0 < f k e)) as [Hf|Hf]; [exists k, e; split; [set_solver|done]|].
      destruct (proj1 IH) as (k' & e' & Hin & Hf'); [lia|]. exists k', e'. split; [set_solver|done].
    + intros (k' & e' & [[= <- <-]|Hin]%elem_of_cons & Hf); [lia|].
      assert (0 < sum_list ((fun x => f x.1 x.2) <$> l)); [|csimpl; lia]. apply IH. by exists k', e'.
Qed.

Lemma occurrences_pos oid l : 0 < occurrences oid l <-> oid ∈ l.
Proof.
  induction l as [|o l IH]; [unfold occurrences; simpl; set_solver by lia|]. rewrite oid_occurrences_cons, elem_of_cons.
  destruct (decide (o = oid)); naive_solver lia.
Qed.

Lemma memoized_over_spec m oid fp :
  memo_ok m -> memoized_over m oid fp = true <->
  exists k e, rm_entries m !! k = Some e /\ mk_fingerprint k = fp /\ oid ∈ me_relations e.
Proof.
  intros [_ _ H3 H4]. trans (0 < refcount (rm_relations m) oid fp).
  - unfold memoized_over, refcount. destruct (rm_relations m !! oid) as [inner|] eqn:E; simpl.
    + rewrite bool_decide_eq_true. destruct (inner !! fp) as [n|] eqn:En; simpl.
      * pose proof (proj2 (H3 _ _ E) _ _ En). split; [intros _; lia|by eauto].
      * split; [by intros []|intros; lia].
    + rewrite lookup_empty. simpl. split; [done|intros; lia].
  - rewrite H4, msum_pos. unfold reads_of. split.
    + intros (k & e & E & Hp). exists k, e. destruct (decide _); [|lia]. by rewrite <- occurrences_pos.
    + intros (k & e & E & Hf & Hin). exists k, e. split; [done|]. rewrite decide_True by done.
      by rewrite occurrences_pos.
Qed.

(** Two insertions may pass the check before either is stored: [OpStore] is the second
    half of an insertion that was checked against an earlier state.  [OpBudget] is a
    change of the configured size. *)
Inductive MemoOp :=
| OpInsert (key : MemoKey) (e : MemoEntry)
| OpStore (key : MemoKey) (e : MemoEntry)
| OpFinish (c : MemoCapture)
| OpGet (key : MemoKey)
| OpRemove (key : MemoKey)
| OpGc
| OpBegin (slot : SlotKey)
| OpEnd (slot : SlotKey)
| OpBudget (budget : nat).

Definition budget_set (budget : nat) (m : ResultMemo) : ResultMemo :=
  {| rm_entries := rm_entries m; rm_slots := rm_slots m; rm_relations := rm_relations m;
     rm_total := rm_total m; rm_gc_pending := rm_gc_pending m; rm_budget := budget |}.

Definition memo_apply (m : ResultMemo) (op : MemoOp) : ResultMemo :=
  match op with
  | OpInsert key e => (memo_insert key e m).2
  | OpStore key e =>
      if (entry_size e <=? MAX_MEMO_ENTRY_BYTES)%nat then memo_insert_store key e m else m
  | OpFinish c => (capture_finish c m).2
  | OpGet key => (memo_get key m).2
  | OpRemove key => memo_remove key m
  | OpGc => memo_gc m
  | OpBegin slot => slot_dirty_begin slot m
  | OpEnd slot => slot_dirty_end slot m
  | OpBudget budget => budget_set budget m
  end.

(** The largest budget of a history, and the insertions stored after a check that
    other insertions have overtaken. *)
Definition op_budget (op : MemoOp) : nat := match op with OpBudget b => b | _ => 0 end.
Definition op_late (op : MemoOp) : nat := match op with OpStore _ _ => 1 | _ => 0 end.
Definition largest_budget (budget : nat) (ops : list MemoOp) : nat :=
  foldr max budget (op_budget <$> ops).
Definition late_stores (ops : list MemoOp) : nat := sum_list_with op_late ops.

#[local] Opaque MAX_MEMO_ENTRY_BYTES.

(** The accounts are exact, and the total is within [cap]. *)
Definition memo_within (cap : nat) (m : ResultMemo) : Prop := memo_ok m /\ rm_total m <= cap.

Lemma memo_store_total key e m :
  rm_total (memo_insert_store key e m) =
  rm_total m - default 0 (entry_size <$> rm_entries m !! key) + entry_size e.
Proof. unfold memo_insert_store. simpl. by destruct (rm_entries m !! key); simpl; lia. Qed.

(** An accepted insertion leaves the total within the budget of the moment. *)
Lemma memo_insert_total key e m :
  (memo_insert key e m).1 = true -> rm_total (memo_insert key e m).2 <= rm_budget m.
Proof.
  unfold memo_insert. destruct (memo_insert_admits key e m) eqn:E; [|done]. intros _. cbn [snd].
  rewrite memo_store_total. by apply memo_insert_admitted.
Qed.

Lemma memo_insert_within cap key e m :
  rm_budget m <= cap -> memo_within cap m -> memo_within cap (memo_insert key e m).2.
Proof.
  intros Hb [H Ht]. split; [by apply memo_insert_ok|].
  pose proof (memo_insert_total key e m) as Hi. revert Hi. unfold memo_insert.
  destruct (memo_insert_admits key e m); simpl; [|done]. intros Hi. specialize (Hi eq_refl). lia.
Qed.

Lemma memo_gc_ind (P : ResultMemo -> Prop) m :
  P m -> (forall m g, P m -> P {| rm_entries := rm_entries m; rm_slots := rm_slots m;
    rm_relations := rm_relations m; rm_total := rm_total m; rm_gc_pending := g; rm_budget := rm_budget m |}) ->
  (forall k m, P m -> P (memo_remove k m)) -> P (memo_gc m).
Proof.
  intros H Hg Hr. unfold memo_gc. destruct (negb _); [done|]. cbv zeta.
  match goal with |- P (fold_left _ ?l _) => generalize l end. intros l. apply (Hg m false) in H. revert H.
  match goal with |- P ?x -> _ => generalize x end. induction l as [|e l IH]; intros x Hx; simpl; [done|].
  by apply IH, Hr.
Qed.

Lemma memo_same_within cap x y :
  rm_entries y = rm_entries x -> rm_relations y = rm_relations x -> rm_total y = rm_total x ->
  memo_within cap x -> memo_within cap y.
Proof.
  intros E1 E2 E3 [[A1 A2 A3 A4] Ht]. split; [|lia]. split; rewrite ?E1, ?E2, ?E3; done.
Qed.

Lemma memo_remove_within cap key m : memo_within cap m -> memo_within cap (memo_remove key m).
Proof.
  intros [H Ht]. split; [by apply memo_remove_ok|].
  unfold memo_remove. destruct (rm_entries m !! key); simpl; lia.
Qed.

Lemma memo_apply_within cap op m :
  rm_budget m <= cap -> memo_within cap m ->
  memo_within (cap + op_late op * MAX_MEMO_ENTRY_BYTES) (memo_apply m op) /\
  rm_budget (memo_apply m op) <= max (rm_budget m) (op_budget op).
Proof.
  intros Hb H.
  assert (Hwk : forall x n, memo_within cap x -> memo_within (cap + n) x)
    by (intros x n [? ?]; split; [done|lia]).
  assert (Hrem : forall k x, rm_budget (memo_remove k x) = rm_budget x)
    by (intros; unfold memo_remove; by destruct (rm_entries _ !! _)).
  assert (Hins : forall k e x, rm_budget (memo_insert k e x).2 = rm_budget x).
  { intros k e x. unfold memo_insert. destruct (memo_insert_admits k e x); [|done].
    unfold memo_insert_store. simpl. by destruct (rm_entries x !! k). }
  destruct op as [k e|k e|c|k|k| |slot|slot|b]; simpl.
  - split; [by apply Hwk, memo_insert_within|]. rewrite Hins. lia.
  - destruct (Nat.leb_spec (entry_size e) MAX_MEMO_ENTRY_BYTES); [|by split; [apply Hwk|lia]].
    split; [split|].
    + apply memo_insert_store_ok; [done|apply H].
    + rewrite memo_store_total. destruct H. lia.
    + unfold memo_insert_store. simpl. destruct (rm_entries m !! k); simpl; lia.
  - unfold capture_finish. destruct (mc_aborted c || _); [by split; [apply Hwk|simpl; lia]|].
    split; [by apply Hwk, memo_insert_within|]. rewrite Hins. lia.
  - unfold memo_get. destruct (rm_entries m !! k); [|by split; [apply Hwk|simpl; lia]].
    destruct (slots_valid _ _); [by split; [apply Hwk|simpl; lia]|].
    split; [by apply Hwk, memo_remove_within|]. simpl. rewrite Hrem. lia.
  - split; [by apply Hwk, memo_remove_within|]. rewrite Hrem. lia.
  - split.
    + apply Hwk, (memo_gc_ind (memo_within cap)); [done| |intros; by apply memo_remove_within].
      intros x g. by apply memo_same_within.
    + apply (memo_gc_ind (fun x => rm_budget x <= max (rm_budget m) 0)); [lia|done|].
      intros. by rewrite Hrem.
  - split; [by apply Hwk, (memo_same_within cap m)|simpl; lia].
  - split; [by apply Hwk, (memo_same_within cap m)|simpl; lia].
  - split; [by apply Hwk, (memo_same_within cap m)|simpl; lia].
Qed.

Lemma memo_run_within ops : forall top late m,
  rm_budget m <= top -> memo_within (top + late * MAX_MEMO_ENTRY_BYTES) m ->
  memo_within (largest_budget top ops + (late + late_stores ops) * MAX_MEMO_ENTRY_BYTES)
    (fold_left memo_apply ops m).
Proof.
  induction ops as [|op ops IH]; intros top late m Hb H; [by rewrite Nat.add_0_r|].
  destruct (memo_apply_within _ op m (Nat.le_trans _ _ _ Hb (Nat.le_add_r _ _)) H) as [[Hok Ht] Hb'].
  cbn [fold_left].
  destruct (IH (max top (op_budget op)) (late + op_late op) (memo_apply m op)) as [Hok' Ht'];
    [lia|split; [done|lia]|].
  split; [done|]. etrans; [exact Ht'|].
  assert (Hm : largest_budget (max top (op_budget op)) ops <= largest_budget top (op :: ops)).
  { unfold largest_budget. rewrite fmap_cons. cbn [foldr]. generalize (op_budget op). clear.
    intros n. induction (op_budget <$> ops) as [|b l IH]; cbn [foldr]; lia. }
  unfold late_stores in *. simpl in *. nia.
Qed.

Lemma memo_new_within budget : memo_within budget (memo_new budget).
Proof. split; [|simpl; lia]. split; done. Qed.

(** C21: the memo's accounts are exact.  After any sequence of insertions, captures,
    lookups, sweeps, removals, slot bumps and changes of the budget, insertions that
    were checked before others were stored included, the byte total is the sum of the
    stored sizes, no entry exceeds the per-entry cap, and a fingerprint is a member of a
    relation exactly when one of its stored results reads it, so the CDC probe misses no
    entry.  The budget is a soft cap: the total is at most the largest budget of the
    history and one full entry for every insertion stored on an overtaken check, and an
    insertion accepted in one piece leaves it within the budget of that moment. *)
Theorem memo_accounting budget ops :
  let m := fold_left memo_apply ops (memo_new budget) in
  rm_total m = msum (fun _ e => entry_size e) (rm_entries m) /\
  rm_total m <= largest_budget budget ops + late_stores ops * MAX_MEMO_ENTRY_BYTES /\
  (forall key e, (memo_insert key e m).1 = true -> rm_total (memo_insert key e m).2 <= rm_budget m) /\
  (forall k e, rm_entries m !! k = Some e -> entry_size e <= MAX_MEMO_ENTRY_BYTES) /\
  forall oid fp, memoized_over m oid fp = true <->
    exists k e, rm_entries m !! k = Some e /\ mk_fingerprint k = fp /\ oid ∈ me_relations e.
Proof.
  intros m. destruct (memo_run_within ops budget 0 (memo_new budget)) as [H Ht];
    [done|rewrite Nat.add_0_r; apply memo_new_within|].
  split; [apply H|]. split; [done|]. split; [intros; by apply memo_insert_total|].
  split; [apply H|]. intros oid fp. by apply memoized_over_spec.
Qed.

(** ** Slot versions *)

Definition bump_all {A} (f : A -> SlotKey) (g : ResultMemo -> bool) (l : list A) (m : ResultMemo) : ResultMemo :=
  fold_left (fun m a => slot_bump (f a) (g m) m) l m.

Lemma slot_bump_version slot g m s :
  slot_version (slot_bump slot g m) s = (slot_version m s + if decide (slot = s) then 1 else 0)%N.
Proof.
  unfold slot_version at 1. simpl. destruct (decide (slot = s)) as [->|];
    [by rewrite lookup_insert_eq|rewrite lookup_insert_ne by done; by rewrite N.add_0_r].
Qed.

Lemma bump_all_version {A} (f : A -> SlotKey) `{!Inj (=) (=) f} g l m s :
  NoDup l ->
  (slot_version (bump_all f g l m) s = slot_version m s /\ (forall a, a ∈ l -> f a <> s)) \/
  (slot_version (bump_all f g l m) s = slot_version m s + 1 /\ exists a, a ∈ l /\ f a = s)%N.
Proof.
  intros Hnd. revert m. induction Hnd as [|a l Ha Hnd IH]; intros m; simpl; [left; set_solver|].
  destruct (IH (slot_bump (f a) (g m) m)) as [[E Hn]|[E (b & Hb & Eb)]];
    rewrite E, slot_bump_version; destruct (decide (f a = s)) as [Es|Hs].
  - right. split; [done|]. exists a. set_solver.
  - left. split; [lia|]. set_solver.
  - destruct Ha. replace a with b; [done|]. apply (inj f). congruence.
  - right. split; [lia|]. exists b. set_solver.
Qed.

Lemma bump_all_fields {A} (f : A -> SlotKey) g l m :
  rm_entries (bump_all f g l m) = rm_entries m /\ rm_relations (bump_all f g l m) = rm_relations m /\
  rm_total (bump_all f g l m) = rm_total m.
Proof. revert m. induction l as [|a l IH]; intros m; simpl; [done|]. destruct (IH (slot_bump (f a) (g m) m)) as (-> & -> & ->). done. Qed.

#[global] Instance slot_memo_inj : Inj (=) (=) SlotMemo.
Proof. by intros ?? [= ->]. Qed.
#[global] Instance slot_relation_inj : Inj (=) (=) SlotRelation.
Proof. by intros ?? [= ->]. Qed.

(** The slots of a bracket: those of its relations when it is active, and its evictions. *)
Definition bracketed (active : bool) (relations : gset Oid) (evictions : gset Fingerprint) (s : SlotKey) : Prop :=
  match s with
  | SlotRelation oid => active = true /\ oid ∈ relations
  | SlotMemo fp => fp ∈ evictions
  | _ => False
  end.

Definition bump_bracket (gr gm : ResultMemo -> bool) (active : bool) (relations : gset Oid)
    (evictions : gset Fingerprint) (m : ResultMemo) : ResultMemo :=
  bump_all SlotMemo gm (elements evictions)
    (if active then bump_all SlotRelation gr (elements relations) m else m).

Lemma bump_bracket_version gr gm active relations evictions m s :
  (slot_version (bump_bracket gr gm active relations evictions m) s = slot_version m s /\
     ~ bracketed active relations evictions s) \/
  (slot_version (bump_bracket gr gm active relations evictions m) s = slot_version m s + 1 /\
     bracketed active relations evictions s)%N.
Proof.
  unfold bump_bracket. set (m1 := if active then _ else m).
  assert (H1 : (slot_version m1 s = slot_version m s /\ ~ (active = true /\ exists o, o ∈ relations /\ SlotRelation o = s)) \/
    (slot_version m1 s = slot_version m s + 1 /\ active = true /\ exists o, o ∈ relations /\ SlotRelation o = s)%N).
  { subst m1. destruct active; [|left; naive_solver].
    destruct (bump_all_version SlotRelation gr (elements relations) m s (NoDup_elements _)) as [[E H]|[E (o & Ho & Es)]].
    - left. split; [done|]. intros (_ & o & Ho & Es). apply (H o); [by apply elem_of_elements|done].
    - right. split; [done|]. split; [done|]. exists o. by rewrite elem_of_elements in Ho. }
  destruct (bump_all_version SlotMemo gm (elements evictions) m1 s (NoDup_elements _)) as [[E H]|[E (f & Hf & Es)]].
  - rewrite E. destruct H1 as [[E1 H1]|[E1 H1]]; [left|right]; (split; [done|]).
    + destruct s; simpl; try tauto.
      * intros Hin. apply (H fingerprint); [by apply elem_of_elements|done].
      * intros [-> Ho]. apply H1. split; [done|]. by exists oid.
    + destruct H1 as (-> & o & Ho & <-). done.
  - rewrite E. right. subst s. rewrite elem_of_elements in Hf. split; [|done].
    destruct H1 as [[-> _]|[_ (_ & o & _ & [=])]]. done.
Qed.

Lemma bump_bracket_fields gr gm active relations evictions m :
  rm_entries (bump_bracket gr gm active relations evictions m) = rm_entries m /\
  rm_relations (bump_bracket gr gm active relations evictions m) = rm_relations m /\
  rm_total (bump_bracket gr gm active relations evictions m) = rm_total m.
Proof.
  unfold bump_bracket. destruct (bump_all_fields SlotMemo gm (elements evictions)
    (if active then bump_all SlotRelation gr (elements relations) m else m)) as (-> & -> & ->).
  destruct active; [apply bump_all_fields|done].
Qed.

Lemma memo_bracket_begin_bump relations evictions m :
  memo_bracket_begin relations evictions m =
  (negb (memo_is_empty m),
   bump_bracket (fun _ => true) (fun _ => true) (negb (memo_is_empty m)) relations evictions m).
Proof. done. Qed.

Lemma memo_bracket_end_bump active relations evictions m :
  memo_bracket_end active relations evictions m =
  bump_bracket rm_gc_pending rm_gc_pending active relations evictions m.
Proof. done. Qed.

(** ** Captures, lookups and frames together *)

(** The messages of a response: its row description when there is one, its data frames and
    the command completion. *)
Definition Response : Type := option Bytes * list Bytes * Bytes.

Definition core_of (r : Response) : Bytes :=
  let '(rd, rows, cc) := r in default [] rd ++ concat rows ++ cc.
Definition rd_len_of (r : Response) : nat := let '(rd, _, _) := r in length (default [] rd).

Definition capture_feed (r : Response) (c : MemoCapture) : MemoCapture :=
  let '(rd, rows, cc) := r in
  let c := match rd with Some rd => row_description_push rd c | None => c end in
  command_complete_push cc (fold_left (fun c row => data_push row c) rows c).

Section fresh_memo.

(** The committed state of the cache tables, the response of a memoized query on it, and the
    relations a query reads. *)
Context {DB : Type} (result : MemoKey -> DB -> Response) (reads : Fingerprint -> list Oid).

(** A frame: the relations it touches, its rows with the candidates of their probe, and its
    effect. *)
Record Frame := {
  fm_relations : gset Oid;
  fm_rows : list (Oid * list Fingerprint);
  fm_apply : DB -> DB;
}.

Inductive Phase :=
| PIdle
| PReplay (f : Frame) (rest : list (Oid * list Fingerprint)) (evictions : gset Fingerprint)
| PBegun (f : Frame) (active : bool) (evictions : gset Fingerprint)
| PCommitted (f : Frame) (active : bool) (evictions : gset Fingerprint).

(** A capture is in flight from [begin] to [finish]; the flag tells that its query has run. *)
Record MemoSys := {
  y_memo : ResultMemo;
  y_db : DB;
  y_phase : Phase;
  y_captures : list (MemoCapture * bool);
}.

Inductive MemoLabel :=
| YBegin (key : MemoKey)
| YQuery (i : nat)
| YFinish (i : nat)
| YGet (key : MemoKey)
| YGc
| YEvict (fp : Fingerprint)
| YFrame (f : Frame)
| YRow
| YBracket
| YCommit
| YEnd.

Definition y_set_memo (m : ResultMemo) (s : MemoSys) : MemoSys :=
  {| y_memo := m; y_db := y_db s; y_phase := y_phase s; y_captures := y_captures s |}.
Definition y_set_phase (p : Phase) (s : MemoSys) : MemoSys :=
  {| y_memo := y_memo s; y_db := y_db s; y_phase := p; y_captures := y_captures s |}.

Definition memo_step (l : MemoLabel) (s : MemoSys) : option MemoSys :=
  match l with
  | YBegin key =>
      match capture_begin (y_memo s) key (reads (mk_fingerprint key)) with
      | None => Some s
      | Some c => Some {| y_memo := y_memo s; y_db := y_db s; y_phase := y_phase s;
                          y_captures := (c, false) :: y_captures s |}
      end
  | YQuery i =>
      match y_captures s !! i with
      | Some (c, false) =>
          Some {| y_memo := y_memo s; y_db := y_db s; y_phase := y_phase s;
                  y_captures := <[i := (capture_feed (result (mc_key c) (y_db s)) c, true)]> (y_captures s) |}
      | _ => None
      end
  | YFinish i =>
      match y_captures s !! i with
      | Some (c, true) =>
          Some {| y_memo := (capture_finish c (y_memo s)).2; y_db := y_db s; y_phase := y_phase s;
                  y_captures := delete i (y_captures s) |}
      | _ => None
      end
  | YGet key => Some (y_set_memo (memo_get key (y_memo s)).2 s)
  | YGc => Some (y_set_memo (memo_gc (y_memo s)) s)
  | YEvict fp => Some (y_set_memo (memo_evict_bump fp (y_memo s)) s)
  | YFrame f =>
      match y_phase s with PIdle => Some (y_set_phase (PReplay f (fm_rows f) ∅) s) | _ => None end
  | YRow =>
      match y_phase s with
      | PReplay f ((oid, candidates) :: rest) ev =>
          Some (y_set_phase (PReplay f rest (memo_frame_accumulate (y_memo s) oid candidates ev)) s)
      | _ => None
      end
  | YBracket =>
      match y_phase s with
      | PReplay f [] ev =>
          let '(active, m) := memo_bracket_begin (fm_relations f) ev (y_memo s) in
          Some (y_set_phase (PBegun f active ev) (y_set_memo m s))
      | _ => None
      end
  | YCommit =>
      match y_phase s with
      | PBegun f active ev =>
          Some {| y_memo := y_memo s; y_db := fm_apply f (y_db s); y_phase := PCommitted f active ev;
                  y_captures := y_captures s |}
      | _ => None
      end
  | YEnd =>
      match y_phase s with
      | PCommitted f active ev =>
          Some (y_set_phase PIdle (y_set_memo (memo_bracket_end active (fm_relations f) ev (y_memo s)) s))
      | _ => None
      end
  end.

(** A query none of the frame's rows is a candidate of. *)
Definition unaffected (f : Frame) (fp : Fingerprint) : Prop :=
  forall oid candidates, (oid, candidates) ∈ fm_rows f -> oid ∈ reads fp -> fp ∉ candidates.

(** The probe is complete: the frame changes no response of a query that is not a candidate,
    and its rows are of the relations it touches. *)
Definition frame_complete (f : Frame) (db : DB) : Prop :=
  (forall key, unaffected f (mk_fingerprint key) -> result key (fm_apply f db) = result key db) /\
  forall oid candidates, (oid, candidates) ∈ fm_rows f -> oid ∈ fm_relations f.

(** The histories the freshness theorem is about: frames are complete, no capture finishes
    between the replay of a frame and its bracket, and none is in flight across a bracket
    that found the store empty. *)
Definition quiet (l : MemoLabel) (s : MemoSys) : Prop :=
  match l with
  | YFrame f => frame_complete f (y_db s)
  | YFinish _ => match y_phase s with PReplay _ _ _ => False | _ => True end
  | YBegin _ => match y_phase s with PBegun _ false _ | PCommitted _ false _ => False | _ => True end
  | YBracket => memo_is_empty (y_memo s) = false \/ y_captures s = []
  | _ => True
  end.

Inductive quiet_reach (s0 : MemoSys) : MemoSys -> Prop :=
| QrStart : quiet_reach s0 s0
| QrStep l s s' : quiet_reach s0 s -> quiet l s -> memo_step l s = Some s' -> quiet_reach s0 s'.

(** ** The invariant *)

Definition stamped_le (m : ResultMemo) (stamped : list (SlotKey * N)) : Prop :=
  forall slot v, (slot, v) ∈ stamped -> (v <= slot_version m slot)%N.

Definition entry_inv (s : MemoSys) (k : MemoKey) (e : MemoEntry) : Prop :=
  (exists v, me_stamped e = [(SlotMemo (mk_fingerprint k), v)]) /\ stamped_le (y_memo s) (me_stamped e) /\
  me_relations e = reads (mk_fingerprint k) /\
  (slots_valid (y_memo s) (me_stamped e) = true ->
     me_core e = core_of (result k (y_db s)) /\ me_rd_len e = rd_len_of (result k (y_db s))).

Definition capture_slots (k : MemoKey) : list SlotKey :=
  (SlotRelation <$> reads (mk_fingerprint k)) ++ [SlotMemo (mk_fingerprint k)].

Definition capture_inv (s : MemoSys) (c : MemoCapture) (queried : bool) : Prop :=
  (mc_stamped c).*1 = capture_slots (mc_key c) /\ stamped_le (y_memo s) (mc_stamped c) /\
  mc_relations c = reads (mk_fingerprint (mc_key c)) /\
  (if queried then
     mc_aborted c = false -> slots_valid (y_memo s) (mc_stamped c) = true ->
       mc_buf c = core_of (result (mc_key c) (y_db s)) /\ mc_rd_len c = rd_len_of (result (mc_key c) (y_db s))
   else mc_buf c = [] /\ mc_rd_len c = 0 /\ mc_aborted c = false).

(** What the phase says: before the bracket every stored query a replayed row is a candidate
    of will be evicted; inside it nothing valid depends on the frame. *)
Definition phase_inv (s : MemoSys) : Prop :=
  match y_phase s with
  | PIdle => True
  | PReplay f rest ev =>
      frame_complete f (y_db s) /\ exists done, fm_rows f = done ++ rest /\
      forall k e oid candidates, rm_entries (y_memo s) !! k = Some e -> (oid, candidates) ∈ done ->
        oid ∈ reads (mk_fingerprint k) -> mk_fingerprint k ∈ candidates -> mk_fingerprint k ∈ ev
  | PBegun f active _ =>
      frame_complete f (y_db s) /\ (active = false -> y_captures s = []) /\
      (forall k e, rm_entries (y_memo s) !! k = Some e -> slots_valid (y_memo s) (me_stamped e) = true ->
         unaffected f (mk_fingerprint k)) /\
      forall c q, (c, q) ∈ y_captures s -> slots_valid (y_memo s) (mc_stamped c) = true ->
        unaffected f (mk_fingerprint (mc_key c))
  | PCommitted f active _ => active = false -> y_captures s = []
  end.

(** A relation slot is odd exactly inside an active bracket of its relation. *)
Definition slot_open (p : Phase) (oid : Oid) : Prop :=
  match p with
  | PBegun f active _ | PCommitted f active _ => active = true /\ oid ∈ fm_relations f
  | _ => False
  end.

Record memo_inv (s : MemoSys) : Prop := {
  mi_memo : memo_ok (y_memo s);
  mi_entries : forall k e, rm_entries (y_memo s) !! k = Some e -> entry_inv s k e;
  mi_captures : forall c q, (c, q) ∈ y_captures s -> capture_inv s c q;
  mi_parity : forall oid, N.even (slot_version (y_memo s) (SlotRelation oid)) = true <-> ~ slot_open (y_phase s) oid;
  mi_phase : phase_inv s;
}.

Lemma slots_valid_spec m st :
  slots_valid m st = true <-> forall slot v, (slot, v) ∈ st -> slot_version m slot = v.
Proof.
  unfold slots_valid. rewrite forallb_elem. split.
  - intros H slot v Hin. specialize (H _ Hin). by apply N.eqb_eq in H.
  - intros H [slot v] Hin. apply N.eqb_eq. by apply H.
Qed.

(** Versions only grow: what is valid later was valid before, and its slots stood still. *)
Lemma grow_valid m m' st :
  (forall slot, slot_version m slot <= slot_version m' slot)%N -> stamped_le m st ->
  stamped_le m' st /\ (slots_valid m' st = true -> slots_valid m st = true /\
    forall slot, slot ∈ st.*1 -> slot_version m' slot = slot_version m slot).
Proof.
  intros Hg Hle. split; [intros slot v Hin; specialize (Hle _ _ Hin); specialize (Hg slot); lia|].
  rewrite !slots_valid_spec. intros Hv. split.
  - intros slot v Hin. specialize (Hle _ _ Hin). specialize (Hv _ _ Hin). specialize (Hg slot). lia.
  - intros slot ([slot' v] & -> & Hin)%list_elem_of_fmap. simpl. specialize (Hle _ _ Hin).
    specialize (Hv _ _ Hin). specialize (Hg slot'). lia.
Qed.

Lemma append_spec data c :
  mc_aborted (capture_append data c) = false ->
  mc_aborted c = false /\ mc_buf (capture_append data c) = mc_buf c ++ data.
Proof.
  unfold capture_append. destruct (mc_aborted c) eqn:E; [congruence|].
  by destruct (MAX_MEMO_ENTRY_BYTES <? _)%nat.
Qed.

Lemma append_fields data c :
  mc_key (capture_append data c) = mc_key c /\ mc_stamped (capture_append data c) = mc_stamped c /\
  mc_relations (capture_append data c) = mc_relations c /\ mc_rd_len (capture_append data c) = mc_rd_len c.
Proof.
  unfold capture_append. destruct (mc_aborted c); [done|]. by destruct (MAX_MEMO_ENTRY_BYTES <? _)%nat.
Qed.

Lemma data_pushes_spec rows c :
  let c' := fold_left (fun c row => data_push row c) rows c in
  mc_key c' = mc_key c /\ mc_stamped c' = mc_stamped c /\ mc_relations c' = mc_relations c /\
  mc_rd_len c' = mc_rd_len c /\
  (mc_aborted c' = false -> mc_aborted c = false /\ mc_buf c' = mc_buf c ++ concat rows).
Proof.
  revert c. induction rows as [|row rows IH]; intros c; simpl; [by rewrite app_nil_r|].
  destruct (IH (data_push row c)) as (-> & -> & -> & -> & H).
  unfold data_push in *. destruct (append_fields row c) as (-> & -> & -> & ->). split_and!; try done.
  intros Ha. destruct (H Ha) as [Ha' ->]. destruct (append_spec _ _ Ha') as [-> ->]. by rewrite app_assoc.
Qed.

(** What a capture holds after the frames of a response, unless it was aborted. *)
Lemma capture_feed_spec r c :
  mc_buf c = [] -> mc_rd_len c = 0 -> mc_aborted c = false ->
  let c' := capture_feed r c in
  mc_key c' = mc_key c /\ mc_stamped c' = mc_stamped c /\ mc_relations c' = mc_relations c /\
  (mc_aborted c' = false -> mc_buf c' = core_of r /\ mc_rd_len c' = rd_len_of r).
Proof.
  intros Hb Hr Ha. destruct r as [[rd rows] cc]. unfold capture_feed, command_complete_push.
  set (c1 := match rd with Some rd => row_description_push rd c | None => c end).
  assert (H1 : mc_key c1 = mc_key c /\ mc_stamped c1 = mc_stamped c /\ mc_relations c1 = mc_relations c /\
    (mc_aborted c1 = false -> mc_buf c1 = default [] rd /\ mc_rd_len c1 = length (default [] rd))).
  { subst c1. destruct rd as [rd|]; [|done]. unfold row_description_push.
    destruct (append_fields rd c) as (E1 & E2 & E3 & E4). pose proof (append_spec rd c) as Hs.
    destruct (mc_aborted (capture_append rd c)) eqn:E; simpl; [by rewrite E1, E2, E3, E|].
    destruct (Hs eq_refl) as [_ E5]. rewrite E1, E2, E3, E5, Hb. done. }
  clearbody c1. destruct H1 as (K1 & K2 & K3 & K4).
  destruct (data_pushes_spec rows c1) as (D1 & D2 & D3 & D4 & D5).
  set (c2 := fold_left _ rows c1) in *. clearbody c2.
  destruct (append_fields cc c2) as (-> & -> & -> & E4). cbv zeta. split_and!; try congruence.
  intros Hf. destruct (append_spec _ _ Hf) as [Ha2 ->]. destruct (D5 Ha2) as [Ha1 ->].
  destruct (K4 Ha1) as [-> Hl]. split; [by rewrite <- app_assoc|]. rewrite E4, D4. done.
Qed.

Lemma slots_stamp_spec m slots st :
  slots_stamp m slots = Some st ->
  st.*1 = slots /\ forall slot v, (slot, v) ∈ st -> slot_version m slot = v /\ N.even v = true.
Proof.
  revert st. induction slots as [|slot slots IH]; intros st; simpl; [intros [= <-]; split; [done|set_solver]|].
  destruct (N.even (slot_version m slot)) eqn:E; [|done]. destruct (slots_stamp m slots) as [st'|]; [|done].
  intros [= <-]. destruct (IH st' eq_refl) as [H1 H2]. split; [csimpl; by rewrite H1|].
  intros s v [[= -> ->]|Hin]%elem_of_cons; [done|by apply H2].
Qed.

(** Steps that only move slot versions. *)
Lemma grow_entry s m' p k e :
  (forall slot, slot_version (y_memo s) slot <= slot_version m' slot)%N ->
  entry_inv s k e -> entry_inv (y_set_phase p (y_set_memo m' s)) k e.
Proof.
  intros Hg (H1 & H2 & H3 & H4). destruct (grow_valid _ _ _ Hg H2) as [H2' Hv].
  split; [done|]. split; [done|]. split; [done|]. intros Hval. by apply H4, Hv.
Qed.

Lemma grow_capture s m' p c q :
  (forall slot, slot_version (y_memo s) slot <= slot_version m' slot)%N ->
  capture_inv s c q -> capture_inv (y_set_phase p (y_set_memo m' s)) c q.
Proof.
  intros Hg (H1 & H2 & H3 & H4). destruct (grow_valid _ _ _ Hg H2) as [H2' Hv].
  split; [done|]. split; [done|]. split; [done|]. destruct q; [|done].
  intros Ha Hval. by apply H4, Hv.
Qed.

Lemma memo_ok_same m m' :
  rm_entries m' = rm_entries m -> rm_relations m' = rm_relations m -> rm_total m' = rm_total m ->
  memo_ok m -> memo_ok m'.
Proof. intros E1 E2 E3 [A1 A2 A3 A4]. split; rewrite ?E1, ?E2, ?E3; done. Qed.

(** ** The steps preserve it *)

Lemma evict_inv fp s : memo_inv s -> memo_inv (y_set_memo (memo_evict_bump fp (y_memo s)) s).
Proof.
  intros [H1 H2 H3 H4 H5]. set (m' := memo_evict_bump fp (y_memo s)).
  assert (Hg : forall slot, (slot_version (y_memo s) slot <= slot_version m' slot)%N).
  { intros slot. subst m'. unfold memo_evict_bump, slot_dirty_end, slot_dirty_begin.
    rewrite !slot_bump_version. lia. }
  assert (Hv : forall st, stamped_le (y_memo s) st -> slots_valid m' st = true -> slots_valid (y_memo s) st = true).
  { intros st Hle Hval. by apply (grow_valid _ _ _ Hg Hle). }
  split.
  - by apply (memo_ok_same (y_memo s)).
  - intros k e E. by apply (grow_entry s m' (y_phase s)), H2.
  - intros c q Hin. by apply (grow_capture s m' (y_phase s)), H3.
  - intros oid. simpl. subst m'. unfold memo_evict_bump, slot_dirty_end, slot_dirty_begin.
    rewrite !slot_bump_version, !decide_False by done. rewrite !N.add_0_r. apply H4.
  - unfold phase_inv in *. simpl. destruct (y_phase s); try done.
    destruct H5 as (A1 & A2 & A3 & A4). split; [done|]. split; [done|]. split.
    + intros k e E Hval. apply (A3 k e E), Hv; [by apply (H2 k e E)|done].
    + intros c q Hin Hval. apply (A4 c q Hin), Hv; [by apply (H3 c q Hin)|done].
Qed.

(** Steps that only drop entries. *)
Record shrinks (m m' : ResultMemo) : Prop := {
  sk_ok : memo_ok m -> memo_ok m';
  sk_slots : rm_slots m' = rm_slots m;
  sk_entries : forall k e, rm_entries m' !! k = Some e -> rm_entries m !! k = Some e;
}.

Lemma shrinks_remove k m m' : shrinks m m' -> shrinks m (memo_remove k m').
Proof.
  intros [H1 H2 H3]. split.
  - intros H. by apply memo_remove_ok, H1.
  - unfold memo_remove. by destruct (rm_entries m' !! k).
  - unfold memo_remove. destruct (rm_entries m' !! k) eqn:E; [|done]. simpl.
    intros k' e' [_ E']%lookup_delete_Some. by apply H3.
Qed.

Lemma shrinks_refl m : shrinks m m.
Proof. by split. Qed.

Lemma shrinks_inv m' s : shrinks (y_memo s) m' -> memo_inv s -> memo_inv (y_set_memo m' s).
Proof.
  intros [S1 S2 S3] [H1 H2 H3 H4 H5].
  assert (Hv : forall slot, slot_version m' slot = slot_version (y_memo s) slot).
  { intros slot. unfold slot_version. by rewrite S2. }
  assert (Hval : forall st, slots_valid m' st = slots_valid (y_memo s) st).
  { intros st. apply eq_true_iff_eq. rewrite !slots_valid_spec. by setoid_rewrite Hv. }
  split.
  - by apply S1.
  - intros k e E%S3. destruct (H2 k e E) as (A1 & A2 & A3 & A4). split; [done|].
    split; [intros slot v; simpl; rewrite Hv; apply A2|]. split; [done|]. simpl. by rewrite Hval.
  - intros c q Hin. destruct (H3 c q Hin) as (A1 & A2 & A3 & A4). split; [done|].
    split; [intros slot v; simpl; rewrite Hv; apply A2|]. split; [done|].
    destruct q; [|done]. simpl. by rewrite Hval.
  - intros oid. simpl. rewrite Hv. apply H4.
  - unfold phase_inv in *. simpl. destruct (y_phase s); try done.
    + destruct H5 as (A1 & d & A2 & A3). split; [done|]. exists d. split; [done|].
      intros k e oid cs E%S3. by apply (A3 k e).
    + destruct H5 as (A1 & A2 & A3 & A4). split_and!; try done.
      * intros k e E%S3. rewrite Hval. by apply A3.
      * intros c q Hin. rewrite Hval. by apply (A4 c q).
Qed.

Lemma begin_inv key c s :
  capture_begin (y_memo s) key (reads (mk_fingerprint key)) = Some c -> quiet (YBegin key) s ->
  memo_inv s ->
  memo_inv {| y_memo := y_memo s; y_db := y_db s; y_phase := y_phase s; y_captures := (c, false) :: y_captures s |}.
Proof.
  intros Hc Hq [H1 H2 H3 H4 H5]. unfold capture_begin in Hc. destruct (negb _); [done|].
  destruct (slots_stamp _ _) as [st|] eqn:Es; [|done]. injection Hc as <-.
  apply slots_stamp_spec in Es as [Es1 Es2]. split; try done; simpl.
  - intros c q [[= -> ->]|Hin]%elem_of_cons; [|by apply H3]. split; [done|].
    split; [intros slot v Hin; apply Es2 in Hin as [<- _]; done|]. done.
  - unfold phase_inv in *. simpl. destruct (y_phase s) as [|f r ev|f active ev|f active ev] eqn:Ep; try done.
    + destruct H5 as (A1 & A2 & A3 & A4). simpl in Hq. rewrite Ep in Hq. destruct active; [|done].
      split_and!; try done. intros c q [[= -> ->]|Hin]%elem_of_cons; [|by apply (A4 c q)].
      intros _ oid cs Hrow Hr. exfalso. simpl in Hr.
      assert (Hin : SlotRelation oid ∈ st.*1).
      { rewrite Es1. apply elem_of_app. left. by apply list_elem_of_fmap_2. }
      apply list_elem_of_fmap in Hin as ([slot v] & Eslot & Hin). simpl in Eslot. subst slot.
      apply Es2 in Hin as [<- Heven]. apply H4 in Heven. apply Heven. simpl. split; [done|].
      by apply (proj2 A1 oid cs).
    + simpl in Hq. rewrite Ep in Hq. by destruct active.
Qed.

Lemma query_inv i c s :
  y_captures s !! i = Some (c, false) -> memo_inv s ->
  memo_inv {| y_memo := y_memo s; y_db := y_db s; y_phase := y_phase s;
              y_captures := <[i := (capture_feed (result (mc_key c) (y_db s)) c, true)]> (y_captures s) |}.
Proof.
  intros Hi [H1 H2 H3 H4 H5].
  pose proof (list_elem_of_lookup_2 _ _ _ Hi) as Hin. destruct (H3 c false Hin) as (A1 & A2 & A3 & B1 & B2 & B3).
  destruct (capture_feed_spec (result (mc_key c) (y_db s)) c B1 B2 B3) as (F1 & F2 & F3 & F4).
  set (c' := capture_feed _ c) in *. clearbody c'.
  assert (Hsub : forall x q, (x, q) ∈ <[i:=(c', true)]> (y_captures s) -> (x, q) = (c', true) \/ (x, q) ∈ y_captures s).
  { intros x q (j & Hj)%list_elem_of_lookup. apply list_lookup_insert_Some in Hj as [(_ & <- & _)|[_ Hj]]; [by left|].
    right. by eapply list_elem_of_lookup_2. }
  split; try done; simpl.
  - intros x q [[= -> ->]|Hx]%Hsub; [|by apply H3]. unfold capture_inv. simpl. rewrite F1, F2, F3.
    split_and!; try done. intros Ha _. by apply F4.
  - unfold phase_inv in *. simpl. destruct (y_phase s) as [|f r ev|f active ev|f active ev]; try done.
    + destruct H5 as (P1 & P2 & P3 & P4). split_and!; try done.
      * intros Hf. by rewrite (P2 Hf) in Hi.
      * intros x q [[= -> ->]|Hx]%Hsub; [|by apply (P4 x q)]. rewrite F1, F2. by apply (P4 c false).
    + intros Hf. by rewrite (H5 Hf) in Hi.
Qed.

Lemma insert_fields key e m :
  let m' := (memo_insert key e m).2 in
  rm_slots m' = rm_slots m /\
  (rm_entries m' = rm_entries m \/ rm_entries m' = <[key := e]> (rm_entries m)).
Proof.
  unfold memo_insert. destruct (memo_insert_admits key e m); [|auto].
  unfold memo_insert_store. simpl. destruct (rm_entries m !! key); simpl; auto.
Qed.

Lemma memo_slot_filter k st :
  st.*1 = capture_slots k -> exists v, List.filter is_memo_slot st = [(SlotMemo (mk_fingerprint k), v)] /\
    (SlotMemo (mk_fingerprint k), v) ∈ st.
Proof.
  unfold capture_slots. generalize (reads (mk_fingerprint k)). revert st.
  intros st l. revert st. induction l as [|o l IH]; intros st; csimpl.
  - destruct st as [|[s v] [|]]; try done. csimpl. intros [= ->]. exists v. split; [done|set_solver].
  - destruct st as [|[s v] st]; [done|]. csimpl. intros [= -> E]. destruct (IH st E) as (v' & Hf & Hin).
    exists v'. split; [done|set_solver].
Qed.

Lemma finish_inv i c s :
  y_captures s !! i = Some (c, true) -> quiet (YFinish i) s -> memo_inv s ->
  memo_inv {| y_memo := (capture_finish c (y_memo s)).2; y_db := y_db s; y_phase := y_phase s;
              y_captures := delete i (y_captures s) |}.
Proof.
  intros Hi Hq [H1 H2 H3 H4 H5].
  pose proof (list_elem_of_lookup_2 _ _ _ Hi) as Hin. destruct (H3 c true Hin) as (A1 & A2 & A3 & A4).
  assert (Hsub : forall x q, (x, q) ∈ delete i (y_captures s) -> (x, q) ∈ y_captures s).
  { intros x q Hx. apply (delete_Permutation _ _ _) in Hi. rewrite Hi. set_solver. }
  assert (Hdel : y_captures s = [] -> delete i (y_captures s) = []) by (intros E; by rewrite E in Hi).
  unfold capture_finish. destruct (mc_aborted c || negb (slots_valid (y_memo s) (mc_stamped c))) eqn:Ef.
  { split; try done; simpl; [intros x q Hx; by apply H3, Hsub|].
    unfold phase_inv in *. simpl. destruct (y_phase s); try done; [|by auto].
    destruct H5 as (P1 & P2 & P3 & P4). split_and!; auto. intros x q Hx. apply (P4 x q), Hsub, Hx. }
  apply orb_false_iff in Ef as [Ha Hval%negb_false_iff].
  destruct (memo_slot_filter _ _ A1) as (v & Hf & Hvin). rewrite Hf.
  match goal with |- context [memo_insert _ ?e _] => set (e0 := e) end.
  pose proof (memo_insert_ok (mc_key c) e0 (y_memo s) H1) as Hok.
  destruct (insert_fields (mc_key c) e0 (y_memo s)) as [Hs He].
  set (m' := (memo_insert _ _ _).2) in *. clearbody m'.
  assert (Hv : forall slot, slot_version m' slot = slot_version (y_memo s) slot).
  { intros slot. unfold slot_version. by rewrite Hs. }
  assert (Hvl : forall st, slots_valid m' st = slots_valid (y_memo s) st).
  { intros st. apply eq_true_iff_eq. rewrite !slots_valid_spec. by setoid_rewrite Hv. }
  assert (Hent : forall k e, rm_entries m' !! k = Some e -> (k = mc_key c /\ e = e0) \/ rm_entries (y_memo s) !! k = Some e).
  { intros k e E. destruct He as [He|He]; rewrite He in E; [by right|].
    apply lookup_insert_Some in E as [[<- <-]|[_ E]]; [by left|by right]. }
  split; simpl.
  - done.
  - intros k e [[-> ->]|E]%Hent.
    + split; [by exists v|]. split; [|split; [done|]].
      * intros slot w [[= -> ->]|Hn]%elem_of_cons; [|by apply elem_of_nil in Hn]. simpl. rewrite Hv. by apply A2.
      * intros _. by apply A4.
    + destruct (H2 k e E) as (B1 & B2 & B3 & B4). split; [done|].
      split; [intros slot w; simpl; rewrite Hv; apply B2|]. split; [done|]. simpl. by rewrite Hvl.
  - intros x q Hx%Hsub. destruct (H3 x q Hx) as (B1 & B2 & B3 & B4). split; [done|].
    split; [intros slot w; simpl; rewrite Hv; apply B2|]. split; [done|]. destruct q; [|done]. simpl. by rewrite Hvl.
  - intros oid. rewrite Hv. apply H4.
  - unfold phase_inv in *. simpl in *. destruct (y_phase s) as [|f r ev|f active ev|f active ev]; try done; [|by auto].
    destruct H5 as (P1 & P2 & P3 & P4). split_and!; auto.
    + intros k e [[-> ->]|E]%Hent; rewrite Hvl; [|by apply P3]. intros _. by apply (P4 c true).
    + intros x q Hx. rewrite Hvl. apply (P4 x q), Hsub, Hx.
Qed.

Lemma row_inv f oid candidates rest ev s :
  y_phase s = PReplay f ((oid, candidates) :: rest) ev -> memo_inv s ->
  memo_inv (y_set_phase (PReplay f rest (memo_frame_accumulate (y_memo s) oid candidates ev)) s).
Proof.
  intros Hp [H1 H2 H3 H4 H5]. split; try done.
  - intros o. simpl. rewrite H4, Hp. done.
  - unfold phase_inv in *. rewrite Hp in H5. simpl. destruct H5 as (A1 & d & A2 & A3). split; [done|].
    exists (d ++ [(oid, candidates)]). split; [by rewrite <- app_assoc|].
    unfold memo_frame_accumulate, memo_is_empty. case_bool_decide as Hempty.
    { intros k e o cs E. by rewrite Hempty, lookup_empty in E. }
    intros k e o cs E [Hd|Hn]%elem_of_app Hr Hc; unfold candidates_memoized_into; apply elem_of_union.
    + right. by apply (A3 k e o cs).
    + left. apply list_elem_of_singleton in Hn as [= -> ->].
      apply elem_of_list_to_set, filter_elem. split; [done|].
      apply memoized_over_spec; [done|]. exists k, e. split_and!; try done.
      by destruct (H2 k e E) as (_ & _ & -> & _).
Qed.

Lemma bracket_inv f ev s :
  y_phase s = PReplay f [] ev -> quiet YBracket s -> memo_inv s ->
  memo_inv (y_set_phase (PBegun f (negb (memo_is_empty (y_memo s))) ev)
    (y_set_memo (memo_bracket_begin (fm_relations f) ev (y_memo s)).2 s)).
Proof.
  intros Hp Hq [H1 H2 H3 H4 H5]. rewrite memo_bracket_begin_bump. simpl.
  set (active := negb (memo_is_empty (y_memo s))). set (m' := bump_bracket _ _ _ _ _ _).
  assert (Hver : forall slot, (slot_version m' slot = slot_version (y_memo s) slot /\ ~ bracketed active (fm_relations f) ev slot) \/
    (slot_version m' slot = slot_version (y_memo s) slot + 1 /\ bracketed active (fm_relations f) ev slot)%N)
    by (intros slot; apply bump_bracket_version).
  assert (Hg : forall slot, (slot_version (y_memo s) slot <= slot_version m' slot)%N)
    by (intros slot; destruct (Hver slot) as [[-> _]|[-> _]]; lia).
  assert (Hstill : forall st slot, stamped_le (y_memo s) st -> slots_valid m' st = true -> slot ∈ st.*1 ->
    ~ bracketed active (fm_relations f) ev slot).
  { intros st slot Hle Hval Hin. destruct (grow_valid _ _ _ Hg Hle) as [_ Hgv].
    destruct (Hgv Hval) as [_ He]. specialize (He slot Hin). destruct (Hver slot) as [[_ ?]|[E _]]; [done|lia]. }
  destruct (bump_bracket_fields (fun _ => true) (fun _ => true) active (fm_relations f) ev (y_memo s)) as (E1 & E2 & E3).
  fold m' in E1, E2, E3. unfold phase_inv in H5. rewrite Hp in H5. destruct H5 as (A1 & d & A2 & A3).
  rewrite app_nil_r in A2.
  split.
  - by apply (memo_ok_same (y_memo s)).
  - intros k e E. simpl in E. rewrite E1 in E. by apply grow_entry, H2.
  - intros c q Hin. by apply grow_capture, H3.
  - intros oid. simpl. specialize (H4 oid). rewrite Hp in H4. simpl in H4.
    destruct (Hver (SlotRelation oid)) as [[-> Hn]|[-> Hb]]; simpl in *.
    + tauto.
    + assert (Hev : N.even (slot_version (y_memo s) (SlotRelation oid)) = true) by (apply H4; tauto).
      rewrite N.even_add, Hev. simpl. split; [done|]. intros Hx. by destruct Hx.
  - unfold phase_inv. simpl. split; [done|]. split; [|split].
    + intros Hf. simpl in Hq. destruct Hq as [Hq|Hq]; [|done]. subst active. by rewrite Hq in Hf.
    + intros k e E Hval. rewrite E1 in E. destruct (H2 k e E) as ((v & Est) & B2 & B3 & _).
      intros oid cs Hrow Hr Hc. apply (Hstill _ (SlotMemo (mk_fingerprint k)) B2 Hval); [rewrite Est; set_solver|].
      simpl. rewrite A2 in Hrow. by apply (A3 k e oid cs).
    + intros c q Hin Hval. destruct (H3 c q Hin) as (B1 & B2 & B3 & _). intros oid cs Hrow Hr _.
      apply (Hstill _ (SlotRelation oid) B2 Hval).
      * rewrite B1. apply elem_of_app. left. by apply list_elem_of_fmap_2.
      * simpl. split; [|by apply (proj2 A1 oid cs)]. subst active. simpl in Hq.
        destruct Hq as [->|Hq]; [done|]. rewrite Hq in Hin. by apply elem_of_nil in Hin.
Qed.

Lemma commit_inv f active ev s :
  y_phase s = PBegun f active ev -> memo_inv s ->
  memo_inv {| y_memo := y_memo s; y_db := fm_apply f (y_db s); y_phase := PCommitted f active ev;
              y_captures := y_captures s |}.
Proof.
  intros Hp [H1 H2 H3 H4 H5]. unfold phase_inv in H5. rewrite Hp in H5. destruct H5 as ([A1 _] & A2 & A3 & A4).
  split; try done; simpl.
  - intros k e E. destruct (H2 k e E) as (B1 & B2 & B3 & B4). split_and!; try done. simpl.
    intros Hval. rewrite A1; [by apply B4|by apply (A3 k e)].
  - intros c q Hin. destruct (H3 c q Hin) as (B1 & B2 & B3 & B4). split_and!; try done. destruct q; [|done].
    simpl. intros Ha Hval. rewrite A1; [by apply B4|by apply (A4 c true)].
  - intros oid. rewrite H4, Hp. done.
Qed.

Lemma end_inv f active ev s :
  y_phase s = PCommitted f active ev -> memo_inv s ->
  memo_inv (y_set_phase PIdle (y_set_memo (memo_bracket_end active (fm_relations f) ev (y_memo s)) s)).
Proof.
  intros Hp [H1 H2 H3 H4 H5]. rewrite memo_bracket_end_bump. set (m' := bump_bracket _ _ _ _ _ _).
  assert (Hver : forall slot, (slot_version m' slot = slot_version (y_memo s) slot /\ ~ bracketed active (fm_relations f) ev slot) \/
    (slot_version m' slot = slot_version (y_memo s) slot + 1 /\ bracketed active (fm_relations f) ev slot)%N)
    by (intros slot; apply bump_bracket_version).
  assert (Hg : forall slot, (slot_version (y_memo s) slot <= slot_version m' slot)%N)
    by (intros slot; destruct (Hver slot) as [[-> _]|[-> _]]; lia).
  destruct (bump_bracket_fields rm_gc_pending rm_gc_pending active (fm_relations f) ev (y_memo s)) as (E1 & E2 & E3).
  fold m' in E1, E2, E3. split.
  - by apply (memo_ok_same (y_memo s)).
  - intros k e E. simpl in E. rewrite E1 in E. by apply grow_entry, H2.
  - intros c q Hin. by apply grow_capture, H3.
  - intros oid. simpl. specialize (H4 oid). rewrite Hp in H4. simpl in H4.
    destruct (Hver (SlotRelation oid)) as [[-> Hn]|[-> Hb]]; simpl in *.
    + tauto.
    + rewrite N.even_add. destruct (N.even (slot_version (y_memo s) (SlotRelation oid))); simpl; [|tauto].
      by apply H4 in Hb.
  - done.
Qed.

Lemma memo_step_inv l s s' : memo_step l s = Some s' -> quiet l s -> memo_inv s -> memo_inv s'.
Proof.
  intros Hs Hq H. destruct l as [key|i|i|key| |fp|f| | | |]; cbn [memo_step] in Hs.
  - destruct (capture_begin _ _ _) as [c|] eqn:Ec; [|by injection Hs as <-].
    injection Hs as <-. by apply (begin_inv key).
  - destruct (y_captures s !! i) as [[c []]|] eqn:Ei; try done. injection Hs as <-. by apply query_inv.
  - destruct (y_captures s !! i) as [[c []]|] eqn:Ei; try done. injection Hs as <-. by apply (finish_inv i c).
  - injection Hs as <-. apply shrinks_inv; [|done]. unfold memo_get.
    destruct (rm_entries (y_memo s) !! key); [|apply shrinks_refl].
    destruct (slots_valid _ _); [apply shrinks_refl|]. apply shrinks_remove, shrinks_refl.
  - injection Hs as <-. apply shrinks_inv; [|done].
    apply (memo_gc_ind (shrinks (y_memo s))); [apply shrinks_refl| |intros k m; apply shrinks_remove].
    intros m g [S1 S2 S3]. split; [|done|done]. intros Hok. by apply (memo_ok_same m); auto.
  - injection Hs as <-. by apply evict_inv.
  - destruct (y_phase s) eqn:Ep; try done. injection Hs as <-. destruct H as [H1 H2 H3 H4 H5]. split; try done.
    + intros oid. simpl. rewrite H4, Ep. done.
    + unfold phase_inv. simpl. split; [done|]. exists []. split; [done|]. set_solver.
  - destruct (y_phase s) as [|f [|[oid cs] rest] ev| |] eqn:Ep; try done. injection Hs as <-. by apply row_inv.
  - destruct (y_phase s) as [|f [|] ev| |] eqn:Ep; try done. injection Hs as <-. by apply bracket_inv.
  - destruct (y_phase s) eqn:Ep; try done. injection Hs as <-. by apply commit_inv.
  - destruct (y_phase s) eqn:Ep; try done. injection Hs as <-. by apply end_inv.
Qed.

Definition memo_start (budget : nat) (db : DB) : MemoSys :=
  {| y_memo := memo_new budget; y_db := db; y_phase := PIdle; y_captures := [] |}.

Lemma quiet_reach_inv budget db s : quiet_reach (memo_start budget db) s -> memo_inv s.
Proof.
  induction 1 as [|l s s' _ IH Hq Hs]; [|by apply (memo_step_inv l s)].
  split; simpl; [apply memo_new_within| |set_solver| |done].
  - intros k e. by rewrite lookup_empty.
  - intros oid. unfold slot_version. simpl. rewrite lookup_empty. simpl. tauto.
Qed.

(** C20: a memo hit is fresh.  In every quiet history of captures, lookups, sweeps, evictions
    and CDC frames whose candidate probe is complete, a hit's bytes are exactly the response
    of its query on the committed state, and its row description is that response's. *)
Theorem memo_hit_fresh budget db s key hit :
  quiet_reach (memo_start budget db) s -> (memo_get key (y_memo s)).1 = Some hit ->
  mh_core hit = core_of (result key (y_db s)) /\ mh_rd_len hit = rd_len_of (result key (y_db s)).
Proof.
  intros Hr%quiet_reach_inv. unfold memo_get. destruct (rm_entries (y_memo s) !! key) as [e|] eqn:E; [|done].
  destruct (slots_valid _ _) eqn:Hv; [|done]. intros [= <-]. by apply (mi_entries _ Hr key e E).
Qed.

End fresh_memo.

Arguments YBegin {DB} key.
Arguments YQuery {DB} i.
Arguments YFinish {DB} i.
Arguments YGet {DB} key.
Arguments YRow {DB}.
Arguments YBracket {DB}.
Arguments YCommit {DB}.
Arguments YEnd {DB}.

Section runs.
Context {DB : Type} (result : MemoKey -> DB -> Response) (reads : Fingerprint -> list Oid).

Fixpoint memo_run (ls : list (MemoLabel (DB := DB))) (s : MemoSys (DB := DB)) : option MemoSys :=
  match ls with [] => Some s | l :: ls => memo_step result reads l s ≫= memo_run ls end.

Fixpoint quiet_run (ls : list (MemoLabel (DB := DB))) (s : MemoSys (DB := DB)) : Prop :=
  match ls with
  | [] => True
  | l :: ls => quiet result reads l s /\
      match memo_step result reads l s with Some s' => quiet_run ls s' | None => True end
  end.

Lemma quiet_run_reach s0 ls s s' :
  quiet_reach result reads s0 s -> quiet_run ls s -> memo_run ls s = Some s' ->
  quiet_reach result reads s0 s'.
Proof.
  revert s. induction ls as [|l ls IH]; intros s Hr Hq Hs; simpl in *; [by injection Hs as <-|].
  destruct Hq as [Hq Hqs]. destruct (memo_step result reads l s) as [s1|] eqn:E; [|done].
  apply (IH s1); [by apply (QrStep _ _ _ l s)|done|done].
Qed.
End runs.

Module MemoExamples.

(** One relation, two queries over it; the frame changes the response of the first. *)
Definition key1 : MemoKey :=
  {| mk_fingerprint := 1; mk_binary := false; mk_shape := {| sh_limit := None; sh_offset := None |} |}.
Definition key2 : MemoKey :=
  {| mk_fingerprint := 2; mk_binary := false; mk_shape := {| sh_limit := None; sh_offset := None |} |}.

Definition response (k : MemoKey) (db : bool) : Response :=
  (None, [if db && (mk_fingerprint k =? 1)%N then [x62] else [x61]], [x43]).
Definition relation_of (_ : Fingerprint) : list Oid := [9%N].

Definition update : Frame (DB := bool) :=
  {| fm_relations := {[ 9%N ]}; fm_rows := [(9%N, [1%N])]; fm_apply := fun _ => true |}.

Lemma update_complete db : frame_complete response relation_of update db.
Proof.
  split.
  - intros key Hu. unfold response. simpl. destruct (N.eqb_spec (mk_fingerprint key) 1) as [E|]; [|by rewrite !andb_false_r].
    exfalso. apply (Hu 9%N [1%N]); rewrite ?E; set_solver.
  - intros oid cs [= -> ->]%list_elem_of_singleton. by apply elem_of_singleton.
Qed.

Definition frame : list (MemoLabel (DB := bool)) := [YFrame update; YRow; YBracket; YCommit; YEnd].
Definition capture (k : MemoKey) : list (MemoLabel (DB := bool)) := [YBegin k; YQuery 0; YFinish 0].
Definition start : MemoSys (DB := bool) := memo_start 1000 false.

End MemoExamples.

Module MemoWitness.
Import MemoExamples.

(** One step of a concrete quiet run: its premise, then the next state evaluated. *)
Ltac quiet_steps :=
  repeat (split; [first [exact I | apply update_complete | by vm_compute | vm_compute; tauto]|];
    match goal with |- context [memo_step ?r ?d ?l ?s] =>
      let t := eval vm_compute in (memo_step r d l s) in
      change (memo_step r d l s) with t end; cbn iota beta);
  exact I.

Lemma memo_hit_fresh_witness :
  exists s hit, quiet_reach response relation_of start s /\ y_db s = true /\
    (memo_get key1 (y_memo s)).1 = Some hit /\ mh_core hit = core_of (response key1 (y_db s)) /\
    mh_rd_len hit = rd_len_of (response key1 (y_db s)).
Proof.
  assert (Hq : quiet_run response relation_of (capture key1 ++ frame ++ capture key1) start).
  { unfold capture, frame. cbn [app quiet_run]. quiet_steps. }
  eexists _, _. split; [eapply (quiet_run_reach _ _ _ _ _ _ (QrStart _ _ _) Hq); vm_compute; reflexivity|].
  split; [reflexivity|]. split; [vm_compute; reflexivity|].
  eapply (memo_hit_fresh response relation_of 1000 false).
  - eapply (quiet_run_reach _ _ _ _ _ _ (QrStart _ _ _) Hq). vm_compute. reflexivity.
  - vm_compute. reflexivity.
Defined.

End MemoWitness.

Module MemoGap.
Import MemoExamples.

#[local] Instance byte_dec : EqDecision Byte.byte := Byte.byte_eq_dec.

Definition stale (s : MemoSys (DB := bool)) : bool :=
  match (memo_get key1 (y_memo s)).1 with
  | Some hit => negb (bool_decide (mh_core hit = core_of (response key1 (y_db s))))
  | None => false
  end.

(** The bracket skips the relation slots while the store is empty, so a capture in flight
    across the commit is not dropped: its snapshot is stored and served. *)
Theorem empty_store_captures_stale :
  exists s, memo_run response relation_of ([YBegin key1; YQuery 0] ++ frame ++ [YFinish 0]) start = Some s /\
    stale s = true.
Proof. eexists. split; [vm_compute; reflexivity|]. by vm_compute. Qed.

(** The eviction set is collected while rows are replayed, before the bracket: an entry
    stored in between is in neither the set nor under a relation slot, and survives the
    commit with the old rows. *)
Theorem capture_between_replay_and_bracket_stale :
  exists s, memo_run response relation_of (capture key2 ++ [YBegin key1; YQuery 0; YFrame update; YRow;
      YFinish 0; YBracket; YCommit; YEnd]) start = Some s /\ stale s = true.
Proof. eexists. split; [vm_compute; reflexivity|]. by vm_compute. Qed.

End MemoGap.
