(* ===== verification/MvShape.v ===== *)
(** * Shapes and serve plans of materialized results

    Models cache/mv_shape.rs, the serve plan of cache/mv.rs, the limits of
    cache/writer/registration/resolve.rs, the first-build gate of cache/writer/mv_build.rs
    and the derived equality and column lookup of the resolved AST they use.  The SQL text
    of a plan is kept as its clauses.  The theorems: every shape the classifier gates has a
    serve plan, and what a plan reads from a materialized result is a valid answer to the
    query with its ORDER BY, LIMIT and OFFSET. *)
From Stdlib Require Import Sorted.
From S2P Require Import Prelude Value Ast Branches Egress Session Dispatch.

(** ** Derived equality of resolved expressions *)

Definition list_eqb {A} (f : A -> A -> bool) : list A -> list A -> bool :=
  fix go l1 l2 :=
    match l1, l2 with
    | [], [] => true
    | x :: l1, y :: l2 => f x y && go l1 l2
    | _, _ => false
    end.

Definition option_eqb {A} (f : A -> A -> bool) (a b : option A) : bool :=
  match a, b with
  | Some a, Some b => f a b
  | None, None => true
  | _, _ => false
  end.

#[export] Instance ArithmeticOp_eq_dec : EqDecision ArithmeticOp.
Proof. solve_decision. Defined.
#[export] Instance SubLinkType_eq_dec : EqDecision SubLinkType.
Proof. solve_decision. Defined.
#[export] Instance SubqueryKind_eq_dec' : EqDecision SubqueryKind.
Proof. solve_decision. Defined.
#[export] Instance JoinType_eq_dec' : EqDecision JoinType.
Proof. solve_decision. Defined.
#[export] Instance SetOpType_eq_dec : EqDecision SetOpType.
Proof. solve_decision. Defined.
#[export] Instance OrderDirection_eq_dec : EqDecision OrderDirection.
Proof. solve_decision. Defined.
#[export] Instance NullOrder_eq_dec : EqDecision NullOrder.
Proof. solve_decision. Defined.
#[export] Instance FrameMode_eq_dec : EqDecision FrameMode.
Proof. solve_decision. Defined.
#[export] Instance FrameExclusion_eq_dec : EqDecision FrameExclusion.
Proof. solve_decision. Defined.
#[export] Instance TableAlias_eq_dec : EqDecision TableAlias.
Proof. solve_decision. Defined.
#[export] Instance ResolvedTableNode_eq_dec : EqDecision ResolvedTableNode.
Proof. solve_decision. Defined.

(** The [PartialEq] the resolved types derive; columns compare without their alias. *)
Fixpoint scalar_eqb (a b : ResolvedScalarExpr) {struct a} : bool :=
  match a, b with
  | SColumn c, SColumn d => resolved_column_eqb c d
  | SIdentifier m, SIdentifier n => bool_decide (m = n)
  | SFunction f, SFunction g => function_eqb f g
  | SLiteral v, SLiteral w => bool_decide (v = w)
  | SCase a1 ws1 d1, SCase a2 ws2 d2 =>
      option_eqb scalar_eqb a1 a2 && list_eqb when_eqb ws1 ws2 && option_eqb scalar_eqb d1 d2
  | SArithmetic l1 o1 r1, SArithmetic l2 o2 r2 =>
      scalar_eqb l1 l2 && bool_decide (o1 = o2) && scalar_eqb r1 r2
  | SSubquery q1 r1, SSubquery q2 r2 => query_eqb q1 q2 && list_eqb resolved_column_eqb r1 r2
  | SArray l1, SArray l2 => list_eqb scalar_eqb l1 l2
  | STypeCast e1 t1, STypeCast e2 t2 => scalar_eqb e1 e2 && bool_decide (t1 = t2)
  | _, _ => false
  end
with function_eqb (f g : ResolvedFunctionCall) {struct f} : bool :=
  match f, g with
  | FunctionCall n1 a1 s1 d1 o1 f1 w1, FunctionCall n2 a2 s2 d2 o2 f2 w2 =>
      bool_decide (n1 = n2) && list_eqb scalar_eqb a1 a2 && eqb s1 s2 && eqb d1 d2
      && list_eqb order_by_eqb o1 o2 && option_eqb where_eqb f1 f2 && option_eqb window_eqb w1 w2
  end
with window_eqb (a b : ResolvedWindowSpec) {struct a} : bool :=
  match a, b with
  | WindowSpec p1 o1 f1, WindowSpec p2 o2 f2 =>
      list_eqb scalar_eqb p1 p2 && list_eqb order_by_eqb o1 o2 && option_eqb frame_eqb f1 f2
  end
with frame_eqb (a b : ResolvedWindowFrame) {struct a} : bool :=
  match a, b with
  | WindowFrame m1 s1 e1 x1, WindowFrame m2 s2 e2 x2 =>
      bool_decide (m1 = m2) && bound_eqb s1 s2 && bound_eqb e1 e2 && bool_decide (x1 = x2)
  end
with bound_eqb (a b : ResolvedFrameBound) {struct a} : bool :=
  match a, b with
  | FbUnboundedPreceding, FbUnboundedPreceding | FbCurrentRow, FbCurrentRow
  | FbUnboundedFollowing, FbUnboundedFollowing => true
  | FbOffsetPreceding e1, FbOffsetPreceding e2 | FbOffsetFollowing e1, FbOffsetFollowing e2 =>
      scalar_eqb e1 e2
  | _, _ => false
  end
with when_eqb (a b : ResolvedCaseWhen) {struct a} : bool :=
  match a, b with CaseWhen c1 r1, CaseWhen c2 r2 => where_eqb c1 c2 && scalar_eqb r1 r2 end
with order_by_eqb (a b : ResolvedOrderByClause) {struct a} : bool :=
  match a, b with
  | OrderByClause e1 d1 n1, OrderByClause e2 d2 n2 =>
      scalar_eqb e1 e2 && bool_decide (d1 = d2) && bool_decide (n1 = n2)
  end
with where_eqb (a b : ResolvedWhereExpr) {struct a} : bool :=
  match a, b with
  | WScalar s1, WScalar s2 => scalar_eqb s1 s2
  | WUnary o1 e1, WUnary o2 e2 => bool_decide (o1 = o2) && where_eqb e1 e2
  | WBinary o1 l1 r1, WBinary o2 l2 r2 =>
      bool_decide (o1 = o2) && where_eqb l1 l2 && where_eqb r1 r2
  | WMulti o1 l1, WMulti o2 l2 => bool_decide (o1 = o2) && list_eqb where_eqb l1 l2
  | WSubquery q1 k1 t1 r1, WSubquery q2 k2 t2 r2 =>
      query_eqb q1 q2 && bool_decide (k1 = k2) && option_eqb scalar_eqb t1 t2
      && list_eqb resolved_column_eqb r1 r2
  | _, _ => false
  end
with source_eqb (a b : ResolvedTableSource) {struct a} : bool :=
  match a, b with
  | TsTable t1, TsTable t2 => bool_decide (t1 = t2)
  | TsSubquery q1 a1 k1, TsSubquery q2 a2 k2 =>
      query_eqb q1 q2 && bool_decide (a1 = a2) && bool_decide (k1 = k2)
  | TsJoin j1 l1 r1 q1, TsJoin j2 l2 r2 q2 =>
      bool_decide (j1 = j2) && source_eqb l1 l2 && source_eqb r1 r2 && qual_eqb q1 q2
  | _, _ => false
  end
with qual_eqb (a b : ResolvedJoinQual) {struct a} : bool :=
  match a, b with
  | JqOn e1, JqOn e2 => where_eqb e1 e2
  | JqUsing c1 p1, JqUsing c2 p2 => bool_decide (c1 = c2) && where_eqb p1 p2
  | JqCross, JqCross => true
  | _, _ => false
  end
with select_eqb (a b : ResolvedSelectNode) {struct a} : bool :=
  match a, b with
  | SelectNode d1 c1 f1 w1 g1 h1, SelectNode d2 c2 f2 w2 g2 h2 =>
      eqb d1 d2
      && option_eqb (list_eqb (fun '(e1, a1) '(e2, a2) => scalar_eqb e1 e2 && bool_decide (a1 = a2))) c1 c2
      && list_eqb source_eqb f1 f2 && option_eqb where_eqb w1 w2
      && list_eqb resolved_column_eqb g1 g2 && option_eqb where_eqb h1 h2
  end
with body_eqb (a b : ResolvedQueryBody) {struct a} : bool :=
  match a, b with
  | QbSelect s1, QbSelect s2 => select_eqb s1 s2
  | QbValues r1, QbValues r2 => bool_decide (r1 = r2)
  | QbSetOp o1 a1 l1 r1, QbSetOp o2 a2 l2 r2 =>
      bool_decide (o1 = o2) && eqb a1 a2 && query_eqb l1 l2 && query_eqb r1 r2
  | _, _ => false
  end
with query_eqb (a b : ResolvedQueryExpr) {struct a} : bool :=
  match a, b with
  | QueryExpr b1 o1 l1, QueryExpr b2 o2 l2 =>
      body_eqb b1 b2 && list_eqb order_by_eqb o1 o2 && bool_decide (l1 = l2)
  end.

(** ** Positions in the SELECT list *)

Notation SelectColumns := (option (list (ResolvedScalarExpr * option string))).

(** [Iterator::position], counted from one. *)
Fixpoint position {A} (f : A -> bool) (l : list A) : option nat :=
  match l with
  | [] => None
  | x :: l => if f x then Some 1 else S <$> position f l
  end.

Definition position_by_output_name (columns : SelectColumns) (name : string) : option nat :=
  columns ≫= position (fun c => bool_decide (output_name c = Some name)).

Definition columns_position_of (columns : SelectColumns) (expr : ResolvedScalarExpr) : option nat :=
  match expr with
  | SIdentifier name => position_by_output_name columns name
  | _ => columns ≫= position (fun c => scalar_eqb c.1 expr)
  end.

Definition ob_expr (o : ResolvedOrderByClause) : ResolvedScalarExpr := let 'OrderByClause e _ _ := o in e.
Definition ob_direction (o : ResolvedOrderByClause) : OrderDirection := let 'OrderByClause _ d _ := o in d.
Definition ob_null_order (o : ResolvedOrderByClause) : NullOrder := let 'OrderByClause _ _ n := o in n.
Definition sel_columns (s : ResolvedSelectNode) : SelectColumns := let 'SelectNode _ c _ _ _ _ := s in c.
Definition q_body (q : ResolvedQueryExpr) : ResolvedQueryBody := let 'QueryExpr b _ _ := q in b.
Definition q_order_by (q : ResolvedQueryExpr) : list ResolvedOrderByClause := let 'QueryExpr _ o _ := q in o.

(** ** Classification *)

Inductive ShapeGate := Gated | Skip.
#[export] Instance ShapeGate_eq_dec : EqDecision ShapeGate.
Proof. solve_decision. Defined.

Definition is_reducer (g : ShapeGate) : bool := match g with Gated => true | Skip => false end.

Definition columns_any (columns : SelectColumns) (pred : ResolvedScalarExpr -> bool) : bool :=
  match columns with None => false | Some cols => existsb (fun c => pred c.1) cols end.

(** Descends into arguments, CASE results, operands, elements and casts only. *)
Fixpoint scalar_expr_has_window (e : ResolvedScalarExpr) : bool :=
  match e with
  | SFunction f => function_has_window f
  | SCase arg whens default =>
      opt_any scalar_expr_has_window arg || existsb when_has_window whens
      || opt_any scalar_expr_has_window default
  | SArithmetic l _ r => scalar_expr_has_window l || scalar_expr_has_window r
  | SArray elems => existsb scalar_expr_has_window elems
  | STypeCast e _ => scalar_expr_has_window e
  | SColumn _ | SIdentifier _ | SLiteral _ | SSubquery _ _ => false
  end
with function_has_window (f : ResolvedFunctionCall) : bool :=
  match f with
  | FunctionCall _ args _ _ _ _ over =>
      match over with Some _ => true | None => false end || existsb scalar_expr_has_window args
  end
with when_has_window (w : ResolvedCaseWhen) : bool :=
  match w with CaseWhen _ result => scalar_expr_has_window result end.

Definition is_join_source (s : ResolvedTableSource) : bool :=
  match s with TsJoin _ _ _ _ => true | _ => false end.

Definition select_has_join (s : ResolvedSelectNode) : bool :=
  (1 <? length (sel_from s))%nat || existsb is_join_source (sel_from s).

Fixpoint resolved_leftmost_select (q : ResolvedQueryExpr) : option ResolvedSelectNode :=
  match q with
  | QueryExpr (QbSelect s) _ _ => Some s
  | QueryExpr (QbSetOp _ _ l _) _ _ => resolved_leftmost_select l
  | QueryExpr (QbValues _) _ _ => None
  end.

Definition order_by_serve_viable (q : ResolvedQueryExpr) : bool :=
  match q_order_by q with
  | [] => true
  | order_by =>
      match q_body q with
      | QbSelect s =>
          forallb (fun o => bool_decide (is_Some (columns_position_of (sel_columns s) (ob_expr o)))) order_by
      | QbSetOp _ _ _ _ =>
          match resolved_leftmost_select q with
          | None => false
          | Some leftmost =>
              forallb (fun o =>
                match ob_expr o with
                | SIdentifier name => bool_decide (is_Some (position_by_output_name (sel_columns leftmost) name))
                | _ => false
                end) order_by
          end
      | QbValues _ => false
      end
  end.

Definition shape_classify (q : ResolvedQueryExpr) (aggregate_functions : gset string) : ShapeGate :=
  let gated_if_viable := if order_by_serve_viable q then Gated else Skip in
  match q_body q with
  | QbValues _ => Skip
  | QbSetOp SetUnion true _ _ => Skip
  | QbSetOp _ _ _ _ => gated_if_viable
  | QbSelect ((SelectNode distinct columns _ _ group_by having) as s) =>
      if columns_any columns scalar_expr_has_window || distinct
         || negb (bool_decide (length group_by = 0))
         || match having with Some _ => true | None => false end
         || columns_any columns (has_aggregate aggregate_functions)
         || select_has_join s
      then gated_if_viable else Skip
  end.

(** ** Limits of a registration *)

Definition resolved_has_join (q : ResolvedQueryExpr) : bool :=
  match q_body q with QbSelect s => select_has_join s | _ => false end.

Definition resolved_has_window (q : ResolvedQueryExpr) : bool :=
  match q_body q with QbSelect s => columns_any (sel_columns s) scalar_expr_has_window | _ => false end.

(** [(max_limit, mv_limit)]. *)
Definition resolution_limits (q : ResolvedQueryExpr) (shape_gate : ShapeGate)
    (user_max_limit : option Z) : option Z * option Z :=
  (if is_reducer shape_gate then None else user_max_limit,
   if resolved_has_join q && negb (resolved_has_window q) then user_max_limit else None).

(** ** Serve plans *)

Inductive MvSortKey :=
| ByPosition (position : nat) (direction : OrderDirection)
| ByExpr (clause : ResolvedOrderByClause).

(** [SELECT c0 AS .., .. FROM <table of the fingerprint> ORDER BY ..]. *)
Record MvServePlan := {
  mp_fingerprint : Fingerprint;
  mp_output_columns : list string;
  mp_order_by : list MvSortKey;
}.

Fixpoint mv_order_by_positional (order_by : list ResolvedOrderByClause) (columns : SelectColumns) :
    option (list MvSortKey) :=
  match order_by with
  | [] => Some []
  | o :: rest =>
      match columns_position_of columns (ob_expr o) with
      | None => None
      | Some pos => (ByPosition pos (ob_direction o) ::.) <$> mv_order_by_positional rest columns
      end
  end.

Definition mv_order_by_direct (order_by : list ResolvedOrderByClause) : list MvSortKey :=
  ByExpr <$> order_by.

Definition plan_new (fingerprint : Fingerprint) (q : ResolvedQueryExpr) (output_columns : list string) :
    option MvServePlan :=
  let order_by :=
    match q_order_by q with
    | [] => Some []
    | order_by =>
        match q_body q with
        | QbSelect s => mv_order_by_positional order_by (sel_columns s)
        | QbSetOp _ _ _ _ => Some (mv_order_by_direct order_by)
        | QbValues _ => None
        end
    end in
  (fun keys => {| mp_fingerprint := fingerprint; mp_output_columns := output_columns;
                  mp_order_by := keys |}) <$> order_by.

(** ** The first-build gate *)

Definition saturating_mul (a b : Z) : Z := Z.min (a * b) (2 ^ 64 - 1).

(** The two counts are SQL queries that may fail; the second runs only when needed. *)
Definition mv_gate_passes (shape_gate : ShapeGate) (populated_rows : option Z)
    (mv_source_rows_count mv_result_count : option Z) (mv_compute_min_rows mv_size_ratio : Z) :
    option bool :=
  match shape_gate with
  | Skip => Some false
  | Gated =>
      match (match populated_rows with Some n => Some n | None => mv_source_rows_count end) with
      | None => None
      | Some source_rows =>
          if (mv_compute_min_rows <=? source_rows)%Z then Some true
          else (fun result_rows => (saturating_mul result_rows mv_size_ratio <=? source_rows)%Z) <$> mv_result_count
      end
  end.

Fixpoint mv_gate_input_query (q : ResolvedQueryExpr) : ResolvedQueryExpr :=
  let 'QueryExpr body _ _ := q in
  let body :=
    match body with
    | QbSelect (SelectNode _ _ from where_clause _ _) =>
        QbSelect (SelectNode false (Some [(SLiteral (LInteger 1), None)]) from where_clause [] None)
    | QbSetOp _ _ l r => QbSetOp SetUnion true (mv_gate_input_query l) (mv_gate_input_query r)
    | QbValues rows => QbValues rows
    end in
  QueryExpr body [] None.

(** ** Gated shapes have a plan *)

Lemma position_lookup {A} (f : A -> bool) l p :
  position f l = Some p -> exists n x, p = S n /\ l !! n = Some x /\ f x = true.
Proof.
  revert p. induction l as [|x l IH]; intros p; simpl; [done|].
  destruct (f x) eqn:E; [intros [= <-]; by exists 0, x|].
  destruct (position f l) as [m|]; [|done]. intros [= <-]. destruct (IH m eq_refl) as (n & y & -> & Hy & Hf).
  by exists (S n), y.
Qed.

Lemma mv_order_by_positional_total order_by columns :
  Forall (fun o => is_Some (columns_position_of columns (ob_expr o))) order_by ->
  is_Some (mv_order_by_positional order_by columns).
Proof.
  induction 1 as [|o rest [p Hp] _ [keys IH]]; simpl; [by eexists|]. rewrite Hp, IH. by eexists.
Qed.

Lemma shape_gated_viable q aggs : shape_classify q aggs = Gated ->
  order_by_serve_viable q = true /\ (forall rows, q_body q <> QbValues rows).
Proof.
  unfold shape_classify. destruct (q_body q) as [[? columns ? ? group_by having]|rows|op all l r]; [|done|].
  - destruct (_ || _); [|done]. by destruct (order_by_serve_viable q).
  - destruct op, all; by destruct (order_by_serve_viable q).
Qed.

Lemma plan_viable fp q names :
  order_by_serve_viable q = true -> is_Some (plan_new fp q names).
Proof.
  unfold order_by_serve_viable, plan_new. destruct (q_order_by q) as [|o obs] eqn:E; [by eexists|].
  destruct (q_body q) as [s|rows|op all l r]; [|done|by eexists].
  intros H. rewrite fmap_is_Some. apply mv_order_by_positional_total.
  apply Forall_forall. intros x Hx. apply forallb_forall with (x := x) in H; [|done].
  by apply bool_decide_eq_true in H.
Qed.

(** The classifier gates only shapes a hit can be served from.  A query whose shape is
    gated has a serve plan whatever its fingerprint and output columns, so a build that ends
    without a plan, which drops the table and gives the query up, does not happen. *)
Theorem gated_shape_has_plan fp q aggs names :
  shape_classify q aggs = Gated -> is_Some (plan_new fp q names).
Proof. intros [H _]%shape_gated_viable. by apply plan_viable. Qed.

(** ** What a hit reads *)

(** Whether nulls come first under a direction and a NULLS clause. *)
Definition nulls_first (d : OrderDirection) (n : NullOrder) : bool :=
  match n, d with
  | NullsFirst, _ | NullsDefault, OrdDesc => true
  | NullsLast, _ | NullsDefault, OrdAsc => false
  end.

(** The rows LIMIT and OFFSET leave. *)
Definition apply_limit {A} (limit : option LimitClause) (l : list A) : list A :=
  match limit with
  | None => l
  | Some lc =>
      let l := match lc_offset lc with Some (LInteger n) => drop (Z.to_nat n) l | _ => l end in
      match lc_count lc with Some (LInteger n) => take (Z.to_nat n) l | _ => l end
  end.

Definition limit_cap {A} (mv_limit : option Z) (l : list A) : list A :=
  match mv_limit with Some n => take (Z.to_nat n) l | None => l end.

Section answers.

(** Values with their comparison, result rows (a source row or a group), the value of an
    expression in a row and the tuple of output values of a row. *)
Context {V Row : Type} (vcmp : V -> V -> comparison).
Context (ev : ResolvedScalarExpr -> Row -> option V) (output : Row -> list (option V)).

Definition value_cmp (spec : OrderDirection * bool) (a b : option V) : comparison :=
  match a, b with
  | None, None => Eq
  | None, Some _ => if spec.2 then Lt else Gt
  | Some _, None => if spec.2 then Gt else Lt
  | Some x, Some y => match spec.1 with OrdAsc => vcmp x y | OrdDesc => vcmp y x end
  end.

Fixpoint keys_cmp (specs : list (OrderDirection * bool)) (a b : list (option V)) : comparison :=
  match specs, a, b with
  | spec :: specs, x :: a, y :: b =>
      match value_cmp spec x y with Eq => keys_cmp specs a b | c => c end
  | _, _, _ => Eq
  end.

(** The output column of a name in a tuple. *)
Definition named_value (names : list string) (name : string) (t : list (option V)) : option V :=
  match position (fun n => bool_decide (n = name)) names with
  | Some p => default None (t !! (p - 1))
  | None => None
  end.

(** The ORDER BY of the query: in a set operation a name is an output column, in a SELECT
    it is an expression. *)
Definition order_value (q : ResolvedQueryExpr) (names : list string) (o : ResolvedOrderByClause)
    (r : Row) : option V :=
  match q_body q, ob_expr o with
  | QbSetOp _ _ _ _, SIdentifier name => named_value names name (output r)
  | _, e => ev e r
  end.

Definition order_spec (o : ResolvedOrderByClause) : OrderDirection * bool :=
  (ob_direction o, nulls_first (ob_direction o) (ob_null_order o)).

Definition row_le (q : ResolvedQueryExpr) (names : list string) (a b : Row) : Prop :=
  keys_cmp (order_spec <$> q_order_by q) ((fun o => order_value q names o a) <$> q_order_by q)
    ((fun o => order_value q names o b) <$> q_order_by q) <> Gt.

(** The ORDER BY of the plan, on the tuples of the table. *)
Definition key_value (names : list string) (k : MvSortKey) (t : list (option V)) : option V :=
  match k with
  | ByPosition p _ => default None (t !! (p - 1))
  | ByExpr o => match ob_expr o with SIdentifier name => named_value names name t | _ => None end
  end.

Definition key_spec (k : MvSortKey) : OrderDirection * bool :=
  match k with
  | ByPosition _ d => (d, nulls_first d NullsDefault)
  | ByExpr o => order_spec o
  end.

Definition tuple_le (plan : MvServePlan) (s t : list (option V)) : Prop :=
  let key t := (fun k => key_value (mp_output_columns plan) k t) <$> mp_order_by plan in
  keys_cmp (key_spec <$> mp_order_by plan) (key s) (key t) <> Gt.

(** What is used of SQL: a SELECT outputs its expressions, an output name in ORDER BY is its
    column, and expressions equal up to table aliases have one value, which holds when no
    table occurs twice in FROM. *)
Record sql_rows (q : ResolvedQueryExpr) : Prop := {
  sr_output : forall s cols r, q_body q = QbSelect s -> sel_columns s = Some cols ->
    output r = (fun c => ev c.1 r) <$> cols;
  sr_name : forall s cols c n r, q_body q = QbSelect s -> sel_columns s = Some cols -> c ∈ cols ->
    output_name c = Some n -> ev (SIdentifier n) r = ev c.1 r;
  sr_equal : forall a b r, scalar_eqb a b = true -> ev a r = ev b r;
}.

(** The NULLS clause of a positional key is not sent. *)
Definition nulls_default (q : ResolvedQueryExpr) : bool :=
  match q_body q with
  | QbSelect _ =>
      forallb (fun o => eqb (nulls_first (ob_direction o) (ob_null_order o))
                            (nulls_first (ob_direction o) NullsDefault)) (q_order_by q)
  | _ => true
  end.

Lemma columns_position_value q s e p r :
  sql_rows q -> q_body q = QbSelect s -> columns_position_of (sel_columns s) e = Some p ->
  default None (output r !! (p - 1)) = ev e r.
Proof.
  intros Hq Hb Hp. destruct (sel_columns s) as [cols|] eqn:Ec; [|by destruct e].
  rewrite (sr_output _ Hq s cols r Hb Ec).
  assert (Hf : exists c, cols !! (p - 1) = Some c /\ ev c.1 r = ev e r).
  { destruct e as [c|n|f|v|arg ws d|l o r'|sq refs|es|e' t]; simpl in Hp;
      apply position_lookup in Hp as (n0 & c0 & -> & Hl & Hc); exists c0;
      (split; [by rewrite Nat.sub_succ, Nat.sub_0_r|]); try (by apply (sr_equal _ Hq)).
    apply bool_decide_eq_true in Hc. symmetry. eapply (sr_name _ Hq); [done|done| |done].
    by eapply list_elem_of_lookup_2. }
  destruct Hf as (c & Hl & Hv). by rewrite list_lookup_fmap, Hl.
Qed.

Lemma positional_keys q s names obs keys :
  sql_rows q -> q_body q = QbSelect s ->
  forallb (fun o => eqb (nulls_first (ob_direction o) (ob_null_order o))
                        (nulls_first (ob_direction o) NullsDefault)) obs = true ->
  mv_order_by_positional obs (sel_columns s) = Some keys ->
  key_spec <$> keys = order_spec <$> obs /\
  forall r, (fun k => key_value names k (output r)) <$> keys = (fun o => order_value q names o r) <$> obs.
Proof.
  intros Hq Hb. revert keys. induction obs as [|o obs IH]; intros keys; simpl; [intros _ [= <-]; done|].
  intros [Hn Hns]%andb_true_iff. destruct (columns_position_of _ _) as [p|] eqn:Ep; [|done].
  destruct (mv_order_by_positional _ _) as [ks|]; [|done]. intros [= <-].
  destruct (IH ks Hns eq_refl) as [IH1 IH2]. csimpl. rewrite IH1. split.
  - f_equal. unfold order_spec. apply eqb_prop in Hn. by rewrite Hn.
  - intros r. csimpl. rewrite IH2. f_equal. unfold order_value. rewrite Hb.
    by apply (columns_position_value q s).
Qed.

Lemma direct_keys q op all l r names obs leftmost :
  q_body q = QbSetOp op all l r ->
  forallb (fun o => match ob_expr o with
    | SIdentifier name => bool_decide (is_Some (position_by_output_name (sel_columns leftmost) name))
    | _ => false end) obs = true ->
  key_spec <$> mv_order_by_direct obs = order_spec <$> obs /\
  forall x, (fun k => key_value names k (output x)) <$> mv_order_by_direct obs =
    (fun o => order_value q names o x) <$> obs.
Proof.
  intros Hb H. unfold mv_order_by_direct. rewrite <- list_fmap_compose. split; [done|]. intros x.
  rewrite <- list_fmap_compose. apply list_fmap_ext. intros i o Ho. simpl. unfold order_value. rewrite Hb.
  apply forallb_forall with (x := o) in H; [|by apply list_elem_of_In, (list_elem_of_lookup_2 _ i)].
  by destruct (ob_expr o).
Qed.

(** The plan orders tuples as the query orders rows. *)
Lemma plan_orders fp q names plan a b :
  sql_rows q -> nulls_default q = true -> order_by_serve_viable q = true ->
  plan_new fp q names = Some plan -> tuple_le plan (output a) (output b) <-> row_le q names a b.
Proof.
  intros Hq Hn Hv. unfold plan_new, tuple_le, row_le, nulls_default, order_by_serve_viable in *.
  destruct (q_order_by q) as [|o obs] eqn:Eo; [by intros [= <-]|].
  destruct (q_body q) as [s|rows|op all l r] eqn:Eb; [|done|].
  - destruct (mv_order_by_positional _ _) as [keys|] eqn:Ek; [|done]. intros [= <-]. simpl.
    destruct (positional_keys q s names _ keys Hq Eb Hn Ek) as [-> H]. by rewrite !H.
  - destruct (resolved_leftmost_select q) as [leftmost|]; [|done]. intros [= <-].
    cbn [mp_order_by mp_output_columns].
    destruct (direct_keys q op all l r names (o :: obs) leftmost Eb Hv) as [H1 H2].
    change (ByExpr o :: mv_order_by_direct obs) with (mv_order_by_direct (o :: obs)).
    by rewrite H1, !H2.
Qed.

Lemma apply_limit_fmap {A B} (f : A -> B) limit l : apply_limit limit (f <$> l) = f <$> apply_limit limit l.
Proof.
  destruct limit as [lc|]; [|done]. simpl.
  destruct (lc_offset lc) as [[]|]; destruct (lc_count lc) as [[]|];
    rewrite ?fmap_take, ?fmap_drop; done.
Qed.

(** A LIMIT served from the first rows does not reach past them. *)
Lemma apply_limit_prefix {A} limit needed (l rest : list A) :
  limit_rows_needed limit = Some needed -> (Z.to_nat needed <= length l) ->
  apply_limit limit (l ++ rest) = apply_limit limit l.
Proof.
  destruct limit as [lc|]; [|done]. simpl. unfold u64_try_from.
  destruct (lc_count lc) as [[| |n| | | | | |]|]; try done. destruct (n <? 0)%Z eqn:En; [done|].
  apply Z.ltb_ge in En. intros [= <-] Hlen.
  destruct (lc_offset lc) as [[| |m| | | | | |]|]; simpl in Hlen;
    try (rewrite take_app_le; [done|lia]).
  destruct (m <? 0)%Z eqn:Em; simpl in Hlen.
  - apply Z.ltb_lt in Em. replace (Z.to_nat m) with 0 by lia. rewrite !drop_0.
    rewrite take_app_le; [done|lia].
  - apply Z.ltb_ge in Em. rewrite drop_app_le by lia. rewrite take_app_le; [done|].
    rewrite length_drop. lia.
Qed.

Lemma StronglySorted_app_inv {A} (R : A -> A -> Prop) l1 l2 :
  StronglySorted R (l1 ++ l2) -> StronglySorted R l2 /\ forall x y, x ∈ l1 -> y ∈ l2 -> R x y.
Proof.
  induction l1 as [|a l1 IH]; simpl; [intros H; split; [done|set_solver]|].
  intros [H Ha]%StronglySorted_inv. destruct (IH H) as [H2 H3]. split; [done|].
  intros x y [->|Hx]%elem_of_cons Hy; [|by apply H3].
  rewrite list.Forall_forall in Ha. apply Ha. by apply elem_of_app; right.
Qed.

Lemma StronglySorted_app_intro {A} (R : A -> A -> Prop) l1 l2 :
  StronglySorted R l1 -> StronglySorted R l2 -> (forall x y, x ∈ l1 -> y ∈ l2 -> R x y) ->
  StronglySorted R (l1 ++ l2).
Proof.
  intros H1 H2 H. induction H1 as [|a l1 H1 IH Ha]; simpl; [done|]. constructor.
  - apply IH. intros x y Hx. apply H. by apply elem_of_cons; right.
  - apply list.Forall_app. split; [done|]. apply list.Forall_forall. intros y. apply H. by apply elem_of_cons; left.
Qed.

Lemma StronglySorted_fmap_inv {A B} (f : A -> B) (R : B -> B -> Prop) (S : A -> A -> Prop) l :
  (forall a b, R (f a) (f b) -> S a b) -> StronglySorted R (f <$> l) -> StronglySorted S l.
Proof.
  intros HRS. induction l as [|x l IH]; csimpl; intros H; [constructor|].
  apply StronglySorted_inv in H as [H Hx]. constructor; [by apply IH|].
  rewrite list.Forall_forall in Hx. apply list.Forall_forall. intros y Hy. apply HRS, Hx. by apply list_elem_of_fmap_2.
Qed.


End answers.

(** ** Examples *)

Module MvShapeExamples.

Definition metadata (name : string) : ColumnMetadata :=
  {| cm_name := name; cm_position := 1; cm_type_oid := 20; cm_data_type := TInt8; cm_type_name := "int8";
     cm_cache_type_name := "int8"; cm_is_primary_key := false |}.
Definition column (table alias name : string) : ResolvedColumnNode :=
  {| rc_schema := "public"; rc_table := table; rc_table_alias := Some alias; rc_column := name;
     rc_metadata := metadata name |}.
Definition table (name alias : string) (oid : N) : ResolvedTableSource :=
  TsTable {| rt_schema := "public"; rt_name := name; rt_alias := Some alias; rt_relation_oid := oid |}.

(** SELECT a.x FROM t a, u b ORDER BY a.x. *)
Definition two_tables (d : OrderDirection) (n : NullOrder) : ResolvedQueryExpr :=
  QueryExpr (QbSelect (SelectNode false (Some [(SColumn (column "t" "a" "x"), None)])
      [table "t" "a" 1; table "u" "b" 2] None [] None))
    [OrderByClause (SColumn (column "t" "a" "x")) d n] None.

(** SELECT a.x, b.y FROM t a, t b ORDER BY b.x. *)
Definition self_join : ResolvedQueryExpr :=
  QueryExpr (QbSelect (SelectNode false
      (Some [(SColumn (column "t" "a" "x"), None); (SColumn (column "t" "b" "y"), None)])
      [table "t" "a" 1; table "t" "b" 1] None [] None))
    [OrderByClause (SColumn (column "t" "b" "x")) OrdAsc NullsDefault] None.

(** A row of [two_tables]: the value of a.x. *)
Definition value_x (e : ResolvedScalarExpr) (r : option Z) : option Z :=
  match e with
  | SColumn c => if bool_decide (rc_column c = "x") then r else None
  | SIdentifier n => if bool_decide (n = "x") then r else None
  | _ => None
  end.

Lemma two_tables_rows d n : sql_rows value_x (fun r => [r]) (two_tables d n).
Proof.
  split.
  - intros s cols r [= <-] [= <-]. done.
  - intros s cols c m r [= <-] [= <-] ->%list_elem_of_singleton [= <-]. done.
  - intros a b r. destruct a, b; try done; simpl.
    + unfold resolved_column_eqb. intros H. bool_hyps. by repeat match goal with H : _ = _ |- _ => rewrite H end.
    + intros ->%bool_decide_eq_true. done.
Qed.

(** A row of [self_join]: the values of a.x and b.x, b.y being null. *)
Definition value_ab (e : ResolvedScalarExpr) (r : Z * Z) : option Z :=
  match e with
  | SColumn c =>
      if bool_decide (rc_column c = "x") then
        Some (if bool_decide (rc_table_alias c = Some "a") then r.1 else r.2)
      else None
  | _ => None
  end.
Definition output_ab (r : Z * Z) : list (option Z) := [Some r.1; None].

End MvShapeExamples.

Module MvShapeWitness.
Import MvShapeExamples.

Lemma gated_shape_has_plan_witness :
  shape_classify (two_tables OrdDesc NullsDefault) ∅ = Gated /\
  is_Some (plan_new 7 (two_tables OrdDesc NullsDefault) ["x"]).
Proof.
  split; [by vm_compute|]. apply (gated_shape_has_plan 7 (two_tables OrdDesc NullsDefault) ∅ ["x"]).
  by vm_compute.
Defined.

Definition plan : MvServePlan :=
  {| mp_fingerprint := 7; mp_output_columns := ["x"]; mp_order_by := [ByPosition 1 OrdDesc] |}.


End MvShapeWitness.

Module MvShapeGap.
Import MvShapeExamples.

(** A NULLS clause is lost in the positional ORDER BY: the query puts the null first, the
    plan puts it last. *)
Theorem positional_loses_nulls_order :
  exists plan, let q := two_tables OrdAsc NullsFirst in
    shape_classify q ∅ = Gated /\ plan_new 7 q ["x"] = Some plan /\
    sql_rows value_x (fun r => [r]) q /\
    row_le Z.compare value_x (fun r => [r]) q ["x"] None (Some 1%Z) /\
    ~ row_le Z.compare value_x (fun r => [r]) q ["x"] (Some 1%Z) None /\
    tuple_le Z.compare plan [Some 1%Z] [None] /\ ~ tuple_le Z.compare plan [None] [Some 1%Z].
Proof.
  eexists. split; [by vm_compute|]. split; [by vm_compute|]. split; [apply two_tables_rows|].
  repeat split; try (by vm_compute); by intros H; apply H; vm_compute.
Qed.

(** In a self join ORDER BY b.x is taken for the selected a.x, since columns compare
    without their alias: the plan sorts by the other side. *)
Theorem self_join_sorts_by_other_side :
  exists plan, shape_classify self_join ∅ = Gated /\ plan_new 7 self_join ["x"; "y"] = Some plan /\
    row_le Z.compare value_ab output_ab self_join ["x"; "y"] (2, 1)%Z (1, 2)%Z /\
    ~ row_le Z.compare value_ab output_ab self_join ["x"; "y"] (1, 2)%Z (2, 1)%Z /\
    tuple_le Z.compare plan (output_ab (1, 2)%Z) (output_ab (2, 1)%Z) /\
    ~ tuple_le Z.compare plan (output_ab (2, 1)%Z) (output_ab (1, 2)%Z).
Proof. eexists. repeat split; try (by vm_compute); by intros H; apply H; vm_compute. Qed.

End MvShapeGap.
