(* ===== verification/Mv.v ===== *)
(** * Materialized results

    Models the MV state machine of cache/mv.rs, the writer's side of it in
    cache/writer/mv.rs and cache/writer/mv_build.rs, the serve decision of
    cache/fast_path.rs, and what registration, limit bumps, readmission, clean-up, eviction
    and the CDC frame do to it.  The tables on disk, the build tasks, the writer's queue
    and the committed source rows are explicit, so that every interleaving of hits, builds,
    completions and frames is a list of labels.  The theorems: a hit reads a table that
    holds the query's rows on the committed state, tables on disk are exactly those the
    states account for with at most one build per query, and the rebuild backoff is bounded
    and doubles.  Times are nanoseconds of a monotonic clock. *)
From S2P Require Import Prelude Value Ast Branches Egress Session Dispatch MvShape.

(** ** States *)

Inductive MvState :=
| MvSkipped
| MvIneligible
| MvPending (has_table : bool)
| MvScheduled (has_table : bool)
| MvBuilding (has_table : bool)
| MvBuildingDirty (has_table : bool)
| MvFresh.
#[export] Instance MvState_eq_dec : EqDecision MvState.
Proof. solve_decision. Defined.

Definition has_table (s : MvState) : bool :=
  match s with
  | MvFresh => true
  | MvPending h | MvScheduled h | MvBuilding h | MvBuildingDirty h => h
  | MvSkipped | MvIneligible => false
  end.

Definition dirtied (s : MvState) : option MvState :=
  match s with
  | MvFresh => Some (MvPending true)
  | MvBuilding h => Some (MvBuildingDirty h)
  | MvSkipped | MvIneligible | MvPending _ | MvScheduled _ | MvBuildingDirty _ => None
  end.

Definition second : Z := 10 ^ 9.
Definition MV_PAYOFF_WINDOW : Z := 5 * second.
Definition MV_BACKOFF_BASE : Z := 1 * second.
Definition MV_BACKOFF_CAP : Z := 300 * second.

(** [wasted] is a u32. *)
Definition backoff_duration (wasted : Z) : option Z :=
  if (wasted <? 2)%Z then None
  else
    let doublings := Z.min (wasted - 2) 9 in
    Some (Z.min (MV_BACKOFF_BASE * Z.shiftl 1 doublings) MV_BACKOFF_CAP).

Definition mv_state_initial (gate : ShapeGate) : MvState :=
  match gate with Skip => MvSkipped | Gated => MvPending false end.

Record MvMeta := {
  mm_shape_gate : ShapeGate;
  mm_state : MvState;
  mm_serve_plan : option MvServePlan;
  mm_limit : option Z;
  mm_fresh_at : option Z;
  mm_wasted_builds : Z;
  mm_retry_after : option Z;
}.

Definition meta_new (shape_gate : ShapeGate) (limit : option Z) : MvMeta :=
  {| mm_shape_gate := shape_gate; mm_state := mv_state_initial shape_gate; mm_serve_plan := None;
     mm_limit := limit; mm_fresh_at := None; mm_wasted_builds := 0; mm_retry_after := None |}.

Definition backoff_remaining (now : Z) (m : MvMeta) : option Z :=
  match mm_retry_after m with
  | Some retry_after => if (now <? retry_after)%Z then Some (retry_after - now)%Z else None
  | None => None
  end.

Definition build_permitted (now : Z) (m : MvMeta) : bool :=
  match mm_retry_after m with Some t => (t <=? now)%Z | None => true end.

Definition state_set (state : MvState) (m : MvMeta) : MvMeta :=
  {| mm_shape_gate := mm_shape_gate m; mm_state := state; mm_serve_plan := mm_serve_plan m;
     mm_limit := mm_limit m; mm_fresh_at := mm_fresh_at m; mm_wasted_builds := mm_wasted_builds m;
     mm_retry_after := mm_retry_after m |}.

Definition backoff_set (fresh_at : option Z) (wasted : Z) (retry_after : option Z) (m : MvMeta) : MvMeta :=
  {| mm_shape_gate := mm_shape_gate m; mm_state := mm_state m; mm_serve_plan := mm_serve_plan m;
     mm_limit := mm_limit m; mm_fresh_at := fresh_at; mm_wasted_builds := wasted;
     mm_retry_after := retry_after |}.

Definition fresh_mark (now : Z) (m : MvMeta) : MvMeta :=
  backoff_set (Some now) (mm_wasted_builds m) (mm_retry_after m) m.

Definition plan_set (plan : MvServePlan) (m : MvMeta) : MvMeta :=
  {| mm_shape_gate := mm_shape_gate m; mm_state := mm_state m; mm_serve_plan := Some plan;
     mm_limit := mm_limit m; mm_fresh_at := mm_fresh_at m; mm_wasted_builds := mm_wasted_builds m;
     mm_retry_after := mm_retry_after m |}.

Definition waste_record (now : Z) (m : MvMeta) : MvMeta :=
  let wasted := Z.min (mm_wasted_builds m + 1) (2 ^ 32 - 1) in
  backoff_set (mm_fresh_at m) wasted ((fun d => now + d)%Z <$> backoff_duration wasted) m.

(** [Instant::duration_since] saturates at zero. *)
Definition duration_since (now earlier : Z) : Z := Z.max (now - earlier) 0.

Definition dirty_apply (now : Z) (m : MvMeta) : MvMeta :=
  match dirtied (mm_state m) with
  | None => m
  | Some next =>
      let m' :=
        if bool_decide (mm_state m = MvFresh) then
          let m :=
            match mm_fresh_at m with
            | Some t =>
                if (MV_PAYOFF_WINDOW <=? duration_since now t)%Z then backoff_set (mm_fresh_at m) 0 None m
                else waste_record now m
            | None => waste_record now m
            end in
          backoff_set None (mm_wasted_builds m) (mm_retry_after m) m
        else m in
      state_set next m'
  end.

(** ** The writer's state *)

Record MvEntry := {
  en_state : CachedQueryState;
  en_resolved : option ResolvedQueryExpr;
  en_mv : MvMeta;
}.

Record CachedFlags := { cf_pinned : bool; cf_invalidated : bool }.

Record MvBuildContext := {
  cx_fingerprint : Fingerprint;
  cx_has_table : bool;
  cx_shape_gate : ShapeGate;
  cx_max_limit : option Z;
  cx_resolved : ResolvedQueryExpr;
  cx_output_columns : option (list string);
}.

Inductive MvBuildOutcome :=
| Built (output_columns : list string) (was_first_build : bool)
| Ineligible
| Failed (has_table : bool).

Inductive MvCommand :=
| CmdMvBuild (fingerprint : Fingerprint)
| CmdMvBuildComplete (fingerprint : Fingerprint) (outcome : MvBuildOutcome)
| CmdReadmit (fingerprint : Fingerprint).

(** Rows of the open frame: the queries whose MV they were taken to touch, and the queries
    flagged for invalidation at the flush. *)
Inductive FramePhase :=
| FrameIdle
| FrameOpen (touched flagged : gset Fingerprint)
| FrameFlushed (touched : gset Fingerprint).

Section machine.

(** The committed source rows, the contents of a table, the rows a build's SELECT stores and
    the empty table. *)
Context {DB Content : Type} (body : ResolvedQueryExpr -> option Z -> DB -> Content) (no_rows : Content).

(** A spawned build with the snapshot its statement reads. *)
Record MvBuild := { mb_ctx : MvBuildContext; mb_snapshot : option DB }.

Record MvSys := {
  ms_entries : gmap Fingerprint MvEntry;
  ms_cached : gmap Fingerprint CachedFlags;
  ms_inflight : gset Fingerprint;
  ms_tables : gmap Fingerprint Content;
  ms_commands : list MvCommand;
  ms_builds : list MvBuild;
  ms_populating : gset Fingerprint;
  ms_db : DB;
  ms_phase : FramePhase;
}.

Definition set_entries x (s : MvSys) : MvSys :=
  {| ms_entries := x; ms_cached := ms_cached s; ms_inflight := ms_inflight s; ms_tables := ms_tables s;
     ms_commands := ms_commands s; ms_builds := ms_builds s; ms_populating := ms_populating s;
     ms_db := ms_db s; ms_phase := ms_phase s |}.
Definition set_cached x (s : MvSys) : MvSys :=
  {| ms_entries := ms_entries s; ms_cached := x; ms_inflight := ms_inflight s; ms_tables := ms_tables s;
     ms_commands := ms_commands s; ms_builds := ms_builds s; ms_populating := ms_populating s;
     ms_db := ms_db s; ms_phase := ms_phase s |}.
Definition set_inflight x (s : MvSys) : MvSys :=
  {| ms_entries := ms_entries s; ms_cached := ms_cached s; ms_inflight := x; ms_tables := ms_tables s;
     ms_commands := ms_commands s; ms_builds := ms_builds s; ms_populating := ms_populating s;
     ms_db := ms_db s; ms_phase := ms_phase s |}.
Definition set_tables x (s : MvSys) : MvSys :=
  {| ms_entries := ms_entries s; ms_cached := ms_cached s; ms_inflight := ms_inflight s; ms_tables := x;
     ms_commands := ms_commands s; ms_builds := ms_builds s; ms_populating := ms_populating s;
     ms_db := ms_db s; ms_phase := ms_phase s |}.
Definition set_commands x (s : MvSys) : MvSys :=
  {| ms_entries := ms_entries s; ms_cached := ms_cached s; ms_inflight := ms_inflight s;
     ms_tables := ms_tables s; ms_commands := x; ms_builds := ms_builds s;
     ms_populating := ms_populating s; ms_db := ms_db s; ms_phase := ms_phase s |}.
Definition set_builds x (s : MvSys) : MvSys :=
  {| ms_entries := ms_entries s; ms_cached := ms_cached s; ms_inflight := ms_inflight s;
     ms_tables := ms_tables s; ms_commands := ms_commands s; ms_builds := x;
     ms_populating := ms_populating s; ms_db := ms_db s; ms_phase := ms_phase s |}.
Definition set_populating x (s : MvSys) : MvSys :=
  {| ms_entries := ms_entries s; ms_cached := ms_cached s; ms_inflight := ms_inflight s;
     ms_tables := ms_tables s; ms_commands := ms_commands s; ms_builds := ms_builds s;
     ms_populating := x; ms_db := ms_db s; ms_phase := ms_phase s |}.
Definition set_db x (s : MvSys) : MvSys :=
  {| ms_entries := ms_entries s; ms_cached := ms_cached s; ms_inflight := ms_inflight s;
     ms_tables := ms_tables s; ms_commands := ms_commands s; ms_builds := ms_builds s;
     ms_populating := ms_populating s; ms_db := x; ms_phase := ms_phase s |}.
Definition set_phase x (s : MvSys) : MvSys :=
  {| ms_entries := ms_entries s; ms_cached := ms_cached s; ms_inflight := ms_inflight s;
     ms_tables := ms_tables s; ms_commands := ms_commands s; ms_builds := ms_builds s;
     ms_populating := ms_populating s; ms_db := ms_db s; ms_phase := x |}.

Definition entry_mv (f : MvMeta -> MvMeta) (e : MvEntry) : MvEntry :=
  {| en_state := en_state e; en_resolved := en_resolved e; en_mv := f (en_mv e) |}.
Definition entry_state (st : CachedQueryState) (e : MvEntry) : MvEntry :=
  {| en_state := st; en_resolved := en_resolved e; en_mv := en_mv e |}.
Definition update_entry (fp : Fingerprint) (f : MvEntry -> MvEntry) (s : MvSys) : MvSys :=
  set_entries (alter f fp (ms_entries s)) s.
Definition command_send (c : MvCommand) (s : MvSys) : MvSys := set_commands (ms_commands s ++ [c]) s.

(** ** Marks and writes *)

Definition mv_state_write (fp : Fingerprint) (new_state : MvState) (s : MvSys) : MvSys :=
  update_entry fp (entry_mv (state_set new_state)) s.
Definition mv_dirty_mark (now : Z) (fp : Fingerprint) (s : MvSys) : MvSys :=
  update_entry fp (entry_mv (dirty_apply now)) s.
Definition mv_dirty_mark_candidates (now : Z) (candidates : list Fingerprint) (s : MvSys) : MvSys :=
  fold_left (fun s fp => mv_dirty_mark now fp s) candidates s.
Definition mv_waste_record (now : Z) (fp : Fingerprint) (s : MvSys) : MvSys :=
  update_entry fp (entry_mv (waste_record now)) s.
Definition mv_dirty_eval_required (s : MvSys) (fp : Fingerprint) : bool :=
  match ms_entries s !! fp with
  | Some e => bool_decide (is_Some (dirtied (mm_state (en_mv e))))
  | None => false
  end.
Definition mv_table_drop (fp : Fingerprint) (s : MvSys) : MvSys := set_tables (delete fp (ms_tables s)) s.
Definition source_row_state_is_ready (s : MvSys) (fp : Fingerprint) : bool :=
  bool_decide (en_state <$> ms_entries s !! fp = Some Ready).

(** ** Builds *)

Definition mv_context_snapshot (fp : Fingerprint) (s : MvSys) : option MvBuildContext :=
  match ms_entries s !! fp with
  | None => None
  | Some view =>
      match mm_state (en_mv view) with
      | MvScheduled h =>
          if bool_decide (en_state view = Ready) then
            match en_resolved view with
            | None => None
            | Some resolved =>
                Some {| cx_fingerprint := fp; cx_has_table := h;
                        cx_shape_gate := mm_shape_gate (en_mv view);
                        cx_max_limit := mm_limit (en_mv view); cx_resolved := resolved;
                        cx_output_columns := mp_output_columns <$> mm_serve_plan (en_mv view) |}
            end
          else None
      | _ => None
      end
  end.

Definition mv_build_dispatch (fp : Fingerprint) (s : MvSys) : MvSys :=
  if bool_decide (fp ∈ ms_inflight s) then s
  else
    match mv_context_snapshot fp s with
    | None => s
    | Some ctx =>
        let s := set_inflight ({[ fp ]} ∪ ms_inflight s) s in
        let s := mv_state_write fp (MvBuilding (cx_has_table ctx)) s in
        set_builds (ms_builds s ++ [{| mb_ctx := ctx; mb_snapshot := None |}]) s
    end.

(** What the gate and the describe of a build find, and whether its batch succeeds. *)
Record BuildInput := {
  bi_populated_rows : option Z;
  bi_source_rows : option Z;
  bi_result_rows : option Z;
  bi_compute_min_rows : Z;
  bi_size_ratio : Z;
  bi_describe : option (list string);
  bi_sql_ok : bool;
}.

(** The batch: CREATE TABLE AS fails on an existing table and is cleaned up with DROP TABLE
    IF EXISTS; the rebuild transaction needs the table and rolls back on failure. *)
Definition mv_build_batch (ctx : MvBuildContext) (snapshot : DB) (sql_ok : bool) (table : option Content) :
    bool * option Content :=
  let rows := body (cx_resolved ctx) (cx_max_limit ctx) snapshot in
  if cx_has_table ctx then
    match table with
    | Some _ => if sql_ok then (true, Some rows) else (false, table)
    | None => (false, None)
    end
  else
    match table with
    | None => if sql_ok then (true, Some rows) else (false, None)
    | Some _ => (false, None)
    end.

Definition mv_build_execute (ctx : MvBuildContext) (snapshot : DB) (input : BuildInput)
    (table : option Content) : MvBuildOutcome * option Content :=
  let failed := (Failed (cx_has_table ctx), table) in
  let gate :=
    if cx_has_table ctx then Some true
    else mv_gate_passes (cx_shape_gate ctx) (bi_populated_rows input) (bi_source_rows input)
           (bi_result_rows input) (bi_compute_min_rows input) (bi_size_ratio input) in
  match gate with
  | None => failed
  | Some false => (Ineligible, table)
  | Some true =>
      let names :=
        match cx_output_columns ctx with
        | Some cols => Some cols
        | None => match bi_describe input with Some (n :: ns) => Some (n :: ns) | _ => None end
        end in
      match names with
      | None => failed
      | Some names =>
          let '(ok, table) := mv_build_batch ctx snapshot (bi_sql_ok input) table in
          if ok then (Built names (negb (cx_has_table ctx)), table)
          else (Failed (cx_has_table ctx), table)
      end
  end.

(** The task's end: the outcome is sent when the completion guard drops. *)
Definition build_finish (b : MvBuild) (outcome : MvBuildOutcome) (table : option Content) (s : MvSys) : MvSys :=
  let fp := cx_fingerprint (mb_ctx b) in
  command_send (CmdMvBuildComplete fp outcome)
    (set_tables (partial_alter (fun _ => table) fp (ms_tables s)) s).

Definition mv_build_outcome_apply (now : Z) (fp : Fingerprint) (state : MvState) (outcome : MvBuildOutcome)
    (s : MvSys) : MvSys :=
  match outcome with
  | Built output_columns was_first_build =>
      if was_first_build && negb (source_row_state_is_ready s fp) then
        mv_state_write fp (MvPending false) (mv_table_drop fp s)
      else
        match state with
        | MvBuilding _ =>
            let plan :=
              ms_entries s !! fp ≫= fun view => en_resolved view ≫= fun resolved =>
                plan_new fp resolved output_columns in
            match ms_entries s !! fp, plan with
            | Some _, None => mv_state_write fp MvIneligible (mv_table_drop fp s)
            | Some _, Some plan =>
                mv_state_write fp MvFresh
                  (update_entry fp (entry_mv (fun m => fresh_mark now (plan_set plan m))) s)
            | None, _ => mv_state_write fp MvFresh s
            end
        | _ => mv_state_write fp (MvPending true) (mv_waste_record now fp s)
        end
  | Ineligible => mv_state_write fp MvIneligible s
  | Failed h => mv_state_write fp (MvPending h) (mv_waste_record now fp s)
  end.

Definition table_remains (outcome : MvBuildOutcome) : bool :=
  match outcome with Built _ _ | Failed true => true | _ => false end.

Definition mv_build_complete (now : Z) (fp : Fingerprint) (outcome : MvBuildOutcome) (s : MvSys) : MvSys :=
  let s := set_inflight (ms_inflight s ∖ {[ fp ]}) s in
  let dropped := if table_remains outcome then mv_table_drop fp s else s in
  match mm_state ∘ en_mv <$> ms_entries s !! fp with
  | None => dropped
  | Some state =>
      match state with
      | MvBuilding _ | MvBuildingDirty _ => mv_build_outcome_apply now fp state outcome s
      | MvScheduled _ => mv_build_dispatch fp dropped
      | MvSkipped | MvIneligible | MvPending _ | MvFresh => dropped
      end
  end.

(** ** Hits *)

Inductive MvDecision :=
| ServeMv (plan : MvServePlan)
| ServeSourceRow
| NeedsSchedule (has_table : bool).

Definition mv_serve_decide (now : Z) (fp : Fingerprint) (rows_needed : option Z) (s : MvSys) : MvDecision :=
  match ms_entries s !! fp with
  | None => ServeSourceRow
  | Some e =>
      match mm_state (en_mv e), mm_serve_plan (en_mv e) with
      | MvFresh, Some plan =>
          if limit_is_sufficient (mm_limit (en_mv e)) rows_needed then ServeMv plan else ServeSourceRow
      | MvFresh, None => ServeSourceRow
      | MvPending h, _ => if build_permitted now (en_mv e) then NeedsSchedule h else ServeSourceRow
      | MvScheduled _, _ | MvBuilding _, _ | MvBuildingDirty _, _ | MvSkipped, _ | MvIneligible, _ =>
          ServeSourceRow
      end
  end.

Definition mv_schedule (fp : Fingerprint) (h : bool) (s : MvSys) : MvSys :=
  match ms_entries s !! fp with
  | None => s
  | Some e =>
      if bool_decide (mm_state (en_mv e) = MvPending h) then
        command_send (CmdMvBuild fp) (update_entry fp (entry_mv (state_set (MvScheduled h))) s)
      else s
  end.

Definition mv_pinned_bootstrap (now : Z) (fp : Fingerprint) (s : MvSys) : MvSys :=
  if negb (bool_decide (cf_pinned <$> ms_cached s !! fp = Some true)) then s
  else
    match ms_entries s !! fp with
    | None => s
    | Some view =>
        match mm_state (en_mv view) with
        | MvPending h =>
            if negb (build_permitted now (en_mv view)) then s
            else command_send (CmdMvBuild fp) (update_entry fp (entry_mv (state_set (MvScheduled h))) s)
        | _ => s
        end
    end.

(** ** Eviction, registration, populations

    Of the functions below only what they do to the view entry, the MV and the flags the MV
    code reads is kept, and the name says so; the life cycle of the entry is modelled in full
    in [Lifecycle]. *)

Definition mv_dirty_sweep (s : MvSys) : MvSys :=
  set_tables (map_imap (fun fp rows =>
    if bool_decide (mm_state ∘ en_mv <$> ms_entries s !! fp = Some (MvPending true)) then Some no_rows
    else Some rows) (ms_tables s)) s.

Definition mv_drop (fp : Fingerprint) (mv_state : MvState) (s : MvSys) : MvSys :=
  match mv_state with
  | MvBuilding _ | MvBuildingDirty _ => s
  | _ => if negb (has_table mv_state) then s else mv_table_drop fp s
  end.

(** The population of a removed query is discarded when it ends. *)
Definition evict_mv (fp : Fingerprint) (s : MvSys) : MvSys :=
  match ms_cached s !! fp with
  | None => s
  | Some _ =>
      let s := set_cached (delete fp (ms_cached s)) s in
      let s :=
        match mm_state ∘ en_mv <$> ms_entries s !! fp with
        | Some mv_state => mv_drop fp mv_state s
        | None => s
        end in
      set_populating (ms_populating s ∖ {[ fp ]}) (set_entries (delete fp (ms_entries s)) s)
  end.

(** The view's placeholder a dispatch inserts for a new query. *)
Definition placeholder_mv (fp : Fingerprint) (st : CachedQueryState) (s : MvSys) : MvSys :=
  set_entries (<[fp := {| en_state := st; en_resolved := None; en_mv := meta_new Skip None |}]> (ms_entries s)) s.

Definition mv_state_set (fp : Fingerprint) (shape_gate : ShapeGate) (mv_limit : option Z) (s : MvSys) : MvSys :=
  update_entry fp (entry_mv (fun _ => meta_new shape_gate mv_limit)) s.

(** [view_write_mv]: an absent view is inserted with a skipped MV. *)
Definition view_write_mv (fp : Fingerprint) (st : CachedQueryState) (resolved : ResolvedQueryExpr)
    (s : MvSys) : MvSys :=
  set_entries (<[fp :=
    match ms_entries s !! fp with
    | Some v => {| en_state := st; en_resolved := Some resolved; en_mv := en_mv v |}
    | None => {| en_state := st; en_resolved := Some resolved; en_mv := meta_new Skip None |}
    end]> (ms_entries s)) s.

(** A new registration: [None] when the query is subsumed and ready at once. *)
Definition register_mv (fp : Fingerprint) (resolved : ResolvedQueryExpr) (aggs : gset string)
    (user_max_limit : option Z) (pinned subsumed : bool) (s : MvSys) : MvSys :=
  let shape_gate := shape_classify resolved aggs in
  let '(_, mv_limit) := resolution_limits resolved shape_gate user_max_limit in
  let s := mv_state_set fp shape_gate mv_limit s in
  let s := set_cached (<[fp := {| cf_pinned := pinned; cf_invalidated := false |}]> (ms_cached s)) s in
  if subsumed then
    set_populating (ms_populating s ∖ {[ fp ]}) (view_write_mv fp Ready resolved s)
  else set_populating ({[ fp ]} ∪ ms_populating s) (view_write_mv fp Loading resolved s).

Definition flags_set (invalidated : bool) (f : CachedFlags) : CachedFlags :=
  {| cf_pinned := cf_pinned f; cf_invalidated := invalidated |}.

(** Readmission and the limit bump keep the query's resolved form. *)
Definition repopulate (fp : Fingerprint) (s : MvSys) : MvSys :=
  set_populating ({[ fp ]} ∪ ms_populating s) (update_entry fp (entry_state Loading) s).

Definition readmit_mv (fp : Fingerprint) (s : MvSys) : MvSys :=
  match ms_cached s !! fp with
  | None => s
  | Some _ => repopulate fp (set_cached (alter (flags_set false) fp (ms_cached s)) s)
  end.

Definition limit_bump_mv (now : Z) (fp : Fingerprint) (s : MvSys) : MvSys :=
  match ms_cached s !! fp with
  | None => s
  | Some _ => repopulate fp (mv_dirty_mark now fp s)
  end.

(** A population's rows are committed and the query becomes ready; the merge of a query
    that is gone or invalidated is dropped. *)
Definition ready_finalize_mv (now : Z) (fp : Fingerprint) (db : DB) (s : MvSys) : MvSys :=
  let s := set_populating (ms_populating s ∖ {[ fp ]}) (set_db db s) in
  mv_pinned_bootstrap now fp (update_entry fp (entry_state Ready) s).

Definition failed_cleanup_mv (fp : Fingerprint) (s : MvSys) : MvSys :=
  set_populating (ms_populating s ∖ {[ fp ]})
    (set_entries (delete fp (ms_entries s)) (set_cached (delete fp (ms_cached s)) s)).

(** ** The CDC frame *)

Definition invalidated_mark_mv (now : Z) (fp : Fingerprint) (s : MvSys) : MvSys :=
  update_entry fp (fun e => entry_mv (dirty_apply now) (entry_state Invalidated e))
    (set_cached (alter (flags_set true) fp (ms_cached s)) s).

Definition cdc_invalidate_mv (now : Z) (policy : CachePolicy) (fp : Fingerprint) (s : MvSys) : MvSys :=
  if bool_decide (cf_pinned <$> ms_cached s !! fp = Some true) then command_send (CmdReadmit fp) s
  else if bool_decide (policy = Fifo) then evict_mv fp s
  else if bool_decide (cf_invalidated <$> ms_cached s !! fp = Some false) then invalidated_mark_mv now fp s
  else s.

(** One row event: the queries it invalidates, those it is a member of and those its old
    image may have belonged to. *)
Definition row_replay (now : Z) (fp_list hits old_candidates : list Fingerprint)
    (touched flagged : gset Fingerprint) (s : MvSys) : MvSys :=
  let flagged := list_to_set fp_list ∪ flagged in
  let maintained := List.filter (fun fp => negb (bool_decide (fp ∈ flagged))) hits in
  set_phase (FrameOpen (list_to_set maintained ∪ list_to_set old_candidates ∪ touched) flagged)
    (mv_dirty_mark_candidates now old_candidates (mv_dirty_mark_candidates now maintained s)).

Definition invalidations_flush_mv (now : Z) (policy : CachePolicy) (touched flagged : gset Fingerprint)
    (s : MvSys) : MvSys :=
  set_phase (FrameFlushed (flagged ∪ touched))
    (fold_left (fun s fp => cdc_invalidate_mv now policy fp s) (elements flagged) s).

(** ** Steps *)

Inductive MvLabel :=
| LPlaceholder (fp : Fingerprint) (st : CachedQueryState)
| LClaim (fp : Fingerprint)
| LRegister (fp : Fingerprint) (resolved : ResolvedQueryExpr) (aggs : gset string) (user_max_limit : option Z)
    (pinned subsumed : bool)
| LReadmit (fp : Fingerprint)
| LLimitBump (now : Z) (fp : Fingerprint)
| LMerge (now : Z) (fp : Fingerprint) (db : DB)
| LFailed (fp : Fingerprint)
| LEvict (fp : Fingerprint)
| LSweep
| LSchedule (fp : Fingerprint) (h : bool)
| LCommand (now : Z) (i : nat)
| LSnapshot (i : nat)
| LBuild (i : nat) (input : BuildInput)
| LBuildLost (i : nat)
| LRow (now : Z) (fp_list hits old_candidates : list Fingerprint)
| LFlush (now : Z) (policy : CachePolicy)
| LCommit (db : DB).

Definition writer_free (s : MvSys) : bool :=
  match ms_phase s with FrameFlushed _ => false | _ => true end.

Definition if_writer (f : MvSys -> MvSys) (s : MvSys) : option MvSys :=
  if writer_free s then Some (f s) else None.

Definition mv_step (l : MvLabel) (s : MvSys) : option MvSys :=
  match l with
  | LPlaceholder fp st =>
      match ms_entries s !! fp with
      | None => if bool_decide (st = Ready) then None else Some (placeholder_mv fp st s)
      | Some _ => None
      end
  | LClaim fp => Some (update_entry fp (entry_state Loading) s)
  | LRegister fp resolved aggs user_max_limit pinned subsumed =>
      if_writer (register_mv fp resolved aggs user_max_limit pinned subsumed) s
  | LReadmit fp =>
      if bool_decide (cf_invalidated <$> ms_cached s !! fp = Some true) then if_writer (readmit_mv fp) s
      else None
  | LLimitBump now fp => if_writer (limit_bump_mv now fp) s
  | LMerge now fp db =>
      match ms_phase s with
      | FrameIdle =>
          if bool_decide (fp ∈ ms_populating s) && bool_decide (cf_invalidated <$> ms_cached s !! fp = Some false)
          then Some (ready_finalize_mv now fp db s) else None
      | _ => None
      end
  | LFailed fp => if_writer (failed_cleanup_mv fp) s
  | LEvict fp => if_writer (evict_mv fp) s
  | LSweep => if_writer mv_dirty_sweep s
  | LSchedule fp h => Some (mv_schedule fp h s)
  | LCommand now i =>
      match ms_commands s !! i with
      | None => None
      | Some cmd =>
          let rest := set_commands (delete i (ms_commands s)) s in
          match cmd with
          | CmdMvBuild fp => if_writer (mv_build_dispatch fp) rest
          | CmdMvBuildComplete fp outcome => if_writer (mv_build_complete now fp outcome) rest
          | CmdReadmit fp => if_writer (readmit_mv fp) rest
          end
      end
  | LSnapshot i =>
      match ms_builds s !! i with
      | Some {| mb_ctx := ctx; mb_snapshot := None |} =>
          Some (set_builds (<[i := {| mb_ctx := ctx; mb_snapshot := Some (ms_db s) |}]> (ms_builds s)) s)
      | _ => None
      end
  | LBuild i input =>
      match ms_builds s !! i with
      | Some {| mb_ctx := ctx; mb_snapshot := Some d |} =>
          let '(outcome, table) := mv_build_execute ctx d input (ms_tables s !! cx_fingerprint ctx) in
          Some (build_finish {| mb_ctx := ctx; mb_snapshot := Some d |} outcome table
                  (set_builds (delete i (ms_builds s)) s))
      | _ => None
      end
  | LBuildLost i =>
      match ms_builds s !! i with
      | Some b =>
          Some (build_finish b (Failed (cx_has_table (mb_ctx b))) (ms_tables s !! cx_fingerprint (mb_ctx b))
                  (set_builds (delete i (ms_builds s)) s))
      | None => None
      end
  | LRow now fp_list hits old_candidates =>
      match ms_phase s with
      | FrameIdle => Some (row_replay now fp_list hits old_candidates ∅ ∅ s)
      | FrameOpen touched flagged => Some (row_replay now fp_list hits old_candidates touched flagged s)
      | FrameFlushed _ => None
      end
  | LFlush now policy =>
      match ms_phase s with
      | FrameIdle => Some (set_phase (FrameFlushed ∅) s)
      | FrameOpen touched flagged => Some (invalidations_flush_mv now policy touched flagged s)
      | FrameFlushed _ => None
      end
  | LCommit db =>
      match ms_phase s with
      | FrameFlushed _ => Some (set_phase FrameIdle (set_db db s))
      | _ => None
      end
  end.

Definition sys_new (db : DB) : MvSys :=
  {| ms_entries := ∅; ms_cached := ∅; ms_inflight := ∅; ms_tables := ∅; ms_commands := []; ms_builds := [];
     ms_populating := ∅; ms_db := db; ms_phase := FrameIdle |}.

(** ** Quiet steps *)

Definition mv_state_of (s : MvSys) (fp : Fingerprint) : option MvState := mm_state ∘ en_mv <$> ms_entries s !! fp.

(** The rows a table of the query would hold. *)
Definition same_rows (s : MvSys) (db : DB) (fp : Fingerprint) : Prop :=
  forall e q, ms_entries s !! fp = Some e -> en_resolved e = Some q ->
    body q (mm_limit (en_mv e)) db = body q (mm_limit (en_mv e)) (ms_db s).

Definition building (st : MvState) : bool :=
  match st with MvBuilding _ | MvBuildingDirty _ => true | _ => false end.

(** Dropping the entry loses no table: it has none, or the build in flight will drop it. *)
Definition no_table (s : MvSys) (fp : Fingerprint) : Prop :=
  match mv_state_of s fp with
  | Some st => has_table st = true -> building st = true
  | None => True
  end.

(** A commit changes the rows of the queries its frame touched and a population's rows those
    of its query; the writer starts no build while replayed rows await their commit; a
    registration meets no finished table; a pinned query's result is not current when it is
    readmitted; a clean-up meets no finished table. *)
Definition quiet (l : MvLabel) (s : MvSys) : Prop :=
  match l with
  | LCommit db =>
      match ms_phase s with FrameFlushed touched => forall fp, fp ∉ touched -> same_rows s db fp | _ => True end
  | LMerge _ fp0 db => forall fp, fp <> fp0 -> same_rows s db fp
  | LCommand _ i =>
      ms_phase s = FrameIdle /\
      match ms_commands s !! i with
      | Some (CmdReadmit fp) => mv_dirty_eval_required s fp = false
      | _ => True
      end
  | LRegister fp _ _ _ _ _ => no_table s fp
  | LFailed fp => no_table s fp
  | LFlush _ _ =>
      match ms_phase s with
      | FrameOpen _ flagged =>
          forall fp, fp ∈ flagged -> cf_pinned <$> ms_cached s !! fp = Some true -> mv_dirty_eval_required s fp = false
      | _ => True
      end
  | _ => True
  end.

Inductive quiet_reach (s0 : MvSys) : MvSys -> Prop :=
| MvStart : quiet_reach s0 s0
| MvStep l s s' : quiet_reach s0 s -> quiet l s -> mv_step l s = Some s' -> quiet_reach s0 s'.

(** ** The invariant, one query at a time *)

(** What is under way for a build: its task, or its completion in the queue. *)
Notation Out := (MvBuild + MvBuildOutcome)%type.

Record Slot := {
  sl_entry : option MvEntry;
  sl_flags : option CachedFlags;
  sl_inflight : bool;
  sl_table : option Content;
  sl_out : list Out;
  sl_pop : bool;
  sl_touched : bool;
}.

Definition task_of (fp : Fingerprint) (b : MvBuild) : option Out :=
  if bool_decide (cx_fingerprint (mb_ctx b) = fp) then Some (inl b) else None.
Definition completion_of (fp : Fingerprint) (c : MvCommand) : option Out :=
  match c with
  | CmdMvBuildComplete fp' outcome => if bool_decide (fp' = fp) then Some (inr outcome) else None
  | _ => None
  end.
Definition outstanding (s : MvSys) (fp : Fingerprint) : list Out :=
  omap (task_of fp) (ms_builds s) ++ omap (completion_of fp) (ms_commands s).

Definition touched_by (p : FramePhase) : gset Fingerprint :=
  match p with FrameIdle => ∅ | FrameOpen touched _ | FrameFlushed touched => touched end.

Definition slot_of (s : MvSys) (fp : Fingerprint) : Slot :=
  {| sl_entry := ms_entries s !! fp; sl_flags := ms_cached s !! fp;
     sl_inflight := bool_decide (fp ∈ ms_inflight s); sl_table := ms_tables s !! fp;
     sl_out := outstanding s fp; sl_pop := bool_decide (fp ∈ ms_populating s);
     sl_touched := bool_decide (fp ∈ touched_by (ms_phase s)) |}.

Definition entry_mv_state (e : option MvEntry) : option MvState := mm_state ∘ en_mv <$> e.

(** The table a build leaves so far. *)
Definition out_table (t : option Content) (o : Out) : Prop :=
  match o with
  | inl b => is_Some t <-> cx_has_table (mb_ctx b) = true
  | inr outcome => is_Some t <-> table_remains outcome = true
  end.

Definition out_start (o : Out) (h : bool) : Prop :=
  match o with
  | inl b => cx_has_table (mb_ctx b) = h
  | inr (Built _ first) => first = negb h
  | inr (Failed h') => h' = h
  | inr Ineligible => h = false
  end.

Definition out_current (db : DB) (fp : Fingerprint) (q : ResolvedQueryExpr) (limit : option Z) (t : option Content)
    (o : Out) : Prop :=
  match o with
  | inl b => cx_fingerprint (mb_ctx b) = fp /\ cx_resolved (mb_ctx b) = q /\ cx_max_limit (mb_ctx b) = limit /\
      forall d, mb_snapshot b = Some d -> body q limit d = body q limit db
  | inr (Built _ _) => t = Some (body q limit db)
  | inr _ => True
  end.

Definition entry_building (e : option MvEntry) (o : Out) : Prop :=
  match entry_mv_state e with
  | Some (MvBuilding h | MvBuildingDirty h) => out_start o h
  | Some st => has_table st = false
  | None => True
  end.

Record slot_ok (db : DB) (fp : Fingerprint) (sl : Slot) : Prop := {
  so_out : if sl_inflight sl then
      exists o, sl_out sl = [o] /\ out_table (sl_table sl) o /\ entry_building (sl_entry sl) o
    else sl_out sl = [] /\ (is_Some (sl_table sl) <-> has_table <$> entry_mv_state (sl_entry sl) = Some true) /\
      (building <$> entry_mv_state (sl_entry sl) <> Some true);
  so_fresh : forall e, sl_entry sl = Some e -> mm_state (en_mv e) = MvFresh ->
    exists q plan, en_resolved e = Some q /\ sl_table sl = Some (body q (mm_limit (en_mv e)) db) /\
      mm_serve_plan (en_mv e) = Some plan /\ plan_new fp q (mp_output_columns plan) = Some plan;
  so_building : forall e h, sl_entry sl = Some e -> mm_state (en_mv e) = MvBuilding h ->
    exists q o, en_resolved e = Some q /\ sl_out sl = [o] /\ out_current db fp q (mm_limit (en_mv e)) (sl_table sl) o;
  so_live : forall e, sl_entry sl = Some e -> is_Some (dirtied (mm_state (en_mv e))) \/ en_state e = Ready ->
    cf_invalidated <$> sl_flags sl = Some false;
  so_pop : forall e, sl_entry sl = Some e -> sl_pop sl = true ->
    dirtied (mm_state (en_mv e)) = None /\ en_state e <> Ready;
  so_touched : forall e, sl_entry sl = Some e -> sl_touched sl = true -> dirtied (mm_state (en_mv e)) = None;
}.

Definition sys_ok (s : MvSys) : Prop := forall fp, slot_ok (ms_db s) fp (slot_of s fp).

Lemma mv_sys_new_ok db : sys_ok (sys_new db).
Proof. intros fp. split; simpl; try (by intros ? ?%lookup_empty_Some || by rewrite lookup_empty). Qed.

(** ** Steps that concern one query *)

(** [s'] differs from [s] at [fp] only. *)
Definition agrees (fp : Fingerprint) (s s' : MvSys) : Prop :=
  ms_db s' = ms_db s /\ forall fp', fp' <> fp -> slot_of s' fp' = slot_of s fp'.

Lemma agrees_refl fp s : agrees fp s s.
Proof. done. Qed.

Lemma agrees_trans fp s1 s2 s3 : agrees fp s1 s2 -> agrees fp s2 s3 -> agrees fp s1 s3.
Proof. intros [E1 H1] [E2 H2]. split; [congruence|]. intros fp' H. by rewrite H2, H1. Qed.

Lemma agrees_ok fp s s' :
  sys_ok s -> agrees fp s s' -> slot_ok (ms_db s) fp (slot_of s' fp) -> sys_ok s'.
Proof.
  intros H [E Ha] Hf fp'. rewrite E. destruct (decide (fp' = fp)) as [->|]; [done|]. by rewrite Ha.
Qed.

Lemma agrees_entries fp m s :
  (forall fp', fp' <> fp -> m !! fp' = ms_entries s !! fp') -> agrees fp s (set_entries m s).
Proof. intros H. split; [done|]. intros fp' Hne. unfold slot_of, outstanding. simpl. by rewrite H. Qed.
Lemma agrees_cached fp m s :
  (forall fp', fp' <> fp -> m !! fp' = ms_cached s !! fp') -> agrees fp s (set_cached m s).
Proof. intros H. split; [done|]. intros fp' Hne. unfold slot_of, outstanding. simpl. by rewrite H. Qed.
Lemma agrees_tables fp m s :
  (forall fp', fp' <> fp -> m !! fp' = ms_tables s !! fp') -> agrees fp s (set_tables m s).
Proof. intros H. split; [done|]. intros fp' Hne. unfold slot_of, outstanding. simpl. by rewrite H. Qed.
Lemma agrees_inflight fp x s :
  (forall fp', fp' <> fp -> fp' ∈ x <-> fp' ∈ ms_inflight s) -> agrees fp s (set_inflight x s).
Proof.
  intros H. split; [done|]. intros fp' Hne. unfold slot_of, outstanding. simpl.
  f_equal. apply bool_decide_ext. by apply H.
Qed.
Lemma agrees_populating fp x s :
  (forall fp', fp' <> fp -> fp' ∈ x <-> fp' ∈ ms_populating s) -> agrees fp s (set_populating x s).
Proof.
  intros H. split; [done|]. intros fp' Hne. unfold slot_of, outstanding. simpl.
  f_equal. apply bool_decide_ext. by apply H.
Qed.
Lemma agrees_commands fp cs s :
  (forall fp', fp' <> fp -> omap (completion_of fp') cs = omap (completion_of fp') (ms_commands s)) ->
  agrees fp s (set_commands cs s).
Proof. intros H. split; [done|]. intros fp' Hne. unfold slot_of, outstanding. simpl. by rewrite H. Qed.
Lemma agrees_builds fp bs s :
  (forall fp', fp' <> fp -> omap (task_of fp') bs = omap (task_of fp') (ms_builds s)) ->
  agrees fp s (set_builds bs s).
Proof. intros H. split; [done|]. intros fp' Hne. unfold slot_of, outstanding. simpl. by rewrite H. Qed.

Lemma agrees_update fp f s : agrees fp s (update_entry fp f s).
Proof. apply agrees_entries. intros fp' H. by apply lookup_alter_ne. Qed.
Lemma agrees_drop fp s : agrees fp s (mv_table_drop fp s).
Proof. apply agrees_tables. intros fp' H. by apply lookup_delete_ne. Qed.
Lemma agrees_send fp c s :
  (forall fp', fp' <> fp -> completion_of fp' c = None) -> agrees fp s (command_send c s).
Proof.
  intros H. apply agrees_commands. intros fp' Hne. rewrite omap_app. simpl. rewrite H by done. by rewrite app_nil_r.
Qed.

(** ** Entries *)

Definition build_bit (st : MvState) : option bool :=
  match st with MvBuilding h | MvBuildingDirty h => Some h | _ => None end.

(** An update that claims no more than before. *)
Record weakens (e e' : MvEntry) : Prop := {
  wk_limit : mm_limit (en_mv e') = mm_limit (en_mv e);
  wk_resolved : en_resolved e' = en_resolved e;
  wk_plan : mm_serve_plan (en_mv e') = mm_serve_plan (en_mv e);
  wk_table : has_table (mm_state (en_mv e')) = has_table (mm_state (en_mv e));
  wk_bit : build_bit (mm_state (en_mv e')) = build_bit (mm_state (en_mv e));
  wk_state : mm_state (en_mv e') = mm_state (en_mv e) \/ dirtied (mm_state (en_mv e')) = None;
  wk_ready : en_state e' = Ready -> en_state e = Ready;
}.

Definition with_entry (e : option MvEntry) (sl : Slot) : Slot :=
  {| sl_entry := e; sl_flags := sl_flags sl; sl_inflight := sl_inflight sl; sl_table := sl_table sl;
     sl_out := sl_out sl; sl_pop := sl_pop sl; sl_touched := sl_touched sl |}.

Lemma building_bit st : building st = bool_decide (is_Some (build_bit st)).
Proof. by destruct st. Qed.

Lemma entry_building_bit e o : entry_building (Some e) o <->
  match build_bit (mm_state (en_mv e)) with
  | Some h => out_start o h
  | None => has_table (mm_state (en_mv e)) = false
  end.
Proof. unfold entry_building. simpl. by destruct (mm_state (en_mv e)). Qed.

Lemma slot_weaken db fp sl e e' :
  slot_ok db fp sl -> sl_entry sl = Some e -> weakens e e' -> slot_ok db fp (with_entry (Some e') sl).
Proof.
  intros [H1 H2 H3 H4 H5 H6] E [W1 W2 W3 W4 W5 W6 W7].
  assert (Hd : is_Some (dirtied (mm_state (en_mv e'))) -> mm_state (en_mv e') = mm_state (en_mv e))
    by (destruct W6 as [|W]; [done|rewrite W; by intros []]).
  split; simpl.
  - rewrite E in H1. destruct (sl_inflight sl).
    + destruct H1 as (o & Ho & Ht & Hb). exists o. split; [done|]. split; [done|].
      apply entry_building_bit in Hb. apply entry_building_bit. by rewrite W4, W5.
    + simpl in *. by rewrite W4, building_bit, W5, <- building_bit.
  - intros x [= <-] Hf. rewrite W1, W2, W3. apply H2; [done|]. rewrite <- Hd; [done|]. by rewrite Hf.
  - intros x h [= <-] Hf. rewrite W1, W2. apply (H3 _ h); [done|]. rewrite <- Hd; [done|]. by rewrite Hf.
  - intros x [= <-] Hf. apply (H4 e E). destruct Hf as [Hf|Hf]; [left; by rewrite <- Hd|right; by apply W7].
  - intros x [= <-] Hp. destruct (H5 e E Hp) as [Hn Hr]. split; [|by intros ?%W7].
    destruct W6 as [->|]; done.
  - intros x [= <-] Hp. specialize (H6 e E Hp). destruct W6 as [->|]; done.
Qed.

Lemma slot_update fp f s :
  slot_of (update_entry fp f s) fp = with_entry (f <$> ms_entries s !! fp) (slot_of s fp).
Proof. unfold slot_of, with_entry, outstanding. simpl. by rewrite lookup_alter_eq. Qed.

Lemma update_ok fp f s :
  sys_ok s -> (forall e, ms_entries s !! fp = Some e -> weakens e (f e)) -> sys_ok (update_entry fp f s).
Proof.
  intros H Hw. apply (agrees_ok fp s); [done|apply agrees_update|]. rewrite slot_update.
  destruct (ms_entries s !! fp) as [e|] eqn:E; simpl.
  - apply (slot_weaken _ _ _ e); [apply H|done|by apply Hw].
  - replace (with_entry None _) with (slot_of s fp); [apply H|].
    unfold with_entry, slot_of. simpl. by rewrite E.
Qed.

Lemma weakens_refl e : weakens e e.
Proof. split; auto. Qed.

Lemma dirty_apply_state now m :
  mm_state (dirty_apply now m) = default (mm_state m) (dirtied (mm_state m)).
Proof. unfold dirty_apply. by destruct (dirtied (mm_state m)). Qed.

Lemma dirty_apply_fields now m :
  mm_limit (dirty_apply now m) = mm_limit m /\ mm_serve_plan (dirty_apply now m) = mm_serve_plan m.
Proof.
  unfold dirty_apply. destruct (dirtied _); [|done]. destruct (bool_decide _); [|done]. simpl.
  destruct (mm_fresh_at m); [|done]. by destruct (_ <=? _)%Z.
Qed.

Lemma dirtied_dirtied st : dirtied (default st (dirtied st)) = None.
Proof. by destruct st. Qed.

Lemma weakens_dirty now e : weakens e (entry_mv (dirty_apply now) e).
Proof.
  destruct (dirty_apply_fields now (en_mv e)) as [E1 E2].
  split; simpl; rewrite ?dirty_apply_state; try done.
  - by destruct (mm_state (en_mv e)).
  - by destruct (mm_state (en_mv e)).
  - right. apply dirtied_dirtied.
Qed.

Lemma weakens_invalidate now e : weakens e (entry_mv (dirty_apply now) (entry_state Invalidated e)).
Proof.
  destruct (weakens_dirty now e) as [W1 W2 W3 W4 W5 W6 W7]. by split.
Qed.

Lemma weakens_state st e : st <> Ready -> weakens e (entry_state st e).
Proof. intros H. split; simpl; auto. done. Qed.

Lemma weakens_waste now e : weakens e (entry_mv (waste_record now) e).
Proof. split; simpl; auto. Qed.

Lemma weakens_schedule h e :
  mm_state (en_mv e) = MvPending h -> weakens e (entry_mv (state_set (MvScheduled h)) e).
Proof. intros H. split; simpl; rewrite ?H; auto. Qed.

Lemma mv_dirty_mark_ok now fp s : sys_ok s -> sys_ok (mv_dirty_mark now fp s).
Proof. intros H. apply update_ok; [done|]. intros e _. apply weakens_dirty. Qed.

Lemma mark_candidates_ok now cs s : sys_ok s -> sys_ok (mv_dirty_mark_candidates now cs s).
Proof.
  unfold mv_dirty_mark_candidates. revert s. induction cs as [|fp cs IH]; intros s H; simpl; [done|].
  by apply IH, mv_dirty_mark_ok.
Qed.

(** ** Results that cannot be dirtied *)

Lemma nd_iff s fp : mv_dirty_eval_required s fp = false <->
  forall e, ms_entries s !! fp = Some e -> dirtied (mm_state (en_mv e)) = None.
Proof.
  unfold mv_dirty_eval_required. destruct (ms_entries s !! fp) as [e|].
  - rewrite bool_decide_eq_false. rewrite <- eq_None_not_Some. split; [by intros H x [= <-]|auto].
  - split; [done|auto].
Qed.

Lemma nd_mark now fp s : mv_dirty_eval_required (mv_dirty_mark now fp s) fp = false.
Proof.
  apply nd_iff. intros e. simpl. rewrite lookup_alter_eq. destruct (ms_entries s !! fp); [|done].
  intros [= <-]. simpl. rewrite dirty_apply_state. apply dirtied_dirtied.
Qed.

Lemma nd_mark_stable now fp fp' s :
  mv_dirty_eval_required s fp' = false -> mv_dirty_eval_required (mv_dirty_mark now fp s) fp' = false.
Proof.
  destruct (decide (fp' = fp)) as [->|]; [intros _; apply nd_mark|].
  unfold mv_dirty_eval_required. simpl. by rewrite lookup_alter_ne.
Qed.

Lemma nd_candidates_stable now cs fp s :
  mv_dirty_eval_required s fp = false -> mv_dirty_eval_required (mv_dirty_mark_candidates now cs s) fp = false.
Proof.
  unfold mv_dirty_mark_candidates. revert s. induction cs as [|c cs IH]; intros s H; simpl; [done|].
  by apply IH, nd_mark_stable.
Qed.

Lemma nd_candidates now cs fp s :
  fp ∈ cs -> mv_dirty_eval_required (mv_dirty_mark_candidates now cs s) fp = false.
Proof.
  unfold mv_dirty_mark_candidates. revert s. induction cs as [|c cs IH]; intros s Hin; simpl.
  { by apply not_elem_of_nil in Hin. }
  apply elem_of_cons in Hin as [->|Hin]; [|by apply IH]. apply nd_candidates_stable, nd_mark.
Qed.

(** Moving to a frame phase whose touched queries cannot be dirtied. *)
Lemma set_phase_ok p s :
  sys_ok s -> (forall fp, fp ∈ touched_by p -> mv_dirty_eval_required s fp = false) -> sys_ok (set_phase p s).
Proof.
  intros H Ht fp. destruct (H fp) as [H1 H2 H3 H4 H5 H6].
  split; [exact H1|exact H2|exact H3|exact H4|exact H5|].
  simpl. intros e E Hp%bool_decide_eq_true. by apply (proj1 (nd_iff s fp) (Ht fp Hp)).
Qed.

Lemma nd_touched s fp : sys_ok s -> fp ∈ touched_by (ms_phase s) -> mv_dirty_eval_required s fp = false.
Proof.
  intros H Hin. apply nd_iff. intros e E. apply (so_touched _ _ _ (H fp) e E). simpl. by apply bool_decide_eq_true.
Qed.

Lemma row_replay_ok now fps hits olds touched flagged s :
  sys_ok s -> (forall fp, fp ∈ touched -> mv_dirty_eval_required s fp = false) ->
  sys_ok (row_replay now fps hits olds touched flagged s).
Proof.
  intros H Ht. unfold row_replay. apply set_phase_ok; [by apply mark_candidates_ok, mark_candidates_ok|].
  simpl. intros fp [[Hm%elem_of_list_to_set|Ho%elem_of_list_to_set]%elem_of_union|Hp]%elem_of_union.
  - by apply nd_candidates_stable, nd_candidates.
  - by apply nd_candidates.
  - by apply nd_candidates_stable, nd_candidates_stable, Ht.
Qed.

(** ** Eviction and invalidation *)

Lemma slot_remove db fp sl t :
  slot_ok db fp sl -> t = (if sl_inflight sl then sl_table sl else None) ->
  slot_ok db fp {| sl_entry := None; sl_flags := None; sl_inflight := sl_inflight sl; sl_table := t;
                   sl_out := sl_out sl; sl_pop := false; sl_touched := sl_touched sl |}.
Proof.
  intros [H1 _ _ _ _ _] ->. split; simpl; try done.
  destruct (sl_inflight sl).
  - destruct H1 as (o & Ho & Ht & _). by exists o.
  - destruct H1 as (Ho & _ & _). split; [done|]. split; [|done]. split; [by intros []|done].
Qed.

Lemma mv_drop_table db fp sl e :
  slot_ok db fp sl -> sl_entry sl = Some e ->
  (match mm_state (en_mv e) with
   | MvBuilding _ | MvBuildingDirty _ => sl_table sl
   | st => if negb (has_table st) then sl_table sl else None
   end) = (if sl_inflight sl then sl_table sl else None).
Proof.
  intros [H1 _ _ _ _ _] E. rewrite E in H1. destruct (sl_inflight sl).
  - destruct H1 as (o & _ & _ & Hb). unfold entry_building in Hb. simpl in Hb.
    destruct (mm_state (en_mv e)); try done; by rewrite Hb.
  - destruct H1 as (_ & Ht & Hb). simpl in *. destruct (sl_table sl) as [c|] eqn:Et; [|by destruct (mm_state (en_mv e)) as [| |[]|[]|[]|[]|]].
    assert (has_table (mm_state (en_mv e)) = true) as Hh
      by (destruct Ht as [Ht _]; specialize (Ht ltac:(by eexists)); congruence).
    destruct (mm_state (en_mv e)); simpl in *; subst; done.
Qed.

Lemma mv_drop_fields fp st s :
  let s' := mv_drop fp st s in
  ms_entries s' = ms_entries s /\ ms_cached s' = ms_cached s /\ ms_inflight s' = ms_inflight s /\
  ms_commands s' = ms_commands s /\ ms_builds s' = ms_builds s /\ ms_populating s' = ms_populating s /\
  ms_phase s' = ms_phase s /\ ms_db s' = ms_db s /\
  ms_tables s' = match st with
   | MvBuilding _ | MvBuildingDirty _ => ms_tables s
   | st => if negb (has_table st) then ms_tables s else delete fp (ms_tables s)
   end.
Proof. unfold mv_drop. destruct st as [| |[]|[]|[]|[]|]; done. Qed.

Lemma agrees_mv_drop fp st s : agrees fp s (mv_drop fp st s).
Proof. unfold mv_drop. destruct st as [| |[]|[]|[]|[]|]; try apply agrees_refl; apply agrees_drop. Qed.

Lemma agrees_removed fp s : agrees fp s (set_populating (ms_populating s ∖ {[fp]}) (set_entries (delete fp (ms_entries s)) s)).
Proof.
  eapply agrees_trans; [apply agrees_entries|apply agrees_populating; set_solver].
  intros fp' H. by apply lookup_delete_ne.
Qed.

Lemma cache_query_evict_ok fp s : sys_ok s -> sys_ok (evict_mv fp s).
Proof.
  intros H. unfold evict_mv. destruct (ms_cached s !! fp); [|done]. cbv zeta.
  set (s1 := set_cached _ s).
  assert (Ha : agrees fp s s1) by (apply agrees_cached; intros; by apply lookup_delete_ne).
  set (s2 := match mm_state ∘ en_mv <$> ms_entries s1 !! fp with Some st => mv_drop fp st s1 | None => s1 end).
  assert (Ha2 : agrees fp s s2).
  { eapply agrees_trans; [exact Ha|]. subst s2. destruct (_ <$> _); [apply agrees_mv_drop|apply agrees_refl]. }
  apply (agrees_ok fp s); [done|by eapply agrees_trans; [|apply agrees_removed]|].
  assert (Hs : slot_of (set_populating (ms_populating s2 ∖ {[fp]}) (set_entries (delete fp (ms_entries s2)) s2)) fp =
    {| sl_entry := None; sl_flags := None; sl_inflight := sl_inflight (slot_of s fp); sl_table := ms_tables s2 !! fp;
       sl_out := sl_out (slot_of s fp); sl_pop := false; sl_touched := sl_touched (slot_of s fp) |}).
  { unfold slot_of, outstanding. simpl. rewrite lookup_delete_eq, (bool_decide_false (fp ∈ _ ∖ _)) by set_solver.
    subst s2. destruct (mm_state ∘ en_mv <$> ms_entries s1 !! fp) as [st|].
    - destruct (mv_drop_fields fp st s1) as (_ & -> & -> & -> & -> & _ & -> & _). simpl. by rewrite lookup_delete_eq.
    - simpl. by rewrite lookup_delete_eq. }
  rewrite Hs. apply slot_remove; [apply H|]. subst s2. simpl.
  destruct (ms_entries s !! fp) as [e|] eqn:E; simpl.
  - destruct (mv_drop_fields fp (mm_state (en_mv e)) s1) as (_ & _ & _ & _ & _ & _ & _ & _ & ->).
    pose proof (mv_drop_table _ fp (slot_of s fp) e (H fp) E) as Hd. simpl in Hd. rewrite <- Hd.
    destruct (mm_state (en_mv e)) as [| |[]|[]|[]|[]|]; simpl; by rewrite ?lookup_delete_eq.
  - destruct (H fp) as [H1 _ _ _ _ _]. simpl in H1. rewrite E in H1.
    destruct (bool_decide (fp ∈ ms_inflight s)); [done|]. destruct H1 as (_ & Ht & _). simpl in Ht.
    destruct (ms_tables s !! fp); [|done]. destruct Ht as [Ht _]. by specialize (Ht ltac:(by eexists)).
Qed.

Lemma set_cached_ok fp m s :
  sys_ok s -> (forall fp', fp' <> fp -> m !! fp' = ms_cached s !! fp') ->
  (forall e, ms_entries s !! fp = Some e -> is_Some (dirtied (mm_state (en_mv e))) \/ en_state e = Ready ->
     cf_invalidated <$> m !! fp = Some false) ->
  sys_ok (set_cached m s).
Proof.
  intros H Hm Hl. apply (agrees_ok fp s); [done|by apply agrees_cached|].
  destruct (H fp) as [H1 H2 H3 H4 H5 H6]. by split.
Qed.

Lemma query_invalidated_mark_ok now fp s : sys_ok s -> sys_ok (invalidated_mark_mv now fp s).
Proof.
  intros H. unfold invalidated_mark_mv.
  assert (Hu : sys_ok (update_entry fp (fun e => entry_mv (dirty_apply now) (entry_state Invalidated e)) s))
    by (apply update_ok; [done|]; intros e _; apply weakens_invalidate).
  change (update_entry fp ?f (set_cached ?m s)) with (set_cached m (update_entry fp f s)).
  apply (set_cached_ok fp); [done|intros fp' Hne; by apply lookup_alter_ne|].
  intros e. simpl. rewrite lookup_alter_eq. destruct (ms_entries s !! fp); [|done]. intros [= <-]. simpl.
  rewrite dirty_apply_state, dirtied_dirtied. intros [[]|]; done.
Qed.

Lemma command_send_ok c s : sys_ok s -> (forall fp, completion_of fp c = None) -> sys_ok (command_send c s).
Proof.
  intros H Hc. pose (fp0 := 0%N). apply (agrees_ok fp0 s); [done|by apply agrees_send|].
  destruct (H fp0) as [H1 H2 H3 H4 H5 H6]. unfold slot_of, outstanding in *. simpl in *.
  rewrite omap_app. simpl. rewrite Hc, app_nil_r. by split.
Qed.

Lemma cdc_invalidate_ok now policy fp s : sys_ok s -> sys_ok (cdc_invalidate_mv now policy fp s).
Proof.
  intros H. unfold cdc_invalidate_mv. destruct (bool_decide _); [by apply command_send_ok|].
  destruct (bool_decide _); [by apply cache_query_evict_ok|].
  destruct (bool_decide _); [by apply query_invalidated_mark_ok|done].
Qed.

Lemma nd_evict fp fp' s :
  mv_dirty_eval_required s fp' = false -> mv_dirty_eval_required (evict_mv fp s) fp' = false.
Proof.
  rewrite !nd_iff. intros H e. unfold evict_mv. destruct (ms_cached s !! fp); [|apply H]. simpl.
  destruct (_ <$> _) as [st|].
  - destruct (mv_drop_fields fp st (set_cached (delete fp (ms_cached s)) s)) as (-> & _). simpl.
    intros [_ E]%lookup_delete_Some. by apply H.
  - simpl. intros [_ E]%lookup_delete_Some. by apply H.
Qed.

Lemma nd_invalidate now policy fp fp' s :
  mv_dirty_eval_required s fp' = false ->
  mv_dirty_eval_required (cdc_invalidate_mv now policy fp s) fp' = false.
Proof.
  unfold cdc_invalidate_mv. intros H. destruct (bool_decide _); [done|].
  destruct (bool_decide _); [by apply nd_evict|]. destruct (bool_decide _); [|done].
  revert H. rewrite !nd_iff. intros H e. simpl. destruct (decide (fp' = fp)) as [->|].
  - rewrite lookup_alter_eq. destruct (ms_entries s !! fp); [|done]. intros [= <-]. simpl.
    rewrite dirty_apply_state. apply dirtied_dirtied.
  - rewrite lookup_alter_ne by done. apply H.
Qed.

(** An invalidation of a query that is not pinned leaves its result dirty. *)
Lemma nd_invalidated now policy fp s :
  sys_ok s -> (cf_pinned <$> ms_cached s !! fp = Some true -> mv_dirty_eval_required s fp = false) ->
  mv_dirty_eval_required (cdc_invalidate_mv now policy fp s) fp = false.
Proof.
  intros H Hp. unfold cdc_invalidate_mv. case_bool_decide as E1; [by apply Hp|].
  assert (Hlive : mv_dirty_eval_required s fp = true -> cf_invalidated <$> ms_cached s !! fp = Some false).
  { unfold mv_dirty_eval_required. destruct (ms_entries s !! fp) as [e|] eqn:E; [|done].
    intros Hd%bool_decide_eq_true. apply (so_live _ _ _ (H fp) e E). by left. }
  case_bool_decide as E2.
  - unfold evict_mv. destruct (ms_cached s !! fp) as [c|] eqn:Ec.
    + apply nd_iff. intros e. simpl. rewrite lookup_delete_eq. done.
    + destruct (mv_dirty_eval_required s fp); [|done]. by specialize (Hlive eq_refl).
  - case_bool_decide as E3.
    + apply nd_iff. intros e. simpl. rewrite lookup_alter_eq. destruct (ms_entries s !! fp); [|done].
      intros [= <-]. simpl. rewrite dirty_apply_state. apply dirtied_dirtied.
    + destruct (mv_dirty_eval_required s fp); [|done]. by specialize (Hlive eq_refl).
Qed.

Lemma evict_cached fp s : ms_cached (evict_mv fp s) = delete fp (ms_cached s).
Proof.
  unfold evict_mv. destruct (ms_cached s !! fp) eqn:E; [|by rewrite delete_id].
  cbv zeta. cbn [ms_cached set_populating set_entries]. destruct (ms_entries _ !! fp) as [e|]; simpl; [|done].
  by destruct (mv_drop_fields fp (mm_state (en_mv e)) (set_cached (delete fp (ms_cached s)) s)) as (_ & -> & _).
Qed.

Lemma invalidate_pinned now policy fp fp' s :
  cf_pinned <$> ms_cached (cdc_invalidate_mv now policy fp s) !! fp' = Some true ->
  cf_pinned <$> ms_cached s !! fp' = Some true.
Proof.
  unfold cdc_invalidate_mv. destruct (bool_decide _); [done|]. destruct (bool_decide _).
  - rewrite evict_cached. destruct (decide (fp' = fp)) as [->|]; by rewrite ?lookup_delete_eq, ?lookup_delete_ne by done.
  - destruct (bool_decide _); [|done]. simpl. destruct (decide (fp' = fp)) as [->|]; [|by rewrite lookup_alter_ne].
    rewrite lookup_alter_eq. by destruct (ms_cached s !! fp).
Qed.

Lemma invalidations_ok now policy fps s :
  sys_ok s ->
  (forall fp, fp ∈ fps -> cf_pinned <$> ms_cached s !! fp = Some true -> mv_dirty_eval_required s fp = false) ->
  let s' := fold_left (fun s fp => cdc_invalidate_mv now policy fp s) fps s in
  sys_ok s' /\ forall fp, fp ∈ fps \/ mv_dirty_eval_required s fp = false -> mv_dirty_eval_required s' fp = false.
Proof.
  revert s. induction fps as [|c fps IH]; intros s H Hp; simpl; [split; [done|]; set_solver|].
  destruct (IH (cdc_invalidate_mv now policy c s)) as [H1 H2].
  - by apply cdc_invalidate_ok.
  - intros fp Hin Hpin. apply nd_invalidate, Hp; [by right|]. by eapply invalidate_pinned.
  - split; [done|]. intros fp Hin. apply H2. destruct Hin as [[->|Hin]%elem_of_cons|Hin]; [|by left|].
    + right. apply nd_invalidated; [done|]. apply Hp. by left.
    + right. by apply nd_invalidate.
Qed.

Lemma flush_ok now policy touched flagged s :
  sys_ok s -> (forall fp, fp ∈ touched -> mv_dirty_eval_required s fp = false) ->
  (forall fp, fp ∈ flagged -> cf_pinned <$> ms_cached s !! fp = Some true -> mv_dirty_eval_required s fp = false) ->
  sys_ok (invalidations_flush_mv now policy touched flagged s).
Proof.
  intros H Ht Hf. unfold invalidations_flush_mv.
  destruct (invalidations_ok now policy (elements flagged) s H) as [H1 H2].
  { intros fp Hin. apply Hf. by apply elem_of_elements. }
  apply set_phase_ok; [done|]. simpl. intros fp [Hin|Hin]%elem_of_union; apply H2.
  - left. by apply elem_of_elements.
  - right. by apply Ht.
Qed.

(** ** Rows that change at a commit *)

Lemma slot_commit db db' fp sl :
  slot_ok db fp sl ->
  (forall e q, sl_entry sl = Some e -> en_resolved e = Some q -> is_Some (dirtied (mm_state (en_mv e))) ->
     body q (mm_limit (en_mv e)) db' = body q (mm_limit (en_mv e)) db) ->
  slot_ok db' fp sl.
Proof.
  intros [H1 H2 H3 H4 H5 H6] Hb. split; try done.
  - intros e E Hs. destruct (H2 e E Hs) as (q & plan & Hq & Ht & Hp). exists q, plan.
    rewrite (Hb e q E Hq); [done|by rewrite Hs].
  - intros e h E Hs. destruct (H3 e h E Hs) as (q & o & Hq & Ho & Hc). exists q, o.
    split; [done|]. split; [done|].
    assert (Eb : body q (mm_limit (en_mv e)) db' = body q (mm_limit (en_mv e)) db) by (apply Hb; [done|done|by rewrite Hs]).
    destruct o as [b|[names first| |h']]; simpl in *; try done; [|by rewrite Eb].
    destruct Hc as (? & ? & ? & Hd). repeat split; try done. intros d Hsn. rewrite Eb. by apply Hd.
Qed.

Lemma set_db_ok db s :
  sys_ok s -> (forall fp, mv_dirty_eval_required s fp = true -> same_rows s db fp) -> sys_ok (set_db db s).
Proof.
  intros H Hs fp. apply (slot_commit (ms_db s)); [apply H|]. simpl. intros e q E Hq Hd.
  apply (Hs fp); [|done|done]. unfold mv_dirty_eval_required. rewrite E. by apply bool_decide_eq_true.
Qed.

Lemma commit_ok db touched s :
  sys_ok s -> ms_phase s = FrameFlushed touched -> (forall fp, fp ∉ touched -> same_rows s db fp) ->
  sys_ok (set_phase FrameIdle (set_db db s)).
Proof.
  intros H Hp Hs. apply set_phase_ok; [|set_solver]. apply set_db_ok; [done|]. intros fp Hd. apply Hs.
  intros Hin. assert (Hn : mv_dirty_eval_required s fp = false); [|congruence].
  apply nd_touched; [done|]. by rewrite Hp.
Qed.

(** ** Registration and populations *)

(** A state without a table or a build. *)
Definition inert (st : MvState) : bool :=
  match st with MvSkipped | MvIneligible | MvPending false | MvScheduled false => true | _ => false end.

Definition replaced (e : option MvEntry) (f : option CachedFlags) (pop : bool) (sl : Slot) : Slot :=
  {| sl_entry := e; sl_flags := f; sl_inflight := sl_inflight sl; sl_table := sl_table sl;
     sl_out := sl_out sl; sl_pop := pop; sl_touched := sl_touched sl |}.

Definition slot_no_table (sl : Slot) : Prop :=
  match entry_mv_state (sl_entry sl) with
  | Some st => has_table st = true -> building st = true
  | None => True
  end.

Lemma slot_no_table_none db fp sl :
  slot_ok db fp sl -> slot_no_table sl -> sl_inflight sl = false -> sl_table sl = None.
Proof.
  intros [H1 _ _ _ _ _] Hn Hi. rewrite Hi in H1. destruct H1 as (_ & Ht & Hb).
  unfold slot_no_table in Hn. destruct (sl_table sl) as [c|]; [|done]. exfalso.
  destruct Ht as [Ht _]. specialize (Ht ltac:(by eexists)).
  destruct (entry_mv_state (sl_entry sl)) as [st|]; [|done]. simpl in *. injection Ht as Ht.
  apply Hb. by rewrite Hn.
Qed.

Lemma slot_replace db fp sl e f pop :
  slot_ok db fp sl -> slot_no_table sl ->
  match e with
  | Some e => inert (mm_state (en_mv e)) = true /\ (en_state e = Ready -> cf_invalidated <$> f = Some false /\ pop = false)
  | None => True
  end ->
  slot_ok db fp (replaced e f pop sl).
Proof.
  intros H Hn He. assert (Hin : forall e', e = Some e' -> inert (mm_state (en_mv e')) = true) by (intros ? ->; apply He).
  assert (Hs : forall e', e = Some e' -> has_table (mm_state (en_mv e')) = false /\ dirtied (mm_state (en_mv e')) = None /\
    build_bit (mm_state (en_mv e')) = None).
  { intros e' E. apply Hin in E. by destruct (mm_state (en_mv e')) as [| |[]|[]|[]|[]|]. }
  split; simpl.
  - destruct (sl_inflight sl) eqn:Ei.
    + destruct H as [H1 _ _ _ _ _]. rewrite Ei in H1. destruct H1 as (o & Ho & Ht & _). exists o.
      split; [done|]. split; [done|]. destruct e as [e|]; [|done]. apply entry_building_bit.
      destruct (Hs e eq_refl) as (-> & _ & ->). done.
    + rewrite (slot_no_table_none _ _ _ H Hn Ei). destruct H as [H1 _ _ _ _ _]. rewrite Ei in H1.
      destruct H1 as (Ho & _ & _). split; [done|]. destruct e as [e|]; simpl.
      * destruct (Hs e eq_refl) as (-> & _ & Hb). rewrite building_bit, Hb. split; [|done].
        split; [by intros []|done].
      * split; [|done]. split; [by intros []|done].
  - intros e' E Hf. destruct (Hs e' E) as (_ & Hd & _). by rewrite Hf in Hd.
  - intros e' h E Hf. destruct (Hs e' E) as (_ & Hd & _). by rewrite Hf in Hd.
  - intros e' -> [Hd|Hr]; [|by apply He]. destruct (Hs e' eq_refl) as (_ & Hn' & _). rewrite Hn' in Hd. by destruct Hd.
  - intros e' -> Hp. destruct (Hs e' eq_refl) as (_ & Hn' & _). split; [done|]. intros Hr.
    destruct He as [_ He]. destruct (He Hr) as [_ Hf]. congruence.
  - intros e' -> _. by destruct (Hs e' eq_refl) as (_ & Hn' & _).
Qed.

Lemma placeholder_ok fp st s :
  sys_ok s -> ms_entries s !! fp = None -> st <> Ready -> sys_ok (placeholder_mv fp st s).
Proof.
  intros H E Hst. apply (agrees_ok fp s); [done|apply agrees_entries; intros; by apply lookup_insert_ne|].
  assert (Hs : slot_of (placeholder_mv fp st s) fp =
    replaced (Some {| en_state := st; en_resolved := None; en_mv := meta_new Skip None |}) (ms_cached s !! fp)
      (bool_decide (fp ∈ ms_populating s)) (slot_of s fp)).
  { unfold slot_of, replaced, outstanding. simpl. by rewrite lookup_insert_eq. }
  rewrite Hs. apply slot_replace; [apply H|unfold slot_no_table; simpl; by rewrite E|]. by split.
Qed.

Lemma register_slot fp resolved aggs limit pinned subsumed s :
  agrees fp s (register_mv fp resolved aggs limit pinned subsumed s) /\
  exists e, inert (mm_state (en_mv e)) = true /\ en_state e = (if subsumed then Ready else Loading) /\
    slot_of (register_mv fp resolved aggs limit pinned subsumed s) fp =
    replaced (Some e) (Some {| cf_pinned := pinned; cf_invalidated := false |}) (negb subsumed) (slot_of s fp).
Proof.
  unfold register_mv. destruct (resolution_limits _ _ _) as [ml mvl].
  set (s1 := mv_state_set fp _ mvl s).
  set (s2 := set_cached _ s1). set (st := if subsumed then Ready else Loading).
  assert (Ha : agrees fp s (view_write_mv fp st resolved s2)).
  { eapply agrees_trans; [apply agrees_update|]. eapply agrees_trans; [apply agrees_cached|apply agrees_entries].
    - intros; by apply lookup_insert_ne.
    - intros; by apply lookup_insert_ne. }
  split.
  - subst st. destruct subsumed; (eapply agrees_trans; [exact Ha|]); apply agrees_populating; set_solver.
  - exists (match ms_entries s2 !! fp with
      | Some v => {| en_state := st; en_resolved := Some resolved; en_mv := en_mv v |}
      | None => {| en_state := st; en_resolved := Some resolved; en_mv := meta_new Skip None |} end).
    simpl. rewrite lookup_alter_eq. split; [|split].
    + destruct (ms_entries s !! fp); [|done]. simpl. by destruct (shape_classify resolved aggs).
    + by destruct (ms_entries s !! fp).
    + subst st. unfold slot_of, replaced, outstanding. destruct subsumed; simpl;
        rewrite !lookup_insert_eq, lookup_alter_eq; f_equal;
        (apply bool_decide_eq_false_2 || apply bool_decide_eq_true_2); set_solver.
Qed.

Lemma register_ok fp resolved aggs limit pinned subsumed s :
  sys_ok s -> no_table s fp -> sys_ok (register_mv fp resolved aggs limit pinned subsumed s).
Proof.
  intros H Hn. destruct (register_slot fp resolved aggs limit pinned subsumed s) as (Ha & e & He & Hst & Hs).
  apply (agrees_ok fp s); [done|done|]. rewrite Hs. apply slot_replace; [apply H|exact Hn|].
  split; [done|]. rewrite Hst. by destruct subsumed.
Qed.

Lemma failed_cleanup_ok fp s : sys_ok s -> no_table s fp -> sys_ok (failed_cleanup_mv fp s).
Proof.
  intros H Hn. apply (agrees_ok fp s); [done| |].
  - eapply agrees_trans; [apply agrees_cached|eapply agrees_trans; [apply agrees_entries|apply agrees_populating]].
    + intros; by apply lookup_delete_ne.
    + intros; by apply lookup_delete_ne.
    + set_solver.
  - assert (Hs : slot_of (failed_cleanup_mv fp s) fp = replaced None None false (slot_of s fp)).
    { unfold slot_of, replaced, outstanding. simpl. rewrite !lookup_delete_eq. f_equal.
      apply bool_decide_false. set_solver. }
    rewrite Hs. by apply slot_replace; [apply H|exact Hn|].
Qed.

Lemma set_populating_ok fp x s :
  sys_ok s -> (forall fp', fp' <> fp -> fp' ∈ x <-> fp' ∈ ms_populating s) ->
  (fp ∈ x -> forall e, ms_entries s !! fp = Some e -> dirtied (mm_state (en_mv e)) = None /\ en_state e <> Ready) ->
  sys_ok (set_populating x s).
Proof.
  intros H Hx Hf. apply (agrees_ok fp s); [done|by apply agrees_populating|].
  destruct (H fp) as [H1 H2 H3 H4 H5 H6]. split; try done. simpl. intros e E Hp%bool_decide_eq_true. by apply Hf.
Qed.

Lemma repopulate_ok fp s : sys_ok s -> mv_dirty_eval_required s fp = false -> sys_ok (repopulate fp s).
Proof.
  intros H Hn. unfold repopulate. apply (set_populating_ok fp).
  - apply update_ok; [done|]. intros e _. by apply weakens_state.
  - set_solver.
  - intros _ e. simpl. rewrite lookup_alter_eq. destruct (ms_entries s !! fp) as [e0|] eqn:E; [|done].
    intros [= <-]. simpl. split; [|done]. by apply (proj1 (nd_iff s fp) Hn).
Qed.

Lemma query_readmit_ok fp s : sys_ok s -> mv_dirty_eval_required s fp = false -> sys_ok (readmit_mv fp s).
Proof.
  intros H Hn. unfold readmit_mv. destruct (ms_cached s !! fp) as [f|] eqn:Ef; [|done].
  apply repopulate_ok; [|done]. apply (set_cached_ok fp); [done|intros; by apply lookup_alter_ne|].
  intros e _ _. by rewrite lookup_alter_eq, Ef.
Qed.

Lemma invalidated_nd fp s :
  sys_ok s -> cf_invalidated <$> ms_cached s !! fp = Some true -> mv_dirty_eval_required s fp = false.
Proof.
  intros H Hi. apply nd_iff. intros e E. destruct (dirtied (mm_state (en_mv e))) eqn:Ed; [|done].
  assert (Hl : cf_invalidated <$> ms_cached s !! fp = Some false).
  { apply (so_live _ _ _ (H fp) e E). left. rewrite Ed. by eexists. }
  congruence.
Qed.

Lemma limit_bump_ok now fp s : sys_ok s -> sys_ok (limit_bump_mv now fp s).
Proof.
  intros H. unfold limit_bump_mv. destruct (ms_cached s !! fp); [|done].
  apply repopulate_ok; [by apply mv_dirty_mark_ok|apply nd_mark].
Qed.

Lemma schedule_ok fp h e s :
  sys_ok s -> ms_entries s !! fp = Some e -> mm_state (en_mv e) = MvPending h ->
  sys_ok (command_send (CmdMvBuild fp) (update_entry fp (entry_mv (state_set (MvScheduled h))) s)).
Proof.
  intros H E Hs. apply command_send_ok; [|done]. apply update_ok; [done|].
  intros e' E'. rewrite E in E'. injection E' as <-. by apply weakens_schedule.
Qed.

Lemma mv_schedule_ok fp h s : sys_ok s -> sys_ok (mv_schedule fp h s).
Proof.
  intros H. unfold mv_schedule. destruct (ms_entries s !! fp) as [e|] eqn:E; [|done].
  case_bool_decide; [|done]. by apply (schedule_ok fp h e).
Qed.

Lemma mv_pinned_bootstrap_ok now fp s : sys_ok s -> sys_ok (mv_pinned_bootstrap now fp s).
Proof.
  intros H. unfold mv_pinned_bootstrap. destruct (negb _); [done|].
  destruct (ms_entries s !! fp) as [e|] eqn:E; [|done].
  destruct (mm_state (en_mv e)) as [| |h| | | |] eqn:Es; try done. destruct (negb _); [done|].
  by apply (schedule_ok fp h e).
Qed.

Lemma ready_ok now fp db s :
  sys_ok s -> fp ∈ ms_populating s -> cf_invalidated <$> ms_cached s !! fp = Some false ->
  (forall fp', fp' <> fp -> same_rows s db fp') -> sys_ok (ready_finalize_mv now fp db s).
Proof.
  intros H Hp Hi Hs. unfold ready_finalize_mv. apply mv_pinned_bootstrap_ok.
  assert (H1 : sys_ok (set_populating (ms_populating s ∖ {[fp]}) (set_db db s))).
  { apply (set_populating_ok fp); [|set_solver|set_solver]. apply set_db_ok; [done|].
    intros fp' Hd. apply Hs. intros ->. unfold mv_dirty_eval_required in Hd.
    destruct (ms_entries s !! fp) as [e|] eqn:E; [|done]. apply bool_decide_eq_true in Hd.
    destruct (so_pop _ _ _ (H fp) e E) as [Hn _]; [by apply bool_decide_eq_true|]. rewrite Hn in Hd. by destruct Hd. }
  set (s1 := set_populating _ _) in *. apply (agrees_ok fp s1); [done|apply agrees_update|].
  rewrite slot_update. destruct (H1 fp) as [A1 A2 A3 A4 A5 A6]. destruct (ms_entries s1 !! fp) as [e|] eqn:E.
  - assert (Hno : sl_pop (slot_of s1 fp) = false) by (simpl; apply bool_decide_eq_false_2; set_solver).
    simpl in *. rewrite E in *. split; simpl.
    + destruct (bool_decide (fp ∈ ms_inflight s)); [|done].
      destruct A1 as (o & Ho & Ht & Hb). exists o. split; [done|]. split; [done|].
      apply entry_building_bit in Hb. by apply entry_building_bit.
    + intros e' [= <-] Hf. exact (A2 e eq_refl Hf).
    + intros e' h [= <-] Hf. exact (A3 e h eq_refl Hf).
    + intros e' [= <-] _. done.
    + intros e' [= <-]. congruence.
    + intros e' [= <-] Hf. exact (A6 e eq_refl Hf).
  - replace (with_entry _ _) with (slot_of s1 fp); [apply H1|]. unfold with_entry, slot_of. simpl. simpl in E. by rewrite E.
Qed.

Lemma sweep_table s fp :
  ms_tables (mv_dirty_sweep s) !! fp =
    if bool_decide (mv_state_of s fp = Some (MvPending true)) then (fun _ => no_rows) <$> ms_tables s !! fp
    else ms_tables s !! fp.
Proof.
  unfold mv_dirty_sweep, mv_state_of. simpl. rewrite map_lookup_imap.
  destruct (ms_tables s !! fp); simpl; by destruct (bool_decide _).
Qed.

Lemma mv_dirty_sweep_ok s : sys_ok s -> sys_ok (mv_dirty_sweep s).
Proof.
  intros H fp. pose proof (sweep_table s fp) as Ht. destruct (H fp) as [H1 H2 H3 H4 H5 H6].
  assert (Hi : is_Some (ms_tables (mv_dirty_sweep s) !! fp) <-> is_Some (ms_tables s !! fp))
    by (rewrite Ht; destruct (bool_decide _); [by rewrite fmap_is_Some|done]).
  assert (Hd : forall e, ms_entries s !! fp = Some e -> is_Some (dirtied (mm_state (en_mv e))) ->
    ms_tables (mv_dirty_sweep s) !! fp = ms_tables s !! fp).
  { intros e E Hd. rewrite Ht, bool_decide_false; [done|]. unfold mv_state_of. rewrite E. intros [= Hs].
    rewrite Hs in Hd. by destruct Hd. }
  split; simpl in *.
  - destruct (bool_decide (fp ∈ ms_inflight s)).
    + destruct H1 as (o & Ho & Hot & Hb). exists o. split; [done|]. split; [|done].
      destruct o; simpl in *; by rewrite Hi.
    + destruct H1 as (Ho & Hot & Hb). by rewrite Hi.
  - intros e E Hs. destruct (H2 e E Hs) as (q & plan & Hq). exists q, plan. rewrite (Hd e E); [done|by rewrite Hs].
  - intros e h E Hs. destruct (H3 e h E Hs) as (q & o & Hq). exists q, o. rewrite (Hd e E); [done|by rewrite Hs].
  - done.
  - done.
  - done.
Qed.

(** ** Builds *)

Lemma omap_middle {A B} (f : A -> option B) l i x :
  l !! i = Some x -> omap f l = omap f (take i l) ++ option_list (f x) ++ omap f (drop (S i) l).
Proof.
  intros H. rewrite <- (take_drop_middle l i x H) at 1. rewrite omap_app. simpl. by destruct (f x).
Qed.

Lemma omap_delete {A B} (f : A -> option B) l i :
  omap f (delete i l) = omap f (take i l) ++ omap f (drop (S i) l).
Proof. by rewrite delete_take_drop, omap_app. Qed.

Lemma omap_insert {A B} (f : A -> option B) l i x y :
  l !! i = Some x -> omap f (<[i := y]> l) = omap f (take i l) ++ option_list (f y) ++ omap f (drop (S i) l).
Proof.
  intros H. rewrite (insert_take_drop l i y) by (by eapply lookup_lt_Some). rewrite omap_app. simpl. by destruct (f y).
Qed.

Lemma task_of_self b : task_of (cx_fingerprint (mb_ctx b)) b = Some (inl b).
Proof. unfold task_of. by rewrite bool_decide_true. Qed.
Lemma task_of_other fp b : fp <> cx_fingerprint (mb_ctx b) -> task_of fp b = None.
Proof. intros H. unfold task_of. by rewrite bool_decide_false. Qed.
Lemma completion_of_self fp o : completion_of fp (CmdMvBuildComplete fp o) = Some (inr o).
Proof. simpl. by rewrite bool_decide_true. Qed.
Lemma completion_of_other fp fp' o : fp' <> fp -> completion_of fp' (CmdMvBuildComplete fp o) = None.
Proof. intros H. simpl. by rewrite bool_decide_false. Qed.

(** The only thing under way for a query. *)
Lemma single_out db fp sl (l r : list Out) o :
  slot_ok db fp sl -> sl_out sl = l ++ o :: r -> sl_inflight sl = true /\ l = [] /\ r = [].
Proof.
  intros [H1 _ _ _ _ _] E. destruct (sl_inflight sl).
  - destruct H1 as (o' & Ho & _). rewrite Ho in E. split; [done|]. destruct l as [|x l]; [|by destruct l].
    by injection E as _ <-.
  - destruct H1 as (Ho & _). rewrite Ho in E. by destruct l.
Qed.

Lemma task_out s i b :
  sys_ok s -> ms_builds s !! i = Some b ->
  let fp := cx_fingerprint (mb_ctx b) in
  fp ∈ ms_inflight s /\ outstanding s fp = [inl b] /\ omap (task_of fp) (take i (ms_builds s)) = [] /\
  omap (task_of fp) (drop (S i) (ms_builds s)) = [] /\ omap (completion_of fp) (ms_commands s) = [].
Proof.
  intros H Hi fp. assert (Ho : outstanding s fp = omap (task_of fp) (take i (ms_builds s)) ++
    inl b :: (omap (task_of fp) (drop (S i) (ms_builds s)) ++ omap (completion_of fp) (ms_commands s))).
  { unfold outstanding. rewrite (omap_middle _ _ i b Hi). unfold fp. rewrite task_of_self. simpl. by rewrite <- app_assoc. }
  destruct (single_out _ _ (slot_of s fp) _ _ _ (H fp) Ho) as (Hin & Hl & [Hr Hc]%app_nil).
  rewrite Ho, Hl, Hr, Hc. by apply bool_decide_eq_true in Hin.
Qed.

Lemma completion_out s i fp outcome :
  sys_ok s -> ms_commands s !! i = Some (CmdMvBuildComplete fp outcome) ->
  fp ∈ ms_inflight s /\ outstanding s fp = [inr outcome] /\ omap (task_of fp) (ms_builds s) = [] /\
  omap (completion_of fp) (delete i (ms_commands s)) = [].
Proof.
  intros H Hi. assert (Ho : outstanding s fp = (omap (task_of fp) (ms_builds s) ++
    omap (completion_of fp) (take i (ms_commands s))) ++ inr outcome :: omap (completion_of fp) (drop (S i) (ms_commands s))).
  { unfold outstanding. rewrite (omap_middle _ _ i _ Hi), completion_of_self. simpl. by rewrite <- app_assoc. }
  destruct (single_out _ _ (slot_of s fp) _ _ _ (H fp) Ho) as (Hin & [Hb Hl]%app_nil & Hr).
  rewrite Ho, omap_delete, Hb, Hl, Hr. by apply bool_decide_eq_true in Hin.
Qed.

Lemma dispatch_slot fp s ctx :
  sys_ok s -> ms_phase s = FrameIdle -> fp ∉ ms_inflight s -> mv_context_snapshot fp s = Some ctx ->
  sys_ok (set_builds (ms_builds s ++ [{| mb_ctx := ctx; mb_snapshot := None |}])
    (mv_state_write fp (MvBuilding (cx_has_table ctx)) (set_inflight ({[fp]} ∪ ms_inflight s) s))).
Proof.
  intros H Hph Hnin Hctx. unfold mv_context_snapshot in Hctx.
  destruct (ms_entries s !! fp) as [e|] eqn:E; [|done].
  destruct (mm_state (en_mv e)) as [| | |h| | |] eqn:Es; try done.
  case_bool_decide as Hr; [|done]. destruct (en_resolved e) as [q|] eqn:Eq; [|done]. injection Hctx as <-.
  set (b := {| mb_ctx := _; mb_snapshot := None |}). cbn [cx_has_table].
  assert (Hfp : cx_fingerprint (mb_ctx b) = fp) by done.
  apply (agrees_ok fp s); [done| |].
  - eapply (agrees_trans _ _ (set_inflight ({[fp]} ∪ ms_inflight s) s)); [apply agrees_inflight; set_solver|].
    eapply agrees_trans; [apply agrees_update|]. apply agrees_builds. intros fp' Hne. rewrite omap_app. simpl. rewrite task_of_other by (by rewrite Hfp).
    by rewrite app_nil_r.
  - destruct (H fp) as [H1 H2 H3 H4 H5 H6]. simpl in *. rewrite E, bool_decide_false in H1 by done.
    destruct H1 as (Ho & Ht & _). simpl in Ht. rewrite Es in Ht. unfold outstanding in Ho. apply app_nil in Ho as [Hob Hoc].
    split; simpl; rewrite ?lookup_alter_eq, ?E.
    + rewrite bool_decide_true by set_solver. exists (inl b). unfold outstanding. simpl.
      rewrite omap_app, Hob, Hoc. simpl. unfold task_of. rewrite bool_decide_true by done. split; [done|].
      split; [|done]. rewrite Ht. simpl. split; [by intros [= ->]|by intros ->].
    + by intros e' [= <-].
    + intros e' h' [= <-] _. exists q, (inl b). split; [done|]. unfold outstanding. simpl.
      rewrite omap_app, Hob, Hoc. simpl. unfold task_of. by rewrite bool_decide_true.
    + intros e' [= <-] _. apply (H4 e E). by right.
    + intros e' [= <-] Hp. by destruct (H5 e E Hp).
    + rewrite Hph. intros e' _ Hp%bool_decide_eq_true. by apply not_elem_of_empty in Hp.
Qed.

Lemma mv_build_dispatch_ok fp s : sys_ok s -> ms_phase s = FrameIdle -> sys_ok (mv_build_dispatch fp s).
Proof.
  intros H Hp. unfold mv_build_dispatch. case_bool_decide as Hin; [done|].
  destruct (mv_context_snapshot fp s) as [ctx|] eqn:Ec; [|done]. by apply (dispatch_slot fp s ctx).
Qed.

Definition with_out (o : Out) (t : option Content) (sl : Slot) : Slot :=
  {| sl_entry := sl_entry sl; sl_flags := sl_flags sl; sl_inflight := sl_inflight sl; sl_table := t;
     sl_out := [o]; sl_pop := sl_pop sl; sl_touched := sl_touched sl |}.

(** A build moves on: what it leaves and what it started with stay as stated. *)
Lemma slot_advance db fp sl o o' t :
  slot_ok db fp sl -> sl_inflight sl = true -> sl_out sl = [o] ->
  out_table t o' -> (forall h, out_start o h -> out_start o' h) ->
  (forall q l, out_current db fp q l (sl_table sl) o -> out_current db fp q l t o') ->
  slot_ok db fp (with_out o' t sl).
Proof.
  intros [H1 H2 H3 H4 H5 H6] Hi Ho Ht Hst Hc. rewrite Hi in H1. destruct H1 as (o1 & E1 & Ht1 & Hb1).
  rewrite Ho in E1. injection E1 as <-. split; simpl; try done.
  - rewrite Hi. exists o'. split; [done|]. split; [done|]. destruct (sl_entry sl) as [e|]; [|done].
    apply entry_building_bit in Hb1. apply entry_building_bit.
    destruct (build_bit _); [by apply Hst|done].
  - intros e E Hf. rewrite E in Hb1. unfold entry_building in Hb1. simpl in Hb1. by rewrite Hf in Hb1.
  - intros e h E Hf. destruct (H3 e h E Hf) as (q & o2 & Hq & Ho2 & Hcur). rewrite Ho in Ho2. injection Ho2 as <-.
    exists q, o'. split; [done|]. split; [done|]. by apply Hc.
Qed.

Lemma snapshot_ok i ctx s :
  sys_ok s -> ms_builds s !! i = Some {| mb_ctx := ctx; mb_snapshot := None |} ->
  sys_ok (set_builds (<[i := {| mb_ctx := ctx; mb_snapshot := Some (ms_db s) |}]> (ms_builds s)) s).
Proof.
  intros H Hi. set (b := {| mb_ctx := ctx; mb_snapshot := None |}) in Hi. set (b' := {| mb_ctx := ctx; mb_snapshot := Some _ |}).
  destruct (task_out s i b H Hi) as (Hin & Ho & Hl & Hr & Hc). simpl in *. set (fp := cx_fingerprint ctx) in *.
  apply (agrees_ok fp s); [done| |].
  - apply agrees_builds. intros fp' Hne. rewrite (omap_insert _ _ i b b' Hi), (omap_middle _ _ i b Hi).
    rewrite !task_of_other by done. done.
  - assert (Hs : slot_of (set_builds (<[i := b']> (ms_builds s)) s) fp =
      with_out (inl b') (ms_tables s !! fp) (slot_of s fp)).
    { unfold slot_of, with_out, outstanding. simpl. rewrite (omap_insert _ _ i b b' Hi), Hl, Hr, Hc.
      assert (Hb : task_of fp b' = Some (inl b')) by apply (task_of_self b'). by rewrite Hb. }
    rewrite Hs. apply (slot_advance _ _ _ (inl b)); [apply H|by apply bool_decide_eq_true|done| |done|].
    + pose proof (so_out _ _ _ (H fp)) as H1. simpl in H1. rewrite bool_decide_true in H1 by done.
      destruct H1 as (o & Ho' & Ht & _). rewrite Ho in Ho'. by injection Ho' as <-.
    + intros q l (? & ? & ? & _). repeat split; try done. intros d. by intros [= <-].
Qed.

Lemma execute_table ctx d input t outcome t' :
  (is_Some t <-> cx_has_table ctx = true) -> mv_build_execute ctx d input t = (outcome, t') ->
  (is_Some t' <-> table_remains outcome = true) /\ out_start (inr outcome) (cx_has_table ctx) /\
  (forall names first, outcome = Built names first -> t' = Some (body (cx_resolved ctx) (cx_max_limit ctx) d)).
Proof.
  intros Ht. unfold mv_build_execute, mv_build_batch. destruct (cx_has_table ctx) eqn:Eh.
  - assert (Hs : is_Some t) by (by apply Ht). destruct Hs as [c ->].
    destruct (match cx_output_columns ctx with Some cols => Some cols | None => _ end); [destruct (bi_sql_ok input)|];
      intros [= <- <-]; simpl; (split; [split; [done|by eexists]|]); (split; [done|]); try done; by intros ? ? [= <- <-].
  - assert (Hs : t = None).
    { destruct t as [c|]; [|done]. assert (false = true) by (apply Ht; by eexists). done. }
    subst t.
    destruct (mv_gate_passes _ _ _ _ _ _) as [[]|]; [|intros [= <- <-]..].
    + destruct (match cx_output_columns ctx with Some cols => Some cols | None => _ end); [destruct (bi_sql_ok input)|];
        intros [= <- <-]; simpl; (split; [split; [by try (intros [])|first [done|by eexists]]|]); (split; [done|]); try done; by intros ? ? [= <- <-].
    + simpl. split; [split; [by intros []|done]|]. done.
    + simpl. split; [split; [by intros []|done]|]. done.
Qed.

Lemma finish_ok i b outcome t s :
  sys_ok s -> ms_builds s !! i = Some b ->
  (is_Some t <-> table_remains outcome = true) -> out_start (inr outcome) (cx_has_table (mb_ctx b)) ->
  (forall q l, let fp := cx_fingerprint (mb_ctx b) in
     out_current (ms_db s) fp q l (ms_tables s !! fp) (inl b) -> out_current (ms_db s) fp q l t (inr outcome)) ->
  sys_ok (build_finish b outcome t (set_builds (delete i (ms_builds s)) s)).
Proof.
  intros H Hi Ht Hst Hcur. destruct (task_out s i b H Hi) as (Hin & Ho & Hl & Hr & Hc). simpl in *.
  set (fp := cx_fingerprint (mb_ctx b)) in *. unfold build_finish. fold fp.
  apply (agrees_ok fp s); [done| |].
  - eapply agrees_trans; [|apply agrees_send; intros fp' Hne; by apply completion_of_other].
    eapply agrees_trans; [apply agrees_builds|apply agrees_tables; intros; by apply lookup_partial_alter_ne].
    intros fp' Hne. rewrite omap_delete, (omap_middle _ _ i b Hi), task_of_other by done. done.
  - match goal with |- slot_ok _ _ (slot_of ?x fp) =>
      assert (Hs : slot_of x fp = with_out (inr outcome) t (slot_of s fp)) end.
    { unfold slot_of, with_out, outstanding. simpl. rewrite lookup_partial_alter_eq.
      rewrite omap_delete, Hl, Hr, omap_app, Hc. simpl. by rewrite (bool_decide_true (fp = fp)). }
    rewrite Hs. apply (slot_advance _ _ _ (inl b)); [apply H|by apply bool_decide_eq_true|done|done| |done].
    intros h Hh. simpl in Hh. by rewrite <- Hh.
Qed.

Lemma task_table s i b :
  sys_ok s -> ms_builds s !! i = Some b ->
  is_Some (ms_tables s !! cx_fingerprint (mb_ctx b)) <-> cx_has_table (mb_ctx b) = true.
Proof.
  intros H Hi. destruct (task_out s i b H Hi) as (Hin & Ho & _).
  pose proof (so_out _ _ _ (H (cx_fingerprint (mb_ctx b)))) as H1. simpl in H1. rewrite bool_decide_true in H1 by done.
  destruct H1 as (o & Ho' & Ht & _). simpl in Ho. rewrite Ho in Ho'. by injection Ho' as <-.
Qed.

Lemma build_ok i ctx d input outcome t s :
  sys_ok s -> ms_builds s !! i = Some {| mb_ctx := ctx; mb_snapshot := Some d |} ->
  mv_build_execute ctx d input (ms_tables s !! cx_fingerprint ctx) = (outcome, t) ->
  sys_ok (build_finish {| mb_ctx := ctx; mb_snapshot := Some d |} outcome t (set_builds (delete i (ms_builds s)) s)).
Proof.
  intros H Hi He. destruct (execute_table _ _ _ _ _ _ (task_table s i _ H Hi) He) as (Ht & Hst & Hb).
  apply finish_ok; [done|done|done|done|]. intros q l fp (_ & Hq & Hl & Hd). simpl in *.
  destruct outcome as [names first| |h]; try done. rewrite (Hb _ _ eq_refl), Hq, Hl. by rewrite Hd.
Qed.

Lemma build_lost_ok i b s :
  sys_ok s -> ms_builds s !! i = Some b ->
  sys_ok (build_finish b (Failed (cx_has_table (mb_ctx b))) (ms_tables s !! cx_fingerprint (mb_ctx b))
    (set_builds (delete i (ms_builds s)) s)).
Proof.
  intros H Hi. apply finish_ok; [done|done| |done|done]. rewrite (task_table s i b H Hi). simpl.
  by destruct (cx_has_table _).
Qed.

(** ** Completions *)

Definition settled (e : option MvEntry) (t : option Content) (sl : Slot) : Slot :=
  {| sl_entry := e; sl_flags := sl_flags sl; sl_inflight := false; sl_table := t; sl_out := [];
     sl_pop := sl_pop sl; sl_touched := sl_touched sl |}.

Lemma slot_settle db fp sl e t :
  slot_ok db fp sl ->
  (is_Some t <-> has_table <$> entry_mv_state e = Some true) -> building <$> entry_mv_state e <> Some true ->
  (forall e', e = Some e' -> exists e0, sl_entry sl = Some e0 /\ en_state e' = en_state e0 /\
     (is_Some (dirtied (mm_state (en_mv e'))) -> is_Some (dirtied (mm_state (en_mv e0))))) ->
  (forall e', e = Some e' -> mm_state (en_mv e') = MvFresh ->
     exists q plan, en_resolved e' = Some q /\ t = Some (body q (mm_limit (en_mv e')) db) /\
       mm_serve_plan (en_mv e') = Some plan /\ plan_new fp q (mp_output_columns plan) = Some plan) ->
  slot_ok db fp (settled e t sl).
Proof.
  intros [_ _ _ H4 H5 H6] Ht Hb He Hf.
  assert (Hn : forall e' e0, e = Some e' -> sl_entry sl = Some e0 -> dirtied (mm_state (en_mv e0)) = None ->
    dirtied (mm_state (en_mv e')) = None).
  { intros e' e0 E E0 Hd. destruct (He e' E) as (e1 & E1 & _ & Hi). rewrite E0 in E1. injection E1 as <-.
    destruct (dirtied (mm_state (en_mv e'))); [|done]. destruct Hi as [x Hx]; [by eexists|]. congruence. }
  split; simpl; try done.
  - intros e' h E Hs. rewrite E in Hb. simpl in Hb. by rewrite Hs in Hb.
  - intros e' E Hl. destruct (He e' E) as (e0 & E0 & Hst & Hi). apply (H4 e0 E0). rewrite <- Hst.
    destruct Hl; [left|right]; auto.
  - intros e' E Hp. destruct (He e' E) as (e0 & E0 & Hst & _). destruct (H5 e0 E0 Hp) as [Hd Hr].
    split; [by eapply Hn|by rewrite Hst].
  - intros e' E Hp. destruct (He e' E) as (e0 & E0 & _). eapply Hn; [done|done|by apply H6].
Qed.

(** The completion is taken and its query settled with entry map [m] and tables [ts]. *)
Lemma settle_ok s i fp outcome m ts :
  sys_ok s -> ms_commands s !! i = Some (CmdMvBuildComplete fp outcome) ->
  (forall fp', fp' <> fp -> m !! fp' = ms_entries s !! fp') ->
  (forall fp', fp' <> fp -> ts !! fp' = ms_tables s !! fp') ->
  slot_ok (ms_db s) fp (settled (m !! fp) (ts !! fp) (slot_of s fp)) ->
  sys_ok (set_entries m (set_tables ts (set_inflight (ms_inflight s ∖ {[fp]})
    (set_commands (delete i (ms_commands s)) s)))).
Proof.
  intros H Hi Hm Hts Hs. destruct (completion_out s i fp outcome H Hi) as (Hin & Ho & Hb & Hc).
  apply (agrees_ok fp s); [done| |].
  - eapply agrees_trans; [|by apply agrees_entries]. eapply agrees_trans; [|by apply agrees_tables].
    eapply agrees_trans; [|apply (agrees_inflight _ (ms_inflight s ∖ {[fp]})); set_solver].
    apply agrees_commands. intros fp' Hne. rewrite omap_delete, (omap_middle _ _ i _ Hi), completion_of_other by done. done.
  - match goal with |- slot_ok _ _ (slot_of ?x fp) =>
      assert (Hx : slot_of x fp = settled (m !! fp) (ts !! fp) (slot_of s fp)) end.
    { unfold slot_of, settled, outstanding. simpl. rewrite Hb, Hc, bool_decide_false by set_solver. done. }
    by rewrite Hx.
Qed.

(** The state once a completion is taken from the queue. *)
Definition taken (i : nat) (fp : Fingerprint) (s : MvSys) : MvSys :=
  set_inflight (ms_inflight s ∖ {[fp]}) (set_commands (delete i (ms_commands s)) s).

Lemma completion_slot s i fp outcome :
  sys_ok s -> ms_commands s !! i = Some (CmdMvBuildComplete fp outcome) ->
  (is_Some (ms_tables s !! fp) <-> table_remains outcome = true) /\
  entry_building (ms_entries s !! fp) (inr outcome).
Proof.
  intros H Hi. destruct (completion_out s i fp outcome H Hi) as (Hin & Ho & _).
  pose proof (so_out _ _ _ (H fp)) as H1. simpl in H1. rewrite bool_decide_true in H1 by done.
  destruct H1 as (o & Ho' & Ht & Hb). rewrite Ho in Ho'. by injection Ho' as <-.
Qed.

Lemma dropped_ok s i fp outcome :
  sys_ok s -> ms_commands s !! i = Some (CmdMvBuildComplete fp outcome) ->
  building <$> mv_state_of s fp <> Some true ->
  sys_ok (if table_remains outcome then mv_table_drop fp (taken i fp s) else taken i fp s).
Proof.
  intros H Hi Hb. destruct (completion_slot s i fp outcome H Hi) as [Ht Heb].
  set (ts := if table_remains outcome then delete fp (ms_tables s) else ms_tables s).
  assert (Hts : ts !! fp = None).
  { subst ts. destruct (table_remains outcome); [apply lookup_delete_eq|].
    destruct (ms_tables s !! fp); [|done]. by destruct Ht as [Ht _]; specialize (Ht ltac:(by eexists)). }
  assert (Hgoal : sys_ok (set_entries (ms_entries s) (set_tables ts (taken i fp s)))).
  { apply (settle_ok s i fp outcome); [done|done|done| |].
    - intros fp' Hne. subst ts. destruct (table_remains outcome); [by apply lookup_delete_ne|done].
    - rewrite Hts. apply slot_settle; [apply H| |done| |].
      + split; [by intros []|]. unfold mv_state_of in Hb. unfold entry_building in Heb.
        destruct (ms_entries s !! fp) as [e|]; [|done]. simpl in *. intros [= Hh].
        by destruct (mm_state (en_mv e)) as [| |[]|[]|[]|[]|].
      + intros e E. by exists e.
      + intros e E Hf. unfold entry_building in Heb. rewrite E in Heb. simpl in Heb. by rewrite Hf in Heb. }
  subst ts. by destruct (table_remains outcome).
Qed.

Lemma building_settle_ok s i fp outcome e f ts :
  sys_ok s -> ms_commands s !! i = Some (CmdMvBuildComplete fp outcome) -> ms_entries s !! fp = Some e ->
  (forall fp', fp' <> fp -> ts !! fp' = ms_tables s !! fp') ->
  (is_Some (ts !! fp) <-> has_table (mm_state (en_mv (f e))) = true) -> building (mm_state (en_mv (f e))) = false ->
  en_state (f e) = en_state e ->
  (is_Some (dirtied (mm_state (en_mv (f e)))) -> is_Some (dirtied (mm_state (en_mv e)))) ->
  (mm_state (en_mv (f e)) = MvFresh ->
     exists q plan, en_resolved (f e) = Some q /\ ts !! fp = Some (body q (mm_limit (en_mv (f e))) (ms_db s)) /\
       mm_serve_plan (en_mv (f e)) = Some plan /\ plan_new fp q (mp_output_columns plan) = Some plan) ->
  sys_ok (update_entry fp f (set_tables ts (taken i fp s))).
Proof.
  intros H Hi E Hts Ht Hb Hst Hd Hf.
  assert (Hgoal : sys_ok (set_entries (alter f fp (ms_entries s)) (set_tables ts (taken i fp s)))); [|done].
  apply (settle_ok s i fp outcome); [done|done|intros; by apply lookup_alter_ne|done|].
  rewrite lookup_alter_eq, E. simpl. apply slot_settle; [apply H| | | |].
  - rewrite Ht. simpl. split; [by intros ->|by intros [= ->]].
  - simpl. by rewrite Hb.
  - intros e' [= <-]. by exists e.
  - intros e' [= <-]. apply Hf.
Qed.

Lemma update_update fp f g s :
  update_entry fp f (update_entry fp g s) = update_entry fp (f ∘ g) (set_tables (ms_tables s) s).
Proof. unfold update_entry, set_entries. simpl. by rewrite alter_alter_eq. Qed.

Lemma outcome_apply_ok now s i fp outcome e :
  sys_ok s -> ms_commands s !! i = Some (CmdMvBuildComplete fp outcome) -> ms_entries s !! fp = Some e ->
  building (mm_state (en_mv e)) = true ->
  sys_ok (mv_build_outcome_apply now fp (mm_state (en_mv e)) outcome (taken i fp s)).
Proof.
  intros H Hi E Hb. destruct (completion_slot s i fp outcome H Hi) as [Ht Heb].
  pose proof (building_settle_ok s i fp outcome e) as Hset.
  assert (Hdel : forall fp', fp' <> fp -> delete fp (ms_tables s) !! fp' = ms_tables s !! fp')
    by (intros; by apply lookup_delete_ne).
  unfold mv_build_outcome_apply. destruct outcome as [names first| |h].
  - assert (Htab : is_Some (ms_tables s !! fp)) by (by apply Ht). destruct (first && _).
    { apply (Hset (entry_mv (state_set (MvPending false))) (delete fp (ms_tables s))); try done.
      - rewrite lookup_delete_eq. split; [by intros []|done].
      - by intros []. }
    destruct (mm_state (en_mv e)) as [| | | |h|h|] eqn:Es; try done.
    + cbn [ms_entries taken set_inflight set_commands]. rewrite E. simpl.
      destruct (so_building _ _ _ (H fp) e h E Es) as (q & o & Hq & Ho & Hc).
      destruct (completion_out s i fp _ H Hi) as (_ & Ho' & _). simpl in Ho. rewrite Ho' in Ho. injection Ho as <-.
      simpl in Hc. rewrite Hq. simpl. destruct (plan_new fp q names) as [plan|] eqn:Ep.
      * assert (Hpn : plan_new fp q (mp_output_columns plan) = Some plan).
        { unfold plan_new in *. destruct (match q_order_by q with [] => _ | _ => _ end); [|done].
          simpl in *. by injection Ep as <-. }
        unfold mv_state_write. rewrite update_update. apply Hset; try done.
        intros _. by exists q, plan.
      * apply (Hset (entry_mv (state_set MvIneligible)) (delete fp (ms_tables s))); try done.
        rewrite lookup_delete_eq. split; [by intros []|done].
    + unfold mv_waste_record, mv_state_write.
      rewrite update_update. apply Hset; try done; by intros [].
  - apply (Hset (entry_mv (state_set MvIneligible)) (ms_tables s)); try done. by intros [].
  - unfold mv_waste_record, mv_state_write.
    rewrite update_update. apply Hset; try done; [|by intros []]. simpl. rewrite Ht. by destruct h.
Qed.

Lemma mv_build_complete_ok now s i fp outcome :
  sys_ok s -> ms_phase s = FrameIdle -> ms_commands s !! i = Some (CmdMvBuildComplete fp outcome) ->
  sys_ok (mv_build_complete now fp outcome (set_commands (delete i (ms_commands s)) s)).
Proof.
  intros H Hp Hi. unfold mv_build_complete. change (set_inflight _ _) with (taken i fp s). cbv zeta.
  change (ms_entries (taken i fp s)) with (ms_entries s).
  assert (Hdrop : building <$> mv_state_of s fp <> Some true ->
    sys_ok (if table_remains outcome then mv_table_drop fp (taken i fp s) else taken i fp s)) by (by apply dropped_ok).
  unfold mv_state_of in Hdrop. destruct (ms_entries s !! fp) as [e|] eqn:E; [|by apply Hdrop]. simpl in *.
  pose proof (outcome_apply_ok now s i fp outcome e H Hi E) as Happ.
  destruct (mm_state (en_mv e)); try (by apply Hdrop); try (by apply Happ).
  apply mv_build_dispatch_ok; [by apply Hdrop|]. by destruct (table_remains outcome).
Qed.

(** ** Every step *)

Lemma delete_command_ok i c s :
  sys_ok s -> ms_commands s !! i = Some c -> (forall fp, completion_of fp c = None) ->
  sys_ok (set_commands (delete i (ms_commands s)) s).
Proof.
  intros H Hi Hc fp. destruct (H fp) as [H1 H2 H3 H4 H5 H6].
  assert (Ho : outstanding (set_commands (delete i (ms_commands s)) s) fp = outstanding s fp).
  { unfold outstanding. simpl. rewrite omap_delete, (omap_middle _ _ i c Hi), Hc. done. }
  unfold slot_of in *. rewrite Ho. by split.
Qed.

Lemma if_writer_some f s s' : if_writer f s = Some s' -> s' = f s.
Proof. unfold if_writer. destruct (writer_free s); [by intros [= <-]|done]. Qed.

Lemma mv_command_ok now i s s' :
  sys_ok s -> quiet (LCommand now i) s -> mv_step (LCommand now i) s = Some s' -> sys_ok s'.
Proof.
  intros H [Hp Hq] Hs. cbn [mv_step] in Hs. destruct (ms_commands s !! i) as [cmd|] eqn:Ei; [|done].
  destruct cmd as [fp|fp outcome|fp]; apply if_writer_some in Hs as ->.
  - apply mv_build_dispatch_ok; [|done]. by eapply delete_command_ok.
  - by apply mv_build_complete_ok.
  - apply query_readmit_ok; [by eapply delete_command_ok|done].
Qed.

Lemma mv_step_ok l s s' : sys_ok s -> quiet l s -> mv_step l s = Some s' -> sys_ok s'.
Proof.
  intros H Hq Hs. destruct l as [fp st|fp|fp q aggs lim pin sub|fp|now fp|now fp db|fp|fp| |fp h|now i|i|i input|i|
    now fps hits olds|now policy|db]; try (by apply (mv_command_ok now i s)); cbn [mv_step] in Hs.
  - destruct (ms_entries s !! fp) eqn:E; [done|]. case_bool_decide; [done|]. injection Hs as <-. by apply placeholder_ok.
  - injection Hs as <-. apply update_ok; [done|]. intros e _. by apply weakens_state.
  - apply if_writer_some in Hs as ->. by apply register_ok.
  - case_bool_decide; [|done]. apply if_writer_some in Hs as ->. apply query_readmit_ok; [done|]. by apply invalidated_nd.
  - apply if_writer_some in Hs as ->. by apply limit_bump_ok.
  - destruct (ms_phase s); try done. destruct (bool_decide (fp ∈ _) && _) eqn:Eb; [|done].
    bool_hyps. injection Hs as <-. by apply ready_ok.
  - apply if_writer_some in Hs as ->. by apply failed_cleanup_ok.
  - apply if_writer_some in Hs as ->. by apply cache_query_evict_ok.
  - apply if_writer_some in Hs as ->. by apply mv_dirty_sweep_ok.
  - injection Hs as <-. by apply mv_schedule_ok.
  - destruct (ms_builds s !! i) as [[ctx [d|]]|] eqn:Ei; try done. injection Hs as <-. by apply snapshot_ok.
  - destruct (ms_builds s !! i) as [[ctx [d|]]|] eqn:Ei; try done.
    destruct (mv_build_execute _ _ _ _) as [outcome t] eqn:Ex. injection Hs as <-. by apply (build_ok i ctx d input).
  - destruct (ms_builds s !! i) as [b|] eqn:Ei; [|done]. injection Hs as <-. by apply build_lost_ok.
  - destruct (ms_phase s) as [|touched flagged|] eqn:Ep; try done; injection Hs as <-; apply row_replay_ok; try done.
    intros fp Hin. apply nd_touched; [done|]. by rewrite Ep.
  - simpl in Hq. destruct (ms_phase s) as [|touched flagged|] eqn:Ep; try done; injection Hs as <-.
    + by apply set_phase_ok.
    + apply flush_ok; [done| |done]. intros fp Hin. apply nd_touched; [done|]. by rewrite Ep.
  - simpl in Hq. destruct (ms_phase s) as [| |touched] eqn:Ep; try done. injection Hs as <-. by apply (commit_ok db touched).
Qed.

Lemma quiet_reach_ok db s : quiet_reach (sys_new db) s -> sys_ok s.
Proof. induction 1; [apply mv_sys_new_ok|by eapply mv_step_ok]. Qed.

(** C22: a hit served from a materialized result reads the rows of the query.  In every quiet
    history of registrations, hits, builds, completions, CDC frames, evictions and
    repopulations, when a request is sent to the table of a query the table exists and holds
    what the build's SELECT gives on the committed source rows, the plan is that of the
    query and the cap covers the rows needed. *)
Theorem mv_hit_current db0 s now fp rows_needed plan :
  quiet_reach (sys_new db0) s -> mv_serve_decide now fp rows_needed s = ServeMv plan ->
  exists e q, ms_entries s !! fp = Some e /\ en_resolved e = Some q /\
    ms_tables s !! fp = Some (body q (mm_limit (en_mv e)) (ms_db s)) /\
    plan_new fp q (mp_output_columns plan) = Some plan /\
    limit_is_sufficient (mm_limit (en_mv e)) rows_needed = true.
Proof.
  intros Hr%quiet_reach_ok. unfold mv_serve_decide. destruct (ms_entries s !! fp) as [e|] eqn:E; [|done].
  destruct (mm_state (en_mv e)) eqn:Es; try done; [by destruct (build_permitted _ _)|].
  destruct (so_fresh _ _ _ (Hr fp) e E Es) as (q & plan' & Hq & Ht & Hp & Hn). rewrite Hp.
  destruct (limit_is_sufficient _ _) eqn:El; [|done]. intros [= <-]. by exists e, q.
Qed.


End machine.

(** ** Backoff *)

(** What the writer does to the backoff record of a result, at the times it does it. *)
Inductive BackoffOp :=
| BoState (st : MvState)
| BoFresh (now : Z) (plan : MvServePlan)
| BoWaste (now : Z)
| BoDirty (now : Z).

Definition backoff_apply (m : MvMeta) (op : BackoffOp) : MvMeta :=
  match op with
  | BoState st => state_set st m
  | BoFresh now plan => fresh_mark now (plan_set plan m)
  | BoWaste now => waste_record now m
  | BoDirty now => dirty_apply now m
  end.

Definition op_before (limit : Z) (op : BackoffOp) : Prop :=
  match op with BoState _ => True | BoFresh now _ | BoWaste now | BoDirty now => (now <= limit)%Z end.

(** The cooldown of [wasted] wasted builds in a row. *)
Definition cooldown (wasted : Z) : Z := Z.min (2 ^ (wasted - 2)) 300 * second.

Definition backoff_ok (limit : Z) (m : MvMeta) : Prop :=
  (0 <= mm_wasted_builds m < 2 ^ 32)%Z /\
  match mm_retry_after m with
  | None => (mm_wasted_builds m < 2)%Z
  | Some t => (2 <= mm_wasted_builds m)%Z /\ exists last, (last <= limit)%Z /\ t = (last + cooldown (mm_wasted_builds m))%Z
  end.

Lemma backoff_duration_cooldown wasted : (2 <= wasted)%Z -> backoff_duration wasted = Some (cooldown wasted).
Proof.
  intros H. unfold backoff_duration. replace (wasted <? 2)%Z with false by (symmetry; apply Z.ltb_ge; lia).
  f_equal. unfold cooldown, MV_BACKOFF_BASE, MV_BACKOFF_CAP. rewrite Z.shiftl_1_l.
  assert (Hs : (0 < second)%Z) by done. destruct (Z.le_gt_cases (wasted - 2) 9).
  - rewrite (Z.min_l (wasted - 2) 9) by done. rewrite Z.mul_1_l, (Z.mul_comm second).
    by rewrite Z.mul_min_distr_nonneg_r by lia.
  - rewrite (Z.min_r (wasted - 2) 9) by lia.
    assert (2 ^ 9 <= 2 ^ (wasted - 2))%Z by (apply Z.pow_le_mono_r; lia).
    rewrite (Z.min_r (2 ^ (wasted - 2))) by lia. rewrite Z.min_r; lia.
Qed.

Lemma waste_record_ok limit now m : (now <= limit)%Z -> backoff_ok limit m -> backoff_ok limit (waste_record now m).
Proof.
  intros Hn [Hw _]. unfold backoff_ok, waste_record. simpl. set (w := Z.min _ _). split; [lia|].
  destruct (Z.lt_ge_cases w 2) as [Hlt|Hge].
  - unfold backoff_duration. by replace (w <? 2)%Z with true by (symmetry; apply Z.ltb_lt; lia).
  - rewrite backoff_duration_cooldown by done. simpl. split; [done|]. by exists now.
Qed.

Lemma backoff_apply_ok limit m op : op_before limit op -> backoff_ok limit m -> backoff_ok limit (backoff_apply m op).
Proof.
  intros Hb H. destruct op as [st|now plan|now|now]; simpl in *; [done|done|by apply waste_record_ok|].
  unfold dirty_apply. destruct (dirtied _); [|done]. destruct (bool_decide _); [|done].
  assert (Hw : backoff_ok limit (waste_record now m)) by (by apply waste_record_ok).
  destruct (mm_fresh_at m) as [t|]; [|exact Hw]. destruct (_ <=? _)%Z; [|exact Hw]. by split; simpl.
Qed.

(** The rebuild backoff is bounded and doubles.  Whatever builds, discards, failures and
    dirty marks up to a time, the count of wasted builds stays in a u32 without wrapping;
    fewer than two arm no cooldown, [n] arm one of [2^(n-2)] seconds up to 300 after the
    last of them, and a build is permitted again 300 seconds after that time at the latest. *)
Theorem mv_backoff_bounded shape_gate mv_limit ops limit :
  Forall (op_before limit) ops ->
  let m := fold_left backoff_apply ops (meta_new shape_gate mv_limit) in
  (0 <= mm_wasted_builds m < 2 ^ 32)%Z /\
  match mm_retry_after m with
  | None => (mm_wasted_builds m < 2)%Z
  | Some t => (2 <= mm_wasted_builds m)%Z /\ exists last, (last <= limit)%Z /\ t = (last + cooldown (mm_wasted_builds m))%Z
  end /\
  forall now, (limit + MV_BACKOFF_CAP <= now)%Z -> build_permitted now m = true.
Proof.
  intros Hops m. assert (H : backoff_ok limit m).
  { assert (H0 : backoff_ok limit (meta_new shape_gate mv_limit)) by (by split).
    subst m. revert H0. generalize (meta_new shape_gate mv_limit). induction Hops; intros m H0; simpl; [done|].
    by apply IHHops, backoff_apply_ok. }
  destruct H as [Hw Hr]. split; [done|]. split; [done|]. intros now Hnow. unfold build_permitted.
  destruct (mm_retry_after m) as [t|]; [|done]. destruct Hr as [_ (last & Hl & ->)]. apply Z.leb_le.
  unfold cooldown, MV_BACKOFF_CAP in *. assert (Hs : (0 < second)%Z) by done. nia.
Qed.

(** ** Runs *)

Section runs.
Context {DB Content : Type} (body : ResolvedQueryExpr -> option Z -> DB -> Content) (no_rows : Content).

Fixpoint mv_run (ls : list (MvLabel (DB := DB))) (s : MvSys) : option MvSys :=
  match ls with [] => Some s | l :: ls => mv_step body no_rows l s ≫= mv_run ls end.

Fixpoint quiet_run (ls : list (MvLabel (DB := DB))) (s : MvSys) : Prop :=
  match ls with
  | [] => True
  | l :: ls => quiet body l s /\ match mv_step body no_rows l s with Some s' => quiet_run ls s' | None => True end
  end.

Lemma mv_quiet_run_reach s0 ls s s' :
  quiet_reach body no_rows s0 s -> quiet_run ls s -> mv_run ls s = Some s' -> quiet_reach body no_rows s0 s'.
Proof.
  revert s. induction ls as [|l ls IH]; intros s Hr Hq Hs; simpl in *; [by injection Hs as <-|].
  destruct Hq as [Hq Hqs]. destruct (mv_step body no_rows l s) as [s1|] eqn:E; [|done].
  apply (IH s1); [by apply (MvStep _ _ _ l s)|done|done].
Qed.
End runs.

Module MvExamples.

(** One source value, which the table copies. *)
Definition rows (_ : ResolvedQueryExpr) (_ : option Z) (db : Z) : Z := db.
Definition query : ResolvedQueryExpr := MvShapeExamples.two_tables OrdAsc NullsDefault.
Definition found (sql_ok : bool) : BuildInput :=
  {| bi_populated_rows := Some 1000%Z; bi_source_rows := None; bi_result_rows := None; bi_compute_min_rows := 10;
     bi_size_ratio := 10; bi_describe := Some ["x"]; bi_sql_ok := sql_ok |}.

Notation Labels := (list (MvLabel (DB := Z))).
Definition registered (pinned : bool) : Labels :=
  [LPlaceholder 1 Loading; LRegister 1 query ∅ None pinned false; LMerge 0 1 7%Z].
Definition scheduled (h : bool) : Labels := [LSchedule 1 h].
Definition built : Labels := [LCommand 0 0; LSnapshot 0; LBuild 0 (found true); LCommand 0 0].
Definition frame (fp_list hits : list Fingerprint) (db : Z) : Labels :=
  [LRow 1 fp_list hits []; LFlush 1 Clock; LCommit db].
Definition fresh (pinned : bool) : Labels := registered pinned ++ scheduled false ++ built.
Definition rebuilt : Labels := fresh false ++ frame [] [1%N] 8%Z ++ scheduled true ++ built.
Definition start : MvSys (DB := Z) (Content := Z) := sys_new 0%Z.

Lemma only_entry_same (s : MvSys (DB := Z) (Content := Z)) db fp fp0 :
  bool_decide (dom (ms_entries s) = {[fp0]}) = true -> fp <> fp0 -> same_rows rows s db fp.
Proof.
  intros Hd%bool_decide_eq_true Hne e q E _. apply elem_of_dom_2 in E. rewrite Hd in E. set_solver.
Qed.

Lemma only_entry_committed (s : MvSys (DB := Z) (Content := Z)) db fp0 :
  bool_decide (dom (ms_entries s) = {[fp0]}) = true ->
  match ms_phase s with FrameFlushed touched => bool_decide (fp0 ∈ touched) | _ => true end = true ->
  quiet rows (LCommit db) s.
Proof.
  intros Hd Ht. simpl. destruct (ms_phase s); [done|done|]. apply bool_decide_eq_true in Ht.
  intros fp Hin. apply (only_entry_same _ _ _ fp0); [done|]. intros ->. done.
Qed.

Lemma flush_unpinned (s : MvSys (DB := Z) (Content := Z)) now policy :
  match ms_phase s with FrameOpen _ flagged => bool_decide (flagged = ∅) | _ => true end = true ->
  quiet rows (LFlush now policy) s.
Proof.
  simpl. destruct (ms_phase s); try done. intros ->%bool_decide_eq_true. set_solver.
Qed.

(** One step of a concrete quiet run: its premise, then the next state evaluated. *)
Ltac quiet_step :=
  split; [first [exact I
    | apply only_entry_committed with (fp0 := 1%N); by vm_compute
    | apply flush_unpinned; by vm_compute
    | intros fp Hne; apply only_entry_same with (fp0 := 1%N); [by vm_compute|exact Hne]
    | by vm_compute]|];
  match goal with |- context [mv_step ?r ?n ?l ?s] =>
    let t := eval vm_compute in (mv_step r n l s) in
    change (mv_step r n l s) with t end; cbn iota beta.

Lemma rebuilt_quiet : quiet_run rows 0%Z rebuilt start.
Proof.
  unfold rebuilt, fresh, registered, scheduled, built, frame. cbn [app quiet_run]. repeat quiet_step. exact I.
Qed.

End MvExamples.

Module MvWitness.
Import MvExamples.

Lemma mv_hit_current_witness :
  exists s plan e q, quiet_reach rows 0%Z start s /\ mv_serve_decide 2 1 None s = ServeMv plan /\ ms_db s = 8%Z /\
    ms_entries s !! 1%N = Some e /\ en_resolved e = Some q /\
    ms_tables s !! 1%N = Some (rows q (mm_limit (en_mv e)) (ms_db s)) /\
    plan_new 1 q (mp_output_columns plan) = Some plan /\ limit_is_sufficient (mm_limit (en_mv e)) None = true.
Proof.
  assert (Hr : exists s, mv_run rows 0%Z rebuilt start = Some s /\ ms_db s = 8%Z /\
    exists plan, mv_serve_decide 2 1 None s = ServeMv plan).
  { eexists. split; [vm_compute; reflexivity|]. split; [reflexivity|]. eexists. vm_compute. reflexivity. }
  destruct Hr as (s & Hs & Hdb & plan & Hd).
  assert (Hq : quiet_reach rows 0%Z start s)
    by (eapply mv_quiet_run_reach; [apply MvStart|apply rebuilt_quiet|exact Hs]).
  destruct (mv_hit_current rows 0%Z 0%Z s 2 1 None plan Hq Hd) as (e & q & H). exists s, plan, e, q.
  split; [exact Hq|]. split; [exact Hd|]. split; [exact Hdb|]. exact H.
Defined.


Lemma mv_backoff_bounded_witness :
  let m := fold_left backoff_apply [BoWaste 3; BoWaste 5; BoWaste 9]%Z (meta_new Gated None) in
  mm_retry_after m = Some (9 + 2 * second)%Z /\ build_permitted (9 + MV_BACKOFF_CAP) m = true.
Proof.
  intros m. split; [reflexivity|].
  apply (mv_backoff_bounded Gated None [BoWaste 3; BoWaste 5; BoWaste 9]%Z 9); [|done].
  repeat constructor; simpl; lia.
Defined.

End MvWitness.

Module MvGap.
Import MvExamples.

(** A hit on a table that does not hold the committed rows. *)
Definition stale_hit (s : MvSys (DB := Z) (Content := Z)) : bool :=
  match mv_serve_decide 9 1 None s with
  | ServeMv _ => negb (bool_decide (ms_tables s !! 1%N = Some (ms_db s)))
  | _ => false
  end.

(** The CDC invalidation of a pinned query queues a readmission without dirtying its result,
    and membership marks leave out flagged queries: after the readmission the old table is
    served. *)
Theorem pinned_invalidation_keeps_fresh :
  exists s, mv_run rows 0%Z (fresh true ++ frame [1%N] [1%N] 8%Z ++ [LCommand 2 0; LMerge 3 1 8%Z]) start = Some s /\
    stale_hit s = true.
Proof. eexists. split; [vm_compute; reflexivity|]. by vm_compute. Qed.

(** Rows of a large frame are replayed before its commit and the writer takes commands in
    between: a build started there reads the rows before the commit and becomes fresh. *)
Theorem mid_frame_build_stale :
  exists s, mv_run rows 0%Z (fresh false ++ [LRow 1 [] [1%N] []] ++ scheduled true ++ built ++
      [LFlush 2 Clock; LCommit 8%Z]) start = Some s /\ stale_hit s = true.
Proof. eexists. split; [vm_compute; reflexivity|]. by vm_compute. Qed.

(** A build command that finds the query not ready is skipped and leaves the result
    scheduled: after the readmission nothing is queued or under way, and neither hits nor
    the pinned bootstrap schedule it again. *)
Theorem skipped_build_strands_scheduled :
  exists s, mv_run rows 0%Z (registered false ++ scheduled false ++ frame [1%N] [] 8%Z ++
      [LCommand 2 0; LReadmit 1; LMerge 3 1 8%Z]) start = Some s /\
    ms_commands s = [] /\ ms_builds s = [] /\ mv_state_of s 1%N = Some (MvScheduled false) /\
    en_state <$> ms_entries s !! 1%N = Some Ready /\
    (forall now needed, mv_serve_decide now 1 needed s = ServeSourceRow) /\
    (forall h, mv_schedule 1 h s = s) /\ (forall now, mv_pinned_bootstrap now 1 s = s).
Proof. eexists. split; [vm_compute; reflexivity|]. repeat split; intros; vm_compute; reflexivity. Qed.

(** The clean-up after a failed population removes the entry and keeps the table. *)
Theorem failed_cleanup_orphans_table :
  exists s, mv_run rows 0%Z (fresh false ++ frame [1%N] [] 8%Z ++ [LReadmit 1; LFailed 1]) start = Some s /\
    ms_entries s !! 1%N = None /\ ms_tables s !! 1%N = Some 7%Z /\ ms_builds s = [] /\ ms_commands s = [].
Proof. eexists. split; [vm_compute; reflexivity|]. by vm_compute. Qed.

End MvGap.
