(* ===== verification/Wire.v ===== *)
(** * PostgreSQL wire protocol: framing, message parsers and encoders

    Models pg/protocol/: message.rs, the two codecs (frontend.rs, backend.rs) as functions
    from the codec's state and read buffer to a message, an error, a request for more bytes
    or a panic; the parsers of the extended-query messages (extended.rs); the encoders of
    what the proxy sends to a server (frontend_encode.rs) and to a client (encode.rs).
    Lengths and positions are [Z] ([usize] and the protocol's [int16]/[int32] at their
    widths); a [&str] is its bytes.

    The theorems: however a backend stream is cut into reads, the codec delivers its frames
    whole and in order, DataRows batched up to 64 KB; the pipeline [extended_query_build]
    writes decodes and parses to the statement, parameters and formats it was given;
    [WireGap] shows the length words the codecs mishandle. *)
From Stdlib Require Import Strings.Byte.
From S2P Require Import Prelude Value Cast Egress Session Dispatch.

Open Scope Z_scope.

(** ** Bytes and machine integers *)

#[global] Instance byte_eq_decision : EqDecision byte := Byte.byte_eq_dec.

Definition byte_val (b : byte) : Z := Z.of_N (Byte.to_N b).
Definition byte_of (z : Z) : byte :=
  match Byte.of_N (Z.to_N (z mod 256)) with Some b => b | None => x00 end.

(** [to_be_bytes] of an [n]-byte integer, two's complement. *)
Fixpoint be_bytes (n : nat) (z : Z) : Bytes :=
  match n with
  | O => []
  | S k => byte_of (Z.shiftr z (8 * Z.of_nat k)) :: be_bytes k z
  end.

Definition be_unsigned (b : Bytes) : Z := fold_left (fun acc x => acc * 256 + byte_val x) b 0.

(** The signed reading of a [w]-bit word. *)
Definition signed (w z : Z) : Z := if z <? 2 ^ (w - 1) then z else z - 2 ^ w.

Definition get_i16 (b : Bytes) : Z := signed 16 (be_unsigned (take 2 b)).
Definition get_i32 (b : Bytes) : Z := signed 32 (be_unsigned (take 4 b)).
Definition get_u32 (b : Bytes) : Z := be_unsigned (take 4 b).

Definition i16_max : Z := 2 ^ 15 - 1.
Definition i32_max : Z := 2 ^ 31 - 1.

Definition blen (b : Bytes) : Z := Z.of_nat (length b).

(** [slice::get(from..to)] and [slice::get(at)]. *)
Definition slice_get (b : Bytes) (from to : Z) : option Bytes :=
  if (from <=? to) && (to <=? blen b)
  then Some (take (Z.to_nat (to - from)) (drop (Z.to_nat from) b)) else None.
Definition slice_from (b : Bytes) (from : Z) : option Bytes :=
  if from <=? blen b then Some (drop (Z.to_nat from) b) else None.
Definition byte_at (b : Bytes) (i : Z) : option byte :=
  if i <? blen b then b !! Z.to_nat i else None.

(** [std::str::from_utf8(..).is_ok()]: the well-formed sequences of the Unicode standard,
    no overlong form, no surrogate, nothing above U+10FFFF. *)
Definition in_range (lo hi : Z) (b : byte) : bool := (lo <=? byte_val b) && (byte_val b <=? hi).
Notation utf8_cont := (in_range 128 191).

Fixpoint utf8_valid (s : Bytes) : bool :=
  match s with
  | [] => true
  | b0 :: r =>
      if in_range 0 127 b0 then utf8_valid r else
      match r with
      | [] => false
      | b1 :: r =>
          if in_range 194 223 b0 then utf8_cont b1 && utf8_valid r else
          match r with
          | [] => false
          | b2 :: r =>
              if in_range 224 224 b0 then in_range 160 191 b1 && utf8_cont b2 && utf8_valid r
              else if in_range 237 237 b0 then in_range 128 159 b1 && utf8_cont b2 && utf8_valid r
              else if in_range 225 239 b0 then utf8_cont b1 && utf8_cont b2 && utf8_valid r
              else
              match r with
              | [] => false
              | b3 :: r =>
                  utf8_cont b2 && utf8_cont b3 &&
                  (if in_range 240 240 b0 then in_range 144 191 b1
                   else if in_range 241 243 b0 then utf8_cont b1
                   else if in_range 244 244 b0 then in_range 128 143 b1
                   else false) && utf8_valid r
              end
          end
      end
  end.

Definition from_utf8 (s : Bytes) : option Bytes := if utf8_valid s then Some s else None.

(** ** Errors *)

Inductive Result (T E : Type) := Ok (t : T) | Err (e : E).
Arguments Ok {T E} t.
Arguments Err {T E} e.

Definition result_bind {T U E} (r : Result T E) (k : T -> Result U E) : Result U E :=
  match r with Ok t => k t | Err e => Err e end.
Notation "'let?' x := m 'in' k" := (result_bind m (fun x => k))
  (at level 200, x pattern, m at level 100, k at level 200, right associativity).

Inductive IoErrorKind := UnexpectedEof | InvalidData.

Inductive ProtocolError :=
| InvalidProtocolVersion (major minor : Z)
| InvalidStartupFrame
| UnrecognizedMessageType (tag : Bytes)
| IoError (kind : IoErrorKind) (what : string)
| MessageTooLarge (len : Z).

Definition ProtocolResult (T : Type) : Type := Result T ProtocolError.

(** [i32::try_from(usize)] and [i16::try_from(usize)]. *)
Definition i32_try_from (n : Z) : option Z := if n <=? i32_max then Some n else None.
Definition i16_try_from (n : Z) : option Z := if n <=? i16_max then Some n else None.

(** [usize::try_from] of a signed count. *)
Definition usize_try_from (n : Z) : option Z := if n <? 0 then None else Some n.

Definition message_length (len : Z) : ProtocolResult Z :=
  match i32_try_from len with Some n => Ok n | None => Err (MessageTooLarge len) end.

Inductive PgConnectionState := Startup | Authentication | Query.
#[global] Instance pg_connection_state_eq_dec : EqDecision PgConnectionState.
Proof. solve_decision. Defined.

Record PgMessage (T : Type) := { message_type : T; pm_data : Bytes }.
Arguments message_type {T} _.
Arguments pm_data {T} _.
Arguments Build_PgMessage {T} _ _.

(** [u8::escape_ascii]. *)
Definition hex_digit (n : Z) : byte := byte_of (if n <? 10 then 48 + n else 87 + n).
Definition escape_ascii (b : byte) : Bytes :=
  match b with
  | x09 => [x5c; x74] | x0d => [x5c; x72] | x0a => [x5c; x6e]
  | x27 => [x5c; x27] | x22 => [x5c; x22] | x5c => [x5c; x5c]
  | _ => if in_range 32 126 b then [b]
         else [x5c; x78; hex_digit (byte_val b / 16); hex_digit (byte_val b mod 16)]
  end.

(** What a [Decoder] hands its [FramedRead]: more bytes wanted, a message with the codec's
    next state and the unread rest, an error, or a panic of the task. *)
Inductive Decoded (T : Type) :=
| NeedMore
| Message (m : PgMessage T) (state : PgConnectionState) (rest : Bytes)
| DecodeError (e : ProtocolError)
| DecodePanic.
Arguments NeedMore {T}.
Arguments Message {T} m state rest.
Arguments DecodeError {T} e.
Arguments DecodePanic {T}.

(** [buf.split_to(len)], for a [len] within the buffer. *)
Definition split_message {T} (ty : T) (state : PgConnectionState) (len : Z) (buf : Bytes)
    : Decoded T :=
  Message {| message_type := ty; pm_data := take (Z.to_nat len) buf |} state
          (drop (Z.to_nat len) buf).

(** ** Frontend messages *)

Inductive PgFrontendMessageType :=
| FmStartup | FmCancelRequest | FmSslRequest | FmPasswordMessageFamily
| FmQuery | FmFunctionCall
| FmParse | FmClose | FmBind | FmDescribe | FmExecute | FmFlush | FmSync
| FmTerminate | FmCopyData | FmCopyFail | FmCopyDone.
#[global] Instance frontend_message_type_eq_dec : EqDecision PgFrontendMessageType.
Proof. solve_decision. Defined.

Definition FRONTEND_MESSAGE_TYPE_MAP (tag : byte) : option PgFrontendMessageType :=
  match tag with
  | x42 => Some FmBind | x43 => Some FmClose | x64 => Some FmCopyData
  | x63 => Some FmCopyDone | x66 => Some FmCopyFail | x44 => Some FmDescribe
  | x45 => Some FmExecute | x48 => Some FmFlush | x46 => Some FmFunctionCall
  | x70 => Some FmPasswordMessageFamily | x50 => Some FmParse | x51 => Some FmQuery
  | x53 => Some FmSync | x58 => Some FmTerminate
  | _ => None
  end.

(** The code word of a startup packet as the two [i16] the decoder compares. *)
Definition startup_code (buf : Bytes) : Z * Z := (get_i16 (drop 4 buf), get_i16 (drop 6 buf)).

Definition frontend_decode (state : PgConnectionState) (buf : Bytes)
    : Decoded PgFrontendMessageType :=
  if blen buf =? 0 then NeedMore else
  match state with
  | Startup =>
      if blen buf <? 8 then NeedMore else
      match usize_try_from (get_i32 buf) with
      | None => DecodeError InvalidStartupFrame
      | Some msg_len =>
          if blen buf <? msg_len then NeedMore else
          let '(major, minor) := startup_code buf in
          if (major =? 3) && (minor =? 0) then
            (* [split_at(msg_len - 2)] *)
            if msg_len <? 2 then DecodePanic else
            if negb (get_i16 (drop (Z.to_nat (msg_len - 2)) buf) =? 0)
            then DecodeError InvalidStartupFrame
            else split_message FmStartup Query msg_len buf
          else if (major =? 1234) && (minor =? 5678) then
            split_message FmCancelRequest state msg_len buf
          else if (major =? 1234) && (minor =? 5679) then
            split_message FmSslRequest state msg_len buf
          else DecodeError (InvalidProtocolVersion major minor)
      end
  | Authentication | Query =>
      match byte_at buf 0 with
      | None => NeedMore
      | Some first_byte =>
          match FRONTEND_MESSAGE_TYPE_MAP first_byte with
          | None => DecodeError (UnrecognizedMessageType (escape_ascii first_byte))
          | Some msg_type =>
              if blen buf <? 5 then NeedMore else
              match usize_try_from (get_i32 (drop 1 buf)) with
              | None => DecodeError (IoError InvalidData "negative frontend message length")
              | Some n =>
                  let msg_len := n + 1 in
                  if blen buf <? msg_len then NeedMore
                  else split_message msg_type state msg_len buf
              end
          end
      end
  end.

(** [params.split(|&b| b == 0)]: the pieces between the zero bytes. *)
Fixpoint split_nul (s : Bytes) : list Bytes :=
  match s with
  | [] => [[]]
  | b :: r =>
      if Byte.eqb b x00 then [] :: split_nul r
      else match split_nul r with p :: ps => (b :: p) :: ps | [] => [[b]] end
  end.

Fixpoint startup_parameter_find (parts : list Bytes) (key : Bytes) : option Bytes :=
  match parts with
  | k :: rest =>
      if bool_decide (k = []) then None else
      match rest with
      | v :: rest => if bool_decide (k = key) then from_utf8 v else startup_parameter_find rest key
      | [] => None
      end
  | [] => None
  end.

Definition startup_message_parameter (data key : Bytes) : option Bytes :=
  match slice_from data 8 with
  | None => None
  | Some params => startup_parameter_find (split_nul params) key
  end.

Definition simple_query_message_encode (query : Bytes) (len : Z) : Bytes :=
  [x51] ++ be_bytes 4 len ++ query ++ [x00].

Definition simple_query_message_build (query : Bytes) : ProtocolResult Bytes :=
  let? len := message_length (4 + blen query + 1) in
  Ok (simple_query_message_encode query len).

(** [ProbeQuery]: [new] is [const], so its assertion is a compile-time check. *)
Record ProbeQuery := { pq_sql : Bytes; pq_message_len : Z }.
Definition PROBE_MAX_LEN : Z := 1024.
Definition probe_query_new (sql : Bytes) : option ProbeQuery :=
  if blen sql <=? PROBE_MAX_LEN
  then Some {| pq_sql := sql; pq_message_len := 4 + blen sql + 1 |} else None.
Definition probe_query_message (p : ProbeQuery) : Bytes :=
  simple_query_message_encode (pq_sql p) (pq_message_len p).

(** ** Backend messages *)

Inductive PgBackendMessageType :=
| BmSslRequestResponse | BmAuthentication | BmParameterStatus | BmBackendKeyData
| BmNegotiateProtocolVersion
| BmParseComplete | BmCloseComplete | BmBindComplete | BmPortalSuspended
| BmCommandComplete | BmEmptyQueryResponse | BmReadyForQuery | BmErrorResponse
| BmNoticeResponse | BmNotificationResponse | BmFunctionCallResponse
| BmParameterDescription | BmRowDescription | BmDataRows | BmNoData
| BmCopyData | BmCopyDone | BmCopyInResponse | BmCopyOutResponse | BmCopyBothResponse.
#[global] Instance backend_message_type_eq_dec : EqDecision PgBackendMessageType.
Proof. solve_decision. Defined.

Definition COMMAND_COMPLETE_TAG : byte := x43.
Definition DATA_ROW_TAG : byte := x44.
Definition ROW_DESCRIPTION_TAG : byte := x54.
Definition AUTHENTICATION_OK : Z := 0.

Definition BACKEND_MESSAGE_TYPE_MAP (tag : byte) : option PgBackendMessageType :=
  match tag with
  | x52 => Some BmAuthentication | x4b => Some BmBackendKeyData
  | x32 => Some BmBindComplete | x33 => Some BmCloseComplete
  | x43 => Some BmCommandComplete | x64 => Some BmCopyData | x63 => Some BmCopyDone
  | x47 => Some BmCopyInResponse | x48 => Some BmCopyOutResponse
  | x57 => Some BmCopyBothResponse | x44 => Some BmDataRows
  | x49 => Some BmEmptyQueryResponse | x45 => Some BmErrorResponse
  | x56 => Some BmFunctionCallResponse | x76 => Some BmNegotiateProtocolVersion
  | x6e => Some BmNoData | x4e => Some BmNoticeResponse
  | x41 => Some BmNotificationResponse | x74 => Some BmParameterDescription
  | x53 => Some BmParameterStatus | x31 => Some BmParseComplete
  | x73 => Some BmPortalSuspended | x5a => Some BmReadyForQuery
  | x54 => Some BmRowDescription
  | _ => None
  end.

Definition handle_authentication_message (buf : Bytes) : Decoded PgBackendMessageType :=
  if blen buf <? 9 then NeedMore else
  match usize_try_from (get_i32 (drop 1 buf)) with
  | None => DecodeError InvalidStartupFrame
  | Some n =>
      let msg_len := n + 1 in
      if blen buf <? msg_len then NeedMore else
      let state := if get_i32 (drop 5 buf) =? AUTHENTICATION_OK then Query else Authentication in
      split_message BmAuthentication state msg_len buf
  end.

Definition backend_startup_decode (buf : Bytes) : Decoded PgBackendMessageType :=
  match byte_at buf 0 with
  | None => NeedMore
  | Some x53 | Some x4e => split_message BmSslRequestResponse Startup 1 buf
  | Some x52 => handle_authentication_message buf
  | Some _ => DecodeError InvalidStartupFrame
  end.

Definition frame_len_at (buf : Bytes) (position : Z) : option Z :=
  match slice_get buf (position + 1) (position + 5) with
  | None => None
  | Some word => (fun n => n + 1) <$> usize_try_from (get_i32 word)
  end.

Definition next_data_row_len (buf : Bytes) (position : Z) : option Z :=
  match byte_at buf position with
  | None => None
  | Some tag =>
      if negb (Byte.eqb tag DATA_ROW_TAG) then None else
      match frame_len_at buf position with
      | None => None
      | Some len => if position + len <=? blen buf then Some len else None
      end
  end.

Definition MAX_BATCH_SIZE : Z := 64 * 1024.

(** Every turn of the loop takes a frame of at least one byte out of the buffer. *)
Fixpoint data_rows_batch_loop (fuel : nat) (buf : Bytes) (total : Z) : Z :=
  match fuel with
  | O => total
  | S fuel =>
      match next_data_row_len buf total with
      | None => total
      | Some next_len =>
          if MAX_BATCH_SIZE <? total + next_len then total
          else data_rows_batch_loop fuel buf (total + next_len)
      end
  end.

Definition data_rows_batch_len (buf : Bytes) (first_len : Z) : Z :=
  data_rows_batch_loop (length buf) buf first_len.

Definition message_decode (buf : Bytes) : Decoded PgBackendMessageType :=
  match byte_at buf 0 with
  | None => NeedMore
  | Some first_byte =>
      match BACKEND_MESSAGE_TYPE_MAP first_byte with
      | None => DecodeError (UnrecognizedMessageType (escape_ascii first_byte))
      | Some ty =>
          if blen buf <? 5 then NeedMore else
          match frame_len_at buf 0 with
          | None => DecodeError (IoError InvalidData "negative backend message length")
          | Some msg_len =>
              if blen buf <? msg_len then NeedMore else
              let len := if bool_decide (ty = BmDataRows)
                         then data_rows_batch_len buf msg_len else msg_len in
              split_message ty Query len buf
          end
      end
  end.

Definition backend_decode (state : PgConnectionState) (buf : Bytes)
    : Decoded PgBackendMessageType :=
  if blen buf =? 0 then NeedMore else
  match state with
  | Startup => backend_startup_decode buf
  | Authentication => handle_authentication_message buf
  | Query => message_decode buf
  end.

Definition parameter_status_parse (data : Bytes) : option (Bytes * Bytes) :=
  match slice_from data 5 with
  | None => None
  | Some payload =>
      match split_nul payload with
      | name :: value :: _ =>
          match from_utf8 name, from_utf8 value with
          | Some n, Some v => Some (n, v)
          | _, _ => None
          end
      | _ => None
      end
  end.

Definition authentication_type (data : Bytes) : option Z := get_i32 <$> slice_get data 5 9.

Definition data_row_first_column (data : Bytes) : option Bytes :=
  match slice_from data 7 with
  | None => None
  | Some payload =>
      match slice_get payload 0 4 with
      | None => None
      | Some word =>
          let col_len := get_i32 word in
          if col_len <? 0 then None else
          match slice_get payload 4 (4 + col_len) with
          | Some col_data => from_utf8 col_data
          | None => None
          end
      end
  end.

(** The walk of [data_rows_first_columns] from [pos]; a frame is at least its tag. *)
Fixpoint first_columns_walk (fuel : nat) (data : Bytes) (pos : Z) (out : list Bytes)
    : list Bytes :=
  match fuel with
  | O => out
  | S fuel =>
      match byte_at data pos with
      | None => out
      | Some tag =>
          if negb (Byte.eqb tag DATA_ROW_TAG) then out else
          match slice_get data (pos + 1) (pos + 5) with
          | None => out
          | Some len_bytes =>
              match usize_try_from (get_i32 len_bytes) with
              | None => out
              | Some body_len =>
                  let msg_end := pos + 1 + body_len in
                  match slice_get data pos msg_end with
                  | None => out
                  | Some message =>
                      first_columns_walk fuel data msg_end
                        (match data_row_first_column message with
                         | Some column => out ++ [column]
                         | None => out
                         end)
                  end
              end
          end
      end
  end.

Definition data_rows_first_columns (data : Bytes) (out : list Bytes) : list Bytes :=
  first_columns_walk (length data) data 0 out.

(** ** Encoders of backend messages *)

Definition PARSE_COMPLETE_MSG : Bytes := [x31; x00; x00; x00; x04].
Definition BIND_COMPLETE_MSG : Bytes := [x32; x00; x00; x00; x04].
Definition CLOSE_COMPLETE_MSG : Bytes := [x33; x00; x00; x00; x04].
Definition NO_DATA_MSG : Bytes := [x6e; x00; x00; x00; x04].

Notation str s := (String.list_byte_of_string s).

Definition SERVE_ERROR_MSG : Bytes :=
  [x45; x00; x00; x00; x30] ++ str "SERROR" ++ [x00] ++ str "C58000" ++ [x00]
  ++ str "Mpgcache: cache serve failed" ++ [x00; x00].

Definition TEXT_TYPE_OID : Z := 25.

Definition notice_response_encode (message buf : Bytes) : ProtocolResult Bytes :=
  let body_len := 1 + 6 + 1 + 1 + 5 + 1 + 1 + blen message + 1 + 1 in
  let? msg_len := message_length (4 + body_len) in
  Ok (buf ++ [x4e] ++ be_bytes 4 msg_len ++ [x53] ++ str "NOTICE" ++ [x00]
      ++ [x43] ++ str "00000" ++ [x00] ++ [x4d] ++ message ++ [x00] ++ [x00]).

Definition row_description_text_encode (column_name buf : Bytes) : ProtocolResult Bytes :=
  let? msg_len := message_length (6 + 18 + blen column_name + 1) in
  Ok (buf ++ [ROW_DESCRIPTION_TAG] ++ be_bytes 4 msg_len ++ be_bytes 2 1 ++ column_name ++ [x00]
      ++ be_bytes 4 0 ++ be_bytes 2 0 ++ be_bytes 4 TEXT_TYPE_OID ++ be_bytes 2 (-1)
      ++ be_bytes 4 (-1) ++ be_bytes 2 0).

Definition data_row_text_encode (value : option Bytes) (buf : Bytes) : ProtocolResult Bytes :=
  let value_len := match value with Some v => blen v | None => 0 end in
  let? msg_len := message_length (6 + 4 + value_len) in
  let buf := buf ++ [DATA_ROW_TAG] ++ be_bytes 4 msg_len ++ be_bytes 2 1 in
  match value with
  | Some v => let? n := message_length (blen v) in Ok (buf ++ be_bytes 4 n ++ v)
  | None => Ok (buf ++ be_bytes 4 (-1))
  end.

Definition command_complete_tag_encode (tag buf : Bytes) : ProtocolResult Bytes :=
  let? msg_len := message_length (4 + blen tag + 1) in
  Ok (buf ++ [COMMAND_COMPLETE_TAG] ++ be_bytes 4 msg_len ++ tag ++ [x00]).

(** The response of an EXPLAIN (cache/explain.rs). *)
Fixpoint fold_encode {A} (f : A -> Bytes -> ProtocolResult Bytes) (l : list A) (buf : Bytes)
    : ProtocolResult Bytes :=
  match l with
  | [] => Ok buf
  | x :: l => let? buf := f x buf in fold_encode f l buf
  end.

Definition explain_response_encode (notices plan_lines : list Bytes)
    (transaction_status : TransactionStatus) : ProtocolResult Bytes :=
  let? buf := fold_encode notice_response_encode notices [] in
  let? buf := row_description_text_encode (str "QUERY PLAN") buf in
  let? buf := fold_encode (fun line => data_row_text_encode (Some line)) plan_lines buf in
  let? buf := command_complete_tag_encode (str "EXPLAIN") buf in
  Ok (buf ++ ready_for_query_message transaction_status).

(** ** Parsers of the extended-query messages *)

(** A reader advances a [&mut &[u8]]; after an error the buffer is not used again. *)
Definition Reader (A : Type) : Type := Bytes -> ProtocolResult (A * Bytes).

Definition count_to_usize (value : Z) (what : string) : ProtocolResult Z :=
  match usize_try_from value with
  | Some n => Ok n
  | None => Err (IoError InvalidData
      (String.append "invalid " (String.append what (String.append ": " (i64_text value)))))
  end.

Definition truncated (what : string) : ProtocolError := IoError UnexpectedEof what.

Definition message_body (data : Bytes) (too_short : string) : ProtocolResult Bytes :=
  match slice_from data 5 with Some b => Ok b | None => Err (truncated too_short) end.

Definition read_u8 (missing : string) : Reader byte := fun buf =>
  match buf with [] => Err (truncated missing) | b :: r => Ok (b, r) end.
Definition read_i16 (missing : string) : Reader Z := fun buf =>
  if blen buf <? 2 then Err (truncated missing) else Ok (get_i16 buf, drop 2 buf).
Definition read_i32 (missing : string) : Reader Z := fun buf =>
  if blen buf <? 4 then Err (truncated missing) else Ok (get_i32 buf, drop 4 buf).
Definition read_u32 (missing : string) : Reader Z := fun buf =>
  if blen buf <? 4 then Err (truncated missing) else Ok (get_u32 buf, drop 4 buf).

(** [iter().position(|&b| b == 0)]. *)
Fixpoint nul_position (s : Bytes) : option nat :=
  match s with
  | [] => None
  | b :: r => if Byte.eqb b x00 then Some 0%nat else S <$> nul_position r
  end.

Definition read_cstring : Reader Bytes := fun buf =>
  match nul_position buf with
  | None => Err (truncated "missing null terminator")
  | Some null_pos =>
      match from_utf8 (take null_pos buf) with
      | None => Err (IoError InvalidData "invalid UTF-8 in string")
      | Some s => Ok (s, drop (S null_pos) buf)
      end
  end.

(** [for _ in 0..count { v.push(read(buf)?) }]. *)
Fixpoint read_n {A} (read : Reader A) (count : nat) : Reader (list A) := fun buf =>
  match count with
  | O => Ok ([], buf)
  | S count =>
      let? (a, buf) := read buf in
      let? (l, buf) := read_n read count buf in
      Ok (a :: l, buf)
  end.

Definition type_oids_read (count_missing count_what oid_missing : string) : Reader (list Z) :=
  fun buf =>
  let? (n, buf) := read_i16 count_missing buf in
  let? count := count_to_usize n count_what in
  read_n (read_u32 oid_missing) (Z.to_nat count) buf.

Record ParsedParseMessage := {
  pp_statement_name : Bytes; pp_sql : Bytes; pp_parameter_oids : list Z }.
Record ParsedBindMessage := {
  pb_portal_name : Bytes; pb_statement_name : Bytes; pb_parameter_formats : list Z;
  pb_parameter_values : list (option Bytes); pb_result_formats : ResultFormats }.
Record ParsedExecuteMessage := { pe_portal_name : Bytes; pe_max_rows : Z }.
Record ParsedDescribeMessage := { pd_describe_type : byte; pd_name : Bytes }.
Record ParsedCloseMessage := { pc_close_type : byte; pc_name : Bytes }.
Record ParsedParameterDescription := { ppd_parameter_oids : list Z }.

Definition parse_parse_message (data : Bytes) : ProtocolResult ParsedParseMessage :=
  let? buf := message_body data "Parse message too short" in
  let? (statement_name, buf) := read_cstring buf in
  let? (sql_str, buf) := read_cstring buf in
  let? sql := match from_utf8 sql_str with
              | Some s => Ok s
              | None => Err (IoError InvalidData "invalid UTF-8 in SQL")
              end in
  let? (parameter_oids, _) :=
    type_oids_read "missing parameter count" "Parse parameter count" "missing parameter OID" buf in
  Ok {| pp_statement_name := statement_name; pp_sql := sql; pp_parameter_oids := parameter_oids |}.

Definition parameter_formats_read : Reader (list Z) := fun buf =>
  let? (n, buf) := read_i16 "missing format code count" buf in
  let? count := count_to_usize n "Bind format code count" in
  read_n (read_i16 "missing format code") (Z.to_nat count) buf.

Definition parameter_value_read : Reader (option Bytes) := fun buf =>
  let? (param_len, buf) := read_i32 "missing parameter length" buf in
  if param_len =? -1 then Ok (None, buf) else
  let? param_len := count_to_usize param_len "Bind parameter length" in
  match slice_get buf 0 param_len with
  | None => Err (truncated "parameter value truncated")
  | Some value => Ok (Some value, drop (Z.to_nat param_len) buf)
  end.

Definition parameter_values_read : Reader (list (option Bytes)) := fun buf =>
  let? (n, buf) := read_i16 "missing parameter value count" buf in
  let? count := count_to_usize n "Bind parameter value count" in
  read_n parameter_value_read (Z.to_nat count) buf.

Definition result_format_push (formats : ResultFormats) (index : nat) (code : Z)
    : ResultFormats :=
  match formats with
  | Implicit => Uniform code
  | Uniform first =>
      if first =? code then Uniform first else PerColumn (replicate index first ++ [code])
  | PerColumn codes => PerColumn (codes ++ [code])
  end.

Fixpoint result_formats_loop (todo index : nat) (formats : ResultFormats) : Reader ResultFormats :=
  fun buf =>
  match todo with
  | O => Ok (formats, buf)
  | S todo =>
      let? (code, buf) := read_i16 "missing result format code" buf in
      result_formats_loop todo (S index) (result_format_push formats index code) buf
  end.

Definition result_formats_read : Reader ResultFormats := fun buf =>
  let? (n, buf) := read_i16 "missing result format code count" buf in
  let? count := count_to_usize n "Bind result format count" in
  result_formats_loop (Z.to_nat count) 0 Implicit buf.

Definition parse_bind_message (data : Bytes) : ProtocolResult ParsedBindMessage :=
  let? buf := message_body data "Bind message too short" in
  let? (portal_name, buf) := read_cstring buf in
  let? (statement_name, buf) := read_cstring buf in
  let? (parameter_formats, buf) := parameter_formats_read buf in
  let? (parameter_values, buf) := parameter_values_read buf in
  let? (result_formats, _) := result_formats_read buf in
  Ok {| pb_portal_name := portal_name; pb_statement_name := statement_name;
        pb_parameter_formats := parameter_formats; pb_parameter_values := parameter_values;
        pb_result_formats := result_formats |}.

Definition parse_execute_message (data : Bytes) : ProtocolResult ParsedExecuteMessage :=
  let? buf := message_body data "Execute message too short" in
  let? (portal_name, buf) := read_cstring buf in
  let? (max_rows, _) := read_i32 "missing max_rows" buf in
  Ok {| pe_portal_name := portal_name; pe_max_rows := max_rows |}.

Definition target_message_parse (data : Bytes) (too_short : string)
    : ProtocolResult (byte * Bytes) :=
  let? buf := message_body data too_short in
  let? (target, buf) := read_u8 too_short buf in
  let? (name, _) := read_cstring buf in
  Ok (target, name).

Definition parse_describe_message (data : Bytes) : ProtocolResult ParsedDescribeMessage :=
  let? (describe_type, name) := target_message_parse data "Describe message too short" in
  Ok {| pd_describe_type := describe_type; pd_name := name |}.

Definition parse_close_message (data : Bytes) : ProtocolResult ParsedCloseMessage :=
  let? (close_type, name) := target_message_parse data "Close message too short" in
  Ok {| pc_close_type := close_type; pc_name := name |}.

Definition parse_parameter_description (data : Bytes)
    : ProtocolResult ParsedParameterDescription :=
  let too_short := "ParameterDescription message too short"%string in
  let? buf := message_body data too_short in
  let? (parameter_oids, _) :=
    type_oids_read too_short "ParameterDescription parameter count"
      "missing parameter OID in ParameterDescription" buf in
  Ok {| ppd_parameter_oids := parameter_oids |}.

(** ** Encoders of frontend messages *)

(** The [CacheError] of the encoders and of a serve. *)
Inductive CacheError :=
| CeInvalidMessage
| CeIoError
| CeCacheServerError (sqlstate : option Bytes)
| CeServeAbandonedInBlock
| CeNoConnection
| CeWrite.

Definition CacheResult (T : Type) : Type := Result T CacheError.
Definition or_invalid_message {T} (o : option T) : CacheResult T :=
  match o with Some t => Ok t | None => Err CeInvalidMessage end.

Definition INT8_OID : Z := 20.
Definition TEXT_OID : Z := 25.
Definition SETGEN_STATEMENT_NAME : Bytes := str "pgc_setgen".
Definition SETGEN_SQL : Bytes := str "SELECT set_config('mem.query_generation', $1, false)".

Definition startup_message_build (user database : Bytes) : CacheResult Bytes :=
  let body_len := 4 + 5 + blen user + 1 + 9 + blen database + 1 + 1 in
  let total_len := 4 + body_len in
  let? total_len_i32 := or_invalid_message (i32_try_from total_len) in
  Ok (be_bytes 4 total_len_i32 ++ be_bytes 4 196608 ++ str "user" ++ [x00] ++ user ++ [x00]
      ++ str "database" ++ [x00] ++ database ++ [x00] ++ [x00]).

(** The tag, a placeholder, the body, then the length written over the placeholder. *)
Definition frontend_msg_append (tag : byte) (body : Bytes -> CacheResult Bytes) (buf : Bytes)
    : CacheResult Bytes :=
  let buf := buf ++ [tag] in
  let len_pos := length buf in
  let? buf := body (buf ++ be_bytes 4 0) in
  let? len := or_invalid_message (i32_try_from (blen buf - Z.of_nat len_pos)) in
  Ok (if bool_decide (len_pos + 4 <= length buf)%nat
      then take len_pos buf ++ be_bytes 4 len ++ drop (len_pos + 4) buf else buf).

Definition bind_text_write (bytes buf : Bytes) : CacheResult Bytes :=
  let? len := or_invalid_message (i32_try_from (blen bytes)) in
  Ok (buf ++ be_bytes 4 len ++ bytes).

Section encode.

(** The [Display] rendering of a finite or infinite [f64]. *)
Context (f64_display : f64 -> Bytes).

(** The text a literal binds.  The forms no shape carries bind empty, where the code has a
    [debug_assert!(false)].  The round trip is about the bytes around this text: it gives
    back the text, whatever the rendering. *)
Definition bind_value_text (literal : LiteralValue) : Bytes :=
  match literal with
  | LString s => str s
  | LInteger i => str (i64_text i)
  | LBoolean v => if v then [x74] else [x66]
  | LFloat f => f64_display f
  | LStringWithCast _ _ | LArray _ _ | LNull | LNullWithCast _ | LParameter _ => []
  end.

Definition bind_value_write (literal : LiteralValue) (buf : Bytes) : CacheResult Bytes :=
  bind_text_write (bind_value_text literal) buf.

Fixpoint fold_write {A} (f : A -> Bytes -> CacheResult Bytes) (l : list A) (buf : Bytes)
    : CacheResult Bytes :=
  match l with
  | [] => Ok buf
  | x :: l => let? buf := f x buf in fold_write f l buf
  end.

Definition tail_value_write (value : option Bytes) (buf : Bytes) : CacheResult Bytes :=
  match value with
  | Some s => bind_text_write s buf
  | None => Ok (buf ++ be_bytes 4 (-1))
  end.

Definition parse_body_write (name sql : Bytes) (literal_params : list LiteralValue)
    (tail_param_oids : list Z) (param_count : Z) (b : Bytes) : CacheResult Bytes :=
  let b := b ++ name ++ [x00] ++ sql ++ [x00] in
  let? n := or_invalid_message (i16_try_from param_count) in
  Ok (b ++ be_bytes 2 n ++ concat (map (fun _ => be_bytes 4 0) literal_params)
        ++ concat (map (be_bytes 4) tail_param_oids)).

Definition bind_body_write (name : Bytes) (literal_params : list LiteralValue)
    (tail_params : list (option Bytes)) (binary_results : bool) (param_count : Z) (b : Bytes)
    : CacheResult Bytes :=
  let b := b ++ [x00] ++ name ++ [x00] ++ be_bytes 2 0 in
  let? n := or_invalid_message (i16_try_from param_count) in
  let? b := fold_write bind_value_write literal_params (b ++ be_bytes 2 n) in
  let? b := fold_write tail_value_write tail_params b in
  Ok (b ++ if binary_results then be_bytes 2 1 ++ be_bytes 2 1 else be_bytes 2 0).

Definition append_if (c : bool) (f : Bytes -> CacheResult Bytes) (buf : Bytes)
    : CacheResult Bytes := if c then f buf else Ok buf.

Definition extended_query_build (name sql : Bytes) (send_parse : bool)
    (literal_params : list LiteralValue) (tail_param_oids : list Z)
    (tail_params : list (option Bytes)) (include_describe binary_results include_sync : bool)
    (buf : Bytes) : CacheResult Bytes :=
  let param_count := Z.of_nat (length literal_params + length tail_params) in
  let? buf := append_if send_parse
    (frontend_msg_append x50 (parse_body_write name sql literal_params tail_param_oids param_count))
    buf in
  let? buf := frontend_msg_append x42
    (bind_body_write name literal_params tail_params binary_results param_count) buf in
  let? buf := append_if include_describe
    (frontend_msg_append x44 (fun b => Ok (b ++ [x50] ++ [x00]))) buf in
  let? buf := frontend_msg_append x45 (fun b => Ok (b ++ [x00] ++ be_bytes 4 0)) buf in
  append_if include_sync (frontend_msg_append x53 (fun b => Ok b)) buf.

End encode.

(** [pgc_] and the sixteen hexadecimal digits of a shape key ([u64]). *)
Definition statement_name_bytes (shape_key : Z) : Bytes :=
  str "pgc_" ++
  map (fun i => hex_digit (Z.land (Z.shiftr shape_key ((15 - Z.of_nat i) * 4)) 15)) (seq 0 16).

(** ** Reading frames off a socket *)

(** What a reader of frames holds: the codec's state, its buffer and the reads to come.
    An exhausted or empty read is the peer closing, and an I/O error ends the same way. *)
Inductive FrameRead (T : Type) :=
| FrameOk (m : PgMessage T) (state : PgConnectionState) (buf : Bytes) (reads : list Bytes)
| FrameErr (e : CacheError)
| FramePanic.
Arguments FrameOk {T} m state buf reads.
Arguments FrameErr {T} e.
Arguments FramePanic {T}.

Section framed.
Context {T : Type} (decode : PgConnectionState -> Bytes -> Decoded T).

Fixpoint frame_next (state : PgConnectionState) (buf : Bytes) (reads : list Bytes) : FrameRead T :=
  match decode state buf with
  | Message m state buf => FrameOk m state buf reads
  | DecodeError _ => FrameErr CeInvalidMessage
  | DecodePanic => FramePanic
  | NeedMore =>
      match reads with
      | [] | [] :: _ => FrameErr CeIoError
      | chunk :: reads => frame_next state (buf ++ chunk) reads
      end
  end.

(** The messages [frame_next] returns until the stream ends, with how it ended; [None] when
    the fuel ran out first. *)
Fixpoint frames_collect (fuel : nat) (state : PgConnectionState) (buf : Bytes)
    (reads : list Bytes) : list (PgMessage T) * option (option CacheError) :=
  match fuel with
  | O => ([], None)
  | S fuel =>
      match frame_next state buf reads with
      | FrameOk m state buf reads =>
          let '(ms, e) := frames_collect fuel state buf reads in (m :: ms, e)
      | FrameErr e => ([], Some (Some e))
      | FramePanic => ([], Some None)
      end
  end.

End framed.

(** ** Integers on the wire *)

Lemma byte_val_range b : 0 <= byte_val b < 256.
Proof. unfold byte_val. pose proof (Byte.to_N_bounded b). lia. Qed.

Lemma byte_val_of z : byte_val (byte_of z) = z mod 256.
Proof.
  unfold byte_val, byte_of. pose proof (Z.mod_pos_bound z 256 ltac:(lia)).
  destruct (Byte.of_N (Z.to_N (z mod 256))) as [b|] eqn:E.
  - apply Byte.to_of_N in E. rewrite E. lia.
  - apply Byte.of_N_None_iff in E. lia.
Qed.

Lemma be_bytes_length n z : length (be_bytes n z) = n.
Proof. induction n; simpl; congruence. Qed.

Lemma be_unsigned_fold b acc :
  fold_left (fun acc x => acc * 256 + byte_val x) b acc
  = acc * 256 ^ blen b + be_unsigned b.
Proof.
  unfold be_unsigned, blen. revert acc. induction b as [|x b IH]; intros acc; cbn [fold_left length]; [lia|].
  rewrite IH, (IH (0 * 256 + _)), Nat2Z.inj_succ, Z.pow_succ_r by lia. lia.
Qed.

Lemma be_unsigned_be_bytes n z : be_unsigned (be_bytes n z) = z mod 256 ^ Z.of_nat n.
Proof.
  induction n as [|k IH]; [simpl; by rewrite Z.mod_1_r|].
  cbn [be_bytes]. unfold be_unsigned. cbn [fold_left].
  rewrite be_unsigned_fold, IH, byte_val_of. unfold blen. rewrite be_bytes_length.
  rewrite Z.shiftr_div_pow2, Z.pow_mul_r by lia. change (2 ^ 8) with 256.
  rewrite Nat2Z.inj_succ, Z.pow_succ_r by lia.
  assert (0 < 256 ^ Z.of_nat k) by lia.
  rewrite (Z.mul_comm 256), Z.rem_mul_r by lia. lia.
Qed.

Lemma get_i32_be z r : - 2 ^ 31 <= z < 2 ^ 31 -> get_i32 (be_bytes 4 z ++ r) = z.
Proof.
  intros Hz. unfold get_i32. rewrite take_app_length' by by rewrite be_bytes_length.
  rewrite be_unsigned_be_bytes. change (256 ^ Z.of_nat 4) with (2 ^ 32).
  unfold signed. change (2 ^ (32 - 1)) with (2 ^ 31).
  destruct (Z_lt_dec z 0).
  - rewrite <- (Z.mod_add z 1), Z.mod_small by lia.
    destruct (Z.ltb_spec (z + 1 * 2 ^ 32) (2 ^ 31)); lia.
  - rewrite Z.mod_small by lia. destruct (Z.ltb_spec z (2 ^ 31)); lia.
Qed.

Lemma get_i16_be z r : - 2 ^ 15 <= z < 2 ^ 15 -> get_i16 (be_bytes 2 z ++ r) = z.
Proof.
  intros Hz. unfold get_i16. rewrite take_app_length' by by rewrite be_bytes_length.
  rewrite be_unsigned_be_bytes. change (256 ^ Z.of_nat 2) with (2 ^ 16).
  unfold signed. change (2 ^ (16 - 1)) with (2 ^ 15).
  destruct (Z_lt_dec z 0).
  - rewrite <- (Z.mod_add z 1), Z.mod_small by lia.
    destruct (Z.ltb_spec (z + 1 * 2 ^ 16) (2 ^ 15)); lia.
  - rewrite Z.mod_small by lia. destruct (Z.ltb_spec z (2 ^ 15)); lia.
Qed.

Lemma get_u32_be z r : 0 <= z < 2 ^ 32 -> get_u32 (be_bytes 4 z ++ r) = z.
Proof.
  intros Hz. unfold get_u32. rewrite take_app_length' by by rewrite be_bytes_length.
  rewrite be_unsigned_be_bytes. apply Z.mod_small. by change (256 ^ Z.of_nat 4) with (2 ^ 32).
Qed.

Lemma blen_app a b : blen (a ++ b) = blen a + blen b.
Proof. unfold blen. rewrite length_app. lia. Qed.

Lemma blen_be n z : blen (be_bytes n z) = Z.of_nat n.
Proof. unfold blen. by rewrite be_bytes_length. Qed.

Lemma blen_nonneg b : 0 <= blen b.
Proof. unfold blen. lia. Qed.

Lemma blen_cons x b : blen (x :: b) = 1 + blen b.
Proof. unfold blen. simpl length. lia. Qed.

(** ** Frames *)

(** A tagged message as the protocol documents it: the length word counts itself. *)
Definition frame (tag : byte) (body : Bytes) : Bytes := tag :: be_bytes 4 (4 + blen body) ++ body.

Definition fits_i32 (body : Bytes) : Prop := 4 + blen body <= i32_max.

Lemma frame_blen tag body : blen (frame tag body) = 5 + blen body.
Proof. unfold frame. rewrite blen_cons, blen_app, blen_be. lia. Qed.

(** The length word of a frame, from any prefix of the stream that holds it. *)
Lemma frame_word tag body buf more rest :
  fits_i32 body -> buf ++ more = frame tag body ++ rest -> 5 <= blen buf ->
  get_i32 (drop 1 buf) = 4 + blen body.
Proof.
  intros Hfit Happ Hlen. unfold get_i32.
  assert (Ht : take 4 (drop 1 buf) = be_bytes 4 (4 + blen body)).
  { assert (E : take 4 (drop 1 (buf ++ more)) = take 4 (drop 1 buf)).
    { unfold blen in Hlen. rewrite drop_app_le, take_app_le by (rewrite ?length_drop; lia). done. }
    rewrite <- E, Happ. unfold frame. cbn [app drop]. rewrite drop_0, <- app_assoc.
    by rewrite take_app_length' by by rewrite be_bytes_length. }
  rewrite Ht. pose proof (get_i32_be (4 + blen body) []) as H. unfold get_i32 in H.
  rewrite app_nil_r, take_ge in H by by rewrite be_bytes_length.
  apply H. unfold fits_i32, i32_max in Hfit. pose proof (blen_nonneg body). lia.
Qed.

(** The bytes of the first frame of a stream, out of a buffer that holds it whole. *)
Lemma prefix_take (buf more f rest : Bytes) :
  buf ++ more = f ++ rest -> (length f <= length buf)%nat ->
  take (length f) buf = f /\ drop (length f) buf ++ more = rest.
Proof.
  intros H Hl. assert (Hb : buf = f ++ drop (length f) buf).
  { rewrite <- (take_drop (length f) buf) at 1. f_equal.
    apply (f_equal (take (length f))) in H.
    rewrite take_app_le in H by lia. by rewrite take_app_length in H. }
  split.
  - apply (f_equal (take (length f))) in Hb. by rewrite take_app_length in Hb.
  - rewrite Hb in H at 1. rewrite <- app_assoc in H. by apply app_inv_head in H.
Qed.

(** ** Streams *)

(** What a codec promises the readers above it: on a buffer that begins a stream of good
    frames it either waits for the rest of the first frame, or returns a message made of the
    first frames and leaves the others. *)
Class StreamDecoder {T} (decode : PgConnectionState -> Bytes -> Decoded T)
    (good : Bytes -> Prop) (delivers : list Bytes -> PgMessage T -> Prop) : Prop := {
  good_nonempty f : good f -> f <> [];
  stream_decode f fs buf more :
    Forall good (f :: fs) -> buf ++ more = concat (f :: fs) ->
    (decode Query buf = NeedMore /\ (length buf < length f)%nat) \/
    exists first rest m buf',
      first <> [] /\ first ++ rest = f :: fs /\ delivers first m /\
      decode Query buf = Message m Query buf' /\ buf' ++ more = concat rest;
}.

Section stream.
Context {T} (decode : PgConnectionState -> Bytes -> Decoded T) (good : Bytes -> Prop)
        (delivers : list Bytes -> PgMessage T -> Prop)
        {SD : StreamDecoder decode good delivers}.
Context (decode_empty : forall st, decode st [] = NeedMore).

Lemma frame_next_stream f fs reads buf :
  Forall good (f :: fs) -> Forall (fun c => c <> []) reads ->
  buf ++ concat reads = concat (f :: fs) ->
  exists first rest m buf' reads',
    first <> [] /\ first ++ rest = f :: fs /\ delivers first m /\
    frame_next decode Query buf reads = FrameOk m Query buf' reads' /\
    Forall (fun c => c <> []) reads' /\ buf' ++ concat reads' = concat rest.
Proof.
  intros Hg. revert buf. induction reads as [|c reads IH]; intros buf Hr H.
  - destruct (stream_decode f fs buf [] Hg H) as [[_ Hlt]|(first & rest & m & buf' & ?&?&?&Hd&?)].
    + apply (f_equal length) in H. cbn [concat] in H. rewrite !length_app in H.
      simpl in H. lia.
    + exists first, rest, m, buf', []. cbn [frame_next]. by rewrite Hd.
  - apply list.Forall_cons in Hr as [Hc Hr]. cbn [concat] in H.
    destruct (stream_decode f fs buf _ Hg H)
      as [[Hd _]|(first & rest & m & buf' & ?&?&?&Hd&?)].
    + cbn [frame_next]. rewrite Hd. destruct c as [|x c]; [done|].
      apply IH; [done|]. by rewrite <- app_assoc.
    + exists first, rest, m, buf', (c :: reads). cbn [frame_next]. rewrite Hd.
      repeat split; try done. by constructor.
Qed.

(** However the stream is cut into reads, every frame is delivered, in order, in groups the
    codec allows, and the reader then sees the end of the stream. *)
Lemma frames_collect_stream fuel fs reads buf :
  Forall good fs -> Forall (fun c => c <> []) reads -> buf ++ concat reads = concat fs ->
  (length fs < fuel)%nat ->
  exists groups ms,
    concat groups = fs /\ Forall2 delivers groups ms /\
    Forall (fun g => g <> []) groups /\
    frames_collect decode fuel Query buf reads = (ms, Some (Some CeIoError)).
Proof.
  revert fs reads buf. induction fuel as [|fuel IH]; intros fs reads buf Hg Hr H Hf; [lia|].
  destruct fs as [|f fs].
  - cbn [concat] in H. apply app_nil in H as [-> H].
    destruct reads as [|[|x c] reads]; [|by apply list.Forall_cons in Hr as [? _]|by simpl in H].
    exists [], []. cbn [frames_collect frame_next]. rewrite decode_empty. repeat split; constructor.
  - destruct (frame_next_stream f fs reads buf Hg Hr H)
      as (first & rest & m & buf' & reads' & Hne & Hfs & Hdel & Hnext & Hr' & H').
    destruct (IH rest reads' buf') as (groups & ms & Hc & Hf2 & Hgs & E).
    + rewrite <- Hfs in Hg. by apply list.Forall_app in Hg as [_ ?].
    + done.
    + done.
    + apply (f_equal length) in Hfs. rewrite length_app in Hfs. simpl in Hfs, Hf.
      destruct first; [done|simpl in Hfs; lia].
    + exists (first :: groups), (m :: ms). cbn [frames_collect concat].
      rewrite Hnext, E. split; [by rewrite Hc|]. repeat split; by constructor.
Qed.

End stream.

(** *** The backend codec *)

Definition backend_frame (f : Bytes) : Prop :=
  exists tag body ty, f = frame tag body /\ BACKEND_MESSAGE_TYPE_MAP tag = Some ty /\ fits_i32 body.

Definition data_row_frame (f : Bytes) : Prop :=
  exists body, f = frame DATA_ROW_TAG body /\ fits_i32 body.

(** A message is one frame, or a batch of DataRows within the 64 KB. *)
Definition backend_delivers (fs : list Bytes) (m : PgMessage PgBackendMessageType) : Prop :=
  pm_data m = concat fs /\
  (exists tag body fs', fs = frame tag body :: fs' /\
     BACKEND_MESSAGE_TYPE_MAP tag = Some (message_type m)) /\
  (length fs = 1%nat \/
   (message_type m = BmDataRows /\ Forall data_row_frame fs /\
    blen (concat fs) <= MAX_BATCH_SIZE)).

Lemma stream_head buf more tag body rest :
  buf ++ more = frame tag body ++ rest -> buf <> [] -> byte_at buf 0 = Some tag.
Proof. destruct buf as [|x buf]; [done|]. intros H _. by injection H as -> _. Qed.

Lemma blen_zero b : blen b = 0 -> b = [].
Proof. destruct b; [done|]. rewrite blen_cons. pose proof (blen_nonneg b0). lia. Qed.

Lemma frame_len_at_head buf :
  5 <= blen buf -> frame_len_at buf 0 = (fun n => n + 1) <$> usize_try_from (get_i32 (drop 1 buf)).
Proof.
  intros H. unfold frame_len_at, slice_get. simpl (0 + 1 <=? 0 + 5). rewrite andb_true_l.
  destruct (Z.leb_spec (0 + 5) (blen buf)); [|lia].
  f_equal. f_equal. unfold get_i32. simpl (Z.to_nat _). by rewrite take_take.
Qed.

Lemma frame_len_at_short buf : blen buf < 5 -> frame_len_at buf 0 = None.
Proof.
  intros H. unfold frame_len_at, slice_get. simpl (0 + 1 <=? 0 + 5). rewrite andb_true_l.
  by destruct (Z.leb_spec (0 + 5) (blen buf)); [lia|].
Qed.

Lemma stream_frame_len buf more tag body rest :
  fits_i32 body -> buf ++ more = frame tag body ++ rest -> 5 <= blen buf ->
  frame_len_at buf 0 = Some (blen (frame tag body)).
Proof.
  intros Hfit H Hl. rewrite frame_len_at_head by done. rewrite (frame_word tag body buf more rest) by done.
  unfold usize_try_from. pose proof (blen_nonneg body).
  destruct (Z.ltb_spec (4 + blen body) 0); [lia|]. simpl. f_equal. rewrite frame_blen. lia.
Qed.

Lemma blen_drop n b : (n <= length b)%nat -> blen (drop n b) = blen b - Z.of_nat n.
Proof. unfold blen. rewrite length_drop. lia. Qed.

(** Reading at a position is reading at the front of what follows it. *)
Lemma next_data_row_len_drop buf n :
  (n <= length buf)%nat ->
  next_data_row_len buf (Z.of_nat n) = next_data_row_len (drop n buf) 0.
Proof.
  intros Hn. unfold next_data_row_len, byte_at, frame_len_at, slice_get.
  rewrite blen_drop, lookup_drop, !Nat2Z.id by done. cbn [Z.to_nat]. rewrite Nat.add_0_r.
  replace (Z.of_nat n <? blen buf) with (0 <? blen buf - Z.of_nat n)
    by (destruct (Z.ltb_spec 0 (blen buf - Z.of_nat n)), (Z.ltb_spec (Z.of_nat n) (blen buf)); lia).
  destruct (0 <? _); [|done]. destruct (buf !! n); [|done]. destruct (negb _); [done|].
  replace (Z.of_nat n + 1 <=? Z.of_nat n + 5) with true by (symmetry; apply Z.leb_le; lia).
  change (0 + 1 <=? 0 + 5) with true. rewrite !andb_true_l.
  replace (Z.of_nat n + 5 <=? blen buf) with (0 + 5 <=? blen buf - Z.of_nat n)
    by (destruct (Z.leb_spec (0 + 5) (blen buf - Z.of_nat n)),
          (Z.leb_spec (Z.of_nat n + 5) (blen buf)); lia).
  destruct (0 + 5 <=? _); [|done].
  replace (Z.to_nat (Z.of_nat n + 5 - (Z.of_nat n + 1))) with 4%nat by lia.
  replace (Z.to_nat (Z.of_nat n + 1)) with (n + 1)%nat by lia.
  rewrite drop_drop. change (Z.to_nat (0 + 5 - (0 + 1))) with 4%nat.
  change (Z.to_nat (0 + 1)) with 1%nat.
  destruct (_ <$> _) as [len|]; [|done].
  by replace (Z.of_nat n + len <=? blen buf) with (0 + len <=? blen buf - Z.of_nat n)
    by (destruct (Z.leb_spec (0 + len) (blen buf - Z.of_nat n)),
          (Z.leb_spec (Z.of_nat n + len) (blen buf)); lia).
Qed.

Lemma backend_tag_data_rows tag :
  BACKEND_MESSAGE_TYPE_MAP tag = Some BmDataRows <-> tag = DATA_ROW_TAG.
Proof. split; [by destruct tag|by intros ->]. Qed.

(** A row the batching loop finds is the next frame of the stream. *)
Lemma next_data_row_stream buf more pre fs n :
  Forall backend_frame fs -> buf ++ more = pre ++ concat fs -> (length pre <= length buf)%nat ->
  next_data_row_len buf (blen pre) = Some n ->
  exists f fs', fs = f :: fs' /\ data_row_frame f /\ n = blen f /\ blen pre + blen f <= blen buf.
Proof.
  intros Hg H Hl. unfold blen at 1. rewrite next_data_row_len_drop by done.
  destruct (prefix_take buf more pre _ H Hl) as [_ H'].
  set (b := drop (length pre) buf) in *. unfold next_data_row_len.
  destruct (byte_at b 0) as [x|] eqn:Ex; [|done].
  destruct fs as [|f fs].
  { cbn [concat] in H'. apply app_nil in H' as [Hb _]. by rewrite Hb in Ex. }
  apply list.Forall_cons in Hg as [(tag & body & ty & -> & Hty & Hfit) _]. cbn [concat] in H'.
  assert (Hne : b <> []) by (intros Hb; by rewrite Hb in Ex).
  rewrite (stream_head b more tag body _ H' Hne) in Ex. injection Ex as <-.
  destruct (Byte.eqb tag DATA_ROW_TAG) eqn:Et; [|done]. apply Byte.byte_dec_bl in Et as ->.
  cbn [negb]. destruct (Z_lt_dec (blen b) 5) as [?|H5]; [by rewrite frame_len_at_short|].
  rewrite (stream_frame_len b more _ body (concat fs)) by (done || lia).
  destruct (Z.leb_spec (0 + blen (frame DATA_ROW_TAG body)) (blen b)) as [Hin|]; [|done].
  intros [= <-]. eexists _, fs. split; [done|]. split; [by exists body|]. split; [done|].
  unfold b in Hin. rewrite blen_drop in Hin by done. unfold blen at 1. lia.
Qed.

Lemma batch_loop_stream fuel buf more taken fs :
  Forall backend_frame fs -> buf ++ more = concat (taken ++ fs) ->
  (length (concat taken) <= length buf)%nat ->
  exists more_rows rest,
    fs = more_rows ++ rest /\ Forall data_row_frame more_rows /\
    data_rows_batch_loop fuel buf (blen (concat taken)) = blen (concat (taken ++ more_rows)) /\
    (length (concat (taken ++ more_rows)) <= length buf)%nat /\
    (more_rows = [] \/ blen (concat (taken ++ more_rows)) <= MAX_BATCH_SIZE).
Proof.
  revert taken fs. induction fuel as [|fuel IH]; intros taken fs Hg H Hl; cbn [data_rows_batch_loop].
  { exists [], fs. rewrite app_nil_r. repeat split; auto. }
  assert (Hstop : exists more_rows rest, fs = more_rows ++ rest /\ Forall data_row_frame more_rows /\
    blen (concat taken) = blen (concat (taken ++ more_rows)) /\
    (length (concat (taken ++ more_rows)) <= length buf)%nat /\
    (more_rows = [] \/ blen (concat (taken ++ more_rows)) <= MAX_BATCH_SIZE)).
  { exists [], fs. rewrite app_nil_r. repeat split; auto. }
  destruct (next_data_row_len buf (blen (concat taken))) as [n|] eqn:En; [|done].
  destruct (Z.ltb_spec MAX_BATCH_SIZE (blen (concat taken) + n)) as [|Hmax]; [done|].
  rewrite concat_app in H.
  destruct (next_data_row_stream _ _ _ _ _ Hg H Hl En) as (f & fs' & -> & Hf & -> & Hin).
  apply list.Forall_cons in Hg as [_ Hg].
  destruct (IH (taken ++ [f]) fs') as (rows & rest & -> & Hrows & Eq & Hlen & Hcap).
  - done.
  - rewrite <- app_assoc, concat_app. done.
  - rewrite concat_app, length_app. cbn [concat]. rewrite app_nil_r. unfold blen in Hin. lia.
  - exists (f :: rows), rest. rewrite <- app_assoc in Eq, Hlen, Hcap. cbn [app] in *.
    rewrite concat_app, blen_app in Eq at 1. cbn [concat] in Eq. rewrite app_nil_r in Eq.
    split; [done|]. split; [by constructor|]. split; [done|]. split; [done|]. right.
    destruct Hcap as [->|]; [|done].
    rewrite concat_app, blen_app. cbn [concat]. by rewrite app_nil_r.
Qed.

Lemma next_data_row_len_bounds buf p n :
  next_data_row_len buf p = Some n -> 1 <= n /\ p + n <= blen buf.
Proof.
  unfold next_data_row_len. destruct (byte_at buf p); [|done]. destruct (negb _); [done|].
  unfold frame_len_at. destruct (slice_get _ _ _) as [w|]; [|done].
  unfold usize_try_from. destruct (Z.ltb_spec (get_i32 w) 0); [done|]. simpl.
  destruct (Z.leb_spec (p + (get_i32 w + 1)) (blen buf)); [|done]. intros [= <-]. lia.
Qed.

(** The batching loop ends because its condition fails, not for want of turns: what follows
    the batch is not a complete DataRow, or does not fit the 64 KB. *)
Lemma data_rows_batch_exits buf first_len :
  0 <= first_len ->
  let total := data_rows_batch_len buf first_len in
  match next_data_row_len buf total with
  | None => True
  | Some n => MAX_BATCH_SIZE < total + n
  end.
Proof.
  intros H0. unfold data_rows_batch_len.
  assert (Hfuel : blen buf - first_len <= Z.of_nat (length buf)) by (unfold blen; lia).
  revert first_len H0 Hfuel. generalize (length buf) as fuel.
  induction fuel as [|fuel IH]; intros total H0 Hfuel; cbn [data_rows_batch_loop].
  - destruct (next_data_row_len buf total) eqn:E; [|done].
    apply next_data_row_len_bounds in E. lia.
  - destruct (next_data_row_len buf total) as [n|] eqn:E; [|by rewrite E].
    destruct (Z.ltb_spec MAX_BATCH_SIZE (total + n)) as [?|?]; [by rewrite E|].
    apply next_data_row_len_bounds in E. apply IH; lia.
Qed.

(** A buffer that holds the first frame whole delivers it, with the DataRows behind it when
    it is one. *)
Lemma backend_decode_whole tag body ty fs buf more :
  BACKEND_MESSAGE_TYPE_MAP tag = Some ty -> fits_i32 body -> Forall backend_frame fs ->
  buf ++ more = concat (frame tag body :: fs) -> (length (frame tag body) <= length buf)%nat ->
  exists first rest m buf',
    first <> [] /\ first ++ rest = frame tag body :: fs /\ backend_delivers first m /\
    message_decode buf = Message m Query buf' /\ buf' ++ more = concat rest.
Proof.
  intros Hty Hfit Hfs H Hl. cbn [concat] in H.
  assert (H5 : 5 <= blen buf).
  { unfold blen. pose proof (frame_blen tag body) as Hb. unfold blen in Hb at 1.
    pose proof (blen_nonneg body). lia. }
  assert (Hne : buf <> []) by (intros ->; done).
  unfold message_decode. rewrite (stream_head buf more tag body _ H Hne), Hty.
  destruct (Z.ltb_spec (blen buf) 5); [lia|].
  rewrite (stream_frame_len buf more tag body _ Hfit H H5).
  destruct (Z.ltb_spec (blen buf) (blen (frame tag body))) as [Hlt|_]; [unfold blen in Hlt; lia|].
  set (len := if bool_decide (ty = BmDataRows) then _ else _).
  assert (exists rows rest, fs = rows ++ rest /\ len = blen (concat (frame tag body :: rows)) /\
    (length (concat (frame tag body :: rows)) <= length buf)%nat /\
    (rows = [] \/ (ty = BmDataRows /\ Forall data_row_frame (frame tag body :: rows) /\
                   blen (concat (frame tag body :: rows)) <= MAX_BATCH_SIZE)))
    as (rows & rest & -> & Hlen & Hin & Hrows).
  { unfold len. case_bool_decide as Hd.
    - subst ty. apply backend_tag_data_rows in Hty as ->.
      destruct (batch_loop_stream (length buf) buf more [frame DATA_ROW_TAG body] fs)
        as (rows & rest & -> & Hr & Eq & Hl' & Hcap).
      + done.
      + by cbn [app concat].
      + cbn [concat]. by rewrite app_nil_r.
      + cbn [app] in *. exists rows, rest. split; [done|]. split.
        { unfold data_rows_batch_len. rewrite <- Eq. cbn [concat]. by rewrite app_nil_r. }
        split; [done|]. destruct Hcap; [by left|right]. split; [done|]. split; [|done].
        constructor; [by exists body|done].
    - exists [], fs. cbn [concat]. rewrite app_nil_r. auto. }
  rewrite Hlen. unfold split_message, blen. rewrite Nat2Z.id.
  assert (H' : buf ++ more = concat (frame tag body :: rows) ++ concat rest).
  { rewrite H. cbn [concat]. by rewrite <- app_assoc, <- concat_app. }
  destruct (prefix_take buf more _ _ H' Hin) as [Ht Hd]. rewrite Ht.
  exists (frame tag body :: rows), rest. eexists _, _. split; [done|]. split; [done|].
  split; [|split; [done|exact Hd]].
  split; [done|]. split; [by exists tag, body, rows|].
  destruct Hrows as [->|Hrows]; [by left|by right].
Qed.

#[export] Instance backend_stream : StreamDecoder backend_decode backend_frame backend_delivers.
Proof.
  constructor; [by intros f (tag & body & ty & -> & _)|].
  intros f fs buf more Hg H. apply list.Forall_cons in Hg as [(tag & body & ty & -> & Hty & Hfit) Hfs].
  destruct (Z.eqb_spec (blen buf) 0) as [E|E].
  { left. apply blen_zero in E as ->. split; [done|]. simpl. lia. }
  unfold backend_decode. destruct (Z.eqb_spec (blen buf) 0); [done|].
  assert (Hne : buf <> []) by (intros ->; done).
  destruct (decide (length buf < length (frame tag body))%nat) as [Hlt|Hge].
  - left. split; [|done]. cbn [concat] in H. unfold message_decode.
    rewrite (stream_head buf more tag body _ H Hne), Hty.
    destruct (Z.ltb_spec (blen buf) 5) as [?|H5]; [done|].
    rewrite (stream_frame_len buf more tag body _ Hfit H H5).
    destruct (Z.ltb_spec (blen buf) (blen (frame tag body))) as [?|Hbad]; [done|].
    unfold blen in Hbad. lia.
  - right. apply (backend_decode_whole tag body ty); [done..|]. lia.
Qed.

(** *** The frontend codec *)

Definition frontend_frame (f : Bytes) : Prop :=
  exists tag body ty, f = frame tag body /\ FRONTEND_MESSAGE_TYPE_MAP tag = Some ty /\ fits_i32 body.

Definition frontend_delivers (fs : list Bytes) (m : PgMessage PgFrontendMessageType) : Prop :=
  fs = [pm_data m] /\
  exists tag body, pm_data m = frame tag body /\
    FRONTEND_MESSAGE_TYPE_MAP tag = Some (message_type m).

#[export] Instance frontend_stream : StreamDecoder frontend_decode frontend_frame frontend_delivers.
Proof.
  constructor; [by intros f (tag & body & ty & -> & _)|].
  intros f fs buf more Hg H. apply list.Forall_cons in Hg as [(tag & body & ty & -> & Hty & Hfit) Hfs].
  destruct (Z.eqb_spec (blen buf) 0) as [E|E].
  { left. apply blen_zero in E as ->. split; [done|]. simpl. lia. }
  unfold frontend_decode. destruct (Z.eqb_spec (blen buf) 0); [done|].
  assert (Hne : buf <> []) by (intros ->; done). cbn [concat] in H.
  rewrite (stream_head buf more tag body _ H Hne), Hty.
  pose proof (frame_blen tag body) as Hfb. pose proof (blen_nonneg body).
  destruct (Z.ltb_spec (blen buf) 5) as [?|H5].
  { left. split; [done|]. unfold blen in *. lia. }
  rewrite (frame_word tag body buf more _ Hfit H H5). unfold usize_try_from.
  destruct (Z.ltb_spec (4 + blen body) 0); [lia|].
  destruct (Z.ltb_spec (blen buf) (4 + blen body + 1)) as [?|Hge].
  { left. split; [done|]. unfold blen in *. lia. }
  right. unfold split_message.
  replace (Z.to_nat (4 + blen body + 1)) with (length (frame tag body)) by (unfold blen in *; lia).
  destruct (prefix_take buf more _ _ H) as [Ht Hd]; [unfold blen in *; lia|]. rewrite Ht.
  exists [frame tag body], fs. eexists _, _. split; [done|]. split; [done|].
  split; [|split; [done|exact Hd]]. split; [done|]. by exists tag, body.
Qed.

(** C26: the frames a PostgreSQL server sends reach the reader of the cache connection whole
    and in order however the socket cuts the stream: the messages [frame_next] returns are
    the frames, each by itself except for runs of DataRows, which come batched as one message
    of at most 64 KB; then it sees the end of the stream. *)
Theorem backend_stream_framing (fs reads : list Bytes)
    (Hfs : Forall backend_frame fs) (Hreads : Forall (fun c => c <> []) reads)
    (Hcut : concat reads = concat fs) :
  exists groups ms,
    concat groups = fs /\ Forall2 backend_delivers groups ms /\
    Forall (fun g => g <> []) groups /\
    frames_collect backend_decode (S (length fs)) Query [] reads = (ms, Some (Some CeIoError)).
Proof.
  apply (frames_collect_stream backend_decode backend_frame backend_delivers);
    first [done | lia | by intros []].
Qed.

(** ** Reading back what the encoders write *)

(** A reader takes exactly [bytes] off its buffer and returns [a]. *)
Definition reads_as {A} (r : Reader A) (bytes : Bytes) (a : A) : Prop :=
  forall rest, r (bytes ++ rest) = Ok (a, rest).

(** Text that can be a C string of the protocol. *)
Definition c_text (s : Bytes) : Prop := utf8_valid s = true /\ x00 ∉ s.

Lemma reads_i16 m z : - 2 ^ 15 <= z < 2 ^ 15 -> reads_as (read_i16 m) (be_bytes 2 z) z.
Proof.
  intros Hz rest. unfold read_i16. rewrite blen_app, blen_be. pose proof (blen_nonneg rest).
  destruct (Z.ltb_spec (Z.of_nat 2 + blen rest) 2); [lia|].
  by rewrite get_i16_be, drop_app_length' by (done || by rewrite be_bytes_length).
Qed.

Lemma reads_i32 m z : - 2 ^ 31 <= z < 2 ^ 31 -> reads_as (read_i32 m) (be_bytes 4 z) z.
Proof.
  intros Hz rest. unfold read_i32. rewrite blen_app, blen_be. pose proof (blen_nonneg rest).
  destruct (Z.ltb_spec (Z.of_nat 4 + blen rest) 4); [lia|].
  by rewrite get_i32_be, drop_app_length' by (done || by rewrite be_bytes_length).
Qed.

Lemma reads_u32 m z : 0 <= z < 2 ^ 32 -> reads_as (read_u32 m) (be_bytes 4 z) z.
Proof.
  intros Hz rest. unfold read_u32. rewrite blen_app, blen_be. pose proof (blen_nonneg rest).
  destruct (Z.ltb_spec (Z.of_nat 4 + blen rest) 4); [lia|].
  by rewrite get_u32_be, drop_app_length' by (done || by rewrite be_bytes_length).
Qed.

Lemma nul_position_app s rest : x00 ∉ s -> nul_position (s ++ x00 :: rest) = Some (length s).
Proof.
  induction s as [|b s IH]; intros Hs; [done|]. simpl.
  apply not_elem_of_cons in Hs as [Hb Hs]. rewrite IH by done.
  destruct (Byte.eqb b x00) eqn:E; [|done]. by apply Byte.byte_dec_bl in E.
Qed.

Lemma reads_cstring s : c_text s -> reads_as read_cstring (s ++ [x00]) s.
Proof.
  intros [Hu Hn] rest. unfold read_cstring. rewrite <- app_assoc. cbn [app].
  rewrite nul_position_app by done. unfold from_utf8. rewrite take_app_length, Hu.
  rewrite cons_middle, app_assoc, drop_app_length'; [done|]. rewrite length_app. simpl. lia.
Qed.

Lemma reads_n {A} (r : Reader A) bs l :
  Forall2 (reads_as r) bs l -> reads_as (read_n r (length l)) (concat bs) l.
Proof.
  induction 1 as [|b a bs l Hb _ IH]; intros rest; [done|].
  cbn [read_n concat length]. rewrite <- app_assoc, Hb. cbn [result_bind]. by rewrite IH.
Qed.

Definition value_wire (v : option Bytes) : Bytes :=
  match v with Some s => be_bytes 4 (blen s) ++ s | None => be_bytes 4 (-1) end.

Lemma reads_value v :
  match v with Some s => blen s <= i32_max | None => True end ->
  reads_as parameter_value_read (value_wire v) v.
Proof.
  intros Hv rest. unfold parameter_value_read, value_wire. destruct v as [s|].
  - rewrite <- app_assoc, (reads_i32 _ (blen s)) by (unfold i32_max in Hv; pose proof (blen_nonneg s); lia).
    cbn [result_bind]. pose proof (blen_nonneg s).
    destruct (Z.eqb_spec (blen s) (-1)); [lia|]. unfold count_to_usize, usize_try_from.
    destruct (Z.ltb_spec (blen s) 0); [lia|]. cbn [result_bind]. unfold slice_get.
    rewrite blen_app. pose proof (blen_nonneg rest).
    destruct (Z.leb_spec 0 (blen s)), (Z.leb_spec (blen s) (blen s + blen rest)); try lia.
    cbn [andb]. rewrite Z.sub_0_r. unfold blen. rewrite Nat2Z.id. cbn [Z.to_nat].
    by rewrite drop_0, take_app_length, drop_app_length.
  - rewrite (reads_i32 _ (-1)) by lia. done.
Qed.

Lemma count_to_usize_nat n what : count_to_usize (Z.of_nat n) what = Ok (Z.of_nat n).
Proof. unfold count_to_usize, usize_try_from. destruct (Z.ltb_spec (Z.of_nat n) 0); [lia|done]. Qed.

(** ** The frames of a pipeline *)

Section pipeline.
Context (f64_display : f64 -> Bytes).

Definition parse_body (name sql : Bytes) (lits : list LiteralValue) (oids : list Z) (n : Z) : Bytes :=
  (name ++ [x00]) ++ (sql ++ [x00]) ++ be_bytes 2 n
  ++ concat (map (be_bytes 4) (map (fun _ => 0) lits ++ oids)).

Definition bind_values (lits : list LiteralValue) (tails : list (option Bytes)) : list (option Bytes) :=
  map (fun l => Some (bind_value_text f64_display l)) lits ++ tails.

Definition bind_body (name : Bytes) (vals : list (option Bytes)) (binary : bool) (n : Z) : Bytes :=
  [x00] ++ (name ++ [x00]) ++ be_bytes 2 0 ++ be_bytes 2 n ++ concat (map value_wire vals)
  ++ (if binary then be_bytes 2 1 ++ be_bytes 2 1 else be_bytes 2 0).

Definition frame_if (c : bool) (f : Bytes) : list Bytes := if c then [f] else [].

Definition extended_frames (name sql : Bytes) (send_parse : bool) (lits : list LiteralValue)
    (oids : list Z) (tails : list (option Bytes)) (describe binary sync : bool) : list Bytes :=
  let n := Z.of_nat (length lits + length tails) in
  frame_if send_parse (frame x50 (parse_body name sql lits oids n))
  ++ [frame x42 (bind_body name (bind_values lits tails) binary n)]
  ++ frame_if describe (frame x44 [x50; x00])
  ++ [frame x45 (x00 :: be_bytes 4 0)]
  ++ frame_if sync (frame x53 []).

(** When the pipeline can be written: the count is an [int16], the messages' lengths are
    [int32]s. *)
Definition extended_fits (name sql : Bytes) (send_parse : bool) (lits : list LiteralValue)
    (oids : list Z) (tails : list (option Bytes)) (binary : bool) : bool :=
  let n := Z.of_nat (length lits + length tails) in
  (n <=? i16_max)
  && (negb send_parse || (4 + blen (parse_body name sql lits oids n) <=? i32_max))
  && (4 + blen (bind_body name (bind_values lits tails) binary n) <=? i32_max).

(** [msg_append] of a body writer that appends [b] appends the frame. *)
Lemma frontend_msg_append_frame tag body b buf :
  (forall buf, body buf = Ok (buf ++ b)) ->
  frontend_msg_append tag body buf =
  if 4 + blen b <=? i32_max then Ok (buf ++ frame tag b) else Err CeInvalidMessage.
Proof.
  intros Hb. unfold frontend_msg_append. rewrite Hb. cbn [result_bind].
  replace (blen (((buf ++ [tag]) ++ be_bytes 4 0) ++ b) - Z.of_nat (length (buf ++ [tag])))
    with (4 + blen b)
    by (rewrite !blen_app, blen_be; unfold blen; rewrite length_app; simpl length; lia).
  unfold i32_try_from. destruct (4 + blen b <=? i32_max); [|done]. cbn [or_invalid_message result_bind].
  rewrite bool_decide_eq_true_2 by (rewrite !length_app, be_bytes_length; simpl; lia).
  rewrite <- !(app_assoc (buf ++ [tag])), take_app_length.
  rewrite drop_app_add. rewrite drop_app_length' by by rewrite be_bytes_length.
  unfold frame. by rewrite <- app_assoc.
Qed.

Lemma frontend_msg_append_fails tag body buf :
  (forall buf, body buf = Err CeInvalidMessage) ->
  frontend_msg_append tag body buf = Err CeInvalidMessage.
Proof. intros Hb. unfold frontend_msg_append. by rewrite Hb. Qed.

(** Writing the values: all of them, or the error when one is longer than an [int32]. *)
Definition value_fits (v : option Bytes) : bool :=
  match v with Some s => blen s <=? i32_max | None => true end.

Lemma tail_value_write_eq v buf :
  tail_value_write v buf
  = if value_fits v then Ok (buf ++ value_wire v) else Err CeInvalidMessage.
Proof.
  destruct v as [s|]; [|done]. unfold tail_value_write, bind_text_write, i32_try_from, value_fits.
  by destruct (blen s <=? i32_max).
Qed.

Lemma fold_write_values {A} (f : A -> Bytes -> CacheResult Bytes) (g : A -> option Bytes) l buf :
  (forall a buf, f a buf = tail_value_write (g a) buf) ->
  fold_write f l buf
  = if forallb value_fits (map g l) then Ok (buf ++ concat (map value_wire (map g l)))
    else Err CeInvalidMessage.
Proof.
  intros Hf. revert buf. induction l as [|a l IH]; intros buf; [by rewrite app_nil_r|].
  cbn [fold_write map forallb concat]. rewrite Hf, tail_value_write_eq.
  destruct (value_fits (g a)); [|done]. cbn [result_bind andb]. rewrite IH.
  by rewrite <- app_assoc.
Qed.

Lemma value_fits_le v : value_fits v = false -> i32_max < blen (value_wire v).
Proof.
  destruct v as [s|]; [|done]. unfold value_fits, value_wire. rewrite blen_app, blen_be.
  destruct (Z.leb_spec (blen s) i32_max); [done|]. intros _. lia.
Qed.

Lemma values_fit_le vals :
  forallb value_fits vals = false -> i32_max < blen (concat (map value_wire vals)).
Proof.
  induction vals as [|v vals IH]; [done|]. cbn [forallb map concat]. rewrite blen_app.
  pose proof (blen_nonneg (value_wire v)). pose proof (blen_nonneg (concat (map value_wire vals))).
  intros [Hv|Hv]%andb_false_iff; [apply value_fits_le in Hv|apply IH in Hv]; lia.
Qed.

Lemma bind_body_write_eq name lits tails binary n buf :
  n <= i16_max ->
  bind_body_write f64_display name lits tails binary n buf
  = if forallb value_fits (bind_values lits tails)
    then Ok (buf ++ bind_body name (bind_values lits tails) binary n) else Err CeInvalidMessage.
Proof.
  intros Hn. unfold bind_body_write, i16_try_from.
  destruct (Z.leb_spec n i16_max); [|lia]. cbn [or_invalid_message result_bind].
  rewrite (fold_write_values (bind_value_write f64_display)
             (fun l => Some (bind_value_text f64_display l)) lits) by done.
  unfold bind_values. rewrite forallb_app.
  destruct (forallb value_fits (map _ lits)); [|done]. cbn [result_bind andb].
  rewrite (fold_write_values tail_value_write (fun v => v) tails), map_id by done.
  destruct (forallb value_fits tails); [|done]. cbn [result_bind].
  f_equal. unfold bind_body. rewrite map_app, concat_app. by rewrite <- !app_assoc.
Qed.

Lemma parse_body_write_eq name sql lits oids n buf :
  n <= i16_max ->
  parse_body_write name sql lits oids n buf = Ok (buf ++ parse_body name sql lits oids n).
Proof.
  intros Hn. unfold parse_body_write, i16_try_from.
  destruct (Z.leb_spec n i16_max); [|lia]. cbn [or_invalid_message result_bind].
  f_equal. unfold parse_body. rewrite map_app, concat_app, map_map. by rewrite <- !app_assoc.
Qed.

Lemma bind_append_eq name lits tails binary n buf :
  n <= i16_max ->
  frontend_msg_append x42 (bind_body_write f64_display name lits tails binary n) buf
  = if 4 + blen (bind_body name (bind_values lits tails) binary n) <=? i32_max
    then Ok (buf ++ frame x42 (bind_body name (bind_values lits tails) binary n))
    else Err CeInvalidMessage.
Proof.
  intros Hn. destruct (forallb value_fits (bind_values lits tails)) eqn:E.
  - apply frontend_msg_append_frame. intros b. by rewrite bind_body_write_eq, E by done.
  - rewrite frontend_msg_append_fails
      by (intros b; by rewrite bind_body_write_eq, E by done).
    apply values_fit_le in E.
    destruct (4 + blen (bind_body _ _ _ _) <=? i32_max) eqn:Hle; [|done].
    apply Z.leb_le in Hle. unfold bind_body in Hle. rewrite !blen_app, !blen_be in Hle.
    pose proof (blen_nonneg name). pose proof (blen_nonneg [x00]).
    pose proof (blen_nonneg (if binary then be_bytes 2 1 ++ be_bytes 2 1 else be_bytes 2 0)). lia.
Qed.

(** What [extended_query_build] writes, on every input. *)
Lemma extended_query_build_eq name sql send_parse lits oids tails describe binary sync buf :
  extended_query_build f64_display name sql send_parse lits oids tails describe binary sync buf
  = if extended_fits name sql send_parse lits oids tails binary
    then Ok (buf ++ concat (extended_frames name sql send_parse lits oids tails describe binary sync))
    else Err CeInvalidMessage.
Proof.
  unfold extended_query_build, extended_fits, extended_frames.
  set (n := Z.of_nat _). destruct (Z.leb_spec n i16_max) as [Hn|Hn].
  2:{ cbn [andb]. destruct send_parse; cbn [append_if result_bind];
      rewrite frontend_msg_append_fails; try done; intros b;
      unfold parse_body_write, bind_body_write, i16_try_from;
      by (destruct (Z.leb_spec n i16_max); [lia|]). }
  cbn [andb].
  assert (Htail : forall buf, 
    (let? buf := append_if describe
       (frontend_msg_append x44 (fun b => Ok (b ++ [x50] ++ [x00]))) buf in
     let? buf := frontend_msg_append x45 (fun b => Ok (b ++ [x00] ++ be_bytes 4 0)) buf in
     append_if sync (frontend_msg_append x53 (fun b => Ok b)) buf)
    = Ok (buf ++ concat (frame_if describe (frame x44 [x50; x00])
        ++ [frame x45 (x00 :: be_bytes 4 0)] ++ frame_if sync (frame x53 [])))).
  { intros b. destruct describe, sync; cbn [append_if result_bind frame_if app concat];
    repeat first
      [ rewrite (frontend_msg_append_frame x44 _ [x50; x00]) by done
      | rewrite (frontend_msg_append_frame x45 _ (x00 :: be_bytes 4 0)) by done
      | rewrite (frontend_msg_append_frame x53 _ []) by (intros; by rewrite app_nil_r)
      | progress cbn [result_bind]
      | match goal with |- context [if ?c <=? ?d then _ else _] =>
          change (c <=? d) with true; cbn iota end ];
    by rewrite <- ?app_assoc, ?app_nil_r. }
  destruct send_parse; cbn [append_if result_bind frame_if negb orb andb].
  - rewrite (frontend_msg_append_frame x50 _ _ _ (fun b => parse_body_write_eq name sql lits oids n b Hn)).
    destruct (4 + blen (parse_body _ _ _ _ _) <=? i32_max); [|done]. cbn [result_bind andb].
    rewrite bind_append_eq by done.
    destruct (4 + blen (bind_body _ _ _ _) <=? i32_max); [|done]. cbn [result_bind].
    rewrite Htail. f_equal. cbn [app concat]. by rewrite <- !app_assoc.
  - rewrite bind_append_eq by done.
    destruct (4 + blen (bind_body _ _ _ _) <=? i32_max); [|done]. cbn [result_bind].
    rewrite Htail. f_equal. cbn [app concat]. by rewrite <- !app_assoc.
Qed.

End pipeline.

(** ** Round trips *)

(** A frontend message as the parsers of extended.rs read it. *)
Inductive FrontendRequest :=
| RqParse (p : ParsedParseMessage)
| RqBind (b : ParsedBindMessage)
| RqDescribe (d : ParsedDescribeMessage)
| RqExecute (e : ParsedExecuteMessage)
| RqClose (c : ParsedCloseMessage)
| RqSync.

Definition result_map {T U E} (f : T -> U) (r : Result T E) : Result U E :=
  let? t := r in Ok (f t).

Definition request_read (m : PgMessage PgFrontendMessageType) : option (ProtocolResult FrontendRequest) :=
  match message_type m with
  | FmParse => Some (result_map RqParse (parse_parse_message (pm_data m)))
  | FmBind => Some (result_map RqBind (parse_bind_message (pm_data m)))
  | FmDescribe => Some (result_map RqDescribe (parse_describe_message (pm_data m)))
  | FmExecute => Some (result_map RqExecute (parse_execute_message (pm_data m)))
  | FmClose => Some (result_map RqClose (parse_close_message (pm_data m)))
  | FmSync => Some (Ok RqSync)
  | _ => None
  end.

Lemma message_body_frame tag body what : message_body (frame tag body) what = Ok body.
Proof.
  unfold message_body, slice_from. rewrite frame_blen. pose proof (blen_nonneg body).
  destruct (Z.leb_spec 5 (5 + blen body)); [|lia]. unfold frame.
  change (Z.to_nat 5) with 5%nat. cbn [drop]. rewrite drop_app_length'; [done|].
  by rewrite be_bytes_length.
Qed.

Lemma c_text_empty : c_text [].
Proof. split; [done|apply not_elem_of_nil]. Qed.

Lemma oids_read_words oids :
  Forall (fun o => 0 <= o < 2 ^ 32) oids ->
  Forall2 (reads_as (read_u32 "missing parameter OID")) (map (be_bytes 4) oids) oids.
Proof. induction 1; cbn [map]; constructor; [by apply reads_u32|done]. Qed.

Lemma parse_parse_frame name sql lits oids n :
  c_text name -> c_text sql -> Forall (fun o => 0 <= o < 2 ^ 32) oids ->
  n = Z.of_nat (length lits + length oids) -> n <= i16_max ->
  parse_parse_message (frame x50 (parse_body name sql lits oids n))
  = Ok {| pp_statement_name := name; pp_sql := sql;
          pp_parameter_oids := map (fun _ => 0) lits ++ oids |}.
Proof.
  intros Hname Hsql Hoids -> Hn. unfold parse_parse_message.
  rewrite message_body_frame. cbn [result_bind]. unfold parse_body.
  rewrite (reads_cstring name Hname). cbn [result_bind].
  rewrite (reads_cstring sql Hsql). cbn [result_bind].
  unfold from_utf8. rewrite (proj1 Hsql). cbn [result_bind]. unfold type_oids_read.
  set (all := map (fun _ => 0) lits ++ oids).
  assert (Hall : Forall (fun o => 0 <= o < 2 ^ 32) all).
  { apply list.Forall_app. split; [|done]. apply list.Forall_forall. intros o Ho.
    apply list_elem_of_In, in_map_iff in Ho as (? & <- & _). lia. }
  assert (Hlen : (length lits + length oids)%nat = length all)
    by (unfold all; by rewrite length_app, length_map).
  rewrite Hlen in *. unfold i16_max in Hn.
  rewrite (reads_i16 _ (Z.of_nat (length all))) by lia. cbn [result_bind].
  rewrite count_to_usize_nat. cbn [result_bind]. rewrite Nat2Z.id.
  rewrite <- (app_nil_r (concat _)).
  by rewrite (reads_n _ _ _ (oids_read_words all Hall)).
Qed.

Lemma parse_bind_frame name vals binary n :
  c_text name -> n = Z.of_nat (length vals) -> n <= i16_max ->
  4 + blen (bind_body name vals binary n) <= i32_max ->
  parse_bind_message (frame x42 (bind_body name vals binary n))
  = Ok {| pb_portal_name := []; pb_statement_name := name; pb_parameter_formats := [];
          pb_parameter_values := vals;
          pb_result_formats := if binary then Uniform 1 else Implicit |}.
Proof.
  intros Hname -> Hn Hfit. unfold parse_bind_message. rewrite message_body_frame.
  assert (Hvals : Forall2 (reads_as parameter_value_read) (map value_wire vals) vals).
  { destruct (forallb value_fits vals) eqn:E.
    - clear -E. induction vals as [|v vals IH]; [constructor|]. cbn [map].
      cbn [forallb] in E. apply andb_true_iff in E as [Ev E]. constructor; [|by apply IH].
      apply reads_value. destruct v; [|done]. by apply Z.leb_le in Ev.
    - apply values_fit_le in E. unfold bind_body in Hfit. rewrite !blen_app, !blen_be in Hfit.
      pose proof (blen_nonneg name). pose proof (blen_nonneg [x00]).
      pose proof (blen_nonneg (if binary then be_bytes 2 1 ++ be_bytes 2 1 else be_bytes 2 0)). lia. }
  cbn [result_bind]. unfold bind_body, i16_max in *.
  rewrite (reads_cstring [] c_text_empty). cbn [result_bind].
  rewrite (reads_cstring name Hname). cbn [result_bind].
  unfold parameter_formats_read. rewrite (reads_i16 _ 0) by lia. cbn [result_bind].
  change (count_to_usize 0 _) with (@Ok Z ProtocolError 0). cbn [result_bind].
  change (Z.to_nat 0) with 0%nat. cbn [read_n result_bind].
  unfold parameter_values_read. rewrite (reads_i16 _ (Z.of_nat (length vals))) by lia.
  cbn [result_bind]. rewrite count_to_usize_nat. cbn [result_bind]. rewrite Nat2Z.id.
  rewrite (reads_n _ _ _ Hvals). cbn [result_bind]. by destruct binary.
Qed.

(** The requests a pipeline carries. *)
Definition request_if {A} (c : bool) (a : A) : list A := if c then [a] else [].

Definition extended_requests (f64_display : f64 -> Bytes) (name sql : Bytes) (send_parse : bool)
    (lits : list LiteralValue) (oids : list Z) (tails : list (option Bytes))
    (describe binary sync : bool) : list FrontendRequest :=
  request_if send_parse
    (RqParse {| pp_statement_name := name; pp_sql := sql;
                pp_parameter_oids := map (fun _ => 0) lits ++ oids |})
  ++ [RqBind {| pb_portal_name := []; pb_statement_name := name; pb_parameter_formats := [];
                pb_parameter_values := bind_values f64_display lits tails;
                pb_result_formats := if binary then Uniform 1 else Implicit |}]
  ++ request_if describe (RqDescribe {| pd_describe_type := x50; pd_name := [] |})
  ++ [RqExecute {| pe_portal_name := []; pe_max_rows := 0 |}]
  ++ request_if sync RqSync.

(** A frame reads as a request whatever the rest of the stream. *)
Definition frame_requests (f : Bytes) (r : FrontendRequest) : Prop :=
  frontend_frame f /\
  forall m, frontend_delivers [f] m -> request_read m = Some (Ok r).

Lemma frame_request tag body ty r :
  FRONTEND_MESSAGE_TYPE_MAP tag = Some ty -> fits_i32 body ->
  request_read {| message_type := ty; pm_data := frame tag body |} = Some (Ok r) ->
  frame_requests (frame tag body) r.
Proof.
  intros Hty Hfit Hr. split; [by exists tag, body, ty|].
  intros [mty data] [[= <-] (tag' & body' & Hf & Hty')]. cbn [message_type pm_data] in *.
  injection Hf as <- _. congruence.
Qed.

Lemma frontend_decode_empty st : frontend_decode st [] = NeedMore.
Proof. by destruct st. Qed.

Lemma requests_collect fuel fs rs reads :
  Forall2 frame_requests fs rs -> Forall (fun c => c <> []) reads -> concat reads = concat fs ->
  (length fs < fuel)%nat ->
  exists ms, frames_collect frontend_decode fuel Query [] reads
             = (ms, Some (Some CeIoError)) /\
    map request_read ms = map (fun r => Some (Ok r)) rs.
Proof.
  intros Hfr Hreads Hcut Hfuel.
  destruct (frames_collect_stream frontend_decode frontend_frame frontend_delivers
              frontend_decode_empty fuel fs reads []) as (groups & ms & Hg & Hdel & _ & E).
  - clear -Hfr. induction Hfr as [|f r fs rs [Hf _] _ IH]; by constructor.
  - done.
  - done.
  - done.
  - exists ms. split; [done|]. clear -Hfr Hg Hdel. subst fs. revert rs Hfr.
    induction Hdel as [|g m groups ms Hgm Hrest IH]; intros rs Hfr; cbn [concat] in Hfr.
    + by inversion Hfr.
    + assert (Hg1 : g = [pm_data m]) by apply Hgm. rewrite Hg1 in Hgm, Hfr. cbn [app] in Hfr.
      inversion Hfr as [|? r ? rs' [_ Hr] Hfr']; subst. cbn [map].
      by rewrite (Hr m Hgm), (IH rs' Hfr').
Qed.

Lemma extended_frames_requests d name sql send_parse lits oids tails describe binary sync :
  c_text name -> c_text sql -> Forall (fun o => 0 <= o < 2 ^ 32) oids ->
  length oids = length tails ->
  extended_fits d name sql send_parse lits oids tails binary = true ->
  Forall2 frame_requests
    (extended_frames d name sql send_parse lits oids tails describe binary sync)
    (extended_requests d name sql send_parse lits oids tails describe binary sync).
Proof.
  intros Hname Hsql Hoids Hlen Hfits. unfold extended_fits in Hfits.
  apply andb_true_iff in Hfits as [Hfits Hbind]. apply andb_true_iff in Hfits as [Hn Hparse].
  apply Z.leb_le in Hn, Hbind. unfold extended_frames, extended_requests.
  assert (Hif : forall c f r, (c = true -> frame_requests f r) ->
            Forall2 frame_requests (frame_if c f) (request_if c r)).
  { intros [] f r H; repeat constructor. all: by apply H. }
  assert (H1 : forall f r, frame_requests f r -> Forall2 frame_requests [f] [r])
    by (intros; by constructor).
  apply Forall2_app; [apply Hif|apply Forall2_app; [apply H1|
    apply Forall2_app; [apply Hif|apply Forall2_app; [apply H1|apply Hif]]]].
  - intros ->. apply (frame_request x50 _ FmParse); [done|by apply Z.leb_le in Hparse|].
    unfold request_read. cbn [message_type pm_data].
    by rewrite parse_parse_frame by (done || by rewrite Hlen).
  - apply (frame_request x42 _ FmBind); [done|done|].
    unfold request_read. cbn [message_type pm_data].
    rewrite parse_bind_frame; try done. unfold bind_values. by rewrite length_app, length_map.
  - intros _. by apply (frame_request x44 _ FmDescribe).
  - by apply (frame_request x45 _ FmExecute).
  - intros _. by apply (frame_request x53 _ FmSync).
Qed.

(** C27: the pipeline [extended_query_build] appends to the write buffer, whatever the socket
    cuts it into, is decoded by the protocol's framing into Parse (when sent), Bind, Describe
    (when asked), Execute and Sync (when asked), and those parse back to the very statement
    name, SQL text, parameter types, literal and tail values and result format it was given;
    when the parameter count or a message does not fit the protocol's integers it reports the
    error instead. *)
Theorem extended_query_roundtrip (d : f64 -> Bytes) (name sql : Bytes) (send_parse : bool)
    (lits : list LiteralValue) (oids : list Z) (tails : list (option Bytes))
    (describe binary sync : bool) (buf : Bytes)
    (Hname : c_text name) (Hsql : c_text sql) (Hoids : Forall (fun o => 0 <= o < 2 ^ 32) oids)
    (Hlen : length oids = length tails) :
  match extended_query_build d name sql send_parse lits oids tails describe binary sync buf with
  | Err e => e = CeInvalidMessage /\
      extended_fits d name sql send_parse lits oids tails binary = false
  | Ok out => exists sent, out = buf ++ sent /\
      forall reads, Forall (fun c => c <> []) reads -> concat reads = sent ->
      exists ms, frames_collect frontend_decode 6 Query [] reads = (ms, Some (Some CeIoError)) /\
        map request_read ms = map (fun r => Some (Ok r))
          (extended_requests d name sql send_parse lits oids tails describe binary sync)
  end.
Proof.
  rewrite extended_query_build_eq.
  destruct (extended_fits d name sql send_parse lits oids tails binary) eqn:Hfits; [|done].
  eexists. split; [done|]. intros reads Hreads Hcut.
  pose proof (extended_frames_requests d name sql send_parse lits oids tails describe binary sync
                Hname Hsql Hoids Hlen Hfits) as Hreq.
  apply (requests_collect 6 _ _ reads Hreq Hreads Hcut).
  unfold extended_frames. rewrite !length_app. destruct send_parse, describe, sync; simpl; lia.
Qed.

(** *** Statement names *)

Lemma hex_digit_inj a b : 0 <= a < 16 -> 0 <= b < 16 -> hex_digit a = hex_digit b -> a = b.
Proof.
  intros Ha Hb H. apply (f_equal byte_val) in H. unfold hex_digit in H. rewrite !byte_val_of in H.
  destruct (Z.ltb_spec a 10), (Z.ltb_spec b 10); rewrite !Z.mod_small in H by lia; lia.
Qed.

Lemma nibble_range z : 0 <= Z.land z 15 < 16.
Proof. change 15 with (Z.ones 4). rewrite Z.land_ones by lia. apply Z.mod_pos_bound. lia. Qed.

(** Distinct shapes have distinct statement names. *)
Lemma statement_name_inj j k :
  0 <= j < 2 ^ 64 -> 0 <= k < 2 ^ 64 -> statement_name_bytes j = statement_name_bytes k -> j = k.
Proof.
  intros Hj Hk H. unfold statement_name_bytes in H. apply app_inv_head in H.
  assert (Hn : forall m, 0 <= m < 16 ->
    Z.land (Z.shiftr j (m * 4)) 15 = Z.land (Z.shiftr k (m * 4)) 15).
  { intros m Hm. apply hex_digit_inj; [apply nibble_range..|].
    apply map_ext_in_iff with (a := Z.to_nat (15 - m)) in H; [|apply in_seq; lia].
    by replace (15 - Z.of_nat (Z.to_nat (15 - m))) with m in H by lia. }
  assert (Hhigh : forall z i, 0 <= z < 2 ^ 64 -> 64 <= i -> Z.testbit z i = false).
  { intros z i Hz Hi. destruct (Z.eq_dec z 0) as [->|]; [apply Z.testbit_0_l|].
    apply Z.bits_above_log2; [lia|]. apply Z.log2_lt_pow2; [lia|].
    apply Z.lt_le_trans with (2 ^ 64); [lia|]. apply Z.pow_le_mono_r; lia. }
  apply Z.bits_inj'. intros i Hi. destruct (Z_lt_dec i 64); [|by rewrite !Hhigh by lia].
  pose proof (Z.div_mod i 4 ltac:(lia)) as Hdm. pose proof (Z.mod_pos_bound i 4 ltac:(lia)).
  specialize (Hn (i / 4)). apply (f_equal (fun z => Z.testbit z (i mod 4))) in Hn;
    [|split; [apply Z.div_pos; lia|apply Z.div_lt_upper_bound; lia]].
  change 15 with (Z.ones 4) in Hn. rewrite !Z.land_spec, !Z.ones_spec_low in Hn by lia.
  rewrite !Z.shiftr_spec, !andb_true_r in Hn by lia.
  by replace (i mod 4 + i / 4 * 4) with i in Hn by lia.
Qed.

Lemma hex_digit_text z : in_range 48 102 (hex_digit (Z.land z 15)) = true.
Proof.
  pose proof (nibble_range z). unfold in_range, hex_digit. rewrite byte_val_of.
  destruct (Z.ltb_spec (Z.land z 15) 10); rewrite Z.mod_small by lia;
    apply andb_true_iff; split; apply Z.leb_le; lia.
Qed.

(** Printable ASCII is text. *)
Lemma ascii_text s : Forall (fun b => in_range 1 127 b = true) s -> c_text s.
Proof.
  induction 1 as [|b s Hb _ [IHu IHn]]; [exact c_text_empty|].
  unfold in_range in Hb. apply andb_true_iff in Hb as [H1 H2]. apply Z.leb_le in H1, H2. split.
  - cbn [utf8_valid]. unfold in_range at 1.
    destruct (Z.leb_spec 0 (byte_val b)), (Z.leb_spec (byte_val b) 127); [done|lia..].
  - apply not_elem_of_cons. split; [|done]. intros <-. by change (byte_val x00) with 0 in H1.
Qed.

Lemma statement_name_text k : c_text (statement_name_bytes k).
Proof.
  apply ascii_text. unfold statement_name_bytes. apply list.Forall_app. split.
  - by repeat constructor.
  - apply list.Forall_forall. intros b Hb. apply list_elem_of_In, in_map_iff in Hb as (i & <- & _).
    pose proof (hex_digit_text (Z.shiftr k ((15 - Z.of_nat i) * 4))) as H.
    unfold in_range in *. apply andb_true_iff in H as [H1 H2]. apply Z.leb_le in H1, H2.
    apply andb_true_iff; split; apply Z.leb_le; lia.
Qed.

Lemma statement_name_not_setgen k : statement_name_bytes k <> SETGEN_STATEMENT_NAME.
Proof.
  intros H. apply (f_equal length) in H. unfold statement_name_bytes in H.
  rewrite length_app, length_map, length_seq in H. by vm_compute in H.
Qed.

(** *** Rows and simple messages *)

Definition text_row (v : Bytes) : Bytes :=
  frame DATA_ROW_TAG (be_bytes 2 1 ++ be_bytes 4 (blen v) ++ v).

Lemma data_row_text_encode_eq v buf :
  data_row_text_encode (Some v) buf
  = if 10 + blen v <=? i32_max then Ok (buf ++ text_row v) else Err (MessageTooLarge (10 + blen v)).
Proof.
  unfold data_row_text_encode, message_length, i32_try_from. change (6 + 4) with 10.
  destruct (Z.leb_spec (10 + blen v) i32_max); [|done]. cbn [result_bind].
  destruct (Z.leb_spec (blen v) i32_max); [|lia]. cbn [result_bind]. f_equal.
  unfold text_row, frame. rewrite !blen_app, !blen_be.
  replace (4 + (Z.of_nat 2 + (Z.of_nat 4 + blen v))) with (10 + blen v) by lia.
  by rewrite <- !app_assoc.
Qed.

Lemma text_row_blen v : blen (text_row v) = 11 + blen v.
Proof. unfold text_row. rewrite frame_blen, !blen_app, !blen_be. lia. Qed.

Lemma slice_get_app (a m r : Bytes) from to :
  from = blen a -> to = blen a + blen m -> slice_get (a ++ m ++ r) from to = Some m.
Proof.
  intros -> ->. unfold slice_get. rewrite !blen_app.
  pose proof (blen_nonneg a). pose proof (blen_nonneg m). pose proof (blen_nonneg r).
  destruct (Z.leb_spec (blen a) (blen a + blen m)),
    (Z.leb_spec (blen a + blen m) (blen a + (blen m + blen r))); try lia. cbn [andb].
  f_equal. replace (blen a + blen m - blen a) with (blen m) by lia. unfold blen.
  by rewrite !Nat2Z.id, drop_app_length, take_app_length.
Qed.

Lemma data_row_first_column_text v :
  utf8_valid v = true -> blen v <= i32_max -> data_row_first_column (text_row v) = Some v.
Proof.
  intros Hu Hv. unfold data_row_first_column, slice_from. rewrite text_row_blen.
  pose proof (blen_nonneg v). destruct (Z.leb_spec 7 (11 + blen v)); [|lia].
  unfold text_row, frame. change (Z.to_nat 7) with 7%nat. cbn [drop].
  rewrite app_assoc, drop_app_length' by by rewrite length_app, !be_bytes_length.
  change (be_bytes 4 (blen v) ++ v) with ([] ++ be_bytes 4 (blen v) ++ v).
  rewrite (slice_get_app [] (be_bytes 4 (blen v)) v 0 4) by done.
  pose proof (get_i32_be (blen v) []) as Hg. rewrite app_nil_r in Hg.
  unfold i32_max in Hv. rewrite Hg by lia. destruct (Z.ltb_spec (blen v) 0); [lia|].
  cbn [app]. rewrite <- (app_nil_r v) at 2.
  rewrite (slice_get_app (be_bytes 4 (blen v)) v [] 4 (4 + blen v)) by (rewrite ?blen_be; lia).
  unfold from_utf8. by rewrite Hu.
Qed.

Definition row_value_ok (v : Bytes) : Prop := utf8_valid v = true /\ 10 + blen v <= i32_max.

Lemma first_columns_walk_row fuel pre v rest out :
  row_value_ok v ->
  first_columns_walk (S fuel) (pre ++ text_row v ++ rest) (blen pre) out
  = first_columns_walk fuel ((pre ++ text_row v) ++ rest) (blen (pre ++ text_row v)) (out ++ [v]).
Proof.
  intros [Hu Hv]. pose proof (blen_nonneg v). pose proof (blen_nonneg rest).
  pose proof (text_row_blen v) as Hrow. cbn [first_columns_walk].
  assert (Hat : byte_at (pre ++ text_row v ++ rest) (blen pre) = Some DATA_ROW_TAG).
  { unfold byte_at. rewrite !blen_app.
    destruct (Z.ltb_spec (blen pre) (blen pre + (blen (text_row v) + blen rest))); [|lia].
    unfold blen. by rewrite Nat2Z.id, lookup_app_r, Nat.sub_diag by lia. }
  rewrite Hat. change (negb (Byte.eqb DATA_ROW_TAG DATA_ROW_TAG)) with false. cbn iota.
  set (w := be_bytes 4 (10 + blen v)).
  assert (Hw : text_row v = [DATA_ROW_TAG] ++ w ++ be_bytes 2 1 ++ be_bytes 4 (blen v) ++ v).
  { unfold text_row, frame, w. rewrite !blen_app, !blen_be.
    by replace (4 + (Z.of_nat 2 + (Z.of_nat 4 + blen v))) with (10 + blen v) by lia. }
  assert (Hs : slice_get (pre ++ text_row v ++ rest) (blen pre + 1) (blen pre + 5) = Some w).
  { rewrite Hw, <- !app_assoc, app_assoc.
    apply slice_get_app; rewrite blen_app; unfold w; rewrite ?blen_be; unfold blen; simpl; lia. }
  rewrite Hs. pose proof (get_i32_be (10 + blen v) []) as Hg. rewrite app_nil_r in Hg.
  unfold w. unfold i32_max in Hv. rewrite Hg by lia. unfold usize_try_from.
  destruct (Z.ltb_spec (10 + blen v) 0); [lia|].
  rewrite (slice_get_app pre (text_row v) rest) by lia.
  rewrite data_row_first_column_text by (done || (unfold i32_max; lia)).
  rewrite <- app_assoc, blen_app. f_equal. lia.
Qed.

(** The first column of every row of a batch, in order, up to the first message that is not
    a row. *)
Lemma first_columns_walk_rows lines fuel pre rest out :
  Forall row_value_ok lines -> (length lines < fuel)%nat -> head rest <> Some DATA_ROW_TAG ->
  first_columns_walk fuel (pre ++ concat (map text_row lines) ++ rest) (blen pre) out = out ++ lines.
Proof.
  intros Hok. revert fuel pre out. induction Hok as [|v lines Hv _ IH]; intros fuel pre out Hf Hr.
  - destruct fuel; [simpl in Hf; lia|]. cbn [map concat app first_columns_walk]. rewrite app_nil_r.
    unfold byte_at. rewrite blen_app.
    destruct (Z.ltb_spec (blen pre) (blen pre + blen rest)); [|done].
    unfold blen at 1. rewrite Nat2Z.id, lookup_app_r, Nat.sub_diag by lia.
    destruct rest as [|b rest]; [done|]. cbn. cbn in Hr.
    destruct (Byte.eqb b DATA_ROW_TAG) eqn:E; [|done]. apply Byte.byte_dec_bl in E. congruence.
  - destruct fuel; [simpl in Hf; lia|]. cbn [map concat]. rewrite <- app_assoc.
    rewrite first_columns_walk_row by done.
    rewrite (IH fuel (pre ++ text_row v)) by (done || (simpl in Hf; lia)). by rewrite <- app_assoc.
Qed.

(** Reading the first columns of a batch of rows gives back the values the rows were encoded
    from, NULs and empty strings included. *)
Theorem first_columns_roundtrip (lines out : list Bytes) (Hok : Forall row_value_ok lines) :
  data_rows_first_columns (concat (map text_row lines)) out = out ++ lines.
Proof.
  unfold data_rows_first_columns. destruct lines as [|v lines]; [by rewrite app_nil_r|].
  pose proof (first_columns_walk_rows (v :: lines) (length (concat (map text_row (v :: lines))))
    [] [] out Hok) as H. rewrite app_nil_r in H. apply H; [|done].
  clear. cbn [map concat length]. rewrite length_app.
  assert (Hl : (length lines <= length (concat (map text_row lines)))%nat).
  { induction lines as [|w l IH]; [done|]. cbn [map concat length]. rewrite length_app.
    pose proof (text_row_blen w) as Hw. pose proof (blen_nonneg w). unfold blen in Hw at 1. lia. }
  pose proof (text_row_blen v) as Hv. pose proof (blen_nonneg v). unfold blen in Hv at 1. lia.
Qed.

(** *** Startup *)

Lemma split_nul_app s rest : x00 ∉ s -> split_nul (s ++ x00 :: rest) = s :: split_nul rest.
Proof.
  induction s as [|b s IH]; intros Hs; [done|]. cbn [app split_nul].
  apply not_elem_of_cons in Hs as [Hb Hs]. rewrite IH by done.
  destruct (Byte.eqb b x00) eqn:E; [|done]. by apply Byte.byte_dec_bl in E.
Qed.

Definition startup_len (user database : Bytes) : Z := 25 + blen user + blen database.

Lemma startup_message_build_eq user database :
  startup_message_build user database
  = if startup_len user database <=? i32_max
    then Ok (be_bytes 4 (startup_len user database) ++ [x00; x03; x00; x00]
             ++ (str "user" ++ [x00] ++ user ++ [x00] ++ str "database" ++ [x00] ++ database)
             ++ [x00; x00])
    else Err CeInvalidMessage.
Proof.
  unfold startup_message_build, i32_try_from.
  replace (4 + (4 + 5 + blen user + 1 + 9 + blen database + 1 + 1)) with (startup_len user database)
    by (unfold startup_len; lia).
  destruct (_ <=? i32_max); [|done]. cbn [or_invalid_message result_bind].
  change (be_bytes 4 196608) with [x00; x03; x00; x00]. by rewrite <- !app_assoc.
Qed.

(** The startup message pgcache builds for the cache database is one complete startup
    packet of the protocol, and the parameters read out of it are the user and database it
    was built from; a pair too long for the length word is an error. *)
Theorem startup_roundtrip (user database : Bytes) (Hu : c_text user) (Hd : c_text database) :
  match startup_message_build user database with
  | Err e => e = CeInvalidMessage /\ i32_max < startup_len user database
  | Ok b =>
      frontend_decode Startup b = Message {| message_type := FmStartup; pm_data := b |} Query [] /\
      startup_message_parameter b (str "user") = Some user /\
      startup_message_parameter b (str "database") = Some database
  end.
Proof.
  rewrite startup_message_build_eq.
  destruct (Z.leb_spec (startup_len user database) i32_max) as [Hfit|Hbig]; [|done].
  set (params := str "user" ++ _). set (b := be_bytes 4 _ ++ _).
  assert (Hlen : blen b = startup_len user database).
  { unfold b, params, startup_len. rewrite !blen_app, blen_be. unfold blen. simpl length. lia. }
  unfold startup_len, i32_max in *. pose proof (blen_nonneg user). pose proof (blen_nonneg database).
  assert (Hparts : split_nul (drop (Z.to_nat 8) b)
    = [str "user"; user; str "database"; database; []; []]).
  { change (drop (Z.to_nat 8) b) with (params ++ [x00; x00]).
    replace (params ++ [x00; x00])
      with (str "user" ++ x00 :: user ++ x00 :: str "database" ++ x00 :: database ++ x00 :: [x00])
      by (unfold params; by rewrite <- !app_assoc).
    assert (Hk : forall s, forallb (fun b => negb (Byte.eqb b x00)) s = true -> x00 ∉ s).
    { intros s Hs Hin. apply list_elem_of_In in Hin.
      by apply (proj1 (forallb_forall _ s) Hs) in Hin. }
    by rewrite !split_nul_app by first [by apply Hk | apply Hu | apply Hd]. }
  split; [|split].
  - unfold frontend_decode. destruct (Z.eqb_spec (blen b) 0), (Z.ltb_spec (blen b) 8); try lia.
    unfold b at 1. rewrite get_i32_be by lia. unfold usize_try_from.
    destruct (Z.ltb_spec (25 + blen user + blen database) 0); [lia|].
    rewrite Hlen, Z.ltb_irrefl.
    change (startup_code b) with (3, 0). cbn [Z.eqb Pos.eqb andb]. 
    destruct (Z.ltb_spec (25 + blen user + blen database) 2); [lia|].
    assert (He : drop (Z.to_nat (25 + blen user + blen database - 2)) b = [x00; x00]).
    { unfold b. rewrite app_assoc, (app_assoc (be_bytes _ _ ++ _)).
      apply drop_app_length'. unfold params. rewrite !length_app, be_bytes_length.
      unfold blen. simpl length. lia. }
    rewrite He. change (get_i16 [x00; x00]) with 0. cbn [Z.eqb negb].
    unfold split_message. rewrite <- Hlen. unfold blen. rewrite Nat2Z.id.
    by rewrite take_ge, drop_ge.
  - unfold startup_message_parameter, slice_from. destruct (Z.leb_spec 8 (blen b)); [|lia].
    rewrite Hparts. cbn [startup_parameter_find]. unfold from_utf8. by rewrite (proj1 Hu).
  - unfold startup_message_parameter, slice_from. destruct (Z.leb_spec 8 (blen b)); [|lia].
    rewrite Hparts. cbn [startup_parameter_find]. unfold from_utf8. by rewrite (proj1 Hd).
Qed.

(** *** Result formats *)

(** PostgreSQL's reading of a Bind's result codes: none is text for every column, one is for
    every column, several are per column. *)
Definition code_of_column (codes : list Z) (i : nat) : Z :=
  match codes with
  | [] => 0
  | [c] => c
  | _ => default 0 (codes !! i)
  end.

Definition format_of_column (f : ResultFormats) (i : nat) : Z :=
  match f with
  | Implicit => 0
  | Uniform c => c
  | PerColumn codes => default 0 (codes !! i)
  end.

(** The formats after the codes of a list, as the reading loop folds them. *)
Fixpoint result_formats_push (index : nat) (formats : ResultFormats) (codes : list Z)
    : ResultFormats :=
  match codes with
  | [] => formats
  | c :: codes => result_formats_push (S index) (result_format_push formats index c) codes
  end.

Lemma result_formats_loop_push codes index formats rest :
  Forall (fun c => - 2 ^ 15 <= c < 2 ^ 15) codes ->
  result_formats_loop (length codes) index formats (concat (map (be_bytes 2) codes) ++ rest)
  = Ok (result_formats_push index formats codes, rest).
Proof.
  intros Hc. revert index formats. induction Hc as [|c codes Hc _ IH]; intros index formats; [done|].
  cbn [length result_formats_loop map concat result_formats_push]. rewrite <- app_assoc.
  rewrite (reads_i16 _ c) by done. cbn [result_bind]. apply IH.
Qed.

(** What the fold has seen: nothing, [n] equal codes, or a list with two different ones. *)
Definition formats_after (codes : list Z) (f : ResultFormats) : Prop :=
  match f with
  | Implicit => codes = []
  | Uniform c => codes <> [] /\ codes = replicate (length codes) c
  | PerColumn cs => cs = codes /\ (2 <= length codes)%nat
  end.

Lemma formats_after_push codes f c :
  formats_after codes f -> formats_after (codes ++ [c]) (result_format_push f (length codes) c).
Proof.
  destruct f as [|c0|cs]; cbn [formats_after result_format_push].
  - intros ->. done.
  - intros [Hne Hc]. destruct (Z.eqb_spec c0 c) as [->|Hd]; cbn [formats_after].
    + split; [by destruct codes|]. rewrite length_app, Nat.add_1_r, replicate_S_end.
      by rewrite <- Hc.
    + split; [by rewrite <- Hc|]. rewrite length_app. destruct codes; [done|]. simpl. lia.
  - intros [-> Hl]. split; [done|]. rewrite length_app. lia.
Qed.

Lemma result_formats_push_after done codes f :
  formats_after done f -> formats_after (done ++ codes) (result_formats_push (length done) f codes).
Proof.
  revert done f. induction codes as [|c codes IH]; intros seen f H.
  { by rewrite app_nil_r. }
  cbn [result_formats_push]. rewrite cons_middle, app_assoc.
  replace (S (length seen)) with (length (seen ++ [c])) by (rewrite length_app; simpl; lia).
  by apply IH, formats_after_push.
Qed.

(** Collapsing equal codes loses nothing: whatever codes a client binds, the collapsed form
    gives each of the columns the format PostgreSQL would use for it. *)
Theorem result_formats_exact (codes : list Z) (columns i : nat) (rest : Bytes)
    (Hc : Forall (fun c => - 2 ^ 15 <= c < 2 ^ 15) codes) (Hn : Z.of_nat (length codes) <= i16_max)
    (Hcols : length codes = 0%nat \/ length codes = 1%nat \/ length codes = columns)
    (Hi : (i < columns)%nat) :
  exists f,
    result_formats_read (be_bytes 2 (Z.of_nat (length codes))
                         ++ concat (map (be_bytes 2) codes) ++ rest) = Ok (f, rest) /\
    format_of_column f i = code_of_column codes i.
Proof.
  exists (result_formats_push 0 Implicit codes). split.
  - unfold result_formats_read. unfold i16_max in Hn.
    rewrite (reads_i16 _ (Z.of_nat (length codes))) by lia. cbn [result_bind].
    rewrite count_to_usize_nat. cbn [result_bind]. rewrite Nat2Z.id.
    by apply result_formats_loop_push.
  - pose proof (result_formats_push_after [] codes Implicit eq_refl) as H. cbn [app length] in H.
    destruct (result_formats_push 0 Implicit codes) as [|c|cs]; cbn [formats_after] in H.
    + by rewrite H.
    + destruct H as [Hne Hc']. cbn [format_of_column]. rewrite Hc'.
      destruct (length codes) as [|[|n]] eqn:El; [by destruct codes|done|].
      unfold code_of_column. cbn [replicate].
      change (c :: c :: replicate n c) with (replicate (S (S n)) c).
      rewrite lookup_replicate_2 by lia. done.
    + destruct H as [-> Hl]. unfold code_of_column. by destruct codes as [|? [|? ?]]; [simpl in Hl; lia..|].
Qed.

(** A constant probe is the simple query of its text. *)
Lemma probe_query_message_build sql p :
  probe_query_new sql = Some p -> simple_query_message_build sql = Ok (probe_query_message p).
Proof.
  unfold probe_query_new, simple_query_message_build, message_length, i32_try_from, PROBE_MAX_LEN.
  destruct (Z.leb_spec (blen sql) 1024); [|done]. intros [= <-].
  destruct (Z.leb_spec (4 + blen sql + 1) i32_max) as [?|Hbig]; [done|].
  unfold i32_max in Hbig. lia.
Qed.

(** ** What the codecs mishandle *)

Module WireGap.

(** A startup packet that declares a length of 0 or 1 makes [split_at(msg_len - 2)] panic:
    eight bytes from an unauthenticated client abort the connection's task instead of being
    refused as an invalid frame. *)
Theorem startup_short_length_panics (len : Z) (rest : Bytes) (Hlen : 0 <= len < 2) :
  frontend_decode Startup (be_bytes 4 len ++ be_bytes 4 196608 ++ rest) = DecodePanic.
Proof.
  unfold frontend_decode. rewrite !blen_app, !blen_be. pose proof (blen_nonneg rest).
  destruct (Z.eqb_spec (Z.of_nat 4 + (Z.of_nat 4 + blen rest)) 0); [lia|].
  destruct (Z.ltb_spec (Z.of_nat 4 + (Z.of_nat 4 + blen rest)) 8); [lia|].
  rewrite get_i32_be by lia. unfold usize_try_from. destruct (Z.ltb_spec len 0); [lia|].
  destruct (Z.ltb_spec (Z.of_nat 4 + (Z.of_nat 4 + blen rest)) len); [lia|].
  replace (startup_code _) with (3, 0); [|by assert (len = 0 \/ len = 1) as [->| ->] by lia].
  cbn [Z.eqb Pos.eqb andb]. destruct (Z.ltb_spec len 2); [done|lia].
Qed.

(** An SSLRequest that declares length 0 is delivered without being consumed: the codec
    returns the same empty message for ever, and the connection answers each with an [N]. *)
Theorem zero_length_request_spins (n : nat) (rest : Bytes) (reads : list Bytes) :
  frames_collect frontend_decode n Startup
    (be_bytes 4 0 ++ be_bytes 2 1234 ++ be_bytes 2 5679 ++ rest) reads
  = (replicate n {| message_type := FmSslRequest; pm_data := [] |}, None).
Proof.
  set (buf := be_bytes 4 0 ++ _).
  assert (Hd : frontend_decode Startup buf
               = Message {| message_type := FmSslRequest; pm_data := [] |} Startup buf).
  { unfold frontend_decode. replace (blen buf) with (8 + blen rest)
      by (unfold buf; rewrite !blen_app, !blen_be; lia). pose proof (blen_nonneg rest).
    destruct (Z.eqb_spec (8 + blen rest) 0), (Z.ltb_spec (8 + blen rest) 8); try lia.
    change (get_i32 buf) with 0. cbn [usize_try_from Z.ltb Z.compare].
    destruct (Z.ltb_spec (8 + blen rest) 0); [lia|]. done. }
  induction n as [|n IH]; [done|]. cbn [frames_collect replicate].
  destruct reads as [|c reads]; cbn [frame_next]; rewrite Hd; by rewrite IH.
Qed.

End WireGap.

(** ** Concrete streams *)

Definition c_textb (s : Bytes) : bool := utf8_valid s && forallb (fun b => negb (Byte.eqb b x00)) s.

Lemma c_textb_text s : c_textb s = true -> c_text s.
Proof.
  intros [Hu Hn]%andb_true_iff. split; [done|]. intros Hin%list_elem_of_In.
  by apply (proj1 (forallb_forall _ s) Hn) in Hin.
Qed.

Lemma backend_frame_intro tag body ty :
  BACKEND_MESSAGE_TYPE_MAP tag = Some ty -> fits_i32 body -> backend_frame (frame tag body).
Proof. intros. by exists tag, body, ty. Qed.

Lemma backend_stream_framing_witness :
  let fs := [frame x32 []; text_row (str "a"); text_row (str "bb"); frame x43 (str "SELECT 2" ++ [x00]);
             frame x5a [x49]] in
  let reads := [take 7 (concat fs); take 10 (drop 7 (concat fs)); drop 17 (concat fs)] in
  exists groups ms,
    concat groups = fs /\ Forall2 backend_delivers groups ms /\
    Forall (fun g => g <> []) groups /\
    frames_collect backend_decode 6 Query [] reads = (ms, Some (Some CeIoError)).
Proof.
  intros fs reads. apply (backend_stream_framing fs reads).
  - repeat apply list.Forall_cons_2; [..|by apply list.Forall_nil];
      by eapply backend_frame_intro.
  - repeat apply list.Forall_cons_2; [done..|by apply list.Forall_nil].
  - by vm_compute.
Defined.

Lemma extended_query_roundtrip_witness :
  let d := fun _ : f64 => str "1.5" in
  exists sent,
    extended_query_build d (statement_name_bytes 7) (str "SELECT $1 LIMIT $2 OFFSET $3") true
      [LInteger (-5)] [INT8_OID; INT8_OID] [Some (str "10"); None] true true true [x00]
    = Ok ([x00] ++ sent) /\
    exists ms, frames_collect frontend_decode 6 Query [] [take 50 sent; drop 50 sent]
               = (ms, Some (Some CeIoError)) /\
      map request_read ms = map (fun r => Some (Ok r))
        (extended_requests d (statement_name_bytes 7) (str "SELECT $1 LIMIT $2 OFFSET $3") true
           [LInteger (-5)] [INT8_OID; INT8_OID] [Some (str "10"); None] true true true).
Proof.
  intros d.
  assert (Hsql : c_text (str "SELECT $1 LIMIT $2 OFFSET $3")) by by apply c_textb_text.
  assert (Hoids : Forall (fun o => 0 <= o < 2 ^ 32) [INT8_OID; INT8_OID]) by by repeat constructor.
  pose proof (extended_query_roundtrip d (statement_name_bytes 7)
    (str "SELECT $1 LIMIT $2 OFFSET $3") true [LInteger (-5)] [INT8_OID; INT8_OID]
    [Some (str "10"); None] true true true [x00] (statement_name_text 7) Hsql Hoids eq_refl) as H.
  destruct (extended_query_build _ _ _ _ _ _ _ _ _ _ _) as [out|e] eqn:E.
  - destruct H as (sent & -> & Hread). exists sent. split; [done|].
    apply Hread.
    + vm_compute in E. injection E as <-.
      repeat apply list.Forall_cons_2; [done..|by apply list.Forall_nil].
    + cbn [concat]. by rewrite app_nil_r, take_drop.
  - by vm_compute in E.
Defined.
