(* ===== verification/CacheConn.v ===== *)
(** * Connections to the cache database

    Models pg/cache_connection.rs and the sending half of cache/serve.rs: the registry of
    named prepared statements with its FIFO cap, the pipelines a serve, an MV read and an
    EXPLAIN put on the wire, the reading of an EXPLAIN's rows and of error responses
    (serve/sqlstate.rs).  The cache database is the protocol's documented bookkeeping of
    prepared statements ([server_exec]), fed with the bytes the connection writes.

    The theorem: in every history of serves a connection's registry and the server's
    statements stay in step, so no pipeline binds a statement the server does not have, or
    prepares one it has, and the server never holds more than the cap. *)
From Stdlib Require Import Strings.Byte.
From S2P Require Import Prelude Value Cast Egress Session Dispatch Wire.

Open Scope Z_scope.

#[global] Instance byte_countable : Countable byte.
Proof. exact (inj_countable Byte.to_N Byte.of_N Byte.of_to_N). Defined.

(** ** The statement registry *)

Definition PREPARED_STATEMENT_CAP : nat := 512.

Record PreparedStatements := { ps_order : list Z; ps_live : gset Z }.

Definition prepared_new : PreparedStatements := {| ps_order := []; ps_live := ∅ |}.

Definition prepared_contains (p : PreparedStatements) (key : Z) : bool :=
  bool_decide (key ∈ ps_live p).

Definition prepared_insert (p : PreparedStatements) (key : Z)
    : option Z * PreparedStatements :=
  let order := ps_order p ++ [key] in
  let live := {[ key ]} ∪ ps_live p in
  if (PREPARED_STATEMENT_CAP <? length order)%nat then
    match order with
    | evicted :: order => (Some evicted, {| ps_order := order; ps_live := live ∖ {[ evicted ]} |})
    | [] => (None, {| ps_order := order; ps_live := live |})
    end
  else (None, {| ps_order := order; ps_live := live |}).

(** ** The connection *)

Record PrepareOutcome := {
  sent_setgen_parse : bool;
  sent_parse : bool;
  sent_close : bool;
}.

Record CacheConnection := {
  cc_codec : PgConnectionState;
  cc_read_buf : Bytes;
  cc_sql_buf : Bytes;
  cc_write_buf : Bytes;
  cc_prepared : PreparedStatements;
  cc_setgen_parsed : bool;
}.

(** A connection as [connect] makes it, before the handshake. *)
Definition connection_fresh : CacheConnection :=
  {| cc_codec := Startup; cc_read_buf := []; cc_sql_buf := []; cc_write_buf := [];
     cc_prepared := prepared_new; cc_setgen_parsed := false |}.

Definition cc_with (prepared : PreparedStatements) (setgen : bool) (write_buf : Bytes)
    (c : CacheConnection) : CacheConnection :=
  {| cc_codec := cc_codec c; cc_read_buf := cc_read_buf c; cc_sql_buf := cc_sql_buf c;
     cc_write_buf := write_buf; cc_prepared := prepared; cc_setgen_parsed := setgen |}.

Definition cc_with_sql (sql : Bytes) (c : CacheConnection) : CacheConnection :=
  {| cc_codec := cc_codec c; cc_read_buf := cc_read_buf c; cc_sql_buf := sql;
     cc_write_buf := cc_write_buf c; cc_prepared := cc_prepared c;
     cc_setgen_parsed := cc_setgen_parsed c |}.

(** The start-up loop over the messages of the server: [Ok] with the messages left after
    the first ReadyForQuery. *)
Fixpoint startup_handshake (ms : list (PgMessage PgBackendMessageType))
    : CacheResult (list (PgMessage PgBackendMessageType)) :=
  match ms with
  | [] => Err CeIoError
  | m :: ms =>
      match message_type m with
      | BmAuthentication =>
          if default (-1) (authentication_type (pm_data m)) =? AUTHENTICATION_OK
          then startup_handshake ms else Err CeInvalidMessage
      | BmReadyForQuery => Ok ms
      | BmErrorResponse => Err CeInvalidMessage
      | _ => startup_handshake ms
      end
  end.

Section send.
Context (f64_display : f64 -> Bytes).
(** [LiteralValue::deparse], the SQL spelling of a literal. *)
Context (literal_deparse : LiteralValue -> Bytes).

Definition close_statement_write (key : Z) (buf : Bytes) : CacheResult Bytes :=
  frontend_msg_append x43 (fun b => Ok (b ++ [x53] ++ statement_name_bytes key ++ [x00])) buf.

(** The registry is updated before the pipeline is built; a build that fails leaves the
    update behind, and the caller discards the connection. *)
Definition pipelined_named_query_send (shape_key generation : Z) (literals : list LiteralValue)
    (limit_text offset_text : option Bytes) (include_describe binary_results : bool)
    (c : CacheConnection) : CacheConnection * CacheResult PrepareOutcome :=
  let send_parse := negb (prepared_contains (cc_prepared c) shape_key) in
  let name := statement_name_bytes shape_key in
  let '(close_victim, prepared) :=
    if send_parse then prepared_insert (cc_prepared c) shape_key else (None, cc_prepared c) in
  let send_setgen_parse := negb (cc_setgen_parsed c) in
  let gen_text := str (i64_text generation) in
  let built :=
    let? buf := extended_query_build f64_display SETGEN_STATEMENT_NAME SETGEN_SQL
      send_setgen_parse [] [TEXT_OID] [Some gen_text] false false false [] in
    let? buf := match close_victim with
                | Some victim_key => close_statement_write victim_key buf
                | None => Ok buf
                end in
    extended_query_build f64_display name (cc_sql_buf c) send_parse literals
      [INT8_OID; INT8_OID] [limit_text; offset_text] include_describe binary_results true buf in
  match built with
  | Ok buf =>
      (cc_with prepared true buf c,
       Ok {| sent_setgen_parse := send_setgen_parse; sent_parse := send_parse;
             sent_close := bool_decide (is_Some close_victim) |})
  | Err e => (cc_with prepared true [] c, Err e)
  end.

Definition extended_query_unnamed_send (include_describe binary_results : bool)
    (c : CacheConnection) : CacheConnection * CacheResult unit :=
  match extended_query_build f64_display [] (cc_sql_buf c) true [] [] []
          include_describe binary_results true [] with
  | Ok buf => (cc_with (cc_prepared c) (cc_setgen_parsed c) buf c, Ok tt)
  | Err e => (cc_with (cc_prepared c) (cc_setgen_parsed c) [] c, Err e)
  end.

(** The generation reset of an EXPLAIN, then its statement. *)
Definition generation_reset_message : CacheResult Bytes :=
  frontend_msg_append x51 (fun b => Ok (b ++ str "SET mem.query_generation TO 0" ++ [x00])) [].

Definition explain_send (explain_sql : Bytes) (literals : list LiteralValue) (c : CacheConnection)
    : CacheConnection * CacheResult unit :=
  match extended_query_build f64_display [] explain_sql true literals [] [] true false true [] with
  | Ok buf => (cc_with (cc_prepared c) (cc_setgen_parsed c) buf c, Ok tt)
  | Err e => (cc_with (cc_prepared c) (cc_setgen_parsed c) [] c, Err e)
  end.

Definition limit_bind_text (value : option LiteralValue) : option Bytes :=
  match value with
  | None => None
  | Some (LInteger n) => Some (str (i64_text n))
  | Some v => Some (literal_deparse v)
  end.

Record QueryShape := { qs_sql : Bytes; qs_key : Z; qs_literals : list LiteralValue }.

(** Where a serve reads: the shape of the source rows, or the rendered SQL of a
    materialized result. *)
Inductive ServeSource := FromRows (shape : QueryShape) | FromMv (sql : Bytes).

(** The statement text of a shape: its SQL and the two placeholders after its literals. *)
Definition shape_statement (shape : QueryShape) : Bytes :=
  let literal_count := Z.of_nat (length (qs_literals shape)) in
  qs_sql shape ++ str " LIMIT $" ++ str (i64_text (literal_count + 1))
  ++ str " OFFSET $" ++ str (i64_text (literal_count + 2)).

Definition serve_query_send (source : ServeSource) (generation : Z) (limit : option LimitClause)
    (include_describe binary_results : bool) (c : CacheConnection)
    : CacheConnection * CacheResult PrepareOutcome :=
  match source with
  | FromMv sql =>
      let '(c, sent) := extended_query_unnamed_send include_describe binary_results (cc_with_sql sql c) in
      (c, let? _ := sent in
          Ok {| sent_setgen_parse := false; sent_parse := true; sent_close := false |})
  | FromRows shape =>
      pipelined_named_query_send (qs_key shape) generation (qs_literals shape)
        (limit_bind_text (limit ≫= lc_count)) (limit_bind_text (limit ≫= lc_offset))
        include_describe binary_results (cc_with_sql (shape_statement shape) c)
  end.

End send.

(** ** Reading an EXPLAIN *)

Inductive ExplainOutcome := ExplainPlan (lines : list Bytes) | ExplainCacheError (message : Bytes).

(** The fields of an ErrorResponse from [payload] on; every turn takes a byte at least. *)
Fixpoint error_fields_walk (fuel : nat) (payload : Bytes) (sqlstate message : option Bytes)
    : option Bytes * option Bytes :=
  match fuel, payload with
  | S fuel, code :: rest =>
      if Byte.eqb code x00 then (sqlstate, message) else
      let end_ := default (length rest) (nul_position rest) in
      let value := default [] (from_utf8 (take end_ rest)) in
      let sqlstate := if Byte.eqb code x43 then Some value else sqlstate in
      let message := if Byte.eqb code x4d then Some value else message in
      error_fields_walk fuel (drop (end_ + 1) rest) sqlstate message
  | _, _ => (sqlstate, message)
  end.

Definition error_response_display (data : Bytes) : Bytes :=
  let payload := default [] (slice_from data 5) in
  match error_fields_walk (length payload) payload None None with
  | (Some code, Some text) => str "[" ++ code ++ str "] " ++ text
  | (None, Some text) => text
  | (Some code, None) => str "[" ++ code ++ str "]"
  | (None, None) => str "cache DB error"
  end.

(** The response loop of [explain_collect]: the outcome and the messages after the first
    ReadyForQuery. *)
Fixpoint explain_collect_loop (ms : list (PgMessage PgBackendMessageType)) (plan : list Bytes)
    (cache_error : option Bytes)
    : CacheResult (ExplainOutcome * list (PgMessage PgBackendMessageType)) :=
  match ms with
  | [] => Err CeIoError
  | m :: ms =>
      match message_type m with
      | BmDataRows => explain_collect_loop ms (data_rows_first_columns (pm_data m) plan) cache_error
      | BmErrorResponse => explain_collect_loop ms plan (Some (error_response_display (pm_data m)))
      | BmReadyForQuery =>
          Ok (match cache_error with
              | Some message => ExplainCacheError message
              | None => ExplainPlan plan
              end, ms)
      | _ => explain_collect_loop ms plan cache_error
      end
  end.

Definition SQLSTATE_UNDEFINED_TABLE : Bytes := str "42P01".

Fixpoint sqlstate_walk (fuel : nat) (payload : Bytes) (i : Z) : option Bytes :=
  match fuel with
  | O => None
  | S fuel =>
      if blen payload <=? i then None else
      match byte_at payload i with
      | None => None
      | Some code =>
          if Byte.eqb code x00 then None else
          let value_start := i + 1 in
          match slice_from payload value_start with
          | None => None
          | Some rest =>
              match nul_position rest with
              | None => None
              | Some value_len =>
                  if Byte.eqb code x43 && (value_len =? 5)%nat then slice_get rest 0 5
                  else sqlstate_walk fuel payload (value_start + Z.of_nat value_len + 1)
              end
          end
      end
  end.

Definition sqlstate_extract (frame_data : Bytes) : option Bytes :=
  match slice_from frame_data 5 with
  | None => None
  | Some payload => sqlstate_walk (length payload) payload 0
  end.

(** ** The server's side *)

Record Statement := { st_sql : Bytes; st_oids : list Z }.
Notation Statements := (gmap Bytes Statement).

(** PostgreSQL's bookkeeping of prepared statements: a Parse of a name in use, a Bind of an
    unknown name or with another number of parameters, is an error ([None]); the unnamed
    statement is replaced; closing a statement always succeeds. *)
Definition server_request (r : FrontendRequest) (sv : Statements) : option Statements :=
  match r with
  | RqParse p =>
      let st := {| st_sql := pp_sql p; st_oids := pp_parameter_oids p |} in
      if bool_decide (pp_statement_name p = []) then Some (<[ [] := st ]> sv)
      else match sv !! pp_statement_name p with
           | Some _ => None
           | None => Some (<[pp_statement_name p := st]> sv)
           end
  | RqBind b =>
      match sv !! pb_statement_name b with
      | None => None
      | Some st =>
          if bool_decide (length (pb_parameter_values b) = length (st_oids st)) then Some sv else None
      end
  | RqClose c => Some (if Byte.eqb (pc_close_type c) x53 then delete (pc_name c) sv else sv)
  | RqDescribe _ | RqExecute _ | RqSync => Some sv
  end.

Fixpoint server_exec (rs : list FrontendRequest) (sv : Statements) : option Statements :=
  match rs with
  | [] => Some sv
  | r :: rs => sv ← server_request r sv; server_exec rs sv
  end.

(** The requests in the bytes a connection wrote, as the protocol's framing and the message
    formats give them. *)
Definition requests_of (sent : Bytes) : option (list FrontendRequest) :=
  mapM (fun m => match request_read m with Some (Ok r) => Some r | _ => None end)
    (frames_collect frontend_decode (S (length sent)) Query [] [sent]).1.

(** A use of a pooled connection.  A send that fails poisons it. *)
Inductive ConnUse :=
| UseServe (source : ServeSource) (generation : Z) (limit : option LimitClause)
    (include_describe binary_results : bool)
| UseExplain (sql : Bytes) (literals : list LiteralValue).

Inductive ConnRun :=
| Pooled (c : CacheConnection) (sv : Statements)
| Discarded
| Refused.

Section run.
Context (f64_display : f64 -> Bytes) (literal_deparse : LiteralValue -> Bytes).

Definition conn_send (u : ConnUse) (c : CacheConnection) : CacheConnection * bool :=
  match u with
  | UseServe source generation limit describe binary =>
      let '(c, r) := serve_query_send f64_display literal_deparse source generation limit
                       describe binary c in
      (c, match r with Ok _ => true | Err _ => false end)
  | UseExplain sql literals =>
      let '(c, r) := explain_send f64_display sql literals c in
      (c, match r with Ok _ => true | Err _ => false end)
  end.

(** The server reads what was written; [Refused] is a pipeline its statements do not fit. *)
Definition conn_use (run : ConnRun) (u : ConnUse) : ConnRun :=
  match run with
  | Pooled c sv =>
      let '(c, sent) := conn_send u c in
      if negb sent then Discarded else
      match rs ← requests_of (cc_write_buf c); server_exec rs sv with
      | Some sv => Pooled c sv
      | None => Refused
      end
  | _ => run
  end.

(** [shape_of] gives the text and the literal count a key stands for: two shapes of one key
    have the same SQL. *)
Context (shape_of : Z -> Bytes * nat).

Definition shape_text (key : Z) : Bytes := (shape_of key).1.
Definition shape_oids (key : Z) : list Z := replicate (shape_of key).2 0 ++ [INT8_OID; INT8_OID].

Definition shape_known (s : QueryShape) : Prop :=
  0 <= qs_key s < 2 ^ 64 /\ c_text (shape_statement s) /\
  shape_of (qs_key s) = (shape_statement s, length (qs_literals s)).

Definition use_ok (u : ConnUse) : Prop :=
  match u with
  | UseServe (FromRows shape) _ _ _ _ => shape_known shape
  | UseServe (FromMv sql) _ _ _ _ => c_text sql
  | UseExplain sql _ => c_text sql
  end.

Definition setgen_statement : Statement := {| st_sql := SETGEN_SQL; st_oids := [TEXT_OID] |}.

(** The registry mirrors the server. *)
Record in_step (p : PreparedStatements) (setgen_parsed : bool) (sv : Statements) : Prop := {
  is_nodup : NoDup (ps_order p);
  is_live : forall key, key ∈ ps_live p <-> key ∈ ps_order p;
  is_cap : (length (ps_order p) <= PREPARED_STATEMENT_CAP)%nat;
  is_keys : forall key, key ∈ ps_order p -> 0 <= key < 2 ^ 64;
  is_named : forall key, 0 <= key < 2 ^ 64 ->
    sv !! statement_name_bytes key =
    if bool_decide (key ∈ ps_order p)
    then Some {| st_sql := shape_text key; st_oids := shape_oids key |} else None;
  is_setgen : sv !! SETGEN_STATEMENT_NAME = if setgen_parsed then Some setgen_statement else None;
  is_dom : forall name, is_Some (sv !! name) ->
    name = [] \/ name = SETGEN_STATEMENT_NAME \/
    exists key, key ∈ ps_order p /\ name = statement_name_bytes key;
}.

(** *** The bytes of a pipeline are its requests *)

Lemma requests_of_frames fs rs :
  Forall2 frame_requests fs rs -> concat fs <> [] -> requests_of (concat fs) = Some rs.
Proof.
  intros Hfr Hne. unfold requests_of.
  destruct (requests_collect (S (length (concat fs))) fs rs [concat fs]) as (ms & E & Hms).
  - done.
  - by constructor.
  - cbn [concat]. by rewrite app_nil_r.
  - assert (length fs <= length (concat fs))%nat; [|lia].
    clear -Hfr. induction Hfr as [|f r fs rs [(tag & body & ty & -> & _) _] _ IH]; [done|].
    cbn [concat length]. rewrite length_app. cbn [frame length]. lia.
  - rewrite E. cbn [fst]. clear -Hms. revert rs Hms.
    induction ms as [|m ms IH]; intros [|r rs] Hms; try done. cbn [map] in Hms.
    injection Hms as Hm Hms. cbn [mapM]. rewrite Hm. simpl. by rewrite (IH rs Hms).
Qed.

(** Whatever a build appends is a list of frames that read as its requests. *)
Definition writes (w : Bytes -> CacheResult Bytes) (rs : list FrontendRequest) : Prop :=
  forall buf out, w buf = Ok out ->
  exists fs, out = buf ++ concat fs /\ Forall2 frame_requests fs rs.

Lemma writes_extended name sql send_parse lits oids tails describe binary sync :
  c_text name -> c_text sql -> Forall (fun o => 0 <= o < 2 ^ 32) oids ->
  length oids = length tails ->
  writes (extended_query_build f64_display name sql send_parse lits oids tails describe binary sync)
    (extended_requests f64_display name sql send_parse lits oids tails describe binary sync).
Proof.
  intros Hn Hs Ho Hl buf out. rewrite extended_query_build_eq.
  destruct (extended_fits _ _ _ _ _ _ _ _) eqn:Hfits; [|done]. intros [= <-].
  eexists. split; [done|]. by apply extended_frames_requests.
Qed.

Lemma writes_close key :
  writes (close_statement_write key)
    [RqClose {| pc_close_type := x53; pc_name := statement_name_bytes key |}].
Proof.
  intros buf out. unfold close_statement_write.
  rewrite (frontend_msg_append_frame x43 _ (x53 :: statement_name_bytes key ++ [x00])) by done.
  destruct (_ <=? i32_max) eqn:Hfit; [|done]. apply Z.leb_le in Hfit. intros [= <-].
  exists [frame x43 (x53 :: statement_name_bytes key ++ [x00])].
  cbn [concat]. rewrite app_nil_r. split; [done|]. constructor; [|constructor].
  apply (frame_request x43 _ FmClose); [done|done|]. unfold request_read. cbn [message_type pm_data].
  unfold parse_close_message, target_message_parse. rewrite message_body_frame.
  cbn [result_bind read_u8]. rewrite <- (app_nil_r (_ ++ [x00])).
  by rewrite (reads_cstring _ (statement_name_text key)).
Qed.

Lemma writes_bind w1 w2 rs1 rs2 :
  writes w1 rs1 -> writes w2 rs2 -> writes (fun buf => let? buf := w1 buf in w2 buf) (rs1 ++ rs2).
Proof.
  intros H1 H2 buf out H. destruct (w1 buf) as [mid|] eqn:E1; [|done]. cbn [result_bind] in H.
  destruct (H1 _ _ E1) as (fs1 & -> & Hf1). destruct (H2 _ _ H) as (fs2 & -> & Hf2).
  exists (fs1 ++ fs2). rewrite concat_app, <- app_assoc. split; [done|]. by apply Forall2_app.
Qed.

Lemma writes_requests w rs out :
  writes w rs -> rs <> [] -> w [] = Ok out -> requests_of out = Some rs.
Proof.
  intros Hw Hne H. destruct (Hw _ _ H) as (fs & -> & Hfr). cbn [app].
  apply requests_of_frames; [done|]. destruct Hfr as [|f r fs rs [(tag & body & ty & -> & _) _] _]; [done|].
  by cbn [concat app frame].
Qed.

(** The requests of the two parts of a source-row serve. *)
Lemma setgen_text : c_text SETGEN_STATEMENT_NAME /\ c_text SETGEN_SQL.
Proof. split; by apply c_textb_text. Qed.

Lemma int8_oids : Forall (fun o => 0 <= o < 2 ^ 32) [INT8_OID; INT8_OID].
Proof. by repeat constructor. Qed.

Lemma text_oids : Forall (fun o => 0 <= o < 2 ^ 32) [TEXT_OID].
Proof. by repeat constructor. Qed.

(** *** What a pipeline does to the server's statements *)

Lemma server_exec_app rs1 rs2 sv :
  server_exec (rs1 ++ rs2) sv = sv ← server_exec rs1 sv; server_exec rs2 sv.
Proof.
  revert sv. induction rs1 as [|r rs1 IH]; intros sv; [done|]. cbn [app server_exec].
  destruct (server_request r sv); [apply IH|done].
Qed.

Lemma statement_name_nonempty key : statement_name_bytes key <> [].
Proof. done. Qed.

(** A fresh name is prepared and bound. *)
Lemma server_exec_prepare name sql lits oids tails describe binary sync sv :
  name <> [] -> sv !! name = None -> length oids = length tails ->
  server_exec (extended_requests f64_display name sql true lits oids tails describe binary sync) sv
  = Some (<[name := {| st_sql := sql; st_oids := map (fun _ => 0) lits ++ oids |}]> sv).
Proof.
  intros Hne Hfresh Hlen. unfold extended_requests. cbn [request_if app server_exec server_request].
  cbn [pp_statement_name pp_sql pp_parameter_oids]. rewrite bool_decide_eq_false_2 by done.
  rewrite Hfresh. cbn [mbind option_bind server_request pb_statement_name pb_parameter_values].
  rewrite lookup_insert_eq. cbn [st_oids]. rewrite bool_decide_eq_true_2.
  - by destruct describe, sync.
  - unfold bind_values. by rewrite !length_app, !length_map, Hlen.
Qed.

(** A known name is bound. *)
Lemma server_exec_reuse name sql lits oids tails describe binary sync sv st :
  sv !! name = Some st -> length (st_oids st) = (length lits + length tails)%nat ->
  server_exec (extended_requests f64_display name sql false lits oids tails describe binary sync) sv
  = Some sv.
Proof.
  intros Hst Hlen. unfold extended_requests. cbn [request_if app server_exec server_request].
  cbn [pb_statement_name pb_parameter_values]. rewrite Hst, bool_decide_eq_true_2.
  - by destruct describe, sync.
  - unfold bind_values. by rewrite length_app, length_map, Hlen.
Qed.

(** The unnamed statement is replaced and bound. *)
Lemma server_exec_unnamed sql lits describe binary sync sv :
  server_exec (extended_requests f64_display [] sql true lits [] [] describe binary sync) sv
  = Some (<[ [] := {| st_sql := sql; st_oids := map (fun _ => 0) lits ++ [] |}]> sv).
Proof.
  unfold extended_requests. cbn [request_if app server_exec server_request].
  cbn [pp_statement_name pp_sql pp_parameter_oids]. rewrite bool_decide_eq_true_2 by done.
  cbn [mbind option_bind server_request pb_statement_name pb_parameter_values].
  rewrite lookup_insert_eq. cbn [st_oids]. rewrite bool_decide_eq_true_2.
  - by destruct describe, sync.
  - unfold bind_values. by rewrite !length_app, !length_map.
Qed.

(** *** The registry stays in step *)

Lemma in_step_unnamed p g sv st : in_step p g sv -> in_step p g (<[ [] := st ]> sv).
Proof.
  intros H. destruct H as [H1 H2 H3 H4 H5 H6 H7]. constructor; try done.
  - intros key Hk. by rewrite lookup_insert_ne by done; apply H5.
  - by rewrite lookup_insert_ne by done.
  - intros name. destruct (decide (name = [])) as [->|Hn]; [by left|].
    rewrite lookup_insert_ne by done. apply H7.
Qed.

Lemma in_step_setgen p g sv :
  in_step p g sv ->
  in_step p true (if g then sv else <[SETGEN_STATEMENT_NAME := setgen_statement]> sv).
Proof.
  intros H. destruct g; [done|]. destruct H as [H1 H2 H3 H4 H5 H6 H7]. constructor; try done.
  - intros key Hk. rewrite lookup_insert_ne by (intros E; by apply (statement_name_not_setgen key)).
    by apply H5.
  - by rewrite lookup_insert_eq.
  - intros name. destruct (decide (name = SETGEN_STATEMENT_NAME)) as [->|Hn]; [by right; left|].
    rewrite lookup_insert_ne by done. apply H7.
Qed.

Definition victim_closed (victim : option Z) (sv : Statements) : Statements :=
  match victim with Some v => delete (statement_name_bytes v) sv | None => sv end.

(** The order after an insertion: without the victim, with the key. *)
Lemma prepared_insert_order p key :
  (length (ps_order p) <= PREPARED_STATEMENT_CAP)%nat ->
  let '(victim, p') := prepared_insert p key in
  (length (ps_order p') <= PREPARED_STATEMENT_CAP)%nat /\
  match victim with
  | None => ps_order p' = ps_order p ++ [key] /\ ps_live p' = {[ key ]} ∪ ps_live p
  | Some v => ps_order p ++ [key] = v :: ps_order p' /\ v ∈ ps_order p /\
              ps_live p' = ({[ key ]} ∪ ps_live p) ∖ {[ v ]}
  end.
Proof.
  intros Hcap. unfold prepared_insert. cbn zeta.
  destruct (Nat.ltb_spec PREPARED_STATEMENT_CAP (length (ps_order p ++ [key]))) as [Hlt|Hge].
  - destruct (ps_order p) as [|v order] eqn:E.
    + simpl in Hlt. unfold PREPARED_STATEMENT_CAP in Hlt. lia.
    + cbn [app]. cbn [ps_order ps_live]. split; [|split; [done|split; [left|done]]].
      rewrite length_app. simpl in *. lia.
  - cbn [ps_order ps_live]. split; [done|]. done.
Qed.

(** The members after an insertion: the key and the old ones, less the victim. *)
Lemma prepared_insert_members p key victim p' :
  NoDup (ps_order p) -> key ∉ ps_order p ->
  match victim with
  | None => ps_order p' = ps_order p ++ [key] /\ ps_live p' = {[ key ]} ∪ ps_live p
  | Some v => ps_order p ++ [key] = v :: ps_order p' /\ v ∈ ps_order p /\
              ps_live p' = ({[ key ]} ∪ ps_live p) ∖ {[ v ]}
  end ->
  NoDup (ps_order p') /\
  forall k, k ∈ ps_order p' <-> (k = key \/ k ∈ ps_order p) /\ victim <> Some k.
Proof.
  intros H1 Hnew Hord.
  assert (Hnd : NoDup (ps_order p ++ [key])).
  { apply list.NoDup_app. split; [done|]. split; [|apply NoDup_singleton].
    intros x Hx Hx'%list_elem_of_singleton. by subst. }
  destruct victim as [v|].
  - destruct Hord as (Ho & Hv & _). rewrite Ho in Hnd. apply list.NoDup_cons in Hnd as [Hv' Hnd].
    split; [done|]. intros k.
    assert (Hk : k ∈ ps_order p ++ [key] <-> k ∈ v :: ps_order p') by by rewrite Ho.
    rewrite elem_of_app, list_elem_of_singleton, elem_of_cons in Hk.
    split; [intros Hin; split; [tauto|intros [= ->]; done]|].
    intros [Hin Hne]. destruct Hk as [Hk _]. destruct Hk as [->|?]; [tauto|done|done].
  - destruct Hord as [-> _]. split; [done|]. intros k.
    rewrite elem_of_app, list_elem_of_singleton. naive_solver.
Qed.

Lemma in_step_insert p sv key :
  in_step p true sv -> 0 <= key < 2 ^ 64 -> key ∉ ps_order p ->
  let '(victim, p') := prepared_insert p key in
  victim_closed victim sv !! statement_name_bytes key = None /\
  in_step p' true
    (<[statement_name_bytes key := {| st_sql := shape_text key; st_oids := shape_oids key |}]>
       (victim_closed victim sv)).
Proof.
  intros [H1 H2 H3 H4 H5 H6 H7] Hkey Hnew.
  pose proof (prepared_insert_order p key H3) as Hord.
  destruct (prepared_insert p key) as [victim p']. destruct Hord as [Hcap' Hord].
  destruct (prepared_insert_members p key victim p' H1 Hnew Hord) as [Hnd' Hperm].
  assert (Hvkey : victim <> Some key).
  { intros ->. destruct Hord as (_ & Hv & _). done. }
  assert (Hclosed : forall k, 0 <= k < 2 ^ 64 -> victim_closed victim sv !! statement_name_bytes k =
    if bool_decide (victim = Some k) then None else sv !! statement_name_bytes k).
  { intros k Hk. destruct victim as [v|]; [|done]. cbn [victim_closed]. case_bool_decide as Hv.
    - injection Hv as ->. apply lookup_delete_eq.
    - apply lookup_delete_ne. intros E. apply Hv. f_equal.
      apply statement_name_inj; [|done|done]. destruct Hord as (_ & Hin & _). by apply H4. }
  assert (Hother : forall name, (forall k, name <> statement_name_bytes k) ->
    victim_closed victim sv !! name = sv !! name).
  { intros name Hn. destruct victim as [v|]; [|done]. apply lookup_delete_ne. by apply not_eq_sym, Hn. }
  split.
  { rewrite Hclosed, H5 by done. rewrite (bool_decide_eq_false_2 (key ∈ _)) by done.
    by destruct (bool_decide _). }
  constructor.
  - done.
  - intros k. rewrite Hperm.
    destruct victim as [v|]; [destruct Hord as (_ & _ & ->)|destruct Hord as (_ & ->)]; set_solver.
  - done.
  - intros k. rewrite Hperm. intros [[->|Hin] _]; [done|by apply H4].
  - intros k Hk. destruct (decide (k = key)) as [->|Hne].
    + rewrite lookup_insert_eq, bool_decide_eq_true_2; [done|]. rewrite Hperm. by split; [left|].
    + rewrite lookup_insert_ne by (intros E; by apply statement_name_inj in E).
      rewrite Hclosed, H5 by done. rewrite (bool_decide_ext _ _ (Hperm k)).
      destruct (decide (victim = Some k)) as [Hv|Hv].
      * rewrite bool_decide_eq_true_2 by done. by rewrite bool_decide_eq_false_2 by tauto.
      * rewrite bool_decide_eq_false_2 by done.
        destruct (decide (k ∈ ps_order p)).
        -- by rewrite !bool_decide_eq_true_2 by tauto.
        -- by rewrite !bool_decide_eq_false_2 by tauto.
  - rewrite lookup_insert_ne by apply statement_name_not_setgen.
    rewrite Hother by (intros k E; by apply (statement_name_not_setgen k)). done.
  - intros name Hs. destruct (decide (name = statement_name_bytes key)) as [->|Hne].
    { right. right. exists key. rewrite Hperm. by split; [split; [left|]|]. }
    rewrite lookup_insert_ne in Hs by done.
    assert (Hs' : is_Some (sv !! name)).
    { destruct victim as [v|]; [|done]. cbn [victim_closed] in Hs.
      destruct (decide (name = statement_name_bytes v)) as [->|]; [by rewrite lookup_delete_eq in Hs; destruct Hs|].
      by rewrite lookup_delete_ne in Hs by done. }
    destruct (H7 name Hs') as [?|[?|(k & Hk & ->)]]; [by left|by right; left|].
    right. right. exists k. split; [|done]. rewrite Hperm. split; [by right|].
    intros ->. rewrite Hclosed, bool_decide_eq_true_2 in Hs by (done || by apply H4). by destruct Hs.
Qed.

(** *** Every use of the connection *)

Definition accepted (c : CacheConnection) (sv : Statements) : Prop :=
  exists rs sv', requests_of (cc_write_buf c) = Some rs /\ server_exec rs sv = Some sv' /\
    in_step (cc_prepared c) (cc_setgen_parsed c) sv'.

(** The generation stamp prepares its statement once, then reuses it. *)
Lemma setgen_exec p g sv gen_text :
  in_step p g sv ->
  server_exec (extended_requests f64_display SETGEN_STATEMENT_NAME SETGEN_SQL (negb g) [] [TEXT_OID]
                 [Some gen_text] false false false) sv
  = Some (if g then sv else <[SETGEN_STATEMENT_NAME := setgen_statement]> sv).
Proof.
  intros H. pose proof (is_setgen _ _ _ H) as Hs. destruct g; cbn [negb].
  - by apply (server_exec_reuse _ _ _ _ _ _ _ _ _ setgen_statement).
  - by rewrite server_exec_prepare.
Qed.

(** The SELECT's statement is prepared when the registry says so, after its victim is
    closed, and is there when it is reused. *)
Lemma select_exec p sv shape tails describe binary victim p' :
  in_step p true sv -> shape_known shape -> length tails = 2%nat ->
  let send_parse := negb (prepared_contains p (qs_key shape)) in
  (if send_parse then prepared_insert p (qs_key shape) else (None, p)) = (victim, p') ->
  exists sv', server_exec (extended_requests f64_display (statement_name_bytes (qs_key shape))
      (shape_statement shape) send_parse (qs_literals shape) [INT8_OID; INT8_OID] tails
      describe binary true) (victim_closed victim sv) = Some sv' /\ in_step p' true sv'.
Proof.
  intros H (Hkey & _ & Hof) Htails. unfold prepared_contains.
  assert (Htext : shape_text (qs_key shape) = shape_statement shape)
    by (unfold shape_text; by rewrite Hof).
  assert (Hoids : shape_oids (qs_key shape) = map (fun _ => 0) (qs_literals shape) ++ [INT8_OID; INT8_OID]).
  { unfold shape_oids. rewrite Hof. cbn [snd]. f_equal.
    clear. induction (qs_literals shape) as [|l ls IH]; [done|]. cbn [length replicate map]. by rewrite IH. }
  case_bool_decide as Hlive; cbn [negb]; intros Hins.
  - injection Hins as <- <-. exists sv. split; [|done]. cbn [victim_closed].
    apply (is_live _ _ _ H) in Hlive.
    eapply server_exec_reuse; [rewrite (is_named _ _ _ H), bool_decide_eq_true_2 by done; done|].
    cbn [st_oids]. rewrite Hoids, length_app, length_map, Htails. done.
  - rewrite (is_live _ _ _ H) in Hlive. pose proof (in_step_insert p sv _ H Hkey Hlive) as Hi.
    rewrite Hins in Hi. destruct Hi as [Hfree Hstep]. eexists.
    rewrite server_exec_prepare by done. split; [done|]. by rewrite <- Hoids, <- Htext.
Qed.

Lemma requests_nonempty d name sql send_parse lits oids tails describe binary sync :
  extended_requests d name sql send_parse lits oids tails describe binary sync <> [].
Proof. unfold extended_requests. by destruct send_parse. Qed.

Lemma pipelined_send_accepted c sv shape generation limit_text offset_text describe binary c' o :
  in_step (cc_prepared c) (cc_setgen_parsed c) sv -> shape_known shape ->
  cc_sql_buf c = shape_statement shape ->
  pipelined_named_query_send f64_display (qs_key shape) generation (qs_literals shape)
    limit_text offset_text describe binary c = (c', Ok o) ->
  accepted c' sv.
Proof.
  intros H Hshape Hsql. unfold pipelined_named_query_send. rewrite Hsql.
  set (send_parse := negb (prepared_contains (cc_prepared c) (qs_key shape))).
  destruct (if send_parse then _ else _) as [victim p'] eqn:Hins.
  destruct (result_bind _ _) as [out|e] eqn:Hbuilt; [|done]. intros [= <- <-].
  set (rs1 := extended_requests f64_display SETGEN_STATEMENT_NAME SETGEN_SQL
    (negb (cc_setgen_parsed c)) [] [TEXT_OID] [Some (str (i64_text generation))] false false false).
  set (rs3 := extended_requests f64_display (statement_name_bytes (qs_key shape))
    (shape_statement shape) send_parse (qs_literals shape) [INT8_OID; INT8_OID]
    [limit_text; offset_text] describe binary true).
  set (rs2 := match victim with
              | Some v => [RqClose {| pc_close_type := x53; pc_name := statement_name_bytes v |}]
              | None => [] end).
  assert (Hw : requests_of out = Some (rs1 ++ rs2 ++ rs3)).
  { refine (writes_requests _ _ out (writes_bind _ _ _ _ _ (writes_bind _ _ _ _ _ _)) _ Hbuilt).
    - apply writes_extended; [apply setgen_text..|apply text_oids|done].
    - unfold rs2. destruct victim; [apply writes_close|].
      intros buf o [= <-]. exists []. cbn [concat]. rewrite app_nil_r. by split.
    - apply writes_extended; [apply statement_name_text|apply Hshape|apply int8_oids|done].
    - intros E. apply app_nil in E as [E _]. by apply requests_nonempty in E. }
  exists (rs1 ++ rs2 ++ rs3).
  pose proof (in_step_setgen _ _ _ H) as Hg. set (sv1 := if cc_setgen_parsed c then _ else _) in Hg.
  destruct (select_exec (cc_prepared c) sv1 shape [limit_text; offset_text] describe binary victim p')
    as (sv' & Hsel & Hstep); [done..|].
  exists sv'. split; [done|]. split; [|done].
  rewrite server_exec_app. unfold rs1. rewrite (setgen_exec _ _ _ _ H). cbn [mbind option_bind].
  fold sv1. rewrite server_exec_app.
  assert (Hclose : server_exec rs2 sv1 = Some (victim_closed victim sv1)).
  { unfold rs2. by destruct victim. }
  rewrite Hclose. exact Hsel.
Qed.

Lemma unnamed_accepted c sv sql lits describe binary out :
  in_step (cc_prepared c) (cc_setgen_parsed c) sv -> c_text sql ->
  extended_query_build f64_display [] sql true lits [] [] describe binary true [] = Ok out ->
  accepted (cc_with (cc_prepared c) (cc_setgen_parsed c) out c) sv.
Proof.
  intros H Hsql Hbuilt.
  eexists _, _. split.
  { eapply writes_requests; [|apply requests_nonempty|exact Hbuilt].
    apply writes_extended; [apply c_text_empty|done|constructor|done]. }
  split; [apply server_exec_unnamed|]. by apply in_step_unnamed.
Qed.

Lemma conn_send_accepted u c sv c' :
  in_step (cc_prepared c) (cc_setgen_parsed c) sv -> use_ok u -> conn_send u c = (c', true) ->
  accepted c' sv.
Proof.
  intros H Hu. destruct u as [[shape|sql] generation limit describe binary|sql lits]; cbn [conn_send].
  - cbn [serve_query_send]. destruct (pipelined_named_query_send _ _ _ _ _ _ _ _ _) as [c1 [o|e]] eqn:E;
      intros [= <-]. by apply (pipelined_send_accepted (cc_with_sql (shape_statement shape) c) _ _ _ _ _ _ _ _ _ H Hu eq_refl E).
  - cbn [serve_query_send]. unfold extended_query_unnamed_send.
    destruct (extended_query_build _ _ _ _ _ _ _ _ _ _ _) as [out|e] eqn:E; intros [= <-].
    by apply (unnamed_accepted (cc_with_sql sql c) _ sql [] describe binary).
  - unfold explain_send. destruct (extended_query_build _ _ _ _ _ _ _ _ _ _ _) as [out|e] eqn:E;
      intros [= <-]. by apply (unnamed_accepted c _ sql lits true false).
Qed.

Definition run_ok (run : ConnRun) : Prop :=
  match run with
  | Pooled c sv => in_step (cc_prepared c) (cc_setgen_parsed c) sv
  | Discarded => True
  | Refused => False
  end.

Lemma conn_use_ok run u : run_ok run -> use_ok u -> run_ok (conn_use run u).
Proof.
  intros H Hu. destruct run as [c sv| |]; [|done..]. cbn [conn_use].
  destruct (conn_send u c) as [c' []] eqn:E; [|done]. cbn [negb].
  destruct (conn_send_accepted u c sv c' H Hu E) as (rs & sv' & Hrs & Hex & Hstep).
  rewrite Hrs. cbn [mbind option_bind]. by rewrite Hex.
Qed.

Lemma fresh_in_step : in_step prepared_new false ∅.
Proof.
  constructor; cbn [prepared_new ps_order ps_live].
  - constructor.
  - set_solver.
  - simpl. lia.
  - intros key Hin. by apply not_elem_of_nil in Hin.
  - intros key _. rewrite bool_decide_eq_false_2; [done|apply not_elem_of_nil].
  - done.
  - intros name [? Hl]. by rewrite lookup_empty in Hl.
Qed.

Lemma size_list_to_set_le (l : list Bytes) : (size (list_to_set l : gset Bytes) <= length l)%nat.
Proof.
  induction l as [|x l IH]; [done|]. cbn [list_to_set length].
  rewrite size_union_alt, size_singleton.
  pose proof (subseteq_size ((list_to_set l : gset Bytes) ∖ {[ x ]}) (list_to_set l)
    ltac:(set_solver)). lia.
Qed.

(** The statements of the server, besides the unnamed one and the generation stamp's, are
    those of the registry. *)
Lemma in_step_size p g sv :
  in_step p g sv -> (size sv <= PREPARED_STATEMENT_CAP + 2)%nat.
Proof.
  intros H. rewrite <- size_dom.
  set (names := [] :: SETGEN_STATEMENT_NAME :: map statement_name_bytes (ps_order p)).
  assert (Hsub : dom sv ⊆ (list_to_set names : gset Bytes)).
  { intros name Hin%elem_of_dom. apply elem_of_list_to_set. unfold names.
    destruct (is_dom _ _ _ H name Hin) as [->|[->|(k & Hk & ->)]].
    - by left.
    - by right; left.
    - right; right. apply list_elem_of_fmap. by exists k. }
  apply subseteq_size in Hsub. pose proof (is_cap _ _ _ H) as Hcap.
  pose proof (size_list_to_set_le names) as Hn.
  assert (length names = S (S (length (ps_order p)))) by (unfold names; cbn [length]; by rewrite length_map).
  lia.
Qed.

End run.

(** C19: a pooled connection's registry and the server's prepared statements stay in step.
    Through any sequence of serves from source rows and from materialized results, and of
    EXPLAINs, the server accepts every pipeline the connection writes: no Bind names a
    statement it does not have or carries another number of parameters, no Parse names one it
    has.  The registry's shapes are then the server's named statements, each with the SQL of
    its shape, at most the cap and the two auxiliary ones. *)
Theorem prepared_in_step (d : f64 -> Bytes) (deparse : LiteralValue -> Bytes)
    (shape_of : Z -> Bytes * nat) (uses : list ConnUse)
    (Huses : Forall (use_ok shape_of) uses) :
  match fold_left (conn_use d deparse) uses (Pooled connection_fresh ∅) with
  | Refused => False
  | Discarded => True
  | Pooled c sv =>
      (size sv <= PREPARED_STATEMENT_CAP + 2)%nat /\
      forall key, 0 <= key < 2 ^ 64 ->
        sv !! statement_name_bytes key =
        if prepared_contains (cc_prepared c) key
        then Some {| st_sql := shape_text shape_of key; st_oids := shape_oids shape_of key |}
        else None
  end.
Proof.
  assert (H : run_ok shape_of (fold_left (conn_use d deparse) uses (Pooled connection_fresh ∅))).
  { assert (H0 : run_ok shape_of (Pooled connection_fresh ∅)) by apply fresh_in_step.
    revert H0. generalize (Pooled connection_fresh ∅). induction Huses as [|u uses Hu _ IH];
      intros run Hrun; [done|]. cbn [fold_left]. apply IH. by apply conn_use_ok. }
  destruct (fold_left _ _ _) as [c sv| |]; [|done..]. cbn [run_ok] in H.
  split; [by eapply in_step_size|]. intros key Hkey. rewrite (is_named _ _ _ _ H key Hkey).
  unfold prepared_contains. by rewrite (bool_decide_ext _ _ (is_live _ _ _ _ H key)).
Qed.

(** The lines of a plan, in order, however the codec batched its rows. *)
Theorem explain_collects_plan (chunks : list (list Bytes))
    (pre post : list (PgMessage PgBackendMessageType)) (rfq : PgMessage PgBackendMessageType)
    (Hrows : Forall (Forall row_value_ok) chunks) (Hrfq : message_type rfq = BmReadyForQuery)
    (Hquiet : Forall (fun m => message_type m ∉ [BmDataRows; BmErrorResponse; BmReadyForQuery])
                (pre ++ post)) :
  let rows := map (fun lines => {| message_type := BmDataRows; pm_data := concat (map text_row lines) |}) chunks in
  explain_collect_loop (pre ++ rows ++ post ++ [rfq]) [] None = Ok (ExplainPlan (concat chunks), []).
Proof.
  intros rows. apply list.Forall_app in Hquiet as [Hpre Hpost].
  assert (Hskip : forall ms rest plan,
    Forall (fun m : PgMessage PgBackendMessageType =>
      message_type m ∉ [BmDataRows; BmErrorResponse; BmReadyForQuery]) ms ->
    explain_collect_loop (ms ++ rest) plan None = explain_collect_loop rest plan None).
  { intros ms rest plan. induction 1 as [|m ms Hm _ IH]; [done|]. cbn [app explain_collect_loop].
    destruct (message_type m); try done; exfalso; apply Hm; set_solver. }
  rewrite Hskip by done. clear Hpre. subst rows.
  assert (Hgo : forall plan, explain_collect_loop
    (map (fun lines => {| message_type := BmDataRows; pm_data := concat (map text_row lines) |}) chunks
     ++ post ++ [rfq]) plan None = Ok (ExplainPlan (plan ++ concat chunks), [])).
  { induction Hrows as [|lines chunks Hl _ IH]; intros plan.
    - cbn [map app concat]. rewrite Hskip by done. cbn [explain_collect_loop]. by rewrite Hrfq, app_nil_r.
    - cbn [map app concat explain_collect_loop message_type pm_data].
      rewrite first_columns_roundtrip by done. by rewrite IH, <- app_assoc. }
  apply Hgo.
Qed.

(** The SQLSTATE of an error built from its fields is the one extracted. *)
Example sqlstate_of_serve_error : sqlstate_extract SERVE_ERROR_MSG = Some (str "58000").
Proof. reflexivity. Qed.

Example display_of_serve_error :
  error_response_display SERVE_ERROR_MSG = str "[58000] pgcache: cache serve failed".
Proof. reflexivity. Qed.

(** ** A concrete history *)

Module CacheConnWitness.

Definition d (_ : f64) : Bytes := str "1.5".
Definition deparse (_ : LiteralValue) : Bytes := str "NULL".
Definition shape (n : Z) : QueryShape :=
  {| qs_sql := str "SELECT id FROM t WHERE a = $1"; qs_key := 7; qs_literals := [LInteger n] |}.
Definition shape_of (k : Z) : Bytes * nat := if k =? 7 then (shape_statement (shape 0), 1%nat) else ([], 0%nat).

Definition uses : list ConnUse :=
  [UseServe (FromRows (shape 1)) 3 None true false;
   UseServe (FromRows (shape (-2))) 4 (Some {| lc_count := Some (LInteger 10); lc_offset := None |}) false true;
   UseServe (FromMv (str "SELECT * FROM pgcache_mv.q_1")) 5 None true true;
   UseExplain (str "EXPLAIN SELECT 1") []].

Definition final : ConnRun := fold_left (conn_use d deparse) uses (Pooled connection_fresh ∅).

Lemma uses_ok : Forall (use_ok shape_of) uses.
Proof.
  assert (Hs : forall n, shape_known shape_of (shape n)).
  { intros n. split; [done|]. split; [by apply c_textb_text|done]. }
  apply list.Forall_cons_2; [apply Hs|]. apply list.Forall_cons_2; [apply Hs|].
  apply list.Forall_cons_2; [by apply c_textb_text|].
  apply list.Forall_cons_2; [by apply c_textb_text|apply list.Forall_nil_2].
Qed.

(** The history ends with the connection in the pool and the shape prepared once. *)
Example final_pooled :
  match final with
  | Pooled c sv => ps_order (cc_prepared c) = [7] /\ size sv = 3%nat
  | _ => False
  end.
Proof. vm_compute. by split. Qed.

Lemma prepared_in_step_witness :
  match final with
  | Refused => False
  | Discarded => True
  | Pooled c sv =>
      (size sv <= PREPARED_STATEMENT_CAP + 2)%nat /\
      forall key, 0 <= key < 2 ^ 64 ->
        sv !! statement_name_bytes key =
        if prepared_contains (cc_prepared c) key
        then Some {| st_sql := shape_text shape_of key; st_oids := shape_oids shape_of key |}
        else None
  end.
Proof. exact (prepared_in_step d deparse shape_of uses uses_ok). Defined.

End CacheConnWitness.
