(* ===== verification/Serve.v ===== *)
(** * Serving a cache hit

    Models cache/serve.rs with serve/response_state.rs, relay.rs and coalesce.rs, the guard
    of runtime/serve_pool.rs, and the reply of its [handle_serve_request]: the response state
    machine over the messages of the cache database, the relay to the client's write queue
    and to the coalesced waiters, the select loop as events, the clean-up after a failure and
    the settling of the pooled connection.

    The theorems: a complete response of the database, cut and batched anyhow and written to
    the client in any portions, reaches the client exactly, with the generation stamp's part
    kept out, and the connection goes back to the pool; a serve answered with a forward to
    origin has put no byte on a working client socket; and every serve gives the pool its
    connection back or asks for a replacement, once.  [ServeGap] shows what escapes. *)
From Stdlib Require Import Strings.Byte.
From S2P Require Import Prelude Value Cast Egress Session WriteQueue Dispatch Memo Wire CacheConn.

Open Scope nat_scope.

(** ** The response state machine *)

Inductive ServeResponseState :=
| RsSetGenParse | RsSetGenBind | RsSetGenData | RsCloseComplete | RsParseComplete
| RsBindComplete | RsDescribeRow | RsDataRows | RsDone.
#[global] Instance serve_response_state_eq_dec : EqDecision ServeResponseState.
Proof. solve_decision. Defined.

Definition response_initial (mv : bool) (prepare : PrepareOutcome) : ServeResponseState :=
  if mv then RsParseComplete
  else if sent_setgen_parse prepare then RsSetGenParse else RsSetGenBind.

Definition select_start (prepare : PrepareOutcome) : ServeResponseState :=
  if sent_parse prepare then RsParseComplete else RsBindComplete.

Definition in_set_config (s : ServeResponseState) : bool :=
  match s with RsSetGenParse | RsSetGenBind | RsSetGenData => true | _ => false end.

Definition response_advance (s : ServeResponseState) (ty : PgBackendMessageType) (prepare : PrepareOutcome)
    (include_describe : bool) : option ServeResponseState :=
  match s, ty with
  | RsSetGenParse, BmParseComplete => Some RsSetGenBind
  | RsSetGenBind, BmBindComplete => Some RsSetGenData
  | RsSetGenData, BmDataRows => Some RsSetGenData
  | RsSetGenData, BmCommandComplete =>
      if sent_close prepare then Some RsCloseComplete else Some (select_start prepare)
  | RsCloseComplete, BmCloseComplete => Some (select_start prepare)
  | RsParseComplete, BmParseComplete => Some RsBindComplete
  | RsBindComplete, BmBindComplete => if include_describe then Some RsDescribeRow else Some RsDataRows
  | state, BmReadyForQuery => if negb (in_set_config state) then Some RsDone else None
  | _, _ => None
  end.

(** ** Coalesced waiters *)

(** The capacity of the broadcast channel: a receiver with more unread chunks lags, and its
    next receive fails. *)
Definition BROADCAST_CAP : nat := 64.

(** A waiter's write task: the chunks it has not received, whether it lags, whether it has
    returned its client as failed, and what its client's socket has taken. *)
Record Waiter := {
  wt_pending : list Bytes;
  wt_lagged : bool;
  wt_failed : bool;
  wt_wire : Bytes;
}.

Definition waiter_new : Waiter :=
  {| wt_pending := []; wt_lagged := false; wt_failed := false; wt_wire := [] |}.

Definition waiter_send (bytes : Bytes) (w : Waiter) : Waiter :=
  if wt_failed w then w else
  let pending := wt_pending w ++ [bytes] in
  {| wt_pending := pending; wt_lagged := wt_lagged w || (BROADCAST_CAP <? length pending);
     wt_failed := false; wt_wire := wt_wire w |}.

(** One turn of the task: a receive and its write, which may fail after [k] bytes. *)
Definition waiter_turn (fails_after : option nat) (w : Waiter) : Waiter :=
  if wt_failed w then w
  else if wt_lagged w then
    {| wt_pending := []; wt_lagged := true; wt_failed := true; wt_wire := wt_wire w |}
  else match wt_pending w with
       | [] => w
       | chunk :: rest =>
           match fails_after with
           | None => {| wt_pending := rest; wt_lagged := false; wt_failed := false;
                        wt_wire := wt_wire w ++ chunk |}
           | Some k => {| wt_pending := []; wt_lagged := false; wt_failed := true;
                          wt_wire := wt_wire w ++ take k chunk |}
           end
       end.

(** What a waiter's connection is told. *)
Inductive WaiterOutcome := WaiterComplete | WaiterFailed.

(** Joining a task after the sender is dropped: it receives what is left. *)
Definition waiter_join (w : Waiter) : Waiter * WaiterOutcome :=
  if wt_failed w || wt_lagged w then (w, WaiterFailed)
  else ({| wt_pending := []; wt_lagged := false; wt_failed := false;
           wt_wire := wt_wire w ++ concat (wt_pending w) |}, WaiterComplete).

Definition broadcast_join (ws : list Waiter) : list (Waiter * WaiterOutcome) := map waiter_join ws.

(** On a failed serve every waiter is answered with an error, whatever it has written. *)
Definition broadcast_error_reply (ws : list Waiter) : list (Waiter * WaiterOutcome) :=
  map (fun w => ((waiter_join w).1, WaiterFailed)) ws.

(** No waiters, no channel. *)
Definition broadcast_setup (coalesced : nat) : option (list Waiter) :=
  if coalesced =? 0 then None else Some (replicate coalesced waiter_new).

Definition push_and_broadcast (data : Bytes) (q : WriteQueue) (b : option (list Waiter))
    : WriteQueue * option (list Waiter) :=
  (wq_push data q, map (waiter_send data) <$> b).

(** ** The pooled connection's guard *)

(** [true] for the connection itself: what matters to the pool is that there is one. *)
Record ConnectionGuard := { gd_conn : bool; gd_poisoned : bool; gd_returned : bool }.

Definition guard_new : ConnectionGuard :=
  {| gd_conn := true; gd_poisoned := false; gd_returned := false |}.

Inductive PoolEffect := PoolReturned | PoolReplenish.

(** [release] with the pool's channel open or closed: the guard after it, the effect on the
    pool, and whether it succeeded. *)
Definition guard_release (channel_open : bool) (g : ConnectionGuard)
    : ConnectionGuard * list PoolEffect * bool :=
  if gd_conn g then
    if channel_open
    then ({| gd_conn := false; gd_poisoned := gd_poisoned g; gd_returned := true |}, [PoolReturned], true)
    else ({| gd_conn := false; gd_poisoned := gd_poisoned g; gd_returned := gd_returned g |}, [], false)
  else (g, [], true).

Definition guard_drop (g : ConnectionGuard) : list PoolEffect :=
  if gd_poisoned g then [PoolReplenish]
  else if gd_conn g then [PoolReturned]
  else if negb (gd_returned g) then [PoolReplenish] else [].

(** ** Relay and client *)

Record Relay := {
  rl_state : ServeResponseState;
  rl_guard : ConnectionGuard;
  rl_broadcast : option (list Waiter);
  rl_memo_capture : option MemoCapture;
  rl_parameter_description : option Bytes;
  rl_bytes_served : nat;
  rl_prepare : PrepareOutcome;
  rl_include_describe : bool;
  rl_pipeline_describe : PipelineDescribe;
  rl_waiter_replies : list (Waiter * WaiterOutcome);   (* the replies already sent *)
}.

Definition rl_with (state : ServeResponseState) (broadcast : option (list Waiter))
    (capture : option MemoCapture) (pd : option Bytes) (served : nat) (r : Relay) : Relay :=
  {| rl_state := state; rl_guard := rl_guard r; rl_broadcast := broadcast;
     rl_memo_capture := capture; rl_parameter_description := pd; rl_bytes_served := served;
     rl_prepare := rl_prepare r; rl_include_describe := rl_include_describe r;
     rl_pipeline_describe := rl_pipeline_describe r; rl_waiter_replies := rl_waiter_replies r |}.

Definition rl_with_state (state : ServeResponseState) (r : Relay) : Relay :=
  rl_with state (rl_broadcast r) (rl_memo_capture r) (rl_parameter_description r) (rl_bytes_served r) r.

Definition rl_with_guard (g : ConnectionGuard) (broadcast : option (list Waiter))
    (replies : list (Waiter * WaiterOutcome)) (r : Relay) : Relay :=
  {| rl_state := rl_state r; rl_guard := g; rl_broadcast := broadcast;
     rl_memo_capture := rl_memo_capture r; rl_parameter_description := rl_parameter_description r;
     rl_bytes_served := rl_bytes_served r; rl_prepare := rl_prepare r;
     rl_include_describe := rl_include_describe r; rl_pipeline_describe := rl_pipeline_describe r;
     rl_waiter_replies := replies |}.

Definition guard_poison (g : ConnectionGuard) : ConnectionGuard :=
  {| gd_conn := gd_conn g; gd_poisoned := true; gd_returned := gd_returned g |}.

(** The guard is poisoned and the waiters, if any, are answered. *)
Definition relay_poison (r : Relay) : Relay :=
  rl_with_guard (guard_poison (rl_guard r)) None
    (match rl_broadcast r with
     | Some ws => rl_waiter_replies r ++ broadcast_error_reply ws
     | None => rl_waiter_replies r
     end) r.

Definition row_description_relay (data : Bytes) (r : Relay) (q : WriteQueue) : Relay * WriteQueue :=
  let '(pd, q, b) :=
    match rl_pipeline_describe r, rl_parameter_description r with
    | DescribeStatement, Some param_desc =>
        let '(q, b) := push_and_broadcast param_desc q (rl_broadcast r) in (None, q, b)
    | _, pd => (pd, q, rl_broadcast r)
    end in
  let capture := row_description_push data <$> rl_memo_capture r in
  let '(q, b) := push_and_broadcast data q b in
  (rl_with RsDataRows b capture pd (rl_bytes_served r) r, q).

(** [None] hands the frame back: this state does not relay it. *)
Definition frame_relay (m : PgMessage PgBackendMessageType) (r : Relay) (q : WriteQueue)
    : option (Relay * WriteQueue) :=
  match rl_state r, message_type m with
  | RsDescribeRow, BmRowDescription => Some (row_description_relay (pm_data m) r q)
  | RsDataRows, BmDataRows =>
      let '(q, b) := push_and_broadcast (pm_data m) q (rl_broadcast r) in
      Some (rl_with (rl_state r) b (data_push (pm_data m) <$> rl_memo_capture r)
              (rl_parameter_description r) (rl_bytes_served r + length (pm_data m)) r, q)
  | RsDataRows, BmCommandComplete =>
      let '(q, b) := push_and_broadcast (pm_data m) q (rl_broadcast r) in
      Some (rl_with (rl_state r) b (command_complete_push (pm_data m) <$> rl_memo_capture r)
              (rl_parameter_description r) (rl_bytes_served r) r, q)
  | _, _ => None
  end.

(** One message: consumed, relayed, passed over, or an error with the relay poisoned. *)
Definition frame_apply (m : PgMessage PgBackendMessageType) (r : Relay) (q : WriteQueue)
    : Relay * WriteQueue * option CacheError :=
  match response_advance (rl_state r) (message_type m) (rl_prepare r) (rl_include_describe r) with
  | Some next => (rl_with_state next r, q, None)
  | None =>
      match frame_relay m r q with
      | Some (r, q) => (r, q, None)
      | None =>
          match message_type m with
          | BmErrorResponse =>
              (relay_poison r, q, Some (CeCacheServerError (sqlstate_extract (pm_data m))))
          | BmParameterStatus | BmNoticeResponse | BmNotificationResponse => (r, q, None)
          | _ => (relay_poison r, q, Some CeInvalidMessage)
          end
      end
  end.

Record ServeClient := {
  sc_write_queue : WriteQueue;
  sc_trailing_rfq : option Bytes;
  sc_in_block : bool;
  sc_committed : bool;
  sc_bytes_sent : bool;
  sc_gone : bool;
  sc_wire : Bytes;        (* what the client's socket has taken *)
  sc_broken : bool;       (* a write to it has failed *)
}.

Definition sc_with (q : WriteQueue) (committed bytes_sent gone : bool) (wire : Bytes) (broken : bool)
    (c : ServeClient) : ServeClient :=
  {| sc_write_queue := q; sc_trailing_rfq := sc_trailing_rfq c; sc_in_block := sc_in_block c;
     sc_committed := committed; sc_bytes_sent := bytes_sent; sc_gone := gone; sc_wire := wire;
     sc_broken := broken |}.

Definition sc_with_queue (q : WriteQueue) (c : ServeClient) : ServeClient :=
  sc_with q (sc_committed c) (sc_bytes_sent c) (sc_gone c) (sc_wire c) (sc_broken c) c.

(** [write_all_buf]: everything, or a failure after [k] bytes. *)
Definition write_all (fails_after : option nat) (c : ServeClient) : ServeClient :=
  let s := wq_stream (sc_write_queue c) in
  match fails_after with
  | None => sc_with (wq_advance (length s) (sc_write_queue c)) (sc_committed c) (sc_bytes_sent c)
              (sc_gone c) (sc_wire c ++ s) (sc_broken c) c
  | Some k => sc_with (wq_advance k (sc_write_queue c)) (sc_committed c) (sc_bytes_sent c)
                (sc_gone c) (sc_wire c ++ take k s) true c
  end.

(** [failure_resolve]: [None] is [Ok], the entry ended on the client with an error. *)
Definition failure_resolve (forward_error : CacheError) (fails_after : option nat) (c : ServeClient)
    : ServeClient * option CacheError :=
  if negb (sc_bytes_sent c) then (c, Some forward_error) else
  let q := wq_push SERVE_ERROR_MSG (wq_clear (sc_write_queue c)) in
  if sc_in_block c then
    (write_all fails_after (sc_with_queue q c), Some CeServeAbandonedInBlock)
  else
    let q := match sc_trailing_rfq c with Some rfq => wq_push rfq q | None => q end in
    (write_all fails_after (sc_with_queue q c), None).

(** ** The serve *)

(** What the connection's task is answered: [CacheOutcome]. *)
Inductive ServeReply := ReplyComplete | ReplyForward | ReplyAbandon.
#[global] Instance serve_reply_eq_dec : EqDecision ServeReply.
Proof. solve_decision. Defined.

Definition reply_of (error : option CacheError) : ServeReply :=
  match error with
  | None => ReplyComplete
  | Some CeServeAbandonedInBlock => ReplyAbandon
  | Some _ => ReplyForward
  end.

Inductive ServePhase :=
| Relaying
| Drained                                   (* the loop broke at [Done] *)
| Replied (reply : ServeReply).

Record Serve := {
  se_relay : Relay;
  se_client : ServeClient;
  se_phase : ServePhase;
  se_pool : list PoolEffect;
  se_release_failed : bool;
}.

Definition se_with (r : Relay) (c : ServeClient) (s : Serve) : Serve :=
  {| se_relay := r; se_client := c; se_phase := se_phase s; se_pool := se_pool s;
     se_release_failed := se_release_failed s |}.

(** The task ends: the guard is dropped and the reply sent. *)
Definition serve_end (r : Relay) (c : ServeClient) (error : option CacheError) (s : Serve) : Serve :=
  {| se_relay := r; se_client := c; se_phase := Replied (reply_of error);
     se_pool := se_pool s ++ guard_drop (rl_guard r); se_release_failed := se_release_failed s |}.

(** The request as the serve reads it. *)
Record ServeRequest := {
  sq_mv : bool;
  sq_include_describe : bool;
  sq_pipeline_describe : PipelineDescribe;
  sq_parameter_description : option Bytes;
  sq_has_parse : bool;
  sq_has_bind : bool;
  sq_trailing_rfq : option Bytes;
  sq_in_block : bool;
  sq_coalesced : nat;
  sq_capture : option MemoCapture;
}.

(** Up to the loop, once the pipeline has been sent (the other case is [serve_send_failed]):
    the guard without its connection, the pushes of the completions the proxy answers for. *)
Definition serve_start (q : ServeRequest) (prepare : PrepareOutcome) : Serve :=
  let b := broadcast_setup (sq_coalesced q) in
  let '(w, b) := if sq_has_parse q then push_and_broadcast PARSE_COMPLETE_MSG wq_new b else (wq_new, b) in
  let '(w, b) := if sq_has_bind q then push_and_broadcast BIND_COMPLETE_MSG w b else (w, b) in
  {| se_relay :=
       {| rl_state := response_initial (sq_mv q) prepare;
          rl_guard := {| gd_conn := false; gd_poisoned := false; gd_returned := false |};
          rl_broadcast := b; rl_memo_capture := sq_capture q;
          rl_parameter_description := sq_parameter_description q; rl_bytes_served := 0;
          rl_prepare := prepare; rl_include_describe := sq_include_describe q;
          rl_pipeline_describe := sq_pipeline_describe q; rl_waiter_replies := [] |};
     se_client :=
       {| sc_write_queue := w; sc_trailing_rfq := sq_trailing_rfq q; sc_in_block := sq_in_block q;
          sc_committed := false; sc_bytes_sent := false; sc_gone := false; sc_wire := [];
          sc_broken := false |};
     se_phase := Relaying; se_pool := []; se_release_failed := false |}.

(** The arms of the [select!], a turn of a waiter's task, and the end after [Done]. *)
Inductive ServeEvent :=
| EvDeadline (fails_after : option nat)
| EvFrame (m : PgMessage PgBackendMessageType) (fails_after : option nat)
| EvStreamEnd (fails_after : option nat)
| EvWrite (n : nat)
| EvWriteError
| EvDrainStall
| EvWaiter (i : nat) (fails_after : option nat)
| EvFinish (residual : bool) (channel_open : bool) (fails_after : option nat).

(** A failure inside the loop: the client's fate, then the end of the task. *)
Definition serve_fail (r : Relay) (c : ServeClient) (e : CacheError) (fails_after : option nat)
    (s : Serve) : Serve :=
  let '(c, error) := failure_resolve e fails_after c in serve_end r c error s.

(** The rest of a turn of the loop. *)
Definition loop_tail (s : Serve) : Serve :=
  let r := se_relay s in
  let c := se_client s in
  let committed := match rl_state r with RsDataRows | RsDone => true | _ => sc_committed c end in
  let q := if sc_gone c then wq_clear (sc_write_queue c) else sc_write_queue c in
  {| se_relay := r;
     se_client := sc_with q committed (sc_bytes_sent c) (sc_gone c) (sc_wire c) (sc_broken c) c;
     se_phase := if bool_decide (rl_state r = RsDone) then Drained else se_phase s;
     se_pool := se_pool s; se_release_failed := se_release_failed s |}.

Definition write_enabled (c : ServeClient) : bool :=
  sc_committed c && negb (wq_is_empty (sc_write_queue c)) && negb (sc_gone c).

(** After [Done]: the connection goes back or is discarded, the closing ReadyForQuery is
    pushed, the waiters are joined and the rest is written.  Storing the capture at the very
    end is [capture_finish] of the memo. *)
Definition serve_finish (residual channel_open : bool) (fails_after : option nat) (s : Serve) : Serve :=
  let r := se_relay s in
  let c := se_client s in
  let guard :=
    if residual then guard_poison (rl_guard r)
    else {| gd_conn := true; gd_poisoned := gd_poisoned (rl_guard r);
            gd_returned := gd_returned (rl_guard r) |} in
  let '(guard, pool, released) := guard_release channel_open guard in
  let s := {| se_relay := r; se_client := c; se_phase := se_phase s; se_pool := se_pool s ++ pool;
              se_release_failed := negb released |} in
  if negb released then
    let replies := match rl_broadcast r with
                   | Some ws => rl_waiter_replies r ++ broadcast_error_reply ws
                   | None => rl_waiter_replies r
                   end in
    serve_end (rl_with_guard guard None replies r) c (Some CeNoConnection) s
  else
    let '(q, b) := match sc_trailing_rfq c with
                   | Some rfq => push_and_broadcast rfq (sc_write_queue c) (rl_broadcast r)
                   | None => (sc_write_queue c, rl_broadcast r)
                   end in
    let replies := match b with
                   | Some ws => rl_waiter_replies r ++ broadcast_join ws
                   | None => rl_waiter_replies r
                   end in
    let r := rl_with_guard guard None replies r in
    let c := sc_with_queue q c in
    if sc_gone c || wq_is_empty q then serve_end r c None s
    else
      let c := write_all fails_after c in
      serve_end r c (match fails_after with None => None | Some _ => Some CeWrite end) s.

Definition serve_event (s : Serve) (e : ServeEvent) : Serve :=
  let r := se_relay s in
  let c := se_client s in
  match se_phase s, e with
  | Relaying, EvDeadline fails_after => serve_fail (relay_poison r) c CeWrite fails_after s
  | Relaying, EvStreamEnd fails_after => serve_fail (relay_poison r) c CeInvalidMessage fails_after s
  | Relaying, EvFrame m fails_after =>
      let '(r, q, error) := frame_apply m r (sc_write_queue c) in
      let c := sc_with_queue q c in
      match error with
      | Some err => serve_fail r c err fails_after s
      | None => loop_tail (se_with r c s)
      end
  | Relaying, EvWrite n =>
      if write_enabled c then
        let taken := take n (wq_stream (sc_write_queue c)) in
        loop_tail (se_with r
          (sc_with (wq_advance (length taken) (sc_write_queue c)) (sc_committed c)
             (sc_bytes_sent c || (0 <? length taken)) (sc_gone c) (sc_wire c ++ taken) (sc_broken c) c) s)
      else s
  | Relaying, EvWriteError =>
      if write_enabled c then
        loop_tail (se_with r
          (sc_with (sc_write_queue c) (sc_committed c) (sc_bytes_sent c) true (sc_wire c) true c) s)
      else s
  | Relaying, EvDrainStall =>
      if sc_gone c then serve_end (relay_poison r) c (Some CeWrite) s else s
  | Relaying, EvWaiter i fails_after | Drained, EvWaiter i fails_after =>
      se_with (rl_with (rl_state r) (alter (waiter_turn fails_after) i <$> rl_broadcast r)
                 (rl_memo_capture r) (rl_parameter_description r) (rl_bytes_served r) r) c s
  | Drained, EvFinish residual channel_open fails_after =>
      serve_finish residual channel_open fails_after s
  | _, _ => s
  end.

Definition serve_run (s : Serve) (es : list ServeEvent) : Serve := fold_left serve_event es s.

(** What became of the pipeline: written, too long for the protocol, or not written. *)
Inductive ServeSend := SendDone (prepare : PrepareOutcome) | SendTooLong | SendIoError.

(** A failed send poisons the guard and ends the serve before the broadcast is set up. *)
Definition serve_send_failed (q : ServeRequest) (error : CacheError) : Serve :=
  let prepare := {| sent_setgen_parse := false; sent_parse := false; sent_close := false |} in
  let r :=
    {| rl_state := response_initial (sq_mv q) prepare;
       rl_guard := {| gd_conn := false; gd_poisoned := true; gd_returned := false |};
       rl_broadcast := None; rl_memo_capture := sq_capture q;
       rl_parameter_description := sq_parameter_description q; rl_bytes_served := 0;
       rl_prepare := prepare; rl_include_describe := sq_include_describe q;
       rl_pipeline_describe := sq_pipeline_describe q; rl_waiter_replies := [] |} in
  let c :=
    {| sc_write_queue := wq_new; sc_trailing_rfq := sq_trailing_rfq q; sc_in_block := sq_in_block q;
       sc_committed := false; sc_bytes_sent := false; sc_gone := false; sc_wire := [];
       sc_broken := false |} in
  serve_end r c (Some error)
    {| se_relay := r; se_client := c; se_phase := Relaying; se_pool := []; se_release_failed := false |}.

Definition handle_cached_query (q : ServeRequest) (send : ServeSend) (es : list ServeEvent) : Serve :=
  match send with
  | SendDone prepare => serve_run (serve_start q prepare) es
  | SendTooLong => serve_send_failed q CeInvalidMessage
  | SendIoError => serve_send_failed q CeIoError
  end.

(** ** Pushing to the client and to the waiters *)

(** A waiter that has not failed nor lagged has received, or will, all that was pushed. *)
Definition waiter_has (t : Bytes) (w : Waiter) : Prop :=
  wt_failed w = true \/ wt_lagged w = true \/ wt_wire w ++ concat (wt_pending w) = t.

Definition waiters_have (t : Bytes) (b : option (list Waiter)) : Prop :=
  match b with Some ws => Forall (waiter_has t) ws | None => True end.

Definition waiters_number (b : option (list Waiter)) : nat :=
  match b with Some ws => length ws | None => 0 end.

(** The state of the two sides after [bytes] more were pushed to both. *)
Definition pushed (bytes : Bytes) (q : WriteQueue) (b : option (list Waiter))
    (q' : WriteQueue) (b' : option (list Waiter)) : Prop :=
  (wq_ok q -> wq_ok q' /\ wq_stream q' = wq_stream q ++ bytes) /\
  (forall t, waiters_have t b -> waiters_have (t ++ bytes) b') /\
  waiters_number b' = waiters_number b.

Lemma pushed_refl q b : pushed [] q b q b.
Proof. split; [|split; [|done]]; intros; by rewrite app_nil_r. Qed.

Lemma pushed_trans a1 a2 q b q1 b1 q2 b2 :
  pushed a1 q b q1 b1 -> pushed a2 q1 b1 q2 b2 -> pushed (a1 ++ a2) q b q2 b2.
Proof.
  intros (H1 & H2 & H3) (H4 & H5 & H6). split; [|split; [|congruence]].
  - intros Hok. destruct (H1 Hok) as [Hok1 E1]. destruct (H4 Hok1) as [Hok2 E2].
    split; [done|]. by rewrite E2, E1, app_assoc.
  - intros t Ht. rewrite app_assoc. auto.
Qed.

Lemma waiter_send_has t bytes w : waiter_has t w -> waiter_has (t ++ bytes) (waiter_send bytes w).
Proof.
  unfold waiter_has, waiter_send. destruct (wt_failed w) eqn:Ef; [by left|].
  cbn [wt_failed wt_lagged wt_wire wt_pending]. intros [?|[->|E]]; [done|by right; left|].
  right. right. by rewrite concat_app, <- E, app_assoc; cbn [concat]; rewrite app_nil_r.
Qed.

Lemma waiter_turn_has t f w : waiter_has t w -> waiter_has t (waiter_turn f w).
Proof.
  unfold waiter_has, waiter_turn. destruct (wt_failed w) eqn:Ef; [by left|].
  destruct (wt_lagged w) eqn:El; [by left|]. intros [?|[?|E]]; [done..|].
  destruct (wt_pending w) as [|chunk rest] eqn:Ep; [right; right; by rewrite Ep|].
  destruct f; [by left|]. right. right. cbn [wt_wire wt_pending]. cbn [concat] in E.
  by rewrite <- app_assoc.
Qed.

Lemma push_pushed data q b :
  let '(q', b') := push_and_broadcast data q b in pushed data q b q' b'.
Proof.
  cbn [push_and_broadcast]. split; [|split].
  - apply (wq_apply_stream q (WqPush data)).
  - intros t. destruct b as [ws|]; [|done]. cbn [waiters_have fmap option_fmap option_map].
    intros H. apply list.Forall_forall. intros w Hw.
    apply list_elem_of_In, in_map_iff in Hw as (w0 & <- & Hw0%list_elem_of_In).
    apply waiter_send_has. by apply (proj1 (list.Forall_forall _ _) H).
  - destruct b as [ws|]; [|done]. cbn. by rewrite length_map.
Qed.

Lemma waiters_turn t f i b :
  waiters_have t b -> waiters_have t (alter (waiter_turn f) i <$> b).
Proof.
  destruct b as [ws|]; [|done]. cbn. intros H. apply Forall_lookup_2. intros j w Hj.
  destruct (decide (i = j)) as [->|Hne].
  - rewrite list_lookup_alter_eq in Hj. destruct (ws !! j) as [w0|] eqn:E; [|done].
    injection Hj as <-. apply waiter_turn_has. by apply (Forall_lookup_1 _ _ _ _ H E).
  - rewrite list_lookup_alter_ne in Hj by done. by apply (Forall_lookup_1 _ _ _ _ H Hj).
Qed.

(** ** A complete response of the cache database *)

Section response.
Context (prepare : PrepareOutcome) (describe : bool) (pd : Bytes).
(** The rows and command tags of the generation stamp and of the SELECT, the row
    description and the ReadyForQuery, as message bodies and row frames. *)
Context (stamp_rows rows : list Bytes) (stamp_cc rd cc rz : Bytes).
Context (Hstamp : Forall data_row_frame stamp_rows) (Hrows : Forall data_row_frame rows).

Definition from_rows (rows : list Bytes) : list Bytes := rows ++ [frame x43 cc; frame x5a rz].
Definition from_bind : list Bytes :=
  frame x32 [] :: (if describe then frame x54 rd :: from_rows rows else from_rows rows).
Definition from_select : list Bytes :=
  if sent_parse prepare then frame x31 [] :: from_bind else from_bind.
Definition from_close : list Bytes :=
  if sent_close prepare then frame x33 [] :: from_select else from_select.
Definition from_stamp_rows (rows : list Bytes) : list Bytes := rows ++ frame x43 stamp_cc :: from_close.
Definition from_stamp : list Bytes :=
  if sent_setgen_parse prepare then frame x31 [] :: frame x32 [] :: from_stamp_rows stamp_rows
  else frame x32 [] :: from_stamp_rows stamp_rows.

(** The frames a server sends for the pipeline, and what of them the client is owed. *)
Definition response_frames (mv : bool) : list Bytes :=
  if mv then frame x31 [] :: from_bind else from_stamp.

Definition owed_rows (rows : list Bytes) : Bytes := concat rows ++ frame x43 cc.
Definition owed : Bytes := (if describe then pd ++ frame x54 rd else []) ++ owed_rows rows.

(** Where the relay is: its state, the frames to come and the bytes still owed. *)
Inductive relay_position : ServeResponseState -> list Bytes -> Bytes -> Prop :=
| pos_setgen_parse : relay_position RsSetGenParse
    (frame x31 [] :: frame x32 [] :: from_stamp_rows stamp_rows) owed
| pos_setgen_bind : relay_position RsSetGenBind (frame x32 [] :: from_stamp_rows stamp_rows) owed
| pos_setgen_data l : Forall data_row_frame l -> relay_position RsSetGenData (from_stamp_rows l) owed
| pos_close : relay_position RsCloseComplete (frame x33 [] :: from_select) owed
| pos_parse : relay_position RsParseComplete (frame x31 [] :: from_bind) owed
| pos_bind : relay_position RsBindComplete from_bind owed
| pos_describe : describe = true ->
    relay_position RsDescribeRow (frame x54 rd :: from_rows rows) owed
| pos_rows l : Forall data_row_frame l -> relay_position RsDataRows (from_rows l) (owed_rows l)
| pos_rfq : relay_position RsDataRows [frame x5a rz] []
| pos_done : relay_position RsDone [] [].

Lemma position_initial mv : relay_position (response_initial mv prepare) (response_frames mv) owed.
Proof.
  unfold response_initial, response_frames, from_stamp. destruct mv; [constructor|].
  destruct (sent_setgen_parse prepare); constructor.
Qed.

Lemma position_select : relay_position (select_start prepare) from_select owed.
Proof. unfold select_start, from_select. destruct (sent_parse prepare); constructor. Qed.

Lemma frame_tag_inj t b t' b' : frame t b = frame t' b' -> t = t'.
Proof. intros H. by apply (f_equal (hd x00)) in H. Qed.

Lemma cons_inv {A} (x y : A) l k : x :: l = y :: k -> x = y /\ l = k.
Proof. intros H. by inversion H. Qed.

(** A group of frames the codec delivers at a position: one frame that is not a row, or some
    of the rows there. *)
Lemma delivers_other tag body rest fs first m :
  first <> [] -> first ++ rest = frame tag body :: fs -> tag <> DATA_ROW_TAG ->
  backend_delivers first m ->
  rest = fs /\ pm_data m = frame tag body /\
  BACKEND_MESSAGE_TYPE_MAP tag = Some (message_type m).
Proof.
  intros Hne Happ Htag (Hdata & (tag' & body' & fs' & Hf & Hty) & Hsize).
  subst first. cbn [app] in Happ. apply cons_inv in Happ as [Hfr Happ].
  rewrite Hfr in *. apply frame_tag_inj in Hfr as ->.
  assert (fs' = []) as ->.
  { destruct Hsize as [Hl|(Hdr & Hall & _)]; [by destruct fs'|].
    apply list.Forall_cons in Hall as [(b & Hfr & _) _]. exfalso. apply Htag.
    by apply frame_tag_inj in Hfr. }
  cbn [app] in Happ. cbn [concat] in Hdata. by rewrite app_nil_r in Hdata.
Qed.

Lemma delivers_rows l tag body fs first rest m :
  Forall data_row_frame l -> tag <> DATA_ROW_TAG -> first <> [] ->
  first ++ rest = l ++ frame tag body :: fs -> l <> [] -> backend_delivers first m ->
  message_type m = BmDataRows /\
  exists l', l = first ++ l' /\ rest = l' ++ frame tag body :: fs /\ pm_data m = concat first.
Proof.
  intros Hl Htag Hne Happ Hlne (Hdata & (tag' & body' & fs' & Hf & Hty) & Hsize).
  destruct l as [|f0 l0]; [done|].
  assert (Hf0 : data_row_frame f0 /\ frame tag' body' = f0).
  { subst first. cbn [app] in Happ. apply cons_inv in Happ as [Hf0 _].
    apply list.Forall_cons in Hl as [? _]. done. }
  destruct Hf0 as [Hf0 Heq].
  assert (Hty' : message_type m = BmDataRows).
  { destruct Hf0 as (b & Hfr & _). rewrite Hfr in Heq. apply frame_tag_inj in Heq as ->.
    by injection Hty as <-. }
  assert (Hall : Forall data_row_frame first).
  { destruct Hsize as [H1|(_ & ? & _)]; [|done]. subst first. destruct fs'; [|done].
    rewrite Heq. by constructor. }
  split; [done|]. apply app_eq_inv in Happ as [(k & Hk & Hr)|(k & Hk & Hr)].
  2:{ by exists k. }
  - destruct k as [|x k].
    { rewrite app_nil_r in Hk. exists []. rewrite app_nil_r. by subst. }
    exfalso. rewrite Hk in Hall. apply list.Forall_app in Hall as [_ Hall].
    apply list.Forall_cons in Hall as [(b & Hfr & _) _].
    cbn [app] in Hr. apply cons_inv in Hr as [Hx _]. rewrite <- Hx in Hfr.
    by apply frame_tag_inj in Hfr.
Qed.

Definition relay_pd (r : Relay) : Bytes :=
  match rl_pipeline_describe r, rl_parameter_description r with
  | DescribeStatement, Some param_desc => param_desc
  | _, _ => []
  end.

Record relay_fits (r : Relay) : Prop := {
  rf_prepare : rl_prepare r = prepare;
  rf_describe : rl_include_describe r = describe;
  rf_pd : rl_state r <> RsDataRows -> rl_state r <> RsDone -> relay_pd r = pd;
}.

(** What a message of the response does to the relay: some bytes pushed, the rest owed. *)
Definition applies (m : PgMessage PgBackendMessageType) (r : Relay) (q : WriteQueue)
    (rest : list Bytes) (out : Bytes) : Prop :=
  exists r' q' bytes out',
    frame_apply m r q = (r', q', None) /\ pushed bytes q (rl_broadcast r) q' (rl_broadcast r') /\
    out = bytes ++ out' /\ relay_position (rl_state r') rest out' /\ relay_fits r' /\
    rl_guard r' = rl_guard r /\ rl_waiter_replies r' = rl_waiter_replies r.

(** A message that only advances the state. *)
Lemma applies_advance m r q rest out next :
  relay_fits r -> response_advance (rl_state r) (message_type m) prepare describe = Some next ->
  rl_state r <> RsDataRows -> rl_state r <> RsDone ->
  relay_position next rest out -> applies m r q rest out.
Proof.
  intros Hr Hadv Hs1 Hs2 Hpos. exists (rl_with_state next r), q, [], out.
  unfold frame_apply. rewrite (rf_prepare _ Hr), (rf_describe _ Hr), Hadv.
  split; [done|]. split; [apply pushed_refl|]. split; [done|]. split; [done|].
  split; [|done]. destruct Hr as [H1 H2 H3]. constructor; [done..|]. intros _ _. by apply H3.
Qed.

(** The row description, with the parameter description before it when it is owed. *)
Lemma row_description_pushed data r q :
  let '(r', q') := row_description_relay data r q in
  pushed (relay_pd r ++ data) q (rl_broadcast r) q' (rl_broadcast r') /\
  rl_state r' = RsDataRows /\ rl_prepare r' = rl_prepare r /\
  rl_include_describe r' = rl_include_describe r /\ rl_guard r' = rl_guard r /\
  rl_waiter_replies r' = rl_waiter_replies r.
Proof.
  assert (Hplain : forall pd' b q0,
    let '(q1, b1) := push_and_broadcast data q0 b in
    pushed data q0 b q1 b1 /\
    rl_broadcast (rl_with RsDataRows b1 (row_description_push data <$> rl_memo_capture r) pd'
                    (rl_bytes_served r) r) = b1).
  { intros pd' b q0. pose proof (push_pushed data q0 b) as Hp.
    by destruct (push_and_broadcast data q0 b). }
  unfold row_description_relay, relay_pd.
  destruct (rl_pipeline_describe r), (rl_parameter_description r) as [param_desc|].
  3:{ pose proof (push_pushed param_desc q (rl_broadcast r)) as Hp1.
      destruct (push_and_broadcast param_desc q (rl_broadcast r)) as [q1 b1].
      specialize (Hplain None b1 q1).
      destruct (push_and_broadcast data q1 b1) as [q2 b2]. destruct Hplain as [Hp2 _].
      split; [|done]. by eapply pushed_trans. }
  all: match goal with |- context [rl_with RsDataRows _ _ ?pd' _ _] =>
         specialize (Hplain pd' (rl_broadcast r) q) end.
  all: destruct (push_and_broadcast data q (rl_broadcast r)) as [q1 b1]; destruct Hplain as [Hp _].
  all: by split.
Qed.

(** A relayed message of the data phase. *)
Lemma applies_relay m r q rest out' capture served :
  relay_fits r -> rl_state r = RsDataRows ->
  response_advance RsDataRows (message_type m) prepare describe = None ->
  frame_relay m r q =
    (let '(q, b) := push_and_broadcast (pm_data m) q (rl_broadcast r) in
     Some (rl_with (rl_state r) b capture (rl_parameter_description r) served r, q)) ->
  relay_position RsDataRows rest out' -> applies m r q rest (pm_data m ++ out').
Proof.
  intros Hr Hs Hadv Hrel Hpos. pose proof (push_pushed (pm_data m) q (rl_broadcast r)) as Hp.
  unfold applies, frame_apply. rewrite (rf_prepare _ Hr), (rf_describe _ Hr), Hs, Hadv, Hrel.
  destruct (push_and_broadcast _ _ _) as [q1 b1].
  eexists _, q1, (pm_data m), out'. split; [done|]. split; [done|]. split; [done|].
  cbn [rl_with rl_state rl_guard rl_waiter_replies]. rewrite Hs. split; [done|].
  split; [|done]. destruct Hr as [H1 H2 H3]. constructor; [done..|]. intros Hn. by cbn in Hn.
Qed.

Lemma frame_apply_position r q out first rest m :
  relay_position (rl_state r) (first ++ rest) out -> relay_fits r -> first <> [] ->
  backend_delivers first m -> applies m r q rest out.
Proof.
  intros Hpos Hr Hne Hdel.
  inversion Hpos as [Hs Hfs Ho|Hs Hfs Ho|l Hl Hs Hfs Ho|Hs Hfs Ho|Hs Hfs Ho|Hs Hfs Ho|Hd Hs Hfs Ho
                    |l Hl Hs Hfs Ho|Hs Hfs Ho|Hs Hfs Ho]; subst out; symmetry in Hs;
    rename Hfs into Happ; symmetry in Happ.
  - destruct (delivers_other _ _ _ _ _ _ Hne Happ ltac:(done) Hdel) as (-> & _ & [= Hty]).
    eapply applies_advance; rewrite ?Hs, <- ?Hty; try done. constructor.
  - destruct (delivers_other _ _ _ _ _ _ Hne Happ ltac:(done) Hdel) as (-> & _ & [= Hty]).
    eapply applies_advance; rewrite ?Hs, <- ?Hty; try done. by constructor.
  - unfold from_stamp_rows in Happ. destruct l as [|f l].
    + destruct (delivers_other _ _ _ _ _ _ Hne Happ ltac:(done) Hdel) as (-> & _ & [= Hty]).
      eapply (applies_advance _ _ _ _ _ (if sent_close prepare then RsCloseComplete else select_start prepare));
        rewrite ?Hs, <- ?Hty; try done; cbn [response_advance]; unfold from_close;
        destruct (sent_close prepare); try done; [constructor|apply position_select].
    + destruct (delivers_rows _ x43 _ _ _ _ _ Hl ltac:(done) Hne Happ ltac:(done) Hdel)
        as (Hty & l' & Hl' & -> & _).
      eapply applies_advance; rewrite ?Hs, ?Hty; try done. constructor.
      rewrite Hl' in Hl. by apply list.Forall_app in Hl as [_ ?].
  - destruct (delivers_other _ _ _ _ _ _ Hne Happ ltac:(done) Hdel) as (-> & _ & [= Hty]).
    eapply applies_advance; rewrite ?Hs, <- ?Hty; try done. apply position_select.
  - destruct (delivers_other _ _ _ _ _ _ Hne Happ ltac:(done) Hdel) as (-> & _ & [= Hty]).
    eapply applies_advance; rewrite ?Hs, <- ?Hty; try done. constructor.
  - destruct (delivers_other _ _ _ _ _ _ Hne Happ ltac:(done) Hdel) as (-> & _ & [= Hty]).
    eapply (applies_advance _ _ _ _ _ (if describe then RsDescribeRow else RsDataRows));
      rewrite ?Hs, <- ?Hty; try done; cbn [response_advance];
      [by destruct describe|]. destruct describe eqn:Ed; [by constructor|].
    unfold owed. rewrite Ed. by constructor.
  - destruct (delivers_other _ _ _ _ _ _ Hne Happ ltac:(done) Hdel) as (-> & Hm & [= Hty]).
    pose proof (row_description_pushed (pm_data m) r q) as Hrd.
    unfold applies, frame_apply, frame_relay. rewrite (rf_prepare _ Hr), (rf_describe _ Hr), Hs, <- Hty.
    cbn [response_advance]. destruct (row_description_relay (pm_data m) r q) as [r1 q1].
    destruct Hrd as (Hp & Hs1 & Hpr & Hde & Hg & Hw).
    rewrite (rf_pd _ Hr), Hm in Hp by by rewrite Hs.
    eexists r1, q1, (pd ++ frame x54 rd), (owed_rows rows). split; [done|]. split; [done|].
    split; [unfold owed; by rewrite Hd|]. rewrite Hs1. split; [by constructor|].
    split; [|done]. destruct Hr as [H1 H2 H3]. constructor; [congruence..|]. intros Hn. by rewrite Hs1 in Hn.
  - unfold from_rows in Happ. destruct l as [|f l].
    + destruct (delivers_other _ _ _ _ _ _ Hne Happ ltac:(done) Hdel) as (-> & Hm & [= Hty]).
      unfold owed_rows. cbn [concat app]. rewrite <- Hm, <- (app_nil_r (pm_data m)).
      eapply applies_relay; rewrite <- ?Hty; try done; [|constructor].
      unfold frame_relay. rewrite Hs, <- Hty. done.
    + destruct (delivers_rows _ x43 _ _ _ _ _ Hl ltac:(done) Hne Happ ltac:(done) Hdel)
        as (Hty & l' & Hl' & -> & Hm).
      unfold owed_rows. rewrite Hl', concat_app, <- app_assoc, <- Hm.
      eapply applies_relay; rewrite ?Hty; try done.
      * unfold frame_relay. rewrite Hs, Hty. done.
      * apply (pos_rows l'). rewrite Hl' in Hl. by apply list.Forall_app in Hl as [_ ?].
  - destruct (delivers_other _ _ _ _ _ _ Hne Happ ltac:(done) Hdel) as (-> & _ & [= Hty]).
    exists (rl_with_state RsDone r), q, [], [].
    unfold frame_apply. rewrite Hs, <- Hty. cbn [response_advance in_set_config negb].
    split; [done|]. split; [apply pushed_refl|]. split; [done|]. split; [constructor|].
    split; [|done]. destruct Hr as [H1 H2 H3]. constructor; [done..|]. intros _ Hn. by cbn in Hn.
  - by destruct first.
Qed.

End response.

(** ** Serving a complete response *)

(** The events of a serve nothing goes wrong in, in any order. *)
Definition quiet_event (e : ServeEvent) : Prop :=
  match e with EvFrame _ _ | EvWrite _ | EvWaiter _ _ => True | _ => False end.

Definition frames_of (es : list ServeEvent) : list (PgMessage PgBackendMessageType) :=
  omap (fun e => match e with EvFrame m _ => Some m | _ => None end) es.

Definition serve_head (q : ServeRequest) : Bytes :=
  (if sq_has_parse q then PARSE_COMPLETE_MSG else []) ++
  (if sq_has_bind q then BIND_COMPLETE_MSG else []).

Definition request_pd (q : ServeRequest) : Bytes :=
  match sq_pipeline_describe q, sq_parameter_description q with
  | DescribeStatement, Some param_desc => param_desc
  | _, _ => []
  end.

Lemma wq_new_ok : wq_ok wq_new /\ wq_stream wq_new = [].
Proof. split; [|done]. split; simpl; try done; unfold INLINE_CAP; lia. Qed.

Lemma wq_empty_stream q : wq_is_empty q = true -> wq_stream q = [].
Proof.
  unfold wq_is_empty, wq_stream, wq_chunks, ring_chunks. rewrite andb_true_iff.
  intros [->%Nat.eqb_eq ->%bool_decide_eq_true_1]. done.
Qed.

Lemma broadcast_setup_have n :
  waiters_have [] (broadcast_setup n) /\ waiters_number (broadcast_setup n) = n.
Proof.
  unfold broadcast_setup. destruct (Nat.eqb_spec n 0) as [->|Hn]; [done|]. cbn.
  split; [|by rewrite length_replicate]. apply Forall_replicate. by right; right.
Qed.

Section serving.
Context (q : ServeRequest) (prepare : PrepareOutcome).
Context (stamp_rows rows : list Bytes) (stamp_cc rd cc rz : Bytes).
Context (Hstamp : Forall data_row_frame stamp_rows) (Hrows : Forall data_row_frame rows).

Let describe := sq_include_describe q.
Let pd := request_pd q.
Let total := serve_head q ++ owed describe pd rows rd cc.

(** A serve in the middle of a good response: [fs] still to come, [out] of it still owed. *)
Record serving (fs : list Bytes) (s : Serve) : Prop := {
  sg_phase : se_phase s = if bool_decide (rl_state (se_relay s) = RsDone) then Drained else Relaying;
  sg_fits : relay_fits prepare describe pd (se_relay s);
  sg_position : exists out,
    relay_position prepare describe pd stamp_rows rows stamp_cc rd cc rz (rl_state (se_relay s)) fs out /\
    exists t, sc_wire (se_client s) ++ wq_stream (sc_write_queue (se_client s)) = t /\
      waiters_have t (rl_broadcast (se_relay s)) /\ t ++ out = total;
  sg_queue : wq_ok (sc_write_queue (se_client s));
  sg_count : waiters_number (rl_broadcast (se_relay s)) = sq_coalesced q;
  sg_guard : rl_guard (se_relay s) = {| gd_conn := false; gd_poisoned := false; gd_returned := false |};
  sg_replies : rl_waiter_replies (se_relay s) = [];
  sg_pool : se_pool s = [];
  sg_gone : sc_gone (se_client s) = false;
  sg_rfq : sc_trailing_rfq (se_client s) = sq_trailing_rfq q;
}.

Lemma serving_start : serving (response_frames prepare describe stamp_rows rows stamp_cc rd cc rz (sq_mv q))
  (serve_start q prepare).
Proof.
  destruct (broadcast_setup_have (sq_coalesced q)) as [Hb Hc]. destruct wq_new_ok as [Hq Hs].
  assert (Hhead : let '(w, b) := if sq_has_parse q
      then push_and_broadcast PARSE_COMPLETE_MSG wq_new (broadcast_setup (sq_coalesced q))
      else (wq_new, broadcast_setup (sq_coalesced q)) in
    let '(w, b) := if sq_has_bind q then push_and_broadcast BIND_COMPLETE_MSG w b else (w, b) in
    pushed (serve_head q) wq_new (broadcast_setup (sq_coalesced q)) w b).
  { unfold serve_head. pose proof (push_pushed PARSE_COMPLETE_MSG wq_new (broadcast_setup (sq_coalesced q))) as H1.
    destruct (sq_has_parse q).
    - destruct (push_and_broadcast _ _ _) as [w1 b1].
      pose proof (push_pushed BIND_COMPLETE_MSG w1 b1) as H2.
      destruct (sq_has_bind q); [|by rewrite app_nil_r].
      destruct (push_and_broadcast _ _ _) as [w2 b2]. by eapply pushed_trans.
    - clear H1. pose proof (push_pushed BIND_COMPLETE_MSG wq_new (broadcast_setup (sq_coalesced q))) as H2.
      destruct (sq_has_bind q); [|apply pushed_refl]. by destruct (push_and_broadcast _ _ _). }
  unfold serve_start. destruct (if sq_has_parse q then _ else _) as [w1 b1].
  destruct (if sq_has_bind q then _ else _) as [w2 b2].
  destruct Hhead as (H1 & H2 & H3). destruct (H1 Hq) as [Hok Hst]. rewrite Hs in Hst. cbn [app] in Hst.
  constructor; cbn; try done.
  - unfold response_initial. by destruct (sq_mv q), (sent_setgen_parse prepare).
  - eexists. split; [by apply position_initial|]. exists (serve_head q). split; [exact Hst|].
    split; [by apply (H2 [])|done].
  - by rewrite H3.
Qed.

(** The end of a turn keeps the invariant. *)
Lemma serving_tail fs r c s :
  (forall t, sc_wire c ++ wq_stream (sc_write_queue c) = t ->
     exists out, relay_position prepare describe pd stamp_rows rows stamp_cc rd cc rz (rl_state r) fs out /\
       waiters_have t (rl_broadcast r) /\ t ++ out = total) ->
  relay_fits prepare describe pd r -> wq_ok (sc_write_queue c) ->
  waiters_number (rl_broadcast r) = sq_coalesced q ->
  rl_guard r = {| gd_conn := false; gd_poisoned := false; gd_returned := false |} ->
  rl_waiter_replies r = [] -> sc_gone c = false -> sc_trailing_rfq c = sq_trailing_rfq q ->
  se_phase s = Relaying -> se_pool s = [] ->
  serving fs (loop_tail (se_with r c s)).
Proof.
  intros Hpos Hr Hok Hn Hg Hw Hgone Hrfq Hph Hpool. unfold loop_tail, se_with.
  cbn [se_relay se_client se_phase se_pool]. rewrite Hgone, Hph.
  destruct (Hpos _ eq_refl) as (out & Hp & Hh & Ht).
  constructor; cbn; try done. exists out. split; [done|]. eexists. split; [done|]. by split.
Qed.

Lemma serving_frame first rest m f s :
  serving (first ++ rest) s -> first <> [] -> backend_delivers first m ->
  serving rest (serve_event s (EvFrame m f)).
Proof.
  intros [Hph Hr (out & Hp & t & Ht & Hh & Hout) Hok Hn Hg Hw Hpool Hgone Hrfq] Hne Hdel.
  destruct (frame_apply_position prepare describe pd stamp_rows rows stamp_cc rd cc rz Hstamp Hrows
    (se_relay s) (sc_write_queue (se_client s)) out first rest m Hp Hr Hne Hdel)
    as (r' & q' & bytes & out' & E & (Hq & Hb & Hc) & -> & Hp' & Hr' & Hg' & Hw').
  assert (Hnd : rl_state (se_relay s) <> RsDone).
  { intros E'. rewrite E' in Hp. inversion Hp as [| | | | | | | | |Hs Hfs Ho]. by destruct first. }
  rewrite bool_decide_eq_false_2 in Hph by done.
  unfold serve_event. rewrite Hph, E. destruct (Hq Hok) as [Hok' Hst'].
  apply serving_tail; try done; cbn; try congruence.
  intros t' <-. exists out'. split; [done|]. rewrite Hst', app_assoc, Ht. split; [by apply Hb|].
  by rewrite <- app_assoc.
Qed.

Lemma serving_write fs n s : serving fs s -> serving fs (serve_event s (EvWrite n)).
Proof.
  intros H. pose proof H as [Hph Hr (out & Hp & t & Ht & Hh & Hout) Hok Hn Hg Hw Hpool Hgone Hrfq].
  unfold serve_event. destruct (se_phase s) eqn:Eph; try done.
  destruct (write_enabled (se_client s)); [|done].
  set (taken := take n (wq_stream (sc_write_queue (se_client s)))).
  destruct (wq_apply_stream (sc_write_queue (se_client s)) (WqAdvance (length taken)) Hok) as [Hok' Hst].
  cbn [wq_apply stream_apply] in Hok', Hst.
  apply serving_tail; try done.
  intros t' <-. exists out. cbn [sc_with sc_wire sc_write_queue]. rewrite Hst.
  assert (E : (sc_wire (se_client s) ++ taken) ++
    drop (length taken) (wq_stream (sc_write_queue (se_client s))) = t).
  { rewrite <- app_assoc. rewrite <- Ht. f_equal. unfold taken. rewrite length_take.
    destruct (Nat.le_ge_cases n (length (wq_stream (sc_write_queue (se_client s))))).
    - rewrite Nat.min_l by done. apply take_drop.
    - rewrite Nat.min_r, take_ge, drop_ge by done. apply app_nil_r. }
  rewrite E. done.
Qed.

Lemma serving_waiter fs i f s : serving fs s -> serving fs (serve_event s (EvWaiter i f)).
Proof.
  intros H. pose proof H as [Hph Hr (out & Hp & t & Ht & Hh & Hout) Hok Hn Hg Hw Hpool Hgone Hrfq].
  unfold serve_event.
  assert (Hgoal : serving fs (se_with (rl_with (rl_state (se_relay s))
    (alter (waiter_turn f) i <$> rl_broadcast (se_relay s)) (rl_memo_capture (se_relay s))
    (rl_parameter_description (se_relay s)) (rl_bytes_served (se_relay s)) (se_relay s)) (se_client s) s)).
  { constructor; cbn; try done.
    - destruct Hr as [H1 H2 H3]. by constructor.
    - exists out. split; [done|]. exists t. split; [done|]. split; [by apply waiters_turn|done].
    - destruct (rl_broadcast (se_relay s)); [|done]. cbn. by rewrite length_alter. }
  destruct (se_phase s) eqn:E; [exact Hgoal..|done].
Qed.

Lemma serving_run groups ms es s :
  Forall (fun g => g <> []) groups -> Forall2 backend_delivers groups ms ->
  Forall quiet_event es -> frames_of es = ms -> serving (concat groups) s ->
  serving [] (serve_run s es).
Proof.
  intros Hne Hdel Hq. revert groups ms Hne Hdel s. induction Hq as [|e es He _ IH];
    intros groups ms Hne Hdel s Hfr Hs.
  - cbn in Hfr. subst ms. inversion Hdel; subst. done.
  - unfold serve_run. cbn [fold_left]. destruct e as [|m f| |n| | |i f|]; try done.
    + cbn in Hfr. destruct ms as [|m' ms]; [done|]. injection Hfr as <- Hfr.
      inversion Hdel as [|g m' groups' ms' Hg Hrest E1 E2]; subst.
      apply list.Forall_cons in Hne as [Hg0 Hne]. cbn [concat] in Hs.
      apply (IH groups' _ Hne Hrest); [done|]. by apply (serving_frame g).
    + apply (IH groups ms Hne Hdel); [done|]. by apply serving_write.
    + apply (IH groups ms Hne Hdel); [done|]. by apply serving_waiter.
Qed.

End serving.

Lemma waiter_join_has t w :
  waiter_has t w -> (waiter_join w).2 = WaiterComplete -> wt_wire (waiter_join w).1 = t.
Proof.
  unfold waiter_has, waiter_join. destruct (wt_failed w), (wt_lagged w); cbn; try done.
  by intros [?|[?|?]].
Qed.

Lemma broadcast_join_have t b :
  waiters_have t b ->
  let replies := match b with Some ws => broadcast_join ws | None => [] end in
  length replies = waiters_number b /\
  Forall (fun wo => wo.2 = WaiterComplete -> wt_wire wo.1 = t) replies.
Proof.
  destruct b as [ws|]; [|done]. cbn. unfold broadcast_join. intros H. split; [by rewrite length_map|].
  apply list.Forall_forall. intros wo Hin%list_elem_of_In.
  apply in_map_iff in Hin as (w & <- & Hin%list_elem_of_In).
  apply waiter_join_has. by apply (proj1 (list.Forall_forall _ _) H).
Qed.

(** The end of a serve that has relayed everything. *)
Lemma serving_finish q prepare stamp_rows rows stamp_cc rd cc rz s :
  serving q prepare stamp_rows rows stamp_cc rd cc rz [] s ->
  let answer := (serve_head q ++ owed (sq_include_describe q) (request_pd q) rows rd cc)
                ++ default [] (sq_trailing_rfq q) in
  let s' := serve_event s (EvFinish false true None) in
  se_phase s' = Replied ReplyComplete /\ sc_wire (se_client s') = answer /\
  se_pool s' = [PoolReturned] /\
  length (rl_waiter_replies (se_relay s')) = sq_coalesced q /\
  Forall (fun wo => wo.2 = WaiterComplete -> wt_wire wo.1 = answer) (rl_waiter_replies (se_relay s')).
Proof.
  intros [Hph Hr (out & Hp & t & Ht & Hh & Hout) Hok Hn Hg Hw Hpool Hgone Hrfq] answer.
  assert (Hdone : rl_state (se_relay s) = RsDone /\ out = []).
  { inversion Hp as [| |l Hl Hs Hfs Ho| | | | |l Hl Hs Hfs Ho| |Hs Hfs Ho]; [..|done].
    - by destruct (app_nil l (frame x43 stamp_cc :: from_close prepare (sq_include_describe q) rows rd cc rz)) as [H _]; destruct (H Hfs).
    - by destruct (app_nil l [frame x43 cc; frame x5a rz]) as [H _]; destruct (H Hfs). }
  destruct Hdone as [Hs ->]. rewrite bool_decide_eq_true_2 in Hph by done.
  rewrite app_nil_r in Hout. unfold serve_event. rewrite Hph. unfold serve_finish.
  rewrite Hg. cbn [guard_release gd_conn gd_poisoned gd_returned negb]. rewrite Hpool, Hrfq, Hw.
  cbn [app].
  assert (Hpush : let '(w, b) := match sq_trailing_rfq q with
      | Some rfq => push_and_broadcast rfq (sc_write_queue (se_client s)) (rl_broadcast (se_relay s))
      | None => (sc_write_queue (se_client s), rl_broadcast (se_relay s)) end in
    pushed (default [] (sq_trailing_rfq q)) (sc_write_queue (se_client s)) (rl_broadcast (se_relay s)) w b).
  { destruct (sq_trailing_rfq q) as [rfq|]; [|apply pushed_refl].
    pose proof (push_pushed rfq (sc_write_queue (se_client s)) (rl_broadcast (se_relay s))) as H.
    by destruct (push_and_broadcast _ _ _). }
  destruct (match sq_trailing_rfq q with Some _ => _ | None => _ end) as [w b].
  destruct Hpush as (H1 & H2 & H3). destruct (H1 Hok) as [Hok' Hst].
  destruct (broadcast_join_have _ _ (H2 _ Hh)) as [Hlen Hall]. rewrite Hout in Hall.
  rewrite H3, Hn in Hlen. cbn [sc_with_queue sc_with sc_gone]. rewrite Hgone. cbn [orb].
  assert (Hwire : sc_wire (se_client s) ++ wq_stream w = answer).
  { unfold answer. rewrite Hst, app_assoc, Ht, Hout. done. }
  destruct (wq_is_empty w) eqn:Ew.
  - apply wq_empty_stream in Ew. rewrite Ew, app_nil_r in Hwire.
    cbn. by destruct b.
  - cbn. by destruct b.
Qed.

(** C17: a complete response reaches the client.  When the cache database answers the pipeline
    of a serve (generation stamp, closed and prepared statements, binding, description, rows,
    tag, ReadyForQuery), in whatever batches the codec delivers it and in whatever portions
    the client's socket takes the bytes, with no deadline, write error or closed channel, the
    serve ends complete: the client has received the completions it is owed, the parameter and
    row descriptions it asked for, the rows, the command tag and its ReadyForQuery, and
    nothing of the generation stamp; the connection is back in the pool; every coalesced
    waiter is reported, and one reported complete has the same bytes.  (A waiter reported
    failed, because its own socket failed or lagged, may hold a prefix of them: [ServeGap].) *)
Theorem serve_answers_exactly (q : ServeRequest) (prepare : PrepareOutcome)
    (stamp_rows rows : list Bytes) (stamp_cc rd cc rz : Bytes) (groups : list (list Bytes))
    (ms : list (PgMessage PgBackendMessageType)) (es : list ServeEvent)
    (Hstamp : Forall data_row_frame stamp_rows) (Hrows : Forall data_row_frame rows)
    (Hgroups : concat groups = response_frames prepare (sq_include_describe q) stamp_rows rows
                                 stamp_cc rd cc rz (sq_mv q))
    (Hne : Forall (fun g => g <> []) groups) (Hms : Forall2 backend_delivers groups ms)
    (Hes : Forall quiet_event es) (Hfr : frames_of es = ms) :
  let s := serve_run (serve_start q prepare) (es ++ [EvFinish false true None]) in
  let answer := (serve_head q ++ owed (sq_include_describe q) (request_pd q) rows rd cc)
                ++ default [] (sq_trailing_rfq q) in
  se_phase s = Replied ReplyComplete /\ sc_wire (se_client s) = answer /\
  se_pool s = [PoolReturned] /\
  length (rl_waiter_replies (se_relay s)) = sq_coalesced q /\
  Forall (fun wo => wo.2 = WaiterComplete -> wt_wire wo.1 = answer) (rl_waiter_replies (se_relay s)).
Proof.
  intros s answer. unfold s, serve_run. rewrite fold_left_app. cbn [fold_left].
  apply (serving_finish q prepare stamp_rows rows stamp_cc rd cc rz).
  apply (serving_run q prepare stamp_rows rows stamp_cc rd cc rz Hstamp Hrows groups ms); try done.
  rewrite Hgroups. by apply serving_start.
Qed.

(** ** Serves that fail *)

(** Whatever has happened: no byte is on the wire unless [bytes_sent] says so, a client is
    only given up after a failed write, and the pool is settled once, at the end. *)
Record serve_safe (in_block : bool) (s : Serve) : Prop := {
  ss_running : match se_phase s with
    | Replied _ => True
    | _ => (sc_bytes_sent (se_client s) = false -> sc_wire (se_client s) = []) /\
           (sc_gone (se_client s) = true -> sc_broken (se_client s) = true) /\
           gd_conn (rl_guard (se_relay s)) = false /\ gd_returned (rl_guard (se_relay s)) = false /\
           gd_poisoned (rl_guard (se_relay s)) = false /\
           se_pool s = [] /\ sc_in_block (se_client s) = in_block
    end;
  ss_replied : forall reply, se_phase s = Replied reply ->
    length (se_pool s) = 1 /\
    (reply = ReplyForward -> sc_wire (se_client s) = [] \/ sc_broken (se_client s) = true \/
                             se_release_failed s = true) /\
    (reply = ReplyAbandon -> in_block = true);
}.

(** Ending a task that did not hand its connection back asks for a replacement. *)
Lemma serve_end_safe in_block r c error s :
  gd_conn (rl_guard r) = false -> gd_returned (rl_guard r) = false -> se_pool s = [] ->
  (reply_of error = ReplyForward -> sc_wire c = [] \/ sc_broken c = true \/ se_release_failed s = true) ->
  (reply_of error = ReplyAbandon -> in_block = true) ->
  serve_safe in_block (serve_end r c error s).
Proof.
  intros Hc Hr Hp Hf Ha. constructor; [done|]. cbn. intros reply [= <-]. split; [|done].
  rewrite Hp. unfold guard_drop. rewrite Hc, Hr. by destruct (gd_poisoned _).
Qed.

Lemma serve_fail_safe in_block r c e f s :
  gd_conn (rl_guard r) = false -> gd_returned (rl_guard r) = false -> se_pool s = [] ->
  (sc_bytes_sent c = false -> sc_wire c = []) -> sc_in_block c = in_block ->
  e <> CeServeAbandonedInBlock ->
  serve_safe in_block (serve_fail r c e f s).
Proof.
  intros Hc Hr Hp Hw Hb He. unfold serve_fail, failure_resolve.
  destruct (sc_bytes_sent c) eqn:Eb; cbn [negb].
  - destruct (sc_in_block c) eqn:Ei; apply serve_end_safe; try done.
  - apply serve_end_safe; try done; [intros _; left; by apply Hw|]. by destruct e.
Qed.

(** What [frame_apply] leaves alone, and the errors it reports. *)
Lemma frame_apply_guard m r q :
  let '(r', q', error) := frame_apply m r q in
  gd_conn (rl_guard r') = gd_conn (rl_guard r) /\
  gd_returned (rl_guard r') = gd_returned (rl_guard r) /\
  match error with
  | None => rl_guard r' = rl_guard r
  | Some e => e <> CeServeAbandonedInBlock
  end.
Proof.
  unfold frame_apply. destruct (response_advance _ _ _ _); [done|].
  assert (Hrel : forall x, frame_relay m r q = Some x -> rl_guard x.1 = rl_guard r).
  { intros [r1 q1]. unfold frame_relay, push_and_broadcast.
    destruct (rl_state r); try done; destruct (message_type m); try done;
      try (intros [= <- _]; done).
    unfold row_description_relay, push_and_broadcast.
    destruct (rl_pipeline_describe r), (rl_parameter_description r); intros [= <- _]; done. }
  destruct (frame_relay m r q) as [[r1 q1]|] eqn:E.
  - specialize (Hrel _ eq_refl). cbn in Hrel. by rewrite Hrel.
  - by destruct (message_type m).
Qed.

Lemma loop_tail_safe in_block r c s :
  se_phase s = Relaying -> se_pool s = [] ->
  (sc_bytes_sent c = false -> sc_wire c = []) -> (sc_gone c = true -> sc_broken c = true) ->
  gd_conn (rl_guard r) = false -> gd_returned (rl_guard r) = false ->
  gd_poisoned (rl_guard r) = false -> sc_in_block c = in_block ->
  serve_safe in_block (loop_tail (se_with r c s)).
Proof.
  intros Hph Hp Hw Hg H1 H2 H3 Hb. unfold loop_tail. cbn [se_with se_phase]. rewrite Hph.
  constructor; cbn; [|by case_bool_decide]. by case_bool_decide.
Qed.

Lemma serve_finish_safe in_block residual open f s :
  serve_safe in_block s -> se_phase s = Drained ->
  serve_safe in_block (serve_finish residual open f s).
Proof.
  intros [Hrun _] Hph. rewrite Hph in Hrun. destruct Hrun as (Hw & Hg & H1 & H2 & H3 & Hp & Hb).
  unfold serve_finish, guard_release.
  destruct residual; cbn [guard_poison gd_conn].
  - rewrite H1. cbn [negb].
    destruct (match sc_trailing_rfq (se_client s) with Some _ => _ | None => _ end) as [w b].
    set (r := rl_with_guard _ _ _ _).
    destruct (_ || _); [|destruct f]; apply serve_end_safe; cbn; rewrite ?app_nil_r; try done;
      try (intros _; right; left; done).
  - destruct open; cbn [negb].
    + destruct (match sc_trailing_rfq (se_client s) with Some _ => _ | None => _ end) as [w b].
      assert (Hend : forall r c error s0, gd_conn (rl_guard r) = false ->
        gd_returned (rl_guard r) = true -> gd_poisoned (rl_guard r) = false ->
        se_pool s0 = [PoolReturned] -> reply_of error <> ReplyAbandon ->
        (reply_of error = ReplyForward -> sc_broken c = true) ->
        serve_safe in_block (serve_end r c error s0)).
      { intros r c error s0 Hc Hr Hpo Hpl Ha Hf. constructor; [done|]. cbn. intros reply [= <-].
        unfold guard_drop. rewrite Hpl, Hc, Hr, Hpo. split; [done|].
        split; [intros E; right; left; by apply Hf|done]. }
      destruct (_ || _); [|destruct f]; apply Hend; cbn; rewrite ?Hp, ?H3; done.
    + apply serve_end_safe; cbn; rewrite ?Hp; try done. intros _. by right; right.
Qed.

Lemma serve_event_safe in_block s e :
  serve_safe in_block s -> serve_safe in_block (serve_event s e).
Proof.
  intros H. pose proof H as [Hrun _]. unfold serve_event.
  destruct (se_phase s) as [| |reply] eqn:Eph; [| |by destruct e].
  2:{ destruct e; try done.
      - destruct Hrun as (Hw & Hg & H1 & H2 & H3 & Hp & Hb).
        constructor; cbn; rewrite Eph; [|done]. done.
      - by apply serve_finish_safe. }
  destruct Hrun as (Hw & Hg & H1 & H2 & H3 & Hp & Hb).
  destruct e as [f|m f|f|n| | |i f|? ? ?].
  - by apply serve_fail_safe.
  - pose proof (frame_apply_guard m (se_relay s) (sc_write_queue (se_client s))) as Hfa.
    destruct (frame_apply _ _ _) as [[r' q'] [err|]]; destruct Hfa as (Hc & Hr & Herr).
    + apply serve_fail_safe; cbn; congruence || done.
    + rewrite <- Herr in H1, H2, H3. by apply loop_tail_safe.
  - by apply serve_fail_safe.
  - destruct (write_enabled _); [|done]. apply loop_tail_safe; try done. cbn.
    intros [Hs Ht]%orb_false_iff. rewrite (Hw Hs). by destruct (take n _).
  - destruct (write_enabled _); [|done]. by apply loop_tail_safe.
  - destruct (sc_gone _) eqn:Eg; [|done]. apply serve_end_safe; cbn; try done.
    intros _. right. left. by apply Hg.
  - constructor; cbn; rewrite Eph; done.
  - done.
Qed.

Lemma serve_start_safe q prepare : serve_safe (sq_in_block q) (serve_start q prepare).
Proof.
  unfold serve_start. destruct (if sq_has_parse q then _ else _) as [w1 b1].
  destruct (if sq_has_bind q then _ else _) as [w2 b2]. by constructor.
Qed.

(** C18: a failed serve is resolved safely for the client it was started for.  Whether the
    pipeline could be sent or not, and whatever the events then (errors and unexpected
    messages of the database, the end of its stream, deadlines, writes, client failures,
    waiters), when the serve has replied the pool got its connection back or a request for a
    replacement, exactly one; a reply that forwards the query to origin means that no byte
    of the response is on that client's wire, except on a socket a write has already failed
    on, or when the pool's channel was closed under the finished serve; and the connection is
    abandoned only inside a transaction block.  (Coalesced waiters are not covered:
    [ServeGap].) *)
Theorem serve_failure_safe (q : ServeRequest) (send : ServeSend) (es : list ServeEvent)
    (reply : ServeReply) :
  let s := handle_cached_query q send es in
  se_phase s = Replied reply ->
  length (se_pool s) = 1 /\
  (reply = ReplyForward -> sc_wire (se_client s) = [] \/ sc_broken (se_client s) = true \/
                           se_release_failed s = true) /\
  (reply = ReplyAbandon -> sq_in_block q = true).
Proof.
  destruct send as [prepare| |]; cbv zeta; [|intros [= <-]; split; [done|]; split; [by left|done]..].
  apply ss_replied. unfold handle_cached_query, serve_run.
  assert (H : serve_safe (sq_in_block q) (serve_start q prepare)) by apply serve_start_safe.
  revert H. generalize (serve_start q prepare). induction es as [|e es IH]; intros s0 H; [done|].
  cbn [fold_left]. apply IH. by apply serve_event_safe.
Qed.

(** ** Concrete serves *)

Module ServeWitness.

Definition prepare : PrepareOutcome :=
  {| sent_setgen_parse := true; sent_parse := true; sent_close := false |}.

Definition request (coalesced : nat) : ServeRequest :=
  {| sq_mv := false; sq_include_describe := true; sq_pipeline_describe := DescribePortal;
     sq_parameter_description := None; sq_has_parse := true; sq_has_bind := true;
     sq_trailing_rfq := Some (ready_for_query_message Idle); sq_in_block := false;
     sq_coalesced := coalesced; sq_capture := None |}.

Definition stamp_rows : list Bytes := [text_row (str "3")].
Definition rows : list Bytes := [text_row (str "alice"); text_row (str "bob")].
Definition stamp_cc : Bytes := str "SELECT 1" ++ [x00].
Definition cc : Bytes := str "SELECT 2" ++ [x00].
Definition rd : Bytes := [x00; x00].

Definition message (ty : PgBackendMessageType) (data : Bytes) (f : option nat) : ServeEvent :=
  EvFrame {| message_type := ty; pm_data := data |} f.

Definition prefix : list ServeEvent :=
  [message BmParseComplete (frame x31 []) None; message BmBindComplete (frame x32 []) None;
   message BmDataRows (concat stamp_rows) None; message BmCommandComplete (frame x43 stamp_cc) None;
   message BmParseComplete (frame x31 []) None; message BmBindComplete (frame x32 []) None;
   message BmRowDescription (frame x54 rd) None].

Definition good : list ServeEvent :=
  prefix ++ [EvWrite 3; EvWaiter 0 None; message BmDataRows (concat rows) None; EvWrite 20;
             EvWaiter 0 None; message BmCommandComplete (frame x43 cc) None;
             message BmReadyForQuery (frame x5a [x49]) None].

Definition groups : list (list Bytes) :=
  [[frame x31 []]; [frame x32 []]; stamp_rows; [frame x43 stamp_cc]; [frame x31 []];
   [frame x32 []]; [frame x54 rd]; rows; [frame x43 cc]; [frame x5a [x49]]].

Lemma text_row_frame v : (10 + blen v <= i32_max)%Z -> data_row_frame (text_row v).
Proof.
  intros Hv. exists (be_bytes 2 1 ++ be_bytes 4 (blen v) ++ v). split; [done|].
  unfold fits_i32. rewrite !blen_app, !blen_be. lia.
Qed.

Lemma rows_frames : Forall data_row_frame stamp_rows /\ Forall data_row_frame rows.
Proof.
  split; [|apply list.Forall_cons_2; [by apply text_row_frame|]];
    (apply list.Forall_cons_2; [by apply text_row_frame|apply list.Forall_nil_2]).
Qed.

Lemma groups_deliver : Forall2 backend_delivers groups (frames_of good).
Proof.
  assert (H1 : forall tag body ty, BACKEND_MESSAGE_TYPE_MAP tag = Some ty ->
    backend_delivers [frame tag body] {| message_type := ty; pm_data := frame tag body |}).
  { intros tag body ty H. split; [cbn [concat pm_data]; by rewrite app_nil_r|].
    split; [by exists tag, body, []|by left]. }
  assert (H2 : forall l v, l = text_row v :: tail l -> Forall data_row_frame l ->
    (blen (concat l) <= MAX_BATCH_SIZE)%Z ->
    backend_delivers l {| message_type := BmDataRows; pm_data := concat l |}).
  { intros l v Hl Hf Hm. split; [done|]. split; [|by right].
    exists DATA_ROW_TAG, (be_bytes 2 1 ++ be_bytes 4 (blen v) ++ v), (tail l). by split. }
  destruct rows_frames as [Hs Hr].
  repeat first [apply Forall2_cons; [by apply H1|] | apply Forall2_cons; [by eapply H2|]].
  apply Forall2_nil.
Qed.

Lemma serve_answers_exactly_witness :
  let s := serve_run (serve_start (request 1) prepare) (good ++ [EvFinish false true None]) in
  let answer := (serve_head (request 1) ++ owed true (request_pd (request 1)) rows rd cc)
                ++ ready_for_query_message Idle in
  se_phase s = Replied ReplyComplete /\ sc_wire (se_client s) = answer /\
  se_pool s = [PoolReturned] /\
  length (rl_waiter_replies (se_relay s)) = 1 /\
  Forall (fun wo => wo.2 = WaiterComplete -> wt_wire wo.1 = answer) (rl_waiter_replies (se_relay s)).
Proof.
  apply (serve_answers_exactly (request 1) prepare stamp_rows rows stamp_cc rd cc [x49] groups
           (frames_of good) good).
  - apply rows_frames.
  - apply rows_frames.
  - reflexivity.
  - repeat (apply list.Forall_cons_2; [done|]). apply list.Forall_nil_2.
  - exact groups_deliver.
  - repeat (apply list.Forall_cons_2; [exact I|]). apply list.Forall_nil_2.
  - reflexivity.
Defined.

(** The database reports an error after the generation stamp. *)
Definition error_response : Bytes := frame x45 (str "C42P01" ++ [x00; x00]).

Lemma serve_failure_safe_witness :
  let s := handle_cached_query (request 0) (SendDone prepare)
             (take 4 prefix ++ [message BmErrorResponse error_response None]) in
  length (se_pool s) = 1 /\
  (ReplyForward = ReplyForward -> sc_wire (se_client s) = [] \/ sc_broken (se_client s) = true \/
                           se_release_failed s = true) /\
  (ReplyForward = ReplyAbandon -> sq_in_block (request 0) = true).
Proof.
  apply (serve_failure_safe (request 0) (SendDone prepare)
           (take 4 prefix ++ [message BmErrorResponse error_response None]) ReplyForward).
  reflexivity.
Defined.

End ServeWitness.

(** ** What escapes *)

Module ServeGap.
Import ServeWitness.

(** A failure while a row is half written: the queue is cleared in the middle of the frame,
    so the ErrorResponse lands inside the row.  The serve is reported complete, and what the
    client decodes has the error's bytes in the row and no error. *)
Theorem error_inside_a_row :
  let s := serve_run (serve_start (request 0) prepare)
             (prefix ++ [message BmDataRows (concat rows) None; EvWrite 30; EvDeadline None]) in
  se_phase s = Replied ReplyComplete /\
  sc_wire (se_client s)
  = take 30 (serve_head (request 0) ++ frame x54 rd ++ concat rows)
    ++ SERVE_ERROR_MSG ++ ready_for_query_message Idle /\
  BmErrorResponse ∉ map message_type
    (frames_collect backend_decode 20 Query [] [sc_wire (se_client s)]).1.
Proof. cbv zeta. split; [reflexivity|]. split; [reflexivity|]. vm_compute. set_solver. Qed.

(** A coalesced waiter's client receives the completions as soon as they are broadcast; when
    the database then reports an error the waiter is answered with a forward to origin, which
    sends them again, while the primary client, held back until the data phase, has nothing. *)
Theorem waiter_prefix_replayed :
  let s := serve_run (serve_start (request 1) prepare)
             (take 4 prefix ++ [EvWaiter 0 None; EvWaiter 0 None;
              message BmErrorResponse error_response None]) in
  se_phase s = Replied ReplyForward /\ sc_wire (se_client s) = [] /\
  exists w, rl_waiter_replies (se_relay s) = [(w, WaiterFailed)] /\
    wt_wire w = PARSE_COMPLETE_MSG ++ BIND_COMPLETE_MSG.
Proof. cbv zeta. split; [reflexivity|]. split; [reflexivity|]. eexists. by split. Qed.

(** A waiter whose socket is slower than the database by more than the channel's capacity is
    answered with a forward although part of the response is on its wire. *)
Theorem lagging_waiter_replayed :
  let s := serve_run (serve_start (request 1) prepare)
             (prefix ++ [EvWaiter 0 None] ++ repeat (message BmDataRows (concat rows) None) 70
              ++ [message BmCommandComplete (frame x43 cc) None;
                  message BmReadyForQuery (frame x5a [x49]) None; EvFinish false true None]) in
  se_phase s = Replied ReplyComplete /\
  exists w, rl_waiter_replies (se_relay s) = [(w, WaiterFailed)] /\ wt_wire w = PARSE_COMPLETE_MSG.
Proof.
  cbv zeta. split; [vm_compute; reflexivity|].
  eexists. split; [vm_compute; reflexivity|reflexivity].
Qed.

(** A pool whose channel closes while a serve streams: the response is on the client's wire,
    and the serve is answered with a forward to origin all the same. *)
Theorem closed_pool_replays :
  let s := serve_run (serve_start (request 0) prepare) (good ++ [EvFinish false false None]) in
  se_phase s = Replied ReplyForward /\ sc_broken (se_client s) = false /\
  sc_wire (se_client s) <> [].
Proof. cbv zeta. split; [reflexivity|]. split; [reflexivity|]. by vm_compute. Qed.

(** When the pipeline cannot be sent the waiters that came with the request are still in it:
    the primary client is forwarded, and no waiter is answered at all. *)
Theorem failed_send_drops_waiters :
  let s := handle_cached_query (request 3) SendIoError [] in
  se_phase s = Replied ReplyForward /\ sq_coalesced (request 3) = 3 /\
  rl_broadcast (se_relay s) = None /\ rl_waiter_replies (se_relay s) = [].
Proof. by cbv. Qed.

End ServeGap.
