(* ===== verification/Extended.v ===== *)
(** * The extended protocol on a client connection

    Models proxy/connection/extended_buffer.rs, extended.rs, cache_batch.rs, describe_synth.rs
    and describe_cache.rs, the parts of relay.rs that drive them (the dispatch of client and
    origin messages, the fallbacks of a cache slot, the lazy Parse), pg/protocol/session.rs
    and query/transform/parameters/write_parameterize.rs: messages are accumulated up to a
    Sync or Flush, each Execute is sealed with a snapshot of its own statement and values, and
    the batch is then served from the cache slot by slot, answered from remembered
    descriptions, or forwarded.

    The connection is the [Connection] of Session, its statements, portals and descriptions
    plugged into the interface that file leaves open.  The analysis of a statement's text,
    pg_query's parse and the decoding of a bound value are arguments. *)
From Stdlib Require Import Strings.Byte Strings.Ascii Strings.String.
From stdpp Require Import base list strings.
From S2P Require Import Prelude Value Ast Cast WriteAggregate WriteLog Egress Statement Session Dispatch Wire CacheConn.

Open Scope Z_scope.

(** ** Statements and portals *)

Inductive StatementType (Q : Type) :=
| TyCacheable (query : Q)
| TyNonSelect
| TyUncacheableSelect
| TyParseError.
Arguments TyCacheable {Q} _.
Arguments TyNonSelect {Q}.
Arguments TyUncacheableSelect {Q}.
Arguments TyParseError {Q}.

Record PreparedStatement (Q : Type) := {
  pst_sql : Bytes;
  pst_parameter_oids : list Z;
  pst_client_parameter_oids : list Z;
  pst_sql_type : StatementType Q;
  pst_parameter_description : option Bytes;
  pst_row_description : option Bytes;
  pst_describe_no_data : bool;
  pst_origin_prepared : bool;
  pst_parse_bytes : option Bytes;
  pst_effects : StatementEffects;
}.
Arguments pst_sql {Q} _.
Arguments pst_parameter_oids {Q} _.
Arguments pst_client_parameter_oids {Q} _.
Arguments pst_sql_type {Q} _.
Arguments pst_parameter_description {Q} _.
Arguments pst_row_description {Q} _.
Arguments pst_describe_no_data {Q} _.
Arguments pst_origin_prepared {Q} _.
Arguments pst_parse_bytes {Q} _.
Arguments pst_effects {Q} _.

Record Portal := {
  po_statement_name : Bytes;
  po_parameter_values : list (option Bytes);
  po_parameter_formats : list Z;
  po_result_formats : ResultFormats;
}.

Record QueryParameters := {
  qp_values : list (option Bytes);
  qp_formats : list Z;
  qp_oids : list Z;
}.

Record QueryParameter := { qv_value : option Bytes; qv_format : Z; qv_oid : Z }.

Definition UNSPECIFIED_OID : Z := 0.

(** One code for all, or one per parameter. *)
Definition code_at (codes : list Z) (none : Z) (index : nat) : option Z :=
  match codes with
  | [] => Some none
  | [single] => Some single
  | _ => codes !! index
  end.

Definition parameters_get (p : QueryParameters) (index : nat) : option QueryParameter :=
  value ← qp_values p !! index;
  format ← code_at (qp_formats p) 0 index;
  oid ← code_at (qp_oids p) UNSPECIFIED_OID index;
  Some {| qv_value := value; qv_format := format; qv_oid := oid |}.

(** *** The remembered descriptions *)

Record DescribeKey := { dk_sql : Bytes; dk_parameter_oids : list Z }.
#[global] Instance describe_key_eq_dec : EqDecision DescribeKey.
Proof. solve_decision. Defined.

Record DescribeCacheEntry := {
  de_parameter_description : Bytes;
  de_row_description : option Bytes;
  de_parameter_oids : option (list Z);
  de_describe_response : Bytes;
}.

(** The LRU cache of the [lru] crate, with what its documentation says of it: a lookup changes
    no value, a stored value is found, another key is found only with the value it had. *)
Class LruCache (K V L : Type) := {
  lru_get : K -> L -> option V * L;
  lru_put : K -> V -> L -> L;
  lru_clear : L -> L;
}.

Class LruLaws (K V L : Type) `{LruCache K V L} : Prop := {
  lru_get_keeps k k' (l : L) : fst (lru_get k' (snd (lru_get k l))) = fst (lru_get k' l);
  lru_get_put k v (l : L) : fst (lru_get k (lru_put k v l)) = Some v;
  lru_get_put_other k k' v w (l : L) :
    k <> k' -> fst (lru_get k' (lru_put k v l)) = Some w -> fst (lru_get k' l) = Some w;
  lru_get_clear k (l : L) : fst (lru_get k (lru_clear l)) = None;
}.

(** *** The maps of a connection *)

Record Maps (Q D : Type) := {
  mp_prepared_statements : gmap Bytes (PreparedStatement Q);
  mp_portals : gmap Bytes Portal;
  mp_describe_cache : D;
}.
Arguments mp_prepared_statements {Q D} _.
Arguments mp_portals {Q D} _.
Arguments mp_describe_cache {Q D} _.

(** ** The buffer of a connection *)

(** A read that may be served from the cache, as it was when its Execute arrived. *)
Record CacheCandidate (Q : Type) := {
  cd_cacheable_query : Q;
  cd_parameters : QueryParameters;
  cd_result_formats : ResultFormats;
  cd_parameter_description : option Bytes;
  cd_statement_name : Bytes;
  cd_origin_prepared : bool;
}.
Arguments cd_cacheable_query {Q} _.
Arguments cd_parameters {Q} _.
Arguments cd_result_formats {Q} _.
Arguments cd_parameter_description {Q} _.
Arguments cd_statement_name {Q} _.
Arguments cd_origin_prepared {Q} _.

Definition is_empty (b : Bytes) : bool := match b with [] => true | _ => false end.

Definition lazy_parse_needed {Q} (c : CacheCandidate Q) : bool :=
  negb (cd_origin_prepared c) && negb (is_empty (cd_statement_name c)).

Record Segment := {
  sg_bytes : list Bytes;
  sg_has_parse : bool;
  sg_has_bind : bool;
  sg_describe : PipelineDescribe;
  sg_parse_statement_names : list Bytes;
  sg_describe_statement_names : list Bytes;
  sg_dirty : bool;
}.

Definition segment_default : Segment :=
  {| sg_bytes := []; sg_has_parse := false; sg_has_bind := false; sg_describe := DescribeNone;
     sg_parse_statement_names := []; sg_describe_statement_names := []; sg_dirty := false |}.

Definition synth_parse_target (s : Segment) : option Bytes :=
  let one_parse := sg_has_parse s && negb (sg_dirty s) in
  let no_portal := negb (sg_has_bind s) && negb (bool_decide (sg_describe s = DescribePortal)) in
  if negb (one_parse && no_portal) then None
  else match sg_parse_statement_names s with
       | name :: _ => if is_empty name then None else Some name
       | [] => None
       end.

Record ExecuteSnapshot (Q : Type) := {
  xs_portal_name : option Bytes;
  xs_candidate : option (CacheCandidate Q);
  xs_effects : StatementEffects;
}.
Arguments xs_portal_name {Q} _.
Arguments xs_candidate {Q} _.
Arguments xs_effects {Q} _.

Record ExecuteEntry (Q : Type) := {
  ee_prep : Segment;
  ee_portal_name : option Bytes;
  ee_candidate : option (CacheCandidate Q);
  ee_effects : StatementEffects;
}.
Arguments ee_prep {Q} _.
Arguments ee_portal_name {Q} _.
Arguments ee_candidate {Q} _.
Arguments ee_effects {Q} _.

Definition needs_lazy_parse {Q} (e : ExecuteEntry Q) : bool :=
  negb (sg_has_parse (ee_prep e)) &&
  match ee_candidate e with Some c => lazy_parse_needed c | None => false end.

Record ExtendedBuffer (Q : Type) := {
  eb_entries : list (ExecuteEntry Q);
  eb_pending : Segment;
}.
Arguments eb_entries {Q} _.
Arguments eb_pending {Q} _.

Definition buffer_default {Q} : ExtendedBuffer Q :=
  {| eb_entries := []; eb_pending := segment_default |}.

Definition segment_push (b : Bytes) (s : Segment) : Segment :=
  {| sg_bytes := sg_bytes s ++ [b]; sg_has_parse := sg_has_parse s; sg_has_bind := sg_has_bind s;
     sg_describe := sg_describe s; sg_parse_statement_names := sg_parse_statement_names s;
     sg_describe_statement_names := sg_describe_statement_names s; sg_dirty := sg_dirty s |}.

Definition pending_seal {Q} (execute_bytes : Bytes) (snapshot : ExecuteSnapshot Q)
    (b : ExtendedBuffer Q) : ExtendedBuffer Q :=
  {| eb_entries := eb_entries b ++
       [{| ee_prep := segment_push execute_bytes (eb_pending b);
           ee_portal_name := xs_portal_name snapshot; ee_candidate := xs_candidate snapshot;
           ee_effects := xs_effects snapshot |}];
     eb_pending := segment_default |}.

Definition segments {Q} (b : ExtendedBuffer Q) : list Segment :=
  (ee_prep <$> eb_entries b) ++ [eb_pending b].

Definition parse_statements_all {Q} (b : ExtendedBuffer Q) : list Bytes :=
  segments b ≫= sg_parse_statement_names.

Definition describe_statements_all {Q} (b : ExtendedBuffer Q) : list Bytes :=
  segments b ≫= sg_describe_statement_names.

Definition slices_concat (slices : list Bytes) : Bytes := concat slices.

Definition bytes_concat {Q} (b : ExtendedBuffer Q) : Bytes :=
  slices_concat (segments b ≫= sg_bytes).

Definition any_has_parse {Q} (b : ExtendedBuffer Q) : bool := existsb sg_has_parse (segments b).

Definition buffer_effects {Q} (b : ExtendedBuffer Q) : list StatementEffects :=
  ee_effects <$> eb_entries b.

(** *** What is sent to the cache *)

Inductive CacheMessage (Q Spec : Type) :=
| CmQuery (data : Bytes) (query : Q)
| CmQueryParameterized (data : Bytes) (query : Q) (parameters : QueryParameters)
    (formats : ResultFormats)
| CmExplain (spec : Spec) (data : Bytes).
Arguments CmQuery {Q Spec} _ _.
Arguments CmQueryParameterized {Q Spec} _ _ _ _.
Arguments CmExplain {Q Spec} _ _.

Definition into_data {Q Spec} (m : CacheMessage Q Spec) : Bytes :=
  match m with
  | CmQuery data _ | CmQueryParameterized data _ _ _ | CmExplain _ data => data
  end.

(** [PipelineContext]: the flags of Dispatch's record, the bytes a forward sends and the
    description a Describe('S') is answered with. *)
Record Pipeline := {
  pl_context : PipelineContext;
  pl_buffered_bytes : list Bytes;
  pl_parameter_description : option Bytes;
}.

(** The fingerprint a slot carries is read by the timing telemetry alone and left out. *)
Record DispatchContext (Q Spec : Type) := {
  dx_msg : CacheMessage Q Spec;
  dx_pipeline : Pipeline;
  dx_lazy_parse : option Bytes;
  dx_parse_statement : option Bytes;
  dx_describe_statement : option Bytes;
}.
Arguments dx_msg {Q Spec} _.
Arguments dx_pipeline {Q Spec} _.
Arguments dx_lazy_parse {Q Spec} _.
Arguments dx_parse_statement {Q Spec} _.
Arguments dx_describe_statement {Q Spec} _.

Definition dispatch_build {Q Spec} (entry : ExecuteEntry Q) (candidate : CacheCandidate Q)
    (is_last : bool) : DispatchContext Q Spec :=
  let prep := ee_prep entry in
  {| dx_msg := CmQueryParameterized [] (cd_cacheable_query candidate) (cd_parameters candidate)
                 (cd_result_formats candidate);
     dx_pipeline :=
       {| pl_context := {| pc_emit_rfq := is_last; pc_has_parse := sg_has_parse prep;
                           pc_has_bind := sg_has_bind prep; pc_describe := sg_describe prep |};
          pl_buffered_bytes := sg_bytes prep;
          pl_parameter_description := cd_parameter_description candidate |};
     dx_lazy_parse :=
       if negb (sg_has_parse prep) && lazy_parse_needed candidate
       then Some (cd_statement_name candidate) else None;
     dx_parse_statement :=
       if sg_has_parse prep then head (sg_parse_statement_names prep) else None;
     dx_describe_statement := head (sg_describe_statement_names prep) |}.

Record ExtendedPending (Q Spec : Type) := {
  ep_pending_parse_statements : list Bytes;
  ep_pending_describe_statements : list Bytes;
  ep_pending_lazy_parse : option Bytes;
  ep_buffer : option (ExtendedBuffer Q);
  ep_pipeline_context : option Pipeline;
  ep_batch : list (DispatchContext Q Spec);
  ep_dispatch_is_extended : bool;
  ep_deferred_close_completes : N;       (* u32 *)
  ep_group_origin_forwarded : bool;
}.
Arguments ep_pending_parse_statements {Q Spec} _.
Arguments ep_pending_describe_statements {Q Spec} _.
Arguments ep_pending_lazy_parse {Q Spec} _.
Arguments ep_buffer {Q Spec} _.
Arguments ep_pipeline_context {Q Spec} _.
Arguments ep_batch {Q Spec} _.
Arguments ep_dispatch_is_extended {Q Spec} _.
Arguments ep_deferred_close_completes {Q Spec} _.
Arguments ep_group_origin_forwarded {Q Spec} _.

Definition extended_new {Q Spec} : ExtendedPending Q Spec :=
  {| ep_pending_parse_statements := []; ep_pending_describe_statements := [];
     ep_pending_lazy_parse := None; ep_buffer := None; ep_pipeline_context := None;
     ep_batch := []; ep_dispatch_is_extended := false; ep_deferred_close_completes := 0;
     ep_group_origin_forwarded := false |}.

(** ** The connection *)

Inductive ProxyMode := ModeRead | ModeOriginDrain.
Inductive ProxyStatus := StatusNormal | StatusDegraded.
#[global] Instance proxy_status_eq_dec : EqDecision ProxyStatus.
Proof. solve_decision. Defined.

(** [ConnectionState]: the session of Session, and the fields of the message flow. *)
Record ProxyConnection (Q Spec D : Type) := {
  cx_session : Connection (Maps Q D);
  cx_origin_write_buf : list Bytes;
  cx_egress : EgressQueue (CacheMessage Q Spec);
  cx_flush_describe_pending : bool;
  cx_close_requested : bool;
  cx_proxy_mode : ProxyMode;
  cx_proxy_status : ProxyStatus;
  cx_extended : ExtendedPending Q Spec;
  cx_origin_database : Bytes;
  cx_cache_disabled : bool;
}.
Arguments cx_session {Q Spec D} _.
Arguments cx_origin_write_buf {Q Spec D} _.
Arguments cx_egress {Q Spec D} _.
Arguments cx_flush_describe_pending {Q Spec D} _.
Arguments cx_close_requested {Q Spec D} _.
Arguments cx_proxy_mode {Q Spec D} _.
Arguments cx_proxy_status {Q Spec D} _.
Arguments cx_extended {Q Spec D} _.
Arguments cx_origin_database {Q Spec D} _.
Arguments cx_cache_disabled {Q Spec D} _.

Section Connection.
Context {Q Spec D : Type} {lru : LruCache DescribeKey DescribeCacheEntry D}.
Notation Pending := (ExtendedPending Q Spec).
Notation ProxyConnection := (ProxyConnection Q Spec D).
Notation PreparedStatement := (PreparedStatement Q).

(** *** Field updates *)

Definition origin_prepared_set (x : bool) (c : PreparedStatement) : PreparedStatement :=
    {| pst_sql := pst_sql c; pst_parameter_oids := pst_parameter_oids c;
     pst_client_parameter_oids := pst_client_parameter_oids c; pst_sql_type := pst_sql_type c;
     pst_parameter_description := pst_parameter_description c; pst_row_description :=
     pst_row_description c; pst_describe_no_data := pst_describe_no_data c; pst_origin_prepared
     := x; pst_parse_bytes := pst_parse_bytes c; pst_effects := pst_effects c |}.

Definition prepared_update (f : gmap Bytes PreparedStatement -> gmap Bytes PreparedStatement) (c : Maps Q D) : Maps Q D :=
    {| mp_prepared_statements := f (mp_prepared_statements c); mp_portals := mp_portals c;
     mp_describe_cache := mp_describe_cache c |}.

Definition portals_update (f : gmap Bytes Portal -> gmap Bytes Portal) (c : Maps Q D) : Maps Q D :=
    {| mp_prepared_statements := mp_prepared_statements c; mp_portals := f (mp_portals c);
     mp_describe_cache := mp_describe_cache c |}.

Definition describe_cache_update (f : D -> D) (c : Maps Q D) : Maps Q D :=
    {| mp_prepared_statements := mp_prepared_statements c; mp_portals := mp_portals c;
     mp_describe_cache := f (mp_describe_cache c) |}.

Definition parses_set (x : list Bytes) (c : Pending) : Pending :=
    {| ep_pending_parse_statements := x; ep_pending_describe_statements :=
     ep_pending_describe_statements c; ep_pending_lazy_parse := ep_pending_lazy_parse c;
     ep_buffer := ep_buffer c; ep_pipeline_context := ep_pipeline_context c; ep_batch :=
     ep_batch c; ep_dispatch_is_extended := ep_dispatch_is_extended c;
     ep_deferred_close_completes := ep_deferred_close_completes c; ep_group_origin_forwarded :=
     ep_group_origin_forwarded c |}.

Definition describes_set (x : list Bytes) (c : Pending) : Pending :=
    {| ep_pending_parse_statements := ep_pending_parse_statements c;
     ep_pending_describe_statements := x; ep_pending_lazy_parse := ep_pending_lazy_parse c;
     ep_buffer := ep_buffer c; ep_pipeline_context := ep_pipeline_context c; ep_batch :=
     ep_batch c; ep_dispatch_is_extended := ep_dispatch_is_extended c;
     ep_deferred_close_completes := ep_deferred_close_completes c; ep_group_origin_forwarded :=
     ep_group_origin_forwarded c |}.

Definition lazy_parse_set (x : option Bytes) (c : Pending) : Pending :=
    {| ep_pending_parse_statements := ep_pending_parse_statements c;
     ep_pending_describe_statements := ep_pending_describe_statements c; ep_pending_lazy_parse
     := x; ep_buffer := ep_buffer c; ep_pipeline_context := ep_pipeline_context c; ep_batch :=
     ep_batch c; ep_dispatch_is_extended := ep_dispatch_is_extended c;
     ep_deferred_close_completes := ep_deferred_close_completes c; ep_group_origin_forwarded :=
     ep_group_origin_forwarded c |}.

Definition buffer_set (x : option (ExtendedBuffer Q)) (c : Pending) : Pending :=
    {| ep_pending_parse_statements := ep_pending_parse_statements c;
     ep_pending_describe_statements := ep_pending_describe_statements c; ep_pending_lazy_parse
     := ep_pending_lazy_parse c; ep_buffer := x; ep_pipeline_context := ep_pipeline_context c;
     ep_batch := ep_batch c; ep_dispatch_is_extended := ep_dispatch_is_extended c;
     ep_deferred_close_completes := ep_deferred_close_completes c; ep_group_origin_forwarded :=
     ep_group_origin_forwarded c |}.

Definition pipeline_set (x : option Pipeline) (c : Pending) : Pending :=
    {| ep_pending_parse_statements := ep_pending_parse_statements c;
     ep_pending_describe_statements := ep_pending_describe_statements c; ep_pending_lazy_parse
     := ep_pending_lazy_parse c; ep_buffer := ep_buffer c; ep_pipeline_context := x; ep_batch :=
     ep_batch c; ep_dispatch_is_extended := ep_dispatch_is_extended c;
     ep_deferred_close_completes := ep_deferred_close_completes c; ep_group_origin_forwarded :=
     ep_group_origin_forwarded c |}.

Definition batch_set (x : list (DispatchContext Q Spec)) (c : Pending) : Pending :=
    {| ep_pending_parse_statements := ep_pending_parse_statements c;
     ep_pending_describe_statements := ep_pending_describe_statements c; ep_pending_lazy_parse
     := ep_pending_lazy_parse c; ep_buffer := ep_buffer c; ep_pipeline_context :=
     ep_pipeline_context c; ep_batch := x; ep_dispatch_is_extended := ep_dispatch_is_extended c;
     ep_deferred_close_completes := ep_deferred_close_completes c; ep_group_origin_forwarded :=
     ep_group_origin_forwarded c |}.

Definition dispatch_extended_set (x : bool) (c : Pending) : Pending :=
    {| ep_pending_parse_statements := ep_pending_parse_statements c;
     ep_pending_describe_statements := ep_pending_describe_statements c; ep_pending_lazy_parse
     := ep_pending_lazy_parse c; ep_buffer := ep_buffer c; ep_pipeline_context :=
     ep_pipeline_context c; ep_batch := ep_batch c; ep_dispatch_is_extended := x;
     ep_deferred_close_completes := ep_deferred_close_completes c; ep_group_origin_forwarded :=
     ep_group_origin_forwarded c |}.

Definition closes_set (x : N) (c : Pending) : Pending :=
    {| ep_pending_parse_statements := ep_pending_parse_statements c;
     ep_pending_describe_statements := ep_pending_describe_statements c; ep_pending_lazy_parse
     := ep_pending_lazy_parse c; ep_buffer := ep_buffer c; ep_pipeline_context :=
     ep_pipeline_context c; ep_batch := ep_batch c; ep_dispatch_is_extended :=
     ep_dispatch_is_extended c; ep_deferred_close_completes := x; ep_group_origin_forwarded :=
     ep_group_origin_forwarded c |}.

Definition group_forwarded_set (x : bool) (c : Pending) : Pending :=
    {| ep_pending_parse_statements := ep_pending_parse_statements c;
     ep_pending_describe_statements := ep_pending_describe_statements c; ep_pending_lazy_parse
     := ep_pending_lazy_parse c; ep_buffer := ep_buffer c; ep_pipeline_context :=
     ep_pipeline_context c; ep_batch := ep_batch c; ep_dispatch_is_extended :=
     ep_dispatch_is_extended c; ep_deferred_close_completes := ep_deferred_close_completes c;
     ep_group_origin_forwarded := x |}.

Definition session_update (f : Connection (Maps Q D) -> Connection (Maps Q D)) (c : ProxyConnection) : ProxyConnection :=
    {| cx_session := f (cx_session c); cx_origin_write_buf := cx_origin_write_buf c; cx_egress
     := cx_egress c; cx_flush_describe_pending := cx_flush_describe_pending c;
     cx_close_requested := cx_close_requested c; cx_proxy_mode := cx_proxy_mode c;
     cx_proxy_status := cx_proxy_status c; cx_extended := cx_extended c; cx_origin_database :=
     cx_origin_database c; cx_cache_disabled := cx_cache_disabled c |}.

Definition origin_write_update (f : list Bytes -> list Bytes) (c : ProxyConnection) : ProxyConnection :=
    {| cx_session := cx_session c; cx_origin_write_buf := f (cx_origin_write_buf c); cx_egress
     := cx_egress c; cx_flush_describe_pending := cx_flush_describe_pending c;
     cx_close_requested := cx_close_requested c; cx_proxy_mode := cx_proxy_mode c;
     cx_proxy_status := cx_proxy_status c; cx_extended := cx_extended c; cx_origin_database :=
     cx_origin_database c; cx_cache_disabled := cx_cache_disabled c |}.

Definition egress_update (f : EgressQueue (CacheMessage Q Spec) -> EgressQueue (CacheMessage Q Spec)) (c : ProxyConnection) : ProxyConnection :=
    {| cx_session := cx_session c; cx_origin_write_buf := cx_origin_write_buf c; cx_egress := f
     (cx_egress c); cx_flush_describe_pending := cx_flush_describe_pending c; cx_close_requested
     := cx_close_requested c; cx_proxy_mode := cx_proxy_mode c; cx_proxy_status :=
     cx_proxy_status c; cx_extended := cx_extended c; cx_origin_database := cx_origin_database
     c; cx_cache_disabled := cx_cache_disabled c |}.

Definition flush_pending_set (x : bool) (c : ProxyConnection) : ProxyConnection :=
    {| cx_session := cx_session c; cx_origin_write_buf := cx_origin_write_buf c; cx_egress :=
     cx_egress c; cx_flush_describe_pending := x; cx_close_requested := cx_close_requested c;
     cx_proxy_mode := cx_proxy_mode c; cx_proxy_status := cx_proxy_status c; cx_extended :=
     cx_extended c; cx_origin_database := cx_origin_database c; cx_cache_disabled :=
     cx_cache_disabled c |}.

Definition close_requested_set (x : bool) (c : ProxyConnection) : ProxyConnection :=
    {| cx_session := cx_session c; cx_origin_write_buf := cx_origin_write_buf c; cx_egress :=
     cx_egress c; cx_flush_describe_pending := cx_flush_describe_pending c; cx_close_requested
     := x; cx_proxy_mode := cx_proxy_mode c; cx_proxy_status := cx_proxy_status c; cx_extended
     := cx_extended c; cx_origin_database := cx_origin_database c; cx_cache_disabled :=
     cx_cache_disabled c |}.

Definition mode_set (x : ProxyMode) (c : ProxyConnection) : ProxyConnection :=
    {| cx_session := cx_session c; cx_origin_write_buf := cx_origin_write_buf c; cx_egress :=
     cx_egress c; cx_flush_describe_pending := cx_flush_describe_pending c; cx_close_requested
     := cx_close_requested c; cx_proxy_mode := x; cx_proxy_status := cx_proxy_status c;
     cx_extended := cx_extended c; cx_origin_database := cx_origin_database c; cx_cache_disabled
     := cx_cache_disabled c |}.

Definition proxy_status_set (x : ProxyStatus) (c : ProxyConnection) : ProxyConnection :=
    {| cx_session := cx_session c; cx_origin_write_buf := cx_origin_write_buf c; cx_egress :=
     cx_egress c; cx_flush_describe_pending := cx_flush_describe_pending c; cx_close_requested
     := cx_close_requested c; cx_proxy_mode := cx_proxy_mode c; cx_proxy_status := x;
     cx_extended := cx_extended c; cx_origin_database := cx_origin_database c; cx_cache_disabled
     := cx_cache_disabled c |}.

Definition extended_update (f : Pending -> Pending) (c : ProxyConnection) : ProxyConnection :=
    {| cx_session := cx_session c; cx_origin_write_buf := cx_origin_write_buf c; cx_egress :=
     cx_egress c; cx_flush_describe_pending := cx_flush_describe_pending c; cx_close_requested
     := cx_close_requested c; cx_proxy_mode := cx_proxy_mode c; cx_proxy_status :=
     cx_proxy_status c; cx_extended := f (cx_extended c); cx_origin_database :=
     cx_origin_database c; cx_cache_disabled := cx_cache_disabled c |}.

Definition cache_disabled_set (x : bool) (c : ProxyConnection) : ProxyConnection :=
    {| cx_session := cx_session c; cx_origin_write_buf := cx_origin_write_buf c; cx_egress :=
     cx_egress c; cx_flush_describe_pending := cx_flush_describe_pending c; cx_close_requested
     := cx_close_requested c; cx_proxy_mode := cx_proxy_mode c; cx_proxy_status :=
     cx_proxy_status c; cx_extended := cx_extended c; cx_origin_database := cx_origin_database
     c; cx_cache_disabled := x |}.

(** *** Shorthands for the fields of the maps *)

Definition mark_prepared (s : PreparedStatement) : PreparedStatement := origin_prepared_set true s.

(** The interface Session leaves open: [search_path_mark_unknown] clears the descriptions, the
    lazy Parse's ParseComplete marks its statement. *)
#[export] Instance connection_maps : StatementMaps (Maps Q D) :=
  {| describe_clear := describe_cache_update lru_clear;
     statement_prepared name := prepared_update (alter mark_prepared name) |}.

Definition maps_with (f : Maps Q D -> Maps Q D) (c : ProxyConnection) : ProxyConnection :=
  session_update (maps_update f) c.

Definition prepared_statements (c : ProxyConnection) : gmap Bytes PreparedStatement :=
  mp_prepared_statements (cs_maps (cx_session c)).

Definition portals (c : ProxyConnection) : gmap Bytes Portal := mp_portals (cs_maps (cx_session c)).

Definition transaction_status (c : ProxyConnection) : TransactionStatus :=
  it_transaction_status (cs_isolation (cx_session c)).

(** [origin_write_buf.push_back]. *)
Definition origin_push (b : Bytes) (c : ProxyConnection) : ProxyConnection :=
  origin_write_update (fun q => q ++ [b]) c.

Definition intercept_install (i : OriginIntercept) (c : ProxyConnection) : ProxyConnection :=
  session_update (intercept_set i []) c.

Definition effects_apply (effects : StatementEffects) (c : ProxyConnection) : ProxyConnection :=
  session_update (forwarded_effects_apply effects) c.

(** [buffer_get_or_create().pending], changed by [f]. *)
Definition buffer_pending_update (f : Segment -> Segment) (c : ProxyConnection) : ProxyConnection :=
  let b := default buffer_default (ep_buffer (cx_extended c)) in
  extended_update
    (buffer_set (Some {| eb_entries := eb_entries b; eb_pending := f (eb_pending b) |})) c.

(** ** Forwarding to origin *)

Definition forward_lazy_parse_install (stmt_name : Bytes) (c : ProxyConnection) : ProxyConnection :=
  if is_empty stmt_name then c else
  match cs_origin_intercept (cx_session c), prepared_statements c !! stmt_name with
  | InterceptNone, Some stmt =>
      if pst_origin_prepared stmt then c else
      match pst_parse_bytes stmt with
      | None => c
      | Some parse_bytes =>
          intercept_install (InterceptLazyParseInline stmt_name)
            (origin_push (slices_concat [parse_bytes]) c)
      end
  | _, _ => c
  end.

Definition origin_dispatch (bytes : Bytes) (c : ProxyConnection) : ProxyConnection :=
  origin_push bytes (egress_update origin_open c).

Definition pending_statements_capture (b : ExtendedBuffer Q) (p : Pending) : Pending :=
  describes_set (describe_statements_all b) (parses_set (parse_statements_all b) p).

(** The portal an Execute names and the statement it binds. *)
Definition portal_statement (portal_name : Bytes) (c : ProxyConnection)
    : option (Portal * PreparedStatement) :=
  portal ← portals c !! portal_name;
  stmt ← prepared_statements c !! po_statement_name portal;
  Some (portal, stmt).

Definition forward_lazy_parse (b : ExtendedBuffer Q) (c : ProxyConnection) : option Bytes :=
  if any_has_parse b then None else
  first ← head (eb_entries b);
  portal_name ← ee_portal_name first;
  '(portal, stmt) ← portal_statement portal_name c;
  if pst_origin_prepared stmt then None else Some (po_statement_name portal).

(** [buffer_flush] and the effects of its Executes; no slot is opened. *)
Definition extended_buffer_flush_to_origin (c : ProxyConnection) : ProxyConnection :=
  match ep_buffer (cx_extended c) with
  | None => c
  | Some b =>
      let c := foldl (fun c e => effects_apply e c) c (buffer_effects b) in
      origin_push (bytes_concat b)
        (extended_update (fun p => pending_statements_capture b (buffer_set None p)) c)
  end.

(** The metrics it records apart. *)
Definition extended_buffer_forward_to_origin (b : ExtendedBuffer Q) (trailing : Bytes)
    (c : ProxyConnection) : ProxyConnection :=
  let c := match forward_lazy_parse b c with
           | Some stmt_name => forward_lazy_parse_install stmt_name c
           | None => c
           end in
  let c := foldl (fun c e => effects_apply e c) c (buffer_effects b) in
  origin_dispatch (bytes_concat b ++ trailing)
    (extended_update (pending_statements_capture b) c).

(** ** Statements, portals and their values *)

Inductive ForwardReason := UnsupportedStatement | UncacheableSelect | Invalid.

Inductive QueryAction :=
| QaForward (reason : ForwardReason) (effects : StatementEffects)
| QaCacheCheck (query : Q)
| QaExplain (spec : Spec).

Definition effects_default : StatementEffects := effects_read_only IeNone None.

(** [usize] of the [$n] of a placeholder. *)
Definition parameter_index_parse (placeholder : string) : option nat :=
  match placeholder with
  | String "$"%char index_str =>
      n ← (match index_str with
           | String "+"%char r => digits_parse r
           | _ => digits_parse index_str
           end);
      if (n <? 2 ^ 64) && negb (n =? 0) then Some (Z.to_nat (n - 1)) else None
  | _ => None
  end.

Section Substitution.
(** [parameter_to_literal]: the value of a bound parameter, text or binary. *)
Context (parameter_to_literal : QueryParameter -> option LiteralValue).

Definition literal_value_parameters_replace (parameters : QueryParameters) (literal : LiteralValue)
    : option LiteralValue :=
  match literal with
  | LParameter placeholder =>
      index ← parameter_index_parse placeholder;
      param ← parameters_get parameters index;
      parameter_to_literal param
  | _ => Some literal
  end.

(** A value that may be unknown stays unknown. *)
Definition cell_replace (parameters : QueryParameters) (cell : option LiteralValue)
    : option (option LiteralValue) :=
  match cell with
  | None => Some None
  | Some literal => Some <$> literal_value_parameters_replace parameters literal
  end.

Definition insert_statement_parameterize (stmt : InsertStatement) (parameters : QueryParameters)
    : option InsertStatement :=
  rows ← mapM (mapM (cell_replace parameters)) (ins_rows stmt);
  Some {| ins_relation := ins_relation stmt; ins_columns := ins_columns stmt; ins_rows := rows |}.

Definition comparison_replace (parameters : QueryParameters) (w : WriteComparison)
    : option WriteComparison :=
  let '(column, op, value) := w in
  value ← literal_value_parameters_replace parameters value; Some (column, op, value).

Definition delete_statement_parameterize (stmt : DeleteStatement) (parameters : QueryParameters)
    : option DeleteStatement :=
  comparisons ← mapM (comparison_replace parameters) (del_comparisons stmt);
  Some {| del_relation := del_relation stmt; del_comparisons := comparisons |}.

Definition assignment_replace (parameters : QueryParameters) (a : SetAssignment)
    : option SetAssignment :=
  let '(column, value) := a in
  value ← cell_replace parameters value; Some (column, value).

Definition update_statement_parameterize (stmt : UpdateStatement) (parameters : QueryParameters)
    : option UpdateStatement :=
  where_comparisons ← mapM (comparison_replace parameters) (upd_where_comparisons stmt);
  set ← mapM (assignment_replace parameters) (upd_set stmt);
  Some {| upd_relation := upd_relation stmt; upd_where_comparisons := where_comparisons;
          upd_set := set |}.

Definition portal_parameters (portal : Portal) (stmt : PreparedStatement) : QueryParameters :=
  {| qp_values := po_parameter_values portal; qp_formats := po_parameter_formats portal;
     qp_oids := pst_parameter_oids stmt |}.

Definition write_class_bind (class : WriteClass) (portal : Portal) (stmt : PreparedStatement)
    : WriteClass :=
  let parameters := portal_parameters portal stmt in
  match class with
  | WcInsertRows insert =>
      match insert_statement_parameterize insert parameters with
      | Some substituted => WcInsertRows substituted
      | None => WcTable (ins_relation insert)
      end
  | WcDeleteRows delete =>
      match delete_statement_parameterize delete parameters with
      | Some substituted => WcDeleteRows substituted
      | None => WcTable (del_relation delete)
      end
  | WcUpdateRows update =>
      match update_statement_parameterize update parameters with
      | Some substituted => WcUpdateRows substituted
      | None => WcTable (upd_relation update)
      end
  | WcTable _ | WcConnection | WcConnectionUnstampable => class
  end.

Definition execute_effects (portal_name : option Bytes) (c : ProxyConnection) : StatementEffects :=
  match portal_name ≫= fun p => portal_statement p c with
  | None => effects_unknown
  | Some (portal, stmt) =>
      {| se_write := (fun class => write_class_bind class portal stmt) <$> se_write (pst_effects stmt);
         se_isolation := se_isolation (pst_effects stmt);
         se_transaction := se_transaction (pst_effects stmt) |}
  end.

End Substitution.

Definition execute_cache_candidate (portal_name : option Bytes) (describe : PipelineDescribe)
    (c : ProxyConnection) : option (CacheCandidate Q) :=
  name ← portal_name;
  '(portal, stmt) ← portal_statement name c;
  match po_result_formats portal, pst_sql_type stmt with
  | PerColumn _, _ => None
  | _, TyCacheable query =>
      if bool_decide (describe = DescribeStatement)
         && negb (bool_decide (is_Some (pst_parameter_description stmt))) then None
      else Some
        {| cd_cacheable_query := query;
           cd_parameters := portal_parameters portal stmt;
           cd_result_formats := po_result_formats portal;
           cd_parameter_description :=
             if bool_decide (describe = DescribeStatement) then pst_parameter_description stmt else None;
           cd_statement_name := po_statement_name portal;
           cd_origin_prepared := pst_origin_prepared stmt |}
  | _, _ => None
  end.

Definition statement_close (name : Bytes) (c : ProxyConnection) : ProxyConnection :=
  maps_with (prepared_update (delete name)) c.

Definition portal_close (name : Bytes) (c : ProxyConnection) : ProxyConnection :=
  maps_with (portals_update (delete name)) c.

Definition portal_store (parsed : ParsedBindMessage) (c : ProxyConnection) : ProxyConnection :=
  maps_with (portals_update
    (insert (pb_portal_name parsed)
       {| po_statement_name := pb_statement_name parsed;
          po_parameter_values := pb_parameter_values parsed;
          po_parameter_formats := pb_parameter_formats parsed;
          po_result_formats := pb_result_formats parsed |})) c.

(** [insert] for the unnamed statement, [entry(..).or_insert] for a named one. *)
Definition statement_store (parsed : ParsedParseMessage) (sql_type : StatementType Q)
    (effects : StatementEffects) (parse_bytes : Bytes) (c : ProxyConnection) : ProxyConnection :=
  let stmt :=
    {| pst_sql := pp_sql parsed; pst_parameter_oids := pp_parameter_oids parsed;
       pst_client_parameter_oids := pp_parameter_oids parsed; pst_sql_type := sql_type;
       pst_parameter_description := None; pst_row_description := None;
       pst_describe_no_data := false; pst_origin_prepared := false;
       pst_parse_bytes := Some parse_bytes; pst_effects := effects |} in
  let name := pp_statement_name parsed in
  maps_with (prepared_update (fun m =>
    if is_empty name then <[name := stmt]> m
    else match m !! name with Some _ => m | None => <[name := stmt]> m end)) c.

(** ** Messages from the client *)

Section Handlers.
Context (to_lowercase : string -> string) (lsn_parse : string -> option N).
Context {Select Dml : Type}.
(** [analyze], its memo included ([None] when the text does not parse); pg_query's parse; the
    value of a bound parameter. *)
Context (analyze : Bytes -> option QueryAction)
  (parse_raw : Bytes -> option (list (Statement.Statement Select Dml)))
  (parameter_to_literal : QueryParameter -> option LiteralValue).
Implicit Types (c : ProxyConnection).

Definition parse_inspect (sql : Bytes) c : ProxyConnection :=
  match parse_raw sql with
  | Some stmts => session_update (search_path_parse_inspect stmts) c
  | None => c
  end.

Definition statement_analyze (sql : Bytes) c : StatementType Q * StatementEffects * ProxyConnection :=
  match analyze sql with
  | Some (QaCacheCheck query) => (TyCacheable query, effects_default, c)
  | Some (QaExplain _) => (TyUncacheableSelect, effects_default, c)
  | Some (QaForward UncacheableSelect effects) => (TyUncacheableSelect, effects, c)
  | Some (QaForward (UnsupportedStatement | Invalid) effects) =>
      (TyNonSelect, effects, parse_inspect sql c)
  | None => (TyParseError, effects_unknown, c)
  end.

Definition segment_parse (name data : Bytes) (seg : Segment) : Segment :=
  {| sg_bytes := sg_bytes seg ++ [data]; sg_has_parse := true; sg_has_bind := sg_has_bind seg;
     sg_describe := sg_describe seg;
     sg_parse_statement_names := sg_parse_statement_names seg ++ [name];
     sg_describe_statement_names := sg_describe_statement_names seg;
     sg_dirty := sg_dirty seg || sg_has_parse seg |}.

Definition handle_parse_message (data : Bytes) c : ProxyConnection :=
  match parse_parse_message data with
  | Err _ => origin_push data c
  | Ok parsed =>
      let '(sql_type, effects, c) := statement_analyze (pp_sql parsed) c in
      buffer_pending_update (segment_parse (pp_statement_name parsed) data)
        (statement_store parsed sql_type effects data c)
  end.

Definition segment_bind (data : Bytes) (seg : Segment) : Segment :=
  {| sg_bytes := sg_bytes seg ++ [data]; sg_has_parse := sg_has_parse seg; sg_has_bind := true;
     sg_describe := sg_describe seg; sg_parse_statement_names := sg_parse_statement_names seg;
     sg_describe_statement_names := sg_describe_statement_names seg;
     sg_dirty := sg_dirty seg || sg_has_bind seg |}.

Definition handle_bind_message (data : Bytes) c : ProxyConnection :=
  match parse_bind_message data with
  | Err _ => origin_push data c
  | Ok parsed => buffer_pending_update (segment_bind data) (portal_store parsed c)
  end.

Definition segment_describe (parsed : ParsedDescribeMessage) (data : Bytes) (seg : Segment) : Segment :=
  {| sg_bytes := sg_bytes seg ++ [data]; sg_has_parse := sg_has_parse seg;
     sg_has_bind := sg_has_bind seg;
     sg_describe := match pd_describe_type parsed with
                    | x53 => DescribeStatement
                    | x50 => DescribePortal
                    | _ => sg_describe seg
                    end;
     sg_parse_statement_names := sg_parse_statement_names seg;
     sg_describe_statement_names :=
       sg_describe_statement_names seg ++
       match pd_describe_type parsed with x53 => [pd_name parsed] | _ => [] end;
     sg_dirty := sg_dirty seg || negb (bool_decide (sg_describe seg = DescribeNone)) |}.

Definition handle_describe_message (data : Bytes) c : ProxyConnection :=
  match parse_describe_message data with
  | Err _ => origin_push data c
  | Ok parsed => buffer_pending_update (segment_describe parsed data) c
  end.

Definition handle_execute_message (data : Bytes) c : ProxyConnection :=
  let portal_name := match parse_execute_message data with
                     | Ok p => Some (pe_portal_name p)
                     | Err _ => None
                     end in
  let describe := match ep_buffer (cx_extended c) with
                  | None => DescribeNone
                  | Some b => sg_describe (eb_pending b)
                  end in
  let snapshot :=
    {| xs_candidate := execute_cache_candidate portal_name describe c;
       xs_effects := execute_effects parameter_to_literal portal_name c;
       xs_portal_name := portal_name |} in
  let b := default buffer_default (ep_buffer (cx_extended c)) in
  extended_update (buffer_set (Some (pending_seal data snapshot b))) c.

(** The CloseCompletes still owed go out as one slot; the number of them is returned. *)
Definition deferred_close_completes_flush c : N * ProxyConnection :=
  let n := ep_deferred_close_completes (cx_extended c) in
  (n, if (n =? 0)%N then c else
      egress_update (synth_push (concat (replicate (N.to_nat n) CLOSE_COMPLETE_MSG)))
        (extended_update (closes_set 0) c)).

Definition close_locally_handled (parsed : ParsedCloseMessage) c : bool :=
  let group_local := bool_decide (ep_buffer (cx_extended c) = None)
                     && negb (ep_group_origin_forwarded (cx_extended c)) in
  if negb (Byte.eqb (pc_close_type parsed) x53) || negb group_local then false else
  match prepared_statements c !! pc_name parsed with
  | Some s => negb (pst_origin_prepared s)
  | None => false
  end.

Definition handle_close_message (data : Bytes) c : ProxyConnection :=
  let forward parsed :=
    let '(_, c) := deferred_close_completes_flush c in
    let c := extended_buffer_flush_to_origin c in
    let c := match parsed with
             | Some p => if Byte.eqb (pc_close_type p) x53 then statement_close (pc_name p) c
                         else if Byte.eqb (pc_close_type p) x50 then portal_close (pc_name p) c else c
             | None => c
             end in
    origin_push data (extended_update (group_forwarded_set true) c) in
  match parse_close_message data with
  | Ok parsed =>
      if close_locally_handled parsed c then
        extended_update (fun p => closes_set (ep_deferred_close_completes p + 1) p)
          (statement_close (pc_name parsed) c)
      else forward (Some parsed)
  | Err _ => forward None
  end.

(** ** A batch served from the cache *)

Definition SYNC_MESSAGE : Bytes := [x53; x00; x00; x00; x04].

Definition cache_dispatch_possible c : bool :=
  negb (bool_decide (transaction_status c = Failed)) && negb (cx_cache_disabled c).

Definition cache_batch_eligible (b : ExtendedBuffer Q) c : bool :=
  negb (match eb_entries b with [] => true | _ => false end)
  && match sg_bytes (eb_pending b) with [] => true | _ => false end
  && cache_dispatch_possible c
  && bool_decide (cx_proxy_status c = StatusNormal)
  && forallb (fun e => negb (sg_dirty (ee_prep e)) && bool_decide (is_Some (ee_candidate e)))
       (eb_entries b)
  && (length (List.filter needs_lazy_parse (eb_entries b)) <=? 1)%nat.

Definition cache_slot_begin (ctx : DispatchContext Q Spec) c : ProxyConnection :=
  let c := extended_update (fun p =>
    lazy_parse_set (dx_lazy_parse ctx)
      (describes_set (option_list (dx_describe_statement ctx))
        (parses_set (option_list (dx_parse_statement ctx))
          (pipeline_set (Some (dx_pipeline ctx)) (dispatch_extended_set true p))))) c in
  egress_update (cache_push (dx_msg ctx)) c.

(** One context per entry with a candidate; the last entry's carries the ReadyForQuery. *)
Fixpoint batch_contexts (entries : list (ExecuteEntry Q)) : list (DispatchContext Q Spec) :=
  match entries with
  | [] => []
  | entry :: entries =>
      match ee_candidate entry with
      | Some candidate =>
          dispatch_build entry candidate (match entries with [] => true | _ => false end)
          :: batch_contexts entries
      | None => batch_contexts entries
      end
  end.

Definition cache_batch_dispatch (entries : list (ExecuteEntry Q)) c : ProxyConnection :=
  match batch_contexts entries with
  | [] => c
  | first :: contexts =>
      mode_set ModeOriginDrain (cache_slot_begin first (extended_update (batch_set contexts) c))
  end.

Definition cache_batch_advance c : ProxyConnection :=
  match ep_batch (cx_extended c) with
  | next :: batch =>
      mode_set ModeOriginDrain (cache_slot_begin next (extended_update (batch_set batch) c))
  | [] => mode_set ModeRead c
  end.

Definition batch_entry_forward c (next : DispatchContext Q Spec) : ProxyConnection :=
  let c := match dx_lazy_parse next with
           | Some stmt_name => forward_lazy_parse_install stmt_name c
           | None => c
           end in
  let c := extended_update (fun p =>
    describes_set (ep_pending_describe_statements p ++ option_list (dx_describe_statement next))
      (parses_set (ep_pending_parse_statements p ++ option_list (dx_parse_statement next)) p)) c in
  origin_push (slices_concat (pl_buffered_bytes (dx_pipeline next))) c.

Definition batch_remaining_forward c : ProxyConnection :=
  let batch := ep_batch (cx_extended c) in
  let c := foldl batch_entry_forward (extended_update (batch_set []) c) batch in
  if ep_dispatch_is_extended (cx_extended c) then origin_push SYNC_MESSAGE c else c.

Definition forward_current_and_rest (current_bytes : Bytes) c : ProxyConnection :=
  let c := egress_update cache_to_origin c in
  let c := match ep_pending_lazy_parse (cx_extended c) with
           | Some stmt_name =>
               forward_lazy_parse_install stmt_name (extended_update (lazy_parse_set None) c)
           | None => c
           end in
  mode_set ModeRead (batch_remaining_forward (origin_push current_bytes c)).

Definition pipeline_bytes (pipeline : option Pipeline) (msg : CacheMessage Q Spec) : Bytes :=
  match pipeline with
  | Some p => slices_concat (pl_buffered_bytes p)
  | None => into_data msg
  end.

Definition cache_slot_forward_to_origin (msg : CacheMessage Q Spec) c : ProxyConnection :=
  forward_current_and_rest (pipeline_bytes (ep_pipeline_context (cx_extended c)) msg)
    (extended_update (pipeline_set None) c).

Inductive CacheOutcome :=
| OutComplete
| OutForward (buf : Bytes)
| OutError (buf : Bytes)
| OutAbandon.

Definition handle_cache_outcome (outcome : CacheOutcome) c : ProxyConnection :=
  match outcome with
  | OutComplete =>
      let c := egress_update cache_done c in
      cache_batch_advance
        (extended_update (fun p => lazy_parse_set None (describes_set [] (parses_set [] p))) c)
  | OutError buf | OutForward buf => forward_current_and_rest buf c
  | OutAbandon => close_requested_set true (egress_update cache_done c)
  end.

(** ** Answers from remembered descriptions *)

Definition PARSE_COMPLETE_RFQ_IDLE : Bytes := PARSE_COMPLETE_MSG ++ ready_for_query_message Idle.

Definition connection_in_transaction c : bool := in_transaction (cs_isolation (cx_session c)).

Definition synth_eligible (b : ExtendedBuffer Q) c : option Bytes :=
  if negb (match eb_entries b with [] => true | _ => false end) || connection_in_transaction c
  then None else
  stmt_name ← synth_parse_target (eb_pending b);
  stmt ← prepared_statements c !! stmt_name;
  match pst_sql_type stmt with TyCacheable _ => Some stmt_name | _ => None end.

Definition describe_key (stmt : PreparedStatement) : DescribeKey :=
  {| dk_sql := pst_sql stmt; dk_parameter_oids := pst_client_parameter_oids stmt |}.

Definition describe_fill (entry : DescribeCacheEntry) (s : PreparedStatement) : PreparedStatement :=
  {| pst_sql := pst_sql s;
     pst_parameter_oids := default (pst_parameter_oids s) (de_parameter_oids entry);
     pst_client_parameter_oids := pst_client_parameter_oids s; pst_sql_type := pst_sql_type s;
     pst_parameter_description := Some (de_parameter_description entry);
     pst_row_description := de_row_description entry;
     pst_describe_no_data := bool_decide (de_row_description entry = None);
     pst_origin_prepared := pst_origin_prepared s; pst_parse_bytes := pst_parse_bytes s;
     pst_effects := pst_effects s |}.

(** Returns whether the batch was answered. *)
Definition try_synthesize_parse_describe_response (b : ExtendedBuffer Q) c : bool * ProxyConnection :=
  match synth_eligible b c with
  | None => (false, c)
  | Some stmt_name =>
      match prepared_statements c !! stmt_name with
      | None => (false, c)
      | Some stmt =>
          let '(found, cache) := lru_get (describe_key stmt) (mp_describe_cache (cs_maps (cx_session c))) in
          let c := maps_with (describe_cache_update (fun _ => cache)) c in
          match found with
          | None => (false, c)
          | Some entry =>
              let c := maps_with (prepared_update (alter (describe_fill entry) stmt_name)) c in
              let out := if bool_decide (sg_describe (eb_pending b) = DescribeStatement)
                         then de_describe_response entry else PARSE_COMPLETE_RFQ_IDLE in
              (true, egress_update (synth_push out) c)
          end
      end
  end.

(** [describe_cache_populate]: the entry of a described statement, and its storing. *)
Definition describe_entry (parameter_description : Bytes) (row_description : option Bytes)
    : DescribeCacheEntry :=
  {| de_parameter_oids := match parse_parameter_description parameter_description with
                          | Ok p => Some (ppd_parameter_oids p)
                          | Err _ => None
                          end;
     de_parameter_description := parameter_description;
     de_row_description := row_description;
     de_describe_response :=
       PARSE_COMPLETE_MSG ++ parameter_description ++ default NO_DATA_MSG row_description
       ++ ready_for_query_message Idle |}.

Definition describe_cache_populate (stmt_name : Bytes) c : ProxyConnection :=
  match prepared_statements c !! stmt_name with
  | None => c
  | Some stmt =>
      match pst_sql_type stmt, pst_parameter_description stmt with
      | TyCacheable _, Some parameter_description =>
          maps_with (describe_cache_update
            (lru_put (describe_key stmt)
               (describe_entry parameter_description (pst_row_description stmt)))) c
      | _, _ => c
      end
  end.

(** ** Sync and Flush *)

Definition handle_sync_message (data : Bytes) c : ProxyConnection :=
  let '(local_closes, c) := deferred_close_completes_flush c in
  let group_origin_forwarded := ep_group_origin_forwarded (cx_extended c) in
  let c := extended_update (group_forwarded_set false) c in
  match ep_buffer (cx_extended c) with
  | None =>
      if (0 <? local_closes)%N && negb group_origin_forwarded
      then egress_update (synth_push (ready_for_query_message (transaction_status c))) c
      else origin_push data (egress_update origin_open c)
  | Some b =>
      let c := extended_update (buffer_set None) c in
      if cache_batch_eligible b c then cache_batch_dispatch (eb_entries b) c
      else
        let '(answered, c) := try_synthesize_parse_describe_response b c in
        if answered then c else extended_buffer_forward_to_origin b data c
  end.

Definition handle_flush_message (data : Bytes) c : ProxyConnection :=
  let '(_, c) := deferred_close_completes_flush c in
  let c := extended_update (group_forwarded_set true) c in
  match ep_buffer (cx_extended c) with
  | None => origin_push data c
  | Some b =>
      flush_pending_set true
        (extended_buffer_forward_to_origin b data (extended_update (buffer_set None) c))
  end.

(** ** Simple queries and the rest *)

Definition query_sql_extract (data : Bytes) : option Bytes :=
  word ← slice_get data 1 5;
  text ← slice_get data 5 (get_u32 word);
  from_utf8 text.

(** [search_path_inspect_query] on the frame: the message to send and the connection. *)
Definition search_path_inspect_frame (data : Bytes) c : Bytes * ProxyConnection :=
  if cs_search_path_auto_reported (cx_session c) then (data, c) else
  match query_sql_extract data with
  | None => (data, c)
  | Some sql =>
      match parse_raw sql with
      | None => (data, c)
      | Some stmts =>
          let mutations := search_path_mutations_raw stmts in
          let c := if sm_any mutations then session_update search_path_mark_unknown c else c in
          if bool_decide (is_Some (sm_single_piggybackable mutations))
             && origin_intercept_idle (cx_session c)
          then match simple_query_message_build (sql ++ str "; SHOW search_path") with
               | Ok rewritten =>
                   (rewritten, intercept_install (InterceptTrailingShowSearchPath PreShow) c)
               | Err _ => (data, c)
               end
          else (data, c)
      end
  end.

Definition handle_query (data : Bytes) : option QueryAction :=
  sql ← query_sql_extract data; analyze sql.

Definition simple_query_route (analyzed : option QueryAction) (data : Bytes) c : ProxyConnection :=
  match analyzed with
  | Some (QaForward _ effects) =>
      mode_set ModeRead (origin_dispatch data (effects_apply effects c))
  | Some (QaCacheCheck ast) =>
      mode_set ModeOriginDrain (egress_update (cache_push (CmQuery data ast))
        (extended_update (dispatch_extended_set false) c))
  | Some (QaExplain spec) =>
      mode_set ModeOriginDrain (egress_update (cache_push (CmExplain spec data))
        (extended_update (dispatch_extended_set false) c))
  | None => mode_set ModeRead (origin_dispatch data (effects_apply effects_unknown c))
  end.

Definition forwarded_statement_effects_apply (data : Bytes) c : ProxyConnection :=
  match handle_query data with
  | Some (QaForward _ effects) => effects_apply effects c
  | Some (QaCacheCheck _ | QaExplain _) => c
  | None => effects_apply effects_unknown c
  end.

Definition simple_query_handle (data : Bytes) c : ProxyConnection :=
  let '(data, c) := search_path_inspect_frame data c in
  if cache_dispatch_possible c then simple_query_route (handle_query data) data c
  else origin_dispatch data (forwarded_statement_effects_apply data c).

Definition session_user_set (user : option string) (s : Connection (Maps Q D)) : Connection (Maps Q D) :=
  {| cs_isolation := cs_isolation s; cs_session_user := user;
     cs_origin_intercept := cs_origin_intercept s; cs_search_path_state := cs_search_path_state s;
     cs_search_path_just_piggyback_resolved := cs_search_path_just_piggyback_resolved s;
     cs_search_path_auto_reported := cs_search_path_auto_reported s; cs_injected := cs_injected s;
     cs_maps := cs_maps s; cs_write_log := cs_write_log s |}.

Definition startup_handle (data : Bytes) c : ProxyConnection :=
  let user := String.string_of_list_byte <$> startup_message_parameter data (str "user") in
  let c := session_update (session_user_set user) c in
  let c := match startup_message_parameter data (str "database") with
           | Some client_db =>
               if bool_decide (client_db = cx_origin_database c) then c
               else session_update (write_log_update disable) (cache_disabled_set true c)
           | None => c
           end in
  origin_push data c.

Definition handle_client_message (msg : PgMessage PgFrontendMessageType) c : ProxyConnection :=
  let c := if cx_flush_describe_pending c
           then egress_update origin_seal (flush_pending_set false c) else c in
  let data := pm_data msg in
  match message_type msg with
  | FmQuery => simple_query_handle data c
  | FmParse => handle_parse_message data c
  | FmBind => handle_bind_message data c
  | FmExecute => handle_execute_message data c
  | FmDescribe => handle_describe_message data c
  | FmClose => handle_close_message data c
  | FmSync => handle_sync_message data c
  | FmFlush => handle_flush_message data c
  | FmStartup => startup_handle data c
  | FmSslRequest => egress_update (synth_push (str "N")) c
  | FmPasswordMessageFamily => origin_push data c
  | FmFunctionCall => origin_push data (effects_apply effects_unknown c)
  | _ => origin_push data c
  end.

(** ** Messages from origin *)

Definition parse_complete (c : ProxyConnection) : ProxyConnection :=
  match ep_pending_parse_statements (cx_extended c) with
  | [] => c
  | stmt_name :: rest =>
      maps_with (prepared_update (alter mark_prepared stmt_name))
        (extended_update (parses_set rest) c)
  end.

Definition parameters_described (oids : list Z) (data : Bytes) (s : PreparedStatement)
    : PreparedStatement :=
  {| pst_sql := pst_sql s; pst_parameter_oids := oids;
     pst_client_parameter_oids := pst_client_parameter_oids s; pst_sql_type := pst_sql_type s;
     pst_parameter_description := Some data; pst_row_description := pst_row_description s;
     pst_describe_no_data := pst_describe_no_data s; pst_origin_prepared := pst_origin_prepared s;
     pst_parse_bytes := pst_parse_bytes s; pst_effects := pst_effects s |}.

Definition parameter_description_received (data : Bytes) c : ProxyConnection :=
  match ep_pending_describe_statements (cx_extended c), parse_parameter_description data with
  | stmt_name :: _, Ok parsed =>
      maps_with (prepared_update (alter (parameters_described (ppd_parameter_oids parsed) data) stmt_name)) c
  | _, _ => c
  end.

Definition row_described (row : option Bytes) (s : PreparedStatement) : PreparedStatement :=
  {| pst_sql := pst_sql s; pst_parameter_oids := pst_parameter_oids s;
     pst_client_parameter_oids := pst_client_parameter_oids s; pst_sql_type := pst_sql_type s;
     pst_parameter_description := pst_parameter_description s; pst_row_description := row;
     pst_describe_no_data := bool_decide (row = None); pst_origin_prepared := pst_origin_prepared s;
     pst_parse_bytes := pst_parse_bytes s; pst_effects := pst_effects s |}.

(** [row_description_received] ([Some]) and [no_data_received] ([None]), with the populating of
    the cache their callers do for the statement they return. *)
Definition description_received (row : option Bytes) c : ProxyConnection :=
  match ep_pending_describe_statements (cx_extended c) with
  | [] => c
  | stmt_name :: rest =>
      let c := extended_update (describes_set rest) c in
      match prepared_statements c !! stmt_name with
      | None => c
      | Some _ =>
          describe_cache_populate stmt_name
            (maps_with (prepared_update (alter (row_described row) stmt_name)) c)
      end
  end.

Definition SASL_PLUS_MECHANISM : Bytes := str "SCRAM-SHA-256-PLUS" ++ [x00].

(** [windows(n).position(..)]. *)
Fixpoint window_position (needle data : Bytes) : option nat :=
  if bool_decide (take (length needle) data = needle) then Some 0%nat else
  match data with
  | [] => None
  | _ :: rest => S <$> window_position needle rest
  end.

Definition sasl_plus_mechanism_strip (data : Bytes) : Bytes :=
  match window_position SASL_PLUS_MECHANISM data with
  | None => data
  | Some pos =>
      let n := blen data - (blen SASL_PLUS_MECHANISM + 1) in
      if (n <? 0) || (i32_max <? n) then data else
      let data := take pos data ++ drop (pos + length SASL_PLUS_MECHANISM) data in
      take 1 data ++ be_bytes 4 n ++ drop 5 data
  end.

Definition AUTHENTICATION_SASL : Z := 10.

(** The message as Session's handlers read it. *)
Definition session_message (m : PgMessage PgBackendMessageType) : OriginMessage :=
  let data := pm_data m in
  match message_type m with
  | BmDataRows => MsgDataRows (String.string_of_list_byte <$> data_row_first_column data)
  | BmReadyForQuery => MsgReadyForQuery data
  | BmCommandComplete => MsgCommandComplete
  | BmErrorResponse => MsgErrorResponse
  | BmRowDescription => MsgRowDescription
  | BmParseComplete => MsgParseComplete
  | BmParameterStatus =>
      MsgParameterStatus ((fun '(n, v) => (String.string_of_list_byte n, String.string_of_list_byte v))
                          <$> parameter_status_parse data)
  | _ => MsgOther
  end.

Definition probe_text (p : Probe) : Bytes :=
  match p with
  | ProbeSearchPath => str "SHOW search_path;"
  | ProbeDefaultIsolation => str "SHOW default_transaction_isolation;"
  end.

Definition probe_bytes (sql : Bytes) : Bytes :=
  match probe_query_new sql with Some p => probe_query_message p | None => [] end.

Definition WAL_INSERT_LSN_PROBE : Bytes := str "SELECT pg_current_wal_insert_lsn()".

(** The probes Session pushed, on [origin_write_buf]. *)
Definition injected_flush c : ProxyConnection :=
  let probes := (fun p => probe_bytes (probe_text p)) <$> cs_injected (cx_session c) in
  origin_write_update (fun q => q ++ probes)
    (session_update (fun s =>
       {| cs_isolation := cs_isolation s; cs_session_user := cs_session_user s;
          cs_origin_intercept := cs_origin_intercept s;
          cs_search_path_state := cs_search_path_state s;
          cs_search_path_just_piggyback_resolved := cs_search_path_just_piggyback_resolved s;
          cs_search_path_auto_reported := cs_search_path_auto_reported s; cs_injected := [];
          cs_maps := cs_maps s; cs_write_log := cs_write_log s |}) c).

Definition write_log_probe_ready c : bool :=
  let idle := match cx_proxy_mode c with ModeRead => true | ModeOriginDrain => false end
              && negb (connection_in_transaction c) in
  let origin_quiet := origin_intercept_idle (cx_session c)
                      && match cx_origin_write_buf c with [] => true | _ => false end
                      && origin_all_sealed (cx_egress c) in
  idle && origin_quiet.

(** [settled] is the watermark read through the dispatch handle. *)
Definition write_log_maintain (settled : option N) c : ProxyConnection :=
  if log_is_empty (cs_write_log (cx_session c)) then c else
  let c := match settled with
           | Some watermark => session_update (write_log_update (fun l => purge l watermark)) c
           | None => c
           end in
  match write_log_probe_ready c, stamp_seq (cs_write_log (cx_session c)) with
  | true, Some seq =>
      origin_push (probe_bytes WAL_INSERT_LSN_PROBE) (intercept_install (InterceptWalLsnProbe seq) c)
  | _, _ => c
  end.

Definition origin_message_relay (settled : option N) (m : PgMessage PgBackendMessageType) c
    : ProxyConnection :=
  let c := egress_update (origin_append (pm_data m)) c in
  match message_type m with
  | BmReadyForQuery => write_log_maintain settled (egress_update origin_seal c)
  | _ => c
  end.

(** Unnamed portals end with the transaction. *)
Definition unnamed_portal_drop c : ProxyConnection :=
  if connection_in_transaction c then c
  else maps_with (portals_update (delete [])) c.

(** [handle_origin_message]: the intercepts, the parameters and the ReadyForQuery are Session's;
    the statement's arms and the relay are here. *)
Definition connection_origin_message (settled : option N) (m : PgMessage PgBackendMessageType) c
    : ProxyConnection :=
  let '(session, relayed) :=
    handle_origin_message to_lowercase lsn_parse (session_message m) (cx_session c) in
  let c := injected_flush (session_update (fun _ => session) c) in
  if negb relayed then
    match message_type m with BmReadyForQuery => write_log_maintain settled c | _ => c end
  else
    let '(m, c) :=
      match message_type m with
      | BmParameterDescription => (m, parameter_description_received (pm_data m) c)
      | BmRowDescription => (m, description_received (Some (pm_data m)) c)
      | BmNoData => (m, description_received None c)
      | BmParseComplete => (m, parse_complete c)
      | BmAuthentication =>
          (match authentication_type (pm_data m) with
           | Some v => if v =? AUTHENTICATION_SASL
                       then {| message_type := message_type m;
                               pm_data := sasl_plus_mechanism_strip (pm_data m) |} else m
           | None => m
           end, c)
      | BmReadyForQuery => (m, unnamed_portal_drop c)
      | _ => (m, c)
      end in
    origin_message_relay settled m c.

(** ** The cache slot at the head *)

Inductive Drained :=
| DrainWait (c : ProxyConnection)                     (* the slot is not at the head yet *)
| DrainForwarded (c : ProxyConnection)
| DrainLeased (msg : CacheMessage Q Spec) (pipeline : option Pipeline)
    (search_path : list string) (status : TransactionStatus) (c : ProxyConnection).

(** The tables a read references, with its resolved form in the cache. *)
Context (read_of : CacheMessage Q Spec -> option (list TableNode * option ResolvedSelectNode)).

(** The read-after-write gate of the loop: the log is purged, and a read of the message may be
    held back; an explain reads nothing. *)
Definition drain_gate (settled : option N) (msg : CacheMessage Q Spec) (l : WriteLog) : WriteLog * bool :=
  match read_of msg with
  | Some (tables, resolved) => raw_gate l settled tables resolved
  | None => (if log_is_empty l then l
             else match settled with Some watermark => purge l watermark | None => l end, true)
  end.

(** The [OriginDrain] arm of the loop, up to the lease of the client's write half. *)
Definition origin_drain (settled : option N) c : Drained :=
  let '(taken, q) := cache_dispatch (cx_egress c) in
  let c := egress_update (fun _ => q) c in
  match taken with
  | None => DrainWait c
  | Some msg =>
      let path := match cs_search_path_state (cx_session c), msg with
                  | PathResolved p, _ => Some p
                  | PathUnknown, CmExplain _ _ => Some []
                  | PathUnknown, _ => None
                  end in
      match path, transaction_serve_check (cs_isolation (cx_session c)) with
      | None, _ => DrainForwarded (cache_slot_forward_to_origin msg c)
      | Some _, inl _ => DrainForwarded (cache_slot_forward_to_origin msg c)
      | Some path, inr _ =>
          let '(log, serve) := drain_gate settled msg (cs_write_log (cx_session c)) in
          let c := session_update (write_log_update (fun _ => log)) c in
          if serve then
            DrainLeased msg (ep_pipeline_context (cx_extended c)) path (transaction_status c)
              (extended_update (pipeline_set None) c)
          else DrainForwarded (cache_slot_forward_to_origin msg c)
      end
  end.

(** No cache generation is up: the message is forwarded and the connection degraded. *)
Definition dispatch_unavailable (msg : CacheMessage Q Spec) (pipeline : option Pipeline) c
    : ProxyConnection :=
  forward_current_and_rest (pipeline_bytes pipeline msg) (proxy_status_set StatusDegraded c).

End Handlers.

Definition proxy_connection_new (cache : D) (database : Bytes) (log : bool) : ProxyConnection :=
  {| cx_session :=
       connection_new {| mp_prepared_statements := ∅; mp_portals := ∅; mp_describe_cache := cache |}
         None log;
     cx_origin_write_buf := []; cx_egress := []; cx_flush_describe_pending := false;
     cx_close_requested := false; cx_proxy_mode := ModeRead; cx_proxy_status := StatusNormal;
     cx_extended := extended_new; cx_origin_database := database; cx_cache_disabled := false |}.

End Connection.
