(* ===== verification/Transparency.v ===== *)
(** * The proxy is transparent to an extended-protocol driver

    Compares a client connected through pgcache (the model of Extended) with one connected
    to PostgreSQL directly.  PostgreSQL is its documented bookkeeping of prepared statements,
    portals and failed pipelines ([origin_request]), with what it answers about a statement as
    arguments; it reads the bytes the proxy wrote.  The client follows what drivers do: it
    prepares a name once, runs one Execute per Sync, waits for each ReadyForQuery.

    The theorem: as long as PostgreSQL describes a statement the same way throughout and the
    cache serves what origin would answer, the client receives the bytes PostgreSQL would
    have sent, whether they are served, forwarded or answered from remembered descriptions.
    [TransparencyGap] holds the histories of the protocol where it does not. *)
From Stdlib Require Import Strings.Byte Strings.String.
From stdpp Require Import base list strings.
From S2P Require Import Prelude Value Ast Cast WriteAggregate WriteLog Egress Statement Session Dispatch Wire CacheConn Serve Extended.

Open Scope Z_scope.

Notation BackendMessage := (PgMessage PgBackendMessageType).
Notation FrontendMessage := (PgMessage PgFrontendMessageType).

Definition backend (ty : PgBackendMessageType) (data : Bytes) : BackendMessage :=
  {| message_type := ty; pm_data := data |}.

(** ** PostgreSQL *)

(** What an Execute answers: its messages, whether it succeeded, and the status after it. *)
Record ExecResult := {
  xr_messages : list BackendMessage;
  xr_ok : bool;
  xr_status : TransactionStatus;
}.

Record Origin := {
  og_statements : Statements;
  og_portal : option (Statement * ParsedBindMessage);   (* the unnamed portal *)
  og_status : TransactionStatus;
  og_skip : bool;                                        (* after an error, up to the Sync *)
}.

Definition origin_new : Origin :=
  {| og_statements := ∅; og_portal := None; og_status := Idle; og_skip := false |}.

(** What PostgreSQL says of a statement's text and types: whether it accepts it and how it
    describes it; how it describes a bound portal; which binds it refuses; the text of its
    errors. *)
Class Postgres := {
  pg_accepts : Statement -> bool;
  pg_describe : Statement -> Bytes * option Bytes;
  pg_portal_row : Statement -> ParsedBindMessage -> option Bytes;
  pg_bind_ok : Statement -> ParsedBindMessage -> bool;
  pg_error : FrontendRequest -> Bytes;
}.

Section Origin.
Context {pg : Postgres}.

Definition row_message (row : option Bytes) : BackendMessage :=
  match row with
  | Some data => backend BmRowDescription data
  | None => backend BmNoData NO_DATA_MSG
  end.

Definition origin_with (statements : Statements) (portal : option (Statement * ParsedBindMessage))
    (o : Origin) : Origin :=
  {| og_statements := statements; og_portal := portal; og_status := og_status o;
     og_skip := og_skip o |}.

(** An error fails an open block and skips the rest of the pipeline. *)
Definition origin_fail (r : FrontendRequest) (o : Origin) : list BackendMessage * Origin :=
  ([backend BmErrorResponse (pg_error r)],
   {| og_statements := og_statements o; og_portal := og_portal o;
      og_status := match og_status o with InTransaction => Failed | st => st end;
      og_skip := true |}).

Definition is_statement (target : byte) : bool := Byte.eqb target x53.

(** One request outside a skipped pipeline.  [db] is what an Execute answers at this time.
    Only the unnamed portal is kept.  Whether a statement is accepted and how it is described
    ([pg_accepts], [pg_describe]) is fixed, and an Execute leaves the prepared statements
    alone: DDL, DEALLOCATE and a changed search_path are outside this environment. *)
Definition origin_request (db : Statement -> ParsedBindMessage -> ExecResult) (r : FrontendRequest)
    (o : Origin) : list BackendMessage * Origin :=
  match r with
  | RqParse p =>
      let st := {| st_sql := pp_sql p; st_oids := pp_parameter_oids p |} in
      let name := pp_statement_name p in
      if negb (is_empty name) && bool_decide (is_Some (og_statements o !! name)) then origin_fail r o
      else if pg_accepts st then
        ([backend BmParseComplete PARSE_COMPLETE_MSG],
         origin_with (<[name := st]> (og_statements o)) (og_portal o) o)
      else origin_fail r (origin_with (delete name (og_statements o)) (og_portal o) o)
  | RqBind b =>
      match og_statements o !! pb_statement_name b with
      | Some st =>
          if pg_bind_ok st b && is_empty (pb_portal_name b) then
            ([backend BmBindComplete BIND_COMPLETE_MSG],
             origin_with (og_statements o) (Some (st, b)) o)
          else origin_fail r o
      | None => origin_fail r o
      end
  | RqDescribe d =>
      if is_statement (pd_describe_type d) then
        match og_statements o !! pd_name d with
        | Some st =>
            ([backend BmParameterDescription (fst (pg_describe st)); row_message (snd (pg_describe st))], o)
        | None => origin_fail r o
        end
      else
        match og_portal o with
        | Some (st, b) => ([row_message (pg_portal_row st b)], o)
        | None => origin_fail r o
        end
  | RqExecute _ =>
      match og_portal o with
      | Some (st, b) =>
          let x := db st b in
          (xr_messages x,
           {| og_statements := og_statements o; og_portal := og_portal o;
              og_status := xr_status x; og_skip := negb (xr_ok x) |})
      | None => origin_fail r o
      end
  | RqClose k =>
      ([backend BmCloseComplete CLOSE_COMPLETE_MSG],
       if is_statement (pc_close_type k)
       then origin_with (delete (pc_name k) (og_statements o)) (og_portal o) o
       else origin_with (og_statements o) None o)
  | RqSync => ([], o)
  end.

(** A request of a pipeline: skipped after an error; a Sync ends the pipeline and, outside a
    block, the portal. *)
Definition origin_step (db : Statement -> ParsedBindMessage -> ExecResult) (r : FrontendRequest)
    (o : Origin) : list BackendMessage * Origin :=
  match r with
  | RqSync =>
      ([backend BmReadyForQuery (ready_for_query_message (og_status o))],
       {| og_statements := og_statements o;
          og_portal := match og_status o with Idle => None | _ => og_portal o end;
          og_status := og_status o; og_skip := false |})
  | _ => if og_skip o then ([], o) else origin_request db r o
  end.

Fixpoint origin_run (db : Statement -> ParsedBindMessage -> ExecResult) (rs : list FrontendRequest)
    (o : Origin) : list BackendMessage * Origin :=
  match rs with
  | [] => ([], o)
  | r :: rs =>
      let '(ms, o) := origin_step db r o in
      let '(ms', o) := origin_run db rs o in
      (ms ++ ms', o)
  end.

(** The bytes a client that is connected directly receives. *)
Definition wire (ms : list BackendMessage) : Bytes := concat (pm_data <$> ms).

End Origin.

(** ** The client *)

(** What a driver sends up to a Sync: the preparation of a statement, one execution over the
    unnamed portal, or a Close. *)
Inductive Group :=
| GPrepare (p : ParsedParseMessage) (describe : bool)
| GRun (parse : option ParsedParseMessage) (b : ParsedBindMessage) (describe : bool)
| GClose (k : ParsedCloseMessage).

Definition group_requests (g : Group) : list FrontendRequest :=
  match g with
  | GPrepare p describe =>
      RqParse p ::
      request_if describe (RqDescribe {| pd_describe_type := x53; pd_name := pp_statement_name p |})
  | GRun parse b describe =>
      (RqParse <$> option_list parse) ++ RqBind b ::
      request_if describe (RqDescribe {| pd_describe_type := x50; pd_name := [] |})
      ++ [RqExecute {| pe_portal_name := []; pe_max_rows := 0 |}]
  | GClose k => [RqClose k]
  end ++ [RqSync].

(** A message whose frame reads as the request. *)
Definition sends (m : FrontendMessage) (r : FrontendRequest) : Prop :=
  frame_requests (pm_data m) r /\ frontend_delivers [pm_data m] m.

(** ** The client behind the proxy *)

(** What the cache does with a read leased to it. *)
Inductive CacheSays :=
| SaysServe (rows : list Bytes) (rd cc : Bytes)
| SaysMiss
| SaysDown.

Section Proxy.
Context {pg : Postgres} {Q Spec D : Type} {lru : LruCache DescribeKey DescribeCacheEntry D}.
Context (to_lowercase : string -> string) (lsn_parse : string -> option N).
Context {Select Dml : Type}.
Context (analyze : Bytes -> option (@QueryAction Q Spec))
  (parse_raw : Bytes -> option (list (Statement.Statement Select Dml)))
  (parameter_to_literal : QueryParameter -> option LiteralValue)
  (read_of : CacheMessage Q Spec -> option (list TableNode * option ResolvedSelectNode)).
Notation Conn := (ProxyConnection Q Spec D).
Implicit Types (c : Conn) (o : Origin).

Definition client_run (ms : list FrontendMessage) c : Conn :=
  foldl (fun c m => handle_client_message analyze parse_raw parameter_to_literal m c) c ms.

Definition origin_receive (settled : option N) (ms : list BackendMessage) c : Conn :=
  foldl (fun c m => connection_origin_message to_lowercase lsn_parse settled m c) c ms.

Definition slot_bytes (s : EgressSlot (CacheMessage Q Spec)) : Bytes :=
  match s with
  | SlotOrigin buf _ => concat buf
  | SlotSynth buf => buf
  | SlotCache _ _ => []
  end.

(** A slot the client can be sent whole. *)
Definition slot_done (s : EgressSlot (CacheMessage Q Spec)) : bool :=
  match s with SlotOrigin _ sealed => sealed | SlotSynth _ => true | SlotCache _ _ => false end.

(** The client takes what the egress queue holds; [None] when it would wait. *)
Definition client_receive c : option (Bytes * Conn) :=
  if forallb slot_done (cx_egress c)
  then Some (concat (slot_bytes <$> cx_egress c), egress_update (fun _ => []) c) else None.

(** The bytes for origin are sent, origin answers them, the client receives. *)
Definition exchange (db : Statement -> ParsedBindMessage -> ExecResult) (settled : option N) c o
    : option (Bytes * Conn * Origin) :=
  rs ← requests_of (concat (cx_origin_write_buf c));
  let '(ms, o) := origin_run db rs o in
  '(out, c) ← client_receive (origin_receive settled ms (origin_write_update (fun _ => []) c));
  Some (out, c, o).

(** The request a served pipeline makes of the serve. *)
Definition serve_request (pl : Pipeline) (status : TransactionStatus) : ServeRequest :=
  {| sq_mv := false;
     sq_include_describe := negb (bool_decide (pc_describe (pl_context pl) = DescribeNone));
     sq_pipeline_describe := pc_describe (pl_context pl);
     sq_parameter_description := pl_parameter_description pl;
     sq_has_parse := pc_has_parse (pl_context pl); sq_has_bind := pc_has_bind (pl_context pl);
     sq_trailing_rfq := if pc_emit_rfq (pl_context pl)
                        then Some (ready_for_query_message status) else None;
     sq_in_block := negb (bool_decide (status = Idle)); sq_coalesced := 0; sq_capture := None |}.

(** What a complete serve has written to the client. *)
Definition served_bytes (pl : Pipeline) (status : TransactionStatus) (rows : list Bytes) (rd cc : Bytes)
    : Bytes :=
  let q := serve_request pl status in
  (serve_head q ++ owed (sq_include_describe q) (request_pd q) rows rd cc)
  ++ default [] (sq_trailing_rfq q).

(** A group, from its first message to the ReadyForQuery: the bytes the client receives. *)
Definition group_run (db : Statement -> ParsedBindMessage -> ExecResult) (settled : option N)
    (says : CacheSays) (ms : list FrontendMessage) c o : option (Bytes * Conn * Origin) :=
  let c := client_run ms c in
  match cx_proxy_mode c with
  | ModeRead =>
      match cx_origin_write_buf c with
      | [] => '(out, c) ← client_receive c; Some (out, c, o)
      | _ => exchange db settled c o
      end
  | ModeOriginDrain =>
      match origin_drain read_of settled c with
      | DrainWait _ => None
      | DrainForwarded c => exchange db settled c o
      | DrainLeased msg pl _ status c =>
          match says, pl with
          | SaysServe rows rd cc, Some pl =>
              Some (served_bytes pl status rows rd cc, handle_cache_outcome OutComplete c, o)
          | SaysServe _ _ _, None => None
          | SaysMiss, _ =>
              exchange db settled (handle_cache_outcome (OutForward (pipeline_bytes pl msg)) c) o
          | SaysDown, _ => exchange db settled (dispatch_unavailable msg pl c) o
          end
      end
  end.

Lemma group_run_exchange db settled says ms c o :
  cx_proxy_mode (client_run ms c) = ModeRead -> cx_origin_write_buf (client_run ms c) <> [] ->
  group_run db settled says ms c o = exchange db settled (client_run ms c) o.
Proof. intros Hm Hw. unfold group_run. rewrite Hm. by destruct (cx_origin_write_buf _). Qed.

Lemma group_run_local db settled says ms c o :
  cx_proxy_mode (client_run ms c) = ModeRead -> cx_origin_write_buf (client_run ms c) = [] ->
  group_run db settled says ms c o = '(out, c') ← client_receive (client_run ms c); Some (out, c', o).
Proof. intros Hm Hw. unfold group_run. by rewrite Hm, Hw. Qed.

Lemma group_run_drain db settled says ms c o :
  cx_proxy_mode (client_run ms c) = ModeOriginDrain ->
  group_run db settled says ms c o =
  match origin_drain read_of settled (client_run ms c) with
  | DrainWait _ => None
  | DrainForwarded c => exchange db settled c o
  | DrainLeased msg pl _ status c =>
      match says, pl with
      | SaysServe rows rd cc, Some pl =>
          Some (served_bytes pl status rows rd cc, handle_cache_outcome OutComplete c, o)
      | SaysServe _ _ _, None => None
      | SaysMiss, _ =>
          exchange db settled (handle_cache_outcome (OutForward (pipeline_bytes pl msg)) c) o
      | SaysDown, _ => exchange db settled (dispatch_unavailable msg pl c) o
      end
  end.
Proof. intros Hm. unfold group_run. by rewrite Hm. Qed.

End Proxy.

(** ** The system *)

Section System.
Context {pg : Postgres} {Q Spec D : Type} {lru : LruCache DescribeKey DescribeCacheEntry D}
  {lru_ok : LruLaws DescribeKey DescribeCacheEntry D}.
Context (to_lowercase : string -> string) (lsn_parse : string -> option N).
Context {Select Dml : Type}.
Context (analyze : Bytes -> option (@QueryAction Q Spec))
  (parse_raw : Bytes -> option (list (Statement.Statement Select Dml)))
  (parameter_to_literal : QueryParameter -> option LiteralValue)
  (read_of : CacheMessage Q Spec -> option (list TableNode * option ResolvedSelectNode)).
Notation Conn := (ProxyConnection Q Spec D).
Notation client_run := (client_run analyze parse_raw parameter_to_literal).
Notation origin_receive := (origin_receive to_lowercase lsn_parse).
Notation group_run := (group_run to_lowercase lsn_parse analyze parse_raw parameter_to_literal read_of).
Notation origin_message := (connection_origin_message to_lowercase lsn_parse).
Implicit Types (c : Conn) (o d : Origin).

(** The connection, origin behind it, the origin of the direct connection, the names the
    client has prepared and not closed, and what the client has received on either side. *)
Record TwoClients := {
  tc_proxy : Conn;
  tc_origin : Origin;
  tc_direct : Origin;
  tc_names : gset Bytes;
  tc_received : list Bytes;
  tc_expected : list Bytes;
}.

Definition two_clients c o d names received expected : TwoClients :=
  {| tc_proxy := c; tc_origin := o; tc_direct := d; tc_names := names; tc_received := received;
     tc_expected := expected |}.

Definition parsed_statement (p : ParsedParseMessage) : Statement :=
  {| st_sql := pp_sql p; st_oids := pp_parameter_oids p |}.

(** The statement a group runs, as the direct connection has it. *)
Definition group_bind (g : Group) d : option (Statement * ParsedBindMessage) :=
  match g with
  | GRun (Some p) b _ => Some (parsed_statement p, b)
  | GRun None b _ => (fun st => (st, b)) <$> og_statements d !! pb_statement_name b
  | _ => None
  end.

(** A name is prepared once; the unnamed statement is prepared by the group that runs it; what
    is run was prepared; the session is healthy and no reply of a probe is outstanding. *)
Definition fresh_name (names : gset Bytes) (p : ParsedParseMessage) : Prop :=
  pp_statement_name p = [] \/ pp_statement_name p ∉ names.

Definition may_send (g : Group) c d (names : gset Bytes) : Prop :=
  cs_origin_intercept (cx_session c) = InterceptNone /\ og_status d <> Failed /\
  match g with
  | GPrepare p _ => fresh_name names p
  | GRun parse b _ =>
      pb_portal_name b = [] /\
      match parse with
      | Some p => fresh_name names p /\ pb_statement_name b = pp_statement_name p
      | None => pb_statement_name b <> [] /\ is_Some (og_statements d !! pb_statement_name b)
      end
  | GClose k => pc_close_type k = x53 \/ pc_close_type k = x50
  end.

Definition names_after (g : Group) (names : gset Bytes) : gset Bytes :=
  match g with
  | GPrepare p _ | GRun (Some p) _ _ => {[ pp_statement_name p ]} ∪ names
  | GRun None _ _ => names
  | GClose k => if is_statement (pc_close_type k) then names ∖ {[ pc_name k ]} else names
  end.

(** The types of a statement's parameters: the client's, or origin's once described. *)
Definition known_oids (st : Statement) (oids : list Z) : Prop :=
  oids = st_oids st \/
  exists p, parse_parameter_description (fst (pg_describe st)) = Ok p /\ oids = ppd_parameter_oids p.

(** The message asks the cache for this statement with these values. *)
Definition asks (msg : CacheMessage Q Spec) (st : Statement) (b : ParsedBindMessage) : Prop :=
  exists q oids, analyze (st_sql st) = Some (QaCacheCheck q) /\ known_oids st oids /\
    msg = CmQueryParameterized [] q
            {| qp_values := pb_parameter_values b; qp_formats := pb_parameter_formats b;
               qp_oids := oids |} (pb_result_formats b).

(** The cache serves what origin answers now. *)
Definition serves_current (db : Statement -> ParsedBindMessage -> ExecResult) (status : TransactionStatus)
    (st : Statement) (b : ParsedBindMessage) (rows : list Bytes) (rd cc : Bytes) : Prop :=
  pg_accepts st = true /\ pg_bind_ok st b = true /\ pg_portal_row st b = Some (frame x54 rd) /\
  wire (xr_messages (db st b)) = concat rows ++ frame x43 cc /\ xr_ok (db st b) = true /\
  xr_status (db st b) = status.

Definition cache_current (db : Statement -> ParsedBindMessage -> ExecResult) (settled : option N)
    (says : CacheSays) (g : Group) (ms : list FrontendMessage) c d : Prop :=
  match says with
  | SaysServe rows rd cc =>
      forall msg pl path status c' st b,
      origin_drain read_of settled (client_run ms c) = DrainLeased msg pl path status c' ->
      group_bind g d = Some (st, b) -> asks msg st b -> serves_current db status st b rows rd cc
  | _ => True
  end.

(** The messages an Execute may send. *)
Definition exec_message (m : BackendMessage) : bool :=
  match message_type m with
  | BmParseComplete | BmParameterDescription | BmRowDescription | BmNoData | BmReadyForQuery
  | BmAuthentication => false
  | _ => true
  end.

Definition db_answers (db : Statement -> ParsedBindMessage -> ExecResult) : Prop :=
  forall st b, forallb exec_message (xr_messages (db st b)) = true.

Definition probe_intercept (i : OriginIntercept) : bool :=
  match i with
  | InterceptSearchPath | InterceptWalLsnProbe _ | InterceptDefaultTransactionIsolation => true
  | _ => false
  end.

Inductive tc_step : TwoClients -> TwoClients -> Prop :=
| tc_group c o d names received expected g ms db settled says out c' o' replies d' :
    may_send g c d names -> Forall2 sends ms (group_requests g) -> db_answers db ->
    cache_current db settled says g ms c d ->
    group_run db settled says ms c o = Some (out, c', o') ->
    origin_run db (group_requests g) d = (replies, d') ->
    tc_step (two_clients c o d names received expected)
      (two_clients c' o' d' (names_after g names) (received ++ [out]) (expected ++ [wire replies]))
| tc_probe c o d names received expected settled m :
    probe_intercept (cs_origin_intercept (cx_session c)) = true ->
    tc_step (two_clients c o d names received expected)
      (two_clients (origin_message settled m (origin_write_update (fun _ => []) c)) o d names
         received expected).

(** A connection past its startup. *)
Definition tc_init (cache : D) (database : Bytes) (log disabled : bool) : TwoClients :=
  two_clients (cache_disabled_set disabled (proxy_connection_new cache database log))
    origin_new origin_new ∅ [] [].

(** ** What the handlers leave alone *)

Definition describe_cache c : D := mp_describe_cache (cs_maps (cx_session c)).

(** No description is in the second cache that is not in the first. *)
Definition cache_sub (l l' : D) : Prop :=
  forall k e, fst (lru_get k l') = Some e -> fst (lru_get k l) = Some e.

#[local] Instance cache_sub_preorder : PreOrder cache_sub.
Proof. split; [by intros l k e|]. intros l1 l2 l3 H1 H2 k e H. by apply H1, H2. Qed.

(** The connection apart from its statements, portals, buffer and awaited replies. *)
Record kept c c' : Prop := {
  kp_status : transaction_status c' = transaction_status c;
  kp_intercept : cs_origin_intercept (cx_session c') = cs_origin_intercept (cx_session c);
  kp_injected : cs_injected (cx_session c') = cs_injected (cx_session c);
  kp_cache : cache_sub (describe_cache c) (describe_cache c');
  kp_write : cx_origin_write_buf c' = cx_origin_write_buf c;
  kp_egress : cx_egress c' = cx_egress c;
  kp_flush : cx_flush_describe_pending c' = cx_flush_describe_pending c;
  kp_mode : cx_proxy_mode c' = cx_proxy_mode c;
  kp_closes : ep_deferred_close_completes (cx_extended c') = ep_deferred_close_completes (cx_extended c);
  kp_group : ep_group_origin_forwarded (cx_extended c') = ep_group_origin_forwarded (cx_extended c);
}.

#[local] Instance kept_preorder : PreOrder kept.
Proof.
  split; [by constructor|]. intros a b c [] []. constructor; try congruence. by etrans.
Qed.

(** The three parts the handlers of a batch change. *)
Notation parts c := (prepared_statements c, portals c, ep_buffer (cx_extended c)).

Ltac by_kept := constructor; first [reflexivity | by intros ? ? | idtac].

Lemma status_effects e (t : IsolationTracker) :
  it_transaction_status (isolation_effects_apply e t) = it_transaction_status t.
Proof.
  unfold isolation_effects_apply, begins_count, transaction_isolation_apply, session_isolation_set.
  repeat (case_match || simpl); done.
Qed.

Lemma effects_apply_kept e c :
  kept c (effects_apply e c) /\ parts (effects_apply e c) = parts c /\
  cx_extended (effects_apply e c) = cx_extended c.
Proof.
  unfold effects_apply, forwarded_effects_apply.
  split; [|by destruct (se_write e)].
  by_kept; unfold transaction_status; simpl; destruct (se_write e); simpl; try done; apply status_effects.
Qed.

Lemma effects_foldl_kept es c :
  let c' := foldl (fun c e => effects_apply e c) c es in
  kept c c' /\ parts c' = parts c /\ cx_extended c' = cx_extended c.
Proof.
  revert c. induction es as [|e es IH]; intros c; simpl; [done|].
  destruct (IH (effects_apply e c)) as (K & P & X), (effects_apply_kept e c) as (K' & P' & X').
  split_and!; [by etrans|congruence|congruence].
Qed.

Lemma mark_unknown_kept c :
  let c' := session_update search_path_mark_unknown c in
  kept c c' /\ parts c' = parts c /\ cx_extended c' = cx_extended c.
Proof.
  split; [|done]. by_kept. intros k e. unfold describe_cache. cbn. by rewrite lru_get_clear.
Qed.

Lemma parse_inspect_kept sql c :
  let c' := parse_inspect parse_raw sql c in
  kept c c' /\ parts c' = parts c /\ cx_extended c' = cx_extended c.
Proof.
  unfold parse_inspect. destruct (parse_raw sql) as [stmts|]; [|done].
  destruct (cs_search_path_auto_reported (cx_session c)) eqn:Ea;
    [|destruct (sm_any (search_path_mutations_raw stmts)) eqn:Em].
  - replace (session_update _ c) with c; [done|]. unfold session_update, search_path_parse_inspect.
    rewrite Ea. by destruct c.
  - replace (session_update _ c) with (session_update search_path_mark_unknown c);
      [apply mark_unknown_kept|]. unfold session_update, search_path_parse_inspect. by rewrite Ea, Em.
  - replace (session_update _ c) with c; [done|]. unfold session_update, search_path_parse_inspect.
    rewrite Ea, Em. by destruct c.
Qed.

Definition analysis (sql : Bytes) : StatementType Q * StatementEffects :=
  match analyze sql with
  | Some (QaCacheCheck query) => (TyCacheable query, effects_default)
  | Some (QaExplain _) => (TyUncacheableSelect, effects_default)
  | Some (QaForward UncacheableSelect effects) => (TyUncacheableSelect, effects)
  | Some (QaForward (UnsupportedStatement | Invalid) effects) => (TyNonSelect, effects)
  | None => (TyParseError, effects_unknown)
  end.

Lemma statement_analyze_kept sql c :
  exists c', statement_analyze analyze parse_raw sql c = (analysis sql, c') /\
    kept c c' /\ parts c' = parts c /\ cx_extended c' = cx_extended c.
Proof.
  unfold statement_analyze, analysis.
  destruct (analyze sql) as [[[] e|q|s]|]; eexists; (split; [reflexivity|]);
    try (split; [reflexivity|done]); apply parse_inspect_kept.
Qed.

(** ** A client message at a time *)

Notation client_message := (handle_client_message analyze parse_raw parameter_to_literal).

Lemma sends_read m r : sends m r -> request_read m = Some (Ok r).
Proof. intros [[_ H] Hd]. by apply H. Qed.

Lemma result_map_ok {T U E} (f : T -> U) (r : Result T E) u :
  result_map f r = Ok u -> exists t, r = Ok t /\ f t = u.
Proof. destruct r as [t|]; [|done]. intros [= <-]. by exists t. Qed.

(** The message that reads as a request is handled by its handler. *)
Lemma sends_cases m r :
  sends m r ->
  match r with
  | RqParse p => message_type m = FmParse /\ parse_parse_message (pm_data m) = Ok p
  | RqBind b => message_type m = FmBind /\ parse_bind_message (pm_data m) = Ok b
  | RqDescribe e => message_type m = FmDescribe /\ parse_describe_message (pm_data m) = Ok e
  | RqExecute e => message_type m = FmExecute /\ parse_execute_message (pm_data m) = Ok e
  | RqClose k => message_type m = FmClose /\ parse_close_message (pm_data m) = Ok k
  | RqSync => message_type m = FmSync
  end.
Proof.
  intros H%sends_read. unfold request_read in H.
  destruct (message_type m); try discriminate H; injection H as H;
    first [by apply result_map_ok in H as (t & E & <-) | by destruct r].
Qed.

Definition statement_of (p : ParsedParseMessage) (data : Bytes) : PreparedStatement Q :=
  {| pst_sql := pp_sql p; pst_parameter_oids := pp_parameter_oids p;
     pst_client_parameter_oids := pp_parameter_oids p; pst_sql_type := fst (analysis (pp_sql p));
     pst_parameter_description := None; pst_row_description := None;
     pst_describe_no_data := false; pst_origin_prepared := false;
     pst_parse_bytes := Some data; pst_effects := snd (analysis (pp_sql p)) |}.

Definition buffer_of c : ExtendedBuffer Q := default buffer_default (ep_buffer (cx_extended c)).

Definition pending_with (f : Segment -> Segment) (b : ExtendedBuffer Q) : ExtendedBuffer Q :=
  {| eb_entries := eb_entries b; eb_pending := f (eb_pending b) |}.

Lemma client_parse m p c :
  sends m (RqParse p) -> cx_flush_describe_pending c = false ->
  pp_statement_name p = [] \/ prepared_statements c !! pp_statement_name p = None ->
  let c' := client_message m c in
  kept c c' /\
  parts c' = (<[pp_statement_name p := statement_of p (pm_data m)]> (prepared_statements c), portals c,
              Some (pending_with (segment_parse (pp_statement_name p) (pm_data m)) (buffer_of c))).
Proof.
  intros [Hty Hp]%sends_cases Hf Hn. cbv zeta. unfold handle_client_message. rewrite Hf, Hty.
  unfold handle_parse_message. rewrite Hp.
  destruct (statement_analyze_kept (pp_sql p) c) as (c1 & -> & K & P & X).
  destruct (analysis (pp_sql p)) as [ty ef] eqn:Ea. injection P as P1 P2 P3.
  split.
  - etrans; [exact K|]. by_kept.
  - unfold buffer_pending_update, statement_store, maps_with, statement_of, buffer_of. cbn.
    rewrite X, Ea. cbn. fold (prepared_statements c1) (portals c1). rewrite P1, P2.
    destruct Hn as [-> | ->]; [done|]. by destruct (is_empty _).
Qed.

Lemma client_bind m b c :
  sends m (RqBind b) -> cx_flush_describe_pending c = false ->
  let c' := client_message m c in
  kept c c' /\
  parts c' = (prepared_statements c,
              <[pb_portal_name b := {| po_statement_name := pb_statement_name b;
                                       po_parameter_values := pb_parameter_values b;
                                       po_parameter_formats := pb_parameter_formats b;
                                       po_result_formats := pb_result_formats b |}]> (portals c),
              Some (pending_with (segment_bind (pm_data m)) (buffer_of c))).
Proof.
  intros [Hty Hp]%sends_cases Hf. cbv zeta. unfold handle_client_message. rewrite Hf, Hty.
  unfold handle_bind_message. rewrite Hp. split; [by_kept|done].
Qed.

Lemma client_describe m e c :
  sends m (RqDescribe e) -> cx_flush_describe_pending c = false ->
  let c' := client_message m c in
  kept c c' /\
  parts c' = (prepared_statements c, portals c,
              Some (pending_with (segment_describe e (pm_data m)) (buffer_of c))).
Proof.
  intros [Hty Hp]%sends_cases Hf. cbv zeta. unfold handle_client_message. rewrite Hf, Hty.
  unfold handle_describe_message. rewrite Hp. split; [by_kept|done].
Qed.

Lemma client_execute m e c :
  sends m (RqExecute e) -> cx_flush_describe_pending c = false ->
  let c' := client_message m c in
  let portal := Some (pe_portal_name e) in
  kept c c' /\
  parts c' = (prepared_statements c, portals c,
    Some (pending_seal (pm_data m)
      {| xs_candidate := execute_cache_candidate portal (sg_describe (eb_pending (buffer_of c))) c;
         xs_effects := execute_effects parameter_to_literal portal c; xs_portal_name := portal |}
      (buffer_of c))).
Proof.
  intros [Hty Hp]%sends_cases Hf. cbv zeta. unfold handle_client_message. rewrite Hf, Hty.
  unfold handle_execute_message. rewrite Hp. split; [by_kept|].
  unfold buffer_of. by destruct (ep_buffer (cx_extended c)).
Qed.

(** ** The window before a Sync *)

(** Nothing buffered, nothing outstanding. *)
Record quiet_connection c : Prop := {
  qc_intercept : cs_origin_intercept (cx_session c) = InterceptNone;
  qc_injected : cs_injected (cx_session c) = [];
  qc_write : cx_origin_write_buf c = [];
  qc_egress : cx_egress c = [];
  qc_flush : cx_flush_describe_pending c = false;
  qc_mode : cx_proxy_mode c = ModeRead;
  qc_closes : ep_deferred_close_completes (cx_extended c) = 0%N;
  qc_group : ep_group_origin_forwarded (cx_extended c) = false;
  qc_buffer : ep_buffer (cx_extended c) = None;
}.

Lemma client_run_cons m ms c : client_run (m :: ms) c = client_run ms (client_message m c).
Proof. done. Qed.

Lemma client_run_app ms ms' c : client_run (ms ++ ms') c = client_run ms' (client_run ms c).
Proof. apply foldl_app. Qed.

Lemma kept_flush c c' :
  kept c c' -> cx_flush_describe_pending c = false -> cx_flush_describe_pending c' = false.
Proof. intros [] H. congruence. Qed.

Lemma kept_run c1 c2 c3 : kept c1 c2 -> kept c2 c3 -> kept c1 c3.
Proof. intros; by etrans. Qed.

Definition prepare_segment (p : ParsedParseMessage) (describe : bool) (datas : list Bytes) : Segment :=
  {| sg_bytes := datas; sg_has_parse := true; sg_has_bind := false;
     sg_describe := if describe then DescribeStatement else DescribeNone;
     sg_parse_statement_names := [pp_statement_name p];
     sg_describe_statement_names := if describe then [pp_statement_name p] else [];
     sg_dirty := false |}.

Lemma parts_split c (a : gmap Bytes (PreparedStatement Q)) (b : gmap Bytes Portal)
    (e : option (ExtendedBuffer Q)) :
  parts c = (a, b, e) -> prepared_statements c = a /\ portals c = b /\ ep_buffer (cx_extended c) = e.
Proof. by intros [= -> -> ->]. Qed.

Lemma prepare_window p describe ms sync c :
  quiet_connection c -> Forall2 sends (ms ++ [sync]) (group_requests (GPrepare p describe)) ->
  pp_statement_name p = [] \/ prepared_statements c !! pp_statement_name p = None ->
  exists c' data, client_run (ms ++ [sync]) c = client_message sync c' /\ sends sync RqSync /\
    kept c c' /\ Forall2 sends ms (removelast (group_requests (GPrepare p describe))) /\
    frame_requests data (RqParse p) /\
    parts c' = (<[pp_statement_name p := statement_of p data]> (prepared_statements c), portals c,
                Some {| eb_entries := []; eb_pending := prepare_segment p describe (pm_data <$> ms) |}).
Proof.
  intros Hq Hs Hn. apply Forall2_app_inv_l in Hs as (rs & rs' & Hs & Hy & Hr).
  apply Forall2_cons_inv_l in Hy as (r & ? & Hy & ->%Forall2_nil_inv_l & ->).
  assert (Hrs : r = RqSync /\ rs = removelast (group_requests (GPrepare p describe))).
  { destruct describe; unfold group_requests, request_if in Hr |- *; cbn in Hr |- *;
      change [RqParse p; ?x; RqSync] with ([RqParse p; x] ++ [RqSync]) in Hr;
      change [RqParse p; RqSync] with ([RqParse p] ++ [RqSync]) in Hr;
      apply app_inj_tail in Hr as [<- <-]; done. }
  destruct Hrs as [-> ->]. assert (Hs0 := Hs).
  replace (removelast (group_requests (GPrepare p describe))) with
    (RqParse p :: request_if describe (RqDescribe {| pd_describe_type := x53; pd_name := pp_statement_name p |}))
    in Hs by by destruct describe.
  apply Forall2_cons_inv_r in Hs as (m & ms' & Hm & Hs & ->).
  destruct (client_parse m p c Hm (qc_flush _ Hq) Hn) as [K P].
  assert (Hb : buffer_of c = buffer_default) by (unfold buffer_of; by rewrite (qc_buffer _ Hq)).
  rewrite Hb in P. clear Hb.
  destruct describe.
  - apply Forall2_cons_inv_r in Hs as (m2 & ? & Hm2 & ->%Forall2_nil_inv_r & ->).
    destruct (client_describe m2 _ (client_message m c) Hm2 (kept_flush _ _ K (qc_flush _ Hq)))
      as [K2 P2].
    exists (client_message m2 (client_message m c)), (pm_data m).
    split_and!; [done|done|by etrans|done|apply Hm|].
    rewrite P2. apply parts_split in P as (-> & -> & Hb). unfold buffer_of. by rewrite Hb.
  - apply Forall2_nil_inv_r in Hs as ->. exists (client_message m c), (pm_data m).
    split_and!; [done|done|done|done|apply Hm|]. by rewrite P.
Qed.

Definition bound_portal (b : ParsedBindMessage) : Portal :=
  {| po_statement_name := pb_statement_name b; po_parameter_values := pb_parameter_values b;
     po_parameter_formats := pb_parameter_formats b; po_result_formats := pb_result_formats b |}.

(** The candidate of an Execute whose Describe, if any, was the portal's. *)
Definition candidate_of (s : PreparedStatement Q) (b : ParsedBindMessage) : option (CacheCandidate Q) :=
  match pb_result_formats b, pst_sql_type s with
  | PerColumn _, _ => None
  | _, TyCacheable query =>
      Some {| cd_cacheable_query := query; cd_parameters := portal_parameters (bound_portal b) s;
              cd_result_formats := pb_result_formats b; cd_parameter_description := None;
              cd_statement_name := pb_statement_name b;
              cd_origin_prepared := pst_origin_prepared s |}
  | _, _ => None
  end.

Lemma candidate_eq s b describe c :
  portals c !! [] = Some (bound_portal b) -> prepared_statements c !! pb_statement_name b = Some s ->
  describe <> DescribeStatement ->
  execute_cache_candidate (Some []) describe c = candidate_of s b.
Proof.
  intros Hp Hs Hd. unfold execute_cache_candidate, portal_statement. simpl. rewrite Hp. simpl.
  rewrite Hs. simpl. rewrite bool_decide_false by done. unfold candidate_of.
  by destruct (pb_result_formats b), (pst_sql_type s).
Qed.

Definition run_segment (parse : option ParsedParseMessage) (describe : bool) (datas : list Bytes)
    : Segment :=
  {| sg_bytes := datas; sg_has_parse := bool_decide (is_Some parse); sg_has_bind := true;
     sg_describe := if describe then DescribePortal else DescribeNone;
     sg_parse_statement_names := pp_statement_name <$> option_list parse;
     sg_describe_statement_names := []; sg_dirty := false |}.

(** The statements after the Parse of a run, if it has one. *)
Definition run_statements (parse : option ParsedParseMessage) (data : Bytes)
    (m : gmap Bytes (PreparedStatement Q)) : gmap Bytes (PreparedStatement Q) :=
  match parse with
  | Some p => <[pp_statement_name p := statement_of p data]> m
  | None => m
  end.

(** The Parse of a run, then its Bind. *)
Lemma run_parse parse ms c :
  quiet_connection c -> Forall2 sends ms (RqParse <$> option_list parse) ->
  match parse with
  | Some p => pp_statement_name p = [] \/ prepared_statements c !! pp_statement_name p = None
  | None => True
  end ->
  exists c' data, client_run ms c = c' /\ kept c c' /\
    (forall p, parse = Some p -> frame_requests data (RqParse p)) /\
    prepared_statements c' = run_statements parse data (prepared_statements c) /\
    portals c' = portals c /\
    buffer_of c' = {| eb_entries := [];
      eb_pending := {| sg_bytes := pm_data <$> ms; sg_has_parse := bool_decide (is_Some parse);
                       sg_has_bind := false; sg_describe := DescribeNone;
                       sg_parse_statement_names := pp_statement_name <$> option_list parse;
                       sg_describe_statement_names := []; sg_dirty := false |} |}.
Proof.
  intros Hq Hs Hn. assert (Hb : buffer_of c = buffer_default) by (unfold buffer_of; by rewrite (qc_buffer _ Hq)).
  destruct parse as [p|].
  - apply Forall2_cons_inv_r in Hs as (m & ? & Hm & ->%Forall2_nil_inv_r & ->).
    destruct (client_parse m p c Hm (qc_flush _ Hq) Hn) as [K P]. rewrite Hb in P.
    apply parts_split in P as (P1 & P2 & P3). exists (client_message m c), (pm_data m).
    split_and!; [done|done| |done|done|].
    + intros ? [= <-]. apply Hm.
    + unfold buffer_of. by rewrite P3.
  - apply Forall2_nil_inv_r in Hs as ->. exists c, []. by split_and!.
Qed.

Lemma run_window parse b describe ms c s :
  quiet_connection c ->
  Forall2 sends ms (group_requests (GRun parse b describe)) ->
  match parse with
  | Some p => (pp_statement_name p = [] \/ prepared_statements c !! pp_statement_name p = None) /\
              pb_statement_name b = pp_statement_name p
  | None => prepared_statements c !! pb_statement_name b = Some s
  end ->
  pb_portal_name b = [] ->
  exists ms' sync c' data effects,
    ms = ms' ++ [sync] /\ client_run ms c = client_message sync c' /\ sends sync RqSync /\ kept c c' /\
    Forall2 sends ms' (removelast (group_requests (GRun parse b describe))) /\
    (forall p, parse = Some p -> frame_requests data (RqParse p)) /\
    parts c' = (run_statements parse data (prepared_statements c),
      <[[] := bound_portal b]> (portals c),
      Some {| eb_entries :=
        [{| ee_prep := run_segment parse describe (pm_data <$> ms'); ee_portal_name := Some [];
            ee_candidate := candidate_of
              (match parse with Some p => statement_of p data | None => s end) b;
            ee_effects := effects |}]; eb_pending := segment_default |}).
Proof.
  intros Hq Hs Hn Hpb. unfold group_requests in Hs. rewrite <- app_assoc in Hs.
  apply Forall2_app_inv_r in Hs as (ms1 & ms2 & Hs1 & Hs2 & ->).
  cbn [app] in Hs2. apply Forall2_cons_inv_r in Hs2 as (mb & ms3 & Hmb & Hs3 & ->).
  rewrite <- app_assoc in Hs3. apply Forall2_app_inv_r in Hs3 as (ms4 & ms5 & Hs4 & Hs5 & ->).
  apply Forall2_cons_inv_r in Hs5 as (me & ms6 & Hme & Hs6 & ->).
  apply Forall2_cons_inv_r in Hs6 as (sync & ? & Hsync & ->%Forall2_nil_inv_r & ->).
  destruct (run_parse parse ms1 c Hq Hs1) as (c1 & data & Hrun & K1 & Hframe & P1 & P2 & P3).
  { destruct parse; [apply Hn|done]. }
  destruct (client_bind mb b c1 Hmb (kept_flush _ _ K1 (qc_flush _ Hq))) as [K2 P4].
  set (c2 := client_message mb c1) in *. rewrite P1, P2, P3, Hpb in P4.
  apply parts_split in P4 as (Q1 & Q2 & Q3).
  assert (Hk2 : kept c c2) by by etrans.
  assert (H3 : exists c3, client_run ms4 c2 = c3 /\ kept c c3 /\ prepared_statements c3 = prepared_statements c2 /\
    portals c3 = portals c2 /\ buffer_of c3 = {| eb_entries := [];
      eb_pending := run_segment parse describe (pm_data <$> ms1 ++ mb :: ms4) |}).
  { destruct describe.
    - apply Forall2_cons_inv_r in Hs4 as (md & ? & Hmd & ->%Forall2_nil_inv_r & ->).
      destruct (client_describe md _ c2 Hmd (kept_flush _ _ Hk2 (qc_flush _ Hq))) as [K P].
      apply parts_split in P as (R1 & R2 & R3). exists (client_message md c2).
      split_and!; [done|by etrans|done|done|]. unfold buffer_of. rewrite R3. unfold buffer_of.
      rewrite Q3. unfold pending_with, run_segment, segment_describe, segment_bind. cbn.
      by rewrite fmap_app, <- app_assoc.
    - apply Forall2_nil_inv_r in Hs4 as ->. exists c2. split_and!; try done. unfold buffer_of.
      rewrite Q3. unfold pending_with, run_segment, segment_bind. cbn. by rewrite fmap_app. }
  destruct H3 as (c3 & Hr3 & K3 & R1 & R2 & R3).
  destruct (client_execute me _ c3 Hme (kept_flush _ _ K3 (qc_flush _ Hq))) as [K4 P5].
  cbn [pe_portal_name] in P5.
  exists ((ms1 ++ mb :: ms4) ++ [me]), sync, (client_message me c3), data,
    (execute_effects parameter_to_literal (Some []) c3).
  split_and!.
  - by rewrite <- !app_assoc.
  - replace (ms1 ++ mb :: ms4 ++ [me; sync]) with (ms1 ++ ([mb] ++ ms4) ++ [me] ++ [sync])
      by by rewrite <- !app_assoc.
    rewrite !client_run_app, Hrun. change (client_run [mb] c1) with c2. by rewrite Hr3.
  - done.
  - by etrans.
  - replace (removelast (group_requests (GRun parse b describe))) with
      (((RqParse <$> option_list parse) ++ RqBind b ::
        request_if describe (RqDescribe {| pd_describe_type := x50; pd_name := [] |}))
       ++ [RqExecute {| pe_portal_name := []; pe_max_rows := 0 |}]).
    2: { by destruct parse, describe. }
    apply Forall2_app; [|by constructor]. apply Forall2_app; [done|]. by constructor.
  - done.
  - rewrite P5, R1, R2, R3, Q1, Q2. f_equal. f_equal. unfold pending_seal. cbn [eb_entries eb_pending app].
    f_equal. f_equal. f_equal.
    + by rewrite (fmap_app pm_data (ms1 ++ mb :: ms4) [me]).
    + cbn. apply candidate_eq.
      * rewrite R2, Q2. apply lookup_insert_eq.
      * rewrite R1, Q1. destruct parse as [p|]; [|done]. destruct Hn as [_ ->]. apply lookup_insert_eq.
      * by destruct describe.
Qed.

(** ** A reply of origin at a time *)

(** With no intercept installed, a message other than ReadyForQuery passes Session's handlers
    and reaches the statement's arm. *)
Lemma relay_session settled m c :
  cs_origin_intercept (cx_session c) = InterceptNone -> cs_injected (cx_session c) = [] ->
  message_type m <> BmReadyForQuery ->
  exists c1, kept c c1 /\ parts c1 = parts c /\ cx_extended c1 = cx_extended c /\
    describe_cache c1 = describe_cache c /\
    origin_message settled m c =
    let '(m', c2) :=
      match message_type m with
      | BmParameterDescription => (m, parameter_description_received (pm_data m) c1)
      | BmRowDescription => (m, description_received (Some (pm_data m)) c1)
      | BmNoData => (m, description_received None c1)
      | BmParseComplete => (m, parse_complete c1)
      | BmAuthentication =>
          (match authentication_type (pm_data m) with
           | Some v => if v =? AUTHENTICATION_SASL
                       then {| message_type := message_type m;
                               pm_data := sasl_plus_mechanism_strip (pm_data m) |} else m
           | None => m
           end, c1)
      | _ => (m, c1)
      end in
    origin_message_relay settled m' c2.
Proof.
  intros Hi Hj Hm. unfold connection_origin_message.
  assert (Hs : exists s, handle_origin_message to_lowercase lsn_parse (session_message m) (cx_session c) = (s, true) /\
    cs_isolation s = cs_isolation (cx_session c) /\ cs_origin_intercept s = InterceptNone /\
    cs_injected s = [] /\ cs_maps s = cs_maps (cx_session c)).
  { unfold handle_origin_message, origin_intercept_handle. rewrite Hi. unfold session_message.
    destruct (message_type m); try done; try (eexists; split; [reflexivity|done]).
    eexists. split; [reflexivity|]. unfold parameter_status_handle.
    destruct (parameter_status_parse _) as [[n v]|]; simpl; [|done]. by case_bool_decide. }
  destruct Hs as (s & -> & H1 & H2 & H3 & H4). cbn [negb].
  exists (injected_flush (session_update (fun _ => s) c)). split_and!.
  - by_kept; unfold transaction_status, describe_cache; cbn; rewrite ?H1, ?H2, ?H3, ?H4, ?Hi, ?Hj; try done.
    apply app_nil_r.
  - unfold prepared_statements, portals. cbn. by rewrite H4.
  - done.
  - unfold describe_cache. cbn. by rewrite H4.
  - by destruct (message_type m).
Qed.

Lemma relay_neutral settled m c :
  cs_origin_intercept (cx_session c) = InterceptNone -> cs_injected (cx_session c) = [] ->
  exec_message m = true \/
    ((message_type m = BmRowDescription \/ message_type m = BmNoData) /\
     ep_pending_describe_statements (cx_extended c) = []) ->
  let c' := origin_message settled m c in
  kept (egress_update (origin_append (pm_data m)) c) c' /\ parts c' = parts c /\
  cx_extended c' = cx_extended c.
Proof.
  intros Hi Hj Hm. destruct (relay_session settled m c Hi Hj) as (c1 & K & P & X & _ & E).
  { unfold exec_message in Hm. destruct Hm as [Hm|[[-> | ->] _]]; [|done|done].
    by destruct (message_type m). }
  cbv zeta. rewrite E.
  assert (Harm : origin_message settled m c = egress_update (origin_append (pm_data m)) c1).
  { rewrite E. unfold exec_message in Hm. destruct Hm as [Hm|[Ht Hd]].
    - unfold origin_message_relay. destruct (message_type m) eqn:Et; try done; by rewrite Et.
    - unfold description_received, origin_message_relay. rewrite X, Hd.
      destruct Ht as [Ht|Ht]; rewrite Ht; cbn; by rewrite Ht. }
  rewrite <- E, Harm. split_and!; [|done|done].
  destruct K. constructor; try done. simpl. congruence.
Qed.

Lemma relay_parse_complete settled m name rest c :
  cs_origin_intercept (cx_session c) = InterceptNone -> cs_injected (cx_session c) = [] ->
  message_type m = BmParseComplete -> ep_pending_parse_statements (cx_extended c) = name :: rest ->
  let c' := origin_message settled m c in
  kept (egress_update (origin_append (pm_data m)) c) c' /\
  parts c' = (alter mark_prepared name (prepared_statements c), portals c, ep_buffer (cx_extended c)) /\
  cx_extended c' = parses_set rest (cx_extended c).
Proof.
  intros Hi Hj Hm Hp. destruct (relay_session settled m c Hi Hj) as (c1 & K & P & X & _ & E);
    [by rewrite Hm|]. cbv zeta. rewrite E, Hm. unfold parse_complete, origin_message_relay.
  rewrite X, Hp, Hm. injection P as P1 P2 P3. split_and!.
  - destruct K. constructor; try done. simpl. congruence.
  - unfold prepared_statements at 1, portals at 1. cbn. fold (prepared_statements c1) (portals c1).
    by rewrite P1, P2, X.
  - cbn. by rewrite X.
Qed.

Lemma relay_parameter_description settled m name rest c :
  cs_origin_intercept (cx_session c) = InterceptNone -> cs_injected (cx_session c) = [] ->
  message_type m = BmParameterDescription ->
  ep_pending_describe_statements (cx_extended c) = name :: rest ->
  let c' := origin_message settled m c in
  kept (egress_update (origin_append (pm_data m)) c) c' /\
  parts c' = (match parse_parameter_description (pm_data m) with
              | Ok p => alter (parameters_described (ppd_parameter_oids p) (pm_data m)) name
                          (prepared_statements c)
              | Err _ => prepared_statements c
              end, portals c, ep_buffer (cx_extended c)) /\
  cx_extended c' = cx_extended c.
Proof.
  intros Hi Hj Hm Hp. destruct (relay_session settled m c Hi Hj) as (c1 & K & P & X & _ & E);
    [by rewrite Hm|]. cbv zeta. rewrite E, Hm. unfold parameter_description_received, origin_message_relay.
  rewrite X, Hp, Hm. injection P as P1 P2 P3.
  destruct (parse_parameter_description (pm_data m)); split_and!; try done;
    try (destruct K; constructor; try done; simpl; congruence);
    unfold prepared_statements at 1, portals at 1; cbn; fold (prepared_statements c1) (portals c1);
    by rewrite P1, P2, X.
Qed.

(** What a described statement leaves in the description cache. *)
Definition description_put (s : PreparedStatement Q) (row : option Bytes) (l : D) : D :=
  match pst_sql_type s, pst_parameter_description s with
  | TyCacheable _, Some pd => lru_put (describe_key s) (describe_entry pd row) l
  | _, _ => l
  end.

Lemma relay_description settled row name rest s c :
  cs_origin_intercept (cx_session c) = InterceptNone -> cs_injected (cx_session c) = [] ->
  ep_pending_describe_statements (cx_extended c) = name :: rest ->
  prepared_statements c !! name = Some s ->
  let c' := origin_message settled (row_message row) c in
  kept (maps_with (describe_cache_update (description_put s row))
          (egress_update (origin_append (pm_data (row_message row))) c)) c' /\
  parts c' = (alter (row_described row) name (prepared_statements c), portals c,
              ep_buffer (cx_extended c)) /\
  cx_extended c' = describes_set rest (cx_extended c).
Proof.
  intros Hi Hj Hp Hs.
  destruct (relay_session settled (row_message row) c Hi Hj) as (c1 & K & P & X & C & E);
    [by destruct row|]. cbv zeta. rewrite E. injection P as P1 P2 P3.
  assert (Hd : description_received row c1 =
    maps_with (describe_cache_update (description_put s row))
      (maps_with (prepared_update (alter (row_described row) name))
         (extended_update (describes_set rest) c1))).
  { unfold description_received. rewrite X, Hp.
    change (prepared_statements (extended_update (describes_set rest) c1)) with (prepared_statements c1).
    rewrite P1, Hs. unfold describe_cache_populate, prepared_statements at 1. cbn.
    fold (prepared_statements c1). rewrite P1, lookup_alter_eq, Hs. cbn. unfold description_put.
    destruct (pst_sql_type s), (pst_parameter_description s); try done; by destruct c1 as [[? ? ? ? ? ? ? [] ?]]. }
  assert (Hx : origin_message settled (row_message row) c =
    egress_update (origin_append (pm_data (row_message row))) (description_received row c1))
    by (rewrite E; by destruct row).
  rewrite <- E, Hx, Hd. split_and!.
  - destruct K. constructor; try done; cbn; try congruence. unfold describe_cache in *. cbn. by rewrite C.
  - unfold prepared_statements at 1, portals at 1. cbn. fold (prepared_statements c1) (portals c1).
    by rewrite P1, P2, X.
  - cbn. by rewrite X.
Qed.

(** *** ReadyForQuery *)

(** Nothing is outstanding at origin, or one probe is. *)
Definition probed c c' : Prop :=
  cs_injected (cx_session c') = [] /\
  ((cs_origin_intercept (cx_session c') = InterceptNone /\ cx_origin_write_buf c' = cx_origin_write_buf c) \/
   probe_intercept (cs_origin_intercept (cx_session c')) = true).

(** What the ends of a reply leave alone: all but the session, the write log and the probes. *)
Record rested c c' : Prop := {
  rs_prepared : prepared_statements c' = prepared_statements c;
  rs_extended : cx_extended c' = cx_extended c;
  rs_cache : cache_sub (describe_cache c) (describe_cache c');
  rs_egress : cx_egress c' = cx_egress c;
  rs_flush : cx_flush_describe_pending c' = cx_flush_describe_pending c;
  rs_mode : cx_proxy_mode c' = cx_proxy_mode c;
  rs_status : transaction_status c' = transaction_status c;
}.

#[local] Instance rested_preorder : PreOrder rested.
Proof.
  split; [by constructor|]. intros a b c [] []. constructor; try congruence. by etrans.
Qed.

Ltac by_rested := constructor; first [reflexivity | by intros ? ? | idtac].

Lemma write_log_maintain_rested settled c :
  cs_injected (cx_session c) = [] ->
  rested c (write_log_maintain settled c) /\
  cs_injected (cx_session (write_log_maintain settled c)) = [] /\
  ((cs_origin_intercept (cx_session (write_log_maintain settled c)) = cs_origin_intercept (cx_session c) /\
    cx_origin_write_buf (write_log_maintain settled c) = cx_origin_write_buf c) \/
   probe_intercept (cs_origin_intercept (cx_session (write_log_maintain settled c))) = true).
Proof.
  intros Hj. unfold write_log_maintain. destruct (log_is_empty _); [split_and!; [reflexivity|done|by left]|].
  set (c1 := match settled with Some _ => _ | None => c end).
  assert (H1 : rested c c1 /\ cs_injected (cx_session c1) = [] /\
    cs_origin_intercept (cx_session c1) = cs_origin_intercept (cx_session c) /\
    cx_origin_write_buf c1 = cx_origin_write_buf c).
  { unfold c1. destruct settled; split_and!; try done; by_rested. }
  destruct H1 as (R & J & I & W).
  destruct (write_log_probe_ready c1), (stamp_seq (cs_write_log (cx_session c1)));
    try (by split_and!; [|done|left]).
  split_and!.
  - etrans; [exact R|]. by_rested.
  - cbn. by rewrite J.
  - by right.
Qed.

Lemma discovery_maps (s : Connection (Maps Q D)) :
  cs_maps (session_discovery_inject s) = cs_maps s.
Proof. unfold session_discovery_inject, isolation_probe_inject. by repeat case_match. Qed.

Lemma block_transition_status previous (t : IsolationTracker) :
  it_transaction_status (isolation_block_transition previous t) = it_transaction_status t.
Proof. unfold isolation_block_transition, block_enter, block_exit. by repeat case_match. Qed.

Lemma session_ready data (s : Connection (Maps Q D)) :
  cs_origin_intercept s = InterceptNone -> cs_injected s = [] ->
  let s' := ready_for_query_handle data s in
  it_transaction_status (cs_isolation s') = from_ready_for_query data /\
  (cs_maps s' = cs_maps s \/ cs_maps s' = describe_clear (cs_maps s)) /\
  ((cs_origin_intercept s' = InterceptNone /\ cs_injected s' = []) \/
   probe_intercept (cs_origin_intercept s') = true).
Proof.
  intros Hi Hj. cbv zeta. unfold ready_for_query_handle.
  match goal with |- context [session_discovery_inject ?x] => set (s1 := x) end.
  assert (H1 : cs_origin_intercept s1 = InterceptNone /\ cs_injected s1 = [] /\
    it_transaction_status (cs_isolation s1) = from_ready_for_query data /\
    (cs_maps s1 = cs_maps s \/ cs_maps s1 = describe_clear (cs_maps s))).
  { unfold s1. destruct (search_path_reset_needed _ _); cbn; rewrite block_transition_status;
      split_and!; try done; [by right|by left]. }
  destruct H1 as (I & J & S & M). destruct (discovery_probing s1 I J) as [E Pr].
  rewrite E, discovery_maps. split_and!; [done|done|].
  destruct Pr as [[? ?]|[(_ & -> & _)|(-> & _)]]; [by left|by right|by right].
Qed.

Lemma relay_ready settled status buf c :
  cs_origin_intercept (cx_session c) = InterceptNone -> cs_injected (cx_session c) = [] ->
  cx_egress c = [SlotOrigin buf false] ->
  let c' := origin_message settled (backend BmReadyForQuery (ready_for_query_message status)) c in
  transaction_status c' = status /\
  cx_egress c' = [SlotOrigin (buf ++ [ready_for_query_message status]) true] /\
  prepared_statements c' = prepared_statements c /\ cx_extended c' = cx_extended c /\
  cache_sub (describe_cache c) (describe_cache c') /\
  cx_flush_describe_pending c' = cx_flush_describe_pending c /\ cx_proxy_mode c' = cx_proxy_mode c /\
  probed c c'.
Proof.
  intros Hi Hj He. cbv zeta. unfold connection_origin_message.
  unfold handle_origin_message, origin_intercept_handle. rewrite Hi. cbn [session_message message_type backend].
  destruct (session_ready (ready_for_query_message status) (cx_session c) Hi Hj) as (S & M & Pr).
  set (s := ready_for_query_handle _ _) in *. cbn [negb pm_data].
  set (c1 := injected_flush (session_update (fun _ => s) c)).
  set (c2 := unnamed_portal_drop c1). unfold origin_message_relay. cbn [message_type pm_data].
  set (c3 := egress_update origin_seal _).
  assert (R : prepared_statements c3 = prepared_statements c /\ cx_extended c3 = cx_extended c /\
    cache_sub (describe_cache c) (describe_cache c3) /\
    cx_flush_describe_pending c3 = cx_flush_describe_pending c /\ cx_proxy_mode c3 = cx_proxy_mode c /\
    transaction_status c3 = status /\ probed c c3 /\
    cx_egress c3 = [SlotOrigin (buf ++ [ready_for_query_message status]) true]).
  { assert (Hm : prepared_statements c1 = prepared_statements c /\
      cache_sub (describe_cache c) (describe_cache c1)).
    { unfold prepared_statements, describe_cache, c1. cbn.
      destruct M as [-> | ->]; cbn; split; try done. intros k e. by rewrite lru_get_clear. }
    destruct Hm as [Hm1 Hm2]. unfold c3, c2, unnamed_portal_drop.
    destruct (connection_in_transaction c1); (split_and!; [done|done|done|done|done| | | ]);
      try (unfold transaction_status; cbn; rewrite S; by destruct status);
      try (cbn; rewrite He; by destruct status, buf);
      (split; [done|]); (destruct Pr as [[Hi' Hj']|Hp]; [left; split; [exact Hi'|]|right; exact Hp]);
      cbn; rewrite Hj'; apply app_nil_r. }
  destruct R as (R1 & R2 & R3 & R4 & R5 & R6 & [R7 R8] & R9).
  destruct (write_log_maintain_rested settled c3 R7) as ([] & J & W).
  change (message_type _) with BmReadyForQuery. cbv iota.
  split_and!; [congruence|congruence|congruence|congruence|by etrans|congruence|congruence|split; [done|]].
  destruct W as [[-> ->]|W]; [|by right]. destruct R8 as [[? ?]|?]; [left; by split|by right].
Qed.

(** ** The replies of a forwarded group *)

Definition key_statement (k : DescribeKey) : Statement :=
  {| st_sql := dk_sql k; st_oids := dk_parameter_oids k |}.

(** Every remembered description is origin's. *)
Definition cache_ok (l : D) : Prop :=
  forall k e, fst (lru_get k l) = Some e ->
  pg_accepts (key_statement k) = true /\
  e = describe_entry (fst (pg_describe (key_statement k))) (snd (pg_describe (key_statement k))).

Lemma cache_ok_sub l l' : cache_ok l -> cache_sub l l' -> cache_ok l'.
Proof. intros H Hs k e He. by apply H, Hs. Qed.

(** The connection while the reply of a group comes in: its one open slot holds [out], its
    statements and awaited replies are [prep], [parses] and [describes]; the rest is as it was
    in [c0]. *)
Record replying c0 (i : OriginIntercept) (prep : gmap Bytes (PreparedStatement Q))
    (parses describes : list Bytes) (out : Bytes) c : Prop := {
  rp_egress : exists buf, cx_egress c = [SlotOrigin buf false] /\ concat buf = out;
  rp_intercept : cs_origin_intercept (cx_session c) = i;
  rp_injected : cs_injected (cx_session c) = [];
  rp_prepared : prepared_statements c = prep;
  rp_parses : ep_pending_parse_statements (cx_extended c) = parses;
  rp_describes : ep_pending_describe_statements (cx_extended c) = describes;
  rp_cache : cache_ok (describe_cache c);
  rp_status : transaction_status c = transaction_status c0;
  rp_write : cx_origin_write_buf c = [];
  rp_flush : cx_flush_describe_pending c = false;
  rp_mode : cx_proxy_mode c = ModeRead;
  rp_closes : ep_deferred_close_completes (cx_extended c) = 0%N;
  rp_group : ep_group_origin_forwarded (cx_extended c) = false;
  rp_buffer : ep_buffer (cx_extended c) = None;
}.

Lemma origin_append_slot (data : Bytes) (buf : list Bytes) :
  exists buf', origin_append data ([SlotOrigin buf false] : EgressQueue (CacheMessage Q Spec))
               = [SlotOrigin buf' false] /\ concat buf' = concat buf ++ data.
Proof.
  destruct data as [|x data]; [exists buf; by rewrite app_nil_r|].
  exists (buf ++ [x :: data]). split; [done|]. rewrite concat_app. cbn. by rewrite app_nil_r.
Qed.

(** A relayed message that leaves [c'] from [c], up to the statements it changes. *)
Lemma replying_relayed c0 prep parses describes out c data c' prep' parses' describes' :
  replying c0 InterceptNone prep parses describes out c ->
  kept (egress_update (origin_append data) c) c' ->
  prepared_statements c' = prep' -> ep_buffer (cx_extended c') = ep_buffer (cx_extended c) ->
  ep_pending_parse_statements (cx_extended c') = parses' ->
  ep_pending_describe_statements (cx_extended c') = describes' ->
  replying c0 InterceptNone prep' parses' describes' (out ++ data) c'.
Proof.
  intros [(buf & He & Ho)] K Hp Hb Hps Hds. destruct K as [K1 K2 K3 K4 K5 K6 K7 K8 K9 K10]. cbn in *.
  rewrite He in K6. destruct (origin_append_slot data buf) as (buf' & E & Hc). rewrite E in K6.
  constructor; try congruence.
  - exists buf'. split; [done|]. by rewrite Hc, Ho.
  - by eapply cache_ok_sub.
  - by rewrite K1.
Qed.

Lemma replying_neutral c0 prep parses describes out c settled m :
  replying c0 InterceptNone prep parses describes out c ->
  exec_message m = true \/
    ((message_type m = BmRowDescription \/ message_type m = BmNoData) /\ describes = []) ->
  replying c0 InterceptNone prep parses describes (out ++ pm_data m) (origin_message settled m c).
Proof.
  intros R Hm. destruct (relay_neutral settled m c) as (K & P & X).
  - apply R.
  - apply R.
  - by rewrite (rp_describes _ _ _ _ _ _ _ R).
  - apply parts_split in P as (P1 & P2 & P3).
    eapply replying_relayed; [exact R|exact K| |congruence|rewrite X; apply R|rewrite X; apply R].
    rewrite P1. apply R.
Qed.

(** Messages that need no statement: an Execute's, and the description of a portal. *)
Definition neutral (m : BackendMessage) : bool :=
  exec_message m || match message_type m with BmRowDescription | BmNoData => true | _ => false end.

Lemma replying_neutrals c0 prep parses out c settled ms :
  replying c0 InterceptNone prep parses [] out c -> forallb neutral ms = true ->
  replying c0 InterceptNone prep parses [] (out ++ wire ms) (origin_receive settled ms c).
Proof.
  revert out c. induction ms as [|m ms IH]; intros out c R Hm.
  - cbn. by rewrite app_nil_r.
  - cbn [forallb] in Hm. apply andb_true_iff in Hm as [Hm Hms].
    change (wire (m :: ms)) with (pm_data m ++ wire ms). rewrite app_assoc. apply IH; [|done].
    apply replying_neutral; [done|]. unfold neutral in Hm.
    destruct (exec_message m); [by left|right]. by destruct (message_type m); auto.
Qed.

Lemma replying_parse_complete c0 prep name rest describes out c settled :
  replying c0 InterceptNone prep (name :: rest) describes out c ->
  replying c0 InterceptNone (alter mark_prepared name prep) rest describes (out ++ PARSE_COMPLETE_MSG)
    (origin_message settled (backend BmParseComplete PARSE_COMPLETE_MSG) c).
Proof.
  intros R. destruct (relay_parse_complete settled (backend BmParseComplete PARSE_COMPLETE_MSG) name rest c)
    as (K & P & X); [apply R|apply R|done|apply R|]. apply parts_split in P as (P1 & P2 & P3).
  eapply replying_relayed; [exact R|exact K| |congruence|by rewrite X|rewrite X; apply R].
  rewrite P1. by rewrite (rp_prepared _ _ _ _ _ _ _ R).
Qed.

(** The ParseComplete of a lazy Parse marks its statement and is not relayed. *)
Lemma replying_lazy_parse c0 prep name parses describes out c settled :
  replying c0 (InterceptLazyParseInline name) prep parses describes out c ->
  replying c0 InterceptNone (alter mark_prepared name prep) parses describes out
    (origin_message settled (backend BmParseComplete PARSE_COMPLETE_MSG) c).
Proof.
  intros []. unfold connection_origin_message, handle_origin_message, origin_intercept_handle.
  rewrite rp_intercept0. cbn. unfold injected_flush. cbn. rewrite rp_injected0.
  constructor; try done; unfold prepared_statements, transaction_status, describe_cache in *; cbn.
  - by rewrite <- rp_prepared0.
  - by rewrite rp_write0.
Qed.

(** *** Descriptions *)

Definition def_of (s : PreparedStatement Q) : Statement :=
  {| st_sql := pst_sql s; st_oids := pst_client_parameter_oids s |}.

(** What is known of a statement is what origin says of it. *)
Record stmt_ok (name : Bytes) (s : PreparedStatement Q) : Prop := {
  so_type : pst_sql_type s = fst (analysis (pst_sql s));
  so_parse : exists f, pst_parse_bytes s = Some f /\
    frame_requests f (RqParse {| pp_statement_name := name; pp_sql := pst_sql s;
                                 pp_parameter_oids := pst_client_parameter_oids s |});
  so_oids : known_oids (def_of s) (pst_parameter_oids s);
  so_described : forall pd, pst_parameter_description s = Some pd -> pd = fst (pg_describe (def_of s));
}.

Lemma stmt_ok_new p data :
  frame_requests data (RqParse p) -> stmt_ok (pp_statement_name p) (statement_of p data).
Proof. intros H. constructor; [done| |by left|done]. exists data. split; [done|]. by destruct p. Qed.

Lemma stmt_ok_mark name s : stmt_ok name s -> stmt_ok name (mark_prepared s).
Proof. by intros []. Qed.

Lemma stmt_ok_row name row s : stmt_ok name s -> stmt_ok name (row_described row s).
Proof. by intros []. Qed.

Lemma stmt_ok_parameters name s p :
  stmt_ok name s -> parse_parameter_description (fst (pg_describe (def_of s))) = Ok p ->
  stmt_ok name (parameters_described (ppd_parameter_oids p) (fst (pg_describe (def_of s))) s).
Proof.
  intros [] Hp. constructor; try done.
  - right. by exists p.
  - by intros pd [= <-].
Qed.

Lemma description_put_ok name s l :
  cache_ok l -> stmt_ok name s -> pg_accepts (def_of s) = true ->
  cache_ok (description_put s (snd (pg_describe (def_of s))) l).
Proof.
  intros Hl Hs Ha. unfold description_put.
  destruct (pst_sql_type s); try done. destruct (pst_parameter_description s) as [pd|] eqn:Ep; [|done].
  intros k e He. destruct (decide (k = describe_key s)) as [->|Hk].
  - rewrite lru_get_put in He. injection He as <-. apply (so_described _ _ Hs) in Ep as ->. done.
  - apply Hl. by apply lru_get_put_other in He.
Qed.

(** The replies to a Describe of the one statement awaited. *)
Lemma replying_describe c0 prep parses name s out c settled :
  replying c0 InterceptNone prep parses [name] out c ->
  prep !! name = Some s -> stmt_ok name s -> pg_accepts (def_of s) = true ->
  exists s', stmt_ok name s' /\ def_of s' = def_of s /\ pst_origin_prepared s' = pst_origin_prepared s /\
  replying c0 InterceptNone (<[name := s']> prep) parses []
    (out ++ fst (pg_describe (def_of s)) ++ pm_data (row_message (snd (pg_describe (def_of s)))))
    (origin_receive settled [backend BmParameterDescription (fst (pg_describe (def_of s)));
                             row_message (snd (pg_describe (def_of s)))] c).
Proof.
  intros R Hn Hs Ha. set (pd := fst _). set (row := snd _).
  destruct (relay_parameter_description settled (backend BmParameterDescription pd) name [] c)
    as (K & P & X); [apply R|apply R|done|apply R|]. apply parts_split in P as (P1 & P2 & P3).
  cbn [pm_data backend] in *. set (c1 := origin_message settled _ c) in *.
  assert (H1 : exists s1, stmt_ok name s1 /\ def_of s1 = def_of s /\
    pst_origin_prepared s1 = pst_origin_prepared s /\
    replying c0 InterceptNone (<[name := s1]> prep) parses [name] (out ++ pd) c1).
  { rewrite (rp_prepared _ _ _ _ _ _ _ R) in P1.
    destruct (parse_parameter_description pd) as [p|] eqn:Ep.
    - exists (parameters_described (ppd_parameter_oids p) pd s).
      split_and!; [by apply stmt_ok_parameters|done|done|].
      eapply replying_relayed; [exact R|exact K| |congruence|rewrite X; apply R|rewrite X; apply R].
      rewrite P1. apply map_eq. intros i. destruct (decide (i = name)) as [->|Hi].
      + by rewrite lookup_alter_eq, lookup_insert_eq, Hn.
      + by rewrite lookup_alter_ne, lookup_insert_ne.
    - exists s. split_and!; [done..|].
      eapply replying_relayed; [exact R|exact K| |congruence|rewrite X; apply R|rewrite X; apply R].
      by rewrite P1, insert_id. }
  destruct H1 as (s1 & Hs1 & Hd & Ho & R1).
  destruct (relay_description settled row name [] s1 c1) as (K2 & P4 & X2); [apply R1|apply R1|apply R1| |].
  { rewrite (rp_prepared _ _ _ _ _ _ _ R1). apply lookup_insert_eq. }
  apply parts_split in P4 as (P4 & P5 & P6).
  exists (row_described row s1). split_and!; [by apply stmt_ok_row|done|done|].
  change (origin_receive _ _ c) with (origin_message settled (row_message row) c1).
  rewrite app_assoc. set (c1' := maps_with (describe_cache_update (description_put s1 row)) c1).
  assert (R1' : replying c0 InterceptNone (<[name := s1]> prep) parses [name] (out ++ pd) c1').
  { destruct R1. constructor; try done. unfold describe_cache, c1'. cbn.
    unfold row. rewrite <- Hd. apply (description_put_ok name); [done|done|by rewrite Hd]. }
  eapply replying_relayed; [exact R1'|exact K2| |exact P6|rewrite X2; apply R1|by rewrite X2].
  rewrite P4, (rp_prepared _ _ _ _ _ _ _ R1). apply map_eq. intros i.
  destruct (decide (i = name)) as [->|Hi].
  - by rewrite lookup_alter_eq, !lookup_insert_eq.
  - by rewrite lookup_alter_ne, !lookup_insert_ne.
Qed.

(** The end of the reply. *)
Lemma replying_ready c0 prep parses describes out c settled status :
  replying c0 InterceptNone prep parses describes out c ->
  let c' := origin_message settled (backend BmReadyForQuery (ready_for_query_message status)) c in
  exists c'', client_receive c' = Some (out ++ ready_for_query_message status, c'') /\
    prepared_statements c'' = prep /\ transaction_status c'' = status /\ cache_ok (describe_cache c'') /\
    cx_egress c'' = [] /\ cx_flush_describe_pending c'' = false /\ cx_proxy_mode c'' = ModeRead /\
    ep_deferred_close_completes (cx_extended c'') = 0%N /\
    ep_group_origin_forwarded (cx_extended c'') = false /\ ep_buffer (cx_extended c'') = None /\
    cs_injected (cx_session c'') = [] /\
    ((cs_origin_intercept (cx_session c'') = InterceptNone /\ cx_origin_write_buf c'' = []) \/
     probe_intercept (cs_origin_intercept (cx_session c'')) = true).
Proof.
  intros R. cbv zeta. destruct (rp_egress _ _ _ _ _ _ _ R) as (buf & He & Ho).
  destruct (relay_ready settled status buf c) as (S & E & P & X & C & F & M & J & W); [apply R|apply R|done|].
  set (c' := origin_message _ _ c) in *. exists (egress_update (fun _ => []) c').
  destruct R. rewrite rp_write0 in W. split.
  - unfold client_receive. rewrite E. cbn. f_equal. f_equal.
    by rewrite !app_nil_r, concat_app, Ho, <- (app_nil_r (ready_for_query_message status)) at 1.
  - split_and!; try done; cbn; try congruence.
    + change (prepared_statements c' = prep). congruence.
    + by eapply cache_ok_sub.
Qed.

(** ** What origin answers a group *)

Definition failed_status (st : TransactionStatus) : TransactionStatus :=
  match st with InTransaction => Failed | st => st end.

Definition ready_message (status : TransactionStatus) : BackendMessage :=
  backend BmReadyForQuery (ready_for_query_message status).

Definition origin_at o (statements : Statements) (status : TransactionStatus) : Prop :=
  og_statements o = statements /\ og_status o = status /\ og_skip o = false.

(** Skipped requests answer nothing up to the Sync. *)
Lemma origin_run_skip db rs o :
  og_skip o = true -> Forall (fun r => r <> RqSync) rs ->
  exists o', origin_run db (rs ++ [RqSync]) o = ([ready_message (og_status o)], o') /\
    origin_at o' (og_statements o) (og_status o).
Proof.
  intros Hk Hr. induction Hr as [|r rs Hr _ IH]; cbn [app origin_run].
  - eexists. split; [reflexivity|]. by split_and!.
  - destruct IH as (o' & E & Ho'). exists o'.
    replace (origin_step db r o) with ([] : list BackendMessage, o); [by rewrite E|].
    unfold origin_step. rewrite Hk. by destruct r.
Qed.

Lemma origin_fail_run db r rs o o1 statements :
  og_skip o = false -> origin_step db r o = origin_fail r o1 -> og_statements o1 = statements ->
  og_status o1 = og_status o -> Forall (fun r => r <> RqSync) rs ->
  exists o', origin_run db (r :: rs ++ [RqSync]) o
    = ([backend BmErrorResponse (pg_error r); ready_message (failed_status (og_status o))], o') /\
    origin_at o' statements (failed_status (og_status o)).
Proof.
  intros Hk E Hst Hs Hr. cbn [origin_run]. rewrite E. unfold origin_fail. set (o2 := Build_Origin _ _ _ _).
  destruct (origin_run_skip db rs o2) as (o' & E' & Ho'); [done|done|]. rewrite E'. exists o'.
  cbn in *. rewrite <- Hs, <- Hst. by destruct (og_status o1).
Qed.

Definition describe_messages (st : Statement) : list BackendMessage :=
  [backend BmParameterDescription (fst (pg_describe st)); row_message (snd (pg_describe st))].

Definition name_free (p : ParsedParseMessage) o : Prop :=
  pp_statement_name p = [] \/ og_statements o !! pp_statement_name p = None.

Lemma origin_parse db p o :
  og_skip o = false -> name_free p o ->
  origin_step db (RqParse p) o =
  if pg_accepts (parsed_statement p) then
    ([backend BmParseComplete PARSE_COMPLETE_MSG],
     origin_with (<[pp_statement_name p := parsed_statement p]> (og_statements o)) (og_portal o) o)
  else origin_fail (RqParse p) (origin_with (delete (pp_statement_name p) (og_statements o)) (og_portal o) o).
Proof.
  intros Hk Hn. unfold origin_step, origin_request. rewrite Hk.
  replace (negb _ && bool_decide _) with false; [done|].
  destruct Hn as [-> | ->]; [done|]. by rewrite andb_false_r.
Qed.

Lemma origin_prepare db p describe o :
  og_skip o = false -> name_free p o ->
  let st := parsed_statement p in
  exists o', if pg_accepts st then
    origin_run db (group_requests (GPrepare p describe)) o =
      ([backend BmParseComplete PARSE_COMPLETE_MSG] ++ (if describe then describe_messages st else [])
       ++ [ready_message (og_status o)], o') /\
    origin_at o' (<[pp_statement_name p := st]> (og_statements o)) (og_status o)
  else
    origin_run db (group_requests (GPrepare p describe)) o =
      ([backend BmErrorResponse (pg_error (RqParse p)); ready_message (failed_status (og_status o))], o') /\
    origin_at o' (delete (pp_statement_name p) (og_statements o)) (failed_status (og_status o)).
Proof.
  intros Hk Hn st. pose proof (origin_parse db p o Hk Hn) as Ep. fold st in Ep.
  destruct (pg_accepts st) eqn:Ea.
  - unfold group_requests, request_if. cbn [app origin_run]. rewrite Ep.
    destruct describe; cbn [app origin_run origin_step og_skip origin_with].
    + rewrite Hk. cbn [origin_request pd_describe_type pd_name]. change (is_statement x53) with true.
      cbv iota. cbn [og_statements origin_with]. rewrite lookup_insert_eq. cbn.
      eexists. split; [reflexivity|]. by split_and!.
    + eexists. split; [reflexivity|]. by split_and!.
  - unfold group_requests. cbn [app].
    eapply origin_fail_run; [done|exact Ep|done|done|]. by destruct describe; repeat constructor.
Qed.

(** The answer to a Bind of [st], its Describe and its Execute. *)
Definition run_answer (db : Statement -> ParsedBindMessage -> ExecResult) (st : Statement)
    (b : ParsedBindMessage) (describe : bool) (status : TransactionStatus)
    : list BackendMessage * TransactionStatus :=
  if pg_bind_ok st b then
    ([backend BmBindComplete BIND_COMPLETE_MSG] ++
     (if describe then [row_message (pg_portal_row st b)] else []) ++ xr_messages (db st b),
     xr_status (db st b))
  else ([backend BmErrorResponse (pg_error (RqBind b))], failed_status status).

Definition run_requests (b : ParsedBindMessage) (describe : bool) : list FrontendRequest :=
  RqBind b :: request_if describe (RqDescribe {| pd_describe_type := x50; pd_name := [] |})
  ++ [RqExecute {| pe_portal_name := []; pe_max_rows := 0 |}; RqSync].

Lemma origin_run_bound db st b describe o :
  og_skip o = false -> og_statements o !! pb_statement_name b = Some st -> pb_portal_name b = [] ->
  let '(ms, status) := run_answer db st b describe (og_status o) in
  exists o', origin_run db (run_requests b describe) o = (ms ++ [ready_message status], o') /\
    origin_at o' (og_statements o) status.
Proof.
  intros Hk Hs Hp. unfold run_answer. destruct (pg_bind_ok st b) eqn:Eb.
  - unfold run_requests, request_if. cbn [origin_run origin_step]. rewrite Hk. cbn [origin_request].
    rewrite Hs, Eb, Hp. cbn [andb is_empty].
    destruct describe; cbn; rewrite Hk; cbn.
    + rewrite Hk. cbn. destruct (xr_ok (db st b)); cbn; eexists;
        (split; [reflexivity|by split_and!]).
    + destruct (xr_ok (db st b)); cbn; eexists; (split; [reflexivity|by split_and!]).
  - cbn [app]. replace (run_requests b describe) with
      (RqBind b :: (request_if describe (RqDescribe {| pd_describe_type := x50; pd_name := [] |})
        ++ [RqExecute {| pe_portal_name := []; pe_max_rows := 0 |}]) ++ [RqSync])
      by by destruct describe.
    eapply (origin_fail_run _ _ _ _ o); [done| |done|done|by destruct describe; repeat constructor].
    unfold origin_step. rewrite Hk. cbn [origin_request]. by rewrite Hs, Eb.
Qed.

Lemma run_answer_neutral db st b describe status :
  db_answers db -> forallb neutral (fst (run_answer db st b describe status)) = true.
Proof.
  intros H. unfold run_answer. destruct (pg_bind_ok st b); [|done]. cbn [fst]. rewrite !forallb_app.
  specialize (H st b). apply andb_true_iff. split; [done|]. apply andb_true_iff. split.
  - destruct describe; [|done]. by destruct (pg_portal_row st b).
  - apply forallb_forall. intros m Hm. unfold neutral. by rewrite (proj1 (forallb_forall _ _) H m Hm).
Qed.

(** ** The invariant *)

(** A name as the proxy has it, as its origin has it and as the direct origin has it. *)
Definition agree_at (name : Bytes) (known : option (PreparedStatement Q)) (at_origin at_direct : option Statement)
    (names : gset Bytes) : Prop :=
  match known with
  | None => at_origin = None /\ at_direct = None
  | Some s =>
      name ∈ names /\
      at_origin = (if pst_origin_prepared s then Some (def_of s) else None) /\
      ((at_direct = Some (def_of s) /\ pg_accepts (def_of s) = true) \/
       (at_direct = None /\ pst_origin_prepared s = false))
  end.

Definition agree (prep : gmap Bytes (PreparedStatement Q)) (so sd : Statements) (names : gset Bytes) : Prop :=
  forall name, name <> [] -> agree_at name (prep !! name) (so !! name) (sd !! name) names.

Lemma agree_update n prep so sd names prep' so' sd' names' :
  agree prep so sd names ->
  (forall i, i <> n -> prep' !! i = prep !! i /\ so' !! i = so !! i /\ sd' !! i = sd !! i /\
                       (i ∈ names -> i ∈ names')) ->
  (n <> [] -> agree_at n (prep' !! n) (so' !! n) (sd' !! n) names') ->
  agree prep' so' sd' names'.
Proof.
  intros H Hi Hn i Hne. destruct (decide (i = n)) as [->|Hin]; [by apply Hn|].
  destruct (Hi i Hin) as (-> & -> & -> & Hm). specialize (H i Hne). unfold agree_at in *.
  destruct (prep !! i); [|done]. destruct H as (? & ? & ?). auto.
Qed.

(** Nothing outstanding but a probe. *)
Record resting c : Prop := {
  re_egress : cx_egress c = [];
  re_flush : cx_flush_describe_pending c = false;
  re_mode : cx_proxy_mode c = ModeRead;
  re_closes : ep_deferred_close_completes (cx_extended c) = 0%N;
  re_group : ep_group_origin_forwarded (cx_extended c) = false;
  re_buffer : ep_buffer (cx_extended c) = None;
  re_injected : cs_injected (cx_session c) = [];
  re_probe : (cs_origin_intercept (cx_session c) = InterceptNone /\ cx_origin_write_buf c = []) \/
             probe_intercept (cs_origin_intercept (cx_session c)) = true;
}.

Lemma resting_quiet c :
  resting c -> cs_origin_intercept (cx_session c) = InterceptNone -> quiet_connection c.
Proof.
  intros [] H. constructor; try done. destruct re_probe0 as [[_ ?]|Hp]; [done|]. by rewrite H in Hp.
Qed.

Lemma quiet_resting c : quiet_connection c -> resting c.
Proof. intros []. constructor; try done. by left. Qed.

Record tc_inv (w : TwoClients) : Prop := {
  ti_resting : resting (tc_proxy w);
  ti_stmt : forall name s, prepared_statements (tc_proxy w) !! name = Some s -> stmt_ok name s;
  ti_agree : agree (prepared_statements (tc_proxy w)) (og_statements (tc_origin w))
               (og_statements (tc_direct w)) (tc_names w);
  ti_cache : cache_ok (describe_cache (tc_proxy w));
  ti_status : og_status (tc_origin w) = transaction_status (tc_proxy w) /\
              og_status (tc_direct w) = transaction_status (tc_proxy w);
  ti_skip : og_skip (tc_origin w) = false /\ og_skip (tc_direct w) = false;
  ti_received : tc_received w = tc_expected w;
}.

(** What a group leaves: the invariant but for what was received. *)
Definition group_left c o d (names : gset Bytes) : Prop :=
  resting c /\ (forall name s, prepared_statements c !! name = Some s -> stmt_ok name s) /\
  agree (prepared_statements c) (og_statements o) (og_statements d) names /\
  cache_ok (describe_cache c) /\
  (og_status o = transaction_status c /\ og_status d = transaction_status c) /\
  (og_skip o = false /\ og_skip d = false).

Lemma group_left_inv c o d names out :
  group_left c o d names <-> tc_inv (two_clients c o d names out out).
Proof.
  split; [intros (? & ? & ? & ? & ? & ?); by constructor|].
  intros [H1 H2 H3 H4 H5 H6 _]. exact (conj H1 (conj H2 (conj H3 (conj H4 (conj H5 H6))))).
Qed.

Lemma origin_receive_app settled ms ms' c :
  origin_receive settled (ms ++ ms') c = origin_receive settled ms' (origin_receive settled ms c).
Proof. apply foldl_app. Qed.

(** The exchange of a forwarded group whose last reply is a ReadyForQuery. *)
Lemma exchange_group db settled c c0 o rs fs ms out prep prep' parses describes i parses' describes' o' status :
  Forall2 frame_requests fs rs -> concat fs <> [] -> concat (cx_origin_write_buf c) = concat fs ->
  origin_run db rs o = (ms ++ [ready_message status], o') ->
  replying c0 i prep parses describes [] (origin_write_update (fun _ => []) c) ->
  (replying c0 i prep parses describes [] (origin_write_update (fun _ => []) c) ->
   replying c0 InterceptNone prep' parses' describes' out
     (origin_receive settled ms (origin_write_update (fun _ => []) c))) ->
  exists c', exchange to_lowercase lsn_parse db settled c o =
               Some (out ++ ready_for_query_message status, c', o') /\
    prepared_statements c' = prep' /\ transaction_status c' = status /\
    cache_ok (describe_cache c') /\ resting c'.
Proof.
  intros Hf Hne Hw Hrun R0 R. specialize (R R0). unfold exchange.
  rewrite Hw, (requests_of_frames fs rs) by done. cbn [mbind option_bind]. rewrite Hrun.
  rewrite origin_receive_app.
  destruct (replying_ready c0 prep' parses' describes' out _ settled status R)
    as (c' & E & P & S & C & H1 & H2 & H3 & H4 & H5 & H6 & H7 & H8).
  change (origin_receive settled [ready_message status] ?x) with (origin_message settled (ready_message status) x).
  fold (ready_message status) in E. rewrite E.
  exists c'. split; [done|]. by split_and!.
Qed.

(** ** The Sync *)

Lemma sync_buffer sync c0 c b :
  sends sync RqSync -> quiet_connection c0 -> kept c0 c -> ep_buffer (cx_extended c) = Some b ->
  exists c1, quiet_connection c1 /\ kept c0 c1 /\ prepared_statements c1 = prepared_statements c /\
    portals c1 = portals c /\
    client_message sync c =
      if cache_batch_eligible b c1 then cache_batch_dispatch (eb_entries b) c1
      else let '(answered, c2) := try_synthesize_parse_describe_response b c1 in
           if answered then c2 else extended_buffer_forward_to_origin b (pm_data sync) c2.
Proof.
  intros Hy Hq K Hb. apply sends_cases in Hy as Ht.
  exists (extended_update (buffer_set None) (extended_update (group_forwarded_set false) c)).
  destruct Hq, K. split_and!; [| |done|done|].
  - constructor; try done; cbn; congruence.
  - constructor; try done; cbn; congruence.
  - unfold handle_client_message. rewrite Ht. unfold handle_sync_message.
    replace (cx_flush_describe_pending c) with false by congruence.
    unfold deferred_close_completes_flush.
    replace (ep_deferred_close_completes (cx_extended c)) with 0%N by congruence.
    cbn [N.eqb]. cbv iota. cbn [cx_extended extended_update group_forwarded_set ep_buffer].
    rewrite Hb. done.
Qed.

(** A buffer forwarded with its Sync, no lazy Parse before it. *)
Lemma forward_plain b trailing c :
  quiet_connection c -> cache_ok (describe_cache c) -> forward_lazy_parse b c = None ->
  let c' := extended_buffer_forward_to_origin b trailing c in
  cx_origin_write_buf c' = [bytes_concat b ++ trailing] /\ cx_proxy_mode c' = ModeRead /\
  replying c InterceptNone (prepared_statements c) (parse_statements_all b) (describe_statements_all b) []
    (origin_write_update (fun _ => []) c').
Proof.
  intros [] Hc Hl. cbv zeta. unfold extended_buffer_forward_to_origin. rewrite Hl.
  destruct (effects_foldl_kept (buffer_effects b) c) as (K & P & X).
  set (c1 := foldl _ c (buffer_effects b)) in *. apply parts_split in P as (P1 & P2 & P3).
  destruct K. split_and!.
  - cbn. by rewrite kp_write0, qc_write0.
  - cbn. congruence.
  - constructor; cbn; try congruence; try done.
    + rewrite kp_egress0, qc_egress0. by exists [].
    + by eapply cache_ok_sub.
Qed.

(** A buffer whose first statement origin does not know goes behind the statement's Parse. *)
Lemma forward_lazy b trailing c name s f :
  quiet_connection c -> cache_ok (describe_cache c) -> forward_lazy_parse b c = Some name ->
  name <> [] -> prepared_statements c !! name = Some s -> pst_origin_prepared s = false ->
  pst_parse_bytes s = Some f ->
  let c' := extended_buffer_forward_to_origin b trailing c in
  cx_origin_write_buf c' = [f ++ []; bytes_concat b ++ trailing] /\ cx_proxy_mode c' = ModeRead /\
  replying c (InterceptLazyParseInline name) (prepared_statements c) (parse_statements_all b)
    (describe_statements_all b) [] (origin_write_update (fun _ => []) c').
Proof.
  intros [] Hc Hl Hne Hs Ho Hf. cbv zeta. unfold extended_buffer_forward_to_origin. rewrite Hl.
  unfold forward_lazy_parse_install. rewrite qc_intercept0, Hs, Ho, Hf.
  destruct (is_empty name) eqn:Ee; [by destruct name|].
  set (c0 := intercept_install _ _).
  destruct (effects_foldl_kept (buffer_effects b) c0) as (K & P & X).
  set (c1 := foldl _ c0 (buffer_effects b)) in *. apply parts_split in P as (P1 & P2 & P3).
  destruct K. split_and!.
  - cbn. rewrite kp_write0. cbn. by rewrite qc_write0.
  - cbn. by rewrite kp_mode0.
  - constructor; try done.
    + cbn. rewrite kp_egress0. cbn. rewrite qc_egress0. by exists [].
    + cbn. by rewrite kp_injected0; cbn; rewrite qc_injected0.
    + by eapply cache_ok_sub.
    + cbn. by rewrite kp_flush0.
    + cbn. by rewrite kp_mode0.
    + cbn. by rewrite X.
    + cbn. by rewrite X.
    + cbn. by rewrite X.
Qed.

(** ** Preparing a statement *)

Lemma wire_app ms ms' : wire (ms ++ ms') = wire ms ++ wire ms'.
Proof. unfold wire. by rewrite fmap_app, concat_app. Qed.

Lemma wire_single ty data : wire [backend ty data] = data.
Proof. unfold wire. cbn. apply app_nil_r. Qed.

Lemma sends_frames ms rs : Forall2 sends ms rs -> Forall2 frame_requests (pm_data <$> ms) rs.
Proof. induction 1 as [|m r ms rs [Hf _] _ IH]; by constructor. Qed.

Lemma sends_nonempty m r (ms : list Bytes) : sends m r -> concat (ms ++ [pm_data m]) <> [].
Proof.
  intros [[(tag & body & ty & -> & _) _] _]. rewrite concat_app. cbn. intros H.
  apply app_eq_nil in H as [_ H]. discriminate H.
Qed.

Lemma group_requests_sync g : group_requests g = removelast (group_requests g) ++ [RqSync].
Proof. unfold group_requests. by rewrite removelast_last. Qed.

(** The bytes of a forwarded buffer are the frames the client sent. *)
Lemma buffer_frames g ms sync (b : ExtendedBuffer Q) :
  Forall2 sends ms (removelast (group_requests g)) -> sends sync RqSync ->
  bytes_concat b = concat (pm_data <$> ms) ->
  Forall2 frame_requests ((pm_data <$> ms) ++ [pm_data sync]) (group_requests g) /\
  concat ((pm_data <$> ms) ++ [pm_data sync]) <> [] /\
  concat [bytes_concat b ++ pm_data sync] = concat ((pm_data <$> ms) ++ [pm_data sync]).
Proof.
  intros Hs Hy Hb. split_and!.
  - rewrite group_requests_sync. apply Forall2_app; [by apply sends_frames|]. constructor; [apply Hy|constructor].
  - by eapply sends_nonempty.
  - rewrite concat_app. cbn. by rewrite Hb, <- app_assoc.
Qed.

Lemma fresh_unknown names p c so sd :
  fresh_name names p -> agree (prepared_statements c) so sd names ->
  pp_statement_name p = [] \/
  (prepared_statements c !! pp_statement_name p = None /\ so !! pp_statement_name p = None /\
   sd !! pp_statement_name p = None).
Proof.
  intros [Hn|Hn] Ha; [by left|]. destruct (decide (pp_statement_name p = [])) as [|Hne]; [by left|].
  right. specialize (Ha _ Hne). unfold agree_at in Ha.
  destruct (prepared_statements c !! pp_statement_name p); [|by destruct Ha]. by destruct Ha.
Qed.

(** Statements and names after a Parse that origin and the direct origin both answered. *)
Lemma agree_parsed (p : ParsedParseMessage) s prep so sd names :
  agree prep so sd names -> def_of s = parsed_statement p ->
  pg_accepts (parsed_statement p) = true ->
  let name := pp_statement_name p in
  (pst_origin_prepared s = true ->
   agree (<[name := s]> prep) (<[name := def_of s]> so) (<[name := def_of s]> sd) ({[ name ]} ∪ names)) /\
  (pst_origin_prepared s = false -> name = [] \/ so !! name = None ->
   agree (<[name := s]> prep) so (<[name := def_of s]> sd) ({[ name ]} ∪ names)).
Proof.
  intros Ha Hd Hacc name. split; intros Ho; [|intros Hso];
    (eapply (agree_update name); [exact Ha| |]); try (intros i Hi; by rewrite !lookup_insert_ne by done; set_solver);
    intros Hne; unfold agree_at; rewrite !lookup_insert_eq, Ho, Hd.
  - split_and!; [set_solver|done|by left].
  - split_and!; [set_solver|by destruct Hso|by left].
Qed.

Lemma agree_rejected (p : ParsedParseMessage) s prep so sd names :
  agree prep so sd names -> pst_origin_prepared s = false ->
  let name := pp_statement_name p in
  agree (<[name := s]> prep) (delete name so) (delete name sd) ({[ name ]} ∪ names).
Proof.
  intros Ha Ho name. eapply (agree_update name); [exact Ha| |].
  - intros i Hi. rewrite lookup_insert_ne, !lookup_delete_ne by done. set_solver.
  - intros Hne. unfold agree_at. rewrite lookup_insert_eq, !lookup_delete_eq, Ho.
    split_and!; [set_solver|done|by right].
Qed.

Lemma stmts_insert (prep : gmap Bytes (PreparedStatement Q)) name s :
  (forall n s, prep !! n = Some s -> stmt_ok n s) -> stmt_ok name s ->
  forall n s', <[name := s]> prep !! n = Some s' -> stmt_ok n s'.
Proof.
  intros H Hs n s'. destruct (decide (n = name)) as [->|Hn].
  - rewrite lookup_insert_eq. by intros [= <-].
  - rewrite lookup_insert_ne by done. apply H.
Qed.

(** The outcome of a group against the direct connection. *)
Definition group_matches (res : option (Bytes * Conn * Origin)) (db : Statement -> ParsedBindMessage -> ExecResult)
    (g : Group) d (names : gset Bytes) : Prop :=
  exists c' o' replies d', res = Some (wire replies, c', o') /\
    origin_run db (group_requests g) d = (replies, d') /\ group_left c' o' d' (names_after g names).

Lemma group_matches_intro out c' o' db g d replies d' names :
  origin_run db (group_requests g) d = (replies, d') -> out = wire replies ->
  group_left c' o' d' (names_after g names) -> group_matches (Some (out, c', o')) db g d names.
Proof. intros H -> Hl. by exists c', o', replies, d'. Qed.

(** What the invariant gives a group at its Sync: [prep] are the statements it began with. *)
Record at_sync (prep : gmap Bytes (PreparedStatement Q)) o d (names : gset Bytes) c : Prop := {
  as_quiet : quiet_connection c;
  as_cache : cache_ok (describe_cache c);
  as_stmt : forall name s, prep !! name = Some s -> stmt_ok name s;
  as_agree : agree prep (og_statements o) (og_statements d) names;
  as_status_o : og_status o = transaction_status c;
  as_status_d : og_status d = transaction_status c;
  as_skip_o : og_skip o = false;
  as_skip_d : og_skip d = false;
}.

Lemma group_left_intro c' o' d' names so sd status :
  resting c' -> (forall name s, prepared_statements c' !! name = Some s -> stmt_ok name s) ->
  agree (prepared_statements c') so sd names -> cache_ok (describe_cache c') ->
  transaction_status c' = status -> origin_at o' so status -> origin_at d' sd status ->
  group_left c' o' d' names.
Proof.
  intros H1 H2 H3 H4 <- (<- & H5 & H6) (<- & H7 & H8).
  exact (conj H1 (conj H2 (conj H3 (conj H4 (conj (conj H5 H7) (conj H6 H8)))))).
Qed.

Definition prepare_buffer (p : ParsedParseMessage) (describe : bool) (ms : list FrontendMessage)
    : ExtendedBuffer Q :=
  {| eb_entries := []; eb_pending := prepare_segment p describe (pm_data <$> ms) |}.

Lemma prepare_forward db settled p describe ms sync data prep o d names c :
  at_sync prep o d names c -> fresh_name names p ->
  Forall2 sends ms (removelast (group_requests (GPrepare p describe))) -> sends sync RqSync ->
  frame_requests data (RqParse p) ->
  prepared_statements c = <[pp_statement_name p := statement_of p data]> prep ->
  name_free p o -> name_free p d ->
  group_matches
    (exchange to_lowercase lsn_parse db settled
       (extended_buffer_forward_to_origin (prepare_buffer p describe ms) (pm_data sync) c) o)
    db (GPrepare p describe) d names.
Proof.
  intros [] Hf Hs Hy Hdata Hprep Hno Hnd. set (b := prepare_buffer p describe ms).
  set (s := statement_of p data) in *. set (name := pp_statement_name p) in *.
  destruct (forward_plain b (pm_data sync) c as_quiet0 as_cache0) as (W & M & R); [done|].
  destruct (buffer_frames (GPrepare p describe) ms sync b Hs Hy) as (F1 & F2 & F3);
    [unfold bytes_concat, slices_concat; cbn; by rewrite app_nil_r|]. rewrite <- W in F3.
  rewrite Hprep in R. change (parse_statements_all b) with [name] in R.
  assert (Hso : stmt_ok name s) by by apply stmt_ok_new.
  destruct (origin_prepare db p describe o as_skip_o0 Hno) as (o' & Ho).
  destruct (origin_prepare db p describe d as_skip_d0 Hnd) as (d' & Hd).
  rewrite as_status_o0 in Ho. rewrite as_status_d0 in Hd.
  destruct (pg_accepts (parsed_statement p)) eqn:Ea; destruct Ho as [Eo Ho], Hd as [Ed Hd].
  - rewrite app_assoc in Eo.
    assert (Hr : exists s', stmt_ok name s' /\ def_of s' = def_of s /\ pst_origin_prepared s' = true /\
      replying c InterceptNone (<[name := s']> prep) [] []
        (wire ([backend BmParseComplete PARSE_COMPLETE_MSG] ++
               (if describe then describe_messages (parsed_statement p) else [])))
        (origin_receive settled ([backend BmParseComplete PARSE_COMPLETE_MSG] ++
               (if describe then describe_messages (parsed_statement p) else []))
           (origin_write_update (fun _ => [])
              (extended_buffer_forward_to_origin b (pm_data sync) c)))).
    { apply (replying_parse_complete c _ name [] _ _ _ settled) in R.
      assert (Hm : alter mark_prepared name (<[name:=s]> prep) = <[name := mark_prepared s]> prep).
      { apply map_eq. intros i. destruct (decide (i = name)) as [->|Hi];
          [by rewrite lookup_alter_eq, !lookup_insert_eq|by rewrite lookup_alter_ne, !lookup_insert_ne]. }
      rewrite Hm in R. rewrite origin_receive_app, wire_app, wire_single. destruct describe.
      - change (describe_statements_all b) with [name] in R.
        destruct (replying_describe _ _ _ _ (mark_prepared s) _ _ settled R)
          as (s' & H1 & H2 & H3 & R'); [apply lookup_insert_eq|by apply stmt_ok_mark|done|].
        rewrite insert_insert_eq in R'. exists s'. split_and!; [done|done|done|].
        unfold wire, describe_messages. cbn [fmap list_fmap concat pm_data backend].
        rewrite app_nil_r. exact R'.
      - exists (mark_prepared s). split_and!; [by apply stmt_ok_mark|done|done|].
        exact R. }
    destruct Hr as (s' & H1 & H2 & H3 & R').
    destruct (exchange_group db settled _ c o _ _ _ _ _ _ _ _ _ _ _ o' _ F1 F2
      F3 Eo R (fun _ => R')) as (c' & E & P & S & C & Rest).
    rewrite E. apply (group_matches_intro _ _ _ _ _ _ _ _ _ Ed).
    + rewrite app_assoc, (wire_app (_ ++ _)). unfold ready_message. by rewrite (wire_single BmReadyForQuery).
    + eapply group_left_intro; [done| |rewrite P|done|exact S|exact Ho|exact Hd].
      * rewrite P. by apply stmts_insert.
      * destruct (agree_parsed p s' prep (og_statements o) (og_statements d) names as_agree0) as [HA _];
          [by rewrite H2|done|]. specialize (HA H3). rewrite H2 in HA. exact HA.
  - apply (replying_neutral c _ _ _ _ _ settled (backend BmErrorResponse (pg_error (RqParse p)))) in R as R';
      [|by left].
    destruct (exchange_group db settled _ c o _ _ [_] _ _ _ _ _ _ _ _ o' _ F1 F2
      F3 Eo R (fun _ => R')) as (c' & E & P & S & C & Rest).
    rewrite E. apply (group_matches_intro _ _ _ _ _ _ _ _ _ Ed).
    + change (wire [?x; ?y]) with (pm_data x ++ pm_data y ++ []). by rewrite app_nil_r.
    + eapply group_left_intro; [done| |rewrite P|done|exact S|exact Ho|exact Hd].
      * rewrite P. by apply stmts_insert.
      * by apply (agree_rejected p s).
Qed.

Lemma at_sync_intro c o d names c1 :
  group_left c o d names -> quiet_connection c1 -> kept c c1 ->
  at_sync (prepared_statements c) o d names c1.
Proof.
  intros (H1 & H2 & H3 & H4 & (H5 & H6) & (H7 & H8)) Hq []. constructor; try done.
  - by eapply cache_ok_sub.
  - congruence.
  - congruence.
Qed.

(** A lookup in the description cache changes nothing that matters. *)
Lemma at_sync_lookup prep o d names c k :
  at_sync prep o d names c ->
  at_sync prep o d names (maps_with (describe_cache_update (fun _ => snd (lru_get k (describe_cache c)))) c).
Proof.
  intros []. constructor; try done.
  - destruct as_quiet0. by constructor.
  - intros k' e. unfold describe_cache. cbn. fold (describe_cache c). rewrite lru_get_keeps. apply as_cache0.
Qed.

(** The answer from a remembered description: the statement is filled in, the client gets what
    origin would say. *)
Lemma prepare_answered db p describe ms data prep o d names c e :
  at_sync prep o d names c ->
  frame_requests data (RqParse p) -> name_free p o -> name_free p d ->
  prepared_statements c = <[pp_statement_name p := statement_of p data]> prep ->
  transaction_status c = Idle ->
  fst (lru_get (describe_key (statement_of p data)) (describe_cache c)) = Some e ->
  let out := if bool_decide (sg_describe (eb_pending (prepare_buffer p describe ms)) = DescribeStatement)
             then de_describe_response e else PARSE_COMPLETE_RFQ_IDLE in
  let c' := egress_update (synth_push out)
              (maps_with (prepared_update (alter (describe_fill e) (pp_statement_name p))) c) in
  cx_proxy_mode c' = ModeRead /\ cx_origin_write_buf c' = [] /\
  group_matches ('(out, c'') ← client_receive c'; Some (out, c'', o)) db (GPrepare p describe) d names.
Proof.
  intros [] Hf Hno Hnd Hp Hst He out c'. set (name := pp_statement_name p) in *.
  set (s := statement_of p data) in *. assert (Hq := as_quiet0). destruct as_quiet0.
  split_and!; [done|done|].
  destruct (as_cache0 _ _ He) as [Ha ->]. change (key_statement _) with (parsed_statement p) in *.
  destruct (origin_prepare db p describe d as_skip_d0 Hnd) as (d' & Hd).
  rewrite Ha, as_status_d0, Hst in Hd. destruct Hd as [Ed Hd].
  assert (Hout : out = wire ([backend BmParseComplete PARSE_COMPLETE_MSG] ++
    (if describe then describe_messages (parsed_statement p) else []) ++ [ready_message Idle])).
  { unfold out. destruct describe; cbn [prepare_buffer eb_pending prepare_segment sg_describe]; [|done].
    rewrite bool_decide_true by done. unfold wire, describe_messages, describe_entry.
    cbn [fmap list_fmap app concat pm_data backend de_describe_response ready_message].
    rewrite app_nil_r. by destruct (snd (pg_describe (parsed_statement p))). }
  assert (Hrecv : client_receive c' = Some (out, egress_update (fun _ => []) c')).
  { unfold client_receive, c'. cbn [cx_egress egress_update maps_with session_update].
    rewrite qc_egress0, Hout. cbn. by rewrite ?app_nil_r. }
  rewrite Hrecv. cbn [mbind option_bind]. apply (group_matches_intro _ _ _ _ _ _ _ _ _ Ed Hout).
  set (c'' := egress_update (fun _ => []) c').
  assert (Hp' : prepared_statements c'' = <[name := describe_fill
      (describe_entry (fst (pg_describe (parsed_statement p))) (snd (pg_describe (parsed_statement p)))) s]> prep).
  { unfold prepared_statements, c'', c'. cbn. fold (prepared_statements c). rewrite Hp.
    apply map_eq. intros i. destruct (decide (i = name)) as [->|Hi];
      [by rewrite lookup_alter_eq, !lookup_insert_eq|by rewrite lookup_alter_ne, !lookup_insert_ne]. }
  eapply group_left_intro; [|rewrite Hp'|rewrite Hp'|done|exact Hst| |exact Hd].
  - constructor; try done. by left.
  - apply stmts_insert; [done|]. destruct (stmt_ok_new p data Hf). constructor; try done.
    + cbn. destruct (parse_parameter_description _) as [q|] eqn:Eq; [|done]. right. by exists q.
    + by intros pd [= <-].
  - by apply (agree_parsed p).
  - split_and!; [done|by rewrite as_status_o0|done].
Qed.

Lemma forward_mode b trailing c :
  cx_proxy_mode c = ModeRead -> forward_lazy_parse b c = None ->
  cx_proxy_mode (extended_buffer_forward_to_origin b trailing c) = ModeRead /\
  cx_origin_write_buf (extended_buffer_forward_to_origin b trailing c) <> [].
Proof.
  intros Hm Hl. unfold extended_buffer_forward_to_origin. rewrite Hl.
  destruct (effects_foldl_kept (buffer_effects b) c) as ([] & _ & _). cbn. split; [congruence|].
  intros H%app_eq_nil. by destruct H.
Qed.

(** What a group's Parse finds: nothing under its name. *)
Lemma fresh_free names p c o d :
  fresh_name names p -> agree (prepared_statements c) (og_statements o) (og_statements d) names ->
  name_free p o /\ name_free p d /\
  (pp_statement_name p = [] \/ prepared_statements c !! pp_statement_name p = None).
Proof.
  intros Hf Ha. unfold name_free. destruct (fresh_unknown names p c _ _ Hf Ha) as [|(? & ? & ?)]; auto.
Qed.

(** The Sync of a group is its last message. *)
Lemma sends_sync g ms :
  Forall2 sends ms (group_requests g) -> exists ms' sync, ms = ms' ++ [sync] /\ sends sync RqSync.
Proof.
  rewrite group_requests_sync. intros (ms' & ? & _ & Hy & ->)%Forall2_app_inv_r.
  apply Forall2_cons_inv_r in Hy as (sync & ? & Hy & ->%Forall2_nil_inv_r & ->). by exists ms', sync.
Qed.

Lemma synth_eligible_prepare p describe ms c n :
  synth_eligible (prepare_buffer p describe ms) c = Some n ->
  n = pp_statement_name p /\ transaction_status c = Idle.
Proof.
  unfold synth_eligible, connection_in_transaction, in_transaction.
  cbn [prepare_buffer eb_entries negb orb]. fold (transaction_status c).
  case_bool_decide as Hst; cbn; [|done]. unfold synth_parse_target. cbn.
  replace (bool_decide _) with false by (symmetry; apply bool_decide_eq_false; by destruct describe).
  cbn. destruct (is_empty (pp_statement_name p)); [done|]. cbn.
  destruct (prepared_statements c !! _) as [s|]; [|done]. cbn.
  destruct (pst_sql_type s); try done. by intros [= <-].
Qed.

Lemma prepare_group db settled says p describe ms c o d names :
  group_left c o d names -> may_send (GPrepare p describe) c d names ->
  Forall2 sends ms (group_requests (GPrepare p describe)) ->
  group_matches (group_run db settled says ms c o) db (GPrepare p describe) d names.
Proof.
  intros HG (Hi & _ & Hf) Hs. assert (HG' := HG). destruct HG' as (Hrest & _ & Hagr & _ & _ & _).
  pose proof (resting_quiet _ Hrest Hi) as Hq.
  destruct (fresh_free names p c o d Hf Hagr) as (Hno & Hnd & Hnc).
  destruct (sends_sync _ _ Hs) as (ms' & sync & -> & _).
  destruct (prepare_window p describe ms' sync c Hq Hs Hnc)
    as (c' & data & Hrun & Hy & K & Hs' & Hdata & P). apply parts_split in P as (P1 & P2 & P3).
  destruct (sync_buffer sync c c' _ Hy Hq K P3) as (c1 & Hq1 & K1 & R1 & R2 & E).
  rewrite P1 in R1. pose proof (at_sync_intro _ _ _ _ _ HG Hq1 K1) as HA.
  fold (prepare_buffer p describe ms') in E. rewrite <- Hrun in E.
  change (cache_batch_eligible _ c1) with false in E. cbv iota in E.
  assert (Hfwd : forall c2, at_sync (prepared_statements c) o d names c2 ->
    prepared_statements c2 = prepared_statements c1 ->
    client_run (ms' ++ [sync]) c =
      extended_buffer_forward_to_origin (prepare_buffer p describe ms') (pm_data sync) c2 ->
    group_matches (group_run db settled says (ms' ++ [sync]) c o) db (GPrepare p describe) d names).
  { intros c2 HA2 Hp2 Ec. rewrite group_run_exchange, Ec.
    - by apply (prepare_forward _ _ _ _ _ _ data (prepared_statements c)); rewrite ?Hp2.
    - rewrite Ec. apply forward_mode; [apply HA2|done].
    - rewrite Ec. apply forward_mode; [apply HA2|done]. }
  unfold try_synthesize_parse_describe_response in E.
  destruct (synth_eligible (prepare_buffer p describe ms') c1) as [n|] eqn:Es; [|by apply (Hfwd c1)].
  apply synth_eligible_prepare in Es as [-> Hst]. rewrite R1, lookup_insert_eq in E.
  set (s := statement_of p data) in *. fold (describe_cache c1) in E.
  destruct (lru_get (describe_key s) (describe_cache c1)) as [found cache] eqn:Eg.
  pose proof (at_sync_lookup _ _ _ _ _ (describe_key s) HA) as HA2. rewrite Eg in HA2. cbn [snd] in HA2.
  set (c2 := maps_with (describe_cache_update (fun _ => cache)) c1) in *.
  destruct found as [e|]; [|by apply (Hfwd c2)].
  destruct (prepare_answered db p describe ms' data (prepared_statements c) o d names c2 e) as (M & W & H);
    try done.
  { fold s. unfold describe_cache, c2. cbn. replace cache with (snd (lru_get (describe_key s) (describe_cache c1)))
      by by rewrite Eg. rewrite lru_get_keeps. by rewrite Eg. }
  rewrite group_run_local; rewrite E; [exact H|exact M|exact W].
Qed.

(** ** Running a statement *)

Lemma run_requests_group parse b describe :
  group_requests (GRun parse b describe) = (RqParse <$> option_list parse) ++ run_requests b describe.
Proof. unfold group_requests, run_requests. destruct parse, describe; done. Qed.

Lemma origin_run_app db rs rs' o :
  origin_run db (rs ++ rs') o =
  let '(ms, o1) := origin_run db rs o in
  let '(ms', o2) := origin_run db rs' o1 in (ms ++ ms', o2).
Proof.
  revert o. induction rs as [|r rs IH]; intros o; cbn [app origin_run].
  - by destruct (origin_run db rs' o).
  - destruct (origin_step db r o) as [ms1 o1]. rewrite IH.
    destruct (origin_run db rs o1) as [ms2 o2], (origin_run db rs' o2) as [ms3 o3].
    by rewrite app_assoc.
Qed.

(** A run of an accepted statement whose name is free: its Parse, then the rest. *)
Lemma origin_parse_run db p b describe o :
  og_skip o = false -> name_free p o -> pg_accepts (parsed_statement p) = true ->
  pb_statement_name b = pp_statement_name p -> pb_portal_name b = [] ->
  let '(ms, status) := run_answer db (parsed_statement p) b describe (og_status o) in
  exists o', origin_run db (RqParse p :: run_requests b describe) o =
      ((backend BmParseComplete PARSE_COMPLETE_MSG :: ms) ++ [ready_message status], o') /\
    origin_at o' (<[pp_statement_name p := parsed_statement p]> (og_statements o)) status.
Proof.
  intros Hk Hn Ha Hb Hp. pose proof (origin_parse db p o Hk Hn) as Ep. rewrite Ha in Ep.
  set (o1 := origin_with _ _ o) in Ep.
  pose proof (origin_run_bound db (parsed_statement p) b describe o1 Hk) as H.
  change (og_status o1) with (og_status o) in H.
  destruct (run_answer db (parsed_statement p) b describe (og_status o)) as [ms status].
  destruct H as (o' & E & Ho'); [rewrite Hb; apply lookup_insert_eq|done|].
  exists o'. cbn [origin_run]. rewrite Ep, E. done.
Qed.

Lemma origin_parse_fails db p b describe o :
  og_skip o = false -> name_free p o -> pg_accepts (parsed_statement p) = false ->
  exists o', origin_run db (RqParse p :: run_requests b describe) o =
      ([backend BmErrorResponse (pg_error (RqParse p)); ready_message (failed_status (og_status o))], o') /\
    origin_at o' (delete (pp_statement_name p) (og_statements o)) (failed_status (og_status o)).
Proof.
  intros Hk Hn Ha. pose proof (origin_parse db p o Hk Hn) as Ep. rewrite Ha in Ep.
  replace (run_requests b describe) with
    (removelast (run_requests b describe) ++ [RqSync]) by by destruct describe.
  eapply origin_fail_run; [done|exact Ep|done|done|by destruct describe; repeat constructor].
Qed.

Lemma alter_insert_same {A} (f : A -> A) (n : Bytes) (x : A) (m : gmap Bytes A) :
  alter f n (<[n := x]> m) = <[n := f x]> m.
Proof.
  apply map_eq. intros i. destruct (decide (i = n)) as [->|Hi].
  - by rewrite lookup_alter_eq, !lookup_insert_eq.
  - by rewrite lookup_alter_ne, !lookup_insert_ne.
Qed.

Lemma alter_lookup_insert {A} (f : A -> A) (n : Bytes) (x : A) (m : gmap Bytes A) :
  m !! n = Some x -> alter f n m = <[n := f x]> m.
Proof. intros H. rewrite <- alter_insert_same. by rewrite insert_id. Qed.

Section Forwarded.
Context (db : Statement -> ParsedBindMessage -> ExecResult) (settled : option N)
  (Hdb : db_answers db) (b : ParsedBindMessage) (describe : bool) (Hpb : pb_portal_name b = []).

(** A run with its Parse, forwarded: [c] is the connection as it was at the Sync, [cf] once the
    bytes are queued. *)
Lemma run_parse_forwarded p data prep o d names c cf fs :
  at_sync prep o d names c -> name_free p o -> name_free p d ->
  frame_requests data (RqParse p) -> pb_statement_name b = pp_statement_name p ->
  Forall2 frame_requests fs (group_requests (GRun (Some p) b describe)) -> concat fs <> [] ->
  concat (cx_origin_write_buf cf) = concat fs ->
  replying c InterceptNone (<[pp_statement_name p := statement_of p data]> prep) [pp_statement_name p] [] []
    (origin_write_update (fun _ => []) cf) ->
  group_matches (exchange to_lowercase lsn_parse db settled cf o) db (GRun (Some p) b describe) d names.
Proof.
  intros [] Hno Hnd Hdata Hb F1 F2 F3 R. set (s := statement_of p data) in *. set (name := pp_statement_name p) in *.
  rewrite run_requests_group in F1. cbn [option_list fmap list_fmap app] in F1.
  assert (Hso : stmt_ok name s) by by apply stmt_ok_new.
  destruct (pg_accepts (parsed_statement p)) eqn:Ea.
  - pose proof (origin_parse_run db p b describe o as_skip_o0 Hno Ea Hb Hpb) as Ho.
    pose proof (origin_parse_run db p b describe d as_skip_d0 Hnd Ea Hb Hpb) as Hd.
    rewrite as_status_o0 in Ho. rewrite as_status_d0 in Hd.
    pose proof (run_answer_neutral db (parsed_statement p) b describe (transaction_status c) Hdb) as Hneu.
    destruct (run_answer db (parsed_statement p) b describe (transaction_status c)) as [ms status].
    destruct Ho as (o' & Eo & Ho), Hd as (d' & Ed & Hd). cbn [fst] in Hneu.
    destruct (exchange_group db settled cf c o _ _ _ (PARSE_COMPLETE_MSG ++ wire ms)
      _ (<[name := mark_prepared s]> prep) _ _ _ [] [] o' _ F1 F2 F3 Eo R) as (c' & E & P & S & C & Rest).
    { intros _. apply (replying_parse_complete c _ name [] _ _ _ settled) in R.
      rewrite alter_insert_same in R. by apply (replying_neutrals _ _ _ _ _ settled ms) in R. }
    rewrite E. apply (group_matches_intro _ _ _ _ _ _ ((backend BmParseComplete PARSE_COMPLETE_MSG :: ms)
      ++ [ready_message status]) d').
    + by rewrite run_requests_group.
    + rewrite wire_app. unfold ready_message. by rewrite (wire_single BmReadyForQuery).
    + eapply group_left_intro; [done|rewrite P|rewrite P|done|exact S|exact Ho|exact Hd].
      * apply stmts_insert; [done|by apply stmt_ok_mark].
      * destruct (agree_parsed p (mark_prepared s) prep (og_statements o) (og_statements d) names as_agree0)
          as [HA _]; [done|done|]. by apply HA.
  - destruct (origin_parse_fails db p b describe o as_skip_o0 Hno Ea) as (o' & Eo & Ho).
    destruct (origin_parse_fails db p b describe d as_skip_d0 Hnd Ea) as (d' & Ed & Hd).
    rewrite as_status_o0 in Eo, Ho. rewrite as_status_d0 in Ed, Hd.
    apply (replying_neutral c _ _ _ _ _ settled (backend BmErrorResponse (pg_error (RqParse p)))) in R as R';
      [|by left].
    destruct (exchange_group db settled cf c o _ _ [_] _ _ _ _ _ _ _ _ o' _ F1 F2 F3 Eo R (fun _ => R'))
      as (c' & E & P & S & C & Rest).
    rewrite E. apply (group_matches_intro _ _ _ _ _ _ [backend BmErrorResponse (pg_error (RqParse p));
      ready_message (failed_status (transaction_status c))] d').
    + by rewrite run_requests_group.
    + change (wire [?x; ?y]) with (pm_data x ++ pm_data y ++ []). by rewrite app_nil_r.
    + eapply group_left_intro; [done|rewrite P|rewrite P|done|exact S|exact Ho|exact Hd].
      * by apply stmts_insert.
      * by apply (agree_rejected p s).
Qed.

(** A run of a statement prepared earlier, with the lazy Parse when origin lacks it. *)
Lemma run_bound_forwarded prep o d names c cf fs s lazy :
  let name := pb_statement_name b in
  at_sync prep o d names c -> name <> [] -> prep !! name = Some s -> is_Some (og_statements d !! name) ->
  lazy = (if pst_origin_prepared s then [] else option_list (pst_parse_bytes s)) ->
  Forall2 frame_requests fs (group_requests (GRun None b describe)) -> concat fs <> [] ->
  concat (cx_origin_write_buf cf) = concat (lazy ++ fs) ->
  replying c (if pst_origin_prepared s then InterceptNone else InterceptLazyParseInline name) prep [] [] []
    (origin_write_update (fun _ => []) cf) ->
  group_matches (exchange to_lowercase lsn_parse db settled cf o) db (GRun None b describe) d names.
Proof.
  intros name [] Hne Hs Hd Hl F1 F2 F3 R. rewrite run_requests_group in F1. cbn [option_list fmap list_fmap app] in F1.
  assert (Hag := as_agree0 name Hne). rewrite Hs in Hag. destruct Hag as (Hin & Hao & Had).
  destruct Hd as [st Hst]. destruct Had as [[Had Hacc]|[Had _]]; [|by rewrite Had in Hst].
  assert (Hso := as_stmt0 _ _ Hs). clear st Hst.
  pose proof (origin_run_bound db (def_of s) b describe d as_skip_d0 Had Hpb) as Hrd.
  rewrite as_status_d0 in Hrd.
  pose proof (run_answer_neutral db (def_of s) b describe (transaction_status c) Hdb) as Hneu.
  destruct (pst_origin_prepared s) eqn:Eo.
  - pose proof (origin_run_bound db (def_of s) b describe o as_skip_o0 Hao Hpb) as Hro. rewrite as_status_o0 in Hro.
    destruct (run_answer db (def_of s) b describe (transaction_status c)) as [ms status]. cbn [fst] in Hneu.
    destruct Hro as (o' & Ero & Ho), Hrd as (d' & Erd & Hd). rewrite Hl in F3. cbn [app] in F3.
    destruct (exchange_group db settled cf c o _ _ _ (wire ms) _ prep _ _ _ [] [] o' _ F1 F2 F3 Ero R)
      as (c' & E & P & S & C & Rest).
    { intros _. by apply (replying_neutrals _ _ _ _ _ settled ms) in R. }
    rewrite E. apply (group_matches_intro _ _ _ _ _ _ (ms ++ [ready_message status]) d').
    + by rewrite run_requests_group.
    + rewrite wire_app. unfold ready_message. by rewrite (wire_single BmReadyForQuery).
    + eapply group_left_intro; [done|by rewrite P|rewrite P|done|exact S|exact Ho|exact Hd]. done.
  - destruct (so_parse _ _ Hso) as (f & Ef & Hf). rewrite Ef in Hl. cbn [option_list] in Hl. subst lazy.
    set (p := Build_ParsedParseMessage _ _ _) in Hf.
    assert (Ea : pg_accepts (parsed_statement p) = true) by done.
    pose proof (origin_parse_run db p b describe o as_skip_o0 (or_intror Hao) Ea eq_refl Hpb) as Hro.
    rewrite as_status_o0 in Hro. change (parsed_statement p) with (def_of s) in *.
    destruct (run_answer db (def_of s) b describe (transaction_status c)) as [ms status]. cbn [fst] in Hneu.
    destruct Hro as (o' & Ero & Ho), Hrd as (d' & Erd & Hd).
    assert (F1' : Forall2 frame_requests (f :: fs) (RqParse p :: run_requests b describe)) by by constructor.
    assert (F2' : concat (f :: fs) <> []) by (cbn; intros H%app_eq_nil; by destruct H).
    destruct (exchange_group db settled cf c o _ _ _ (wire ms) _ (<[name := mark_prepared s]> prep)
      _ _ _ [] [] o' _ F1' F2' F3 Ero R) as (c' & E & P & S & C & Rest).
    { intros _. apply (replying_lazy_parse c _ name _ _ _ _ settled) in R.
      rewrite (alter_lookup_insert _ _ _ _ Hs) in R. by apply (replying_neutrals _ _ _ _ _ settled ms) in R. }
    rewrite E. apply (group_matches_intro _ _ _ _ _ _ (ms ++ [ready_message status]) d').
    + by rewrite run_requests_group.
    + rewrite wire_app. unfold ready_message. by rewrite (wire_single BmReadyForQuery).
    + eapply group_left_intro; [done|rewrite P|rewrite P|done|exact S|exact Ho|exact Hd].
      * apply stmts_insert; [done|by apply stmt_ok_mark].
      * eapply (agree_update name); [exact as_agree0| |].
        -- intros i Hi. by rewrite !lookup_insert_ne.
        -- intros _. rewrite !lookup_insert_eq. split_and!; [done|done|by left].
Qed.

End Forwarded.

(** *** The dispatch to the cache *)

(** The one read of a batch, dispatched: its slot is the queue, the rest as it was in [c0]. *)
Record dispatched c0 (parses : list Bytes) (lazy : option Bytes) c : Prop := {
  dp_slot : exists msg serving, cx_egress c = [SlotCache msg serving];
  dp_intercept : cs_origin_intercept (cx_session c) = InterceptNone;
  dp_injected : cs_injected (cx_session c) = [];
  dp_prepared : prepared_statements c = prepared_statements c0;
  dp_cache : describe_cache c = describe_cache c0;
  dp_status : transaction_status c = transaction_status c0;
  dp_write : cx_origin_write_buf c = [];
  dp_flush : cx_flush_describe_pending c = false;
  dp_parses : ep_pending_parse_statements (cx_extended c) = parses;
  dp_describes : ep_pending_describe_statements (cx_extended c) = [];
  dp_lazy : ep_pending_lazy_parse (cx_extended c) = lazy;
  dp_batch : ep_batch (cx_extended c) = [];
  dp_extended : ep_dispatch_is_extended (cx_extended c) = true;
  dp_closes : ep_deferred_close_completes (cx_extended c) = 0%N;
  dp_group : ep_group_origin_forwarded (cx_extended c) = false;
  dp_buffer : ep_buffer (cx_extended c) = None;
}.

(** What the forward of a dispatched read queues for origin. *)
Lemma dispatched_forward c0 parses c bytes :
  dispatched c0 parses None c -> cache_ok (describe_cache c0) ->
  let c' := forward_current_and_rest bytes c in
  cx_origin_write_buf c' = [bytes; SYNC_MESSAGE] /\
  replying c0 InterceptNone (prepared_statements c0) parses [] [] (origin_write_update (fun _ => []) c').
Proof.
  intros [] Hc. cbv zeta. destruct dp_slot0 as (msg & sv & He).
  unfold forward_current_and_rest, batch_remaining_forward. cbn.
  rewrite dp_lazy0. cbn. rewrite dp_batch0. cbn. rewrite dp_extended0. cbn.
  split; [by rewrite dp_write0|]. constructor; try done.
  - cbn. rewrite He. by exists [].
  - by rewrite <- dp_cache0 in Hc.
Qed.

Lemma dispatched_forward_lazy c0 parses name s f c bytes :
  dispatched c0 parses (Some name) c -> cache_ok (describe_cache c0) -> name <> [] ->
  prepared_statements c0 !! name = Some s -> pst_origin_prepared s = false -> pst_parse_bytes s = Some f ->
  let c' := forward_current_and_rest bytes c in
  cx_origin_write_buf c' = [f ++ []; bytes; SYNC_MESSAGE] /\
  replying c0 (InterceptLazyParseInline name) (prepared_statements c0) parses [] []
    (origin_write_update (fun _ => []) c').
Proof.
  intros [] Hc Hne Hs Ho Hf. cbv zeta. destruct dp_slot0 as (msg & sv & He).
  unfold forward_current_and_rest, batch_remaining_forward. cbn. rewrite dp_lazy0. cbn.
  unfold forward_lazy_parse_install. cbn. rewrite dp_intercept0.
  change (prepared_statements (extended_update _ _)) with (prepared_statements c).
  rewrite dp_prepared0, Hs, Ho, Hf. destruct (is_empty name) eqn:Ee; [by destruct name|]. cbn.
  rewrite dp_batch0. cbn. rewrite dp_extended0. cbn.
  split; [by rewrite dp_write0|]. constructor; try done.
  - cbn. rewrite He. by exists [].
  - cbn. by rewrite dp_injected0.
  - by rewrite <- dp_cache0 in Hc.
Qed.

(** The drain of a dispatched read: it is forwarded, or leased to the cache. *)
Inductive drains c0 parses lazy (msg : CacheMessage Q Spec) (pl : Pipeline) : Drained -> Prop :=
| drains_forwarded c : dispatched c0 parses lazy c ->
    drains c0 parses lazy msg pl
      (DrainForwarded (forward_current_and_rest (slices_concat (pl_buffered_bytes pl)) c))
| drains_leased path c : dispatched c0 parses lazy c -> transaction_status c0 <> Failed ->
    drains c0 parses lazy msg pl (DrainLeased msg (Some pl) path (transaction_status c0) c).

Lemma drain_cases settled c0 parses lazy msg pl c :
  dispatched c0 parses lazy c -> cx_egress c = [SlotCache (Some msg) false] ->
  ep_pipeline_context (cx_extended c) = Some pl ->
  drains c0 parses lazy msg pl (origin_drain read_of settled c).
Proof.
  intros Hd He Hp. unfold origin_drain. rewrite He. cbn [cache_dispatch fst snd].
  set (c1 := egress_update (fun _ => [SlotCache None true]) c).
  assert (H1 : dispatched c0 parses lazy c1) by (destruct Hd; constructor; eauto).
  assert (Hf : forall c2, dispatched c0 parses lazy c2 -> ep_pipeline_context (cx_extended c2) = Some pl ->
    drains c0 parses lazy msg pl (DrainForwarded (cache_slot_forward_to_origin msg c2))).
  { intros c2 H2 Hp2. unfold cache_slot_forward_to_origin. rewrite Hp2. constructor.
    destruct H2; by constructor. }
  change (cs_search_path_state (cx_session c1)) with (cs_search_path_state (cx_session c)).
  change (cs_isolation (cx_session c1)) with (cs_isolation (cx_session c)).
  assert (Hs : forall x, transaction_serve_check (cs_isolation (cx_session c)) = inr x ->
    transaction_status c0 <> Failed).
  { intros x Hx Hfail. rewrite <- (dp_status _ _ _ _ Hd) in Hfail.
    unfold transaction_status in Hfail. unfold transaction_serve_check in Hx. by rewrite Hfail in Hx. }
  destruct (match cs_search_path_state (cx_session c) with PathUnknown => _ | PathResolved p => _ end);
    [|by apply Hf].
  destruct (transaction_serve_check _) as [|x]; [by apply Hf|].
  destruct (drain_gate read_of settled msg _) as [log [|]].
  - set (c2 := session_update _ c1).
    assert (H2 : dispatched c0 parses lazy (extended_update (pipeline_set None) c2))
      by (destruct H1; by constructor).
    change (ep_pipeline_context (cx_extended c2)) with (ep_pipeline_context (cx_extended c)). rewrite Hp.
    change (transaction_status c2) with (transaction_status c). rewrite (dp_status _ _ _ _ Hd).
    constructor; [done|by eapply Hs].
  - apply Hf; [|done]. destruct H1; by constructor.
Qed.

(** The end of a served read. *)
Lemma dispatched_complete c0 parses lazy c :
  dispatched c0 parses lazy c ->
  let c' := handle_cache_outcome OutComplete c in
  resting c' /\ prepared_statements c' = prepared_statements c0 /\
  describe_cache c' = describe_cache c0 /\ transaction_status c' = transaction_status c0.
Proof.
  intros []. destruct dp_slot0 as (msg & sv & He). cbv zeta.
  unfold handle_cache_outcome, cache_batch_advance. cbn. rewrite dp_batch0.
  split_and!; [|done|done|done]. constructor; try done; [cbn; by rewrite He|by left].
Qed.

(** *** The Sync of a run *)

Lemma sync_message_requests : frame_requests SYNC_MESSAGE RqSync.
Proof. apply (frame_request x53 [] FmSync); [done|by vm_compute|done]. Qed.

Lemma concat_forwarded (datas : list Bytes) (sync : Bytes) :
  concat [slices_concat datas; sync] = concat (datas ++ [sync]).
Proof. rewrite concat_app. reflexivity. Qed.

Lemma concat_lazy (f : Bytes) (datas : list Bytes) (sync : Bytes) :
  concat [f ++ []; slices_concat datas; sync] = concat ([f] ++ datas ++ [sync]).
Proof. cbn [concat app]. rewrite concat_app, (app_nil_r f). reflexivity. Qed.

Section Run.
Context (db : Statement -> ParsedBindMessage -> ExecResult) (settled : option N) (Hdb : db_answers db)
  (parse : option ParsedParseMessage) (b : ParsedBindMessage) (describe : bool) (Hpb : pb_portal_name b = [])
  (prep : gmap Bytes (PreparedStatement Q)) (o d : Origin) (names : gset Bytes) (c : Conn)
  (s : PreparedStatement Q) (data : Bytes) (datas : list Bytes).
Notation g := (GRun parse b describe).

(** At its Sync a run has stored its Parse, if it sent one, and bound the unnamed portal. *)
Record run_at_sync : Prop := {
  ra_sync : at_sync prep o d names c;
  ra_prepared : prepared_statements c = run_statements parse data prep;
  ra_portal : portals c !! [] = Some (bound_portal b);
  ra_frames : Forall2 frame_requests datas (removelast (group_requests g));
  ra_parse :
    match parse with
    | Some p => name_free p o /\ name_free p d /\ frame_requests data (RqParse p) /\
                pb_statement_name b = pp_statement_name p
    | None => pb_statement_name b <> [] /\ prep !! pb_statement_name b = Some s /\
              is_Some (og_statements d !! pb_statement_name b)
    end;
}.
Hypothesis Hrun : run_at_sync.

(** The statement it runs. *)
Definition run_statement : PreparedStatement Q :=
  match parse with Some p => statement_of p data | None => s end.

(** The statement origin must be sent a Parse of first. *)
Definition run_lazy : option Bytes :=
  if bool_decide (parse = None) && negb (pst_origin_prepared s) then Some (pb_statement_name b) else None.

Definition lazy_bytes : list Bytes :=
  match run_lazy with Some _ => option_list (pst_parse_bytes s) | None => [] end.

Definition lazy_intercept : OriginIntercept :=
  match run_lazy with Some name => InterceptLazyParseInline name | None => InterceptNone end.

Lemma run_forwarded cf sync :
  frame_requests sync RqSync ->
  concat (cx_origin_write_buf cf) = concat (lazy_bytes ++ datas ++ [sync]) ->
  replying c lazy_intercept (prepared_statements c) (pp_statement_name <$> option_list parse) [] []
    (origin_write_update (fun _ => []) cf) ->
  group_matches (exchange to_lowercase lsn_parse db settled cf o) db g d names.
Proof.
  intros Hy W R. destruct Hrun as [HA Hp _ Hf Hparse]. rewrite Hp in R.
  assert (F1 : Forall2 frame_requests (datas ++ [sync]) (group_requests g))
    by (rewrite group_requests_sync; apply Forall2_app; [done|by constructor]).
  assert (F2 : concat (datas ++ [sync]) <> []).
  { destruct Hy as [(tag & body & ty & -> & _) _]. rewrite concat_app. intros H%app_eq_nil.
    destruct H as [_ H]. discriminate H. }
  unfold lazy_bytes, lazy_intercept, run_lazy in *. destruct parse as [p|].
  - destruct Hparse as (Hno & Hnd & Hdata & Hb).
    by apply (run_parse_forwarded _ _ Hdb _ _ Hpb p data prep o d names c cf (datas ++ [sync])).
  - destruct Hparse as (Hne & Hs & Hd). cbn in R.
    apply (run_bound_forwarded db settled Hdb b describe Hpb prep o d names c cf (datas ++ [sync]) s
      (if pst_origin_prepared s then [] else option_list (pst_parse_bytes s))); try done.
    + rewrite W. by destruct (pst_origin_prepared s).
    + by destruct (pst_origin_prepared s).
Qed.

(** A statement to parse first is one origin lacks and whose Parse was kept. *)
Lemma run_lazy_some name :
  run_lazy = Some name ->
  name = pb_statement_name b /\ name <> [] /\ prepared_statements c !! name = Some s /\
  pst_origin_prepared s = false /\ exists f, pst_parse_bytes s = Some f /\ lazy_bytes = [f].
Proof.
  destruct Hrun as [HA Hp _ _ Hparse]. unfold lazy_bytes. intros H. rewrite H. unfold run_lazy in H.
  case_bool_decide as E; [|done]. rewrite E in *. destruct Hparse as (Hne & Hs & _).
  destruct (pst_origin_prepared s) eqn:Eo; [done|]. injection H as <-. rewrite Hp.
  destruct (so_parse _ _ (as_stmt _ _ _ _ _ HA _ _ Hs)) as (f & Ef & _).
  split_and!; try done. exists f. by rewrite Ef.
Qed.

(** The dispatched run, forwarded after all. *)
Lemma run_dispatched_forward cd :
  dispatched c (pp_statement_name <$> option_list parse) run_lazy cd ->
  group_matches (exchange to_lowercase lsn_parse db settled
    (forward_current_and_rest (slices_concat datas) cd) o) db g d names.
Proof.
  intros Hd. destruct run_lazy as [name|] eqn:El.
  - destruct (run_lazy_some name El) as (-> & Hne & Hs & Ho & f & Hf & Hl).
    destruct (dispatched_forward_lazy _ _ _ _ _ _ (slices_concat datas) Hd (as_cache _ _ _ _ _ (ra_sync Hrun))
      Hne Hs Ho Hf) as [W R].
    apply (run_forwarded _ SYNC_MESSAGE sync_message_requests).
    + rewrite W, Hl. apply concat_lazy.
    + unfold lazy_intercept. by rewrite El.
  - destruct (dispatched_forward _ _ _ (slices_concat datas) Hd (as_cache _ _ _ _ _ (ra_sync Hrun))) as [W R].
    apply (run_forwarded _ SYNC_MESSAGE sync_message_requests).
    + unfold lazy_bytes. rewrite W, El. apply concat_forwarded.
    + unfold lazy_intercept. by rewrite El.
Qed.

(** The entry of the batch, the read it asks the cache and the pipeline it stands for. *)
Definition run_entry (effects : StatementEffects) : ExecuteEntry Q :=
  {| ee_prep := run_segment parse describe datas; ee_portal_name := Some [];
     ee_candidate := candidate_of run_statement b; ee_effects := effects |}.

Definition run_message (query : Q) : CacheMessage Q Spec :=
  CmQueryParameterized [] query (portal_parameters (bound_portal b) run_statement) (pb_result_formats b).

Definition run_pipeline : Pipeline :=
  {| pl_context := {| pc_emit_rfq := true; pc_has_parse := bool_decide (is_Some parse);
                      pc_has_bind := true;
                      pc_describe := if describe then DescribePortal else DescribeNone |};
     pl_buffered_bytes := datas; pl_parameter_description := None |}.

Lemma candidate_some cand :
  candidate_of run_statement b = Some cand ->
  exists query, pst_sql_type run_statement = TyCacheable query /\
    cand = {| cd_cacheable_query := query;
              cd_parameters := portal_parameters (bound_portal b) run_statement;
              cd_result_formats := pb_result_formats b; cd_parameter_description := None;
              cd_statement_name := pb_statement_name b;
              cd_origin_prepared := pst_origin_prepared run_statement |}.
Proof.
  unfold candidate_of. destruct (pb_result_formats b), (pst_sql_type run_statement) as [query| | |];
    try done; intros [= <-]; by exists query.
Qed.

Lemma run_dispatch effects cand :
  candidate_of run_statement b = Some cand ->
  exists query, pst_sql_type run_statement = TyCacheable query /\
  let cd := cache_batch_dispatch [run_entry effects] c in
  dispatched c (pp_statement_name <$> option_list parse) run_lazy cd /\
  cx_egress cd = [SlotCache (Some (run_message query)) false] /\
  ep_pipeline_context (cx_extended cd) = Some run_pipeline /\ cx_proxy_mode cd = ModeOriginDrain.
Proof.
  intros Hc. destruct (candidate_some cand Hc) as (query & Hty & ->). exists query. split; [done|].
  cbv zeta. unfold cache_batch_dispatch. cbn [batch_contexts run_entry ee_candidate]. rewrite Hc.
  destruct Hrun as [[[]] Hp _ _ Hparse].
  assert (He : cx_egress (egress_update (cache_push (run_message query)) c) =
    [SlotCache (Some (run_message query)) false]) by (cbn; by rewrite qc_egress0).
  split_and!; [|exact He|done|done].
  constructor; try done; [by eexists _, _| | ].
  - cbn. unfold run_segment. by destruct parse.
  - cbn. unfold run_lazy, lazy_parse_needed, run_statement. cbn. destruct parse as [p|]; [done|].
    destruct Hparse as (Hne & _ & _). rewrite bool_decide_false by (intros H; by destruct H).
    rewrite (bool_decide_true (None = None)) by done. cbn.
    destruct (is_empty (pb_statement_name b)) eqn:Ee; [by destruct (pb_statement_name b)|].
    by rewrite andb_true_r.
Qed.

(** The statement as the direct connection has it. *)
Lemma run_known :
  stmt_ok (pb_statement_name b) run_statement /\ group_bind g d = Some (def_of run_statement, b).
Proof.
  destruct Hrun as [HA _ _ _ Hparse]. unfold run_statement. destruct parse as [p|].
  - destruct Hparse as (_ & _ & Hdata & ->). split; [by apply stmt_ok_new|done].
  - destruct Hparse as (Hne & Hs & [st Hst]). split; [by apply (as_stmt _ _ _ _ _ HA)|].
    pose proof (as_agree _ _ _ _ _ HA _ Hne) as Hag. rewrite Hs in Hag.
    destruct Hag as (_ & _ & [[Hd _]|[Hd _]]); [|by rewrite Hd in Hst]. cbn. by rewrite Hd.
Qed.

Lemma run_asks query :
  pst_sql_type run_statement = TyCacheable query ->
  asks (run_message query) (def_of run_statement) b.
Proof.
  intros Hty. destruct run_known as [[H1 _ H3 _] _].
  exists query, (pst_parameter_oids run_statement). split_and!; [|done|done].
  rewrite H1 in Hty. unfold analysis in Hty. cbn.
  by destruct (analyze (pst_sql run_statement)) as [[[] e|q|sp]|]; simplify_eq/=.
Qed.

(** Origin's answer to the run when the cache may serve it. *)
Lemma run_served_answer status rows rd cc :
  serves_current db status (def_of run_statement) b rows rd cc -> transaction_status c = status ->
  exists replies d', origin_run db (group_requests g) d = (replies, d') /\
    wire replies = served_bytes run_pipeline status rows rd cc /\
    origin_at d' (match parse with
                  | Some p => <[pp_statement_name p := def_of run_statement]> (og_statements d)
                  | None => og_statements d
                  end) status.
Proof.
  intros (Hacc & Hbind & Hrow & Hwire & Hok & Hst) Hc. destruct Hrun as [[] _ _ _ Hparse].
  set (body := [backend BmBindComplete BIND_COMPLETE_MSG] ++
     (if describe then [row_message (pg_portal_row (def_of run_statement) b)] else []) ++
     xr_messages (db (def_of run_statement) b)).
  assert (Hans : forall st, run_answer db (def_of run_statement) b describe st = (body, status))
    by (intros st; unfold run_answer; by rewrite Hbind, Hst).
  assert (Hbody : wire body = BIND_COMPLETE_MSG ++ (if describe then frame x54 rd else []) ++
    concat rows ++ frame x43 cc).
  { unfold body. rewrite !wire_app, Hwire, wire_single, Hrow. destruct describe; [|done].
    cbn [row_message]. by rewrite wire_single. }
  assert (Hserved : served_bytes run_pipeline status rows rd cc =
    (if parse then PARSE_COMPLETE_MSG else []) ++ wire body ++ ready_for_query_message status).
  { rewrite Hbody. unfold served_bytes, serve_request, serve_head, owed, owed_rows, request_pd, run_pipeline.
    cbn [sq_has_parse sq_has_bind sq_include_describe sq_pipeline_describe sq_parameter_description
         sq_trailing_rfq pl_context pc_has_parse pc_has_bind pc_describe pc_emit_rfq].
    destruct parse, describe; cbn [is_Some bool_decide negb default]; by rewrite <- ?app_assoc. }
  rewrite Hserved, run_requests_group. clear Hrow Hwire Hserved.
  pose proof run_known as [_ Hb]. unfold run_statement in *.
  destruct parse as [p|]; cbn [option_list fmap list_fmap app].
  - destruct Hparse as (_ & Hnd & _ & Hname).
    pose proof (origin_parse_run db p b describe d as_skip_d0 Hnd Hacc Hname Hpb) as H.
    change (parsed_statement p) with (def_of (statement_of p data)) in H. rewrite Hans in H.
    destruct H as (d' & E & Hd). exists ((backend BmParseComplete PARSE_COMPLETE_MSG :: body) ++ [ready_message status]), d'.
    split_and!; [exact E| |apply Hd..]. change (wire ((?x :: body) ++ ?l)) with (pm_data x ++ wire (body ++ l)).
    rewrite wire_app. unfold ready_message. by rewrite (wire_single BmReadyForQuery).
  - destruct Hparse as (Hne & Hs & Hsome).
    cbn in Hb. destruct (og_statements d !! pb_statement_name b) as [st|] eqn:Es; [|done].
    cbn in Hb. injection Hb as ->.
    pose proof (origin_run_bound db (def_of s) b describe d as_skip_d0 Es Hpb) as H. rewrite Hans in H.
    destruct H as (d' & E & Hd). exists (body ++ [ready_message status]), d'.
    split_and!; [exact E| |apply Hd..]. rewrite wire_app. unfold ready_message.
    by rewrite (wire_single BmReadyForQuery).
Qed.

Lemma run_served cd rows rd cc :
  dispatched c (pp_statement_name <$> option_list parse) run_lazy cd ->
  serves_current db (transaction_status c) (def_of run_statement) b rows rd cc ->
  group_matches (Some (served_bytes run_pipeline (transaction_status c) rows rd cc,
                       handle_cache_outcome OutComplete cd, o)) db g d names.
Proof.
  intros Hd Hs. destruct (run_served_answer _ _ _ _ Hs eq_refl) as (replies & d' & E & W & Hd').
  apply (group_matches_intro _ _ _ _ _ _ _ _ _ E); [done|].
  destruct (dispatched_complete _ _ _ _ Hd) as (Rest & P & C & S).
  pose proof run_known as [Hok _]. destruct Hrun as [[] Hp _ _ Hparse].
  assert (Ho : origin_at o (og_statements o) (transaction_status c)) by by split_and!.
  assert (Hacc := proj1 Hs). unfold run_statement in *.
  eapply group_left_intro; [done|rewrite P, Hp|rewrite P, Hp|by rewrite C|exact S|exact Ho|exact Hd'].
  - destruct parse as [p|]; [|done]. apply stmts_insert; [done|]. by destruct Hparse as (_ & _ & _ & <-).
  - destruct parse as [p|]; [|done]. destruct Hparse as (Hno & _ & _ & _).
    by apply (agree_parsed p (statement_of p data)).
Qed.

Lemma run_buffer_forward effects sync :
  frame_requests sync RqSync ->
  let buf := {| eb_entries := [run_entry effects]; eb_pending := segment_default |} in
  let cf := extended_buffer_forward_to_origin buf sync c in
  cx_proxy_mode cf = ModeRead /\ cx_origin_write_buf cf <> [] /\
  group_matches (exchange to_lowercase lsn_parse db settled cf o) db g d names.
Proof.
  intros Hy buf cf. pose proof (ra_sync Hrun) as [Hq Hc _ _ _ _ _ _].
  assert (Hb : bytes_concat buf = slices_concat datas)
    by (unfold bytes_concat; cbn; by rewrite !app_nil_r).
  assert (Hps : parse_statements_all buf = pp_statement_name <$> option_list parse)
    by (unfold parse_statements_all; cbn; by rewrite !app_nil_r).
  assert (Hl : forward_lazy_parse buf c = run_lazy).
  { unfold forward_lazy_parse, run_lazy, any_has_parse. destruct Hrun as [_ Hp Hpo _ Hparse]. cbn.
    unfold portal_statement. rewrite Hp, Hpo. cbn. destruct parse as [p|]; [done|].
    destruct Hparse as (_ & Hs & _). rewrite (bool_decide_false (is_Some None)) by (intros H; by destruct H).
    cbn. rewrite Hs. cbn. by destruct (pst_origin_prepared s). }
  destruct run_lazy as [name|] eqn:El.
  - destruct (run_lazy_some name El) as (-> & Hne & Hs & Ho & f & Hf & Hlb).
    destruct (forward_lazy buf sync c _ s f Hq Hc Hl Hne Hs Ho Hf) as (W & M & R). fold cf in W, M, R.
    rewrite Hb in W. rewrite Hps in R.
    split_and!; [done|by rewrite W|]. apply (run_forwarded cf sync Hy).
    + rewrite W, Hlb. rewrite <- concat_lazy. cbn. by rewrite !app_nil_r.
    + unfold lazy_intercept. by rewrite El.
  - destruct (forward_plain buf sync c Hq Hc Hl) as (W & M & R). fold cf in W, M, R.
    rewrite Hb in W. rewrite Hps in R.
    split_and!; [done|by rewrite W|]. apply (run_forwarded cf sync Hy).
    + unfold lazy_bytes. rewrite W, El. cbn [app]. rewrite <- concat_forwarded. cbn. by rewrite !app_nil_r.
    + unfold lazy_intercept. by rewrite El.
Qed.

(** The dispatched run: forwarded at the drain, missed, or served. *)
Lemma run_drained says ms c0 effects cand :
  candidate_of run_statement b = Some cand ->
  client_run ms c0 = cache_batch_dispatch [run_entry effects] c ->
  cache_current db settled says g ms c0 d ->
  group_matches (group_run db settled says ms c0 o) db g d names.
Proof.
  intros Hc E Hcur. destruct (run_dispatch effects cand Hc) as (query & Hty & Hd & He & Hp & Hm).
  rewrite <- E in Hd, He, Hp, Hm. rewrite group_run_drain by done.
  unfold cache_current in Hcur.
  pose proof (drain_cases settled _ _ _ _ _ _ Hd He Hp) as Hdr.
  destruct Hdr as [cf Hf|path cf Hf Hst].
  - by apply run_dispatched_forward.
  - destruct says as [rows rd cc| |].
    + apply run_served; [done|]. destruct run_known as [_ Hb].
      by apply (Hcur _ _ _ _ _ _ _ eq_refl Hb), run_asks.
    + by apply run_dispatched_forward.
    + unfold dispatch_unavailable. apply run_dispatched_forward. destruct Hf; by constructor.
Qed.

Lemma run_synced says ms c0 effects sync :
  let buf := {| eb_entries := [run_entry effects]; eb_pending := segment_default |} in
  frame_requests sync RqSync ->
  client_run ms c0 =
    (if cache_batch_eligible buf c then cache_batch_dispatch (eb_entries buf) c
     else let '(answered, c2) := try_synthesize_parse_describe_response buf c in
          if answered then c2 else extended_buffer_forward_to_origin buf sync c2) ->
  cache_current db settled says g ms c0 d ->
  group_matches (group_run db settled says ms c0 o) db g d names.
Proof.
  intros buf Hy E Hcur. destruct (cache_batch_eligible buf c) eqn:Eb.
  - unfold cache_batch_eligible in Eb. rewrite !andb_true_iff in Eb. destruct Eb as [[[[[_ _] _] _] Hall] _].
    cbn in Hall. rewrite andb_true_r in Hall. apply bool_decide_eq_true_1 in Hall as [cand Hc].
    by apply (run_drained says ms c0 effects cand).
  - cbn [try_synthesize_parse_describe_response synth_eligible eb_entries buf negb orb] in E.
    destruct (run_buffer_forward effects sync Hy) as (M & W & H). fold buf in M, W, H.
    rewrite group_run_exchange; rewrite E; done.
Qed.

End Run.

Lemma run_group db settled says parse b describe ms c o d names :
  db_answers db -> group_left c o d names -> may_send (GRun parse b describe) c d names ->
  Forall2 sends ms (group_requests (GRun parse b describe)) ->
  cache_current db settled says (GRun parse b describe) ms c d ->
  group_matches (group_run db settled says ms c o) db (GRun parse b describe) d names.
Proof.
  intros Hdb HG (Hi & _ & Hpb & Hparse) Hs Hcur. assert (HG' := HG).
  destruct HG' as (Hrest & _ & Hagr & _ & _ & _). pose proof (resting_quiet _ Hrest Hi) as Hq.
  assert (Hst : exists s, match parse with
    | Some p => (pp_statement_name p = [] \/ prepared_statements c !! pp_statement_name p = None) /\
                pb_statement_name b = pp_statement_name p
    | None => prepared_statements c !! pb_statement_name b = Some s
    end).
  { destruct parse as [p|].
    - destruct Hparse as [Hf Hb]. exists (statement_of p []). split; [|done].
      by destruct (fresh_free names p c o d Hf Hagr) as (_ & _ & ?).
    - destruct Hparse as [Hne [st Hst]]. specialize (Hagr _ Hne).
      destruct (prepared_statements c !! pb_statement_name b) as [s|]; [by exists s|].
      destruct Hagr as [_ Hd]. by rewrite Hd in Hst. }
  destruct Hst as [s Hst].
  destruct (run_window parse b describe ms c s Hq Hs Hst Hpb)
    as (ms' & sync & c' & data & effects & -> & Hrun & Hy & K & Hs' & Hdata & P).
  apply parts_split in P as (P1 & P2 & P3).
  destruct (sync_buffer sync c c' _ Hy Hq K P3) as (c1 & Hq1 & K1 & R1 & R2 & E). rewrite <- Hrun in E.
  apply (run_synced db settled Hdb parse b describe Hpb (prepared_statements c) o d names c1 s data
    (pm_data <$> ms')) with (effects := effects) (sync := pm_data sync); [|apply Hy|exact E|done].
  constructor.
  - by apply (at_sync_intro c).
  - by rewrite R1.
  - rewrite R2, P2. apply lookup_insert_eq.
  - by apply sends_frames.
  - destruct parse as [p|]; [|by destruct Hparse].
    destruct Hparse as [Hf Hb]. destruct (fresh_free names p c o d Hf Hagr) as (? & ? & _).
    split_and!; [done|done|by apply Hdata|done].
Qed.

(** ** Closing *)

Lemma origin_close db k o :
  og_skip o = false ->
  exists o', origin_run db (group_requests (GClose k)) o =
      ([backend BmCloseComplete CLOSE_COMPLETE_MSG; ready_message (og_status o)], o') /\
    origin_at o' (if is_statement (pc_close_type k) then delete (pc_name k) (og_statements o)
                  else og_statements o) (og_status o).
Proof.
  intros Hk. unfold group_requests. cbn [app origin_run origin_step]. rewrite Hk. cbn [origin_request].
  destruct (is_statement (pc_close_type k)); eexists; (split; [reflexivity|by split_and!]).
Qed.

(** A closed name is unknown on every side. *)
Lemma agree_closed n prep so so' sd names :
  agree prep so sd names -> so' = so \/ so' = delete n so ->
  (so' = so -> n = [] \/ so !! n = None) ->
  agree (delete n prep) so' (delete n sd) (names ∖ {[ n ]}).
Proof.
  intros Ha Hso Hn. eapply (agree_update n); [exact Ha| |].
  - intros i Hi. rewrite !lookup_delete_ne by done. split_and!; [done| |done|set_solver].
    destruct Hso as [-> | ->]; [done|]. by rewrite lookup_delete_ne.
  - intros Hne. unfold agree_at. rewrite !lookup_delete_eq. split; [|done].
    destruct Hso as [-> | ->]; [|by rewrite lookup_delete_eq]. by destruct (Hn eq_refl).
Qed.

Lemma stmts_delete (prep : gmap Bytes (PreparedStatement Q)) name :
  (forall n s, prep !! n = Some s -> stmt_ok n s) ->
  forall n s, delete name prep !! n = Some s -> stmt_ok n s.
Proof. intros H n s [_ Hs]%lookup_delete_Some. by apply H. Qed.

(** The Close origin never heard of: the name is dropped and both replies are written here. *)
Lemma close_local db k c o d names :
  group_left c o d names -> quiet_connection c -> close_locally_handled k c = true ->
  let c1 := extended_update (fun p => closes_set (ep_deferred_close_completes p + 1) p)
              (statement_close (pc_name k) c) in
  forall sync, sends sync RqSync ->
  cx_proxy_mode (client_message sync c1) = ModeRead /\ cx_origin_write_buf (client_message sync c1) = [] /\
  group_matches ('(out, c') ← client_receive (client_message sync c1); Some (out, c', o))
    db (GClose k) d names.
Proof.
  intros (Hr & Hst & Hag & Hca & [So Sd] & [Ko Kd]) Hq Hl c1 sync Hy. apply sends_cases in Hy.
  assert (Hk : is_statement (pc_close_type k) = true /\ exists s, prepared_statements c !! pc_name k = Some s /\
    pst_origin_prepared s = false).
  { unfold close_locally_handled in Hl. unfold is_statement. destruct (Byte.eqb _ _); [|done].
    destruct (negb (bool_decide _ && _)); [done|]. cbn in Hl.
    destruct (prepared_statements c !! pc_name k) as [s|]; [|done]. split; [done|]. exists s.
    by destruct (pst_origin_prepared s). }
  destruct Hk as [Hk (s & Hs & Ho)]. destruct Hq.
  set (status := transaction_status c).
  assert (E : client_message sync c1 =
    egress_update (fun _ => [SlotSynth (CLOSE_COMPLETE_MSG ++ []); SlotSynth (ready_for_query_message status)])
      (extended_update (group_forwarded_set false) (extended_update (closes_set 0) c1))).
  { unfold handle_client_message. rewrite Hy. cbn [cx_flush_describe_pending c1 extended_update statement_close
      maps_with session_update]. rewrite qc_flush0.
    unfold handle_sync_message, deferred_close_completes_flush. cbn. rewrite qc_closes0.
    change (0 + 1 =? 0)%N with false. change (0 <? 0 + 1)%N with true. cbn.
    rewrite qc_buffer0, qc_group0. unfold egress_update. cbn. rewrite qc_egress0. unfold status, transaction_status. cbn.
    by destruct (it_transaction_status (cs_isolation (cx_session c))). }
  rewrite E. split_and!; [done|done|].
  destruct (origin_close db k d Kd) as (d' & Ed & Hd). rewrite Hk in Hd.
  unfold client_receive. cbn [cx_egress egress_update forallb slot_done andb mbind option_bind].
  apply (group_matches_intro _ _ _ _ _ _ _ _ _ Ed); [by rewrite Sd|].
  eapply (group_left_intro _ _ _ _ (og_statements o) _ status);
    [|by apply stmts_delete| |done|done|by split_and!|].
  - constructor; try done. by left.
  - cbn [names_after]. rewrite Hk. eapply agree_closed; [exact Hag|by left|]. intros _.
    destruct (decide (pc_name k = [])) as [|Hne]; [by left|right]. specialize (Hag _ Hne).
    rewrite Hs in Hag. destruct Hag as (_ & -> & _). by rewrite Ho.
  - by rewrite Sd in Hd.
Qed.

(** The Sync of a group that buffered nothing and owes no CloseComplete. *)
Lemma sync_bare sync c :
  sends sync RqSync -> cx_flush_describe_pending c = false ->
  ep_deferred_close_completes (cx_extended c) = 0%N -> ep_buffer (cx_extended c) = None ->
  client_message sync c =
    origin_push (pm_data sync)
      (egress_update origin_open (extended_update (group_forwarded_set false) c)).
Proof.
  intros Hy Hf Hc Hb. apply sends_cases in Hy. unfold handle_client_message. rewrite Hf, Hy.
  unfold handle_sync_message, deferred_close_completes_flush. rewrite Hc. cbn [N.eqb].
  cbn [cx_extended extended_update group_forwarded_set ep_buffer]. by rewrite Hb.
Qed.

(** A Close that goes to origin. *)
Lemma close_sent m k c :
  sends m (RqClose k) -> quiet_connection c -> close_locally_handled k c = false ->
  client_message m c =
    origin_push (pm_data m) (extended_update (group_forwarded_set true)
      (if Byte.eqb (pc_close_type k) x53 then statement_close (pc_name k) c
       else if Byte.eqb (pc_close_type k) x50 then portal_close (pc_name k) c else c)).
Proof.
  intros [Hty Hp]%sends_cases [] Hl. unfold handle_client_message. rewrite qc_flush0, Hty.
  unfold handle_close_message. rewrite Hp, Hl. unfold deferred_close_completes_flush.
  rewrite qc_closes0. cbn [N.eqb]. unfold extended_buffer_flush_to_origin. by rewrite qc_buffer0.
Qed.

Lemma close_forwarded db settled k m sync c o d names :
  group_left c o d names -> quiet_connection c -> close_locally_handled k c = false ->
  sends m (RqClose k) -> sends sync RqSync -> pc_close_type k = x53 \/ pc_close_type k = x50 ->
  let cf := client_message sync (client_message m c) in
  cx_proxy_mode cf = ModeRead /\ cx_origin_write_buf cf <> [] /\
  group_matches (exchange to_lowercase lsn_parse db settled cf o) db (GClose k) d names.
Proof.
  intros (Hr & Hst & Hag & Hca & [So Sd] & [Ko Kd]) Hq Hl Hm Hy Hty cf.
  set (prep' := if is_statement (pc_close_type k) then delete (pc_name k) (prepared_statements c)
                else prepared_statements c).
  assert (E : cx_origin_write_buf cf = [pm_data m; pm_data sync] /\
    replying c InterceptNone prep' (ep_pending_parse_statements (cx_extended c))
      (ep_pending_describe_statements (cx_extended c)) [] (origin_write_update (fun _ => []) cf)).
  { unfold cf. rewrite (close_sent m k c Hm Hq Hl). destruct Hq.
    unfold prep', is_statement. destruct Hty as [-> | ->]; rewrite sync_bare by done;
      (split; [cbn; by rewrite qc_write0|]); (constructor; try done); cbn; rewrite qc_egress0; by exists []. }
  destruct E as [W R].
  split_and!; [exact (rp_mode _ _ _ _ _ _ _ R)|by rewrite W|].
  destruct (origin_close db k o Ko) as (o' & Eo & Ho), (origin_close db k d Kd) as (d' & Ed & Hd).
  rewrite So in Eo, Ho. rewrite Sd in Ed, Hd.
  apply (replying_neutral c _ _ _ _ _ settled (backend BmCloseComplete CLOSE_COMPLETE_MSG)) in R as R';
    [|by left].
  destruct (exchange_group db settled cf c o _ [pm_data m; pm_data sync] [_] _ _ _ _ _ _ _ _ o' _
    ltac:(constructor; [apply Hm|constructor; [apply Hy|constructor]]) (sends_nonempty _ _ [_] Hy)
    (f_equal (@concat byte) W) Eo R (fun _ => R')) as (c' & E & P & S & C & Rest).
  rewrite E. apply (group_matches_intro _ _ _ _ _ _ _ _ _ Ed).
  - change (wire [?x; ?y]) with (pm_data x ++ pm_data y ++ []). by rewrite app_nil_r.
  - eapply group_left_intro; [done|rewrite P|rewrite P|done|exact S|exact Ho|exact Hd]; unfold prep'.
    + destruct (is_statement _); [by apply stmts_delete|done].
    + cbn [names_after]. destruct (is_statement _) eqn:Es; [|done].
      eapply agree_closed; [exact Hag|by right|]. intros Hd'.
      right. rewrite <- Hd'. apply lookup_delete_eq.
Qed.

Lemma close_group db settled says k ms c o d names :
  group_left c o d names -> may_send (GClose k) c d names ->
  Forall2 sends ms (group_requests (GClose k)) ->
  group_matches (group_run db settled says ms c o) db (GClose k) d names.
Proof.
  intros HG (Hi & _ & Hty) Hs. pose proof (resting_quiet _ (proj1 HG) Hi) as Hq.
  apply Forall2_cons_inv_r in Hs as (m & ms1 & Hm & Hs & ->).
  apply Forall2_cons_inv_r in Hs as (sync & ? & Hy & ->%Forall2_nil_inv_r & ->).
  destruct (sends_cases _ _ Hm) as [Htm Hpm].
  destruct (close_locally_handled k c) eqn:Hl.
  - destruct (close_local db k c o d names HG Hq Hl sync Hy) as (M & W & H).
    assert (E : client_message m c = extended_update (fun p => closes_set (ep_deferred_close_completes p + 1) p)
      (statement_close (pc_name k) c)).
    { unfold handle_client_message. rewrite (qc_flush _ Hq), Htm. unfold handle_close_message. by rewrite Hpm, Hl. }
    rewrite <- E in M, W, H. by rewrite group_run_local.
  - destruct (close_forwarded db settled k m sync c o d names HG Hq Hl Hm Hy Hty) as (M & W & H).
    by rewrite group_run_exchange.
Qed.

(** ** The probes *)

(** A reply to a probe is the proxy's: nothing is relayed, and the session keeps its statements
    and its status. *)
Lemma session_probe msg (s : Connection (Maps Q D)) :
  probe_intercept (cs_origin_intercept s) = true -> cs_injected s = [] ->
  let '(s', relayed) := handle_origin_message to_lowercase lsn_parse msg s in
  relayed = false /\ cs_maps s' = cs_maps s /\
  it_transaction_status (cs_isolation s') = it_transaction_status (cs_isolation s) /\
  ((cs_origin_intercept s' = InterceptNone /\ cs_injected s' = []) \/
   probe_intercept (cs_origin_intercept s') = true).
Proof.
  intros Hp Hj. unfold handle_origin_message, origin_intercept_handle, default_transaction_isolation_handle,
    intercept_ready_followup, isolation_probe_inject, origin_intercept_idle.
  destruct (cs_origin_intercept s) eqn:Ei; try discriminate Hp; destruct msg; cbn;
    repeat (case_match; simplify_eq; cbn); rewrite ?Hj; split_and!; try done; try (by right); try (by left);
    try (right; by rewrite Ei).
Qed.

Lemma probe_resting settled m c :
  resting c -> probe_intercept (cs_origin_intercept (cx_session c)) = true ->
  let c' := origin_message settled m (origin_write_update (fun _ => []) c) in
  resting c' /\ prepared_statements c' = prepared_statements c /\
  cache_sub (describe_cache c) (describe_cache c') /\ transaction_status c' = transaction_status c.
Proof.
  intros [] Hp. cbv zeta. unfold connection_origin_message.
  pose proof (session_probe (session_message m) (cx_session c) Hp re_injected0) as H.
  cbn [cx_session origin_write_update].
  destruct (handle_origin_message _ _ _ _) as [s relayed]. destruct H as (-> & Hm & Hs & Hi). cbn [negb].
  set (c1 := injected_flush _).
  assert (H1 : resting c1).
  { constructor; try done. destruct Hi as [[Hi Hj]|Hi]; [left|by right]. cbn. by rewrite Hj. }
  assert (H2 : prepared_statements c1 = prepared_statements c /\ describe_cache c1 = describe_cache c /\
    transaction_status c1 = transaction_status c).
  { unfold prepared_statements, describe_cache, transaction_status, c1. cbn. by rewrite Hm, Hs. }
  destruct H2 as (P & C & S).
  assert (H3 : resting c1 /\ prepared_statements c1 = prepared_statements c /\
    cache_sub (describe_cache c) (describe_cache c1) /\ transaction_status c1 = transaction_status c)
    by by rewrite C.
  destruct (message_type m); try exact H3.
  destruct (write_log_maintain_rested settled c1 (re_injected _ H1)) as ([] & J & W). destruct H1.
  split_and!; [|congruence|by rewrite <- C|congruence].
  constructor; try congruence.
  destruct W as [[Hw1 Hw2]|Hw]; [|by right]. rewrite Hw1, Hw2. exact re_probe1.
Qed.

(** ** Transparency *)

Lemma group_ok db settled says g ms c o d names :
  db_answers db -> group_left c o d names -> may_send g c d names ->
  Forall2 sends ms (group_requests g) -> cache_current db settled says g ms c d ->
  group_matches (group_run db settled says ms c o) db g d names.
Proof.
  intros Hdb HG Hm Hs Hc. destruct g as [p describe|parse b describe|k].
  - by apply prepare_group.
  - by apply run_group.
  - by apply close_group.
Qed.

Lemma tc_inv_step w w' : tc_inv w -> tc_step w w' -> tc_inv w'.
Proof.
  intros [H1 H2 H3 H4 H5 H6 H7] Hst. destruct Hst as [c o d names received expected g ms db settled says out c' o' replies d'
    Hm Hs Hdb Hc Hr Ho|c o d names received expected settled m Hp]; cbn in *.
  - assert (HG : group_left c o d names) by exact (conj H1 (conj H2 (conj H3 (conj H4 (conj H5 H6))))).
    destruct (group_ok db settled says g ms c o d names Hdb HG Hm Hs Hc) as (c1 & o1 & rs & d1 & E & Eo & HL).
    rewrite Hr in E. rewrite Ho in Eo. simplify_eq. by apply group_left_inv.
  - destruct (probe_resting settled m c H1 Hp) as (R & P & C & S).
    destruct H5 as [Ho Hd]. constructor; cbn; try done.
    + by rewrite P.
    + by rewrite P.
    + by eapply cache_ok_sub.
    + by rewrite S.
Qed.

Lemma tc_inv_init cache database log disabled :
  (forall k, fst (lru_get k cache) = None) -> tc_inv (tc_init cache database log disabled).
Proof.
  intros He. constructor; cbn; try done.
  - constructor; try done. by left.
  - intros k e Hk. unfold describe_cache in Hk. cbn in Hk. by rewrite He in Hk.
Qed.


End System.

(** ** An instance *)

Module TransparencyExample.

(** Remembered descriptions as a list. *)
Definition Remembered : Type := list (DescribeKey * DescribeCacheEntry).

Fixpoint remembered (k : DescribeKey) (l : Remembered) : option DescribeCacheEntry :=
  match l with
  | [] => None
  | (k', v) :: l => if decide (k = k') then Some v else remembered k l
  end.

#[export] Instance remembered_lru : LruCache DescribeKey DescribeCacheEntry Remembered :=
  {| lru_get k l := (remembered k l, l); lru_put k v l := (k, v) :: l; lru_clear _ := [] |}.

#[export] Instance remembered_laws : LruLaws DescribeKey DescribeCacheEntry Remembered.
Proof.
  constructor; try done.
  - intros k v l. cbn. by rewrite decide_True.
  - intros k k' v w l Hne. cbn. by rewrite decide_False.
Qed.

(** A PostgreSQL that accepts any text, describes a statement by its text and answers it with
    its text; a text that begins with S is a cacheable read. *)
#[export] Instance echo : Postgres :=
  {| pg_accepts st := negb (is_empty (st_sql st));
     pg_describe st := (frame x74 (be_bytes 2 0), Some (frame x54 (st_sql st)));
     pg_portal_row st _ := Some (frame x54 (st_sql st)); pg_bind_ok _ _ := true;
     pg_error _ := frame x45 [] |}.

Definition echo_db (st : Statement) (_ : ParsedBindMessage) : ExecResult :=
  {| xr_messages := [backend BmCommandComplete (frame x43 (st_sql st))]; xr_ok := true;
     xr_status := Idle |}.

Definition echo_analyze (sql : Bytes) : option (@QueryAction Bytes unit) :=
  match sql with
  | x53 :: _ => Some (QaCacheCheck sql)
  | _ => Some (QaForward UnsupportedStatement effects_default)
  end.

Definition no_parse (_ : Bytes) : option (list (Statement.Statement unit unit)) := Some [].
Definition no_literal (_ : QueryParameter) : option LiteralValue := None.
Definition no_read (_ : CacheMessage Bytes unit)
    : option (list TableNode * option ResolvedSelectNode) := None.
Definition no_lsn (_ : string) : option N := None.

Notation Client := (ProxyConnection Bytes unit Remembered).

Definition parse_msg (name sql : Bytes) : FrontendMessage :=
  {| message_type := FmParse; pm_data := frame x50 (parse_body name sql [] [] 0) |}.
Definition bind_msg (name : Bytes) : FrontendMessage :=
  {| message_type := FmBind; pm_data := frame x42 (bind_body name [] false 0) |}.
Definition describe_msg (kind : byte) (name : Bytes) : FrontendMessage :=
  {| message_type := FmDescribe; pm_data := frame x44 (kind :: name ++ [x00]) |}.
Definition execute_msg : FrontendMessage :=
  {| message_type := FmExecute; pm_data := frame x45 ([x00] ++ be_bytes 4 0) |}.
Definition close_msg (kind : byte) (name : Bytes) : FrontendMessage :=
  {| message_type := FmClose; pm_data := frame x43 (kind :: name ++ [x00]) |}.
Definition sync_msg : FrontendMessage := {| message_type := FmSync; pm_data := frame x53 [] |}.

(** A connection that knows its search path and its isolation level. *)
Definition settled_client : Client :=
  session_update (fun s =>
    search_path_set (PathResolved []) false true
      (isolation_update (session_isolation_set (IsoKnown ReadCommitted)) s))
    (proxy_connection_new [] [] false).

Definition run (says : CacheSays) (ms : list FrontendMessage) (c : Client) (o : Origin)
    : option (Bytes * Client * Origin) :=
  group_run (fun s => s) no_lsn echo_analyze no_parse no_literal no_read echo_db None says ms c o.

(** A statement prepared and described at origin, the probes this sets off answered, then the
    statement run from the cache. *)
Definition world : Type := TwoClients (Q := Bytes) (Spec := unit) (D := Remembered).

Definition advance_world (says : CacheSays) (g : Group) (ms : list FrontendMessage) (w : world) : world :=
  match run says ms (tc_proxy w) (tc_origin w), origin_run echo_db (group_requests g) (tc_direct w) with
  | Some (out, c, o), (replies, d) =>
      two_clients c o d (names_after g (tc_names w)) (tc_received w ++ [out])
        (tc_expected w ++ [wire replies])
  | None, _ => w
  end.

Definition probe_reply (m : BackendMessage) (w : world) : world :=
  two_clients (connection_origin_message (fun s => s) no_lsn None m
                 (origin_write_update (fun _ => []) (tc_proxy w)))
    (tc_origin w) (tc_direct w) (tc_names w) (tc_received w) (tc_expected w).

Notation step := (tc_step (fun s => s) no_lsn echo_analyze no_parse no_literal no_read).

Lemma advance_step says g ms (w : world) :
  may_send g (tc_proxy w) (tc_direct w) (tc_names w) -> Forall2 sends ms (group_requests g) ->
  cache_current echo_analyze no_parse no_literal no_read echo_db None says g ms (tc_proxy w) (tc_direct w) ->
  is_Some (run says ms (tc_proxy w) (tc_origin w)) -> step w (advance_world says g ms w).
Proof.
  intros Hm Hs Hc [[[out c] o] Hr]. unfold advance_world. rewrite Hr.
  destruct (origin_run echo_db (group_requests g) (tc_direct w)) as [replies d'] eqn:Eo.
  destruct w as [c0 o0 d0 n0 r0 e0]. eapply tc_group; [exact Hm|exact Hs| |exact Hc|exact Hr|exact Eo].
  done.
Qed.

Lemma probe_step m (w : world) :
  probe_intercept (cs_origin_intercept (cx_session (tc_proxy w))) = true -> step w (probe_reply m w).
Proof. intros H. destruct w. by apply tc_probe. Qed.

(** Every message comes while a probe is outstanding. *)
Fixpoint probes_ok (ms : list BackendMessage) (w : world) : bool :=
  match ms with
  | [] => true
  | m :: ms => probe_intercept (cs_origin_intercept (cx_session (tc_proxy w))) && probes_ok ms (probe_reply m w)
  end.

Lemma probe_steps ms (w : world) :
  probes_ok ms w = true -> rtc step w (foldl (fun w m => probe_reply m w) w ms).
Proof.
  revert w. induction ms as [|m ms IH]; intros w H; [done|]. apply andb_true_iff in H as [H1 H2].
  eapply rtc_l; [by apply (probe_step m)|]. by apply IH.
Qed.

Lemma frame_sends tag body ty r :
  FRONTEND_MESSAGE_TYPE_MAP tag = Some ty -> fits_i32 body ->
  request_read {| message_type := ty; pm_data := frame tag body |} = Some (Ok r) ->
  sends {| message_type := ty; pm_data := frame tag body |} r.
Proof. intros Ht Hf Hr. split; [by apply (frame_request tag body ty)|]. split; [done|]. by exists tag, body. Qed.

Definition name_a : Bytes := str "a".
Definition select_1 : Bytes := str "SELECT 1".

Definition prepare_a : Group :=
  GPrepare {| pp_statement_name := name_a; pp_sql := select_1; pp_parameter_oids := [] |} true.
Definition run_a : Group :=
  GRun None {| pb_portal_name := []; pb_statement_name := name_a; pb_parameter_formats := [];
               pb_parameter_values := []; pb_result_formats := Implicit |} true.

Definition data_row (text : string) : BackendMessage :=
  backend BmDataRows (frame x44 (be_bytes 2 1 ++ be_bytes 4 (Z.of_nat (String.length text)) ++ str text)).

Definition prepared_world : world :=
  advance_world SaysMiss prepare_a
    [parse_msg name_a select_1; describe_msg x53 name_a; sync_msg] (tc_init [] [] false false).

Definition probed_world : world :=
  foldl (fun w m => probe_reply m w) prepared_world
    [data_row "public"; ready_message Idle; data_row "read committed"; ready_message Idle].

Definition served_world : world :=
  advance_world (SaysServe [] select_1 select_1) run_a
    [bind_msg name_a; describe_msg x50 []; execute_msg; sync_msg] probed_world.

Ltac by_sends := apply frame_sends; [reflexivity|by vm_compute|vm_compute; reflexivity].
Ltac all_sends := repeat (apply List.Forall2_cons; [by_sends|]); apply List.Forall2_nil.

Lemma prepare_a_step : step (tc_init [] [] false false) prepared_world.
Proof.
  apply advance_step; [|all_sends|done|vm_compute; by eexists].
  split_and!; [done|done|]. right. vm_compute. by intros ?.
Qed.

Lemma probes_step : rtc step prepared_world probed_world.
Proof. apply probe_steps. vm_compute. reflexivity. Qed.

Definition leased_status (x : @Drained Bytes unit Remembered) : option TransactionStatus :=
  match x with DrainLeased _ _ _ status _ => Some status | _ => None end.

Lemma run_a_step : step probed_world served_world.
Proof.
  apply advance_step; [|all_sends| |vm_compute; by eexists].
  - split_and!; [vm_compute; done..|]. vm_compute.
    split_and!; [done|done|by eexists].
  - intros msg pl path status c' st b Hd Hb _.
    apply (f_equal leased_status) in Hd. vm_compute in Hd. injection Hd as <-. vm_compute in Hb. injection Hb as <- <-.
    by split_and!; vm_compute.
Qed.


End TransparencyExample.
