(* ===== verification/TransparencyGap.v ===== *)
(** * Histories of the extended protocol in which the proxy is not transparent

    Computed on the instance of Transparency.  Each history is legal for a client of
    PostgreSQL and outside what [may_send] allows: the messages that reach the client, or the
    read the cache is asked, are not those of a direct connection. *)
From Stdlib Require Import Strings.Byte Strings.String.
From stdpp Require Import base list strings.
From S2P Require Import Prelude Value Ast Cast WriteAggregate WriteLog Egress Statement Session Dispatch Wire CacheConn Serve Extended Transparency.
Import TransparencyExample.

Open Scope Z_scope.

Module TransparencyGap.

Definition b_ : Bytes := str "b".
Definition insert_ : Bytes := str "INSERT".
Definition select_2 : Bytes := str "SELECT 2".

(** What the client reads: the type of each message, with the text of a description or a
    command tag. *)
Fixpoint messages (fuel : nat) (bytes : Bytes) : list (byte * Bytes) :=
  match fuel, bytes with
  | S fuel, tag :: x00 :: x00 :: x00 :: n :: rest =>
      let n := (N.to_nat (Byte.to_N n) - 4)%nat in
      (tag, take n rest) :: messages fuel (drop n rest)
  | _, _ => []
  end.

Notation Outcome := (option (Bytes * Client * Origin)).

Definition then_ (says : CacheSays) (ms : list FrontendMessage) (x : Outcome) : Outcome :=
  match x with Some (_, c, o) => run says ms c o | None => None end.

Definition seen (x : Outcome) : option (list (byte * Bytes)) :=
  (fun '(out, _, _) => messages 20 out) <$> x.

Definition start : Outcome := Some ([], settled_client, origin_new).

Definition requests (ms : list FrontendMessage) : list FrontendRequest :=
  omap (fun m => match request_read m with Some (Ok r) => Some r | _ => None end) ms.

(** The same messages, group after group, on a direct connection. *)
Fixpoint direct (groups : list (list FrontendMessage)) (o : Origin) : list BackendMessage :=
  match groups with
  | [] => []
  | [ms] => fst (origin_run echo_db (requests ms) o)
  | ms :: groups => direct groups (snd (origin_run echo_db (requests ms) o))
  end.

Definition direct_seen (groups : list (list FrontendMessage)) : list (byte * Bytes) :=
  messages 20 (wire (direct groups origin_new)).

Definition one_run (name sql : Bytes) : list FrontendMessage :=
  [parse_msg name sql; bind_msg name; execute_msg; sync_msg].

(** The read leased to the cache. *)
Definition leased (ms : list FrontendMessage) (x : Outcome) : option Bytes :=
  match x with
  | Some (_, c, _) =>
      match origin_drain no_read None (client_run echo_analyze no_parse no_literal ms c) with
      | DrainLeased (CmQueryParameterized _ q _ _) _ _ _ _ => Some q
      | _ => None
      end
  | None => None
  end.

Definition ready : byte * Bytes := (x5a, [x49]).
Definition error_then_ready : list (byte * Bytes) := [(x45, []); ready].

(** *** A name used again *)

Definition deallocated (x : Outcome) : Outcome :=
  match x with
  | Some (out, c, o) => Some (out, c, origin_with (delete name_a (og_statements o)) None o)
  | None => None
  end.

(** A name that DEALLOCATE freed keeps its old text in the proxy when it is prepared again
    ([or_insert]): the cache is asked the old query, and its old description is given. *)
Theorem reprepared_name_serves_old_query :
  let prepared := deallocated (then_ SaysMiss
    [parse_msg name_a select_1; describe_msg x53 name_a; sync_msg] start) in
  leased (one_run name_a select_2) prepared = Some select_1 /\
  seen (then_ SaysMiss [parse_msg name_a select_2; describe_msg x53 name_a; sync_msg] prepared)
  = Some [(x31, []); (x74, be_bytes 2 0); (x54, select_1); ready].
Proof. split; vm_compute; reflexivity. Qed.

(** *** Two Executes in a batch *)

(** Both Executes of a batch miss: the statement the first parsed is parsed again for the
    second, the client's ParseComplete is swallowed and its second execution fails. *)
Theorem batch_of_two_misses_fails :
  let ms := [parse_msg name_a select_1; bind_msg name_a; execute_msg; bind_msg name_a; execute_msg; sync_msg] in
  seen (then_ SaysMiss ms start) = Some [(x32, []); (x43, select_1); (x45, []); ready] /\
  direct_seen [ms] = [(x31, []); (x32, []); (x43, select_1); (x32, []); (x43, select_1); ready].
Proof. split; vm_compute; reflexivity. Qed.

(** A forwarded batch takes the statement to parse from the portal as the last Bind left it: the
    statement of its first Execute, served from the cache so far, is unknown to origin. *)
Theorem forwarded_batch_misses_first_statement :
  let served := then_ (SaysServe [] select_1 select_1) (one_run name_a select_1)
                  (then_ SaysMiss [parse_msg b_ insert_; sync_msg] start) in
  let ms := [bind_msg name_a; execute_msg; bind_msg b_; execute_msg; sync_msg] in
  seen (then_ SaysMiss ms served) = Some error_then_ready /\
  direct_seen [[parse_msg b_ insert_; sync_msg]; one_run name_a select_1; ms]
  = [(x32, []); (x43, select_1); (x32, []); (x43, insert_); ready].
Proof. split; vm_compute; reflexivity. Qed.

(** *** Statements origin has not seen *)

Definition served_a : Outcome := then_ (SaysServe [] select_1 select_1) (one_run name_a select_1) start.

(** A Describe, or a Bind that is not executed, of a statement only served from the cache goes
    to origin without its Parse, as does a batch cut by a Close of a portal. *)
Theorem unparsed_statement_fails_at_origin :
  seen (then_ SaysMiss [describe_msg x53 name_a; sync_msg] served_a) = Some error_then_ready /\
  seen (then_ SaysMiss [bind_msg name_a; sync_msg] served_a) = Some error_then_ready /\
  seen (then_ SaysMiss [bind_msg name_a; execute_msg; close_msg x50 []; sync_msg] served_a)
  = Some error_then_ready /\
  direct_seen [one_run name_a select_1; [describe_msg x53 name_a; sync_msg]]
  = [(x74, be_bytes 2 0); (x54, select_1); ready].
Proof. split_and!; vm_compute; reflexivity. Qed.

(** The unnamed statement is never parsed lazily: bound again without a Parse, it is the one
    origin saw last that runs. *)
Theorem unnamed_rebind_runs_old_statement :
  let served := then_ (SaysServe [] select_2 select_2) (one_run [] select_2)
                  (then_ SaysMiss (one_run [] select_1) start) in
  seen (then_ SaysMiss [bind_msg []; execute_msg; sync_msg] served)
  = Some [(x32, []); (x43, select_1); ready] /\
  direct_seen [one_run [] select_1; one_run [] select_2; [bind_msg []; execute_msg; sync_msg]]
  = [(x32, []); (x43, select_2); ready].
Proof. split; vm_compute; reflexivity. Qed.

(** *** Replies credited to another statement *)

(** The RowDescription of a portal is taken for the one of the statement whose description is
    awaited; the wrong columns are remembered and given to the next client of that text. *)
Theorem portal_description_poisons_cache :
  let prepared := then_ SaysMiss [parse_msg b_ select_2; describe_msg x53 b_; sync_msg]
                    (then_ SaysMiss [parse_msg name_a select_1; describe_msg x53 name_a; sync_msg] start) in
  let mixed := then_ SaysMiss [bind_msg name_a; describe_msg x50 []; execute_msg;
                               describe_msg x53 b_; sync_msg] prepared in
  seen (then_ SaysMiss [parse_msg b_ select_2; describe_msg x53 b_; sync_msg]
          (then_ SaysMiss [close_msg x53 b_; sync_msg] mixed))
  = Some [(x31, []); (x74, be_bytes 2 0); (x54, select_1); ready].
Proof. vm_compute. reflexivity. Qed.

(** A Close in the middle of a batch replaces the names awaited: the ParseComplete of one
    statement marks another, and the first is parsed twice when it is run. *)
Theorem close_in_batch_forgets_parse :
  let mixed := then_ SaysMiss [parse_msg name_a select_1; close_msg x53 (str "x"); parse_msg b_ select_2;
                               sync_msg] start in
  seen (then_ SaysMiss [bind_msg name_a; execute_msg; sync_msg] mixed) = Some error_then_ready.
Proof. vm_compute. reflexivity. Qed.

(** *** Rows and order *)

(** An Execute that asks for at most one row is leased to the cache like any other. *)
Theorem row_limit_is_ignored :
  let limited := {| message_type := FmExecute; pm_data := frame x45 ([x00] ++ be_bytes 4 1) |} in
  request_read limited = Some (Ok (RqExecute {| pe_portal_name := []; pe_max_rows := 1 |})) /\
  leased [parse_msg name_a select_1; bind_msg name_a; limited; sync_msg] start = Some select_1.
Proof. split; vm_compute; reflexivity. Qed.

(** A message that does not parse is forwarded at once, ahead of those that are buffered. *)
Theorem malformed_message_overtakes :
  let bad := {| message_type := FmBind; pm_data := frame x42 [] |} in
  (fun f => head f) <$> cx_origin_write_buf (client_run echo_analyze no_parse no_literal
    [parse_msg name_a select_1; bad; sync_msg] settled_client) = [Some x42; Some x50].
Proof. vm_compute. reflexivity. Qed.

End TransparencyGap.
